(* ===== verification/_CoqProject ===== *)
-Q . S2P
Prelude.v
GoString.v
GoHash.v
GoFloat.v
GoTime.v
Model.v
Store.v
Protocol.v
Common.v
MemoryStore.v
CasLimit.v
FixedWindow.v
Quota.v
Concurrency.v
SlidingLog.v
SlidingCounter.v
TokenBucket.v
LeakyBucket.v
Matcher.v
KeyBuilder.v
PolicyCache.v
PolicyStore.v
Engine.v
Region.v
CircuitBreaker.v
WorkerPool.v
Provider.v
Adapters.v
Otel.v
ControlPlane.v
LeaseEndpoints.v
Analytics.v
Middleware.v
GoCrypto.v
GoJson.v
Rounding.v
RedisStore.v
RedisSafety.v
RedisOptions.v
Http.v
Auth.v
Config.v
ServerCmd.v
Invalidation.v
Agent.v
GrpcService.v
Metrics.v
SqlStore.v
SqlSafety.v
Progress.v
SlidingSafety.v
Startup.v
Reports.v
ScaffoldStore.v
AgentMain.v
FloatError.v
BucketBounds.v
BucketRaces.v
AdapterSet.v
Wire.v
ExampleHttp.v
SdkApi.v
SdkCheck.v
