(* ===== verification/Prelude.v ===== *)
(** * RLAAS verification

    RLAAS is a rate limiter written in Go.  A request context (organisation,
    tenant, service, user, tags, quantity) is matched against policies, the winning
    policy names an algorithm, the algorithm keeps its counters in a counter store,
    and the outcome is a decision: allow, deny, delay, sample, drop.  Adapters put
    the limiter in front of HTTP and gRPC servers and of telemetry pipelines; a
    control plane changes the policies; a server puts these behind endpoints, and
    agents beside other programs forward to it; client SDKs in eight languages call
    its endpoints.

    ** The parts, and the files that model them

    The language.  [Prelude]: 64-bit integers with wrap-around, results, sorting,
    shared list lemmas, tactics and hints.  [GoString]: packages strings, strconv,
    hash/fnv.  [GoHash]: crypto/sha1, encoding/hex.  [GoCrypto]: crypto/sha256,
    crypto/hmac, encoding/base64.  [GoJson]: encoding/json for documents and for maps
    of strings.  [GoFloat]: float64 as IEEE 754 binary64; [Rounding]: what its
    rounding keeps, and [FloatError]: how far its operations are from the exact
    rational ones.  [GoTime]: durations, instants and the calendar of package time.
    [Http]: the parts of net/http that handlers use.

    The data.  [Model] is pkg/model/model.go, field by field, and [Wire] its JSON by the
    struct tags: what encoding/json stores for a value, and which value it writes.

    The counter stores.  [Store] is internal/store/interfaces.go: each method of
    [CounterStore] is a constructor of [CounterOp]; an algorithm is a program
    ([prog]) of such calls, [run] executes one alone and [pool_step] interleaves
    any number of them, call by call, with the steps of an environment.
    [Protocol] states what a store promises ([StoreLaws], [LeaseLaws]) and what a
    client that admits by compare-and-swap or by leases does ([obeys]), and proves
    that any interleaving of such clients on such a store keeps the limit.  Four
    stores are instances of the laws:
    - [MemoryStore], internal/store/counter/memory, with shards, expiry, collector;
    - [CircuitBreaker], the breaker of internal/store/counter/redis in front of any
      store that keeps the laws; its methods are programs of atomic actions;
    - [RedisStore], the commands and Lua scripts of internal/store/counter/redis on
      a server given by [RedisLaws], with messages lost or sent again; [RedisSafety]
      instantiates the laws and [RedisOptions] is [NewWithOptions];
    - [SqlStore], internal/store/counter/postgres and oracle: each method is the SQL
      statements it sends, statements are functions on tables, and [db_step]
      interleaves the statements of any number of connections with row locks,
      transactions and faults; [SqlSafety] instantiates the laws for one connection
      and proves what holds with many.

    The algorithms (internal/algorithm).  [Common]: windows, costs, over-limit
    decisions.  [CasLimit]: the compare-and-swap loop of [FixedWindow] and [Quota].
    [Concurrency], [SlidingLog], [SlidingCounter], [TokenBucket], [LeakyBucket].
    [Evaluate] of each file is the method of that name of the package.  [Progress] is
    about how long evaluations take and what contention does to them,
    [SlidingSafety] about concurrent clients of the sliding counter, [BucketBounds]
    about what the two buckets admit over a period, and [BucketRaces] about concurrent
    clients of a bucket.

    From a request to a decision.  [Matcher] is internal/engine/matcher,
    [KeyBuilder] internal/key, [PolicyCache] internal/store/cache (with [GetOrLoad]
    as a step relation of concurrent callers), [PolicyStore]
    internal/store/policy/file, [ScaffoldStore] the placeholders for SQL policy
    stores.  [Engine] is internal/engine/evaluator and the client
    of pkg/rlaas: picking a policy reads the cache and the policy store, and what
    follows is a program of counter store calls.  [Region] is internal/region.

    Telemetry.  [WorkerPool] models once the pools of workers that evaluate
    batches; [Provider] is pkg/provider, [Adapters] the Kafka, Datadog, Fluent Bit
    and Envoy adapters, [Otel] the OpenTelemetry processor and adapter.  [AdapterSet]
    is the [Adapter] interface of pkg/provider with its laws and its five
    implementations.

    Serving.  [ControlPlane] holds the policy endpoints and [LeaseEndpoints] the
    lease endpoints of internal/adapter/http/controlplane.go, [Middleware] the HTTP
    middleware, the check endpoint and the gRPC interceptor, [GrpcService]
    internal/adapter/grpc/service.go and the recovery interceptors, [Analytics] the
    usage recorder and the asynchronous audit logger, [Reports] the summary endpoint
    and the audit file, [Metrics] internal/metrics, whose calls are sequences
    of atomic actions.  [Auth] is internal/server/auth.go, [Http] has the probes,
    panic recovery, body limit and trace context of internal/server.

    The processes.  [Config] is internal/config.  [ServerCmd] puts the routes and the
    middleware of cmd/rlaas-server together; [Startup] is the life of its process:
    TLS and server options, the goroutines, signals, draining.  [Invalidation] is the
    broker of internal/controlplane/invalidation and the dispatcher of the server
    that posts policy changes to agents.  [Agent] is cmd/rlaas-agent: its settings,
    endpoints and synchronisation loop, and [AgentMain] the life of its process.
    [ExampleHttp] is examples/http on the policy file of the repository.

    The client SDKs (sdk/).  [SdkApi] has for each language the request that every
    operation sends and where it sends it; [SdkCheck] what a check sends, what becomes
    of the answer, decisions and errors, and the middleware of the Node client.

    ** What the theorems show

    - Limits hold under concurrency: [fixed_window_safe], [quota_safe] and
      [sliding_counter_safe] on every lawful store, [concurrency_safe] on the memory
      store, [redis_fixed_window_safe], [redis_concurrency_safe] on Redis behind its
      breaker, [sql_fixed_window_safe], [sql_concurrency_safe] on the databases, and
      [engine_fixed_window_safe] through the engine.  The theorems on windows count every
      request that is allowed; they are about policies whose action blocks, windows of a
      positive length other than months, and costs that do not overflow.
    - The log and the buckets keep their limits for requests served one at a time:
      [sliding_log_exact], [token_bucket_bound], [leaky_bucket_bound].  [BucketRaces]
      has the runs in which concurrent requests exceed them ([token_bucket_race],
      [overtaken_log_exceeds]).
    - Evaluations end and contention is harmless with enough attempts:
      [evaluation_terminates], [no_contention].
    - Each algorithm, served alone, decides what it documents and charges exactly
      what it admits: [fixed_window_alone], [sliding_counter_alone],
      [token_bucket_alone], [leaky_bucket_alone]; [fallback_equiv] relates the two
      paths of the sliding log; [window_partition] is about windows.
    - The memory store behaves as one map: [sharding_transparent],
      [sweep_transparent].
    - The right policy is applied: [winner_maximal], [narrower_wins],
      [expression_meaning], [one_key_per_scope], [keys_separate],
      [engine_picks_best], [engine_blocks_only_when], [rollout_monotone].
    - Policies are kept: [history_consistent], [file_store_refines],
      [update_read_back], [cache_capacity], [cache_fresh],
      [one_loader_per_namespace], [changes_announced], [rollback_restores].
    - Policy changes arrive: [distributed_as_local], [dispatcher_accounts],
      [publish_reaches_all], [change_reaches_agent], [invalidation_fetched],
      [loop_outlives_requests].
    - Leases: [lease_takes_slot], [http_lease_roundtrip], [grpc_leases_accounted].
    - Only authorized requests are served: [auth_enforced], [issued_token_accepted],
      [server_chain], [valid_config_refuses].
    - Clients and server agree: [clients_served], [check_end_to_end],
      [policy_roundtrip], [express_gate]; what does not arrive is shown by examples.
    - The server starts and stops in order: [lifecycle_safe], [shutdown_progress].
    - Regions: [allocation_exact], [allocator_complete].
    - The breaker: [breaker_refines], [breaker_needs_failures].
    - Batches, telemetry and what is recorded: [batch_decides_each],
      [adapters_keep_allowed], [adapters_registered], [otel_accounts],
      [otel_adapter_reports],
      [audit_keeps_accepted], [audit_file_complete], [summary_exact],
      [metrics_exact], [percentile_least_bound].

    Examples next to the theorems show where their hypotheses are needed: an
    overflowing quantity, months of 31 days, windows of length zero, sanitized
    keys, a stale probe of the breaker, a lease whose release failed or was sent
    twice, counters that no row holds yet, an empty key, an early signal.

    ** How the model relates to the code

    A method that holds one lock for its whole duration is one step.  A call of the
    memory store happens at one instant of the clock; between two calls time may
    pass and the collector may sweep one shard.  A Lua script is one step of the
    Redis server, and the attempts go-redis makes to deliver it follow one another;
    an SQL statement is one step of the database.  The clocks of Redis and of the
    databases agree with Go's.  The engine's lookup of the policies of one request
    happens at one instant too.  A worker's writes after an evaluation are one step.
    A scrape of the metrics reads one state.  The location of the clock is a fixed
    offset from UTC.  A context is never cancelled, except where a parameter says
    so.  Arithmetic on [int64] wraps where the source can leave the range.

    Parameters stand for what is not in the repository: the Redis server and the
    numbers of Lua as text; the precision of timestamps and the hash of the
    databases; the delivery of Redis Pub/Sub; X.509; the decoding of policy files and
    of request bodies (with the round trip of encoding/json as a hypothesis where
    one is needed); the JSON text of floats and times, and the libraries the client
    SDKs read JSON with (Jackson, serde, nlohmann/json), of which the documented
    behaviour on the members of a decision is a hypothesis; the parsing of URLs; [%q] of fmt; the outcome of system calls;
    random bytes; and whatever order Go visits a map or sorts equal elements in.
    Routes are looked up for paths in canonical form.

    Retry loops recurse on the number of attempts of the source, which is the
    policy's, or the default.  Fuel occurs where text is consumed ([split_fuel],
    [trim_left_fuel], [parse_components], [words], [sha1_blocks], [sha256_blocks],
    [read_value], [read_string], [escape_fuel], [valid_fuel]): each step consumes at
    least a byte, so the length of the text is enough; and in the binary search of
    [Metrics] ([search_loop]), which halves an interval of at most the length of the
    list.

    ** What is not modelled

    Not modelled are code that only calls libraries (connection pools, pings, the
    network itself, the HTTP transport of the client SDKs and its timeouts), generated
    code and the version string.  The policies of all clients are
    given as the JSON values they are written as (the classes of the Java and .NET clients
    with the names they are written with), and the JSON of lists in answers
    of the control plane, which depends on whether an empty slice is nil, is left out.
    The bounds of the log and of the buckets are for requests served one at a time: they
    do not hold for concurrent ones. *)

From Stdlib Require Export ZArith Lia.
From stdpp Require Export base option list gmap strings fin_maps pretty relations sorting.

(** ** Machine integers

    Go's [int64] and [time.Duration] are integers of 64 bits whose addition,
    subtraction, multiplication and negation wrap around.  A value of such a
    type is a [Z] in the range, and every operation of the source that can leave
    the range is written with one of the wrapping operators below. *)

Declare Scope go_scope.
Delimit Scope go_scope with go.

Abbreviation int64 := Z (only parsing).
Abbreviation Duration := Z (only parsing).

Definition maxInt64 : Z := 9223372036854775807.
Definition minInt64 : Z := -9223372036854775808.
Definition two64 : Z := 18446744073709551616.
Definition two32 : Z := 4294967296.

(** Two's complement reduction to 64 bits. *)
Definition wrap64 (z : Z) : int64 := ((z - minInt64) mod two64 + minInt64)%Z.

Notation "x +! y" := (wrap64 (x + y)) (at level 50, left associativity) : go_scope.
Notation "x -! y" := (wrap64 (x - y)) (at level 50, left associativity) : go_scope.
Notation "x *! y" := (wrap64 (x * y)) (at level 40, left associativity) : go_scope.

Definition in_int64 (z : Z) : Prop := (minInt64 <= z <= maxInt64)%Z.

#[export] Instance in_int64_dec z : Decision (in_int64 z).
Proof. unfold in_int64. apply _. Defined.

(** ** Results of fallible Go calls

    A Go function returning [(v, err)] is a [result]: every caller in the
    repository ignores the value when the error is not nil. *)

Inductive result (A : Type) : Type :=
| Ok (a : A)
| Err (msg : string).
Arguments Ok {_} _.
Arguments Err {_} _.

#[export] Instance result_eq_dec `{EqDecision A} : EqDecision (result A).
Proof. solve_decision. Defined.

(** ** Go maps from string to string

    A nil map and an empty map read alike; only code that tests for nil tells
    them apart. *)

Abbreviation GoMap := (option (gmap string string)) (only parsing).

(** [m[k]]: the zero value when the key is absent or the map is nil. *)
Definition mget (m : GoMap) (k : string) : string :=
  match m with Some g => default "" (g !! k) | None => "" end.

(** [len(m)] and [range m] see a nil map as an empty one. *)
Definition mentries (m : GoMap) : gmap string string := default ∅ m.
Definition mlen (m : GoMap) : Z := Z.of_nat (size (mentries m)).

(** ** Automation *)

Create HintDb rlaas.
Create Rewrite HintDb wrap.

(** Case analysis on the innermost test of the goal or of a hypothesis. *)
Ltac case_step :=
  match goal with
  | |- context [if ?b then _ else _] =>
      lazymatch b with context [if _ then _ else _] => fail | _ => destruct b eqn:? end
  | H : context [if ?b then _ else _] |- _ =>
      lazymatch b with context [if _ then _ else _] => fail | _ => destruct b eqn:? end
  end.

(** Boolean comparisons of [Z] and of strings as propositions. *)
Ltac zify_bool :=
  repeat match goal with
  | H : (_ && _)%bool = true |- _ => apply andb_true_iff in H as [? ?]
  | H : (_ || _)%bool = false |- _ => apply orb_false_iff in H as [? ?]
  | H : (_ <? _)%Z = true |- _ => apply Z.ltb_lt in H
  | H : (_ <? _)%Z = false |- _ => apply Z.ltb_ge in H
  | H : (_ <=? _)%Z = true |- _ => apply Z.leb_le in H
  | H : (_ <=? _)%Z = false |- _ => apply Z.leb_gt in H
  | H : (_ =? _)%Z = true |- _ => apply Z.eqb_eq in H
  | H : (_ =? _)%Z = false |- _ => apply Z.eqb_neq in H
  | H : (_ =? _)%string = true |- _ => apply String.eqb_eq in H
  | H : (_ =? _)%string = false |- _ => apply String.eqb_neq in H
  | H : negb _ = true |- _ => apply negb_true_iff in H
  | H : negb _ = false |- _ => apply negb_false_iff in H
  end.

Ltac zcases := repeat case_step; zify_bool; try lia; try congruence.

(** ** Lemmas on machine integers *)

Lemma wrap64_small z : in_int64 z -> wrap64 z = z.
Proof.
  unfold in_int64, wrap64. intros [H1 H2].
  unfold minInt64, maxInt64, two64 in *. rewrite Z.mod_small; lia.
Qed.

Lemma wrap64_range z : in_int64 (wrap64 z).
Proof.
  unfold in_int64, wrap64.
  pose proof (Z.mod_pos_bound (z - minInt64) two64 ltac:(unfold two64; lia)).
  unfold minInt64, maxInt64, two64 in *. lia.
Qed.

(** A sum that leaves the range upwards comes back [2^64] lower. *)
Lemma wrap64_over z : (maxInt64 < z <= maxInt64 + two64)%Z -> wrap64 z = (z - two64)%Z.
Proof.
  unfold wrap64. intros H.
  replace (z - minInt64)%Z with ((z - two64 - minInt64) + 1 * two64)%Z by lia.
  rewrite Z_mod_plus_full, Z.mod_small; unfold minInt64, maxInt64, two64 in *; lia.
Qed.

Lemma wrap64_idemp z : wrap64 (wrap64 z) = wrap64 z.
Proof. apply wrap64_small, wrap64_range. Qed.

Lemma wrap64_eq x y : wrap64 x = wrap64 y -> exists k, (x = y + k * two64)%Z.
Proof.
  unfold wrap64. intros H. pose proof (Z.div_mod (x - minInt64) two64 ltac:(done)).
  pose proof (Z.div_mod (y - minInt64) two64 ltac:(done)).
  exists ((x - minInt64) / two64 - (y - minInt64) / two64)%Z. lia.
Qed.

#[export] Hint Resolve wrap64_range : rlaas.
#[export] Hint Rewrite wrap64_idemp : wrap.

(** Discharges a wrapping operator whose exact result is in range. *)
Ltac unwrap :=
  repeat match goal with
  | |- context [wrap64 ?z] =>
      rewrite (wrap64_small z) by (unfold in_int64, minInt64, maxInt64 in *; lia)
  | H : context [wrap64 ?z] |- _ =>
      rewrite (wrap64_small z) in H by (unfold in_int64, minInt64, maxInt64 in *; lia)
  end.

(** ** Lemmas on lists *)

Definition sumZ (l : list Z) : Z := foldr Z.add 0%Z l.

Lemma sumZ_cons x l : sumZ (x :: l) = (x + sumZ l)%Z.
Proof. done. Qed.

Lemma sumZ_app l1 l2 : sumZ (l1 ++ l2) = (sumZ l1 + sumZ l2)%Z.
Proof. induction l1 as [|x l1 IH]; simpl; [done|]. rewrite IH. lia. Qed.

Lemma sumZ_Permutation l1 l2 : l1 ≡ₚ l2 -> sumZ l1 = sumZ l2.
Proof. induction 1; simpl; lia. Qed.

(** Replacing one summand changes the sum by the difference. *)
Lemma sumZ_insert {A} (f : A -> Z) (l : list A) i x y :
  l !! i = Some x ->
  sumZ (f <$> <[i := y]> l) = (sumZ (f <$> l) - f x + f y)%Z.
Proof.
  revert i. induction l as [|z l IH]; intros [|i] H; simplify_eq/=; [lia|].
  rewrite IH by done. lia.
Qed.

Lemma sumZ_nonneg l : Forall (fun x => 0 <= x)%Z l -> (0 <= sumZ l)%Z.
Proof. induction 1; simpl; lia. Qed.

#[export] Instance sumZ_proper : Proper ((≡ₚ) ==> eq) sumZ.
Proof. intros l1 l2. apply sumZ_Permutation. Qed.

Lemma filter_all_id {A} (P : A -> Prop) `{!forall x, Decision (P x)} (l : list A) :
  Forall P l -> filter P l = l.
Proof.
  induction 1; [done|]. rewrite filter_cons_True by done. by f_equal.
Qed.

Lemma filter_length_le {A} (P : A -> Prop) `{!forall x, Decision (P x)} (l : list A) :
  (length (filter P l) <= length l)%nat.
Proof. induction l as [|x l IH]; [done|]. rewrite filter_cons. case_decide; simpl; lia. Qed.

(** ** Stable sorting

    [sort.SliceStable(xs, less)], and [sort.Slice] where equal elements are
    indistinguishable.  [less] is the strict comparison the Go code passes. *)

Section Sorting.
Context {A : Type} (less : A -> A -> bool).

(** Inserts an element that came before all of [l], keeping it before its equals. *)
Fixpoint insert_by (x : A) (l : list A) : list A :=
  match l with
  | [] => [x]
  | y :: l' => if less y x then y :: insert_by x l' else x :: l
  end.

Fixpoint sort_by (l : list A) : list A :=
  match l with
  | [] => []
  | x :: l' => insert_by x (sort_by l')
  end.

Definition not_after (x y : A) : Prop := less y x = false.

Lemma insert_by_Permutation x l : insert_by x l ≡ₚ x :: l.
Proof.
  induction l as [|y l IH]; simpl; [done|].
  destruct (less y x); [|done]. rewrite IH. constructor.
Qed.

Lemma sort_by_Permutation l : sort_by l ≡ₚ l.
Proof. induction l as [|x l IH]; simpl; [done|]. by rewrite insert_by_Permutation, IH. Qed.

Lemma sort_by_length l : length (sort_by l) = length l.
Proof. by rewrite sort_by_Permutation. Qed.

Hypothesis less_asym : forall x y, less x y = true -> less y x = false.
Hypothesis not_after_trans : Transitive not_after.

Lemma insert_by_sorted x l :
  StronglySorted not_after l -> StronglySorted not_after (insert_by x l).
Proof.
  induction 1 as [|y l Hl IH Hy]; simpl; [repeat constructor|].
  destruct (less y x) eqn:E.
  - constructor; [done|]. rewrite insert_by_Permutation. constructor; [|done].
    by apply less_asym.
  - repeat constructor; [done..|].
    eapply Forall_impl; [exact Hy|]. intros z Hz. by transitivity y.
Qed.

Lemma sort_by_sorted l : StronglySorted not_after (sort_by l).
Proof. induction l; simpl; [constructor|]. by apply insert_by_sorted. Qed.

(** The head of a sorted list is not after any element. *)
Lemma sort_by_head l x l' :
  sort_by l = x :: l' -> forall y, y ∈ l -> y = x \/ not_after x y.
Proof.
  intros E y Hy. pose proof (sort_by_sorted l) as HS. rewrite E in HS.
  apply StronglySorted_inv in HS as [_ HF].
  rewrite <- (sort_by_Permutation l), E in Hy.
  apply elem_of_cons in Hy as [->|Hy]; [by left|right].
  rewrite Forall_forall in HF. auto.
Qed.

(** A sorted list is left as it is. *)
Lemma sort_by_id l : StronglySorted not_after l -> sort_by l = l.
Proof.
  induction 1 as [|x l Hl IH Hx]; simpl; [done|]. rewrite IH.
  destruct l as [|y l]; simpl; [done|].
  apply Forall_cons in Hx as [Hxy _]. unfold not_after in Hxy. by rewrite Hxy.
Qed.
End Sorting.
