(* ===== verification/GoString.v ===== *)
(** * Go strings and hashing

    A Go [string] is a sequence of bytes: Stdlib's [string], one [ascii] per
    byte.  This file holds the functions of the packages [strings], [strconv]
    and [hash/fnv] that the limiter calls. *)

From Stdlib Require Import Ascii String.
From S2P Require Import Prelude.
Local Open Scope stdpp_scope.

(** ** package strings *)

Definition HasPrefix (s p : string) : bool := String.prefix p s.

Fixpoint str_drop (n : nat) (s : string) : string :=
  match n, s with
  | S n', String _ s' => str_drop n' s'
  | _, _ => s
  end.

Fixpoint str_take (n : nat) (s : string) : string :=
  match n, s with
  | S n', String c s' => String c (str_take n' s')
  | _, _ => ""
  end.

Fixpoint str_rev_app (s acc : string) : string :=
  match s with
  | "" => acc
  | String c s' => str_rev_app s' (String c acc)
  end.

Definition str_rev (s : string) : string := str_rev_app s "".

Definition HasSuffix (s p : string) : bool := String.prefix (str_rev p) (str_rev s).

Definition TrimPrefix (s p : string) : string :=
  if HasPrefix s p then str_drop (String.length p) s else s.

Definition TrimSuffix (s p : string) : string :=
  if HasSuffix s p then str_take (String.length s - String.length p) s else s.

(** The text before and after the first occurrence of a non-empty [sep]. *)
Fixpoint cut (s sep : string) : option (string * string) :=
  if String.prefix sep s then Some ("", str_drop (String.length sep) s)
  else match s with
       | "" => None
       | String c s' =>
           match cut s' sep with
           | Some (a, b) => Some (String c a, b)
           | None => None
           end
       end.

Fixpoint split_fuel (fuel : nat) (s sep : string) : list string :=
  match fuel with
  | O => [s]
  | S fuel' =>
      match cut s sep with
      | Some (a, b) => a :: split_fuel fuel' b sep
      | None => [s]
      end
  end.

(** [strings.Split] with a non-empty separator: each cut shortens the rest, so
    the length of the text is enough fuel. *)
Definition Split (s sep : string) : list string := split_fuel (String.length s) s sep.

(** [strings.SplitN(s, sep, 2)]. *)
Definition SplitN2 (s sep : string) : list string :=
  match cut s sep with Some (a, b) => [a; b] | None => [s] end.

Fixpoint Join (l : list string) (sep : string) : string :=
  match l with
  | [] => ""
  | [x] => x
  | x :: l' => x +:+ sep +:+ Join l' sep
  end.

Definition ReplaceAll (s old new : string) : string := Join (Split s old) new.

(** The UTF-8 encodings of the code points [unicode.IsSpace] accepts. *)
Definition byte (n : nat) : ascii := ascii_of_nat n.
Definition utf8_2 (a b : nat) : string := String (byte a) (String (byte b) "").
Definition utf8_3 (a b c : nat) : string := String (byte a) (utf8_2 b c).

Definition space_runes : list string :=
  ((fun n => String (byte n) "") <$> [9; 10; 11; 12; 13; 32])
  ++ [utf8_2 194 133; utf8_2 194 160; utf8_3 225 154 128]
  ++ (utf8_3 226 128 <$> [128; 129; 130; 131; 132; 133; 134; 135; 136; 137; 138; 168; 169; 175])
  ++ [utf8_3 226 129 159; utf8_3 227 128 128].

(** Drops leading occurrences of the given encodings. *)
Fixpoint trim_left_fuel (fuel : nat) (runes : list string) (s : string) : string :=
  match fuel with
  | O => s
  | S fuel' =>
      match List.find (fun r => String.prefix r s) runes with
      | Some r => trim_left_fuel fuel' runes (str_drop (String.length r) s)
      | None => s
      end
  end.

Definition trim_left (runes : list string) (s : string) : string :=
  trim_left_fuel (String.length s) runes s.

Definition trim_both (runes : list string) (s : string) : string :=
  let s1 := trim_left runes s in
  str_rev (trim_left (str_rev <$> runes) (str_rev s1)).

Definition TrimSpace (s : string) : string := trim_both space_runes s.

(** [strings.Trim(s, cutset)] for a cutset of ASCII characters. *)
Definition Trim (s : string) (cutset : list ascii) : string :=
  trim_both ((fun c => String c "") <$> cutset) s.

(** [strings.TrimRight(s, cutset)], likewise. *)
Definition TrimRight (s : string) (cutset : list ascii) : string :=
  str_rev (trim_left ((fun c => String c "") <$> cutset) (str_rev s)).

(** [strings.ToLower] on ASCII text. *)
Definition lower_ascii (c : ascii) : ascii :=
  let n := nat_of_ascii c in if ((65 <=? n) && (n <=? 90))%nat then ascii_of_nat (n + 32) else c.

Fixpoint ToLower (s : string) : string :=
  match s with "" => "" | String c s' => String (lower_ascii c) (ToLower s') end.

(** ** package strconv *)

(** [strconv.FormatInt(v, 10)], and the verb [%d] of package fmt. *)
Definition FormatInt (v : Z) : string := pretty v.

Definition digit_value (c : ascii) : option Z :=
  let n := (Z.of_nat (nat_of_ascii c) - 48)%Z in
  if ((0 <=? n) && (n <? 10))%Z then Some n else None.

(** The number written in decimal digits after the digits of [acc]. *)
Fixpoint digits_from (acc : Z) (s : string) : option Z :=
  match s with
  | EmptyString => Some acc
  | String c s' => match digit_value c with Some d => digits_from (10 * acc + d)%Z s' | None => None end
  end.

(** An integer in decimal digits, with or without a sign. *)
Definition parse_dec (s : string) : option Z :=
  match s with
  | EmptyString => None
  | String "+" s' => if String.eqb s' "" then None else digits_from 0 s'
  | String "-" s' => if String.eqb s' "" then None else Z.opp <$> digits_from 0 s'
  | _ => digits_from 0 s
  end.

(** [strconv.ParseInt(s, 10, 64)]; a value out of range comes with the nearest
    [int64] and an error, other text with 0 and an error. *)
Definition ParseInt (s : string) : int64 * option string :=
  match parse_dec s with
  | None => (0%Z, Some "invalid syntax")
  | Some n =>
      if (n <? minInt64)%Z then (minInt64, Some "value out of range")
      else if (maxInt64 <? n)%Z then (maxInt64, Some "value out of range")
      else (n, None)
  end.

(** ** package hash/fnv: the 32-bit FNV-1a hash *)

Definition fnv_offset32 : Z := 2166136261.
Definition fnv_prime32 : Z := 16777619.

Fixpoint fnv32a_write (h : Z) (s : string) : Z :=
  match s with
  | "" => h
  | String c s' => fnv32a_write ((Z.lxor h (Z.of_N (N_of_ascii c)) * fnv_prime32) mod two32)%Z s'
  end.

Definition fnv32a (s : string) : Z := fnv32a_write fnv_offset32 s.

(** ** Lemmas *)

Lemma str_app_nil_r s : s +:+ "" = s.
Proof. induction s as [|c s IH]; [done|]. unfold String.app in *. simpl. by rewrite IH. Qed.

Lemma str_app_assoc s1 s2 s3 : (s1 +:+ s2) +:+ s3 = s1 +:+ (s2 +:+ s3).
Proof.
  induction s1 as [|c s1 IH]; [done|]. unfold String.app in *. simpl. by rewrite IH.
Qed.

Lemma str_app_cons c s1 s2 : String c s1 +:+ s2 = String c (s1 +:+ s2).
Proof. done. Qed.

Lemma str_app_inj_l s t1 t2 : s +:+ t1 = s +:+ t2 -> t1 = t2.
Proof. induction s as [|c s IH]; [done|]. rewrite !str_app_cons. intros [=]. auto. Qed.

Lemma str_length_app s t : String.length (s +:+ t) = (String.length s + String.length t)%nat.
Proof. induction s as [|c s IH]; [done|]. rewrite str_app_cons. simpl. by rewrite IH. Qed.

Lemma prefix_app p s : String.prefix p (p +:+ s) = true.
Proof.
  induction p as [|c p IH]; [by destruct s|]. rewrite str_app_cons. simpl.
  by destruct (ascii_dec c c).
Qed.

Lemma str_drop_app p s : str_drop (String.length p) (p +:+ s) = s.
Proof. induction p as [|c p IH]; [by destruct s|]. rewrite str_app_cons. simpl. done. Qed.

Lemma prefix_inv p s : String.prefix p s = true -> exists t, s = p +:+ t.
Proof.
  revert s. induction p as [|c p IH]; intros s H; [by exists s|].
  destruct s as [|d s]; simpl in H; [done|].
  destruct (ascii_dec c d) as [->|]; [|done].
  destruct (IH s H) as [t ->]. by exists t.
Qed.

Lemma cut_inv s sep a b : cut s sep = Some (a, b) -> s = a +:+ sep +:+ b.
Proof.
  revert a b. induction s as [|c s IH]; intros a b; cbn [cut].
  - destruct sep; simpl; [intros [= <- <-]; done|done].
  - destruct (String.prefix sep (String c s)) eqn:E.
    + intros [= <- <-]. apply prefix_inv in E as [t E]. rewrite E, str_drop_app. done.
    + destruct (cut s sep) as [[a' b']|] eqn:E'; [|done].
      intros [= <- <-]. rewrite str_app_cons. f_equal. by apply IH.
Qed.

(** Splitting and joining with the same separator gives the text back. *)
Lemma Join_Split s sep : Join (Split s sep) sep = s.
Proof.
  unfold Split. generalize (String.length s) as n. intros n. revert s.
  induction n as [|n IH]; intros s; simpl; [done|].
  destruct (cut s sep) as [[a b]|] eqn:E; [|done].
  apply cut_inv in E as ->. pose proof (IH b) as Hb.
  destruct (split_fuel n b sep) as [|x l] eqn:Es.
  - destruct n; simpl in Es; [done|]. by destruct (cut b sep) as [[]|].
  - rewrite <- Hb. done.
Qed.

Lemma fnv32a_write_range h s : (0 <= h < two32)%Z -> (0 <= fnv32a_write h s < two32)%Z.
Proof.
  revert h. induction s as [|c s IH]; intros h Hh; simpl; [done|].
  apply IH, Z.mod_pos_bound. done.
Qed.

Lemma fnv32a_range s : (0 <= fnv32a s < two32)%Z.
Proof. apply fnv32a_write_range. done. Qed.

Lemma FormatInt_inj x y : FormatInt x = FormatInt y -> x = y.
Proof. apply (inj pretty). Qed.

Lemma digit_cases (x : N) : (x < 10)%N -> In x [0; 1; 2; 3; 4; 5; 6; 7; 8; 9]%N.
Proof. intros H. cbn. lia. Qed.

Lemma digit_value_digit (x : N) : (x < 10)%N -> digit_value (pretty_N_char x) = Some (Z.of_N x).
Proof. intros H. apply digit_cases in H. by repeat destruct H as [<-|H]. Qed.

Lemma digits_from_pretty (x : N) s : digits_from 0 (pretty_N_go x s) = digits_from (Z.of_N x) s.
Proof.
  revert s. induction (N.lt_wf_0 x) as [x _ IH]; intros s. destruct (decide (x = 0)%N) as [->|Hx].
  { by rewrite pretty_N_go_0. }
  rewrite pretty_N_go_step by lia. rewrite IH by (apply N.div_lt; lia). cbn [digits_from].
  rewrite digit_value_digit by (apply N.mod_lt; lia). f_equal.
  rewrite N2Z.inj_div, N2Z.inj_mod. pose proof (Z.div_mod (Z.of_N x) 10). lia.
Qed.

(** The first character of the digits of a number is a digit. *)
Lemma pretty_N_go_head (x : N) s :
  (0 < x)%N -> exists d s', (d < 10)%N /\ pretty_N_go x s = String (pretty_N_char d) s'.
Proof.
  revert s. induction (N.lt_wf_0 x) as [x _ IH]; intros s Hx. rewrite pretty_N_go_step by lia.
  destruct (decide (x / 10 = 0)%N) as [->|Hd].
  - rewrite pretty_N_go_0. eexists _, _. split; [|done]. apply N.mod_lt. lia.
  - apply IH; [apply N.div_lt; lia|]. by apply N.neq_0_lt_0.
Qed.

Lemma parse_dec_N (x : N) : parse_dec (pretty x) = Some (Z.of_N x).
Proof.
  destruct (decide (x = 0)%N) as [->|Hx]; [done|].
  unfold pretty, pretty_N. rewrite decide_False by done.
  pose proof (digits_from_pretty x "") as Hv. cbn [digits_from] in Hv.
  destruct (pretty_N_go_head x "") as (d & s' & Hd & E); [lia|]. rewrite E in *. rewrite <- Hv.
  apply digit_cases in Hd. by repeat destruct Hd as [<-|Hd].
Qed.

(** Reading back what was printed. *)
Lemma parse_dec_FormatInt n : parse_dec (FormatInt n) = Some n.
Proof.
  unfold FormatInt, pretty, pretty_Z. destruct n as [|p|p]; [done|apply (parse_dec_N (N.pos p))|].
  change (parse_dec (String "-" (pretty_N_go (N.pos p) "")) = Some (Z.neg p)).
  pose proof (digits_from_pretty (N.pos p) "") as Hp. cbn [digits_from] in Hp.
  destruct (pretty_N_go_head (N.pos p) "") as (d & s' & Hd & E); [lia|]. rewrite E in *.
  change ((Z.opp <$> digits_from 0 (String (pretty_N_char d) s')) = Some (Z.neg p)). by rewrite Hp.
Qed.

Lemma ParseInt_FormatInt n : in_int64 n -> ParseInt (FormatInt n) = (n, None).
Proof.
  unfold in_int64, ParseInt. rewrite parse_dec_FormatInt. intros Hn.
  rewrite (proj2 (Z.ltb_ge n minInt64)), (proj2 (Z.ltb_ge maxInt64 n)) by lia. done.
Qed.

#[export] Hint Resolve fnv32a_range : rlaas.

(** *** The order of strings: byte by byte, as Go's [<] *)

Lemma ascii_compare_trans a b c o :
  Ascii.compare a b = o -> Ascii.compare b c = o -> Ascii.compare a c = o.
Proof.
  unfold Ascii.compare. destruct o.
  - rewrite !N.compare_eq_iff. congruence.
  - rewrite !N.compare_lt_iff. lia.
  - rewrite !N.compare_gt_iff. lia.
Qed.

Lemma ascii_compare_refl a : Ascii.compare a a = Eq.
Proof. apply N.compare_refl. Qed.

Lemma str_compare_refl s : String.compare s s = Eq.
Proof. induction s as [|c s IH]; [done|]. simpl. by rewrite ascii_compare_refl. Qed.

Lemma str_compare_lt_trans s t u :
  String.compare s t = Lt -> String.compare t u = Lt -> String.compare s u = Lt.
Proof.
  revert t u. induction s as [|a s IH]; intros [|b t] [|c u]; simpl; try done.
  destruct (Ascii.compare a b) eqn:E1; [apply Ascii.compare_eq_iff in E1 as ->| |done].
  - destruct (Ascii.compare b c); [apply IH|done..].
  - intros _. destruct (Ascii.compare b c) eqn:E2; [apply Ascii.compare_eq_iff in E2 as <-; by rewrite E1| |done].
    by rewrite (ascii_compare_trans a b c Lt).
Qed.

Lemma str_ltb_irrefl s : String.ltb s s = false.
Proof. unfold String.ltb. by rewrite str_compare_refl. Qed.

Lemma str_ltb_trans s t u : String.ltb s t = true -> String.ltb t u = true -> String.ltb s u = true.
Proof.
  unfold String.ltb. destruct (String.compare s t) eqn:E1; try done.
  destruct (String.compare t u) eqn:E2; try done. by rewrite (str_compare_lt_trans s t u).
Qed.

Lemma str_ltb_asym s t : String.ltb s t = true -> String.ltb t s = false.
Proof.
  intros H. destruct (String.ltb t s) eqn:E; [|done].
  pose proof (str_ltb_trans s t s H E). by rewrite str_ltb_irrefl in *.
Qed.

(** Strings that are not ordered either way are equal. *)
Lemma str_ltb_total s t : String.ltb s t = false -> String.ltb t s = false -> s = t.
Proof.
  unfold String.ltb. rewrite (String.compare_antisym t s).
  destruct (String.compare s t) eqn:E; simpl; try done. intros _ _. by apply String.compare_eq_iff.
Qed.

Lemma str_ltb_false_trans s t u :
  String.ltb t s = false -> String.ltb u t = false -> String.ltb u s = false.
Proof.
  intros H1 H2. destruct (String.ltb u s) eqn:E; [|done]. destruct (String.ltb s t) eqn:E'.
  - by rewrite (str_ltb_trans u s t) in H2.
  - rewrite (str_ltb_total s t) in E by done. congruence.
Qed.

(** *** Texts of given characters *)

Fixpoint str_all (f : ascii -> bool) (s : string) : bool :=
  match s with "" => true | String c s' => f c && str_all f s' end.

Lemma str_all_app f s t : str_all f (s +:+ t) = str_all f s && str_all f t.
Proof.
  induction s as [|c s IH]; [done|]. rewrite str_app_cons. simpl. rewrite IH. by rewrite andb_assoc.
Qed.

Lemma str_rev_app_spec s acc : str_rev_app s acc = str_rev s +:+ acc.
Proof.
  unfold str_rev. revert acc. induction s as [|c s IH]; intros acc; [done|]. simpl.
  rewrite IH, (IH (String c "")), str_app_assoc. done.
Qed.

Lemma str_rev_cons c s : str_rev (String c s) = str_rev s +:+ String c "".
Proof. unfold str_rev at 1. simpl. by rewrite str_rev_app_spec. Qed.

Lemma str_rev_snoc s c : str_rev (s +:+ String c "") = String c (str_rev s).
Proof.
  induction s as [|d s IH]; [done|]. rewrite str_app_cons, !str_rev_cons, IH. done.
Qed.

Lemma str_rev_involutive s : str_rev (str_rev s) = s.
Proof. induction s as [|c s IH]; [done|]. by rewrite str_rev_cons, str_rev_snoc, IH. Qed.

Lemma str_rev_concat s t : str_rev (s +:+ t) = str_rev t +:+ str_rev s.
Proof.
  induction s as [|c s IH]; [by rewrite str_app_nil_r|].
  by rewrite str_app_cons, !str_rev_cons, IH, str_app_assoc.
Qed.

Lemma str_take_app s t : str_take (String.length s) (s +:+ t) = s.
Proof. induction s as [|c s IH]; [by destruct t|]. rewrite str_app_cons. simpl. by rewrite IH. Qed.

(** Trimming the prefix or suffix of a concatenation. *)
Lemma TrimPrefix_app p s : TrimPrefix (p +:+ s) p = s.
Proof. unfold TrimPrefix, HasPrefix. by rewrite prefix_app, str_drop_app. Qed.

Lemma HasSuffix_app s p : HasSuffix (s +:+ p) p = true.
Proof. unfold HasSuffix. rewrite str_rev_concat. apply prefix_app. Qed.

Lemma TrimSuffix_app s p : TrimSuffix (s +:+ p) p = s.
Proof.
  unfold TrimSuffix. rewrite HasSuffix_app, str_length_app, Nat.add_sub. apply str_take_app.
Qed.

Lemma str_all_rev f s : str_all f (str_rev s) = str_all f s.
Proof.
  induction s as [|c s IH]; [done|]. rewrite str_rev_cons, str_all_app, IH. simpl.
  by rewrite andb_true_r, andb_comm.
Qed.

(** Trimming leaves a text alone when none of its characters starts an encoding. *)
Definition starts_outside (f : ascii -> bool) (r : string) : bool :=
  match r with "" => false | String b _ => negb (f b) end.

Lemma prefix_outside f r s : starts_outside f r = true -> str_all f s = true -> String.prefix r s = false.
Proof.
  destruct r as [|b r], s as [|c s]; simpl; try done. intros Hb Hs. zify_bool.
  destruct (ascii_dec b c); congruence.
Qed.

Lemma trim_left_id f runes s :
  forallb (starts_outside f) runes = true -> str_all f s = true -> trim_left runes s = s.
Proof.
  intros Hr Hs. unfold trim_left. destruct (String.length s); [done|]. cbn [trim_left_fuel].
  enough (List.find (fun r => String.prefix r s) runes = None) as -> by done.
  induction runes as [|r runes IH]; [done|]. simpl in *. zify_bool.
  rewrite (prefix_outside f) by done. auto.
Qed.

Lemma trim_both_id f runes s :
  forallb (starts_outside f) runes = true -> forallb (starts_outside f) (str_rev <$> runes) = true ->
  str_all f s = true -> trim_both runes s = s.
Proof.
  intros H1 H2 Hs. unfold trim_both. rewrite (trim_left_id f runes s H1 Hs).
  rewrite (trim_left_id f (str_rev <$> runes) (str_rev s)); [apply str_rev_involutive|done|].
  by rewrite str_all_rev.
Qed.

(** Trimming removes a text of characters that are encodings by themselves, around one
    whose ends are not. *)
Definition lone (runes : list string) (c : ascii) : Prop :=
  forall rest, List.find (fun r => String.prefix r (String c rest)) runes = Some (String c "").

Definition edges (f : ascii -> bool) (s : string) : bool :=
  match s with "" => true | String c _ => f c end && match str_rev s with "" => true | String c _ => f c end.

Lemma find_outside f runes c s :
  forallb (starts_outside f) runes = true -> f c = true -> List.find (fun r => String.prefix r (String c s)) runes = None.
Proof.
  intros Hr Hc. induction runes as [|r runes IH]; [done|]. simpl in *. zify_bool.
  destruct r as [|b r]; [done|]. cbn [String.prefix starts_outside] in *. destruct (ascii_dec b c) as [->|]; [by rewrite Hc in *|auto].
Qed.

Lemma trim_left_pad blank f runes t s :
  (forall c, blank c = true -> lone runes c) -> forallb (starts_outside f) runes = true -> str_all blank t = true ->
  match s with "" => True | String c _ => f c = true end -> trim_left runes (t +:+ s) = s.
Proof.
  intros Hl Hr Ht Hs. unfold trim_left. rewrite str_length_app.
  assert (Hstop : forall n, trim_left_fuel n runes s = s).
  { intros [|n]; [done|]. cbn [trim_left_fuel]. destruct s as [|c s]; [|by rewrite (find_outside f)].
    enough (List.find (fun r => String.prefix r "") runes = None) as -> by done. clear -Hr.
    induction runes as [|r runes IH]; [done|]. simpl in *. zify_bool. by destruct r; [|auto]. }
  generalize (String.length s) as n. intros n. induction t as [|c t IH]; [apply Hstop|].
  cbn [str_all] in Ht. apply andb_true_iff in Ht as [Hc Ht]. cbn [String.length Nat.add trim_left_fuel]. rewrite str_app_cons, (Hl c Hc).
  by apply IH.
Qed.

Lemma trim_both_pad blank f runes t s u :
  (forall c, blank c = true -> lone runes c) -> (forall c, blank c = true -> lone (str_rev <$> runes) c) ->
  forallb (starts_outside f) runes = true -> forallb (starts_outside f) (str_rev <$> runes) = true ->
  str_all blank t = true -> str_all blank u = true -> edges f s = true -> trim_both runes (t +:+ s +:+ u) = s.
Proof.
  intros Hl Hl' Hr Hr' Ht Hu [Hs Hs']%andb_true_iff. unfold trim_both. destruct s as [|c s].
  - change ("" +:+ u) with u. rewrite <- (str_app_nil_r (t +:+ u)), (trim_left_pad blank f); [done..| |done]. by rewrite str_all_app, Ht.
  - rewrite (trim_left_pad blank f) by done. rewrite str_rev_concat, (trim_left_pad blank f); [apply str_rev_involutive|done|done| |].
    + by rewrite str_all_rev.
    + by destruct (str_rev (String c s)).
Qed.

Lemma edges_all f s : str_all f s = true -> edges f s = true.
Proof.
  intros H. unfold edges. pose proof H as H'. rewrite <- str_all_rev in H'. apply andb_true_iff. split.
  - destruct s; [done|]. by apply andb_true_iff in H as [? _].
  - destruct (str_rev s); [done|]. by apply andb_true_iff in H' as [? _].
Qed.

(** Cutting at a separator whose first character is not in the text before it. *)
Lemma cut_app f a c sep b :
  str_all f a = true -> f c = false -> cut (a +:+ String c sep +:+ b) (String c sep) = Some (a, b).
Proof.
  intros Ha Hc. induction a as [|d a IH].
  - change ("" +:+ (String c sep +:+ b)) with (String c sep +:+ b).
    rewrite str_app_cons. cbn [cut]. rewrite <- str_app_cons, prefix_app, str_drop_app. done.
  - rewrite str_app_cons. simpl in Ha. apply andb_true_iff in Ha as [Hd Ha]. cbn [cut].
    enough (String.prefix (String c sep) (String d (a +:+ String c sep +:+ b)) = false) as -> by by rewrite IH.
    simpl. destruct (ascii_dec c d); congruence.
Qed.

Lemma cut_none f a c sep : str_all f a = true -> f c = false -> cut a (String c sep) = None.
Proof.
  intros Ha Hc. induction a as [|d a IH]; [done|]. simpl in Ha. apply andb_true_iff in Ha as [Hd Ha].
  cbn [cut]. rewrite IH by done.
  enough (String.prefix (String c sep) (String d a) = false) as -> by done.
  simpl. destruct (ascii_dec c d); congruence.
Qed.

(** Splitting undoes joining. *)
Lemma split_fuel_Join f n l c sep :
  l <> [] -> Forall (fun x => str_all f x = true) l -> f c = false ->
  (String.length (Join l (String c sep)) <= n)%nat ->
  split_fuel n (Join l (String c sep)) (String c sep) = l.
Proof.
  intros Hne Hl Hc. revert n.
  induction Hl as [|x l Hx Hl IH]; [done|]. intros n Hn. destruct l as [|y l].
  - destruct n; cbn [Join split_fuel]; [done|]. by rewrite (cut_none f x c sep Hx Hc).
  - change (Join (x :: y :: l) (String c sep)) with (x +:+ String c sep +:+ Join (y :: l) (String c sep)) in *.
    rewrite !str_length_app in Hn. cbn [String.length] in Hn. destruct n as [|n]; [lia|]. cbn [split_fuel].
    rewrite (cut_app f) by done. f_equal. apply IH; [done|]. lia.
Qed.

Lemma Split_Join f l c sep :
  l <> [] -> Forall (fun x => str_all f x = true) l -> f c = false ->
  Split (Join l (String c sep)) (String c sep) = l.
Proof. intros. by apply (split_fuel_Join f). Qed.

(** Known values of FNV-1a. *)
Example fnv32a_empty : fnv32a "" = 2166136261%Z.
Proof. reflexivity. Qed.
Example fnv32a_a : fnv32a "a" = 3826002220%Z.
Proof. vm_compute. reflexivity. Qed.
Example fnv32a_foobar : fnv32a "foobar" = 3214735720%Z.
Proof. vm_compute. reflexivity. Qed.
Example TrimSpace_ex : TrimSpace " a b  " = "a b".
Proof. vm_compute. reflexivity. Qed.
Example Split_ex : Split "a&&b&&&&c" "&&" = ["a"; "b"; ""; "c"].
Proof. vm_compute. reflexivity. Qed.
