(* ===== verification/GoHash.v ===== *)
(** * crypto/sha1 and encoding/hex

    SHA-1 (FIPS 180-4) on words of 32 bits, as package crypto/sha1 computes it,
    and the hexadecimal text of bytes. *)

From Stdlib Require Import Ascii String.
From S2P Require Import Prelude GoString.
Local Open Scope Z_scope.

Definition w32 (x : Z) : Z := x mod two32.
Definition rotl32 (n x : Z) : Z := Z.lor (w32 (Z.shiftl x n)) (Z.shiftr x (32 - n)).

Definition string_bytes (s : string) : list Z :=
  (fun c => Z.of_N (N_of_ascii c)) <$> String.list_ascii_of_string s.

(** The [n] bytes of [x], the most significant first. *)
Fixpoint big_endian (n : nat) (x : Z) : list Z :=
  match n with
  | O => []
  | S n' => Z.shiftr x (8 * Z.of_nat n') mod 256 :: big_endian n' x
  end.

(** The message, a one bit, zeros up to 8 bytes before a block boundary, and the
    length in bits. *)
Definition sha1_pad (msg : list Z) : list Z :=
  let len := Z.of_nat (length msg) in
  msg ++ [128] ++ replicate (Z.to_nat ((55 - len) mod 64)) 0 ++ big_endian 8 (8 * len).

Fixpoint words (fuel : nat) (bytes : list Z) : list Z :=
  match fuel, bytes with
  | S fuel', b0 :: b1 :: b2 :: b3 :: rest =>
      (((b0 * 256 + b1) * 256 + b2) * 256 + b3) :: words fuel' rest
  | _, _ => []
  end.

(** The message schedule, the last word first. *)
Fixpoint schedule (n : nat) (rev_w : list Z) : list Z :=
  match n with
  | O => rev_w
  | S n' =>
      let at_ i := nth i rev_w 0 in
      schedule n' (rotl32 1 (Z.lxor (Z.lxor (at_ 2%nat) (at_ 7%nat)) (Z.lxor (at_ 13%nat) (at_ 15%nat))) :: rev_w)
  end.

Record sha1_state := { h0 : Z; h1 : Z; h2 : Z; h3 : Z; h4 : Z }.

Definition sha1_round (t : nat) (w : Z) (s : sha1_state) : sha1_state :=
  let '(f, k) :=
    if (t <? 20)%nat then (Z.lor (Z.land (h1 s) (h2 s)) (Z.land (Z.lxor (h1 s) 4294967295) (h3 s)), 1518500249)
    else if (t <? 40)%nat then (Z.lxor (Z.lxor (h1 s) (h2 s)) (h3 s), 1859775393)
    else if (t <? 60)%nat then
      (Z.lor (Z.lor (Z.land (h1 s) (h2 s)) (Z.land (h1 s) (h3 s))) (Z.land (h2 s) (h3 s)), 2400959708)
    else (Z.lxor (Z.lxor (h1 s) (h2 s)) (h3 s), 3395469782) in
  {| h0 := w32 (rotl32 5 (h0 s) + f + h4 s + k + w); h1 := h0 s; h2 := rotl32 30 (h1 s); h3 := h2 s; h4 := h3 s |}.

Fixpoint sha1_rounds (t : nat) (ws : list Z) (s : sha1_state) : sha1_state :=
  match ws with
  | [] => s
  | w :: ws' => sha1_rounds (S t) ws' (sha1_round t w s)
  end.

Definition sha1_block (s : sha1_state) (block : list Z) : sha1_state :=
  let r := sha1_rounds 0 (rev (schedule 64 (rev block))) s in
  {| h0 := w32 (h0 s + h0 r); h1 := w32 (h1 s + h1 r); h2 := w32 (h2 s + h2 r);
     h3 := w32 (h3 s + h3 r); h4 := w32 (h4 s + h4 r) |}.

Fixpoint sha1_blocks (fuel : nat) (ws : list Z) (s : sha1_state) : sha1_state :=
  match fuel, ws with
  | S fuel', _ :: _ => sha1_blocks fuel' (drop 16 ws) (sha1_block s (take 16 ws))
  | _, _ => s
  end.

(** [sha1.Sum]: 20 bytes.  Each block takes 16 words, so the number of words is
    fuel enough. *)
Definition sha1 (s : string) : list Z :=
  let padded := sha1_pad (string_bytes s) in
  let ws := words (length padded) padded in
  let r := sha1_blocks (length ws) ws
    {| h0 := 1732584193; h1 := 4023233417; h2 := 2562383102; h3 := 271733878; h4 := 3285377520 |} in
  big_endian 4 (h0 r) ++ big_endian 4 (h1 r) ++ big_endian 4 (h2 r) ++ big_endian 4 (h3 r) ++ big_endian 4 (h4 r).

Definition hex_digit (n : Z) : ascii :=
  ascii_of_nat (Z.to_nat (if n <? 10 then 48 + n else 87 + n)).

(** [hex.EncodeToString]. *)
Fixpoint EncodeToString (bytes : list Z) : string :=
  match bytes with
  | [] => ""
  | b :: rest => String (hex_digit (b / 16)) (String (hex_digit (b mod 16)) (EncodeToString rest))
  end.

Lemma big_endian_length n x : length (big_endian n x) = n.
Proof. induction n as [|n IH]; simpl; [done|]. by rewrite IH. Qed.

Lemma sha1_length s : length (sha1 s) = 20%nat.
Proof. unfold sha1. by rewrite !length_app, !big_endian_length. Qed.

Lemma EncodeToString_length bytes : String.length (EncodeToString bytes) = (2 * length bytes)%nat.
Proof. induction bytes as [|b bytes IH]; simpl; [done|]. rewrite IH. lia. Qed.

(** The test vectors of the standard. *)
Example sha1_abc : EncodeToString (sha1 "abc") = "a9993e364706816aba3e25717850c26c9cd0d89d".
Proof. vm_compute. reflexivity. Qed.
Example sha1_empty : EncodeToString (sha1 "") = "da39a3ee5e6b4b0d3255bfef95601890afd80709".
Proof. vm_compute. reflexivity. Qed.
Example sha1_two_blocks :
  EncodeToString (sha1 "abcdbcdecdefdefgefghfghighijhijkijkljklmklmnlmnomnopnopq")
  = "84983e441c3bd26ebaae4aa1f95129e5e54670f1".
Proof. vm_compute. reflexivity. Qed.
