(* ===== verification/GoFloat.v ===== *)
(** * Go's float64

    IEEE 754 binary64 with rounding to nearest even, on Stdlib's executable
    [spec_float] (53 bits of precision, exponents up to 1024).  The operations
    are those of Go on amd64: no fused multiply-add, and a conversion to [int64]
    of a value that does not fit gives the smallest [int64]. *)

From Stdlib Require Import SpecFloat.
From S2P Require Import Prelude.
Local Open Scope Z_scope.

Abbreviation float64 := spec_float (only parsing).

Definition prec : Z := 53.
Definition emax : Z := 1024.

Definition fadd (x y : float64) : float64 := SFadd prec emax x y.
Definition fsub (x y : float64) : float64 := SFsub prec emax x y.
Definition fmul (x y : float64) : float64 := SFmul prec emax x y.
Definition fdiv (x y : float64) : float64 := SFdiv prec emax x y.

Definition fltb (x y : float64) : bool := SFltb x y.
Definition fleb (x y : float64) : bool := SFleb x y.
Definition fgtb (x y : float64) : bool := SFltb y x.

(** [float64(n)] of an integer. *)
Definition float_of_Z (n : Z) : float64 := binary_normalize prec emax n 0 false.

Definition fzero : float64 := S754_zero false.
Definition fone : float64 := float_of_Z 1.

Definition is_nan (x : float64) : bool := match x with S754_nan => true | _ => false end.

(** [math.Max] and [math.Min], special cases included. *)
Definition math_Max (x y : float64) : float64 :=
  match x, y with
  | S754_infinity false, _ | _, S754_infinity false => S754_infinity false
  | S754_nan, _ | _, S754_nan => S754_nan
  | S754_zero sx, S754_zero _ => if sx then y else x
  | _, _ => if fgtb x y then x else y
  end.

Definition math_Min (x y : float64) : float64 :=
  match x, y with
  | S754_infinity true, _ | _, S754_infinity true => S754_infinity true
  | S754_nan, _ | _, S754_nan => S754_nan
  | S754_zero sx, S754_zero _ => if sx then x else y
  | _, _ => if fltb x y then x else y
  end.

(** [math.Round]: to the nearest integer, halves away from zero. *)
Definition math_Round (x : float64) : float64 :=
  match x with
  | S754_finite s m e =>
      if 0 <=? e then x
      else
        let r := (2 * Zpos m + 2 ^ (- e)) / 2 ^ (- e + 1) in
        if r =? 0 then S754_zero s
        else binary_normalize prec emax (if s then - r else r) 0 s
  | _ => x
  end.

(** [int64(x)]: truncation towards zero. *)
Definition trunc_Z (x : float64) : option Z :=
  match x with
  | S754_zero _ => Some 0
  | S754_finite s m e =>
      let a := if 0 <=? e then Zpos m * 2 ^ e else Zpos m / 2 ^ (- e) in
      Some (if s then - a else a)
  | _ => None
  end.

Definition int64_of_float (x : float64) : int64 :=
  match trunc_Z x with
  | Some z => if (minInt64 <=? z) && (z <=? maxInt64) then z else minInt64
  | None => minInt64
  end.

(** ** Lemmas *)

Lemma int64_of_float_range x : in_int64 (int64_of_float x).
Proof.
  unfold int64_of_float. destruct (trunc_Z x) as [z|]; [|done].
  destruct ((minInt64 <=? z) && (z <=? maxInt64)) eqn:E; [|done].
  zify_bool. done.
Qed.

Lemma math_Min_nan_r x : math_Min x S754_nan = if is_nan x then S754_nan else
  match x with S754_infinity true => x | _ => S754_nan end.
Proof. by destruct x as [| [] | |]. Qed.

Lemma fltb_nan_l y : fltb S754_nan y = false.
Proof. by destruct y. Qed.

#[export] Hint Resolve int64_of_float_range : rlaas.

Example float_half_even : float_of_Z (2 ^ 53 + 1) = float_of_Z (2 ^ 53).
Proof. vm_compute. reflexivity. Qed.
Example float_round_half : math_Round (fdiv (float_of_Z 5) (float_of_Z 2)) = float_of_Z 3.
Proof. vm_compute. reflexivity. Qed.
Example float_round_neg : int64_of_float (math_Round (fdiv (float_of_Z (-5)) (float_of_Z 2))) = -3.
Proof. vm_compute. reflexivity. Qed.
Example float_div_zero : fdiv fone fzero = S754_infinity false.
Proof. reflexivity. Qed.
