(* ===== verification/GoTime.v ===== *)
(** * Go's package time

    An instant is the number of nanoseconds since the Unix epoch; the location
    of an instant is a fixed offset from UTC in seconds ([0] is UTC), given where
    the calendar is consulted.  The zero [time.Time] is midnight UTC of January 1
    of year 1.  [time.Duration] is an [int64] of nanoseconds. *)

From Stdlib Require Import Ascii String.
From S2P Require Import Prelude GoString GoFloat.
Local Open Scope Z_scope.
Local Open Scope stdpp_scope.

Abbreviation Time := Z (only parsing).

(** ** Durations *)

Definition Nanosecond : Duration := 1.
Definition Microsecond : Duration := 1000.
Definition Millisecond : Duration := 1000000.
Definition Second : Duration := 1000000000.
Definition Minute : Duration := 60000000000.
Definition Hour : Duration := 3600000000000.
Definition Day : Duration := 86400000000000.

(** [d.Seconds()]. *)
Definition Seconds (d : Duration) : float64 :=
  fadd (float_of_Z (Z.quot d Second)) (fdiv (float_of_Z (Z.rem d Second)) (float_of_Z 1000000000)).

(** [d.Milliseconds()] and [d.Microseconds()]. *)
Definition Milliseconds (d : Duration) : int64 := Z.quot d Millisecond.
Definition Microseconds (d : Duration) : int64 := Z.quot d Microsecond.

(** ** Instants *)

Definition zeroTime : Time := -62135596800000000000.

Definition IsZero (t : Time) : bool := t =? zeroTime.
Definition Before (t u : Time) : bool := t <? u.
Definition After (t u : Time) : bool := u <? t.
Definition time_Add (t : Time) (d : Duration) : Time := t + d.

(** [t.Sub(u)] saturates at the largest and smallest duration. *)
Definition time_Sub (t u : Time) : Duration := Z.max minInt64 (Z.min maxInt64 (t - u)).

(** [t.UnixNano()] is an [int64]; [t.Unix()] rounds down. *)
Definition UnixNano (t : Time) : int64 := wrap64 t.
Definition Unix (t : Time) : Z := t / Second.

(** [t.Truncate(d)] rounds down to a multiple of [d] since the zero time. *)
Definition Truncate (t : Time) (d : Duration) : Time :=
  if d <=? 0 then t else t - (t - zeroTime) mod d.

(** ** The proleptic Gregorian calendar

    Days are counted from January 1, 1970; years start in March inside the
    computation, so that the leap day is the last of its year. *)

Definition days_of_era : Z := 146097.

Definition civil_doe (yoe mp d : Z) : Z :=
  yoe * 365 + yoe / 4 - yoe / 100 + ((153 * mp + 2) / 5 + d - 1).

(** Day number of day [d] of month [m] (1 to 12) of year [y]; [d] may be any
    integer, as [time.Date] normalises it. *)
Definition days_from_civil (y m d : Z) : Z :=
  let y' := if m <=? 2 then y - 1 else y in
  y' / 400 * days_of_era + civil_doe (y' mod 400) ((m + 9) mod 12) d - 719468.

Record civil := { civ_year : Z; civ_month : Z; civ_day : Z }.

(** Year, month and day of a day number. *)
Definition civil_from_days (n : Z) : civil :=
  let z := n + 719468 in
  let era := z / days_of_era in
  let doe := z mod days_of_era in
  let yoe := (doe - doe / 1460 + doe / 36524 - doe / 146096) / 365 in
  let doy := doe - (365 * yoe + yoe / 4 - yoe / 100) in
  let mp := (5 * doy + 2) / 153 in
  let m := if mp <? 10 then mp + 3 else mp - 9 in
  {| civ_year := yoe + era * 400 + (if m <=? 2 then 1 else 0);
     civ_month := m;
     civ_day := doy - (153 * mp + 2) / 5 + 1 |}.

(** The local day number and the day of the week, Sunday being [0]. *)
Definition local_days (t : Time) (loc : Z) : Z := (t + loc * Second) / Day.
Definition Weekday (t : Time) (loc : Z) : Z := (local_days t loc + 4) mod 7.

(** [t.Date()]. *)
Definition time_Date (t : Time) (loc : Z) : civil := civil_from_days (local_days t loc).

(** [time.Date(y, m, d, 0, 0, 0, 0, loc)], with months outside 1 to 12 carried
    into the year. *)
Definition Date (y m d loc : Z) : Time :=
  let y' := y + (m - 1) / 12 in
  let m' := (m - 1) mod 12 + 1 in
  days_from_civil y' m' d * Day - loc * Second.

(** The time of day of an instant, which [AddDate] keeps. *)
Definition day_clock (t : Time) (loc : Z) : Z := (t + loc * Second) mod Day.

(** [t.AddDate(years, months, days)]. *)
Definition AddDate (t : Time) (loc years months days : Z) : Time :=
  let c := time_Date t loc in
  Date (civ_year c + years) (civ_month c + months) (civ_day c + days) loc + day_clock t loc.

(** ** [time.ParseDuration] *)

Definition is_digit (c : ascii) : bool :=
  let n := N_of_ascii c in (48 <=? n)%N && (n <=? 57)%N.

Definition digit_val (c : ascii) : Z := Z.of_N (N_of_ascii c) - 48.

Definition two63 : Z := 9223372036854775808.

(** [leadingInt]: the leading digits as a number of at most [2^63]; [None] is
    the overflow error. *)
Fixpoint leadingInt (x : Z) (s : string) : option (Z * string) :=
  match s with
  | "" => Some (x, "")
  | String c s' =>
      if negb (is_digit c) then Some (x, s)
      else if two63 / 10 <? x then None
      else
        let y := x * 10 + digit_val c in
        if two63 <? y then None else leadingInt y s'
  end.

(** [leadingFraction]: digits that would overflow are skipped. *)
Fixpoint leadingFraction (x : Z) (scale : float64) (overflow : bool) (s : string)
  : Z * float64 * string :=
  match s with
  | "" => (x, scale, "")
  | String c s' =>
      if negb (is_digit c) then (x, scale, s)
      else if overflow then leadingFraction x scale true s'
      else if maxInt64 / 10 <? x then leadingFraction x scale true s'
      else
        let y := x * 10 + digit_val c in
        if two63 <? y then leadingFraction x scale true s'
        else leadingFraction y (fmul scale (float_of_Z 10)) false s'
  end.

(** The unit name: everything up to the next digit or period. *)
Fixpoint leadingUnit (s : string) : string * string :=
  match s with
  | "" => ("", "")
  | String c s' =>
      if Ascii.eqb c "." || is_digit c then ("", s)
      else let '(u, r) := leadingUnit s' in (String c u, r)
  end.

Definition unitMap (u : string) : option Z :=
  if String.eqb u "ns" then Some Nanosecond
  else if String.eqb u "us" then Some Microsecond
  else if String.eqb u (utf8_2 194 181 +:+ "s") then Some Microsecond
  else if String.eqb u (utf8_2 206 188 +:+ "s") then Some Microsecond
  else if String.eqb u "ms" then Some Millisecond
  else if String.eqb u "s" then Some Second
  else if String.eqb u "m" then Some Minute
  else if String.eqb u "h" then Some Hour
  else None.

(** One round of the loop: number, optional fraction, unit. *)
Definition parse_component (d : Z) (s : string) : option (Z * string) :=
  match s with
  | "" => None
  | String c0 _ =>
    if negb (Ascii.eqb c0 "." || is_digit c0) then None
    else
      match leadingInt 0 s with
      | None => None
      | Some (v, s1) =>
        let pre := negb (String.length s =? String.length s1)%nat in
        let '(f, scale, s2, post) :=
          match s1 with
          | String c1 s1' =>
              if Ascii.eqb c1 "." then
                let '(f, scale, s2) := leadingFraction 0 fone false s1' in
                (f, scale, s2, negb (String.length s1' =? String.length s2)%nat)
              else (0, fone, s1, false)
          | "" => (0, fone, s1, false)
          end in
        if negb pre && negb post then None
        else
          let '(u, s3) := leadingUnit s2 in
          if String.eqb u "" then None
          else
            match unitMap u with
            | None => None
            | Some unit =>
              if two63 / unit <? v then None
              else
                let v1 := v * unit in
                let v2 :=
                  if 0 <? f then v1 + int64_of_float (fmul (float_of_Z f) (fdiv (float_of_Z unit) scale))
                  else v1 in
                if two63 <? v2 then None
                else
                  let d' := (d + v2) mod two64 in
                  if two63 <? d' then None else Some (d', s3)
            end
      end
  end.

(** Every round consumes a character, so the length of the text is enough fuel. *)
Fixpoint parse_components (fuel : nat) (d : Z) (s : string) : option Z :=
  match s with
  | "" => Some d
  | _ =>
    match fuel with
    | O => None
    | S fuel' =>
      match parse_component d s with
      | Some (d', s') => parse_components fuel' d' s'
      | None => None
      end
    end
  end.

Definition ParseDuration (orig : string) : option Duration :=
  let '(neg, s) :=
    match orig with
    | String c s' =>
        if Ascii.eqb c "-" then (true, s')
        else if Ascii.eqb c "+" then (false, s') else (false, orig)
    | "" => (false, orig)
    end in
  if String.eqb s "0" then Some 0
  else if String.eqb s "" then None
  else
    match parse_components (String.length s) 0 s with
    | None => None
    | Some d =>
        if neg then Some (wrap64 (- wrap64 d))
        else if maxInt64 <? d then None else Some d
    end.

Example parse_90s : ParseDuration "1m30s" = Some (90 * Second).
Proof. vm_compute. reflexivity. Qed.
Example parse_frac : ParseDuration "1.5h" = Some (90 * Minute).
Proof. vm_compute. reflexivity. Qed.
Example parse_neg : ParseDuration "-2ms" = Some (-2 * Millisecond).
Proof. vm_compute. reflexivity. Qed.
Example parse_day : ParseDuration "day" = None.
Proof. vm_compute. reflexivity. Qed.
Example parse_big : ParseDuration "9223372037s" = None.
Proof. vm_compute. reflexivity. Qed.
Example civil_epoch : civil_from_days 0 = {| civ_year := 1970; civ_month := 1; civ_day := 1 |}.
Proof. vm_compute. reflexivity. Qed.
Example civil_leap : civil_from_days 19782 = {| civ_year := 2024; civ_month := 2; civ_day := 29 |}.
Proof. vm_compute. reflexivity. Qed.
Example date_zero : Date 1 1 1 0 = zeroTime.
Proof. vm_compute. reflexivity. Qed.
(** ** Lemmas on instants and durations *)

Ltac zdiv := Z.div_mod_to_equations; lia.

Lemma Truncate_bounds t d : 0 < d -> Truncate t d <= t < Truncate t d + d.
Proof.
  intros Hd. unfold Truncate. destruct (d <=? 0) eqn:E; zify_bool; [lia|].
  pose proof (Z.mod_pos_bound (t - zeroTime) d Hd). lia.
Qed.

(** Two instants of the same aligned interval truncate alike. *)
Lemma Truncate_unique t u d :
  0 < d -> Truncate t d <= u < Truncate t d + d -> Truncate u d = Truncate t d.
Proof.
  intros Hd. unfold Truncate. destruct (d <=? 0) eqn:E; zify_bool; [lia|]. intros Hu.
  enough ((u - zeroTime) mod d = u - (t - (t - zeroTime) mod d)) by lia.
  symmetry. apply Z.mod_unique with (q := (t - zeroTime) / d); [lia|].
  pose proof (Z.div_mod (t - zeroTime) d ltac:(lia)). lia.
Qed.

(** ** Lemmas on the calendar *)

(** Day [doe] of a 400-year era falls in its year [yoe]. *)
Lemma civil_bounds doe :
  0 <= doe < 146097 ->
  let yoe := (doe - doe / 1460 + doe / 36524 - doe / 146096) / 365 in
  0 <= yoe < 400 /\
  0 <= doe - (365 * yoe + yoe / 4 - yoe / 100) <= 365 /\
  doe < 365 * (yoe + 1) + (yoe + 1) / 4 - (yoe + 1) / 100 + (if yoe =? 399 then 1 else 0).
Proof.
  intros H yoe. unfold yoe. split_and!; try zdiv.
  destruct (_ =? 399) eqn:E; zify_bool; zdiv.
Qed.

Lemma month_index doy :
  0 <= doy <= 365 ->
  let mp := (5 * doy + 2) / 153 in
  0 <= mp <= 11 /\ (153 * mp + 2) / 5 <= doy < (153 * (mp + 1) + 2) / 5.
Proof. intros H mp. unfold mp. split_and!; zdiv. Qed.

(** Month number and January year of month [mp] counted from March. *)
Definition march_month (mp : Z) : Z := if mp <? 10 then mp + 3 else mp - 9.
Definition march_year (era yoe mp : Z) : Z :=
  yoe + era * 400 + (if march_month mp <=? 2 then 1 else 0).

Lemma days_from_march era yoe mp d :
  0 <= yoe < 400 -> 0 <= mp <= 11 ->
  days_from_civil (march_year era yoe mp) (march_month mp) d
  = era * days_of_era + civil_doe yoe mp d - 719468.
Proof.
  intros Hy Hm. unfold days_from_civil, march_year.
  assert (Em : (march_month mp + 9) mod 12 = mp).
  { unfold march_month. destruct (mp <? 10) eqn:E; zify_bool; zdiv. }
  rewrite Em. destruct (march_month mp <=? 2).
  - replace (yoe + era * 400 + 1 - 1) with (yoe + era * 400) by lia.
    rewrite Z.div_add, Z.mod_add, Z.div_small, Z.mod_small by lia. lia.
  - rewrite Z.add_0_r, Z.div_add, Z.mod_add, Z.div_small, Z.mod_small by lia. lia.
Qed.

(** Day number of the first day of the month after month [m] of year [y]. *)
Definition next_month (y m : Z) : Z := days_from_civil (y + m / 12) (m mod 12 + 1) 1.

Lemma next_month_march era yoe mp :
  0 <= yoe < 400 -> 0 <= mp < 11 ->
  next_month (march_year era yoe mp) (march_month mp)
  = era * days_of_era + civil_doe yoe (mp + 1) 1 - 719468.
Proof.
  intros Hy Hm. rewrite <- days_from_march by lia. unfold next_month, march_year, march_month.
  destruct (mp <? 10) eqn:E1, (mp + 1 <? 10) eqn:E2; zify_bool; try lia;
    f_equal; try zdiv;
    repeat match goal with |- context [?a <=? ?b] => destruct (Z.leb_spec a b) end; zdiv.
Qed.

Lemma next_month_february era yoe :
  0 <= yoe < 400 ->
  next_month (march_year era yoe 11) (march_month 11)
  = era * days_of_era + 365 * (yoe + 1) + (yoe + 1) / 4 - (yoe + 1) / 100
    + (if yoe =? 399 then 1 else 0) - 719468.
Proof.
  intros Hy. unfold next_month. change (march_month 11 / 12) with 0.
  change (march_month 11 mod 12 + 1) with (march_month 0). rewrite Z.add_0_r.
  destruct (yoe =? 399) eqn:E; zify_bool.
  - subst yoe. replace (march_year era 399 11) with (march_year (era + 1) 0 0)
      by (unfold march_year, march_month; simpl; lia).
    rewrite days_from_march by lia. unfold civil_doe, days_of_era. zdiv.
  - replace (march_year era yoe 11) with (march_year era (yoe + 1) 0)
      by (unfold march_year, march_month; simpl; lia).
    rewrite days_from_march by lia. unfold civil_doe. zdiv.
Qed.

(** [civil_from_days] inverts [days_from_civil], and a day lies between the
    first day of its month and the first day of the next. *)
Lemma civil_from_days_spec n :
  let c := civil_from_days n in
  1 <= civ_month c <= 12 /\
  days_from_civil (civ_year c) (civ_month c) (civ_day c) = n /\
  days_from_civil (civ_year c) (civ_month c) 1 <= n < next_month (civ_year c) (civ_month c).
Proof.
  set (z := n + 719468). set (era := z / days_of_era). set (doe := z mod days_of_era).
  set (yoe := (doe - doe / 1460 + doe / 36524 - doe / 146096) / 365).
  set (doy := doe - (365 * yoe + yoe / 4 - yoe / 100)).
  set (mp := (5 * doy + 2) / 153).
  assert (Hn : n = era * days_of_era + doe - 719468) by (subst era doe z; unfold days_of_era; zdiv).
  assert (Hdoe : 0 <= doe < 146097) by (subst doe; apply Z.mod_pos_bound; done).
  destruct (civil_bounds doe Hdoe) as (Hyoe & Hdoy & Hnext).
  fold yoe in Hyoe, Hdoy, Hnext. fold doy in Hdoy.
  destruct (month_index doy Hdoy) as (Hmp & Hmon). fold mp in Hmp, Hmon.
  assert (Hdd : doe = doy + (365 * yoe + yoe / 4 - yoe / 100)) by (subst doy; lia).
  assert (Ec : civil_from_days n =
    {| civ_year := march_year era yoe mp; civ_month := march_month mp;
       civ_day := doy - (153 * mp + 2) / 5 + 1 |}) by reflexivity.
  rewrite Ec. cbn [civ_year civ_month civ_day]. clear Ec. clearbody mp doy yoe doe era z.
  rewrite !days_from_march by lia. split_and!; try (unfold civil_doe; lia).
  - unfold march_month. destruct (mp <? 10) eqn:E; zify_bool; lia.
  - unfold march_month. destruct (mp <? 10) eqn:E; zify_bool; lia.
  - destruct (Z.eq_dec mp 11) as [->|Hne].
    + rewrite next_month_february by lia. lia.
    + rewrite next_month_march by lia. unfold civil_doe. lia.
Qed.

Lemma days_from_civil_day y m d : days_from_civil y m d = days_from_civil y m 1 + (d - 1).
Proof. unfold days_from_civil, civil_doe. lia. Qed.

Lemma local_days_bounds t loc :
  local_days t loc * Day - loc * Second <= t < (local_days t loc + 1) * Day - loc * Second.
Proof.
  unfold local_days. pose proof (Z.div_mod (t + loc * Second) Day ltac:(done)).
  pose proof (Z.mod_pos_bound (t + loc * Second) Day ltac:(done)). lia.
Qed.

Lemma Date_month y m d loc :
  1 <= m <= 12 -> Date y m d loc = days_from_civil y m d * Day - loc * Second.
Proof.
  intros Hm. unfold Date. rewrite Z.div_small, Z.mod_small by lia.
  by rewrite Z.add_0_r, Z.sub_add.
Qed.

Lemma Date_next_month y m loc :
  1 <= m <= 12 -> Date y (m + 1) 1 loc = next_month y m * Day - loc * Second.
Proof. intros Hm. unfold Date, next_month. by rewrite Z.add_simpl_r. Qed.

(** ** Lemmas on [ParseDuration] *)

Lemma parse_component_nonneg d s d' s' :
  0 <= d -> parse_component d s = Some (d', s') -> 0 <= d' <= two63.
Proof.
  intros Hd. unfold parse_component. intros H.
  repeat (case_match; simplify_eq/=; try done); zify_bool;
    (split; [by apply Z.mod_pos_bound | done]).
Qed.

Lemma parse_components_range fuel d s r :
  0 <= d <= two63 -> parse_components fuel d s = Some r -> 0 <= r <= two63.
Proof.
  revert d s. induction fuel as [|fuel IH]; intros d [|c s] Hd H;
    cbn [parse_components] in H; try (by simplify_eq).
  destruct (parse_component d (String c s)) as [[d' s']|] eqn:E; [|done].
  apply parse_component_nonneg in E; [|lia]. by eapply IH.
Qed.

(** A parsed duration is a 64-bit integer. *)
Lemma ParseDuration_range s d : ParseDuration s = Some d -> in_int64 d.
Proof.
  unfold ParseDuration. destruct (match s with "" => _ | _ => _ end) as [neg t].
  destruct (String.eqb t "0"); [intros [= <-]; unfold in_int64, minInt64, maxInt64; lia|].
  destruct (String.eqb t ""); [done|].
  destruct (parse_components (String.length t) 0 t) as [r|] eqn:E; [|done].
  apply parse_components_range in E; [|unfold two63; lia].
  destruct neg; [intros [= <-]; apply wrap64_range|].
  destruct (maxInt64 <? r) eqn:E'; [done|]. intros [= <-]. zify_bool.
  unfold in_int64, minInt64. lia.
Qed.

(** ** Months *)

(** Every month is some month counted from March. *)
Lemma march_decompose y m :
  1 <= m <= 12 ->
  exists era yoe mp, 0 <= yoe < 400 /\ 0 <= mp <= 11 /\
    y = march_year era yoe mp /\ m = march_month mp.
Proof.
  intros Hm. set (y' := if m <=? 2 then y - 1 else y).
  exists (y' / 400), (y' mod 400), ((m + 9) mod 12).
  assert (Em : m = march_month ((m + 9) mod 12)).
  { unfold march_month. destruct (_ <? 10) eqn:E; zify_bool; zdiv. }
  split_and!; try (apply Z.mod_pos_bound; lia); try (pose proof (Z.mod_pos_bound (m + 9) 12); lia).
  - unfold march_year. rewrite <- Em. subst y'.
    destruct (m <=? 2); zdiv.
Qed.

Lemma month_length y m :
  1 <= m <= 12 -> 28 <= next_month y m - days_from_civil y m 1 <= 31.
Proof.
  intros Hm. destruct (march_decompose y m Hm) as (era & yoe & mp & Hy & Hmp & -> & ->).
  rewrite days_from_march by lia. destruct (Z.eq_dec mp 11) as [->|Hne].
  - rewrite next_month_february by lia. unfold civil_doe.
    destruct (yoe =? 399) eqn:E; zify_bool; zdiv.
  - rewrite next_month_march by lia. unfold civil_doe. zdiv.
Qed.

(** The first day of a month, months being numbered [12 * year + month - 1]. *)
Definition month_start (M : Z) : Z := days_from_civil (M / 12) (M mod 12 + 1) 1.

Lemma month_start_index y m : 1 <= m <= 12 -> month_start (12 * y + (m - 1)) = days_from_civil y m 1.
Proof.
  intros Hm. unfold month_start.
  replace ((12 * y + (m - 1)) / 12) with y by zdiv.
  replace ((12 * y + (m - 1)) mod 12 + 1) with m by zdiv. done.
Qed.

Lemma month_start_succ y m : 1 <= m <= 12 -> month_start (12 * y + (m - 1) + 1) = next_month y m.
Proof.
  intros Hm. unfold month_start, next_month.
  replace ((12 * y + (m - 1) + 1) / 12) with (y + m / 12) by zdiv.
  replace ((12 * y + (m - 1) + 1) mod 12) with (m mod 12) by zdiv. done.
Qed.

Lemma month_start_lt M M' : M < M' -> month_start M < month_start M'.
Proof.
  assert (Hstep : forall N, month_start N < month_start (N + 1)).
  { intros N. pose proof (Z.mod_pos_bound N 12 ltac:(lia)).
    replace N with (12 * (N / 12) + (N mod 12 + 1 - 1)) by zdiv.
    rewrite month_start_index, month_start_succ by lia.
    pose proof (month_length (N / 12) (N mod 12 + 1) ltac:(lia)). lia. }
  intros H. pattern M'. apply Zlt_lower_bound_ind with (z := M + 1); [|lia].
  clear M' H. intros N IH HN. destruct (Z.eq_dec N (M + 1)) as [->|]; [done|].
  pose proof (IH (N - 1) ltac:(lia)). pose proof (Hstep (N - 1)).
  replace (N - 1 + 1) with N in * by lia. lia.
Qed.

(** A day between the first of a month and the first of the next is in it. *)
Lemma civil_from_days_month n y m :
  1 <= m <= 12 -> days_from_civil y m 1 <= n < next_month y m ->
  civ_year (civil_from_days n) = y /\ civ_month (civil_from_days n) = m.
Proof.
  intros Hm Hn. pose proof (civil_from_days_spec n) as (Hm' & _ & Hlo).
  destruct (civil_from_days _) as [y' m' d']. simpl in *.
  rewrite <- (month_start_index y' m'), <- (month_start_succ y' m') in Hlo by lia.
  rewrite <- (month_start_index y m), <- (month_start_succ y m) in Hn by lia.
  assert (forall M M', M < M' -> month_start (M + 1) <= month_start M') as Hmono.
  { intros M M' HM. destruct (Z.eq_dec (M + 1) M') as [->|]; [lia|].
    pose proof (month_start_lt (M + 1) M' ltac:(lia)). lia. }
  enough (12 * y' + (m' - 1) = 12 * y + (m - 1)) by lia.
  destruct (Z.lt_total (12 * y' + (m' - 1)) (12 * y + (m - 1))) as [Hlt|[Heq|Hgt]]; [|done|].
  - apply Hmono in Hlt. lia.
  - apply Hmono in Hgt. lia.
Qed.

Lemma civil_from_days_first y m :
  1 <= m <= 12 ->
  civil_from_days (days_from_civil y m 1) = {| civ_year := y; civ_month := m; civ_day := 1 |}.
Proof.
  intros Hm. pose proof (month_length y m Hm).
  destruct (civil_from_days_month (days_from_civil y m 1) y m Hm ltac:(lia)) as [Ey Em].
  pose proof (civil_from_days_spec (days_from_civil y m 1)) as (_ & Hd & _).
  destruct (civil_from_days _) as [y' m' d']. simpl in *. subst.
  rewrite days_from_civil_day in Hd. f_equal. lia.
Qed.

(** Midnight of the first of a month, and the first of the next month. *)
Lemma AddDate_first y m loc :
  1 <= m <= 12 -> AddDate (Date y m 1 loc) loc 0 1 0 = next_month y m * Day - loc * Second.
Proof.
  intros Hm. unfold AddDate, time_Date, local_days, day_clock.
  rewrite (Date_month y m 1 loc) by done. rewrite Z.sub_add, Z.div_mul, Z.mod_mul by done.
  rewrite civil_from_days_first by done. cbn [civ_year civ_month civ_day].
  rewrite !Z.add_0_r. by apply Date_next_month.
Qed.
