(* ===== verification/Model.v ===== *)
(** * pkg/model: the data of the limiter

    The structs of [model.go], field by field.  Action, algorithm, failure and
    enforcement types are Go strings with named constants: a policy may carry any
    other string, and the code decides what then happens. *)

From S2P Require Import Prelude GoString GoFloat GoTime.
Local Open Scope Z_scope.
Local Open Scope stdpp_scope.

Record RequestContext := {
  req_RequestID : string; req_OrgID : string; req_TenantID : string;
  req_Application : string; req_Service : string; req_Environment : string;
  req_SignalType : string; req_Operation : string; req_Endpoint : string;
  req_Method : string; req_UserID : string; req_APIKey : string;
  req_ClientID : string; req_SourceIP : string; req_Region : string;
  req_Resource : string; req_Severity : string; req_SpanName : string;
  req_Topic : string; req_ConsumerGroup : string; req_JobType : string;
  req_Quantity : int64; req_Priority : string; req_Timestamp : Time;
  req_Tags : GoMap; req_Attributes : GoMap
}.

Definition ActionType := string.
Definition ActionAllow : ActionType := "allow".
Definition ActionDeny : ActionType := "deny".
Definition ActionDelay : ActionType := "delay".
Definition ActionSample : ActionType := "sample".
Definition ActionDrop : ActionType := "drop".
Definition ActionDowngrade : ActionType := "downgrade".
Definition ActionDropLowPriority : ActionType := "drop_low_priority".
Definition ActionShadowOnly : ActionType := "shadow_only".

Record Decision := {
  dec_Allowed : bool; dec_Action : ActionType; dec_Reason : string;
  dec_MatchedPolicyID : string; dec_MatchedRuleKey : string; dec_LimitKey : string;
  dec_Remaining : int64; dec_RetryAfter : Duration; dec_ResetAt : Time;
  dec_DelayFor : Duration; dec_SampleRate : float64; dec_ShadowMode : bool;
  dec_Metadata : GoMap
}.

(** [model.Decision{}]. *)
Definition zeroDecision : Decision :=
  {| dec_Allowed := false; dec_Action := ""; dec_Reason := ""; dec_MatchedPolicyID := "";
     dec_MatchedRuleKey := ""; dec_LimitKey := ""; dec_Remaining := 0; dec_RetryAfter := 0;
     dec_ResetAt := zeroTime; dec_DelayFor := 0; dec_SampleRate := fzero;
     dec_ShadowMode := false; dec_Metadata := None |}.

Record PolicyScope := {
  sc_OrgID : string; sc_TenantID : string; sc_Application : string; sc_Service : string;
  sc_Environment : string; sc_SignalType : string; sc_Operation : string;
  sc_Endpoint : string; sc_Method : string; sc_UserID : string; sc_APIKey : string;
  sc_ClientID : string; sc_SourceIP : string; sc_Region : string; sc_Resource : string;
  sc_Severity : string; sc_SpanName : string; sc_Topic : string;
  sc_ConsumerGroup : string; sc_JobType : string; sc_Tags : GoMap
}.

Definition AlgorithmType := string.
Definition AlgoFixedWindow : AlgorithmType := "fixed_window".
Definition AlgoSlidingWindowLog : AlgorithmType := "sliding_window_log".
Definition AlgoSlidingWindowCnt : AlgorithmType := "sliding_window_counter".
Definition AlgoTokenBucket : AlgorithmType := "token_bucket".
Definition AlgoLeakyBucket : AlgorithmType := "leaky_bucket".
Definition AlgoConcurrency : AlgorithmType := "concurrency".
Definition AlgoQuota : AlgorithmType := "quota".

Record AlgorithmConfig := {
  cfg_Type : AlgorithmType; cfg_Limit : int64; cfg_Window : string; cfg_Burst : int64;
  cfg_RefillRate : float64; cfg_LeakRate : float64; cfg_SubWindowCount : Z;
  cfg_MaxConcurrency : int64; cfg_LeaseTTL : int64; cfg_QuotaPeriod : string;
  cfg_CostPerRequest : int64; cfg_MaxRetries : Z; cfg_SampleRate : float64
}.

Definition FailureMode := string.
Definition FailOpen : FailureMode := "fail_open".
Definition FailClosed : FailureMode := "fail_closed".

Definition EnforcementMode := string.
Definition EnforceMode : EnforcementMode := "enforce".
Definition ShadowMode : EnforcementMode := "shadow".

Record Policy := {
  pol_PolicyID : string; pol_Name : string; pol_Description : string;
  pol_Enabled : bool; pol_Priority : Z; pol_Scope : PolicyScope;
  pol_Algorithm : AlgorithmConfig; pol_Action : ActionType;
  pol_FailureMode : FailureMode; pol_EnforcementMode : EnforcementMode;
  pol_RolloutPercent : Z; pol_ValidFromUnix : int64; pol_ValidToUnix : int64;
  pol_Metadata : GoMap
}.

Record PolicyAuditEntry := {
  aud_AuditID : string; aud_PolicyID : string; aud_ActionType : string;
  aud_ChangedBy : string; aud_ChangedAtUnix : int64;
  aud_OldValue : option Policy; aud_NewValue : option Policy
}.

Record PolicyVersion := {
  ver_PolicyID : string; ver_Version : int64; ver_CreatedAtUnix : int64;
  ver_Snapshot : Policy
}.

(** ** Zero values, the base of concrete inputs *)

Definition zeroRequest : RequestContext :=
  {| req_RequestID := ""; req_OrgID := ""; req_TenantID := ""; req_Application := "";
     req_Service := ""; req_Environment := ""; req_SignalType := ""; req_Operation := "";
     req_Endpoint := ""; req_Method := ""; req_UserID := ""; req_APIKey := "";
     req_ClientID := ""; req_SourceIP := ""; req_Region := ""; req_Resource := "";
     req_Severity := ""; req_SpanName := ""; req_Topic := ""; req_ConsumerGroup := "";
     req_JobType := ""; req_Quantity := 0; req_Priority := ""; req_Timestamp := zeroTime;
     req_Tags := None; req_Attributes := None |}.

Definition zeroScope : PolicyScope :=
  {| sc_OrgID := ""; sc_TenantID := ""; sc_Application := ""; sc_Service := "";
     sc_Environment := ""; sc_SignalType := ""; sc_Operation := ""; sc_Endpoint := "";
     sc_Method := ""; sc_UserID := ""; sc_APIKey := ""; sc_ClientID := "";
     sc_SourceIP := ""; sc_Region := ""; sc_Resource := ""; sc_Severity := "";
     sc_SpanName := ""; sc_Topic := ""; sc_ConsumerGroup := ""; sc_JobType := "";
     sc_Tags := None |}.

Definition zeroConfig : AlgorithmConfig :=
  {| cfg_Type := ""; cfg_Limit := 0; cfg_Window := ""; cfg_Burst := 0;
     cfg_RefillRate := fzero; cfg_LeakRate := fzero; cfg_SubWindowCount := 0;
     cfg_MaxConcurrency := 0; cfg_LeaseTTL := 0; cfg_QuotaPeriod := "";
     cfg_CostPerRequest := 0; cfg_MaxRetries := 0; cfg_SampleRate := fzero |}.

(** A policy with the given identity, scope, algorithm and action, enabled and
    enforced, failing open. *)
Definition mkPolicy (id : string) (sc : PolicyScope) (cfg : AlgorithmConfig) (act : ActionType) : Policy :=
  {| pol_PolicyID := id; pol_Name := id; pol_Description := ""; pol_Enabled := true;
     pol_Priority := 0; pol_Scope := sc; pol_Algorithm := cfg; pol_Action := act;
     pol_FailureMode := FailOpen; pol_EnforcementMode := EnforceMode;
     pol_RolloutPercent := 100; pol_ValidFromUnix := 0; pol_ValidToUnix := 0;
     pol_Metadata := None |}.

(** An algorithm configuration with a limit and a window. *)
Definition mkConfig (ty : AlgorithmType) (limit : int64) (window : string) : AlgorithmConfig :=
  {| cfg_Type := ty; cfg_Limit := limit; cfg_Window := window; cfg_Burst := 0;
     cfg_RefillRate := fzero; cfg_LeakRate := fzero; cfg_SubWindowCount := 0;
     cfg_MaxConcurrency := 0; cfg_LeaseTTL := 0; cfg_QuotaPeriod := window;
     cfg_CostPerRequest := 0; cfg_MaxRetries := 0; cfg_SampleRate := fzero |}.

(** A request that only carries a quantity. *)
Definition mkRequest (quantity : int64) : RequestContext :=
  {| req_RequestID := ""; req_OrgID := ""; req_TenantID := ""; req_Application := "";
     req_Service := ""; req_Environment := ""; req_SignalType := ""; req_Operation := "";
     req_Endpoint := ""; req_Method := ""; req_UserID := ""; req_APIKey := "";
     req_ClientID := ""; req_SourceIP := ""; req_Region := ""; req_Resource := "";
     req_Severity := ""; req_SpanName := ""; req_Topic := ""; req_ConsumerGroup := "";
     req_JobType := ""; req_Quantity := quantity; req_Priority := "";
     req_Timestamp := zeroTime; req_Tags := None; req_Attributes := None |}.
