(* ===== verification/Store.v ===== *)
(** * The counter store interface and the programs that call it

    [CounterStore] (internal/store/interfaces.go) is the only thing the limiting
    algorithms share.  Its methods are the operations of [CounterOp], each with
    the type of its result; reading the wall clock is one more operation, because
    the algorithms and the stores both do it.

    An algorithm is a [prog]: a tree of store calls.  [run] executes it alone;
    [pool_step] interleaves any number of them, one store call at a time, with the
    steps of the environment (time passing, garbage collection). *)

From S2P Require Import Prelude GoString GoFloat GoTime.
Local Open Scope Z_scope.
Local Open Scope stdpp_scope.

Inductive CounterOp : Type -> Type :=
| TimeNow : CounterOp Time
| Increment (key : string) (value : int64) (ttl : Duration) : CounterOp (result int64)
| Get (key : string) : CounterOp (result int64)
| SetVal (key : string) (value : int64) (ttl : Duration) : CounterOp (result unit)
| CompareAndSwap (key : string) (oldVal newVal : int64) (ttl : Duration) : CounterOp (result bool)
| Delete (key : string) : CounterOp (result unit)
| AddTimestamp (key : string) (ts : Time) (ttl : Duration) : CounterOp (result unit)
| CountAfter (key : string) (after : Time) : CounterOp (result int64)
| TrimBefore (key : string) (before : Time) : CounterOp (result unit)
| CheckAndAddTimestamps (key : string) (cutoff : Time) (limit cost : int64) (ts : Time) (ttl : Duration)
    : CounterOp (result (int64 * bool))
| AcquireLease (key : string) (limit : int64) (ttl : Duration) : CounterOp (result (bool * int64))
| ReleaseLease (key : string) : CounterOp (result unit).

(** ** Programs *)

Inductive prog (A : Type) : Type :=
| Ret (a : A)
| Call {R : Type} (op : CounterOp R) (k : R -> prog A).
Arguments Ret {_} _.
Arguments Call {_ _} _ _.

Fixpoint prog_bind {A B} (f : A -> prog B) (p : prog A) : prog B :=
  match p with
  | Ret a => f a
  | Call op k => Call op (fun r => prog_bind f (k r))
  end.

#[export] Instance prog_mret : MRet prog := @Ret.
#[export] Instance prog_mbind : MBind prog := @prog_bind.

(** [mapped g p q]: [q] makes the calls of [p] and answers with [g] of its answer. *)
Fixpoint mapped {A B} (g : A -> B) (p : prog A) (q : prog B) : Prop :=
  match p with
  | Ret a => q = Ret (g a)
  | Call op k => exists k', q = Call op k' /\ forall r, mapped g (k r) (k' r)
  end.

Lemma mapped_binds {A B C D} (g : B -> D) (f : A -> B) (f1 : A -> C) (f2 : C -> D) (p : prog A) :
  (forall a, g (f a) = f2 (f1 a)) ->
  mapped g (p ≫= fun a => mret (f a)) ((p ≫= fun a => mret (f1 a)) ≫= fun c => mret (f2 c)).
Proof.
  intros H. unfold mbind, prog_mbind. induction p as [a|R op k IH]; cbn; [by rewrite H|]. eauto.
Qed.

(** One store call. *)
Definition call {R} (op : CounterOp R) : prog R := Call op Ret.

(** Binding the value of a fallible call: an error ends the computation with it,
    as [if err != nil { return ..., err }] does. *)
Definition try_bind {A B} (p : prog (result A)) (f : A -> prog (result B)) : prog (result B) :=
  r ← p; match r with Ok a => f a | Err e => Ret (Err e) end.

Notation "'let!' x := p 'in' q" := (try_bind p (fun x => q))
  (at level 10, x pattern, p at level 100, q at level 200) : go_scope.

(** ** Execution *)

(** What a store does with a call in a state [W]. *)
Definition handler (W : Type) : Type := forall R, CounterOp R -> W -> R * W.

Section Execution.
Context {W : Type} (h : handler W).

Fixpoint run {A} (p : prog A) (w : W) : A * W :=
  match p with
  | Ret a => (a, w)
  | Call op k => let '(r, w') := h _ op w in run (k r) w'
  end.

Lemma run_bind {A B} (p : prog A) (f : A -> prog B) w :
  run (p ≫= f) w = let '(a, w') := run p w in run (f a) w'.
Proof.
  unfold mbind, prog_mbind. revert w.
  induction p as [a|R op k IH]; intros w; cbn [prog_bind run]; [done|].
  destruct (h R op w) as [r w']. apply IH.
Qed.

(** Runs a list of programs one after the other. *)
Fixpoint run_all {A} (ps : list (prog A)) (w : W) : list A * W :=
  match ps with
  | [] => ([], w)
  | p :: ps' =>
      let '(a, w1) := run p w in
      let '(l, w2) := run_all ps' w1 in (a :: l, w2)
  end.

(** One call of one program. *)
Definition tstep {A} (p : prog A) (w : W) : prog A * W :=
  match p with
  | Ret a => (Ret a, w)
  | Call op k => let '(r, w') := h _ op w in (k r, w')
  end.

(** A pool of programs on one store: any program may take the next call, and
    the environment may step at any time. *)
Inductive pool_step {A} (env : W -> W -> Prop) : list (prog A) * W -> list (prog A) * W -> Prop :=
| pool_call ps w i p p' w' :
    ps !! i = Some p -> tstep p w = (p', w') ->
    pool_step env (ps, w) (<[i := p']> ps, w')
| pool_env ps w w' : env w w' -> pool_step env (ps, w) (ps, w').

(** Interleavings of programs with mapped answers are interleavings of the programs. *)
Lemma mapped_pool {A B} env (g : A -> B) (ps : list (prog A)) (qs : list (prog B)) w qs' w' :
  Forall2 (mapped g) ps qs -> rtc (pool_step env) (qs, w) (qs', w') ->
  exists ps', Forall2 (mapped g) ps' qs' /\ rtc (pool_step env) (ps, w) (ps', w').
Proof.
  intros Hm Hrtc. remember (qs, w) as x eqn:Ex. remember (qs', w') as y eqn:Ey. revert ps qs w Ex Hm.
  induction Hrtc as [x|x y z Hstep _ IH]; intros ps qs w -> Hm; [simplify_eq; by exists ps|].
  inversion Hstep as [? ? i q q' w1 Hi Hs|? ? w1 He]; subst.
  - destruct (Forall2_lookup_r _ _ _ _ _ Hm Hi) as (p & Hp & Hpq).
    assert (exists p', tstep p w = (p', w1) /\ mapped g p' q') as (p' & Hs' & Hm').
    { destruct p as [a|R op k]; cbn [mapped] in Hpq.
      - subst q. simplify_eq/=. eexists. done.
      - destruct Hpq as (k' & -> & Hk). cbn [tstep] in *. destruct (h R op w) as [r w2]. simplify_eq. eauto. }
    destruct (IH eq_refl (<[i := p']> ps) _ w1 eq_refl) as (ps' & Hf & H); [by apply Forall2_insert|].
    exists ps'. split; [done|]. eapply rtc_l; [by eapply pool_call|done].
  - destruct (IH eq_refl ps qs w1 eq_refl Hm) as (ps' & Hf & H). exists ps'. split; [done|].
    eapply rtc_l; [by apply pool_env|done].
Qed.

(** Running one program to its end is one of the interleavings. *)
Lemma run_pool_at {A} env (ps : list (prog A)) i p w a w' :
  ps !! i = Some p -> run p w = (a, w') ->
  rtc (pool_step env) (ps, w) (<[i := Ret a]> ps, w').
Proof.
  revert ps w. induction p as [x|R op k IH]; intros ps w Hi H; cbn [run] in H.
  - injection H as -> ->. by rewrite list_insert_id.
  - destruct (h R op w) as [r w1] eqn:E.
    eapply (rtc_l _ _ (<[i := k r]> ps, w1)).
    { apply (pool_call env ps w i (Call op k)); [done|]. simpl. by rewrite E. }
    replace (<[i := Ret a]> ps) with (<[i := Ret a]> (<[i := k r]> ps)) by apply list_insert_insert_eq.
    eapply (IH r); [|done]. apply list_lookup_insert_eq. by eapply lookup_lt_Some.
Qed.

(** So is running all of them in turn. *)
Lemma run_all_pool {A} env (ps : list (prog A)) w l w' :
  run_all ps w = (l, w') -> rtc (pool_step env) (ps, w) (Ret <$> l, w').
Proof.
  change ps with ((Ret <$> []) ++ ps) at 2. change l with ([] ++ l) at 2.
  generalize (@nil A) as done. revert w l. induction ps as [|p ps IH]; intros w l done H; cbn [run_all] in H.
  - injection H as <- <-. by rewrite !app_nil_r.
  - destruct (run p w) as [a w1] eqn:E1, (run_all ps w1) as [l' w2] eqn:E2. injection H as <- <-.
    etransitivity.
    + eapply (run_pool_at env _ (length (@Ret A <$> done)) p); [|exact E1].
      by rewrite lookup_app_r, Nat.sub_diag by done.
    + replace (done ++ a :: l') with ((done ++ [a]) ++ l') by (by rewrite <- app_assoc).
      rewrite insert_app_r_alt, Nat.sub_diag by done. cbn [insert list_insert].
      specialize (IH w1 l' (done ++ [a]) E2). rewrite fmap_app, <- app_assoc in IH. exact IH.
Qed.
End Execution.

(** The answer of a finished program. *)
Definition answer {A} (p : prog A) : option A :=
  match p with Ret a => Some a | Call _ _ => None end.
