(* ===== verification/Protocol.v ===== *)
(** * Programs that admit requests by compare-and-swap on one counter

    The fixed window, quota and sliding counter limiters all admit a request by
    reading a counter and swapping it for the sum, retrying when another client
    was faster.  This file states what a counter store promises to such clients
    ([StoreLaws]) and what a client must do to a counter for the limit to hold
    ([obeys]), and proves that any interleaving of obedient clients on any lawful
    store admits no more than the limit ([protocol_safe]). *)

From S2P Require Import Prelude GoString GoFloat GoTime Store.
Local Open Scope Z_scope.

(** The key an operation works on. *)
Definition op_key {R} (op : CounterOp R) : option string :=
  match op with
  | TimeNow => None
  | Increment k _ _ | Get k | SetVal k _ _ | CompareAndSwap k _ _ _ | Delete k
  | AddTimestamp k _ _ | CountAfter k _ | TrimBefore k _
  | CheckAndAddTimestamps k _ _ _ _ _ | AcquireLease k _ _ | ReleaseLease k => Some k
  end.

(** [t] is not past the deadline [d]; [None] is no deadline. *)
Definition alive_until (d : option Time) (t : Time) : Prop :=
  match d with Some e => t <= e | None => True end.

Lemma alive_until_le d t u : alive_until d u -> t <= u -> alive_until d t.
Proof. destruct d; simpl; lia. Qed.

(** ** What a store promises *)

Class StoreLaws {W : Type} (h : handler W) (env : W -> W -> Prop) := {
  (** well-formed states: every call and every step of the environment keeps them *)
  sl_wf : W -> Prop;
  sl_wf_op R (op : CounterOp R) w : sl_wf w -> sl_wf (h _ op w).2;
  sl_wf_env w w' : env w w' -> sl_wf w -> sl_wf w';
  (** the wall clock, the value a read of a counter would return now, and the
      instant after which that value is forgotten *)
  sl_clock : W -> Time;
  sl_value : W -> string -> int64;
  sl_deadline : W -> string -> option Time;
  sl_now w : h _ TimeNow w = (sl_clock w, w);
  sl_op_clock R (op : CounterOp R) w : sl_clock (h _ op w).2 = sl_clock w;
  sl_frame R (op : CounterOp R) w k :
    sl_wf w -> op_key op <> Some k ->
    sl_value (h _ op w).2 k = sl_value w k /\ sl_deadline (h _ op w).2 k = sl_deadline w k;
  sl_get w k :
    sl_wf w ->
    ((h _ (Get k) w).1 = Ok (sl_value w k) \/ exists e, (h _ (Get k) w).1 = Err e) /\
    sl_value (h _ (Get k) w).2 k = sl_value w k /\
    sl_deadline (h _ (Get k) w).2 k = sl_deadline w k;
  (** the counter values up to [sl_cap] are compared exactly, and a value may be
      forgotten up to [sl_slack] before its time-to-live is over *)
  sl_cap : Z;
  sl_slack : Duration;
  (** a swap takes effect only on the expected value; one that does not succeed, or
      whose answer is lost, may or may not have taken effect *)
  sl_cas w k oldVal newVal ttl :
    sl_wf w -> 0 <= oldVal <= sl_cap ->
    let '(r, w') := h _ (CompareAndSwap k oldVal newVal ttl) w in
    let unchanged := sl_value w' k = sl_value w k /\ sl_deadline w' k = sl_deadline w k in
    let swapped := sl_value w k = oldVal /\ sl_value w' k = newVal /\
                   (0 < ttl <= maxInt64 -> alive_until (sl_deadline w' k) (sl_clock w + ttl - sl_slack)) in
    match r with
    | Ok true => swapped
    | Ok false | Err _ => unchanged \/ swapped
    end;
  (** the environment only moves the clock forward and forgets expired values *)
  sl_env_clock w w' : env w w' -> sl_clock w <= sl_clock w';
  sl_env w w' k :
    sl_wf w -> env w w' -> alive_until (sl_deadline w k) (sl_clock w') ->
    sl_value w' k = sl_value w k /\ sl_deadline w' k = sl_deadline w k
}.

(** What a store must promise beyond for a counter nobody is using: the environment
    leaves it as it is or forgets it. *)
Class ForgetLaws {W : Type} (h : handler W) (env : W -> W -> Prop) `{SL : !StoreLaws h env} := {
  sl_forget w w' k : sl_wf w -> env w w' -> sl_value w' k = sl_value w k \/ sl_value w' k = 0
}.

(** ** What a client does *)

Section Client.
(** The counter, the limit, the earliest instant a client may charge the counter
    and the life it must give to its value. *)
Context (key : string) (limit : Z) (start life : Z).
(** What a client's answer says it was granted on this counter. *)
Context {A : Type} (claims : A -> Z).

(** [obeys lb spent p]: a client that has read an instant no later than [lb]
    from the clock and has added [spent] to the counter so far.  It may only
    read and swap the counter, never past the limit, and its answer claims no
    more than it has added. *)
Fixpoint obeys (lb : Time) (spent : Z) (p : prog A) : Prop :=
  match p with
  | Ret a => claims a <= spent
  | @Call _ R op k =>
      match op in CounterOp R' return (R' -> prog A) -> Prop with
      | TimeNow => fun k => forall t, lb <= t -> obeys t spent (k t)
      | Get key' => fun k =>
          (forall v, (key' = key -> 0 <= v <= limit) -> obeys lb spent (k (Ok v))) /\
          (forall e, obeys lb spent (k (Err e)))
      | CompareAndSwap key' oldVal newVal ttl => fun k =>
          (key' = key -> start <= lb /\ life <= ttl <= maxInt64 /\ 0 <= oldVal <= newVal /\ newVal <= limit) /\
          obeys lb (if decide (key' = key) then spent + (newVal - oldVal) else spent) (k (Ok true)) /\
          obeys lb spent (k (Ok false)) /\
          (forall e, obeys lb spent (k (Err e)))
      | op => fun k => op_key op <> Some key /\ forall r, obeys lb spent (k r)
      end k
  end.

Lemma obeys_later lb lb' spent p : lb <= lb' -> obeys lb spent p -> obeys lb' spent p.
Proof.
  revert lb lb' spent. induction p as [a|R op k IH]; intros lb lb' spent Hlb; [done|].
  destruct op; cbn [obeys]; try (intros [Hk H]; split; [done|]; intros; by eapply IH).
  - intros H t Ht. apply H. lia.
  - intros [H1 H2]. split; [intros v Hv | intros e]; eapply IH; eauto.
  - intros (H1 & H2 & H3 & H4). split_and!; [| by eapply IH..|].
    { intros E. destruct (H1 E) as (? & ? & ? & ?). split_and!; lia. }
    intros e. by eapply IH.
Qed.
End Client.

(** ** Safety *)

Section Safety.
Context {W : Type} (h : handler W) (env : W -> W -> Prop) `{HL : !StoreLaws h env}.
Context (key : string) (limit start life : Z) (life_pos : 0 < life) (exact : limit <= sl_cap).
Context {A : Type} (claims : A -> Z).

(** The instant up to which the counter is remembered. *)
Abbreviation horizon := (start + life - sl_slack).
Abbreviation follows := (obeys key limit start life claims).

(** A client whose lower bound on the clock has been reached. *)
Definition running (w : W) (p : prog A) (spent : Z) : Prop :=
  0 <= spent /\ exists lb, lb <= sl_clock w /\ follows lb spent p.

(** The counter of [w'] has grown by at least [d] within the limit, and lives to
    the end of the window if it did before. *)
Definition grown (w w' : W) (d : Z) : Prop :=
  d <= sl_value w' key - sl_value w key /\ 0 <= sl_value w' key <= limit /\
  (alive_until (sl_deadline w key) horizon -> alive_until (sl_deadline w' key) horizon).

Lemma grown_same w w' :
  0 <= sl_value w key <= limit ->
  sl_value w' key = sl_value w key -> sl_deadline w' key = sl_deadline w key ->
  grown w w' 0.
Proof. intros Hv Ev Ed. unfold grown. rewrite Ev, Ed. split_and!; [lia..|done]. Qed.

(** A call on another key, or on none. *)
Lemma running_other {R} (op : CounterOp R) k w lb spent :
  op_key op <> Some key -> 0 <= spent -> lb <= sl_clock w -> follows lb spent (Call op k) ->
  running (h _ op w).2 (k (h _ op w).1) spent.
Proof.
  intros Hk Hspent Hlb Hp. split; [done|]. pose proof (sl_op_clock _ op w) as Hc.
  destruct (h R op w) as [r w'] eqn:E. simpl in *.
  destruct op; cbn [obeys op_key] in *;
    try (exists lb; split; [lia|]; apply Hp; fail).
  - rewrite sl_now in E. injection E as <- <-. exists (sl_clock w). split; [lia|]. auto.
  - exists lb. split; [lia|]. destruct Hp as [H1 H2].
    destruct r; [apply H1; congruence | apply H2].
  - exists lb. split; [lia|]. destruct Hp as (_ & H1 & H2 & H3).
    destruct (decide _); [congruence|]. destruct r as [[]|]; auto.
Qed.

Lemma running_get k w lb spent :
  sl_wf w -> 0 <= sl_value w key <= limit -> 0 <= spent -> lb <= sl_clock w ->
  follows lb spent (Call (Get key) k) ->
  running (h _ (Get key) w).2 (k (h _ (Get key) w).1) spent /\ grown w (h _ (Get key) w).2 0.
Proof.
  intros Hwf Hv Hspent Hlb [H1 H2]. pose proof (sl_op_clock _ (Get key) w) as Hc.
  destruct (sl_get w key Hwf) as (Hr & Hval & Hdl).
  split; [|by apply grown_same]. split; [done|].
  exists lb. split; [lia|]. destruct Hr as [->|[e ->]]; auto.
Qed.

Lemma running_cas oldVal newVal ttl k w lb spent :
  sl_wf w -> 0 <= sl_value w key <= limit -> 0 <= spent -> lb <= sl_clock w ->
  follows lb spent (Call (CompareAndSwap key oldVal newVal ttl) k) ->
  let '(r, w') := h _ (CompareAndSwap key oldVal newVal ttl) w in
  exists spent', running w' (k r) spent' /\ grown w w' (spent' - spent).
Proof.
  intros Hwf Hv Hspent Hlb (Hpre & H1 & H2 & H3). destruct (Hpre eq_refl) as (Hstart & Hlife & Ho & Hle).
  pose proof (sl_op_clock _ (CompareAndSwap key oldVal newVal ttl) w) as Hc.
  pose proof (sl_cas w key oldVal newVal ttl Hwf ltac:(lia)) as Hcas.
  destruct (h _ _ w) as [r w'] eqn:E. simpl in Hc.
  rewrite decide_True in H1 by done.
  assert (Hswap : forall d, d <= newVal - oldVal ->
    sl_value w key = oldVal /\ sl_value w' key = newVal /\
    (0 < ttl <= maxInt64 -> alive_until (sl_deadline w' key) (sl_clock w + ttl - sl_slack)) -> grown w w' d).
  { intros d Hd (Hold & Hn & Hdl). unfold grown. split_and!; [lia..|]. intros _.
    eapply alive_until_le; [apply Hdl|]; lia. }
  destruct r as [[]|e].
  - exists (spent + (newVal - oldVal)). split; [split; [lia|]; exists lb; by rewrite Hc|].
    apply Hswap; [lia|done].
  - exists spent. rewrite Z.sub_diag. split; [split; [done|]; exists lb; by rewrite Hc|].
    destruct Hcas as [[? ?]|?]; [by apply grown_same | apply Hswap; [lia|done]].
  - exists spent. rewrite Z.sub_diag. split; [split; [done|]; exists lb; rewrite Hc; auto|].
    destruct Hcas as [[? ?]|?]; [by apply grown_same | apply Hswap; [lia|done]].
Qed.

(** One call of an obedient client. *)
Lemma running_step w w' p p' spent :
  sl_wf w -> running w p spent -> 0 <= sl_value w key <= limit -> tstep h p w = (p', w') ->
  exists spent', running w' p' spent' /\ grown w w' (spent' - spent).
Proof.
  intros Hwf (Hspent & lb & Hlb & Hp) Hv. destruct p as [a|R op k]; cbn [tstep].
  { intros [= <- <-]. exists spent. rewrite Z.sub_diag. split; [split; [done|]; by exists lb|].
    by apply grown_same. }
  intros Hs. destruct (decide (op_key op = Some key)) as [Hk|Hk].
  - destruct op; cbn [op_key] in Hk; try discriminate Hk;
      try (destruct Hp as [Hne _]; by destruct Hne); injection Hk as ->.
    + pose proof (running_get k w lb spent Hwf Hv Hspent Hlb Hp) as Hg.
      destruct (h _ (Get key) w) as [r w1]. injection Hs as <- <-.
      exists spent. by rewrite Z.sub_diag.
    + pose proof (running_cas _ _ _ k w lb spent Hwf Hv Hspent Hlb Hp) as Hg.
      destruct (h _ _ w) as [r w1]. by injection Hs as <- <-.
  - pose proof (running_other op k w lb spent Hk Hspent Hlb Hp) as Hr.
    pose proof (sl_frame _ op w key Hwf Hk) as [Hval Hdl].
    destruct (h R op w) as [r w1]. injection Hs as <- <-. simpl in *.
    exists spent. rewrite Z.sub_diag. split; [done|]. by apply grown_same.
Qed.

(** What holds of a pool: every client's debt is on the counter. *)
Definition pool_inv (v0 : Z) (ps : list (prog A)) (w : W) : Prop :=
  sl_wf w /\ 0 <= sl_value w key <= limit /\ alive_until (sl_deadline w key) horizon /\
  exists spents, Forall2 (running w) ps spents /\ v0 + sumZ spents <= sl_value w key.

Lemma running_clock w w' p spent :
  sl_clock w <= sl_clock w' -> running w p spent -> running w' p spent.
Proof. intros Hc (Hs & lb & Hlb & Hp). split; [done|]. exists lb. split; [lia|done]. Qed.

Lemma pool_clock (x y : list (prog A) * W) : pool_step h env x y -> sl_clock x.2 <= sl_clock y.2.
Proof.
  intros [ps w i p p' w' _ Hs|ps w w' He]; simpl; [|by apply sl_env_clock].
  destruct p as [a|R op k]; cbn [tstep] in Hs; [injection Hs as <- <-; lia|].
  pose proof (sl_op_clock _ op w). destruct (h R op w). injection Hs as <- <-. simpl in *. lia.
Qed.

Lemma pool_wf (x y : list (prog A) * W) : pool_step h env x y -> sl_wf x.2 -> sl_wf y.2.
Proof.
  intros [ps w i p p' w' _ Hs|ps w w' He]; simpl; [|by apply sl_wf_env].
  destruct p as [a|R op k]; cbn [tstep] in Hs; [by injection Hs as <- <-|].
  pose proof (sl_wf_op _ op w). destruct (h R op w). by injection Hs as <- <-.
Qed.

Lemma pool_inv_step v0 (x y : list (prog A) * W) :
  pool_step h env x y -> sl_clock y.2 <= horizon ->
  pool_inv v0 x.1 x.2 -> pool_inv v0 y.1 y.2.
Proof.
  intros Hstep Hend (Hwf & Hv & Hdl & spents & Hf & Hsum).
  pose proof (pool_clock x y Hstep) as Hc. pose proof (pool_wf x y Hstep Hwf) as Hwf'.
  destruct Hstep as [ps w i p p' w' Hi Hs|ps w w' He]; simpl in *.
  - destruct (Forall2_lookup_l _ _ _ _ _ Hf Hi) as (spent & Hsp & Hrun).
    destruct (running_step w w' p p' spent Hwf Hrun Hv Hs) as (spent' & Hrun' & Hg1 & Hg2 & Hg3).
    split_and!; [done|lia..|auto|]. exists (<[i := spent']> spents). split.
    + apply Forall2_insert; [|done]. eapply Forall2_impl; [done|].
      intros q s. by apply running_clock.
    + pose proof (sumZ_insert id spents i spent spent' Hsp) as Hsi.
      rewrite !list_fmap_id in Hsi. unfold id in Hsi. lia.
  - destruct (sl_env w w' key Hwf He) as [Ev Ed]; [by eapply alive_until_le|].
    unfold pool_inv. rewrite Ev, Ed. split_and!; [done|lia..|done|]. exists spents. split; [|lia].
    eapply Forall2_impl; [done|]. intros q s. by apply running_clock.
Qed.

(** The amounts claimed by the clients that have answered. *)
Definition claimed (ps : list (prog A)) : Z :=
  sumZ ((fun p => match answer p with Some a => Z.max 0 (claims a) | None => 0 end) <$> ps).

Lemma running_claims w ps spents :
  Forall2 (running w) ps spents -> claimed ps <= sumZ spents.
Proof.
  induction 1 as [|p s ps spents (Hs & lb & _ & Hp) _ IH]; [done|].
  unfold claimed in *. rewrite fmap_cons. unfold sumZ in *. cbn [foldr].
  destruct p as [a|R op k]; cbn [answer obeys] in *; lia.
Qed.

(** However obedient clients are interleaved, on whatever lawful store: until the
    end of the window, what they are granted fits in what was left. *)
Lemma protocol_safe ps w ps' w' :
  sl_wf w -> 0 <= sl_value w key <= limit -> alive_until (sl_deadline w key) horizon ->
  Forall (follows (sl_clock w) 0) ps ->
  rtc (pool_step h env) (ps, w) (ps', w') -> sl_clock w' <= horizon ->
  claimed ps' <= limit - sl_value w key.
Proof.
  intros Hwf Hv Hdl Hps Hrtc Hend.
  assert (Hinv : pool_inv (sl_value w key) ps' w').
  { refine (rtc_ind_r (fun x => sl_clock x.2 <= horizon -> pool_inv (sl_value w key) x.1 x.2)
      _ _ _ _ Hrtc Hend).
    - intros _. unfold pool_inv. cbn [fst snd]. split_and!; [done|lia..|done|].
      exists (replicate (length ps) 0). split.
      + clear -Hps. induction Hps; simpl; constructor; [|done].
        split; [lia|]. by exists (sl_clock w).
      + enough (sumZ (replicate (length ps) 0) = 0) by (simpl; lia).
        clear. induction (length ps); simpl; lia.
    - intros x y _ Hstep IH Hy. apply (pool_inv_step _ x y Hstep Hy), IH.
      pose proof (pool_clock x y Hstep). lia. }
  destruct Hinv as (_ & Hv' & _ & spents & Hf & Hsum).
  pose proof (running_claims w' ps' spents Hf). lia.
Qed.
End Safety.

(** Clients whose answers are mapped claim no more than before if no answer does. *)
Lemma claimed_mapped {A B} (claims : A -> Z) (claims' : B -> Z) (g : A -> B) ps qs :
  Forall2 (mapped g) ps qs -> (forall a, Ret a ∈ ps -> claims' (g a) <= claims a) ->
  claimed claims' qs <= claimed claims ps.
Proof.
  unfold claimed. induction 1 as [|p q ps qs Hm _ IH]; intros H; [done|]. rewrite !fmap_cons. unfold sumZ in *. cbn [foldr].
  specialize (IH ltac:(intros a Ha; apply H; by right)).
  destruct p as [a|R op k]; cbn [mapped] in Hm; [subst q|destruct Hm as (k' & -> & _)]; cbn [answer]; [|lia].
  specialize (H a ltac:(by left)). lia.
Qed.

(** ** Stores whose counters do not fail *)

(** Whether the answer to a read or a swap of a counter is an error. *)
Definition op_failed {R} (op : CounterOp R) : R -> bool :=
  match op with
  | Get _ => fun r => match r with Ok _ => false | Err _ => true end
  | CompareAndSwap _ _ _ _ => fun r => match r with Ok _ => false | Err _ => true end
  | _ => fun _ => false
  end.

(** No read and no swap is answered with an error. *)
Definition never_fails {W} (h : handler W) : Prop := forall R (op : CounterOp R) w, op_failed op (h _ op w).1 = false.

(** A client that ends well unless a read or a swap fails. *)
Fixpoint ends_well {A} (good : A -> Prop) (p : prog A) : Prop :=
  match p with
  | Ret a => good a
  | Call op k => forall r, op_failed op r = false -> ends_well good (k r)
  end.

Lemma ends_well_bind {A B} (good : A -> Prop) (good' : B -> Prop) (f : A -> prog B) p :
  ends_well good p -> (forall a, good a -> ends_well good' (f a)) -> ends_well good' (p ≫= f).
Proof.
  unfold mbind, prog_mbind. intros Hp Hf. revert Hp. induction p as [a|R op k IH]; cbn [ends_well prog_bind]; auto.
Qed.

Lemma ends_well_run {W A} (h : handler W) env (good : A -> Prop) ps w ps' w' :
  never_fails h -> Forall (ends_well good) ps -> rtc (pool_step h env) (ps, w) (ps', w') -> Forall (ends_well good) ps'.
Proof.
  intros Hh Hps Hrtc. refine (rtc_ind_r (fun x => Forall (ends_well good) x.1) (ps, w) Hps _ (ps', w') Hrtc).
  intros x y _ Hstep H. destruct Hstep as [qs v i p p' v' Hi Hs|]; [|done]. cbn [fst] in *.
  apply Forall_insert; [done|]. pose proof (proj1 (Forall_lookup _ _) H i p Hi) as Hp.
  destruct p as [a|R op k]; cbn [tstep] in Hs; [by simplify_eq|]. specialize (Hh R op v).
  destruct (h R op v) as [r v1]. simplify_eq/=. by apply Hp.
Qed.

(** ** Leases *)

(** What a store promises to clients that hold leases: [ls_count] leases are counted
    on a key, and the count is remembered up to [ls_deadline].  A successful
    acquisition adds a lease within the limit and renews the deadline; one that fails
    takes no lease away; a release takes at most one. *)
Class LeaseLaws {W : Type} (h : handler W) (env : W -> W -> Prop) `{SL : !StoreLaws h env} := {
  ls_wf : W -> Prop;
  ls_wf_op R (op : CounterOp R) w : sl_wf w -> ls_wf w -> ls_wf (h _ op w).2;
  ls_wf_env w w' : env w w' -> ls_wf w -> ls_wf w';
  ls_count : W -> string -> Z;
  ls_deadline : W -> string -> option Time;
  (** the limits that are compared exactly, and the shortest time-to-live *)
  ls_cap : Z;
  ls_unit : Duration;
  ls_acquire w k limit ttl :
    sl_wf w -> ls_wf w -> 0 <= ls_count w k -> 0 < limit <= ls_cap -> ls_unit <= ttl <= maxInt64 ->
    let '(r, w') := h _ (AcquireLease k limit ttl) w in
    match r with
    | Ok (true, _) => ls_count w k + 1 <= ls_count w' k <= limit /\
                      alive_until (ls_deadline w' k) (sl_clock w + ttl - sl_slack)
    | _ => ls_count w k <= ls_count w' k /\
           forall t, 0 < ls_count w k -> t <= sl_clock w + ttl - sl_slack ->
                     alive_until (ls_deadline w k) t -> alive_until (ls_deadline w' k) t
    end;
  ls_release w k :
    sl_wf w -> ls_wf w -> 0 < ls_count w k ->
    let w' := (h _ (ReleaseLease k) w).2 in
    ls_count w k - 1 <= ls_count w' k /\
    forall t, alive_until (ls_deadline w k) t -> alive_until (ls_deadline w' k) t;
  ls_env w w' k :
    sl_wf w -> env w w' -> 0 <= ls_count w k ->
    0 <= ls_count w' k /\
    (alive_until (ls_deadline w k) (sl_clock w') ->
     ls_count w' k = ls_count w k /\ ls_deadline w' k = ls_deadline w k)
}.
