(* ===== verification/Common.v ===== *)
(** * internal/algorithm/common: windows, costs and over-limit decisions

    Shared by all algorithms.  [Clock] is the part of an [Evaluator] that tells
    the time: the injected [Now] when it is not nil, and the offset of the
    location in which instants are broken down into dates. *)

From Stdlib Require Import String.
From S2P Require Import Prelude GoString GoFloat GoTime Model Store.
Local Open Scope Z_scope.
Local Open Scope stdpp_scope.

Record Clock := { clk_Now : option Time; clk_Loc : Z }.

(** [now := time.Now(); if e.Now != nil { now = e.Now() }]. *)
Definition eval_now (clk : Clock) : prog Time :=
  now ← call TimeNow; mret (default now (clk_Now clk)).

Definition WindowDuration (cfg : AlgorithmConfig) : Duration :=
  if String.eqb (cfg_Window cfg) "" then Minute
  else match ParseDuration (cfg_Window cfg) with
       | Some d => d
       | None =>
           if String.eqb (cfg_Window cfg) "day" then 24 * Hour
           else if String.eqb (cfg_Window cfg) "week" then 7 * 24 * Hour
           else if String.eqb (cfg_Window cfg) "month" then 30 * 24 * Hour
           else Minute
       end.

Definition WindowStart (now : Time) (loc : Z) (cfg : AlgorithmConfig) : Time :=
  if String.eqb (cfg_Window cfg) "month" then
    let c := time_Date now loc in Date (civ_year c) (civ_month c) 1 loc
  else if String.eqb (cfg_Window cfg) "week" then
    let wd := Z.rem (Weekday now loc + 6) 7 in
    let c := time_Date now loc in Date (civ_year c) (civ_month c) (civ_day c - wd) loc
  else Truncate now (WindowDuration cfg).

Definition WindowEnd (now : Time) (loc : Z) (cfg : AlgorithmConfig) : Time :=
  if String.eqb (cfg_Window cfg) "month" then AddDate (WindowStart now loc cfg) loc 0 1 0
  else if String.eqb (cfg_Window cfg) "week" then time_Add (WindowStart now loc cfg) (7 * 24 * Hour)
  else time_Add (WindowStart now loc cfg) (WindowDuration cfg).

(** Policy override, then request quantity, then 1. *)
Definition Cost (req : RequestContext) (cfg : AlgorithmConfig) : int64 :=
  if 0 <? cfg_CostPerRequest cfg then cfg_CostPerRequest cfg
  else if 0 <? req_Quantity req then req_Quantity req
  else 1.

(** The decision over the limit, when the wall clock shows [t]. *)
Definition overLimit (t : Time) (policy : Policy) (retryAfter : Duration) (remaining : int64)
    (reason : string) : Decision :=
  let act := pol_Action policy in
  {| dec_Allowed :=
       String.eqb act ActionDelay || String.eqb act ActionDowngrade || String.eqb act ActionShadowOnly;
     dec_Action := act; dec_Reason := reason; dec_MatchedPolicyID := "";
     dec_MatchedRuleKey := ""; dec_LimitKey := ""; dec_Remaining := remaining;
     dec_RetryAfter := retryAfter; dec_ResetAt := time_Add t retryAfter;
     dec_DelayFor := if String.eqb act ActionDelay then retryAfter else 0;
     dec_SampleRate := if String.eqb act ActionSample then cfg_SampleRate (pol_Algorithm policy) else fzero;
     dec_ShadowMode := String.eqb act ActionShadowOnly; dec_Metadata := None |}.

Definition OverLimitDecision (policy : Policy) (retryAfter : Duration) (remaining : int64)
    (reason : string) : prog Decision :=
  t ← call TimeNow; mret (overLimit t policy retryAfter remaining reason).

(** [model.Decision{Allowed: true, Action: model.ActionAllow, ...}]. *)
Definition allowed (reason : string) (remaining : int64) (resetAt : Time) : Decision :=
  {| dec_Allowed := true; dec_Action := ActionAllow; dec_Reason := reason; dec_MatchedPolicyID := "";
     dec_MatchedRuleKey := ""; dec_LimitKey := ""; dec_Remaining := remaining; dec_RetryAfter := 0;
     dec_ResetAt := resetAt; dec_DelayFor := 0; dec_SampleRate := fzero; dec_ShadowMode := false;
     dec_Metadata := None |}.

(** The actions with which a request over the limit is not let through; a delayed, a
    downgraded and a shadowed one is. *)
Definition blocking (act : ActionType) : bool :=
  negb (String.eqb act ActionDelay || String.eqb act ActionDowngrade || String.eqb act ActionShadowOnly).

Lemma overLimit_blocks t policy retry rem reason :
  blocking (pol_Action policy) = true -> dec_Allowed (overLimit t policy retry rem reason) = false.
Proof. unfold blocking. cbn [overLimit dec_Allowed]. by destruct (_ || _). Qed.

(** Whether a call answered with an admission. *)
Definition is_allowed (r : result Decision) : bool :=
  match r with Ok d => dec_Allowed d | Err _ => false end.

(** The CAS retry limit, a helper each CAS-based algorithm repeats. *)
Definition defaultMaxCASRetries : Z := 5.
Definition maxRetries (cfg : AlgorithmConfig) : Z :=
  if 0 <? cfg_MaxRetries cfg then cfg_MaxRetries cfg else defaultMaxCASRetries.

(** [limit := policy.Algorithm.Limit; if limit <= 0 { limit = 1 }]. *)
Definition effective_limit (cfg : AlgorithmConfig) : int64 :=
  if cfg_Limit cfg <=? 0 then 1 else cfg_Limit cfg.

(** ** Windows *)

(** A window that is a calendar month or week, or has a positive length. *)
Definition proper_window (cfg : AlgorithmConfig) : Prop :=
  cfg_Window cfg = "month" \/ cfg_Window cfg = "week" \/ 0 < WindowDuration cfg.

Lemma week_start_days now loc cfg :
  cfg_Window cfg = "week" ->
  WindowStart now loc cfg = (local_days now loc - (local_days now loc + 3) mod 7) * Day - loc * Second.
Proof.
  intros E. unfold WindowStart. rewrite E. cbn [String.eqb Ascii.eqb Bool.eqb].
  unfold time_Date, Weekday.
  pose proof (civil_from_days_spec (local_days now loc)) as (Hm & Hd & _).
  rewrite Date_month by done. rewrite days_from_civil_day, Z.rem_mod_nonneg;
    [|pose proof (Z.mod_pos_bound (local_days now loc + 4) 7); lia|lia].
  rewrite days_from_civil_day in Hd.
  replace (((local_days now loc + 4) mod 7 + 6) mod 7) with ((local_days now loc + 3) mod 7) by zdiv.
  f_equal. f_equal. lia.
Qed.

Lemma month_start_days now loc cfg :
  cfg_Window cfg = "month" ->
  let c := time_Date now loc in
  WindowStart now loc cfg = days_from_civil (civ_year c) (civ_month c) 1 * Day - loc * Second /\
  WindowEnd now loc cfg = next_month (civ_year c) (civ_month c) * Day - loc * Second.
Proof.
  intros E c. unfold WindowEnd, WindowStart. rewrite E. cbn [String.eqb Ascii.eqb Bool.eqb]. fold c.
  destruct (civil_from_days_spec (local_days now loc)) as (Hm & _ & _).
  split; [by apply Date_month | by apply AddDate_first].
Qed.

(** Except for months, a window is as long as its duration says. *)
Lemma WindowEnd_duration now loc cfg :
  cfg_Window cfg <> "month" -> WindowEnd now loc cfg = WindowStart now loc cfg + WindowDuration cfg.
Proof.
  intros Hm. unfold WindowEnd, time_Add. destruct (String.eqb_spec (cfg_Window cfg) "month"); [done|].
  destruct (String.eqb_spec (cfg_Window cfg) "week") as [E|]; [|done].
  unfold WindowDuration. rewrite E. done.
Qed.

Lemma WindowDuration_range cfg : in_int64 (WindowDuration cfg).
Proof.
  unfold WindowDuration. destruct (String.eqb _ ""); [done|].
  destruct (ParseDuration _) eqn:E; [by eapply ParseDuration_range|].
  repeat (destruct (String.eqb _ _); [done|]). done.
Qed.

Lemma Cost_pos req cfg : 0 < Cost req cfg.
Proof. unfold Cost. zcases. Qed.

Lemma maxRetries_pos cfg : 0 < maxRetries cfg.
Proof. unfold maxRetries, defaultMaxCASRetries. zcases. Qed.

Lemma effective_limit_pos cfg : 0 < effective_limit cfg.
Proof. unfold effective_limit. zcases. Qed.

#[export] Hint Resolve Cost_pos maxRetries_pos effective_limit_pos WindowDuration_range : rlaas.

(** Consecutive local days of an instant between two midnights. *)
Lemma local_days_between t loc a b :
  a * Day - loc * Second <= t < b * Day - loc * Second -> a <= local_days t loc < b.
Proof.
  intros H. pose proof (local_days_bounds t loc). unfold Day, Second in *. lia.
Qed.

Lemma week_partition now loc cfg :
  cfg_Window cfg = "week" ->
  WindowStart now loc cfg <= now < WindowStart now loc cfg + 7 * Day /\
  forall u, WindowStart now loc cfg <= u < WindowStart now loc cfg + 7 * Day ->
    WindowStart u loc cfg = WindowStart now loc cfg.
Proof.
  intros E. rewrite (week_start_days now) by done.
  pose proof (local_days_bounds now loc) as Hb.
  pose proof (Z.mod_pos_bound (local_days now loc + 3) 7 ltac:(lia)) as Hm.
  split; [unfold Day, Second in *; lia|]. intros u Hu.
  rewrite (week_start_days u) by done. f_equal. f_equal.
  assert (local_days now loc - (local_days now loc + 3) mod 7 <= local_days u loc
          < local_days now loc - (local_days now loc + 3) mod 7 + 7).
  { apply local_days_between. unfold Day, Second in *. lia. }
  zdiv.
Qed.

Lemma month_partition now loc cfg :
  cfg_Window cfg = "month" ->
  WindowStart now loc cfg <= now < WindowEnd now loc cfg /\
  forall u, WindowStart now loc cfg <= u < WindowEnd now loc cfg ->
    WindowStart u loc cfg = WindowStart now loc cfg /\ WindowEnd u loc cfg = WindowEnd now loc cfg.
Proof.
  intros E. destruct (month_start_days now loc cfg E) as [-> ->].
  destruct (civil_from_days_spec (local_days now loc)) as (Hm & _ & Hin).
  unfold time_Date. pose proof (local_days_bounds now loc) as Hb.
  split; [unfold Day, Second in *; lia|]. intros u Hu.
  destruct (month_start_days u loc cfg E) as [-> ->]. unfold time_Date.
  apply local_days_between in Hu.
  destruct (civil_from_days_month _ _ _ Hm Hu) as [-> ->]. done.
Qed.

Lemma window_bounds now loc cfg :
  proper_window cfg ->
  WindowStart now loc cfg <= now < WindowEnd now loc cfg /\
  forall u, WindowStart now loc cfg <= u < WindowEnd now loc cfg ->
    WindowStart u loc cfg = WindowStart now loc cfg /\ WindowEnd u loc cfg = WindowEnd now loc cfg.
Proof.
  intros Hp. destruct (decide (cfg_Window cfg = "month")) as [E|Hm]; [by apply month_partition|].
  rewrite WindowEnd_duration by done.
  assert (Hu : forall u, WindowStart u loc cfg = WindowStart now loc cfg ->
    WindowStart u loc cfg = WindowStart now loc cfg /\
    WindowEnd u loc cfg = WindowStart now loc cfg + WindowDuration cfg).
  { intros u Eu. rewrite WindowEnd_duration, Eu by done. done. }
  destruct (decide (cfg_Window cfg = "week")) as [E|Hw].
  - replace (WindowDuration cfg) with (7 * Day) in * by (unfold WindowDuration; by rewrite E).
    destruct (week_partition now loc cfg E) as [H1 H2]. auto.
  - destruct Hp as [?|[?|Hd]]; [done..|]. assert (Es : forall t, WindowStart t loc cfg = Truncate t (WindowDuration cfg)).
    { intros t. unfold WindowStart.
      destruct (String.eqb_spec (cfg_Window cfg) "month"); [done|].
      by destruct (String.eqb_spec (cfg_Window cfg) "week"). }
    rewrite Es in *. split; [by apply Truncate_bounds|]. intros u Hin. apply Hu.
    rewrite !Es. by apply Truncate_unique.
Qed.

(** Windows partition time: the window of an instant contains it,
    and every instant of that window has the same window.  Calendar months start
    on the first of the month and calendar weeks on Monday, in any fixed time zone. *)
Theorem window_partition (now : Time) (loc : Z) (cfg : AlgorithmConfig) :
  proper_window cfg ->
  WindowStart now loc cfg <= now < WindowEnd now loc cfg /\
  forall u, WindowStart now loc cfg <= u < WindowEnd now loc cfg ->
    WindowStart u loc cfg = WindowStart now loc cfg /\ WindowEnd u loc cfg = WindowEnd now loc cfg.
Proof. apply window_bounds. Qed.

Lemma window_partition_witness :
  let cfg := mkConfig AlgoQuota 5 "month" in
  proper_window cfg /\ WindowStart (31 * Day) 3600 cfg = 31 * Day - Hour /\
  WindowStart (31 * Day) 3600 cfg <= 31 * Day < WindowEnd (31 * Day) 3600 cfg.
Proof.
  split; [by left|]. split; [reflexivity|].
  apply (window_partition (31 * Day) 3600 (mkConfig AlgoQuota 5 "month")). by left.
Defined.
