(* ===== verification/MemoryStore.v ===== *)
(** * internal/store/counter/memory: the in-process counter store

    Each method locks the shard of its key for its whole duration, so a method is
    one atomic step on that shard, taken at the instant the clock shows then.  The
    collector's [sweep] locks one shard at a time, with the instant at which it
    started: [env_step] lets time pass and shards be swept between any two calls. *)

From S2P Require Import Prelude GoString GoFloat GoTime Store Protocol.
Local Open Scope Z_scope.
Local Open Scope go_scope.

Record valueItem := { vi_value : int64; vi_expiry : Time }.

Record memoryShard := {
  sh_values : gmap string valueItem;
  sh_timestamps : gmap string (list Time);
  sh_tsExpiry : gmap string Time;
  sh_leases : gmap string valueItem
}.

(** [ms_stop] is nil when there is no collector; otherwise whether the channel is
    closed. *)
Record MemoryStore := { ms_shards : list memoryShard; ms_stop : option bool }.

Definition zeroItem : valueItem := {| vi_value := 0; vi_expiry := zeroTime |}.
Definition emptyShard : memoryShard :=
  {| sh_values := ∅; sh_timestamps := ∅; sh_tsExpiry := ∅; sh_leases := ∅ |}.
#[export] Instance memoryShard_inhabited : Inhabited memoryShard := populate emptyShard.

Definition NewSharded (shardCount : Z) : MemoryStore :=
  let n := if shardCount <=? 0 then 1 else shardCount in
  {| ms_shards := replicate (Z.to_nat n) emptyShard; ms_stop := None |}.

Definition New : MemoryStore := NewSharded 64.

Definition NewShardedWithGC (shardCount : Z) : MemoryStore :=
  {| ms_shards := ms_shards (NewSharded shardCount); ms_stop := Some false |}.

Definition NewWithGC : MemoryStore := NewShardedWithGC 64.

Definition Stop (m : MemoryStore) : MemoryStore :=
  {| ms_shards := ms_shards m;
     ms_stop := match ms_stop m with Some _ => Some true | None => None end |}.

(** The index of the shard responsible for a key. *)
Definition shardFor (m : MemoryStore) (key : string) : nat :=
  let n := Z.of_nat (length (ms_shards m)) in
  if n =? 1 then 0%nat else Z.to_nat (fnv32a key mod (n mod two32)).

(** ** Operations on a locked shard, at the instant [now] *)

Definition with_values (f : gmap string valueItem -> gmap string valueItem) (sh : memoryShard) : memoryShard :=
  {| sh_values := f (sh_values sh); sh_timestamps := sh_timestamps sh;
     sh_tsExpiry := sh_tsExpiry sh; sh_leases := sh_leases sh |}.
Definition with_leases (f : gmap string valueItem -> gmap string valueItem) (sh : memoryShard) : memoryShard :=
  {| sh_values := sh_values sh; sh_timestamps := sh_timestamps sh;
     sh_tsExpiry := sh_tsExpiry sh; sh_leases := f (sh_leases sh) |}.
Definition with_timestamps (f : gmap string (list Time) -> gmap string (list Time)) (sh : memoryShard) : memoryShard :=
  {| sh_values := sh_values sh; sh_timestamps := f (sh_timestamps sh);
     sh_tsExpiry := sh_tsExpiry sh; sh_leases := sh_leases sh |}.
Definition with_tsExpiry (f : gmap string Time -> gmap string Time) (sh : memoryShard) : memoryShard :=
  {| sh_values := sh_values sh; sh_timestamps := sh_timestamps sh;
     sh_tsExpiry := f (sh_tsExpiry sh); sh_leases := sh_leases sh |}.

(** [!it.expiry.IsZero() && now.After(it.expiry)]. *)
Definition expired (now : Time) (it : valueItem) : bool :=
  negb (IsZero (vi_expiry it)) && After now (vi_expiry it).

Definition getValueLocked (now : Time) (key : string) (sh : memoryShard) : valueItem * memoryShard :=
  let it := default zeroItem (sh_values sh !! key) in
  if expired now it then (zeroItem, with_values (delete key) sh) else (it, sh).

Definition getLeaseLocked (now : Time) (key : string) (sh : memoryShard) : valueItem * memoryShard :=
  let it := default zeroItem (sh_leases sh !! key) in
  if expired now it then (zeroItem, with_leases (delete key) sh) else (it, sh).

Definition cleanTSLocked (now : Time) (key : string) (sh : memoryShard) : memoryShard :=
  let expiry := default zeroTime (sh_tsExpiry sh !! key) in
  if IsZero expiry || Before now expiry then sh
  else with_tsExpiry (delete key) (with_timestamps (delete key) sh).

(** [if ttl > 0 { it.expiry = time.Now().Add(ttl) }]. *)
Definition touch (now : Time) (ttl : Duration) (expiry : Time) : Time :=
  if 0 <? ttl then time_Add now ttl else expiry.

Definition mem_Increment (key : string) (value : int64) (ttl : Duration) (now : Time) (sh : memoryShard)
    : result int64 * memoryShard :=
  let '(it, sh) := getValueLocked now key sh in
  let it := {| vi_value := vi_value it +! value; vi_expiry := touch now ttl (vi_expiry it) |} in
  (Ok (vi_value it), with_values <[key := it]> sh).

Definition mem_Get (key : string) (now : Time) (sh : memoryShard) : result int64 * memoryShard :=
  let '(it, sh) := getValueLocked now key sh in (Ok (vi_value it), sh).

Definition mem_Set (key : string) (value : int64) (ttl : Duration) (now : Time) (sh : memoryShard)
    : result unit * memoryShard :=
  (Ok (), with_values <[key := {| vi_value := value; vi_expiry := touch now ttl zeroTime |}]> sh).

Definition mem_CompareAndSwap (key : string) (oldVal newVal : int64) (ttl : Duration) (now : Time)
    (sh : memoryShard) : result bool * memoryShard :=
  let '(it, sh) := getValueLocked now key sh in
  if negb (vi_value it =? oldVal) then (Ok false, sh)
  else (Ok true,
        with_values <[key := {| vi_value := newVal; vi_expiry := touch now ttl (vi_expiry it) |}]> sh).

Definition mem_Delete (key : string) (now : Time) (sh : memoryShard) : result unit * memoryShard :=
  (Ok (), with_leases (delete key) (with_tsExpiry (delete key)
            (with_timestamps (delete key) (with_values (delete key) sh)))).

Definition timestampsOf (key : string) (sh : memoryShard) : list Time :=
  default [] (sh_timestamps sh !! key).

(** [if ttl > 0 { shard.tsExpiry[key] = time.Now().Add(ttl) }]. *)
Definition touchTS (key : string) (ttl : Duration) (now : Time) (sh : memoryShard) : memoryShard :=
  if 0 <? ttl then with_tsExpiry <[key := time_Add now ttl]> sh else sh.

Definition mem_AddTimestamp (key : string) (ts : Time) (ttl : Duration) (now : Time) (sh : memoryShard)
    : result unit * memoryShard :=
  let arr := sort_by Before (timestampsOf key sh ++ [ts]) in
  (Ok (), touchTS key ttl now (with_timestamps <[key := arr]> sh)).

Definition mem_CountAfter (key : string) (after : Time) (now : Time) (sh : memoryShard)
    : result int64 * memoryShard :=
  let sh := cleanTSLocked now key sh in
  (Ok (Z.of_nat (length (List.filter (fun t => negb (Before t after)) (timestampsOf key sh)))), sh).

Definition mem_TrimBefore (key : string) (before : Time) (now : Time) (sh : memoryShard)
    : result unit * memoryShard :=
  let arr := List.filter (fun t => negb (Before t before)) (timestampsOf key sh) in
  (Ok (), with_timestamps <[key := arr]> sh).

Definition mem_CheckAndAddTimestamps (key : string) (cutoff : Time) (limit cost : int64) (ts : Time)
    (ttl : Duration) (now : Time) (sh : memoryShard) : result (int64 * bool) * memoryShard :=
  let arr := List.filter (fun t => negb (Before t cutoff)) (timestampsOf key sh) in
  let count := Z.of_nat (length arr) in
  if limit <? count +! cost then (Ok (count, false), with_timestamps <[key := arr]> sh)
  else
    let arr := sort_by Before (arr ++ replicate (Z.to_nat cost) ts) in
    (Ok (count, true), touchTS key ttl now (with_timestamps <[key := arr]> sh)).

Definition errLimitMustBePositive : string := "limit must be positive".

Definition mem_AcquireLease (key : string) (limit : int64) (ttl : Duration) (now : Time) (sh : memoryShard)
    : result (bool * int64) * memoryShard :=
  if limit <=? 0 then (Err errLimitMustBePositive, sh)
  else
    let '(it, sh) := getLeaseLocked now key sh in
    if limit <=? vi_value it then (Ok (false, vi_value it), sh)
    else
      let it := {| vi_value := vi_value it +! 1; vi_expiry := touch now ttl (vi_expiry it) |} in
      (Ok (true, vi_value it), with_leases <[key := it]> sh).

Definition mem_ReleaseLease (key : string) (now : Time) (sh : memoryShard) : result unit * memoryShard :=
  let '(it, sh) := getLeaseLocked now key sh in
  let it := {| vi_value := if 0 <? vi_value it then vi_value it - 1 else vi_value it;
               vi_expiry := vi_expiry it |} in
  (Ok (), with_leases <[key := it]> sh).

(** ** The store *)

Record World := { w_clock : Time; w_store : MemoryStore }.

(** Runs an operation on the locked shard of a key. *)
Definition on_shard {R} (key : string) (f : Time -> memoryShard -> R * memoryShard) (w : World) : R * World :=
  let m := w_store w in
  let i := shardFor m key in
  let '(r, sh) := f (w_clock w) (ms_shards m !!! i) in
  (r, {| w_clock := w_clock w;
         w_store := {| ms_shards := <[i := sh]> (ms_shards m); ms_stop := ms_stop m |} |}).

Definition shard_op {R} (op : CounterOp R) : Time -> memoryShard -> R * memoryShard :=
  match op with
  | TimeNow => fun now sh => (now, sh)
  | Increment k v ttl => mem_Increment k v ttl
  | Get k => mem_Get k
  | SetVal k v ttl => mem_Set k v ttl
  | CompareAndSwap k o n ttl => mem_CompareAndSwap k o n ttl
  | Delete k => mem_Delete k
  | AddTimestamp k ts ttl => mem_AddTimestamp k ts ttl
  | CountAfter k after => mem_CountAfter k after
  | TrimBefore k before => mem_TrimBefore k before
  | CheckAndAddTimestamps k cutoff limit cost ts ttl => mem_CheckAndAddTimestamps k cutoff limit cost ts ttl
  | AcquireLease k limit ttl => mem_AcquireLease k limit ttl
  | ReleaseLease k => mem_ReleaseLease k
  end.

(** The methods of [*MemoryStore]; the clock is read without any lock. *)
Definition memory : handler World := fun R op w =>
  match op_key op with
  | Some key => on_shard key (shard_op op) w
  | None => ((shard_op op (w_clock w) emptyShard).1, w)
  end.

(** ** The collector *)

Definition sweepShard (now : Time) (sh : memoryShard) : memoryShard :=
  let stale := filter (fun '(_, exp) => After now exp = true) (sh_tsExpiry sh) in
  {| sh_values := filter (fun '(_, it) => expired now it = false) (sh_values sh);
     sh_timestamps := sh_timestamps sh ∖ (const [] <$> stale);
     sh_tsExpiry := sh_tsExpiry sh ∖ stale;
     sh_leases := filter (fun '(_, it) => expired now it = false) (sh_leases sh) |}.

(** All shards in turn, with the instant read at the start. *)
Definition sweep (now : Time) (m : MemoryStore) : MemoryStore :=
  {| ms_shards := sweepShard now <$> ms_shards m; ms_stop := ms_stop m |}.

(** What happens between two calls: time passes, or the collector gets to the next
    shard of a sweep that started at [now]. *)
Inductive env_step : World -> World -> Prop :=
| env_tick w t : w_clock w <= t -> env_step w {| w_clock := t; w_store := w_store w |}
| env_sweep w i now :
    now <= w_clock w ->
    env_step w {| w_clock := w_clock w;
                  w_store := {| ms_shards := alter (sweepShard now) i (ms_shards (w_store w));
                                ms_stop := ms_stop (w_store w) |} |}.

(** ** What a shard holds for one key *)

Record cell := {
  c_value : option valueItem; c_timestamps : option (list Time);
  c_tsExpiry : option Time; c_lease : option valueItem
}.

Definition cell_of (key : string) (sh : memoryShard) : cell :=
  {| c_value := sh_values sh !! key; c_timestamps := sh_timestamps sh !! key;
     c_tsExpiry := sh_tsExpiry sh !! key; c_lease := sh_leases sh !! key |}.

(** What the store holds for a key: the cell in the shard the key hashes to. *)
Definition view (m : MemoryStore) (key : string) : cell :=
  cell_of key (ms_shards m !!! shardFor m key).

(** At least one shard, and no more than [uint32] can count. *)
Definition wf_store (m : MemoryStore) : Prop :=
  0 < Z.of_nat (length (ms_shards m)) < two32.

Lemma shardFor_lt m key : wf_store m -> (shardFor m key < length (ms_shards m))%nat.
Proof.
  unfold wf_store, shardFor. intros [H1 H2]. destruct (_ =? 1) eqn:E; [lia|].
  rewrite (Z.mod_small (Z.of_nat _)) by lia.
  pose proof (Z.mod_pos_bound (fnv32a key) (Z.of_nat (length (ms_shards m)))). lia.
Qed.

Lemma NewSharded_length n : length (ms_shards (NewSharded n)) = Z.to_nat (Z.max 1 n).
Proof.
  unfold NewSharded. cbn [ms_shards]. rewrite length_replicate. f_equal. zcases.
Qed.

Lemma NewSharded_wf n : n < two32 -> wf_store (NewSharded n).
Proof. unfold wf_store. rewrite NewSharded_length. intros. unfold two32 in *. lia. Qed.

Lemma NewSharded_view n key : view (NewSharded n) key = cell_of key emptyShard.
Proof.
  unfold view. generalize (shardFor (NewSharded n) key) as i. intros i. f_equal.
  rewrite list_lookup_total_alt. unfold NewSharded. cbn [ms_shards].
  destruct (replicate _ emptyShard !! i) eqn:E; [|done].
  by apply lookup_replicate in E as [-> _].
Qed.

(** The shards change, the assignment of keys to them does not. *)
Lemma shardFor_length m m' key :
  length (ms_shards m) = length (ms_shards m') -> shardFor m key = shardFor m' key.
Proof. unfold shardFor. by intros ->. Qed.

(** A locked operation depends on and changes only the cell of its own key. *)
Lemma shard_op_local {R} (op : CounterOp R) now key sh1 sh2 :
  op_key op = Some key -> cell_of key sh1 = cell_of key sh2 ->
  (shard_op op now sh1).1 = (shard_op op now sh2).1 /\
  cell_of key (shard_op op now sh1).2 = cell_of key (shard_op op now sh2).2.
Proof.
  intros Hk [= E1 E2 E3 E4]. unfold cell_of.
  destruct op; simplify_eq/=;
    unfold mem_Increment, mem_Get, mem_Set, mem_CompareAndSwap, mem_Delete, mem_AddTimestamp,
      mem_CountAfter, mem_TrimBefore, mem_CheckAndAddTimestamps, mem_AcquireLease, mem_ReleaseLease,
      getValueLocked, getLeaseLocked, cleanTSLocked, touchTS, timestampsOf;
    rewrite ?E1, ?E2, ?E3, ?E4;
    repeat (case_match; simplify_eq/=); simplify_map_eq; split; congruence.
Qed.

Lemma shard_op_frame {R} (op : CounterOp R) now key key' sh :
  op_key op = Some key -> key' <> key -> cell_of key' (shard_op op now sh).2 = cell_of key' sh.
Proof.
  intros Hk Hne. unfold cell_of. destruct op; simplify_eq/=;
    unfold mem_Increment, mem_Get, mem_Set, mem_CompareAndSwap, mem_Delete, mem_AddTimestamp,
      mem_CountAfter, mem_TrimBefore, mem_CheckAndAddTimestamps, mem_AcquireLease, mem_ReleaseLease,
      getValueLocked, getLeaseLocked, cleanTSLocked, touchTS;
    repeat (case_match; simplify_eq/=); by rewrite ?lookup_insert_ne, ?lookup_delete_ne.
Qed.

(** A call in terms of the shard of its key. *)
Lemma memory_key {R} (op : CounterOp R) key w :
  op_key op = Some key ->
  memory R op w =
  let m := w_store w in
  let i := shardFor m key in
  ((shard_op op (w_clock w) (ms_shards m !!! i)).1,
   {| w_clock := w_clock w;
      w_store := {| ms_shards := <[i := (shard_op op (w_clock w) (ms_shards m !!! i)).2]> (ms_shards m);
                    ms_stop := ms_stop m |} |}).
Proof.
  intros Hk. unfold memory, on_shard. rewrite Hk. by destruct (shard_op _ _ _).
Qed.

Lemma memory_wf {R} (op : CounterOp R) w :
  wf_store (w_store w) -> wf_store (w_store (memory R op w).2).
Proof.
  destruct (op_key op) as [key|] eqn:Hk; [|unfold memory; by rewrite Hk].
  rewrite (memory_key op key w Hk). unfold wf_store. simpl. by rewrite length_insert.
Qed.

(** After a call, the cell of its key is what the locked operation left. *)
Lemma memory_view {R} (op : CounterOp R) key w :
  op_key op = Some key -> wf_store (w_store w) ->
  view (w_store (memory R op w).2) key =
  cell_of key (shard_op op (w_clock w) (ms_shards (w_store w) !!! shardFor (w_store w) key)).2.
Proof.
  intros Hk Hwf. rewrite (memory_key op key w Hk). unfold view. cbn [snd w_store ms_shards].
  rewrite (shardFor_length _ (w_store w)) by (simpl; by rewrite length_insert).
  by rewrite list_lookup_total_insert_eq by (by apply shardFor_lt).
Qed.

(** The cells of all other keys are left alone, whether they share the shard or not. *)
Lemma memory_view_other {R} (op : CounterOp R) key' w :
  op_key op <> Some key' -> wf_store (w_store w) ->
  view (w_store (memory R op w).2) key' = view (w_store w) key'.
Proof.
  intros Hne Hwf. destruct (op_key op) as [key|] eqn:Hk; [|unfold memory; by rewrite Hk].
  rewrite (memory_key op key w Hk). unfold view. cbn [snd w_store ms_shards].
  rewrite (shardFor_length _ (w_store w)) by (simpl; by rewrite length_insert).
  destruct (decide (shardFor (w_store w) key' = shardFor (w_store w) key)) as [->|Hi].
  - rewrite list_lookup_total_insert_eq by (by apply shardFor_lt).
    apply (shard_op_frame op _ key); [done|congruence].
  - by rewrite list_lookup_total_insert_ne.
Qed.

(** ** Sharding is unobservable *)

(** Two stores that hold the same cell for every key. *)
Definition same_store (w1 w2 : World) : Prop :=
  w_clock w1 = w_clock w2 /\ forall key, view (w_store w1) key = view (w_store w2) key.

Lemma memory_same {R} (op : CounterOp R) w1 w2 :
  wf_store (w_store w1) -> wf_store (w_store w2) -> same_store w1 w2 ->
  (memory R op w1).1 = (memory R op w2).1 /\ same_store (memory R op w1).2 (memory R op w2).2.
Proof.
  intros Hwf1 Hwf2 [Hc Hv]. destruct (op_key op) as [key|] eqn:Hk.
  - destruct (shard_op_local op (w_clock w1) key _ _ Hk (Hv key)) as [Hr Hcell].
    split; [rewrite !(memory_key op key) by done; simpl; by rewrite <- Hc|].
    split; [rewrite !(memory_key op key) by done; done|]. intros k.
    destruct (decide (k = key)) as [->|Hne].
    + rewrite !memory_view by done. by rewrite <- Hc.
    + rewrite !memory_view_other by congruence. done.
  - unfold memory. rewrite Hk, Hc. done.
Qed.

Lemma sweepShard_local now key sh1 sh2 :
  cell_of key sh1 = cell_of key sh2 ->
  cell_of key (sweepShard now sh1) = cell_of key (sweepShard now sh2).
Proof.
  intros [= E1 E2 E3 E4]. unfold cell_of. cbn [sweepShard sh_values sh_timestamps sh_tsExpiry sh_leases].
  f_equal.
  - by rewrite !map_lookup_filter, E1.
  - by rewrite !lookup_difference, !lookup_fmap, !map_lookup_filter, E2, E3.
  - by rewrite !lookup_difference, !map_lookup_filter, E3.
  - by rewrite !map_lookup_filter, E4.
Qed.

Lemma sweep_view now m key :
  wf_store m -> view (sweep now m) key = cell_of key (sweepShard now (ms_shards m !!! shardFor m key)).
Proof.
  intros Hwf. unfold view. rewrite (shardFor_length _ m) by (simpl; by rewrite length_fmap).
  cbn [sweep ms_shards]. rewrite !list_lookup_total_alt, list_lookup_fmap.
  by destruct (lookup_lt_is_Some_2 _ _ (shardFor_lt m key Hwf)) as [s ->].
Qed.

(** A run of the service: requests are served, time passes, the collector sweeps. *)
Inductive event (A : Type) :=
| Serve (p : prog A)
| Wait (d : Z)
| Sweep.
Arguments Serve {_} _.
Arguments Wait {_} _.
Arguments Sweep {_}.

Definition play1 {A} (e : event A) (w : World) : option A * World :=
  match e with
  | Serve p => let '(a, w') := run memory p w in (Some a, w')
  | Wait d => (None, {| w_clock := w_clock w + d; w_store := w_store w |})
  | Sweep => (None, {| w_clock := w_clock w; w_store := sweep (w_clock w) (w_store w) |})
  end.

Fixpoint play {A} (es : list (event A)) (w : World) : list (option A) * World :=
  match es with
  | [] => ([], w)
  | e :: es' => let '(a, w1) := play1 e w in let '(l, w2) := play es' w1 in (a :: l, w2)
  end.

Lemma run_same {A} (p : prog A) w1 w2 :
  wf_store (w_store w1) -> wf_store (w_store w2) -> same_store w1 w2 ->
  (run memory p w1).1 = (run memory p w2).1 /\
  same_store (run memory p w1).2 (run memory p w2).2 /\
  wf_store (w_store (run memory p w1).2) /\ wf_store (w_store (run memory p w2).2).
Proof.
  revert w1 w2. induction p as [a|R op k IH]; intros w1 w2 Hwf1 Hwf2 Hs; cbn [run]; [done|].
  destruct (memory_same op w1 w2 Hwf1 Hwf2 Hs) as [Hr Hs'].
  pose proof (memory_wf op w1 Hwf1). pose proof (memory_wf op w2 Hwf2).
  destruct (memory R op w1) as [r1 w1'], (memory R op w2) as [r2 w2']. simpl in *. subst.
  by apply IH.
Qed.

Lemma play1_same {A} (e : event A) w1 w2 :
  wf_store (w_store w1) -> wf_store (w_store w2) -> same_store w1 w2 ->
  (play1 e w1).1 = (play1 e w2).1 /\ same_store (play1 e w1).2 (play1 e w2).2 /\
  wf_store (w_store (play1 e w1).2) /\ wf_store (w_store (play1 e w2).2).
Proof.
  intros Hwf1 Hwf2 Hs. destruct e as [p|d|]; cbn [play1].
  - destruct (run_same p w1 w2 Hwf1 Hwf2 Hs) as (Hr & ?).
    destruct (run memory p w1), (run memory p w2). simpl in *. by subst.
  - destruct Hs as [Hc Hv]. split_and!; [done| |done..]. split; [simpl; lia|done].
  - destruct Hs as [Hc Hv]. unfold wf_store in *. cbn [fst snd w_store sweep ms_shards].
    rewrite !length_fmap. split_and!; [done| |lia..]. split; [done|]. intros key.
    cbn [w_store]. rewrite !sweep_view, Hc by done. apply sweepShard_local, Hv.
Qed.

Lemma play_same {A} (es : list (event A)) w1 w2 :
  wf_store (w_store w1) -> wf_store (w_store w2) -> same_store w1 w2 ->
  (play es w1).1 = (play es w2).1.
Proof.
  revert w1 w2. induction es as [|e es IH]; intros w1 w2 Hwf1 Hwf2 Hs; cbn [play]; [done|].
  destruct (play1_same e w1 w2 Hwf1 Hwf2 Hs) as (Hr & Hs' & Hwf1' & Hwf2').
  destruct (play1 e w1) as [a1 w1'], (play1 e w2) as [a2 w2']. simpl in *.
  specialize (IH w1' w2' Hwf1' Hwf2' Hs').
  destruct (play es w1'), (play es w2'). simpl in *. by subst.
Qed.

(** ** The store keeps the promises the algorithms rely on *)

(** The counter a read would find in a cell, with its expiry. *)
Definition live_item (now : Time) (c : cell) : valueItem :=
  let it := default zeroItem (c_value c) in if expired now it then zeroItem else it.

Definition counter_value (w : World) (key : string) : int64 :=
  vi_value (live_item (w_clock w) (view (w_store w) key)).

Definition counter_deadline (w : World) (key : string) : option Time :=
  let it := live_item (w_clock w) (view (w_store w) key) in
  if IsZero (vi_expiry it) then None else Some (vi_expiry it).

Lemma getValueLocked_spec now key sh :
  (getValueLocked now key sh).1 = live_item now (cell_of key sh) /\
  live_item now (cell_of key (getValueLocked now key sh).2) = live_item now (cell_of key sh).
Proof.
  unfold getValueLocked, live_item, cell_of. cbn [c_value].
  destruct (expired now _) eqn:E; cbn [fst snd with_values sh_values].
  - by rewrite lookup_delete_eq.
  - by rewrite E.
Qed.

Lemma zeroItem_not_expired now : expired now zeroItem = false.
Proof. done. Qed.

Lemma expired_later now now' it : now <= now' -> expired now it = true -> expired now' it = true.
Proof.
  unfold expired, After. intros Hle H. zify_bool. apply andb_true_iff.
  split; [by apply negb_true_iff|]. apply Z.ltb_lt. lia.
Qed.

(** An item that has just been given a life is found again. *)
Lemma live_item_insert now ttl it key sh v :
  expired now it = false ->
  live_item now (cell_of key (with_values <[key := {| vi_value := v; vi_expiry := touch now ttl (vi_expiry it) |}]> sh))
  = {| vi_value := v; vi_expiry := touch now ttl (vi_expiry it) |}.
Proof.
  intros He. unfold live_item, cell_of. cbn [c_value with_values sh_values].
  rewrite lookup_insert_eq. cbn [from_option id]. unfold expired, touch in *. cbn [vi_expiry].
  destruct (0 <? ttl) eqn:E.
  - zify_bool. unfold After, time_Add. rewrite (proj2 (Z.ltb_ge (now + ttl) now)) by lia.
    by rewrite andb_false_r.
  - by rewrite He.
Qed.

Lemma live_item_not_expired now c : expired now (live_item now c) = false.
Proof. unfold live_item. by destruct (expired now (default zeroItem (c_value c))) eqn:E. Qed.

(** Time and the collector leave an item alone until its deadline, and a forgotten
    item stays forgotten. *)
Lemma live_item_later now now' c :
  now <= now' ->
  (vi_expiry (live_item now c) = zeroTime \/ now' <= vi_expiry (live_item now c)) ->
  live_item now' c = live_item now c.
Proof.
  unfold live_item. destruct (expired now _) eqn:E.
  - intros Hle _. enough (expired now' (default zeroItem (c_value c)) = true) as -> by done.
    unfold expired, After in *. zify_bool. apply andb_true_iff. split; [by apply negb_true_iff|].
    apply Z.ltb_lt. lia.
  - intros _ Hd. enough (expired now' (default zeroItem (c_value c)) = false) as -> by done.
    unfold expired, After, IsZero. apply andb_false_iff.
    destruct Hd as [->|Hd]; [by left|right; apply Z.ltb_ge; lia].
Qed.

Lemma live_item_sweep now t key sh :
  t <= now -> live_item now (cell_of key (sweepShard t sh)) = live_item now (cell_of key sh).
Proof.
  intros Ht. unfold live_item, cell_of. cbn [c_value sweepShard sh_values].
  rewrite map_lookup_filter. destruct (sh_values sh !! key) as [it|]; [|done]. simpl.
  destruct (expired t it) eqn:E.
  - rewrite option_guard_False by congruence. simpl.
    enough (expired now it = true) as -> by done.
    unfold expired, After in *. zify_bool. apply andb_true_iff. split; [by apply negb_true_iff|].
    apply Z.ltb_lt. lia.
  - by rewrite option_guard_True by done.
Qed.

Lemma alter_view now m i key :
  wf_store m ->
  let m' := {| ms_shards := alter (sweepShard now) i (ms_shards m); ms_stop := ms_stop m |} in
  view m' key = view m key \/
  view m' key = cell_of key (sweepShard now (ms_shards m !!! shardFor m key)).
Proof.
  intros Hwf m'. unfold view. rewrite (shardFor_length m' m) by (simpl; by rewrite length_alter).
  unfold m'. cbn [ms_shards]. rewrite !list_lookup_total_alt.
  destruct (decide (i = shardFor m key)) as [->|Hne].
  - right. rewrite list_lookup_alter_eq.
    by destruct (lookup_lt_is_Some_2 _ _ (shardFor_lt m key Hwf)) as [s ->].
  - left. by rewrite list_lookup_alter_ne.
Qed.

Lemma memory_clock {R} (op : CounterOp R) w : w_clock (memory R op w).2 = w_clock w.
Proof.
  destruct (op_key op) as [key|] eqn:Hk; [by rewrite (memory_key op key w Hk)|].
  unfold memory. by rewrite Hk.
Qed.

Lemma memory_Get w key :
  wf_store (w_store w) ->
  (memory _ (Get key) w).1 = Ok (counter_value w key) /\
  live_item (w_clock w) (view (w_store (memory _ (Get key) w).2) key)
  = live_item (w_clock w) (view (w_store w) key).
Proof.
  intros Hwf. rewrite (memory_view (Get key) key w eq_refl Hwf).
  rewrite (memory_key (Get key) key w eq_refl). cbn [shard_op fst]. unfold mem_Get, counter_value.
  destruct (getValueLocked_spec (w_clock w) key (ms_shards (w_store w) !!! shardFor (w_store w) key)) as [E1 E2].
  destruct (getValueLocked _ _ _) as [it sh]. simpl in *. by subst.
Qed.

(** A swap succeeds exactly on the expected value, and then gives the new value
    the life asked for. *)
Lemma memory_CompareAndSwap w key oldVal newVal ttl :
  wf_store (w_store w) ->
  let '(r, w') := memory _ (CompareAndSwap key oldVal newVal ttl) w in
  let it := live_item (w_clock w) (view (w_store w) key) in
  r = Ok (vi_value it =? oldVal) /\
  live_item (w_clock w) (view (w_store w') key) =
    if vi_value it =? oldVal then {| vi_value := newVal; vi_expiry := touch (w_clock w) ttl (vi_expiry it) |}
    else it.
Proof.
  intros Hwf. pose proof (memory_view (CompareAndSwap key oldVal newVal ttl) key w eq_refl Hwf) as Hv.
  pose proof (memory_key (CompareAndSwap key oldVal newVal ttl) key w eq_refl) as Hr.
  destruct (memory _ _ w) as [r w']. injection Hr as -> _. cbn [snd] in Hv. rewrite Hv. clear Hv.
  unfold view. cbn [shard_op]. unfold mem_CompareAndSwap.
  set (sh := ms_shards (w_store w) !!! shardFor (w_store w) key).
  pose proof (live_item_not_expired (w_clock w) (cell_of key sh)) as He.
  destruct (getValueLocked_spec (w_clock w) key sh) as [E1 E2].
  destruct (getValueLocked _ _ _) as [it sh']. cbn [fst snd] in *. subst it.
  destruct (vi_value _ =? oldVal); cbn [negb fst snd]; [|done].
  split; [done|]. by apply live_item_insert.
Qed.

Lemma counter_deadline_alive w key t :
  alive_until (counter_deadline w key) t <->
  vi_expiry (live_item (w_clock w) (view (w_store w) key)) = zeroTime \/
  t <= vi_expiry (live_item (w_clock w) (view (w_store w) key)).
Proof.
  unfold counter_deadline, IsZero. destruct (_ =? zeroTime) eqn:E; zify_bool; simpl; [tauto|].
  split; [auto|]. intros [?|?]; [congruence|done].
Qed.

(** The environment never changes what a live counter holds. *)
Lemma env_step_live w w' key :
  wf_store (w_store w) -> env_step w w' -> alive_until (counter_deadline w key) (w_clock w') ->
  live_item (w_clock w') (view (w_store w') key) = live_item (w_clock w) (view (w_store w) key).
Proof.
  intros Hwf He Ha. apply counter_deadline_alive in Ha.
  destruct He as [w t Ht|w i now Hnow]; cbn [w_clock w_store] in *.
  - by apply live_item_later.
  - destruct (alter_view now (w_store w) i key Hwf) as [->| ->]; [done|]. by apply live_item_sweep.
Qed.

Lemma env_step_wf w w' : env_step w w' -> wf_store (w_store w) -> wf_store (w_store w').
Proof. intros [? t _|? i now _]; unfold wf_store; simpl; by rewrite ?length_alter. Qed.

Lemma memory_frame R (op : CounterOp R) w k :
  wf_store (w_store w) -> op_key op <> Some k ->
  counter_value (memory R op w).2 k = counter_value w k /\
  counter_deadline (memory R op w).2 k = counter_deadline w k.
Proof.
  intros Hwf Hk. unfold counter_value, counter_deadline. by rewrite memory_clock, memory_view_other.
Qed.

Lemma memory_get_law w k :
  wf_store (w_store w) ->
  ((memory _ (Get k) w).1 = Ok (counter_value w k) \/ exists e, (memory _ (Get k) w).1 = Err e) /\
  counter_value (memory _ (Get k) w).2 k = counter_value w k /\
  counter_deadline (memory _ (Get k) w).2 k = counter_deadline w k.
Proof.
  intros Hwf. destruct (memory_Get w k Hwf) as [Hr Hl]. split; [by left|].
  unfold counter_value, counter_deadline. by rewrite memory_clock, Hl.
Qed.

Lemma memory_cas_law w k oldVal newVal ttl :
  wf_store (w_store w) -> 0 <= oldVal <= maxInt64 ->
  let '(r, w') := memory _ (CompareAndSwap k oldVal newVal ttl) w in
  let unchanged := counter_value w' k = counter_value w k /\ counter_deadline w' k = counter_deadline w k in
  let swapped := counter_value w k = oldVal /\ counter_value w' k = newVal /\
                 (0 < ttl <= maxInt64 -> alive_until (counter_deadline w' k) (w_clock w + ttl - 0)) in
  match r with Ok true => swapped | Ok false | Err _ => unchanged \/ swapped end.
Proof.
  intros Hwf _. pose proof (memory_CompareAndSwap w k oldVal newVal ttl Hwf) as Hcas.
  pose proof (memory_clock (CompareAndSwap k oldVal newVal ttl) w) as Hc.
  destruct (memory _ _ w) as [r w']. cbn [snd] in Hc. destruct Hcas as [-> Hl].
  unfold counter_value. rewrite Hc, Hl. cbv zeta.
  destruct (_ =? oldVal) eqn:E; zify_bool; [|left; unfold counter_deadline; by rewrite Hc, Hl].
  split_and!; [done..|]. intros [Httl _]. rewrite Z.sub_0_r. apply counter_deadline_alive. rewrite Hc, Hl.
  right. cbn [vi_expiry]. unfold touch, time_Add. by rewrite (proj2 (Z.ltb_lt 0 ttl) Httl).
Qed.

Lemma env_step_clock w w' : env_step w w' -> w_clock w <= w_clock w'.
Proof. by intros [? t Ht|? i now _]. Qed.

Lemma env_step_counter w w' k :
  wf_store (w_store w) -> env_step w w' -> alive_until (counter_deadline w k) (w_clock w') ->
  counter_value w' k = counter_value w k /\ counter_deadline w' k = counter_deadline w k.
Proof.
  intros Hwf He Ha. unfold counter_value, counter_deadline. by rewrite (env_step_live w w' k Hwf He Ha).
Qed.

(** The memory store answers no read and no swap of a counter with an error. *)
Lemma memory_never_fails : never_fails memory.
Proof.
  intros R op w. destruct op; try done; unfold memory; cbn [op_key]; unfold on_shard, shard_op, mem_Get, mem_CompareAndSwap.
  - by destruct (getValueLocked _ _ _).
  - destruct (getValueLocked _ _ _). by case_step.
Qed.

#[export] Instance memory_laws : StoreLaws memory env_step := {|
  sl_wf w := wf_store (w_store w);
  sl_wf_op R op w := memory_wf op w;
  sl_wf_env := env_step_wf;
  sl_clock := w_clock;
  sl_value := counter_value;
  sl_deadline := counter_deadline;
  sl_now w := eq_refl;
  sl_op_clock R op w := memory_clock op w;
  sl_frame := memory_frame;
  sl_get := memory_get_law;
  sl_cap := maxInt64;
  sl_slack := 0;
  sl_cas := memory_cas_law;
  sl_env_clock := env_step_clock;
  sl_env := env_step_counter
|}.

#[export] Instance memory_forget : ForgetLaws memory env_step.
Proof.
  constructor. intros w w' k Hwf He. cbn [sl_value memory_laws]. unfold counter_value.
  destruct He as [w t Ht|w i now Hnow]; cbn [w_clock w_store].
  - unfold live_item. destruct (expired t _) eqn:E; [by right|]. left.
    destruct (expired (w_clock w) _) eqn:E'; [|done]. by rewrite (expired_later _ _ _ Ht E') in E.
  - left. destruct (alter_view now (w_store w) i k Hwf) as [->| ->]; [done|]. by rewrite live_item_sweep.
Qed.

(** C21 (kind: equivalence).  Sharding is unobservable: whatever requests are served, however time passes and
    whenever the collector runs, stores with different numbers of shards give the
    same answers. *)
Theorem sharding_transparent {A} (n1 n2 : Z) (t0 : Time) (es : list (event A)) :
  n1 < two32 -> n2 < two32 ->
  (play es {| w_clock := t0; w_store := NewSharded n1 |}).1
  = (play es {| w_clock := t0; w_store := NewSharded n2 |}).1.
Proof.
  intros H1 H2. apply play_same; [by apply NewSharded_wf..|].
  split; [done|]. intros key. cbn [w_store]. by rewrite !NewSharded_view.
Qed.

(** ** The collector is unobservable on counters and leases *)

(** What a lease read would find in a cell. *)
Definition live_lease (now : Time) (c : cell) : valueItem :=
  let it := default zeroItem (c_lease c) in if expired now it then zeroItem else it.

Definition counter_op {R} (op : CounterOp R) : bool :=
  match op with
  | TimeNow | Increment _ _ _ | Get _ | SetVal _ _ _ | CompareAndSwap _ _ _ _ | Delete _
  | AcquireLease _ _ _ | ReleaseLease _ => true
  | _ => false
  end.

(** A program that keeps counters and leases, and no log of timestamps. *)
Fixpoint counters_only {A} (p : prog A) : Prop :=
  match p with
  | Ret _ => True
  | Call op k => counter_op op = true /\ forall r, counters_only (k r)
  end.

(** Cells that counter and lease operations cannot tell apart at [now]. *)
Definition alike (now : Time) (c1 c2 : cell) : Prop :=
  live_item now c1 = live_item now c2 /\ live_lease now c1 = live_lease now c2.

#[export] Instance alike_equivalence now : Equivalence (alike now).
Proof.
  unfold alike. split; [done | by intros ? ? [-> ->] | by intros ? ? ? [-> ->] [-> ->]].
Qed.

Lemma getLeaseLocked_spec now key sh :
  (getLeaseLocked now key sh).1 = live_lease now (cell_of key sh) /\
  alike now (cell_of key (getLeaseLocked now key sh).2) (cell_of key sh).
Proof.
  unfold getLeaseLocked, alike, live_lease, live_item, cell_of. cbn [c_lease c_value].
  destruct (expired now (default zeroItem (sh_leases sh !! key))) eqn:E; cbn [fst snd with_leases sh_values sh_leases].
  - by rewrite lookup_delete_eq.
  - by rewrite E.
Qed.

Lemma getValueLocked_alike now key sh :
  alike now (cell_of key (getValueLocked now key sh).2) (cell_of key sh).
Proof.
  split; [by apply getValueLocked_spec|]. unfold getValueLocked. by destruct (expired _ _).
Qed.

(** Writing the same item into the counter or the lease of alike cells. *)
Lemma with_values_alike now key it sh1 sh2 :
  alike now (cell_of key sh1) (cell_of key sh2) ->
  alike now (cell_of key (with_values <[key := it]> sh1)) (cell_of key (with_values <[key := it]> sh2)).
Proof.
  intros [_ H]. split; [|done]. unfold live_item, cell_of. simpl. by rewrite !lookup_insert_eq.
Qed.

Lemma with_leases_alike now key it sh1 sh2 :
  alike now (cell_of key sh1) (cell_of key sh2) ->
  alike now (cell_of key (with_leases <[key := it]> sh1)) (cell_of key (with_leases <[key := it]> sh2)).
Proof.
  intros [H _]. split; [done|]. unfold live_lease, cell_of. simpl. by rewrite !lookup_insert_eq.
Qed.

#[local] Hint Resolve with_values_alike with_leases_alike : rlaas.

Lemma getValueLocked_both now key sh1 sh2 :
  alike now (cell_of key sh1) (cell_of key sh2) ->
  (getValueLocked now key sh1).1 = (getValueLocked now key sh2).1 /\
  alike now (cell_of key (getValueLocked now key sh1).2) (cell_of key (getValueLocked now key sh2).2).
Proof.
  intros H. split; [|by rewrite !getValueLocked_alike]. destruct H as [H _].
  destruct (getValueLocked_spec now key sh1) as [-> _], (getValueLocked_spec now key sh2) as [-> _]. done.
Qed.

Lemma getLeaseLocked_both now key sh1 sh2 :
  alike now (cell_of key sh1) (cell_of key sh2) ->
  (getLeaseLocked now key sh1).1 = (getLeaseLocked now key sh2).1 /\
  alike now (cell_of key (getLeaseLocked now key sh1).2) (cell_of key (getLeaseLocked now key sh2).2).
Proof.
  intros [H1 H2].
  destruct (getLeaseLocked_spec now key sh1) as [-> E1], (getLeaseLocked_spec now key sh2) as [-> E2].
  split; [done|]. by rewrite E1, E2.
Qed.

Lemma shard_op_alike {R} (op : CounterOp R) now key sh1 sh2 :
  op_key op = Some key -> counter_op op = true -> alike now (cell_of key sh1) (cell_of key sh2) ->
  (shard_op op now sh1).1 = (shard_op op now sh2).1 /\
  alike now (cell_of key (shard_op op now sh1).2) (cell_of key (shard_op op now sh2).2).
Proof.
  intros Hk Ho H. destruct (getValueLocked_both now key sh1 sh2 H) as [Ev Hv].
  destruct (getLeaseLocked_both now key sh1 sh2 H) as [El Hl].
  destruct op; simplify_eq/=;
    unfold mem_Increment, mem_Get, mem_Set, mem_CompareAndSwap, mem_AcquireLease, mem_ReleaseLease;
    destruct (getValueLocked now key sh1), (getValueLocked now key sh2),
      (getLeaseLocked now key sh1), (getLeaseLocked now key sh2); simpl in *; subst;
    repeat case_step; simpl; auto with rlaas.
  split; [done|]. unfold alike, live_item, live_lease, cell_of. simpl. by rewrite !lookup_delete_eq.
Qed.

(** What is found later is determined by what is found now. *)
Lemma alike_later now now' c1 c2 : now <= now' -> alike now c1 c2 -> alike now' c1 c2.
Proof.
  intros Hle [H1 H2].
  assert (Hstep : forall it, (if expired now' it then zeroItem else it) =
    let it0 := if expired now it then zeroItem else it in if expired now' it0 then zeroItem else it0).
  { intros it. destruct (expired now it) eqn:E; [|done]. by rewrite (expired_later now now' it). }
  unfold alike, live_item, live_lease in *. cbn zeta in *.
  split; [rewrite Hstep, H1, <- Hstep | rewrite Hstep, H2, <- Hstep]; done.
Qed.

(** Sweeping with an instant that has passed. *)
Lemma sweepShard_alike now t key sh :
  t <= now -> alike now (cell_of key (sweepShard t sh)) (cell_of key sh).
Proof.
  intros Ht. split; [by apply live_item_sweep|].
  unfold live_lease, cell_of. cbn [c_lease sweepShard sh_leases].
  rewrite map_lookup_filter. destruct (sh_leases sh !! key) as [it|]; [|done]. simpl.
  destruct (expired t it) eqn:E.
  - rewrite option_guard_False by congruence. simpl. by rewrite (expired_later t now it).
  - by rewrite option_guard_True.
Qed.

Definition alike_world (w1 w2 : World) : Prop :=
  w_clock w1 = w_clock w2 /\ forall key, alike (w_clock w1) (view (w_store w1) key) (view (w_store w2) key).

Lemma memory_alike {R} (op : CounterOp R) w1 w2 :
  counter_op op = true -> wf_store (w_store w1) -> wf_store (w_store w2) -> alike_world w1 w2 ->
  (memory R op w1).1 = (memory R op w2).1 /\ alike_world (memory R op w1).2 (memory R op w2).2.
Proof.
  intros Ho Hwf1 Hwf2 [Hc Hv]. destruct (op_key op) as [key|] eqn:Hk.
  - destruct (shard_op_alike op (w_clock w1) key _ _ Hk Ho (Hv key)) as [Hr Hcell].
    split; [rewrite !(memory_key op key) by done; simpl; by rewrite <- Hc|].
    split; [by rewrite !memory_clock|]. intros k. rewrite memory_clock.
    destruct (decide (k = key)) as [->|Hne].
    + rewrite !memory_view by done. by rewrite <- Hc.
    + rewrite !memory_view_other by congruence. done.
  - unfold memory. rewrite Hk, Hc. done.
Qed.

Lemma run_alike {A} (p : prog A) w1 w2 :
  counters_only p -> wf_store (w_store w1) -> wf_store (w_store w2) -> alike_world w1 w2 ->
  (run memory p w1).1 = (run memory p w2).1 /\
  alike_world (run memory p w1).2 (run memory p w2).2 /\
  wf_store (w_store (run memory p w1).2) /\ wf_store (w_store (run memory p w2).2).
Proof.
  revert w1 w2. induction p as [a|R op k IH]; intros w1 w2 Hp Hwf1 Hwf2 Hs; cbn [run]; [done|].
  destruct Hp as [Ho Hp]. destruct (memory_alike op w1 w2 Ho Hwf1 Hwf2 Hs) as [Hr Hs'].
  pose proof (memory_wf op w1 Hwf1). pose proof (memory_wf op w2 Hwf2).
  destruct (memory R op w1) as [r1 w1'], (memory R op w2) as [r2 w2']. simpl in *. subst.
  by apply IH.
Qed.

(** An event that the theorem below is about: only counters and leases, and time
    that does not go back. *)
Definition counters_event {A} (e : event A) : Prop :=
  match e with Serve p => counters_only p | Wait d => 0 <= d | Sweep => True end.

(** The same event without the collector. *)
Definition no_gc {A} (e : event A) : event A := match e with Sweep => Wait 0 | _ => e end.

Lemma play1_alike {A} (e : event A) w1 w2 :
  counters_event e -> wf_store (w_store w1) -> wf_store (w_store w2) -> alike_world w1 w2 ->
  (play1 e w1).1 = (play1 (no_gc e) w2).1 /\ alike_world (play1 e w1).2 (play1 (no_gc e) w2).2 /\
  wf_store (w_store (play1 e w1).2) /\ wf_store (w_store (play1 (no_gc e) w2).2).
Proof.
  intros He Hwf1 Hwf2 Hs. destruct e as [p|d|]; cbn [play1 no_gc counters_event] in *.
  - destruct (run_alike p w1 w2 He Hwf1 Hwf2 Hs) as (Hr & ?).
    destruct (run memory p w1), (run memory p w2). simpl in *. by subst.
  - destruct Hs as [Hc Hv]. split_and!; [done| |done..]. split; [simpl; lia|].
    intros key. simpl. eapply alike_later; [|apply Hv]. lia.
  - destruct Hs as [Hc Hv]. split_and!; [done| | |done].
    + split; [simpl; lia|]. intros key. cbn [w_store w_clock snd]. rewrite sweep_view by done.
      rewrite (sweepShard_alike _ _ key) by lia. apply Hv.
    + unfold wf_store. simpl. by rewrite length_fmap.
Qed.

Lemma play_alike {A} (es : list (event A)) w1 w2 :
  Forall counters_event es -> wf_store (w_store w1) -> wf_store (w_store w2) -> alike_world w1 w2 ->
  (play es w1).1 = (play (no_gc <$> es) w2).1.
Proof.
  intros Hes. revert w1 w2.
  induction Hes as [|e es He _ IH]; intros w1 w2 Hwf1 Hwf2 Hs; rewrite ?fmap_cons; cbn [play]; [done|].
  destruct (play1_alike e w1 w2 He Hwf1 Hwf2 Hs) as (Hr & Hs' & Hwf1' & Hwf2').
  destruct (play1 e w1) as [a1 w1'], (play1 (no_gc e) w2) as [a2 w2']. simpl in *.
  specialize (IH w1' w2' Hwf1' Hwf2' Hs').
  destruct (play es w1'), (play (no_gc <$> es) w2'). simpl in *. by subst.
Qed.

(** The collector is unobservable: as long as programs keep counters and leases and
    time does not go back, leaving out every sweep changes no answer. *)
Theorem sweep_transparent {A} (es : list (event A)) (w : World) :
  wf_store (w_store w) -> Forall counters_event es ->
  (play es w).1 = (play (no_gc <$> es) w).1.
Proof. intros Hwf Hes. by apply play_alike. Qed.

(** ** Examples *)

Definition demo_events : list (event (result int64)) :=
  [Serve (call (Increment "a" 2 Second)); Serve (call (Increment "b" 3 (5 * Second)));
   Wait (2 * Second); Sweep; Serve (call (Increment "a" 1 Second)); Serve (call (Get "b"))].

Lemma sharding_transparent_witness :
  (play demo_events {| w_clock := 0; w_store := NewSharded 3 |}).1
  = (play demo_events {| w_clock := 0; w_store := NewSharded 1 |}).1 /\
  (play demo_events {| w_clock := 0; w_store := NewSharded 1 |}).1
  = [Some (Ok 2); Some (Ok 3); None; None; Some (Ok 1); Some (Ok 3)].
Proof. split; [apply (sharding_transparent 3 1 0 demo_events); done | vm_compute; reflexivity]. Defined.

Lemma sweep_transparent_witness :
  let w := {| w_clock := 0; w_store := NewSharded 2 |} in
  (play demo_events w).1 = (play (no_gc <$> demo_events) w).1.
Proof.
  apply (sweep_transparent demo_events); [done|]. repeat constructor; done.
Defined.
