(* ===== verification/CasLimit.v ===== *)
(** * Admission by compare-and-swap

    The fixed window and the quota limiter run the same loop on the counter of the
    current window: read it, give up if the cost does not fit, swap it for the sum,
    and start again if another client changed it meanwhile. *)

From S2P Require Import Prelude GoString GoFloat GoTime Model Store Protocol Common MemoryStore.
Local Open Scope Z_scope.
Local Open Scope stdpp_scope.
Local Open Scope go_scope.

(** [exceeded] and [contention] build the decisions of the two ways to give up,
    [admitted] the decision for what remains after the swap. *)
Fixpoint cas_loop (attempts : nat) (wk : string) (limit cost : int64) (window : Duration)
    (exceeded contention : prog Decision) (admitted : int64 -> Decision) : prog (result Decision) :=
  match attempts with
  | O => d ← contention; mret (Ok d)
  | S n =>
      let! curCount := call (Get wk) in
      if limit <? curCount +! cost then d ← exceeded; mret (Ok d)
      else
        let! swapped := call (CompareAndSwap wk curCount (curCount +! cost) window) in
        if (swapped : bool) then mret (Ok (admitted (limit -! (curCount +! cost))))
        else cas_loop n wk limit cost window exceeded contention admitted
  end.

(** ** Many clients *)

Section Obedience.
Context (key : string) (limit start life : Z).

(** Answering with a function of a client's answer. *)
Lemma obeys_ret {A B} (claims : B -> Z) (g : A -> B) lb spent (p : prog A) :
  obeys key limit start life (fun a => claims (g a)) lb spent p ->
  obeys key limit start life claims lb spent (p ≫= fun a => mret (g a)).
Proof.
  unfold mbind, prog_mbind. revert lb spent. induction p as [a|R op k IH]; intros lb spent; [done|].
  destruct op; cbn [prog_bind obeys]; try (intros [H1 H2]; split; [done|]; intros; apply IH; auto; fail).
  - intros H t Ht. apply IH. auto.
  - intros [H1 H2]. split; intros; apply IH; auto.
  - intros (H1 & H2 & H3 & H4). split_and!; [done|apply IH; auto..|intros; apply IH; auto].
Qed.

(** Claiming less. *)
Lemma obeys_claims {A} (claims claims' : A -> Z) lb spent (p : prog A) :
  (forall a, claims' a <= claims a) ->
  obeys key limit start life claims lb spent p -> obeys key limit start life claims' lb spent p.
Proof.
  intros Hle. revert lb spent. induction p as [a|R op k IH]; intros lb spent.
  { cbn [obeys]. specialize (Hle a). lia. }
  destruct op; cbn [obeys]; try (intros [H1 H2]; split; [done|]; intros; apply IH; auto; fail).
  - intros H t Ht. apply IH. auto.
  - intros [H1 H2]. split; intros; apply IH; auto.
  - intros (H1 & H2 & H3 & H4). split_and!; [done|apply IH; auto..|intros; apply IH; auto].
Qed.

(** An over-limit decision claims nothing. *)
Lemma obeys_over (claims : result Decision -> Z) lb spent policy retry rem reason :
  (forall t, claims (Ok (overLimit t policy retry rem reason)) <= spent) ->
  obeys key limit start life claims lb spent
    (d ← OverLimitDecision policy retry rem reason; mret (Ok d)).
Proof. intros H t _. apply H. Qed.

(** The loop is obedient: it charges the counter at most once, with the cost,
    within the limit, and only an admission claims the cost. *)
Lemma obeys_cas_loop n (claims : result Decision -> Z) lb wk cost window exceeded contention admitted :
  (wk = key -> start <= lb /\ life <= window <= maxInt64) ->
  0 < cost -> limit + cost <= maxInt64 ->
  (forall rem, claims (Ok (admitted rem)) <= if decide (wk = key) then cost else 0) ->
  (forall e spent, 0 <= spent -> claims (Err e) <= spent) ->
  (forall lb, obeys key limit start life claims lb 0 (d ← exceeded; mret (Ok d))) ->
  (forall lb, obeys key limit start life claims lb 0 (d ← contention; mret (Ok d))) ->
  obeys key limit start life claims lb 0 (cas_loop n wk limit cost window exceeded contention admitted).
Proof.
  intros Hwin Hcost Hover Hadm Herr Hex Hcont. induction n as [|n IH]; [apply Hcont|].
  cbn [cas_loop]. unfold try_bind, call, mbind, prog_mbind in *. cbn [prog_bind obeys] in *.
  split; [|intros e; by apply Herr]. intros v Hv.
  destruct (limit <? v +! cost) eqn:E; [apply Hex|]. zify_bool. cbn [prog_bind obeys].
  assert (Hsum : wk = key -> v +! cost = v + cost).
  { intros Hk. specialize (Hv Hk). by unwrap. }
  split_and!.
  - intros Hk. specialize (Hv Hk). rewrite (Hsum Hk) in *. specialize (Hwin Hk). lia.
  - change (claims (Ok (admitted (limit -! (v +! cost)))) <=
      (if decide (wk = key) then 0 + (v +! cost - v) else 0)).
    specialize (Hadm (limit -! (v +! cost))). case_decide; [|lia].
    pose proof (Hsum ltac:(done)). lia.
  - apply IH.
  - intros e. by apply Herr.
Qed.
End Obedience.

(** What an answer lets through in the window that ends at [windowEnd]: the cost of
    every request that is allowed, for whatever reason, unless the decision names the
    end of another window. *)
Definition granted (windowEnd : Time) (a : int64 * result Decision) : Z :=
  match a with
  | (cost, Ok d) =>
      if dec_Allowed d && ((dec_ResetAt d =? windowEnd) || IsZero (dec_ResetAt d)) then cost else 0
  | (_, Err _) => 0
  end.

(** Over the limit nothing is let through. *)
Lemma granted_over windowEnd cost t policy retry rem reason :
  blocking (pol_Action policy) = true -> granted windowEnd (cost, Ok (overLimit t policy retry rem reason)) = 0.
Proof. intros H. cbn [granted]. by rewrite overLimit_blocks. Qed.

(** An admission counts in the window it names. *)
Lemma granted_allowed windowEnd cost reason rem e :
  zeroTime < e -> granted windowEnd (cost, Ok (allowed reason rem e)) = if e =? windowEnd then cost else 0.
Proof.
  intros He. cbn [granted allowed dec_Allowed dec_ResetAt andb]. unfold IsZero.
  by rewrite (proj2 (Z.eqb_neq e zeroTime)), orb_false_r by lia.
Qed.

(** Windows whose starts print alike are the same, or [2^64] ns apart. *)
Lemma UnixNano_le t s :
  minInt64 <= t -> s <= maxInt64 -> FormatInt (UnixNano t) = FormatInt (UnixNano s) -> s <= t.
Proof.
  intros Ht Hs H. apply FormatInt_inj in H. unfold UnixNano in H. apply wrap64_eq in H as [k H].
  unfold minInt64, maxInt64, two64 in *. lia.
Qed.

(** The loop on the counter of the window of the instant [t] obeys the protocol of
    the window of any instant [t0]. *)
Lemma obeys_window_loop (mkKey : Time -> string) n limit cost cfg loc policy r0 r1 r2 t0 t :
  (forall t s, mkKey t = mkKey s -> FormatInt (UnixNano t) = FormatInt (UnixNano s)) ->
  blocking (pol_Action policy) = true ->
  let start := WindowStart t0 loc cfg in
  cfg_Window cfg <> "month" -> 0 < WindowDuration cfg -> 0 <= t -> start <= maxInt64 ->
  0 < cost -> limit + cost <= maxInt64 ->
  obeys (mkKey start) limit start (WindowDuration cfg) (fun r => granted (WindowEnd t0 loc cfg) (cost, r)) t 0
    (cas_loop n (mkKey (WindowStart t loc cfg)) limit cost (WindowDuration cfg)
       (OverLimitDecision policy (time_Sub (WindowEnd t loc cfg) t) 0 r1)
       (OverLimitDecision policy (time_Sub (WindowEnd t loc cfg) t) 0 r2)
       (fun remaining => allowed r0 remaining (WindowEnd t loc cfg))).
Proof.
  intros Hkey Hb start Hm Hd Ht Hs Hcost Hmax.
  destruct (window_bounds t loc cfg (or_intror (or_intror Hd))) as [Hw _].
  rewrite WindowEnd_duration in Hw by done. pose proof (WindowDuration_range cfg) as [_ Hr].
  apply obeys_cas_loop; try done.
  - intros E. apply Hkey, UnixNano_le in E; [lia| |done]. unfold minInt64, maxInt64 in *. lia.
  - intros rem. rewrite granted_allowed by (rewrite WindowEnd_duration by done; unfold zeroTime; lia).
    destruct (_ =? WindowEnd t0 loc cfg) eqn:E; [|case_decide; lia]. zify_bool.
    rewrite decide_True; [lia|]. rewrite !WindowEnd_duration in E by done.
    apply (f_equal mkKey). unfold start. lia.
  - intros lb. apply obeys_over. intros t1. by rewrite granted_over.
  - intros lb. apply obeys_over. intros t1. by rewrite granted_over.
Qed.

(** ** A client alone on the memory store *)

(** What a caller sees of one counter: its value, and that the rest is as before. *)
Definition charged (w w' : World) (wk : string) (v : Z) : Prop :=
  wf_store (w_store w') /\ w_clock w' = w_clock w /\ counter_value w' wk = v /\
  forall k, k <> wk -> view (w_store w') k = view (w_store w) k.

Lemma run_Get {A} (f : result int64 -> prog A) wk w :
  wf_store (w_store w) ->
  exists w', run memory (Call (Get wk) f) w = run memory (f (Ok (counter_value w wk))) w' /\
             charged w w' wk (counter_value w wk).
Proof.
  intros Hwf. destruct (memory_Get w wk Hwf) as [Hr Hl].
  pose proof (memory_wf (Get wk) w Hwf) as Hwf'. pose proof (memory_clock (Get wk) w) as Hc.
  pose proof (fun k Hk => memory_view_other (Get wk) k w Hk Hwf) as Ho.
  cbn [run]. destruct (memory _ (Get wk) w) as [r w']. simpl in *. subst r.
  exists w'. split; [done|]. split_and!; [done..| |].
  - unfold counter_value. by rewrite Hc, Hl.
  - intros k Hk. apply Ho. congruence.
Qed.

Lemma run_CAS {A} (f : result bool -> prog A) wk v v' ttl w :
  wf_store (w_store w) -> counter_value w wk = v ->
  exists w', run memory (Call (CompareAndSwap wk v v' ttl) f) w = run memory (f (Ok true)) w' /\
             charged w w' wk v'.
Proof.
  intros Hwf Hv. pose proof (memory_CompareAndSwap w wk v v' ttl Hwf) as Hcas.
  pose proof (memory_wf (CompareAndSwap wk v v' ttl) w Hwf) as Hwf'.
  pose proof (memory_clock (CompareAndSwap wk v v' ttl) w) as Hc.
  pose proof (fun k Hk => memory_view_other (CompareAndSwap wk v v' ttl) k w Hk Hwf) as Ho.
  cbn [run]. destruct (memory _ _ w) as [r w']. simpl in *. destruct Hcas as [-> Hl].
  unfold counter_value in Hv. rewrite Hv, Z.eqb_refl in *. exists w'. split; [done|].
  split_and!; [done..| |].
  - unfold counter_value. by rewrite Hc, Hl.
  - intros k Hk. apply Ho. congruence.
Qed.

Lemma charged_trans w1 w2 w3 wk v2 v3 :
  charged w1 w2 wk v2 -> charged w2 w3 wk v3 -> charged w1 w3 wk v3.
Proof.
  intros (_ & Hc & _ & Ho) (Hwf & Hc' & Hv & Ho'). split_and!; [done|congruence|done|].
  intros k Hk. rewrite Ho', Ho by done. done.
Qed.

(** What the store holds under a key, as a read would find it. *)
Definition held (w : World) (key : string) : valueItem := live_item (w_clock w) (view (w_store w) key).

(** One counter has a new value, and the life asked for. *)
Definition writes (w w' : World) (wk : string) (v : Z) (ttl : Duration) : Prop :=
  wf_store (w_store w') /\ w_clock w' = w_clock w /\
  vi_value (held w' wk) = v /\ (0 < ttl -> vi_expiry (held w' wk) = w_clock w + ttl) /\
  forall k, k <> wk -> held w' k = held w k.

(** The counters are as they were. *)
Definition unchanged (w w' : World) : Prop :=
  wf_store (w_store w') /\ w_clock w' = w_clock w /\ forall k, held w' k = held w k.

Lemma unchanged_value w w' k : unchanged w w' -> counter_value w' k = counter_value w k.
Proof. intros (_ & _ & H). exact (f_equal vi_value (H k)). Qed.

Lemma writes_value w w' wk v ttl k :
  writes w w' wk v ttl -> counter_value w' k = if decide (k = wk) then v else counter_value w k.
Proof.
  intros (_ & _ & Hv & _ & Ho). case_decide as Hk; [by subst|]. exact (f_equal vi_value (Ho k Hk)).
Qed.

Lemma read_counter {A} (f : result int64 -> prog A) wk w :
  wf_store (w_store w) ->
  exists w', run memory (Call (Get wk) f) w = run memory (f (Ok (counter_value w wk))) w' /\ unchanged w w'.
Proof.
  intros Hwf. destruct (memory_Get w wk Hwf) as [Hr Hl].
  pose proof (memory_wf (Get wk) w Hwf) as Hwf'. pose proof (memory_clock (Get wk) w) as Hc.
  pose proof (fun k Hk => memory_view_other (Get wk) k w Hk Hwf) as Ho.
  cbn [run]. destruct (memory _ (Get wk) w) as [r w']. simpl in *. subst r.
  exists w'. split; [done|]. split_and!; [done..|]. intros k. unfold held. rewrite Hc.
  destruct (decide (k = wk)) as [->|Hk]; [done|]. by rewrite Ho by congruence.
Qed.

Lemma swap_counter {A} (f : result bool -> prog A) wk v v' ttl w :
  wf_store (w_store w) -> counter_value w wk = v ->
  exists w', run memory (Call (CompareAndSwap wk v v' ttl) f) w = run memory (f (Ok true)) w' /\
             writes w w' wk v' ttl.
Proof.
  intros Hwf Hv. pose proof (memory_CompareAndSwap w wk v v' ttl Hwf) as Hcas.
  pose proof (memory_wf (CompareAndSwap wk v v' ttl) w Hwf) as Hwf'.
  pose proof (memory_clock (CompareAndSwap wk v v' ttl) w) as Hc.
  pose proof (fun k Hk => memory_view_other (CompareAndSwap wk v v' ttl) k w Hk Hwf) as Ho.
  cbn [run]. destruct (memory _ _ w) as [r w']. simpl in *. destruct Hcas as [-> Hl].
  unfold counter_value in Hv. rewrite Hv, Z.eqb_refl in *. exists w'. split; [done|].
  unfold writes, held. rewrite Hc, Hl. split_and!; [done..| |].
  - intros Httl. cbn [vi_expiry]. unfold touch, time_Add. by rewrite (proj2 (Z.ltb_lt 0 ttl) Httl).
  - intros k Hk. by rewrite Ho by congruence.
Qed.

Lemma set_counter {A} (f : result unit -> prog A) wk v ttl w :
  wf_store (w_store w) ->
  exists w', run memory (Call (SetVal wk v ttl) f) w = run memory (f (Ok ())) w' /\ writes w w' wk v ttl.
Proof.
  intros Hwf. pose proof (memory_view (SetVal wk v ttl) wk w eq_refl Hwf) as Hv.
  pose proof (memory_key (SetVal wk v ttl) wk w eq_refl) as Hr.
  pose proof (memory_clock (SetVal wk v ttl) w) as Hc. pose proof (memory_wf (SetVal wk v ttl) w Hwf) as Hwf'.
  pose proof (fun k Hk => memory_view_other (SetVal wk v ttl) k w Hk Hwf) as Ho.
  cbn [run]. destruct (memory _ _ w) as [r w']. injection Hr as -> _. cbn [snd op_key] in *.
  exists w'. split; [done|]. unfold writes, held. rewrite Hc, Hv. cbn [shard_op mem_Set snd].
  change zeroTime with (vi_expiry zeroItem). rewrite live_item_insert by done. split_and!; [done..| |].
  - intros Httl. cbn [vi_expiry]. unfold touch, time_Add. by rewrite (proj2 (Z.ltb_lt 0 ttl) Httl).
  - intros k Hk. by rewrite Ho by congruence.
Qed.

Lemma unchanged_trans w1 w2 w3 : unchanged w1 w2 -> unchanged w2 w3 -> unchanged w1 w3.
Proof.
  intros (_ & Hc & Hu) (Hwf & Hc' & Hw). split_and!; [done|congruence|]. intros k. by rewrite Hw, Hu.
Qed.

Lemma unchanged_writes w1 w2 w3 wk v ttl : unchanged w1 w2 -> writes w2 w3 wk v ttl -> writes w1 w3 wk v ttl.
Proof.
  intros (_ & Hc & Hu) (Hwf & Hc' & Hv & He & Ho). split_and!; [done|congruence|done|by rewrite <- Hc|].
  intros k Hk. by rewrite Ho, Hu.
Qed.

(** Two counters written one after the other. *)
Lemma two_writes w w1 w' k1 k2 v1 v2 ttl1 ttl2 : k1 <> k2 -> writes w w1 k1 v1 ttl1 -> writes w1 w' k2 v2 ttl2 ->
  counter_value w' k1 = v1 /\ counter_value w' k2 = v2 /\
  forall k, k <> k1 -> k <> k2 -> counter_value w' k = counter_value w k.
Proof.
  intros Hne H1 H2. split_and!; [..|intros k Hk1 Hk2]; by rewrite (writes_value _ _ _ _ _ _ H2), (writes_value _ _ _ _ _ _ H1);
    repeat case_decide.
Qed.

(** Takes the next call of a program that runs alone on the memory store. *)
Ltac next_call w' Hu :=
  match goal with
  | Hwf : wf_store (w_store ?w) |- context [run memory (Call TimeNow ?f) ?w] =>
      change (run memory (Call TimeNow f) w) with (run memory (f (w_clock w)) w)
  | Hwf : wf_store (w_store ?w) |- context [run memory (Call (Get ?k) ?f) ?w] =>
      destruct (read_counter f k w Hwf) as (w' & -> & Hu)
  | Hwf : wf_store (w_store ?w), Hv : counter_value ?w ?k = ?v
      |- context [run memory (Call (CompareAndSwap ?k ?v ?v' ?t) ?f) ?w] =>
      destruct (swap_counter f k v v' t w Hwf Hv) as (w' & -> & Hu)
  | Hwf : wf_store (w_store ?w) |- context [run memory (Call (SetVal ?k ?v ?t) ?f) ?w] =>
      destruct (set_counter f k v t w Hwf) as (w' & -> & Hu)
  end; cbn [prog_bind].

(** The loop alone admits exactly when the cost fits, and then the counter holds
    the sum; otherwise the counter is as it was. *)
Lemma run_cas_loop n wk limit cost window exceeded contention admitted w :
  wf_store (w_store w) ->
  let v := counter_value w wk in
  if limit <? v +! cost
  then exists w', run memory (cas_loop (S n) wk limit cost window exceeded contention admitted) w
                  = run memory (d ← exceeded; mret (Ok d)) w' /\ charged w w' wk v
  else exists w', run memory (cas_loop (S n) wk limit cost window exceeded contention admitted) w
                  = (Ok (admitted (limit -! (v +! cost))), w') /\ charged w w' wk (v +! cost).
Proof.
  intros Hwf v. cbn [cas_loop]. unfold try_bind, call, mbind, prog_mbind. cbn [prog_bind].
  match goal with |- context [run memory (Call (Get wk) ?f) w] =>
    destruct (run_Get f wk w Hwf) as (w1 & -> & Hch1) end.
  change (counter_value w wk) with v in Hch1 |- *.
  cbn [prog_bind]. destruct (limit <? v +! cost) eqn:E; [by exists w1|]. cbn [prog_bind].
  pose proof Hch1 as (Hwf1 & _ & Hv1 & _).
  match goal with |- context [run memory (Call (CompareAndSwap _ _ _ _) ?f) w1] =>
    destruct (run_CAS f wk v (v +! cost) window w1 Hwf1 Hv1) as (w2 & -> & Hch2) end.
  exists w2. split; [done|]. by eapply charged_trans.
Qed.
