(* ===== verification/FixedWindow.v ===== *)
(** * internal/algorithm/fixedwindow *)

From S2P Require Import Prelude GoString GoFloat GoTime Model Store Protocol Common MemoryStore CasLimit.
Local Open Scope Z_scope.
Local Open Scope stdpp_scope.
Local Open Scope go_scope.

(** [fmt.Sprintf("%s:%d", key, windowStart.UnixNano())]. *)
Definition windowKey (key : string) (windowStart : Time) : string :=
  key +:+ ":" +:+ FormatInt (UnixNano windowStart).

Definition Evaluate (clk : Clock) (policy : Policy) (req : RequestContext) (key : string)
    : prog (result Decision) :=
  now ← eval_now clk;
  let cfg := pol_Algorithm policy in
  let window := WindowDuration cfg in
  let limit := effective_limit cfg in
  let windowStart := WindowStart now (clk_Loc clk) cfg in
  let windowEnd := WindowEnd now (clk_Loc clk) cfg in
  let cost := Cost req cfg in
  cas_loop (Z.to_nat (maxRetries cfg)) (windowKey key windowStart) limit cost window
    (OverLimitDecision policy (time_Sub windowEnd now) 0 "fixed_window_limit_exceeded")
    (OverLimitDecision policy (time_Sub windowEnd now) 0 "fixed_window_contention")
    (fun remaining => allowed "within_fixed_window" remaining windowEnd).

(** ** Many clients *)

(** A request with its cost, as one client. *)
Definition client (clk : Clock) (policy : Policy) (key : string) (req : RequestContext)
    : prog (int64 * result Decision) :=
  r ← Evaluate clk policy req key; mret (Cost req (pol_Algorithm policy), r).

Lemma obeys_fixed_window loc policy key t0 lb req :
  let cfg := pol_Algorithm policy in
  let start := WindowStart t0 loc cfg in
  blocking (pol_Action policy) = true ->
  cfg_Window cfg <> "month" -> 0 < WindowDuration cfg -> 0 <= lb -> start <= maxInt64 ->
  effective_limit cfg + Cost req cfg <= maxInt64 ->
  obeys (windowKey key start) (effective_limit cfg) start (WindowDuration cfg)
    (fun r => granted (WindowEnd t0 loc cfg) (Cost req cfg, r)) lb 0
    (Evaluate {| clk_Now := None; clk_Loc := loc |} policy req key).
Proof.
  intros cfg start Hb Hm Hd Hlb Hs Hcost. intros t Ht.
  apply (obeys_window_loop (windowKey key) _ _ _ cfg loc policy _ _ _ t0 t); try done; [|lia|apply Cost_pos].
  intros t1 t2 H. by apply str_app_inj_l, str_app_inj_l in H.
Qed.

(** C1 (kind: safety).  Concurrent safety of the fixed window: however the store calls of any number of
    concurrent requests are interleaved, with time passing and the store forgetting expired counters, the total
    cost of the requests that are allowed in a window does not exceed what its counter had left of the limit, on
    every store that keeps the [StoreLaws]; provided the policy's action blocks what is over the limit, the
    window is not a calendar month and has a positive length, and no cost takes the limit out of the range of an
    int64. The counter holds between zero and the limit to begin with and does not expire within the window,
    instants are between 1970 and 2262, and the requests are followed until the window ends, less the precision
    of the store. *)
Theorem fixed_window_safe {W : Type} (h : handler W) (env : W -> W -> Prop) {HL : StoreLaws h env}
    (loc : Z) (policy : Policy) (key : string) (t0 : Time) (reqs : list RequestContext)
    (w w' : W) (ps' : list (prog (int64 * result Decision))) :
  let cfg := pol_Algorithm policy in
  let limit := effective_limit cfg in
  let windowEnd := WindowEnd t0 loc cfg in
  let wk := windowKey key (WindowStart t0 loc cfg) in
  blocking (pol_Action policy) = true ->
  cfg_Window cfg <> "month" -> 0 < WindowDuration cfg -> WindowStart t0 loc cfg <= maxInt64 ->
  limit <= sl_cap -> sl_wf w -> 0 <= sl_clock w ->
  0 <= sl_value w wk <= limit -> alive_until (sl_deadline w wk) (windowEnd - sl_slack) ->
  Forall (fun req => limit + Cost req cfg <= maxInt64) reqs ->
  rtc (pool_step h env) (client {| clk_Now := None; clk_Loc := loc |} policy key <$> reqs, w) (ps', w') ->
  sl_clock w' <= windowEnd - sl_slack ->
  claimed (granted windowEnd) ps' <= limit - sl_value w wk.
Proof.
  intros cfg limit windowEnd wk Hb Hm Hd Hs Hcap Hwf Hc Hv Ha Hcost Hrtc Hend.
  unfold windowEnd in Ha, Hend. rewrite WindowEnd_duration in Ha, Hend by done.
  eapply (protocol_safe h env wk limit (WindowStart t0 loc cfg) (WindowDuration cfg));
    [done..| |exact Hrtc|done].
  rewrite Forall_fmap. eapply Forall_impl; [exact Hcost|]. intros req Hreq.
  apply obeys_ret. by apply obeys_fixed_window.
Qed.

(** ** One client at a time *)

(** A request served alone is admitted exactly when its cost fits in what is
    left of its window.  An admission charges the counter of the window and
    nothing else, and reports what then remains; a denial charges nothing and
    asks the client to wait for the end of the window. *)
Theorem fixed_window_alone (clk : Clock) (policy : Policy) (req : RequestContext) (key : string) (w : World) :
  wf_store (w_store w) ->
  let cfg := pol_Algorithm policy in
  let now := default (w_clock w) (clk_Now clk) in
  let windowEnd := WindowEnd now (clk_Loc clk) cfg in
  let wk := windowKey key (WindowStart now (clk_Loc clk) cfg) in
  let v := counter_value w wk in
  let sum := v +! Cost req cfg in
  exists w',
    run memory (Evaluate clk policy req key) w =
      (Ok (if effective_limit cfg <? sum
           then overLimit (w_clock w) policy (time_Sub windowEnd now) 0 "fixed_window_limit_exceeded"
           else allowed "within_fixed_window" (effective_limit cfg -! sum) windowEnd), w') /\
    charged w w' wk (if effective_limit cfg <? sum then v else sum).
Proof.
  intros Hwf cfg now windowEnd wk v sum. unfold Evaluate, eval_now.
  destruct (Z.to_nat (maxRetries (pol_Algorithm policy))) as [|n] eqn:En.
  { pose proof (maxRetries_pos (pol_Algorithm policy)). lia. }
  pose proof (run_cas_loop n wk (effective_limit cfg) (Cost req cfg) (WindowDuration cfg)
    (OverLimitDecision policy (time_Sub windowEnd now) 0 "fixed_window_limit_exceeded")
    (OverLimitDecision policy (time_Sub windowEnd now) 0 "fixed_window_contention")
    (fun remaining => allowed "within_fixed_window" remaining windowEnd) w Hwf) as Hrun.
  cbv zeta in Hrun. fold v in Hrun. fold sum in Hrun.
  rewrite run_bind. cbn [run call].
  destruct (effective_limit cfg <? sum); destruct Hrun as (w' & Hrun & Hch); exists w'; split; [|done| |done].
  - etransitivity; [exact Hrun|]. destruct Hch as (_ & Hc & _). cbn. by rewrite Hc.
  - exact Hrun.
Qed.

(** ** Examples *)

Definition demo_policy (limit : int64) (window : string) : Policy :=
  mkPolicy "p" zeroScope (mkConfig AlgoFixedWindow limit window) ActionDeny.
Definition demo_world : World := {| w_clock := 1000; w_store := NewSharded 1 |}.
Definition demo_clock : Clock := {| clk_Now := None; clk_Loc := 0 |}.

Definition demo_requests : list RequestContext := [mkRequest 2; mkRequest 2; mkRequest 1].

(** Three requests of cost 2, 2 and 1 against a limit of 3: the first and the last
    are admitted. *)
Lemma fixed_window_safe_witness :
  let policy := demo_policy 3 "1s" in
  let r := run_all memory (client demo_clock policy "k" <$> demo_requests) demo_world in
  claimed (granted (WindowEnd 0 0 (pol_Algorithm policy))) (Ret <$> r.1) = 3 /\
  claimed (granted (WindowEnd 0 0 (pol_Algorithm policy))) (Ret <$> r.1)
    <= effective_limit (pol_Algorithm policy)
       - counter_value demo_world (windowKey "k" (WindowStart 0 0 (pol_Algorithm policy))).
Proof.
  split; [by vm_compute|].
  apply (fixed_window_safe memory env_step (HL := memory_laws) 0 (demo_policy 3 "1s") "k" 0 demo_requests
    demo_world (run_all memory (client demo_clock (demo_policy 3 "1s") "k" <$> demo_requests) demo_world).2);
    [done|done|by vm_compute..|repeat constructor; by vm_compute| |by vm_compute].
  apply run_all_pool, surjective_pairing.
Defined.

Lemma fixed_window_alone_witness :
  wf_store (w_store demo_world) /\
  exists w', run memory (Evaluate demo_clock (demo_policy 3 "1s") (mkRequest 4) "k") demo_world =
    (Ok (overLimit 1000 (demo_policy 3 "1s") (Second - 1000) 0 "fixed_window_limit_exceeded"), w').
Proof.
  split; [done|].
  destruct (fixed_window_alone demo_clock (demo_policy 3 "1s") (mkRequest 4) "k" demo_world ltac:(done))
    as (w' & H & _). exists w'. rewrite H. reflexivity.
Defined.

(** A quantity near the largest [int64] makes the sum of counter and cost negative:
    the request passes the limit, and leaves a negative counter behind. *)
Example fixed_window_quantity_overflow :
  let p := demo_policy 3 "1s" in
  let '(l, w') := run_all memory
    [Evaluate demo_clock p (mkRequest 1) "k"; Evaluate demo_clock p (mkRequest maxInt64) "k"] demo_world in
  is_allowed <$> l = [true; true] /\
  counter_value w' (windowKey "k" 0) = minInt64.
Proof. vm_compute. done. Qed.

(** A window of length zero has a counter of its own at every instant: nothing is
    limited. *)
Example fixed_window_zero_length :
  let p := demo_policy 1 "0s" in
  fmap (M := option) is_allowed <$>
    (play [Serve (Evaluate demo_clock p (mkRequest 1) "k"); Wait 1;
           Serve (Evaluate demo_clock p (mkRequest 1) "k"); Wait 1;
           Serve (Evaluate demo_clock p (mkRequest 1) "k")] demo_world).1
  = [Some true; None; Some true; None; Some true].
Proof. vm_compute. done. Qed.
