(* ===== verification/Quota.v ===== *)
(** * internal/algorithm/quota: budgets per day, week or month *)

From S2P Require Import Prelude GoString GoFloat GoTime Model Store Protocol Common MemoryStore CasLimit.
Local Open Scope Z_scope.
Local Open Scope stdpp_scope.
Local Open Scope go_scope.

(** [fmt.Sprintf("%s:quota:%d", key, bucketStart.UnixNano())]. *)
Definition bucketKey (key : string) (bucketStart : Time) : string :=
  key +:+ ":quota:" +:+ FormatInt (UnixNano bucketStart).

(** [model.AlgorithmConfig{Window: period}], the period defaulting to a day. *)
Definition period_config (cfg : AlgorithmConfig) : AlgorithmConfig :=
  let period := if String.eqb (cfg_QuotaPeriod cfg) "" then "day" else cfg_QuotaPeriod cfg in
  {| cfg_Type := ""; cfg_Limit := 0; cfg_Window := period; cfg_Burst := 0;
     cfg_RefillRate := fzero; cfg_LeakRate := fzero; cfg_SubWindowCount := 0;
     cfg_MaxConcurrency := 0; cfg_LeaseTTL := 0; cfg_QuotaPeriod := "";
     cfg_CostPerRequest := 0; cfg_MaxRetries := 0; cfg_SampleRate := fzero |}.

Definition Evaluate (clk : Clock) (policy : Policy) (req : RequestContext) (key : string)
    : prog (result Decision) :=
  now ← eval_now clk;
  let cfg := pol_Algorithm policy in
  let period := period_config cfg in
  let window := WindowDuration period in
  let bucketStart := WindowStart now (clk_Loc clk) period in
  let bucketEnd := WindowEnd now (clk_Loc clk) period in
  let limit := effective_limit cfg in
  let cost := Cost req cfg in
  cas_loop (Z.to_nat (maxRetries cfg)) (bucketKey key bucketStart) limit cost window
    (OverLimitDecision policy (time_Sub bucketEnd now) 0 "quota_exceeded")
    (OverLimitDecision policy (time_Sub bucketEnd now) 0 "quota_contention")
    (fun remaining => allowed "within_quota" remaining bucketEnd).

(** A request with its cost, as one client. *)
Definition quota_client (clk : Clock) (policy : Policy) (key : string) (req : RequestContext)
    : prog (int64 * result Decision) :=
  r ← Evaluate clk policy req key; mret (Cost req (pol_Algorithm policy), r).

Lemma quota_client_obeys loc policy key t0 lb req :
  let cfg := pol_Algorithm policy in
  let period := period_config cfg in
  let start := WindowStart t0 loc period in
  blocking (pol_Action policy) = true ->
  cfg_Window period <> "month" -> 0 < WindowDuration period -> 0 <= lb -> start <= maxInt64 ->
  effective_limit cfg + Cost req cfg <= maxInt64 ->
  obeys (bucketKey key start) (effective_limit cfg) start (WindowDuration period)
    (granted (WindowEnd t0 loc period)) lb 0
    (quota_client {| clk_Now := None; clk_Loc := loc |} policy key req).
Proof.
  intros cfg period start Hb Hm Hd Hlb Hs Hcost. apply obeys_ret. intros t Ht.
  apply (obeys_window_loop (bucketKey key) _ _ _ period loc policy _ _ _ t0 t); try done;
    [|lia|apply Cost_pos].
  intros t1 t2 H. by apply str_app_inj_l, str_app_inj_l in H.
Qed.

(** C9 (kind: safety).  Concurrent safety of daily, weekly and duration quotas: however the store calls of any
    number of concurrent requests are interleaved, with time passing and the store forgetting expired counters,
    the total cost of the requests that are allowed in a period does not exceed what its counter had left of the
    quota; provided the policy's action blocks what is over the limit, the period is not a calendar month and
    has a positive length, and no cost takes the limit out of the range of an int64. The counter holds between
    zero and the limit to begin with and does not expire within the period, instants are between 1970 and 2262,
    and the requests are followed until the period ends, less the precision of the store. *)
Theorem quota_safe {W : Type} (h : handler W) (env : W -> W -> Prop) {HL : StoreLaws h env}
    (loc : Z) (policy : Policy) (key : string) (t0 : Time) (reqs : list RequestContext)
    (w w' : W) (ps' : list (prog (int64 * result Decision))) :
  let cfg := pol_Algorithm policy in
  let period := period_config cfg in
  let limit := effective_limit cfg in
  let bucketEnd := WindowEnd t0 loc period in
  let bk := bucketKey key (WindowStart t0 loc period) in
  blocking (pol_Action policy) = true ->
  cfg_Window period <> "month" -> 0 < WindowDuration period -> WindowStart t0 loc period <= maxInt64 ->
  limit <= sl_cap -> sl_wf w -> 0 <= sl_clock w ->
  0 <= sl_value w bk <= limit -> alive_until (sl_deadline w bk) (bucketEnd - sl_slack) ->
  Forall (fun req => limit + Cost req cfg <= maxInt64) reqs ->
  rtc (pool_step h env) (quota_client {| clk_Now := None; clk_Loc := loc |} policy key <$> reqs, w) (ps', w') ->
  sl_clock w' <= bucketEnd - sl_slack ->
  claimed (granted bucketEnd) ps' <= limit - sl_value w bk.
Proof.
  intros cfg period limit bucketEnd bk Hb Hm Hd Hs Hcap Hwf Hc Hv Ha Hcost Hrtc Hend.
  unfold bucketEnd in Ha, Hend. rewrite WindowEnd_duration in Ha, Hend by done.
  eapply (protocol_safe h env bk limit (WindowStart t0 loc period) (WindowDuration period));
    [done..| |exact Hrtc|done].
  rewrite Forall_fmap. eapply Forall_impl; [exact Hcost|]. intros req Hreq.
  by apply quota_client_obeys.
Qed.

(** ** Examples *)

Definition demo_quota (limit : int64) (period : string) : Policy :=
  mkPolicy "q" zeroScope (mkConfig AlgoQuota limit period) ActionDeny.
Definition quota_world : World := {| w_clock := 1000; w_store := NewSharded 1 |}.
Definition quota_clock : Clock := {| clk_Now := None; clk_Loc := 0 |}.
Definition quota_requests : list RequestContext := [mkRequest 2; mkRequest 2; mkRequest 1].

Lemma quota_safe_witness :
  let policy := demo_quota 3 "week" in
  let period := period_config (pol_Algorithm policy) in
  let r := run_all memory (quota_client quota_clock policy "k" <$> quota_requests) quota_world in
  claimed (granted (WindowEnd 0 0 period)) (Ret <$> r.1) = 3 /\
  claimed (granted (WindowEnd 0 0 period)) (Ret <$> r.1)
    <= effective_limit (pol_Algorithm policy)
       - counter_value quota_world (bucketKey "k" (WindowStart 0 0 period)).
Proof.
  split; [by vm_compute|].
  apply (quota_safe memory env_step (HL := memory_laws) 0 (demo_quota 3 "week") "k" 0 quota_requests
    quota_world (run_all memory (quota_client quota_clock (demo_quota 3 "week") "k" <$> quota_requests)
                   quota_world).2);
    [done|done|by vm_compute..|repeat constructor; by vm_compute| |by vm_compute].
  apply run_all_pool, surjective_pairing.
Defined.

(** A monthly counter lives 30 days after its last charge, and a month can have 31:
    a quota of one per month is granted twice in January. *)
Example quota_month_granted_twice :
  let p := demo_quota 1 "month" in
  fmap (M := option) is_allowed <$>
    (play [Serve (Evaluate quota_clock p (mkRequest 1) "k");
           Wait (29 * Day); Serve (Evaluate quota_clock p (mkRequest 1) "k");
           Wait (Day + 1); Serve (Evaluate quota_clock p (mkRequest 1) "k")] quota_world).1
  = [Some true; None; Some false; None; Some true] /\
  time_Date (w_clock quota_world + 30 * Day + 1) 0 = {| civ_year := 1970; civ_month := 1; civ_day := 31 |}.
Proof. vm_compute. done. Qed.
