(* ===== verification/Concurrency.v ===== *)
(** * internal/algorithm/concurrency: limits on operations in flight *)

From S2P Require Import Prelude GoString GoFloat GoTime Model Store Protocol Common MemoryStore.
Local Open Scope Z_scope.
Local Open Scope stdpp_scope.
Local Open Scope go_scope.

Definition DefaultLeaseTTL : Duration := 2 * Minute.

Definition lease_limit (cfg : AlgorithmConfig) : int64 :=
  let limit := if cfg_MaxConcurrency cfg <=? 0 then cfg_Limit cfg else cfg_MaxConcurrency cfg in
  if limit <=? 0 then 1 else limit.

Definition lease_ttl (cfg : AlgorithmConfig) : Duration :=
  if 0 <? cfg_LeaseTTL cfg then cfg_LeaseTTL cfg *! Second else DefaultLeaseTTL.

Definition leaseKey (key : string) : string := key +:+ ":concurrency".

Definition Evaluate (policy : Policy) (req : RequestContext) (key : string) : prog (result Decision) :=
  let cfg := pol_Algorithm policy in
  let limit := lease_limit cfg in
  let leaseTTL := lease_ttl cfg in
  let! acquired := call (AcquireLease (leaseKey key) limit leaseTTL) in
  let '(ok, current) := acquired : bool * int64 in
  if ok then mret (Ok (allowed "concurrency_slot_acquired" (limit -! current) zeroTime))
  else d ← OverLimitDecision policy (100 * Millisecond) 0 "concurrency_limit_exceeded"; mret (Ok d).

Definition Release (key : string) : prog (result unit) := call (ReleaseLease (leaseKey key)).

(** ** Leases on the memory store *)

Definition lease_item (w : World) (key : string) : valueItem :=
  live_lease (w_clock w) (view (w_store w) key).

Lemma live_lease_insert now it key sh :
  expired now it = false ->
  live_lease now (cell_of key (with_leases <[key := it]> sh)) = it.
Proof.
  intros He. unfold live_lease, cell_of. cbn [c_lease with_leases sh_leases].
  rewrite lookup_insert_eq. cbn [from_option id]. by rewrite He.
Qed.

Lemma live_lease_not_expired now c : expired now (live_lease now c) = false.
Proof. unfold live_lease. by destruct (expired now (default zeroItem (c_lease c))) eqn:E. Qed.

Lemma expired_touch now ttl it v :
  expired now it = false -> expired now {| vi_value := v; vi_expiry := touch now ttl (vi_expiry it) |} = false.
Proof.
  intros He. unfold expired, touch in *. cbn [vi_expiry]. destruct (0 <? ttl) eqn:E; [|done].
  zify_bool. unfold After, time_Add. rewrite (proj2 (Z.ltb_ge (now + ttl) now)) by lia.
  by rewrite andb_false_r.
Qed.

(** An acquisition succeeds exactly below the limit, and adds one lease. *)
Lemma memory_AcquireLease w key limit ttl :
  wf_store (w_store w) -> 0 < limit ->
  let '(r, w') := memory _ (AcquireLease key limit ttl) w in
  let it := lease_item w key in
  let it' := {| vi_value := vi_value it +! 1; vi_expiry := touch (w_clock w) ttl (vi_expiry it) |} in
  r = Ok (if limit <=? vi_value it then (false, vi_value it) else (true, vi_value it')) /\
  lease_item w' key = if limit <=? vi_value it then it else it'.
Proof.
  intros Hwf Hl. pose proof (memory_view (AcquireLease key limit ttl) key w eq_refl Hwf) as Hv.
  pose proof (memory_key (AcquireLease key limit ttl) key w eq_refl) as Hr.
  pose proof (memory_clock (AcquireLease key limit ttl) w) as Hc. unfold lease_item.
  destruct (memory _ _ w) as [r w']. injection Hr as -> _. cbn [snd] in Hv, Hc. rewrite Hv, Hc. clear Hv.
  unfold view. cbn [shard_op]. unfold mem_AcquireLease. rewrite (proj2 (Z.leb_gt limit 0) Hl).
  set (sh := ms_shards (w_store w) !!! shardFor (w_store w) key).
  pose proof (live_lease_not_expired (w_clock w) (cell_of key sh)) as He.
  destruct (getLeaseLocked_spec (w_clock w) key sh) as [E1 [_ E2]].
  destruct (getLeaseLocked _ _ _) as [it sh']. cbn [fst snd] in *. subst it.
  destruct (limit <=? _); cbn [fst snd]; [done|]. split; [done|].
  apply live_lease_insert. by apply expired_touch.
Qed.

(** A release takes one lease back, never below zero. *)
Lemma memory_ReleaseLease w key :
  wf_store (w_store w) ->
  let '(r, w') := memory _ (ReleaseLease key) w in
  let it := lease_item w key in
  r = Ok () /\
  lease_item w' key = {| vi_value := if 0 <? vi_value it then vi_value it - 1 else vi_value it;
                         vi_expiry := vi_expiry it |}.
Proof.
  intros Hwf. pose proof (memory_view (ReleaseLease key) key w eq_refl Hwf) as Hv.
  pose proof (memory_key (ReleaseLease key) key w eq_refl) as Hr.
  pose proof (memory_clock (ReleaseLease key) w) as Hc. unfold lease_item.
  destruct (memory _ _ w) as [r w']. injection Hr as -> _. cbn [snd] in Hv, Hc. rewrite Hv, Hc. clear Hv.
  unfold view. cbn [shard_op]. unfold mem_ReleaseLease.
  set (sh := ms_shards (w_store w) !!! shardFor (w_store w) key).
  pose proof (live_lease_not_expired (w_clock w) (cell_of key sh)) as He.
  destruct (getLeaseLocked_spec (w_clock w) key sh) as [E1 [_ E2]].
  destruct (getLeaseLocked _ _ _) as [it sh']. cbn [fst snd] in *. subst it.
  split; [done|]. by apply live_lease_insert.
Qed.

(** Between calls a lease count stays until its deadline. *)
Lemma env_step_lease w w' key :
  wf_store (w_store w) -> env_step w w' ->
  vi_expiry (lease_item w key) = zeroTime \/ w_clock w' <= vi_expiry (lease_item w key) ->
  lease_item w' key = lease_item w key.
Proof.
  intros Hwf He Ha. unfold lease_item in *. destruct He as [w t Ht|w i now Hnow]; cbn [w_clock w_store] in *.
  - set (c := view (w_store w) key) in *. unfold live_lease in *.
    destruct (expired (w_clock w) (default zeroItem (c_lease c))) eqn:E.
    + by rewrite (expired_later (w_clock w) t).
    + enough (expired t (default zeroItem (c_lease c)) = false) as -> by done.
      unfold expired, After, IsZero. apply andb_false_iff.
      destruct Ha as [->|Ha]; [by left|right; apply Z.ltb_ge; lia].
  - destruct (alter_view now (w_store w) i key Hwf) as [->| ->]; [done|].
    apply (sweepShard_alike (w_clock w) now key (ms_shards (w_store w) !!! shardFor (w_store w) key)). lia.
Qed.

Lemma env_step_lease_or_zero w w' key :
  wf_store (w_store w) -> env_step w w' -> lease_item w' key = lease_item w key \/ lease_item w' key = zeroItem.
Proof.
  intros Hwf He. unfold lease_item in *. destruct He as [w t Ht|w i now Hnow]; cbn [w_clock w_store] in *.
  - set (c := view (w_store w) key) in *. unfold live_lease in *.
    destruct (expired (w_clock w) (default zeroItem (c_lease c))) eqn:E.
    + rewrite (expired_later (w_clock w) t) by done. by left.
    + destruct (expired t _); [by right|by left].
  - left. destruct (alter_view now (w_store w) i key Hwf) as [->| ->]; [done|].
    apply (sweepShard_alike (w_clock w) now key (ms_shards (w_store w) !!! shardFor (w_store w) key)). lia.
Qed.

(** ** Many clients *)

(** An operation under the limit: acquire, and release when done. *)
Definition session (policy : Policy) (key : string) (req : RequestContext) : prog (result Decision) :=
  r ← Evaluate policy req key;
  match r with
  | Ok d => if String.eqb (dec_Reason d) "concurrency_slot_acquired"
            then _ ← Release key; mret r else mret r
  | Err _ => mret r
  end.

(** A client between its acquisition and its release. *)
Definition holding (p : prog (result Decision)) : Z :=
  match p with Call (ReleaseLease _) _ => 1 | _ => 0 end.

Definition holders (ps : list (prog (result Decision))) : Z := sumZ (holding <$> ps).

(** *** The memory store keeps leases *)

Definition lease_deadline (w : World) (key : string) : option Time :=
  let e := vi_expiry (lease_item w key) in if IsZero e then None else Some e.

Lemma memory_acquire_law w key limit ttl :
  wf_store (w_store w) -> 0 <= vi_value (lease_item w key) -> 0 < limit <= maxInt64 -> 1 <= ttl <= maxInt64 ->
  let '(r, w') := memory _ (AcquireLease key limit ttl) w in
  let count := vi_value (lease_item w key) in
  let count' := vi_value (lease_item w' key) in
  match r with
  | Ok (true, _) => count + 1 <= count' <= limit /\ alive_until (lease_deadline w' key) (w_clock w + ttl - 0)
  | _ => count <= count' /\
         forall t, 0 < count -> t <= w_clock w + ttl - 0 ->
                   alive_until (lease_deadline w key) t -> alive_until (lease_deadline w' key) t
  end.
Proof.
  intros Hwf Hc Hl Ht. pose proof (memory_AcquireLease w key limit ttl Hwf ltac:(lia)) as Ha.
  destruct (memory _ _ w) as [r w']. destruct Ha as [-> Hit]. unfold lease_deadline. rewrite Hit.
  destruct (limit <=? vi_value (lease_item w key)) eqn:E; zify_bool; [split; [lia|done]|].
  cbn [vi_value vi_expiry]. unwrap. split; [lia|]. unfold touch. rewrite (proj2 (Z.ltb_lt 0 ttl)) by lia.
  unfold time_Add. destruct (IsZero _); cbn; [done|lia].
Qed.

Lemma memory_release_law w key :
  wf_store (w_store w) -> 0 < vi_value (lease_item w key) ->
  let w' := (memory _ (ReleaseLease key) w).2 in
  vi_value (lease_item w key) - 1 <= vi_value (lease_item w' key) /\
  forall t, alive_until (lease_deadline w key) t -> alive_until (lease_deadline w' key) t.
Proof.
  intros Hwf Hc. pose proof (memory_ReleaseLease w key Hwf) as Hr. destruct (memory _ _ w) as [r w']. cbn [snd].
  destruct Hr as [_ Hit]. unfold lease_deadline. rewrite Hit. cbn [vi_value vi_expiry].
  rewrite (proj2 (Z.ltb_lt 0 _)) by lia. split; [lia|done].
Qed.

Lemma memory_lease_env w w' key :
  wf_store (w_store w) -> env_step w w' -> 0 <= vi_value (lease_item w key) ->
  0 <= vi_value (lease_item w' key) /\
  (alive_until (lease_deadline w key) (w_clock w') ->
   vi_value (lease_item w' key) = vi_value (lease_item w key) /\ lease_deadline w' key = lease_deadline w key).
Proof.
  intros Hwf He Hc. split.
  - destruct (env_step_lease_or_zero w w' key Hwf He) as [->| ->]; [done|]. cbn. lia.
  - unfold lease_deadline. intros Ha. rewrite (env_step_lease w w' key Hwf He); [done|].
    unfold IsZero in Ha. destruct (_ =? _) eqn:E; zify_bool; [by left|right; exact Ha].
Qed.

#[export] Instance memory_lease_laws : LeaseLaws memory env_step := {|
  ls_wf _ := True;
  ls_wf_op _ _ _ _ H := H;
  ls_wf_env _ _ _ H := H;
  ls_count w key := vi_value (lease_item w key);
  ls_deadline := lease_deadline;
  ls_cap := maxInt64;
  ls_unit := 1;
  ls_acquire w k limit ttl Hwf _ := memory_acquire_law w k limit ttl Hwf;
  ls_release w k Hwf _ := memory_release_law w k Hwf;
  ls_env := memory_lease_env
|}.

(** *** Safety *)

Section Safety.
Context {W : Type} (h : handler W) (env : W -> W -> Prop) `{LL : LeaseLaws W h env}.
Context (policy : Policy) (key : string).
Let limit := lease_limit (pol_Algorithm policy).
Let ttl := lease_ttl (pol_Algorithm policy).

(** The states a session goes through: not started, holding a lease, building
    its denial, done. *)
Inductive phase : prog (result Decision) -> Prop :=
| ph_start req : phase (session policy key req)
| ph_holding k : (forall r, exists a, k r = Ret a) -> phase (Call (ReleaseLease (leaseKey key)) k)
| ph_denied k : (forall t, exists a, k t = Ret a) -> phase (Call TimeNow k)
| ph_done a : phase (Ret a).

(** [n] clients hold a lease, within the limit, and the counter knows of at least as
    many until [c0 + ttl]. *)
Definition lease_inv (c0 : Time) (w : W) (n : Z) : Prop :=
  sl_wf w /\ ls_wf w /\ c0 <= sl_clock w /\ 0 <= n <= limit /\ n <= ls_count w (leaseKey key) /\
  (n = 0 \/ alive_until (ls_deadline w (leaseKey key)) (c0 + ttl - sl_slack)).

Lemma lease_acquire c0 w n req p' w' :
  0 < limit <= ls_cap -> ls_unit <= ttl <= maxInt64 -> lease_inv c0 w n ->
  tstep h (session policy key req) w = (p', w') ->
  phase p' /\ lease_inv c0 w' (n + holding p').
Proof.
  intros Hl Httl (Hwf & Hlw & Hc & Hn & Hcnt & Halive) Hs.
  unfold session, Evaluate, try_bind, call, mbind, prog_mbind in Hs. cbn [prog_bind tstep] in Hs.
  pose proof (ls_acquire w (leaseKey key) limit ttl Hwf Hlw ltac:(lia) Hl Httl) as Ha.
  pose proof (sl_wf_op _ (AcquireLease (leaseKey key) limit ttl) w Hwf) as Hwf'.
  pose proof (ls_wf_op _ (AcquireLease (leaseKey key) limit ttl) w Hwf Hlw) as Hlw'.
  pose proof (sl_op_clock _ (AcquireLease (leaseKey key) limit ttl) w) as Hc'.
  fold limit ttl in Hs. destruct (h _ _ w) as [r w1]. cbn [snd] in *.
  injection Hs as <- <-. unfold lease_inv. rewrite Hc'.
  destruct r as [[[] cur]|e]; destruct Ha as [Hcount Hd].
  - split; [apply ph_holding; intros r; by eexists|]. change (holding _) with 1.
    split_and!; [done..|lia|lia|lia|lia|]. right. eapply alive_until_le; [exact Hd|lia].
  - split; [apply ph_denied; intros t; by eexists|]. change (holding _) with 0. rewrite Z.add_0_r.
    split_and!; [done..|lia|lia|lia|lia|]. destruct (decide (n = 0)); [by left|right].
    apply Hd; [lia|lia|]. destruct Halive; [lia|done].
  - split; [apply ph_done|]. change (holding _) with 0. rewrite Z.add_0_r.
    split_and!; [done..|lia|lia|lia|lia|]. destruct (decide (n = 0)); [by left|right].
    apply Hd; [lia|lia|]. destruct Halive; [lia|done].
Qed.

Lemma lease_release c0 w n k p' w' :
  (forall r, exists a, k r = Ret a) -> 0 < n -> lease_inv c0 w n ->
  tstep h (Call (ReleaseLease (leaseKey key)) k) w = (p', w') ->
  phase p' /\ holding p' = 0 /\ lease_inv c0 w' (n - 1).
Proof.
  intros Hk Hpos (Hwf & Hlw & Hc & Hn & Hcnt & Halive) Hs. cbn [tstep] in Hs.
  pose proof (ls_release w (leaseKey key) Hwf Hlw ltac:(lia)) as Ha.
  pose proof (sl_wf_op _ (ReleaseLease (leaseKey key)) w Hwf) as Hwf'.
  pose proof (ls_wf_op _ (ReleaseLease (leaseKey key)) w Hwf Hlw) as Hlw'.
  pose proof (sl_op_clock _ (ReleaseLease (leaseKey key)) w) as Hc'.
  destruct (h _ _ w) as [r w1]. cbn [snd] in *. destruct Ha as [Hcount Hd].
  destruct (Hk r) as [a Ha]. rewrite Ha in Hs. injection Hs as <- <-.
  split_and!; [constructor|done|]. unfold lease_inv. rewrite Hc'.
  split_and!; [done..|lia|lia|lia|lia|]. right. apply Hd. destruct Halive; [lia|done].
Qed.

(** One call of a session keeps the invariant. *)
Lemma lease_step c0 w n p p' w' :
  0 < limit <= ls_cap -> ls_unit <= ttl <= maxInt64 -> phase p -> holding p <= n ->
  lease_inv c0 w n -> tstep h p w = (p', w') ->
  phase p' /\ lease_inv c0 w' (n - holding p + holding p').
Proof.
  intros Hl Httl Hp Hh Hinv Hs. destruct Hp as [req|k Hk|k Hk|a].
  - change (holding (session policy key req)) with 0. rewrite Z.sub_0_r. by eapply lease_acquire.
  - destruct (lease_release c0 w n k p' w' Hk ltac:(simpl in Hh; lia) Hinv Hs) as (Hp & -> & Hi).
    split; [done|]. by rewrite Z.add_0_r.
  - cbn [tstep] in Hs. rewrite sl_now in Hs. destruct (Hk (sl_clock w)) as [a Ha].
    rewrite Ha in Hs. injection Hs as <- <-. split; [constructor|]. cbn [holding]. by rewrite Z.sub_0_r, Z.add_0_r.
  - injection Hs as <- <-. split; [constructor|]. cbn [holding]. by rewrite Z.sub_0_r, Z.add_0_r.
Qed.

Lemma lease_env c0 w w' n :
  lease_inv c0 w n -> env w w' -> sl_clock w' <= c0 + ttl - sl_slack -> lease_inv c0 w' n.
Proof.
  intros (Hwf & Hlw & Hc & Hn & Hcnt & Halive) He Hend. pose proof (sl_env_clock w w' He) as Hc'.
  pose proof (sl_wf_env w w' He Hwf) as Hwf'. pose proof (ls_wf_env w w' He Hlw) as Hlw'.
  assert (H0 : 0 <= ls_count w (leaseKey key)) by lia.
  destruct (ls_env w w' (leaseKey key) Hwf He H0) as [H1 Hsame].
  split_and!; [done..|lia|lia|lia| |].
  - destruct Halive as [->|Ha]; [done|]. rewrite (proj1 (Hsame (alive_until_le _ _ _ Ha Hend))). done.
  - destruct Halive as [->|Ha]; [by left|right]. by rewrite (proj2 (Hsame (alive_until_le _ _ _ Ha Hend))).
Qed.

Definition sessions_inv (c0 : Time) (ps : list (prog (result Decision))) (w : W) : Prop :=
  Forall phase ps /\ lease_inv c0 w (holders ps).

Lemma holders_lookup ps i p : ps !! i = Some p -> holding p <= holders ps.
Proof.
  unfold holders. revert i. induction ps as [|q ps IH]; intros [|i] H; simplify_eq/=.
  - enough (0 <= sumZ (holding <$> ps)) by lia. apply sumZ_nonneg, Forall_fmap, Forall_true.
    intros [|? []]; simpl; lia.
  - specialize (IH i H). assert (0 <= holding q) by (destruct q as [|? []]; simpl; lia). lia.
Qed.

Lemma sessions_step c0 (x y : list (prog (result Decision)) * W) :
  0 < limit <= ls_cap -> ls_unit <= ttl <= maxInt64 ->
  pool_step h env x y -> sl_clock y.2 <= c0 + ttl - sl_slack ->
  sessions_inv c0 x.1 x.2 -> sessions_inv c0 y.1 y.2.
Proof.
  intros Hl Httl [ps w i p p' w' Hi Hs|ps w w' He] Hend [Hph Hinv]; cbn [fst snd] in *.
  - pose proof (proj1 (Forall_lookup _ _) Hph i p Hi) as Hp.
    destruct (lease_step c0 w _ p p' w' Hl Httl Hp (holders_lookup ps i p Hi) Hinv Hs) as [Hp' Hinv'].
    split; [by apply Forall_insert|]. unfold holders in *. by rewrite (sumZ_insert holding ps i p).
  - split; [done|]. by eapply lease_env.
Qed.

(** Sessions on any store that keeps leases. *)
Lemma sessions_safe (reqs : list RequestContext) (w w' : W) (ps' : list (prog (result Decision))) :
  0 < limit <= ls_cap -> ls_unit <= ttl <= maxInt64 ->
  sl_wf w -> ls_wf w -> 0 <= ls_count w (leaseKey key) ->
  rtc (pool_step h env) (session policy key <$> reqs, w) (ps', w') ->
  sl_clock w' <= sl_clock w + ttl - sl_slack ->
  holders ps' <= limit.
Proof.
  intros Hl Httl Hwf Hlw Hz Hrtc Hend.
  enough (sessions_inv (sl_clock w) ps' w') as [_ (_ & _ & _ & Hn & _)] by lia.
  refine (rtc_ind_r (fun x => sl_clock x.2 <= sl_clock w + ttl - sl_slack ->
    sessions_inv (sl_clock w) x.1 x.2) _ _ _ _ Hrtc Hend).
  - intros _. split; [apply Forall_fmap, Forall_true; intros; constructor|].
    assert (holders (session policy key <$> reqs) = 0) as Hh.
    { clear. unfold holders. induction reqs as [|r rs IH]; [done|]. rewrite !fmap_cons.
      unfold sumZ in *. cbn [foldr]. rewrite IH. done. }
    unfold lease_inv. cbn [fst snd]. rewrite Hh. split_and!; [done|done|lia..|by left].
  - intros x y _ Hstep IH Hy. eapply sessions_step; [done..|]. apply IH.
    pose proof (pool_clock h env x y Hstep). simpl in *. lia.
Qed.
End Safety.

Lemma lease_limit_bounds cfg : in_int64 (cfg_MaxConcurrency cfg) ->
  in_int64 (cfg_Limit cfg) -> 0 < lease_limit cfg <= maxInt64.
Proof. unfold lease_limit, in_int64, minInt64, maxInt64. zcases. Qed.

Lemma lease_ttl_bound cfg : lease_ttl cfg <= maxInt64.
Proof.
  unfold lease_ttl. destruct (0 <? _); [|by vm_compute]. apply wrap64_range.
Qed.


(** An operation served alone is admitted exactly below the limit and reports the
    slots left; when it has finished, the count of leases is what it was. *)
Theorem session_roundtrip (policy : Policy) (key : string) (req : RequestContext) (w : World) :
  let limit := lease_limit (pol_Algorithm policy) in
  let v := vi_value (lease_item w (leaseKey key)) in
  wf_store (w_store w) -> 0 <= v -> 0 < limit <= maxInt64 ->
  exists w',
    run memory (session policy key req) w =
      (Ok (if limit <=? v
           then overLimit (w_clock w) policy (100 * Millisecond) 0 "concurrency_limit_exceeded"
           else allowed "concurrency_slot_acquired" (limit - (v + 1)) zeroTime), w') /\
    vi_value (lease_item w' (leaseKey key)) = v.
Proof.
  intros limit v Hwf Hv Hl. unfold session, Evaluate, try_bind, call, mbind, prog_mbind. cbn [prog_bind run].
  set (ttl := lease_ttl (pol_Algorithm policy)). fold limit.
  pose proof (memory_AcquireLease w (leaseKey key) limit ttl Hwf ltac:(lia)) as Ha.
  pose proof (memory_wf (AcquireLease (leaseKey key) limit ttl) w Hwf) as Hwf1.
  pose proof (memory_clock (AcquireLease (leaseKey key) limit ttl) w) as Hc1.
  destruct (memory _ _ w) as [r w1]. destruct Ha as [-> Hit].
  change (vi_value (lease_item w (leaseKey key))) with v in Hit |- *.
  cbn [snd] in *. destruct (limit <=? v) eqn:E; zify_bool.
  - exists w1. split; [|by rewrite Hit]. rewrite <- Hc1. reflexivity.
  - pose proof (memory_ReleaseLease w1 (leaseKey key) Hwf1) as Hr.
    cbn [prog_bind run]. unfold mret, prog_mret. cbn [prog_bind run].
    change (String.eqb (dec_Reason (allowed "concurrency_slot_acquired" ?r ?t)) "concurrency_slot_acquired") with true.
    cbn [vi_value]. unfold Release, call. cbn [prog_bind run].
    destruct (memory _ (ReleaseLease (leaseKey key)) w1) as [r w2]. destruct Hr as [-> Hit2].
    exists w2. split; [|rewrite Hit2, Hit; cbn [vi_value]].
    + cbn [run]. do 2 f_equal. cbn [vi_value]. unwrap. done.
    + unwrap. rewrite (proj2 (Z.ltb_lt 0 (v + 1))) by lia. lia.
Qed.

(** ** Examples *)

Definition lease_policy (limit : int64) : Policy :=
  mkPolicy "c" zeroScope (mkConfig AlgoConcurrency limit "") ActionDeny.
Definition lease_world : World := {| w_clock := 1000; w_store := NewSharded 1 |}.


Lemma session_roundtrip_witness :
  exists w', run memory (session (lease_policy 2) "k" (mkRequest 1)) lease_world =
    (Ok (allowed "concurrency_slot_acquired" 1 zeroTime), w') /\ vi_value (lease_item w' (leaseKey "k")) = 0.
Proof.
  destruct (session_roundtrip (lease_policy 2) "k" (mkRequest 1) lease_world) as (w' & H & Hv); [done..|].
  exists w'. split; [rewrite H; reflexivity | exact Hv].
Defined.
