(* ===== verification/SlidingLog.v ===== *)
(** * internal/algorithm/slidinglog: exact rolling limits *)

From S2P Require Import Prelude GoString GoFloat GoTime Model Store Protocol Common MemoryStore.
Local Open Scope Z_scope.
Local Open Scope stdpp_scope.
Local Open Scope go_scope.

Definition computeRetryAfter (window : Duration) (count cost limit : int64) : Duration :=
  if count <=? 0 then window
  else
    let retryAfter := int64_of_float
      (fdiv (fmul (float_of_Z window) (float_of_Z (count +! cost -! limit))) (float_of_Z count)) in
    if retryAfter <=? 0 then Second else retryAfter.

Definition logKey (key : string) : string := key +:+ ":swl".

(** [for i := int64(0); i < cost; i++ { AddTimestamp }]. *)
Fixpoint addTimestamps (n : nat) (key : string) (ts : Time) (ttl : Duration) : prog (result unit) :=
  match n with
  | O => mret (Ok ())
  | S n' => let! _ := call (AddTimestamp key ts ttl) in addTimestamps n' key ts ttl
  end.

(** [atomic]: the store implements [atomicTimestampStore]. *)
Definition Evaluate (atomic : bool) (clk : Clock) (policy : Policy) (req : RequestContext) (key : string)
    : prog (result Decision) :=
  now ← eval_now clk;
  let cfg := pol_Algorithm policy in
  let window := WindowDuration cfg in
  let limit := effective_limit cfg in
  let cost := Cost req cfg in
  let cutoff := time_Add now (wrap64 (- window)) in
  let deny count :=
    d ← OverLimitDecision policy (computeRetryAfter window count cost limit) (limit -! count)
          "sliding_log_limit_exceeded"; mret (Ok d) in
  let grant count := allowed "within_sliding_log" (limit -! (count +! cost)) (time_Add now window) in
  if atomic then
    let! r := call (CheckAndAddTimestamps (logKey key) cutoff limit cost now window) in
    let '(count, ok) := r : int64 * bool in
    if negb ok then deny count else mret (Ok (grant count))
  else
    let! _ := call (TrimBefore (logKey key) cutoff) in
    let! count := call (CountAfter (logKey key) cutoff) in
    if limit <? count +! cost then deny count
    else
      let! _ := addTimestamps (Z.to_nat cost) (logKey key) now window in
      mret (Ok (grant count)).

(** ** The log of a key on the memory store *)

Definition log_of (w : World) (key : string) : list Time :=
  default [] (c_timestamps (view (w_store w) key)).
Definition log_expiry (w : World) (key : string) : option Time := c_tsExpiry (view (w_store w) key).

(** The entries of a log from an instant on, and between two instants. *)
Definition since (lo : Time) (l : list Time) : list Time := List.filter (fun t => lo <=? t) l.
Definition between (lo hi : Time) (l : list Time) : Z :=
  Z.of_nat (length (List.filter (fun t => (lo <=? t) && (t <=? hi)) l)).

Lemma trim_since lo l : List.filter (fun t => negb (Before t lo)) l = since lo l.
Proof.
  apply List.filter_ext. intros t. unfold Before. by rewrite <- Z.leb_antisym.
Qed.

(** A sweep forgets a log whose expiry has passed, and no other. *)
Lemma sweep_log w key :
  wf_store (w_store w) ->
  let w' := {| w_clock := w_clock w; w_store := sweep (w_clock w) (w_store w) |} in
  match log_expiry w key with
  | Some e => if e <? w_clock w then log_of w' key = [] /\ log_expiry w' key = None
              else log_of w' key = log_of w key /\ log_expiry w' key = Some e
  | None => log_of w' key = log_of w key /\ log_expiry w' key = None
  end.
Proof.
  intros Hwf w'. unfold log_expiry, log_of, w'. cbn [w_store]. rewrite sweep_view by done.
  unfold view, cell_of. set (sh := ms_shards (w_store w) !!! shardFor (w_store w) key).
  cbn [c_timestamps c_tsExpiry sweepShard sh_timestamps sh_tsExpiry].
  rewrite !lookup_difference, lookup_fmap, !map_lookup_filter. unfold After.
  destruct (sh_tsExpiry sh !! key) as [e|]; cbn; [|by destruct (sh_timestamps sh !! key)].
  destruct (e <? w_clock w); cbn; by destruct (sh_timestamps sh !! key).
Qed.

(** A cell with another log. *)
Definition set_log (l : list Time) (e : option Time) (c : cell) : cell :=
  {| c_value := c_value c; c_timestamps := Some l; c_tsExpiry := e; c_lease := c_lease c |}.

(** The expiry a log gets from an entry. *)
Definition log_touch (ttl : Duration) (now : Time) (e : option Time) : option Time :=
  if 0 <? ttl then Some (time_Add now ttl) else e.

Lemma set_log_view w key l e c :
  view (w_store w) key = set_log l e c -> log_of w key = l /\ log_expiry w key = e.
Proof. unfold log_of, log_expiry. by intros ->. Qed.

(** What a call on a log leaves, in terms of the cell of its key. *)
Lemma memory_log_op {R} (op : CounterOp R) key w :
  op_key op = Some key -> wf_store (w_store w) ->
  exists sh, view (w_store w) key = cell_of key sh /\
    let '(r, w') := memory R op w in
    wf_store (w_store w') /\ w_clock w' = w_clock w /\ r = (shard_op op (w_clock w) sh).1 /\
    view (w_store w') key = cell_of key (shard_op op (w_clock w) sh).2 /\
    forall k, k <> key -> view (w_store w') k = view (w_store w) k.
Proof.
  intros Hk Hwf. pose proof (memory_view op key w Hk Hwf) as Hv. pose proof (memory_key op key w Hk) as Hr.
  pose proof (memory_clock op w) as Hc. pose proof (memory_wf op w Hwf) as Hwf'.
  pose proof (fun k Hne => memory_view_other op k w Hne Hwf) as Ho. rewrite Hk in Ho.
  exists (ms_shards (w_store w) !!! shardFor (w_store w) key). split; [done|].
  destruct (memory R op w) as [r w']. injection Hr as -> _. split_and!; try done.
  intros k Hne. apply Ho. congruence.
Qed.

Ltac log_cell := unfold cell_of, set_log, log_of, log_expiry, log_touch, timestampsOf, touchTS in *;
  repeat case_match; cbn [fst snd cell_of c_value c_timestamps c_tsExpiry c_lease with_timestamps with_tsExpiry
    sh_values sh_timestamps sh_tsExpiry sh_leases] in *; rewrite ?lookup_insert_eq; try done.

Lemma run_TrimBefore {A} (f : result unit -> prog A) w key before :
  wf_store (w_store w) ->
  exists w', run memory (Call (TrimBefore key before) f) w = run memory (f (Ok ())) w' /\
    wf_store (w_store w') /\ w_clock w' = w_clock w /\
    view (w_store w') key = set_log (since before (log_of w key)) (log_expiry w key) (view (w_store w) key) /\
    forall k, k <> key -> view (w_store w') k = view (w_store w) k.
Proof.
  intros Hwf. destruct (memory_log_op (TrimBefore key before) key w eq_refl Hwf) as (sh & Hsh & Hop).
  cbn [run]. destruct (memory _ _ w) as [r w']. destruct Hop as (Hwf' & Hc & -> & Hv & Ho).
  exists w'. split_and!; try done. unfold log_of, log_expiry. rewrite Hv, Hsh. cbn [shard_op].
  unfold mem_TrimBefore. rewrite trim_since. log_cell.
Qed.

Lemma run_AddTimestamp {A} (f : result unit -> prog A) w key ts ttl :
  wf_store (w_store w) ->
  exists w', run memory (Call (AddTimestamp key ts ttl) f) w = run memory (f (Ok ())) w' /\
    wf_store (w_store w') /\ w_clock w' = w_clock w /\
    view (w_store w') key =
      set_log (sort_by Before (log_of w key ++ [ts])) (log_touch ttl (w_clock w) (log_expiry w key))
        (view (w_store w) key) /\
    forall k, k <> key -> view (w_store w') k = view (w_store w) k.
Proof.
  intros Hwf. destruct (memory_log_op (AddTimestamp key ts ttl) key w eq_refl Hwf) as (sh & Hsh & Hop).
  cbn [run]. destruct (memory _ _ w) as [r w']. destruct Hop as (Hwf' & Hc & -> & Hv & Ho).
  exists w'. split_and!; try done. unfold log_of, log_expiry. rewrite Hv, Hsh. cbn [shard_op].
  unfold mem_AddTimestamp. log_cell.
Qed.

Lemma run_CountAfter {A} (f : result int64 -> prog A) w key after :
  wf_store (w_store w) -> (forall e, log_expiry w key = Some e -> w_clock w < e) ->
  exists w', run memory (Call (CountAfter key after) f) w
             = run memory (f (Ok (Z.of_nat (length (since after (log_of w key)))))) w' /\
    wf_store (w_store w') /\ w_clock w' = w_clock w /\ view (w_store w') key = view (w_store w) key /\
    forall k, k <> key -> view (w_store w') k = view (w_store w) k.
Proof.
  intros Hwf He. destruct (memory_log_op (CountAfter key after) key w eq_refl Hwf) as (sh & Hsh & Hop).
  cbn [run]. destruct (memory _ _ w) as [r w']. destruct Hop as (Hwf' & Hc & -> & Hv & Ho). exists w'.
  assert (Hclean : cleanTSLocked (w_clock w) key sh = sh).
  { unfold log_expiry in He. rewrite Hsh in He. cbn [cell_of c_tsExpiry] in He. unfold cleanTSLocked, Before.
    destruct (sh_tsExpiry sh !! key) as [e|]; cbn [from_option id]; [|done].
    specialize (He e eq_refl). by rewrite (proj2 (Z.ltb_lt _ _) He), orb_true_r. }
  unfold log_of. rewrite Hv, Hsh. cbn [shard_op] in *. unfold mem_CountAfter. rewrite Hclean, trim_since. done.
Qed.

Lemma run_CheckAndAdd {A} (f : result (int64 * bool) -> prog A) w key cutoff limit cost ts ttl :
  wf_store (w_store w) ->
  let arr := since cutoff (log_of w key) in
  let count := Z.of_nat (length arr) in
  let full := limit <? count +! cost in
  exists w', run memory (Call (CheckAndAddTimestamps key cutoff limit cost ts ttl) f) w
             = run memory (f (Ok (count, negb full))) w' /\
    wf_store (w_store w') /\ w_clock w' = w_clock w /\
    view (w_store w') key =
      (if full then set_log arr (log_expiry w key) (view (w_store w) key)
       else set_log (sort_by Before (arr ++ replicate (Z.to_nat cost) ts))
              (log_touch ttl (w_clock w) (log_expiry w key)) (view (w_store w) key)) /\
    forall k, k <> key -> view (w_store w') k = view (w_store w) k.
Proof.
  intros Hwf arr count full. subst full count arr.
  destruct (memory_log_op (CheckAndAddTimestamps key cutoff limit cost ts ttl) key w eq_refl Hwf) as (sh & Hsh & Hop).
  cbn [run]. destruct (memory _ _ w) as [r w']. destruct Hop as (Hwf' & Hc & -> & Hv & Ho). exists w'.
  unfold log_of, log_expiry. rewrite Hv, Hsh. cbn [shard_op]. unfold mem_CheckAndAddTimestamps.
  rewrite trim_since. unfold timestampsOf. cbn [cell_of c_timestamps c_tsExpiry].
  destruct (limit <? _); split_and!; try done; log_cell.
Qed.

(** ** Counting entries *)

Lemma between_app lo hi l1 l2 : between lo hi (l1 ++ l2) = between lo hi l1 + between lo hi l2.
Proof. unfold between. rewrite List.filter_app, length_app. lia. Qed.

Lemma between_replicate lo hi n t :
  between lo hi (replicate n t) = if (lo <=? t) && (t <=? hi) then Z.of_nat n else 0.
Proof.
  unfold between. induction n as [|n IH]; [by destruct (_ && _)|]. cbn [replicate List.filter].
  destruct ((lo <=? t) && (t <=? hi)); cbn [length]; lia.
Qed.

Lemma between_nonneg lo hi l : 0 <= between lo hi l.
Proof. unfold between. lia. Qed.

(** Later starts count fewer entries. *)
Lemma between_since lo lo' hi l : lo <= lo' -> between lo' hi l <= Z.of_nat (length (since lo l)).
Proof.
  intros Hlo. unfold between, since. induction l as [|t l IH]; cbn [List.filter]; [done|].
  destruct (lo <=? t) eqn:E1, ((lo' <=? t) && (t <=? hi)) eqn:E2; zify_bool; cbn [length]; lia.
Qed.

Lemma between_before lo hi hi' l :
  Forall (fun t => t <= hi) l -> hi <= hi' -> between lo hi' l = between lo hi l.
Proof.
  intros Hl Hh. unfold between. do 2 f_equal. apply List.filter_ext_in. intros t Ht.
  rewrite Forall_forall in Hl. specialize (Hl t (proj2 (list_elem_of_In _ _) Ht)).
  f_equal. apply eq_true_iff_eq. rewrite !Z.leb_le. lia.
Qed.

Lemma since_since lo lo' l : lo <= lo' -> since lo' (since lo l) = since lo' l.
Proof.
  intros Hlo. unfold since. induction l as [|t l IH]; cbn [List.filter]; [done|].
  destruct (lo <=? t) eqn:E1; cbn [List.filter]; destruct (lo' <=? t) eqn:E2; zify_bool; rewrite ?IH; try done; lia.
Qed.

#[export] Instance since_proper lo : Proper ((≡ₚ) ==> (≡ₚ)) (since lo).
Proof.
  intros l1 l2 H. unfold since. induction H; cbn [List.filter]; repeat case_match; try done.
  - by constructor.
  - by constructor.
  - by etransitivity.
Qed.

Lemma since_app lo l1 l2 : since lo (l1 ++ l2) = since lo l1 ++ since lo l2.
Proof. apply List.filter_app. Qed.

Lemma since_nil lo l : Forall (fun t => t < lo) l -> since lo l = [].
Proof.
  induction 1 as [|t l Ht _ IH]; [done|]. unfold since in *. cbn [List.filter].
  by rewrite (proj2 (Z.leb_gt lo t)).
Qed.

(** ** Exactness of the rolling limit *)

(** A request with its cost, served with the wall clock. *)
Definition log_client (policy : Policy) (key : string) (req : RequestContext) : prog (int64 * result Decision) :=
  r ← Evaluate true {| clk_Now := None; clk_Loc := 0 |} policy req key;
  mret (Cost req (pol_Algorithm policy), r).

(** The cost an answer lets through between [T - window] and [T]: a decision is made one
    window before the reset it names. *)
Definition rolling (window : Duration) (T : Time) (a : option (int64 * result Decision)) : Z :=
  match a with
  | Some (cost, Ok d) =>
      if dec_Allowed d && ((T - window <=? dec_ResetAt d - window) && (dec_ResetAt d - window <=? T)) then cost else 0
  | _ => 0
  end.

(** Requests of a cost that cannot overflow the count, time going forward, sweeps. *)
Inductive log_event (policy : Policy) (key : string) : event (int64 * result Decision) -> Prop :=
| le_serve req :
    effective_limit (pol_Algorithm policy) + Cost req (pol_Algorithm policy) <= maxInt64 ->
    log_event policy key (Serve (log_client policy key req))
| le_wait d : 0 <= d -> log_event policy key (Wait d)
| le_sweep : log_event policy key Sweep.

Section Rolling.
Context (policy : Policy) (key : string) (blocks : blocking (pol_Action policy) = true).
Let cfg := pol_Algorithm policy.
Let limit := effective_limit cfg.
Let window := WindowDuration cfg.
Let lk := logKey key.

(** The log holds every admission [H] that can still matter. *)
Record log_inv (w : World) (H : list Time) : Prop := {
  li_wf : wf_store (w_store w);
  li_past : Forall (fun t => t <= w_clock w) H;
  li_log : exists lc, lc <= w_clock w - window /\ since lc (log_of w lk) ≡ₚ since lc H;
  li_expiry e : log_expiry w lk = Some e -> Forall (fun t => t + window <= e) H;
  li_limit T : between (T - window) T H <= limit
}.

Lemma log_inv_wait w H d :
  log_inv w H -> 0 <= d -> log_inv {| w_clock := w_clock w + d; w_store := w_store w |} H.
Proof.
  intros [Hwf Hp (lc & Hlc & Hl) He Hm] Hd. split; try done.
  - eapply Forall_impl; [done|]. simpl. lia.
  - exists lc. split; [simpl; lia|done].
Qed.

Lemma log_inv_sweep w H :
  log_inv w H -> log_inv {| w_clock := w_clock w; w_store := sweep (w_clock w) (w_store w) |} H.
Proof.
  intros [Hwf Hp (lc & Hlc & Hl) He Hm]. pose proof (sweep_log w lk Hwf) as Hs. cbv zeta in Hs.
  assert (Hwf' : wf_store (sweep (w_clock w) (w_store w))).
  { unfold wf_store. simpl. by rewrite length_fmap. }
  destruct (log_expiry w lk) as [e|] eqn:Ee; [destruct (e <? w_clock w) eqn:E|];
    destruct Hs as [E1 E2]; (split; [done|done| |rewrite E2|done]); rewrite ?E1.
  - exists (w_clock w - window). split; [simpl; lia|]. zify_bool.
    rewrite (since_nil _ H); [done|]. eapply Forall_impl; [by apply He|]. simpl. lia.
  - done.
  - by exists lc.
  - done.
  - by exists lc.
  - done.
Qed.

(** The limit holds in every window that an admission can touch. *)
Lemma between_admit now H c :
  Forall (fun t => t <= now) H -> 0 <= c ->
  (forall T, between (T - window) T H <= limit) -> 0 <= window ->
  Z.of_nat (length (since (now - window) H)) + c <= limit ->
  forall T, between (T - window) T (replicate (Z.to_nat c) now ++ H) <= limit.
Proof.
  intros Hp Hc Hm Hw Hadm T. rewrite between_app, between_replicate.
  destruct ((T - window <=? now) && (now <=? T)) eqn:E; [|specialize (Hm T); lia].
  zify_bool. pose proof (between_since (now - window) (T - window) T H ltac:(lia)). lia.
Qed.

Lemma replicate_past now (P : Time -> Prop) n : P now -> Forall P (replicate n now).
Proof. intros. by apply Forall_replicate. Qed.

(** An admission extends the log and the history alike. *)
Lemma log_inv_admit w w' H now c :
  log_inv w H -> now = w_clock w -> 0 < window -> 0 <= c ->
  wf_store (w_store w') -> w_clock w' = w_clock w ->
  log_of w' lk = sort_by Before (since (now - window) (log_of w lk) ++ replicate (Z.to_nat c) now) ->
  log_expiry w' lk = (if 0 <? window then Some (now + window) else log_expiry w lk) ->
  Z.of_nat (length (since (now - window) (log_of w lk))) + c <= limit ->
  log_inv w' (replicate (Z.to_nat c) now ++ H).
Proof.
  intros [Hwf Hp (lc & Hlc & Hl) He Hm] -> Hw Hc Hwf' Hclk Hlog Hexp Hadm.
  assert (Hs : since (w_clock w - window) (log_of w lk) ≡ₚ since (w_clock w - window) H).
  { rewrite <- (since_since lc) by lia. rewrite Hl. by rewrite since_since by lia. }
  split; [done| | | |].
  - rewrite Hclk. apply Forall_app. split; [apply replicate_past; lia|done].
  - exists (w_clock w - window). rewrite Hclk. split; [lia|].
    rewrite Hlog, sort_by_Permutation, !since_app, since_since, Hs by lia. apply Permutation_app_comm.
  - intros e. rewrite Hexp, (proj2 (Z.ltb_lt 0 window) Hw). intros [= <-].
    apply Forall_app. split; [apply replicate_past; lia|]. eapply Forall_impl; [exact Hp|]. simpl. lia.
  - rewrite Hs in Hadm. apply between_admit; [done..|lia|done].
Qed.

(** A denial only trims the log. *)
Lemma log_inv_deny w w' H :
  log_inv w H -> wf_store (w_store w') -> w_clock w' = w_clock w ->
  log_of w' lk = since (w_clock w - window) (log_of w lk) -> log_expiry w' lk = log_expiry w lk ->
  log_inv w' H.
Proof.
  intros [Hwf Hp (lc & Hlc & Hl) He Hm] Hwf' Hclk Hlog Hexp. split; [done|by rewrite Hclk| |by rewrite Hexp|done].
  exists (w_clock w - window). rewrite Hclk, Hlog. split; [lia|].
  rewrite since_since by lia. rewrite <- (since_since lc) by lia. rewrite Hl. by rewrite since_since by lia.
Qed.

(** The number of entries in the current window is within the limit. *)
Lemma log_inv_count w H :
  log_inv w H -> 0 < window -> Z.of_nat (length (since (w_clock w - window) (log_of w lk))) <= limit.
Proof.
  intros [Hwf Hp (lc & Hlc & Hl) He Hm] Hw.
  assert (Hs : since (w_clock w - window) (log_of w lk) ≡ₚ since (w_clock w - window) H).
  { rewrite <- (since_since lc) by lia. rewrite Hl. by rewrite since_since by lia. }
  rewrite Hs. specialize (Hm (w_clock w)). unfold between in Hm.
  etransitivity; [|exact Hm]. apply Z.eq_le_incl. do 2 f_equal. apply List.filter_ext_in.
  intros t Ht. rewrite Forall_forall in Hp. specialize (Hp t (proj2 (list_elem_of_In _ _) Ht)).
  by rewrite (proj2 (Z.leb_le t _) Hp), andb_true_r.
Qed.

(** Serving one request. *)
Lemma log_inv_serve w H req a w' :
  0 < window -> limit + Cost req cfg <= maxInt64 -> log_inv w H ->
  run memory (log_client policy key req) w = (a, w') ->
  exists H', log_inv w' H' /\
    forall T, between (T - window) T H' = rolling window T (Some a) + between (T - window) T H.
Proof.
  intros Hw Hcost Hinv Hrun. pose proof (Cost_pos req cfg) as Hc. pose proof (WindowDuration_range cfg) as Hr.
  pose proof (log_inv_count w H Hinv Hw) as Hcount. fold window in Hr.
  unfold log_client, Evaluate, eval_now, try_bind, call, mbind, prog_mbind in Hrun.
  cbn [prog_bind clk_Now from_option mret prog_mret] in Hrun. fold cfg limit lk window in Hrun.
  match type of Hrun with run memory (Call TimeNow ?f) w = _ =>
    change (run memory (f (w_clock w)) w = (a, w')) in Hrun end.
  cbn [prog_bind] in Hrun.
  replace (time_Add (w_clock w) (wrap64 (- window))) with (w_clock w - window) in Hrun
    by (unfold time_Add; unwrap; lia).
  match type of Hrun with run memory (Call _ ?f) w = _ =>
    destruct (run_CheckAndAdd f w lk (w_clock w - window) limit (Cost req cfg) (w_clock w) window (li_wf w H Hinv))
      as (w1 & Hr1 & Hwf1 & Hc1 & Hv1 & _) end.
  rewrite Hr1 in Hrun. clear Hr1. unwrap.
  destruct (limit <? _) eqn:E; zify_bool; cbn [negb] in Hrun; apply set_log_view in Hv1 as [Hlog1 Hexp1].
  - cbn in Hrun. injection Hrun as <- <-. exists H. split; [by eapply log_inv_deny|].
    intros T. cbn [rolling]. by rewrite overLimit_blocks.
  - cbn in Hrun. injection Hrun as <- <-. exists (replicate (Z.to_nat (Cost req cfg)) (w_clock w) ++ H).
    split.
    { eapply (log_inv_admit w w1 H (w_clock w)); try done; lia. }
    intros T. rewrite between_app, between_replicate.
    cbn [rolling allowed dec_Allowed dec_ResetAt andb].
    unfold time_Add. replace (w_clock w + window - window) with (w_clock w) by lia.
    destruct (_ && _); lia.
Qed.

Lemma rolling_play es w H :
  0 < window -> Forall (log_event policy key) es -> log_inv w H ->
  forall T, between (T - window) T H + sumZ (rolling window T <$> (play es w).1) <= limit.
Proof.
  intros Hw Hes. revert w H. induction Hes as [|e es He _ IH]; intros w H Hinv T; cbn [play].
  { pose proof (li_limit w H Hinv T). simpl. lia. }
  destruct He as [req Hcost|d Hd|]; cbn [play1].
  - destruct (run memory (log_client policy key req) w) as [a w1] eqn:Er.
    destruct (log_inv_serve w H req a w1 Hw Hcost Hinv Er) as (H' & Hinv' & Hb).
    specialize (IH w1 H' Hinv' T). destruct (play es w1) as [l w2]. cbn [fst] in *.
    rewrite fmap_cons. unfold sumZ in *. cbn [foldr]. rewrite Hb in IH. lia.
  - specialize (IH _ H (log_inv_wait w H d Hinv Hd) T). destruct (play es _) as [l w2]. exact IH.
  - specialize (IH _ H (log_inv_sweep w H Hinv) T). destruct (play es _) as [l w2]. exact IH.
Qed.
End Rolling.

(** C3 (kind: safety).  The sliding log, asked by one request at a time, is exact: whenever the requests
    come and the collector runs, what the log held to begin with and the cost of the
    requests that are allowed add up to no more than the limit in every rolling window,
    that is between [T - window] and [T] for every instant [T]; provided the policy's
    action blocks what is over the limit, the window has a positive length, no cost
    takes the limit out of the range of an int64, and what the log holds to begin with
    is of the past, within the limit and not about to be forgotten. *)
Theorem sliding_log_exact (policy : Policy) (key : string) (w : World)
    (es : list (event (int64 * result Decision))) (T : Time) :
  let window := WindowDuration (pol_Algorithm policy) in
  let limit := effective_limit (pol_Algorithm policy) in
  let log := log_of w (logKey key) in
  blocking (pol_Action policy) = true -> 0 < window -> wf_store (w_store w) ->
  Forall (fun t => t <= w_clock w) log -> (forall T', between (T' - window) T' log <= limit) ->
  (forall e, log_expiry w (logKey key) = Some e -> Forall (fun t => t + window <= e) log) ->
  Forall (log_event policy key) es ->
  between (T - window) T log + sumZ (rolling window T <$> (play es w).1) <= limit.
Proof.
  intros window limit log Hb Hw Hwf Hpast Hlim Hexp Hes. apply (rolling_play policy key Hb es w log Hw Hes).
  split; [done|done| |done|done]. by exists (w_clock w - window).
Qed.

(** ** The atomic path and the fallback agree *)


(** Appending one by one and sorting each time is sorting once. *)
Lemma Before_sorted_unique l1 l2 : l1 ≡ₚ l2 -> sort_by Before l1 = sort_by Before l2.
Proof.
  intros H. assert (Hasym : forall x y, Before x y = true -> Before y x = false)
    by (unfold Before; intros; zify_bool; by apply Z.ltb_ge; lia).
  assert (Htrans : Transitive (not_after Before))
    by (unfold not_after, Before; intros x y z ? ?; zify_bool; apply Z.ltb_ge; lia).
  assert (Hanti : AntiSymm (=) (not_after Before))
    by (unfold not_after, Before; intros x y ? ?; zify_bool; lia).
  apply (StronglySorted_unique (not_after Before)); [by apply sort_by_sorted..|].
  by rewrite !sort_by_Permutation.
Qed.

Lemma run_addTimestamps {A} (f : result unit -> prog A) n w key ts ttl :
  wf_store (w_store w) ->
  exists w', run memory (addTimestamps (S n) key ts ttl ≫= f) w = run memory (f (Ok ())) w' /\
    wf_store (w_store w') /\ w_clock w' = w_clock w /\
    view (w_store w') key =
      set_log (sort_by Before (log_of w key ++ replicate (S n) ts)) (log_touch ttl (w_clock w) (log_expiry w key))
        (view (w_store w) key) /\
    forall k, k <> key -> view (w_store w') k = view (w_store w) k.
Proof.
  revert w. induction n as [|n IH]; intros w Hwf; cbn [addTimestamps];
    unfold try_bind, call, mbind, prog_mbind; cbn [prog_bind];
    (match goal with |- context [run memory (Call _ ?g) w] =>
      destruct (run_AddTimestamp g w key ts ttl Hwf) as (w1 & -> & Hwf1 & Hc1 & Hv1 & Ho1) end).
  - by exists w1.
  - destruct (IH w1 Hwf1) as (w2 & Hrun & Hwf2 & Hc2 & Hv2 & Ho2). exists w2.
    split_and!; [exact Hrun|done|congruence| |intros k Hk; by rewrite Ho2, Ho1].
    rewrite Hv2. destruct (set_log_view _ _ _ _ _ Hv1) as [-> ->]. rewrite Hv1, Hc1.
    unfold set_log, log_touch. cbn. f_equal; [|by destruct (0 <? ttl)]. f_equal. apply Before_sorted_unique.
    rewrite sort_by_Permutation, <- app_assoc. done.
Qed.

(** On a store left alone and a log that has not expired, the fallback path
    (trim, count, then add entry by entry) gives the decision of the atomic path
    and leaves the same store behind. *)
Theorem fallback_equiv (clk : Clock) (policy : Policy) (req : RequestContext) (key : string) (w : World) :
  wf_store (w_store w) -> (forall e, log_expiry w (logKey key) = Some e -> w_clock w < e) ->
  (run memory (Evaluate false clk policy req key) w).1 = (run memory (Evaluate true clk policy req key) w).1 /\
  same_store (run memory (Evaluate false clk policy req key) w).2
             (run memory (Evaluate true clk policy req key) w).2.
Proof.
  intros Hwf Hexp. unfold Evaluate, eval_now, try_bind, call, mbind, prog_mbind. cbn [prog_bind mret prog_mret].
  repeat match goal with |- context [run memory (Call TimeNow ?f) w] =>
    change (run memory (Call TimeNow f) w) with (run memory (f (w_clock w)) w) end. cbn [prog_bind].
  set (now := default (w_clock w) (clk_Now clk)). set (cfg := pol_Algorithm policy).
  set (cutoff := time_Add now (wrap64 (- WindowDuration cfg))). set (lk := logKey key) in *.
  match goal with |- context [run memory (Call (TrimBefore lk cutoff) ?f) w] =>
    destruct (run_TrimBefore f w lk cutoff Hwf) as (w1 & -> & Hwf1 & Hc1 & Hv1 & Ho1) end.
  destruct (set_log_view _ _ _ _ _ Hv1) as [Hl1 He1]. cbn [prog_bind].
  match goal with |- context [run memory (Call (CountAfter lk cutoff) ?f) w1] =>
    destruct (run_CountAfter f w1 lk cutoff Hwf1) as (w2 & -> & Hwf2 & Hc2 & Hv2 & Ho2) end.
  { rewrite He1, Hc1. exact Hexp. }
  match goal with |- context [run memory (Call (CheckAndAddTimestamps lk _ ?l ?c _ ?t) ?f) w] =>
    destruct (run_CheckAndAdd f w lk cutoff l c now t Hwf) as (w3 & -> & Hwf3 & Hc3 & Hv3 & Ho3) end.
  rewrite Hl1, since_since by lia. cbn [prog_bind].
  rewrite <- Hv2 in Hv1. destruct (set_log_view _ _ _ _ _ Hv1) as [Hl2 He2].
  destruct (effective_limit cfg <? _) eqn:E; cbn [negb prog_bind].
  - cbn. split; [by rewrite Hc3, Hc2, Hc1|]. split; [cbn; congruence|]. intros k. cbn.
    destruct (decide (k = lk)) as [->|Hk]; [by rewrite Hv3|]. by rewrite Ho2, Ho1, Ho3.
  - pose proof (Cost_pos req cfg) as Hcost. destruct (Z.to_nat (Cost req cfg)) as [|n] eqn:En; [lia|].
    match goal with |- context [run memory (prog_bind ?f (addTimestamps (S n) lk now ?t)) w2] =>
      destruct (run_addTimestamps f n w2 lk now t Hwf2) as (w4 & Hrun & Hwf4 & Hc4 & Hv4 & Ho4) end.
    unfold mbind, prog_mbind in Hrun. rewrite Hrun. cbn. split; [done|]. split; [cbn; congruence|]. intros k. cbn.
    destruct (decide (k = lk)) as [->|Hk]; [|by rewrite Ho4, Ho2, Ho1, Ho3].
    rewrite Hv4, Hv3, Hl2, He2, Hv1, Hc2, Hc1. done.
Qed.

(** ** Examples *)

Definition log_policy (limit : int64) : Policy :=
  mkPolicy "l" zeroScope (mkConfig AlgoSlidingWindowLog limit "1s") ActionDeny.
Definition log_world : World := {| w_clock := 1000; w_store := NewSharded 1 |}.
Definition log_events : list (event (int64 * result Decision)) :=
  [Serve (log_client (log_policy 3) "k" (mkRequest 2)); Wait (Second / 2);
   Serve (log_client (log_policy 3) "k" (mkRequest 1)); Serve (log_client (log_policy 3) "k" (mkRequest 1));
   Wait (Second / 2 + 1); Sweep; Serve (log_client (log_policy 3) "k" (mkRequest 2))].

Lemma sliding_log_exact_witness :
  sumZ (rolling Second (1000 + Second / 2) <$> (play log_events log_world).1) = 3 /\
  between (1000 + Second / 2 - Second) (1000 + Second / 2) (log_of log_world (logKey "k")) +
  sumZ (rolling (WindowDuration (pol_Algorithm (log_policy 3))) (1000 + Second / 2)
          <$> (play log_events log_world).1) <= 3.
Proof.
  split; [by vm_compute|].
  apply (sliding_log_exact (log_policy 3) "k" log_world log_events (1000 + Second / 2)); [done..|by vm_compute| |done|].
  { intros T. by vm_compute. }
  repeat constructor; by vm_compute.
Defined.

Lemma fallback_equiv_witness :
  let clk := {| clk_Now := None; clk_Loc := 0 |} in
  (run memory (Evaluate false clk (log_policy 3) (mkRequest 2) "k") log_world).1
  = (run memory (Evaluate true clk (log_policy 3) (mkRequest 2) "k") log_world).1 /\
  (run memory (Evaluate true clk (log_policy 3) (mkRequest 2) "k") log_world).1
  = Ok (allowed "within_sliding_log" 1 (Second + 1000)).
Proof.
  split; [|by vm_compute].
  apply (fallback_equiv {| clk_Now := None; clk_Loc := 0 |} (log_policy 3) (mkRequest 2) "k" log_world); done.
Defined.

(** At the very instant a log expires the paths differ: the atomic path still counts
    an entry that is exactly one window old, the fallback has forgotten it. *)
Example fallback_differs_at_expiry :
  let clk := {| clk_Now := None; clk_Loc := 0 |} in
  let es atomic := [Serve (Evaluate atomic clk (log_policy 1) (mkRequest 1) "k"); Wait Second;
                    Serve (Evaluate atomic clk (log_policy 1) (mkRequest 1) "k")] in
  fmap (M := option) is_allowed <$> (play (es true) log_world).1 = [Some true; None; Some false] /\
  fmap (M := option) is_allowed <$> (play (es false) log_world).1 = [Some true; None; Some true].
Proof. by vm_compute. Qed.
