(* ===== verification/SlidingCounter.v ===== *)
(** * internal/algorithm/slidingcounter: the sliding window approximation

    Traffic is estimated from the counters of the current and of the previous
    window, the latter weighted by the part of it the rolling window still covers. *)

From S2P Require Import Prelude GoString GoFloat GoTime Model Store Protocol Common MemoryStore CasLimit.
Local Open Scope Z_scope.
Local Open Scope stdpp_scope.
Local Open Scope go_scope.

(** [fmt.Sprintf("%s:swc:%d", key, start.UnixNano())]. *)
Definition counterKey (key : string) (start : Time) : string :=
  key +:+ ":swc:" +:+ FormatInt (UnixNano start).

(** [limit := float64(policy.Algorithm.Limit); if limit <= 0 { limit = 1 }]. *)
Definition float_limit (cfg : AlgorithmConfig) : float64 :=
  let limit := float_of_Z (cfg_Limit cfg) in if fleb limit fzero then fone else limit.

(** [weight := float64(window-elapsed) / float64(window)], at least zero. *)
Definition previous_weight (window elapsed : Duration) : float64 :=
  let weight := fdiv (float_of_Z (window -! elapsed)) (float_of_Z window) in
  if fltb weight fzero then fzero else weight.

(** [float64(curCount+cost) + (float64(prevCount) * weight)]. *)
Definition estimate (curCount cost prevCount : int64) (weight : float64) : float64 :=
  fadd (float_of_Z (curCount +! cost)) (fmul (float_of_Z prevCount) weight).

Fixpoint swc_loop (attempts : nat) (policy : Policy) (curKey : string) (limit : float64) (cost prevCount : int64)
    (weight : float64) (window retryAfter : Duration) (resetAt : Time) : prog (result Decision) :=
  match attempts with
  | O => d ← OverLimitDecision policy retryAfter 0 "sliding_window_contention"; mret (Ok d)
  | S n =>
      let! curCount := call (Get curKey) in
      let estimated := estimate curCount cost prevCount weight in
      if fgtb estimated limit then
        d ← OverLimitDecision policy retryAfter 0 "sliding_window_limit_exceeded"; mret (Ok d)
      else
        let! swapped := call (CompareAndSwap curKey curCount (curCount +! cost) (2 *! window)) in
        if (swapped : bool) then
          mret (Ok (allowed "within_sliding_window" (int64_of_float (fsub limit estimated)) resetAt))
        else swc_loop n policy curKey limit cost prevCount weight window retryAfter resetAt
  end.

Definition Evaluate (clk : Clock) (policy : Policy) (req : RequestContext) (key : string)
    : prog (result Decision) :=
  now ← eval_now clk;
  let cfg := pol_Algorithm policy in
  let window := if WindowDuration cfg <=? 0 then Minute else WindowDuration cfg in
  let cost := Cost req cfg in
  let curStart := WindowStart now (clk_Loc clk) cfg in
  let prevStart := time_Add curStart (wrap64 (- window)) in
  let curKey := counterKey key curStart in
  let prevKey := counterKey key prevStart in
  let limit := float_limit cfg in
  let weight := previous_weight window (time_Sub now curStart) in
  let resetAt := time_Add curStart window in
  let retryAfter := time_Sub resetAt now in
  let! prevCount := call (Get prevKey) in
  swc_loop (Z.to_nat (maxRetries cfg)) policy curKey limit cost prevCount weight window retryAfter resetAt.

(** ** One client at a time *)

(** A request served alone is admitted exactly when the weighted estimate of the
    traffic, its own cost included, does not exceed the limit.  An admission
    charges the current window and nothing else; a denial charges nothing. *)
Theorem sliding_counter_alone (clk : Clock) (policy : Policy) (req : RequestContext) (key : string) (w : World) :
  wf_store (w_store w) ->
  let cfg := pol_Algorithm policy in
  let now := default (w_clock w) (clk_Now clk) in
  let window := if WindowDuration cfg <=? 0 then Minute else WindowDuration cfg in
  let curStart := WindowStart now (clk_Loc clk) cfg in
  let curKey := counterKey key curStart in
  let prevKey := counterKey key (time_Add curStart (wrap64 (- window))) in
  let cur := counter_value w curKey in
  let estimated := estimate cur (Cost req cfg) (counter_value w prevKey)
                     (previous_weight window (time_Sub now curStart)) in
  let denied := fgtb estimated (float_limit cfg) in
  let w' := (run memory (Evaluate clk policy req key) w).2 in
    (run memory (Evaluate clk policy req key) w).1 =
      Ok (if denied
          then overLimit (w_clock w) policy (time_Sub (time_Add curStart window) now) 0
                 "sliding_window_limit_exceeded"
          else allowed "within_sliding_window" (int64_of_float (fsub (float_limit cfg) estimated))
                 (time_Add curStart window)) /\
    counter_value w' curKey = (if denied then cur else cur +! Cost req cfg) /\
    forall k, k <> curKey -> counter_value w' k = counter_value w k.
Proof.
  intros Hwf cfg now window curStart curKey prevKey cur estimated denied. cbv zeta.
  unfold Evaluate, eval_now, try_bind, call, mbind, prog_mbind. cbn [prog_bind mret prog_mret].
  next_call w0 Hu0. fold cfg. fold now. fold window. fold curStart. fold curKey. fold prevKey.
  next_call w1 Hu1. pose proof Hu1 as (Hwf1 & Hc1 & _). pose proof (fun k => unchanged_value _ _ k Hu1) as Hv1.
  destruct (Z.to_nat (maxRetries cfg)) as [|n] eqn:En; [pose proof (maxRetries_pos cfg); lia|].
  cbn [swc_loop]. unfold try_bind, call, mbind, prog_mbind. cbn [prog_bind].
  next_call w2 Hu2. pose proof Hu2 as (Hwf2 & Hc2 & _). pose proof (fun k => unchanged_value _ _ k Hu2) as Hv2. rewrite Hv1.
  fold cur. fold estimated. fold denied. destruct denied.
  - split; [cbn; by rewrite Hc2, Hc1|]. cbn.
    split; [|intros k _]; by rewrite Hv2, Hv1.
  - assert (Hcur : counter_value w2 curKey = cur) by by rewrite Hv2, Hv1.
    next_call w3 Hu3. split; [done|]. cbn. pose proof (fun k => writes_value _ _ _ _ _ k Hu3) as Hv3.
    split; [by rewrite Hv3, decide_True|]. intros k Hk. by rewrite Hv3, decide_False, Hv2, Hv1.
Qed.

(** ** Examples *)

Definition swc_policy (limit : int64) (window : string) : Policy :=
  mkPolicy "s" zeroScope (mkConfig AlgoSlidingWindowCnt limit window) ActionDeny.
Definition swc_world : World := {| w_clock := 0; w_store := NewSharded 1 |}.
Definition swc_clock : Clock := {| clk_Now := None; clk_Loc := 0 |}.

Lemma sliding_counter_alone_witness :
  (run memory (Evaluate swc_clock (swc_policy 3 "1s") (mkRequest 2) "k") swc_world).1
  = Ok (allowed "within_sliding_window" 1 Second).
Proof.
  destruct (sliding_counter_alone swc_clock (swc_policy 3 "1s") (mkRequest 2) "k" swc_world) as [-> _];
    [done|by vm_compute].
Defined.

(** Four requests in one window, then two in the middle of the next: half of the
    previous count still weighs in. *)
Example sliding_counter_weighs :
  let p := swc_policy 4 "1s" in
  let serve n := Serve (Evaluate swc_clock p (mkRequest n) "k") in
  fmap (M := option) is_allowed <$>
    (play [serve 4; serve 1; Wait (Second + Second / 2); serve 3; serve 2; serve 1] swc_world).1
  = [Some true; Some false; None; Some false; Some true; Some false].
Proof. by vm_compute. Qed.

(** With a monthly window the previous window is taken to start 30 days earlier,
    where no month starts: the traffic of the end of January does not count in
    February. *)
Example sliding_counter_month_forgets :
  let p := swc_policy 4 "month" in
  let serve n := Serve (Evaluate swc_clock p (mkRequest n) "k") in
  fmap (M := option) is_allowed <$>
    (play [Wait (30 * Day); serve 4; serve 1; Wait Day; serve 4] swc_world).1
  = [None; Some true; Some false; None; Some true].
Proof. by vm_compute. Qed.
