(* ===== verification/TokenBucket.v ===== *)
(** * internal/algorithm/tokenbucket: continuous refill *)

From S2P Require Import Prelude GoString GoFloat GoTime Model Store Protocol Common MemoryStore CasLimit.
Local Open Scope Z_scope.
Local Open Scope stdpp_scope.
Local Open Scope go_scope.

Definition bucket_capacity (cfg : AlgorithmConfig) : int64 :=
  let capacity := if cfg_Burst cfg <=? 0 then cfg_Limit cfg else cfg_Burst cfg in
  if capacity <=? 0 then 1 else capacity.

Definition refill_rate (cfg : AlgorithmConfig) : float64 :=
  if fleb (cfg_RefillRate cfg) fzero then
    let rate := fdiv (float_of_Z (cfg_Limit cfg)) (Seconds (WindowDuration cfg)) in
    if fleb rate fzero then fone else rate
  else cfg_RefillRate cfg.

Definition tokensKey (key : string) : string := key +:+ ":tb:tokens".
Definition tsKey (key : string) : string := key +:+ ":tb:ts".
Definition bucket_ttl : Duration := 2 * Hour.

(** The tokens in the bucket at [now], from the stored count of thousandths and
    the instant of the last update (zero when there was none). *)
Definition refilled (capacity : int64) (refillRate : float64) (oldTokenMilli lastNanos : int64) (now : Time) : float64 :=
  let '(curTokens, lastNanos) :=
    if lastNanos =? 0 then (float_of_Z capacity, UnixNano now)
    else (fdiv (float_of_Z oldTokenMilli) (float_of_Z 1000), lastNanos) in
  let elapsed := fdiv (float_of_Z (UnixNano now -! lastNanos)) (float_of_Z Second) in
  let elapsed := if fltb elapsed fzero then fzero else elapsed in
  math_Min (float_of_Z capacity) (fadd curTokens (fmul elapsed refillRate)).

(** [for i := 0; i < n; i++ { if Set(...) == nil { break } }]. *)
Fixpoint set_best_effort (n : nat) (key : string) (value : int64) (ttl : Duration) : prog unit :=
  match n with
  | O => mret ()
  | S n' => r ← call (SetVal key value ttl);
            match r with Ok _ => mret () | Err _ => set_best_effort n' key value ttl end
  end.

Fixpoint tb_loop (attempts : nat) (policy : Policy) (key : string) (capacity : int64) (refillRate cost : float64)
    (now : Time) : prog (result Decision) :=
  match attempts with
  | O => d ← OverLimitDecision policy (10 * Millisecond) 0 "token_bucket_contention"; mret (Ok d)
  | S n =>
      let! oldTokenMilli := call (Get (tokensKey key)) in
      let! lastNanos := call (Get (tsKey key)) in
      let curTokens := refilled capacity refillRate oldTokenMilli lastNanos now in
      if fltb curTokens cost then
        let missing := fsub cost curTokens in
        let retry := int64_of_float (fmul (fdiv missing refillRate) (float_of_Z Second)) in
        d ← OverLimitDecision policy retry (int64_of_float curTokens) "token_bucket_depleted"; mret (Ok d)
      else
        let newTokens := fsub curTokens cost in
        let newTokenMilli := int64_of_float (math_Round (fmul newTokens (float_of_Z 1000))) in
        let! swapped := call (CompareAndSwap (tokensKey key) oldTokenMilli newTokenMilli bucket_ttl) in
        if negb swapped then tb_loop n policy key capacity refillRate cost now
        else
          _ ← set_best_effort 3 (tsKey key) (UnixNano now) bucket_ttl;
          mret (Ok (allowed "token_available" (int64_of_float newTokens) zeroTime))
  end.

Definition Evaluate (clk : Clock) (policy : Policy) (req : RequestContext) (key : string)
    : prog (result Decision) :=
  now ← eval_now clk;
  let cfg := pol_Algorithm policy in
  tb_loop (Z.to_nat (maxRetries cfg)) policy key (bucket_capacity cfg) (refill_rate cfg)
    (float_of_Z (Cost req cfg)) now.

(** ** One client at a time *)

Lemma keys_differ key : tokensKey key <> tsKey key.
Proof. unfold tokensKey, tsKey. intros H. by apply str_app_inj_l in H. Qed.

(** What a request served alone does to the store. *)
Lemma token_bucket_run (clk : Clock) (policy : Policy) (req : RequestContext) (key : string) (w : World) :
  wf_store (w_store w) ->
  let cfg := pol_Algorithm policy in
  let now := default (w_clock w) (clk_Now clk) in
  let cost := float_of_Z (Cost req cfg) in
  let tokens := refilled (bucket_capacity cfg) (refill_rate cfg)
                  (counter_value w (tokensKey key)) (counter_value w (tsKey key)) now in
  let left := fsub tokens cost in
  let retry := int64_of_float (fmul (fdiv (fsub cost tokens) (refill_rate cfg)) (float_of_Z Second)) in
  let '(r, w') := run memory (Evaluate clk policy req key) w in
  if fltb tokens cost
  then r = Ok (overLimit (w_clock w) policy retry (int64_of_float tokens) "token_bucket_depleted") /\
       unchanged w w'
  else r = Ok (allowed "token_available" (int64_of_float left) zeroTime) /\
       exists w1, writes w w1 (tokensKey key) (int64_of_float (math_Round (fmul left (float_of_Z 1000)))) bucket_ttl /\
                  writes w1 w' (tsKey key) (UnixNano now) bucket_ttl.
Proof.
  intros Hwf cfg now cost tokens left retry.
  unfold Evaluate, eval_now, mbind, prog_mbind, call. cbn [prog_bind mret prog_mret].
  next_call w0 Hu0. fold now. fold cfg.
  destruct (Z.to_nat (maxRetries cfg)) as [|n] eqn:En; [pose proof (maxRetries_pos cfg); lia|].
  cbn [tb_loop]. unfold try_bind, call, mbind, prog_mbind. cbn [prog_bind].
  next_call w1 Hu1. pose proof Hu1 as (Hwf1 & Hc1 & _).
  next_call w2 Hu2. pose proof (unchanged_trans _ _ _ Hu1 Hu2) as Hu. pose proof Hu as (Hwf2 & Hc2 & _).
  rewrite (unchanged_value w w1) by done. fold cost. fold tokens. destruct (fltb tokens cost).
  - cbn. rewrite Hc2. by split.
  - fold left. pose proof (unchanged_value w w2 (tokensKey key) Hu) as Htok. next_call w3 Hu3.
    pose proof (unchanged_writes _ _ _ _ _ _ Hu Hu3) as Hw3. pose proof Hu3 as (Hwf3 & _ & _).
    cbn [negb set_best_effort]. unfold call, mbind, prog_mbind. cbn [prog_bind].
    next_call w4 Hu4. cbn. split; [done|]. by exists w3.
Qed.

(** A request served alone is admitted exactly when the refilled bucket holds its
    cost.  An admission takes the cost out of the bucket, to the thousandth of a
    token, and restarts the refill clock; a denial changes nothing. *)
Theorem token_bucket_alone (clk : Clock) (policy : Policy) (req : RequestContext) (key : string) (w : World) :
  wf_store (w_store w) ->
  let cfg := pol_Algorithm policy in
  let now := default (w_clock w) (clk_Now clk) in
  let cost := float_of_Z (Cost req cfg) in
  let tokens := refilled (bucket_capacity cfg) (refill_rate cfg)
                  (counter_value w (tokensKey key)) (counter_value w (tsKey key)) now in
  let left := fsub tokens cost in
  let retry := int64_of_float (fmul (fdiv (fsub cost tokens) (refill_rate cfg)) (float_of_Z Second)) in
  let '(r, w') := run memory (Evaluate clk policy req key) w in
  if fltb tokens cost
  then r = Ok (overLimit (w_clock w) policy retry (int64_of_float tokens) "token_bucket_depleted") /\
       unchanged w w'
  else r = Ok (allowed "token_available" (int64_of_float left) zeroTime) /\
       counter_value w' (tokensKey key) = int64_of_float (math_Round (fmul left (float_of_Z 1000))) /\
       counter_value w' (tsKey key) = UnixNano now /\
       forall k, k <> tokensKey key -> k <> tsKey key -> counter_value w' k = counter_value w k.
Proof.
  intros Hwf cfg now cost tokens left retry. pose proof (token_bucket_run clk policy req key w Hwf) as H. cbv zeta in H.
  fold cfg now cost in H. fold tokens in H. fold left retry in H. destruct (run memory _ w) as [r w'].
  destruct (fltb tokens cost); [done|]. destruct H as (-> & w1 & H1 & H2). split; [done|].
  by apply (two_writes w w1 w' _ _ _ _ _ _ (keys_differ key) H1 H2).
Qed.

(** ** Examples *)

Definition tb_policy (limit : int64) (window : string) : Policy :=
  mkPolicy "t" zeroScope (mkConfig AlgoTokenBucket limit window) ActionDeny.
Definition tb_world : World := {| w_clock := 1000; w_store := NewSharded 1 |}.
Definition tb_clock : Clock := {| clk_Now := None; clk_Loc := 0 |}.

Lemma token_bucket_alone_witness :
  (run memory (Evaluate tb_clock (tb_policy 10 "1s") (mkRequest 4) "k") tb_world).1
  = Ok (allowed "token_available" 6 zeroTime).
Proof.
  pose proof (token_bucket_alone tb_clock (tb_policy 10 "1s") (mkRequest 4) "k" tb_world ltac:(done)) as H.
  cbv zeta in H. destruct (run memory _ tb_world) as [r w'] eqn:E. clear -H.
  replace (fltb _ _) with false in H by by vm_compute.
  destruct H as [-> _]. by vm_compute.
Defined.

(** The bucket empties, and refills at ten tokens a second. *)
Example token_bucket_refills :
  let serve n := Serve (Evaluate tb_clock (tb_policy 10 "1s") (mkRequest n) "k") in
  fmap (M := option) is_allowed <$>
    (play [serve 10; serve 1; Wait (Second / 5); serve 3; serve 2; serve 1] tb_world).1
  = [Some true; Some false; None; Some false; Some true; Some false].
Proof. by vm_compute. Qed.

(** With a window of length zero and no refill rate the rate is infinite, and an
    empty bucket refilled for no time holds [0 * Inf], not a number, which is not
    less than any cost: every request is admitted. *)
Example token_bucket_zero_window :
  let serve n := Serve (Evaluate tb_clock (tb_policy 10 "0s") (mkRequest n) "k") in
  fmap (M := option) is_allowed <$> (play [serve 10; serve 10; serve 1000] tb_world).1
  = [Some true; Some true; Some true].
Proof. by vm_compute. Qed.
