(* ===== verification/LeakyBucket.v ===== *)
(** * internal/algorithm/leakybucket: constant drain *)

From S2P Require Import Prelude GoString GoFloat GoTime Model Store Protocol Common MemoryStore CasLimit TokenBucket.
Local Open Scope Z_scope.
Local Open Scope stdpp_scope.
Local Open Scope go_scope.

Definition leak_rate (cfg : AlgorithmConfig) : float64 :=
  if fleb (cfg_LeakRate cfg) fzero then fone else cfg_LeakRate cfg.

Definition levelKey (key : string) : string := key +:+ ":lb:level".
Definition levelTsKey (key : string) : string := key +:+ ":lb:ts".

(** [ttl := 2 * window; if ttl < 2*time.Hour { ttl = 2 * time.Hour }]. *)
Definition level_ttl (window : Duration) : Duration :=
  let ttl := 2 *! window in if ttl <? 2 * Hour then 2 * Hour else ttl.

(** The level at [now] after the leak and with the cost added. *)
Definition leaked (leakRate : float64) (cost oldLevelMilli lastNanos : int64) (now : Time) : float64 :=
  let curLevel := fdiv (float_of_Z oldLevelMilli) (float_of_Z 1000) in
  let lastNanos := if lastNanos =? 0 then UnixNano now else lastNanos in
  let elapsed := fdiv (float_of_Z (UnixNano now -! lastNanos)) (float_of_Z Second) in
  let elapsed := if fltb elapsed fzero then fzero else elapsed in
  fadd (math_Max fzero (fsub curLevel (fmul elapsed leakRate))) (float_of_Z cost).

Fixpoint lb_loop (attempts : nat) (policy : Policy) (key : string) (limit : int64) (leakRate : float64)
    (cost : int64) (ttl : Duration) (now : Time) : prog (result Decision) :=
  match attempts with
  | O => d ← OverLimitDecision policy (10 * Millisecond) 0 "leaky_bucket_contention"; mret (Ok d)
  | S n =>
      let! oldLevelMilli := call (Get (levelKey key)) in
      let! lastNanos := call (Get (levelTsKey key)) in
      let curLevel := leaked leakRate cost oldLevelMilli lastNanos now in
      if fgtb curLevel (float_of_Z limit) then
        let overflow := fsub curLevel (float_of_Z limit) in
        let retry := int64_of_float (fmul (fdiv overflow leakRate) (float_of_Z Second)) in
        d ← OverLimitDecision policy retry 0 "leaky_bucket_overflow"; mret (Ok d)
      else
        let newLevelMilli := int64_of_float (math_Round (fmul curLevel (float_of_Z 1000))) in
        let! swapped := call (CompareAndSwap (levelKey key) oldLevelMilli newLevelMilli ttl) in
        if negb swapped then lb_loop n policy key limit leakRate cost ttl now
        else
          _ ← set_best_effort 3 (levelTsKey key) (UnixNano now) ttl;
          mret (Ok (allowed "within_leaky_bucket" (int64_of_float (fsub (float_of_Z limit) curLevel)) zeroTime))
  end.

Definition Evaluate (clk : Clock) (policy : Policy) (req : RequestContext) (key : string)
    : prog (result Decision) :=
  now ← eval_now clk;
  let cfg := pol_Algorithm policy in
  lb_loop (Z.to_nat (maxRetries cfg)) policy key (effective_limit cfg) (leak_rate cfg)
    (Cost req cfg) (level_ttl (WindowDuration cfg)) now.

(** ** One client at a time *)

Lemma level_keys_differ key : levelKey key <> levelTsKey key.
Proof. unfold levelKey, levelTsKey. intros H. by apply str_app_inj_l in H. Qed.

(** What a request served alone does to the store. *)
Lemma leaky_bucket_run (clk : Clock) (policy : Policy) (req : RequestContext) (key : string) (w : World) :
  wf_store (w_store w) ->
  let cfg := pol_Algorithm policy in
  let now := default (w_clock w) (clk_Now clk) in
  let limit := float_of_Z (effective_limit cfg) in
  let level := leaked (leak_rate cfg) (Cost req cfg)
                 (counter_value w (levelKey key)) (counter_value w (levelTsKey key)) now in
  let retry := int64_of_float (fmul (fdiv (fsub level limit) (leak_rate cfg)) (float_of_Z Second)) in
  let '(r, w') := run memory (Evaluate clk policy req key) w in
  if fgtb level limit
  then r = Ok (overLimit (w_clock w) policy retry 0 "leaky_bucket_overflow") /\ unchanged w w'
  else r = Ok (allowed "within_leaky_bucket" (int64_of_float (fsub limit level)) zeroTime) /\
       exists w1, writes w w1 (levelKey key) (int64_of_float (math_Round (fmul level (float_of_Z 1000))))
                    (level_ttl (WindowDuration cfg)) /\
                  writes w1 w' (levelTsKey key) (UnixNano now) (level_ttl (WindowDuration cfg)).
Proof.
  intros Hwf cfg now limit level retry.
  unfold Evaluate, eval_now, mbind, prog_mbind, call. cbn [prog_bind mret prog_mret].
  next_call w0 Hu0. fold now. fold cfg.
  destruct (Z.to_nat (maxRetries cfg)) as [|n] eqn:En; [pose proof (maxRetries_pos cfg); lia|].
  cbn [lb_loop]. unfold try_bind, call, mbind, prog_mbind. cbn [prog_bind].
  next_call w1 Hu1. pose proof Hu1 as (Hwf1 & Hc1 & _).
  next_call w2 Hu2. pose proof (unchanged_trans _ _ _ Hu1 Hu2) as Hu. pose proof Hu as (Hwf2 & Hc2 & _).
  rewrite (unchanged_value w w1) by done. fold limit. fold level. destruct (fgtb level limit).
  - cbn. rewrite Hc2. by split.
  - pose proof (unchanged_value w w2 (levelKey key) Hu) as Hlev. next_call w3 Hu3.
    pose proof (unchanged_writes _ _ _ _ _ _ Hu Hu3) as Hw3. pose proof Hu3 as (Hwf3 & _ & _).
    cbn [negb set_best_effort]. unfold call, mbind, prog_mbind. cbn [prog_bind].
    next_call w4 Hu4. cbn. split; [done|]. by exists w3.
Qed.

(** A request served alone is admitted exactly when the leaked level with its cost
    on top does not exceed the limit.  An admission stores that level, to the
    thousandth, and restarts the leak clock; a denial changes nothing and asks the
    client to wait for the overflow to drain. *)
Theorem leaky_bucket_alone (clk : Clock) (policy : Policy) (req : RequestContext) (key : string) (w : World) :
  wf_store (w_store w) ->
  let cfg := pol_Algorithm policy in
  let now := default (w_clock w) (clk_Now clk) in
  let limit := float_of_Z (effective_limit cfg) in
  let level := leaked (leak_rate cfg) (Cost req cfg)
                 (counter_value w (levelKey key)) (counter_value w (levelTsKey key)) now in
  let retry := int64_of_float (fmul (fdiv (fsub level limit) (leak_rate cfg)) (float_of_Z Second)) in
  let '(r, w') := run memory (Evaluate clk policy req key) w in
  if fgtb level limit
  then r = Ok (overLimit (w_clock w) policy retry 0 "leaky_bucket_overflow") /\ unchanged w w'
  else r = Ok (allowed "within_leaky_bucket" (int64_of_float (fsub limit level)) zeroTime) /\
       counter_value w' (levelKey key) = int64_of_float (math_Round (fmul level (float_of_Z 1000))) /\
       counter_value w' (levelTsKey key) = UnixNano now /\
       forall k, k <> levelKey key -> k <> levelTsKey key -> counter_value w' k = counter_value w k.
Proof.
  intros Hwf cfg now limit level retry. pose proof (leaky_bucket_run clk policy req key w Hwf) as H. cbv zeta in H.
  fold cfg now limit in H. fold level in H. fold retry in H. destruct (run memory _ w) as [r w'].
  destruct (fgtb level limit); [done|]. destruct H as (-> & w1 & H1 & H2). split; [done|].
  by apply (two_writes w w1 w' _ _ _ _ _ _ (level_keys_differ key) H1 H2).
Qed.

(** ** Examples *)

Definition lb_policy (limit : int64) : Policy :=
  mkPolicy "b" zeroScope (mkConfig AlgoLeakyBucket limit "1s") ActionDeny.
Definition lb_world : World := {| w_clock := 1000; w_store := NewSharded 1 |}.
Definition lb_clock : Clock := {| clk_Now := None; clk_Loc := 0 |}.

Lemma leaky_bucket_alone_witness :
  (run memory (Evaluate lb_clock (lb_policy 5) (mkRequest 2) "k") lb_world).1
  = Ok (allowed "within_leaky_bucket" 3 zeroTime).
Proof.
  pose proof (leaky_bucket_alone lb_clock (lb_policy 5) (mkRequest 2) "k" lb_world ltac:(done)) as H.
  cbv zeta in H. destruct (run memory _ lb_world) as [r w'] eqn:E. clear -H.
  replace (fgtb _ _) with false in H by by vm_compute.
  destruct H as [-> _]. by vm_compute.
Defined.

(** The bucket fills, and drains one unit a second. *)
Example leaky_bucket_drains :
  let serve n := Serve (Evaluate lb_clock (lb_policy 5) (mkRequest n) "k") in
  fmap (M := option) is_allowed <$>
    (play [serve 5; serve 1; Wait (2 * Second); serve 3; serve 2; serve 1] lb_world).1
  = [Some true; Some false; None; Some false; Some true; Some false].
Proof. by vm_compute. Qed.
