(* ===== verification/Matcher.v ===== *)
(** * internal/engine/matcher: which policies apply, and which one wins *)

From Stdlib Require Import Ascii.
From S2P Require Import Prelude GoString GoFloat GoTime Model.
Local Open Scope Z_scope.

(** Empty scope values are wildcards. *)
Definition matchString (scope val : string) : bool := String.eqb scope "" || String.eqb scope val.

(** Every scope field with the request's value of it, in the order of the code. *)
Definition scope_fields (req : RequestContext) (s : PolicyScope) : list (string * string) :=
  [(sc_OrgID s, req_OrgID req); (sc_TenantID s, req_TenantID req);
   (sc_Application s, req_Application req); (sc_Service s, req_Service req);
   (sc_Environment s, req_Environment req); (sc_SignalType s, req_SignalType req);
   (sc_Operation s, req_Operation req); (sc_Endpoint s, req_Endpoint req);
   (sc_Method s, req_Method req); (sc_UserID s, req_UserID req); (sc_APIKey s, req_APIKey req);
   (sc_ClientID s, req_ClientID req); (sc_SourceIP s, req_SourceIP req);
   (sc_Region s, req_Region req); (sc_Resource s, req_Resource req);
   (sc_Severity s, req_Severity req); (sc_SpanName s, req_SpanName req);
   (sc_Topic s, req_Topic req); (sc_ConsumerGroup s, req_ConsumerGroup req);
   (sc_JobType s, req_JobType req)].

(** [for k, v := range s.Tags { if req.Tags[k] != v { return false } }]. *)
Definition matchTags (req : RequestContext) (tags : GoMap) : bool :=
  bool_decide (map_Forall (fun k v => mget (req_Tags req) k = v) (mentries tags)).

Definition matchesScope (req : RequestContext) (s : PolicyScope) : bool :=
  forallb (fun '(scope, val) => matchString scope val) (scope_fields req s) && matchTags req (sc_Tags s).

Definition resolveExprField (req : RequestContext) (field : string) : string :=
  if String.eqb field "org_id" then req_OrgID req
  else if String.eqb field "tenant_id" then req_TenantID req
  else if String.eqb field "application" then req_Application req
  else if String.eqb field "service" then req_Service req
  else if String.eqb field "environment" then req_Environment req
  else if String.eqb field "signal_type" then req_SignalType req
  else if String.eqb field "operation" then req_Operation req
  else if String.eqb field "endpoint" then req_Endpoint req
  else if String.eqb field "method" then req_Method req
  else if String.eqb field "user_id" then req_UserID req
  else if String.eqb field "api_key" then req_APIKey req
  else if String.eqb field "client_id" then req_ClientID req
  else if String.eqb field "source_ip" then req_SourceIP req
  else if String.eqb field "region" then req_Region req
  else if String.eqb field "resource" then req_Resource req
  else if String.eqb field "severity" then req_Severity req
  else if String.eqb field "span_name" then req_SpanName req
  else if String.eqb field "topic" then req_Topic req
  else if String.eqb field "consumer_group" then req_ConsumerGroup req
  else if String.eqb field "job_type" then req_JobType req
  else if HasPrefix field "tag." then mget (req_Tags req) (TrimPrefix field "tag.")
  else "".

(** A clause split at its operator; [true] is [==]. *)
Definition split_clause (clause : string) : option (bool * string * string) :=
  match SplitN2 clause "==" with
  | [l; r] => Some (true, l, r)
  | _ => match SplitN2 clause "!=" with
         | [l; r] => Some (false, l, r)
         | _ => None
         end
  end.

(** The characters of [Trim]'s cutset: double and single quote. *)
Definition quotes : list ascii := [ascii_of_nat 34; ascii_of_nat 39].

Fixpoint evaluateClauses (req : RequestContext) (clauses : list string) : result bool :=
  match clauses with
  | [] => Ok true
  | raw :: rest =>
      let clause := TrimSpace raw in
      if String.eqb clause "" then evaluateClauses req rest
      else match split_clause clause with
           | None => Err ("invalid clause: " +:+ clause)
           | Some (is_eq, l, r) =>
               let left := TrimSpace l in
               let right := Trim (TrimSpace r) quotes in
               let actual := resolveExprField req left in
               if is_eq && negb (String.eqb actual right) then Ok false
               else if negb is_eq && String.eqb actual right then Ok false
               else evaluateClauses req rest
           end
  end.

Definition evaluateExpression (req : RequestContext) (expr : string) : result bool :=
  evaluateClauses req (Split expr "&&").

Definition matchesPolicy (req : RequestContext) (p : Policy) : bool :=
  if negb (matchesScope req (pol_Scope p)) then false
  else
    let expr := match pol_Metadata p with
                | Some _ => TrimSpace (mget (pol_Metadata p) "match_expr")
                | None => ""
                end in
    if String.eqb expr "" then true
    else match evaluateExpression req expr with Ok ok => ok | Err _ => false end.

Definition Match (req : RequestContext) (policies : list Policy) : list Policy :=
  List.filter (matchesPolicy req) policies.

Definition scope_values (s : PolicyScope) : list string :=
  [sc_UserID s; sc_APIKey s; sc_ClientID s; sc_Endpoint s; sc_Method s; sc_Operation s; sc_Service s;
   sc_Application s; sc_TenantID s; sc_OrgID s; sc_SignalType s; sc_Environment s; sc_SourceIP s;
   sc_Region s; sc_Resource s; sc_Severity s; sc_SpanName s; sc_Topic s; sc_ConsumerGroup s; sc_JobType s].

Definition specificityScore (s : PolicyScope) : Z :=
  sumZ ((fun field => if String.eqb field "" then 0 else 10) <$> scope_values s) + mlen (sc_Tags s).

(** The order of [sort.SliceStable]: specificity, then priority, then policy id, the
    larger first. *)
Definition beats (p q : Policy) : bool :=
  let si := specificityScore (pol_Scope p) in
  let sj := specificityScore (pol_Scope q) in
  if negb (si =? sj) then sj <? si
  else if negb (pol_Priority p =? pol_Priority q) then pol_Priority q <? pol_Priority p
  else if negb (String.eqb (pol_PolicyID p) (pol_PolicyID q)) then String.ltb (pol_PolicyID q) (pol_PolicyID p)
  else false.

Definition SelectWinner (policies : list Policy) : result Policy :=
  match sort_by beats policies with
  | [] => Err "no matching policy"
  | winner :: _ => Ok winner
  end.

(** ** The order of policies *)

Lemma beats_true p q :
  beats p q = true <->
  let sp := specificityScore (pol_Scope p) in
  let sq := specificityScore (pol_Scope q) in
  sq < sp \/
  (sq = sp /\ (pol_Priority q < pol_Priority p \/
    (pol_Priority q = pol_Priority p /\ String.ltb (pol_PolicyID q) (pol_PolicyID p) = true))).
Proof.
  unfold beats. cbv zeta.
  destruct (Z.eqb_spec (specificityScore (pol_Scope p)) (specificityScore (pol_Scope q))); cbn [negb];
    [|rewrite Z.ltb_lt; intuition lia].
  destruct (Z.eqb_spec (pol_Priority p) (pol_Priority q)); cbn [negb]; [|rewrite Z.ltb_lt; intuition lia].
  destruct (String.eqb_spec (pol_PolicyID p) (pol_PolicyID q)) as [E|]; cbn [negb]; [|intuition lia].
  rewrite E, str_ltb_irrefl. intuition (done || lia).
Qed.

Lemma beats_false p q :
  beats p q = false <->
  let sp := specificityScore (pol_Scope p) in
  let sq := specificityScore (pol_Scope q) in
  sp < sq \/
  (sp = sq /\ (pol_Priority p < pol_Priority q \/
    (pol_Priority p = pol_Priority q /\ String.ltb (pol_PolicyID q) (pol_PolicyID p) = false))).
Proof.
  unfold beats. cbv zeta.
  destruct (Z.eqb_spec (specificityScore (pol_Scope p)) (specificityScore (pol_Scope q))); cbn [negb];
    [|rewrite Z.ltb_ge; intuition lia].
  destruct (Z.eqb_spec (pol_Priority p) (pol_Priority q)); cbn [negb]; [|rewrite Z.ltb_ge; intuition lia].
  destruct (String.eqb_spec (pol_PolicyID p) (pol_PolicyID q)) as [E|]; cbn [negb]; [|intuition lia].
  rewrite E, str_ltb_irrefl. intuition (done || lia).
Qed.

Lemma beats_asym p q : beats p q = true -> beats q p = false.
Proof.
  rewrite beats_true, beats_false. cbv zeta.
  pose proof (str_ltb_asym (pol_PolicyID q) (pol_PolicyID p)). intuition (lia || congruence).
Qed.

Lemma beats_trans : Transitive (not_after beats).
Proof.
  intros x y z. unfold not_after. rewrite !beats_false. cbv zeta.
  pose proof (str_ltb_false_trans (pol_PolicyID z) (pol_PolicyID y) (pol_PolicyID x)).
  intuition (lia || (right; split; [congruence|]; intuition (lia || (right; split; [congruence|]; auto)))).
Qed.

(** Policies that do not beat each other have the same id. *)
Lemma beats_tie p q : beats p q = false -> beats q p = false -> pol_PolicyID p = pol_PolicyID q.
Proof.
  rewrite !beats_false. cbv zeta. pose proof (str_ltb_total (pol_PolicyID p) (pol_PolicyID q)).
  intuition lia.
Qed.

Lemma SelectWinner_spec l w :
  SelectWinner l = Ok w -> w ∈ l /\ forall q, q ∈ l -> beats q w = false.
Proof.
  unfold SelectWinner. destruct (sort_by beats l) as [|x l'] eqn:E; [done|]. intros [= ->].
  split.
  - rewrite <- (sort_by_Permutation beats l), E. left.
  - intros q Hq. destruct (sort_by_head beats beats_asym beats_trans l w l' E q Hq) as [->|H]; [|done].
    apply beats_false. cbv zeta. rewrite str_ltb_irrefl. auto.
Qed.

Lemma SelectWinner_total l : l <> [] -> exists w, SelectWinner l = Ok w.
Proof.
  unfold SelectWinner. destruct (sort_by beats l) as [|w l'] eqn:E; [|by exists w].
  pose proof (sort_by_Permutation beats l) as Hp. rewrite E in Hp. by apply Permutation_nil in Hp as ->.
Qed.

(** The winner is one of the policies and no policy beats it, by specificity, then
    priority, then id; there is a winner exactly when there is a policy; and when
    ids are distinct the order in which the policies are given is irrelevant. *)
Theorem winner_maximal (policies : list Policy) :
  match SelectWinner policies with
  | Ok w => w ∈ policies /\ (forall q, q ∈ policies -> beats q w = false) /\
            (NoDup (pol_PolicyID <$> policies) ->
             forall policies', policies' ≡ₚ policies -> SelectWinner policies' = Ok w)
  | Err _ => policies = []
  end.
Proof.
  destruct (SelectWinner policies) as [w|e] eqn:E.
  - destruct (SelectWinner_spec policies w E) as [Hw Hmax]. split_and!; [done..|].
    intros Hnd l' Hl'. destruct (SelectWinner l') as [w'|e'] eqn:E'.
    + destruct (SelectWinner_spec l' w' E') as [Hw' Hmax']. rewrite Hl' in Hw'.
      assert (pol_PolicyID w' = pol_PolicyID w) as Hid.
      { apply beats_tie; [by apply Hmax|]. apply Hmax'. by rewrite Hl'. }
      apply list_elem_of_lookup_1 in Hw as [i Hi], Hw' as [j Hj]. f_equal.
      assert (i = j) as ->; [|congruence].
      eapply (NoDup_lookup (pol_PolicyID <$> policies) i j (pol_PolicyID w)); [done|..];
        rewrite list_lookup_fmap; [rewrite Hi|rewrite Hj]; simpl; congruence.
    + unfold SelectWinner in E'. destruct (sort_by beats l') eqn:Es; [|done].
      pose proof (sort_by_Permutation beats l') as Hp. rewrite Es, Hl' in Hp.
      apply Permutation_nil in Hp. by rewrite Hp in Hw; apply elem_of_nil in Hw.
  - unfold SelectWinner in E. destruct (sort_by beats policies) eqn:Es; [|done].
    pose proof (sort_by_Permutation beats policies) as Hp. rewrite Es in Hp. by apply Permutation_nil in Hp.
Qed.

(** ** Narrower scopes *)

(** [s'] sets everything that [s] sets, to the same values. *)
Definition narrower (s' s : PolicyScope) : Prop :=
  Forall2 (fun v' v => v = "" \/ v' = v) (scope_values s') (scope_values s) /\
  mentries (sc_Tags s) ⊆ mentries (sc_Tags s').

Lemma matchString_true scope val : matchString scope val = true <-> scope = "" \/ scope = val.
Proof. unfold matchString. rewrite orb_true_iff, !String.eqb_eq. done. Qed.

Lemma matchesScope_true req s :
  matchesScope req s = true <->
  Forall (fun '(scope, val) => scope = "" \/ scope = val) (scope_fields req s) /\
  map_Forall (fun k v => mget (req_Tags req) k = v) (mentries (sc_Tags s)).
Proof.
  unfold matchesScope, matchTags. rewrite andb_true_iff, bool_decide_eq_true, forallb_forall, Forall_forall.
  split; intros [H1 H2]; (split; [|done]); intros [scope val] Hin.
  - apply matchString_true. by apply (H1 (scope, val)), list_elem_of_In.
  - apply matchString_true. apply (H1 (scope, val)). by apply list_elem_of_In.
Qed.

(** The score of one field. *)
Definition field_score (field : string) : Z := if String.eqb field "" then 0 else 10.

Lemma narrower_score l' l :
  Forall2 (fun v' v => v = "" \/ v' = v) l' l ->
  sumZ (field_score <$> l) <= sumZ (field_score <$> l') /\
  (sumZ (field_score <$> l) = sumZ (field_score <$> l') -> l = l').
Proof.
  induction 1 as [|v' v l' l Hv _ [IH1 IH2]]; [done|]. rewrite !fmap_cons. unfold sumZ in *. cbn [foldr].
  assert (field_score v <= field_score v' /\ (field_score v = field_score v' -> v = v')) as [Hs1 Hs2].
  { unfold field_score. destruct Hv as [->| ->]; [|split; [lia|done]].
    destruct (String.eqb_spec v' ""); simpl; split; [lia|congruence|lia|done]. }
  split; [lia|]. intros. f_equal; [apply Hs2|apply IH2]; lia.
Qed.

Lemma narrower_field (v' v x : string) : v = "" \/ v' = v -> v' = "" \/ v' = x -> v = "" \/ v = x.
Proof. intuition congruence. Qed.

Lemma narrower_fields req s' s :
  narrower s' s -> Forall (fun '(scope, val) => scope = "" \/ scope = val) (scope_fields req s') ->
  Forall (fun '(scope, val) => scope = "" \/ scope = val) (scope_fields req s).
Proof.
  intros [Hn _] Hf. unfold scope_values, scope_fields in *.
  repeat (apply Forall2_cons in Hn as [? Hn]). repeat (apply Forall_cons in Hf as [? Hf]).
  repeat (apply Forall_cons; split; [eapply narrower_field; eassumption|]). constructor.
Qed.

(** Narrower policies refine broader ones: whatever request a narrower scope
    matches, the broader one matches too, and whenever the two scopes differ the
    policy with the narrower one wins, whatever the priorities and ids. *)
Theorem narrower_wins (req : RequestContext) (p' p : Policy) :
  narrower (pol_Scope p') (pol_Scope p) -> matchesScope req (pol_Scope p') = true ->
  matchesScope req (pol_Scope p) = true /\
  ((scope_values (pol_Scope p'), mentries (sc_Tags (pol_Scope p'))) <>
   (scope_values (pol_Scope p), mentries (sc_Tags (pol_Scope p))) ->
   beats p' p = true /\ SelectWinner [p; p'] = Ok p').
Proof.
  intros Hn Hm. pose proof Hn as [Hf Ht]. apply matchesScope_true in Hm as [Hm1 Hm2].
  split; [apply matchesScope_true; split; [by eapply narrower_fields|]|].
  { intros k v Hk. apply Hm2. by eapply lookup_weaken. }
  intros Hne. assert (Hb : beats p' p = true).
  { apply beats_true. left. cbv zeta. unfold specificityScore, mlen.
    change (fun field : string => if String.eqb field "" then 0 else 10) with field_score.
    destruct (narrower_score _ _ Hf) as [Hs1 Hs2]. pose proof (map_subseteq_size _ _ Ht) as Hsz.
    destruct (Z.eq_dec (sumZ (field_score <$> scope_values (pol_Scope p)))
                       (sumZ (field_score <$> scope_values (pol_Scope p')))) as [E|]; [|lia].
    enough (size (mentries (sc_Tags (pol_Scope p))) <> size (mentries (sc_Tags (pol_Scope p')))) by lia.
    intros Es. apply Hne. rewrite (Hs2 E). f_equal. symmetry. apply map_subseteq_size_eq; [done|lia]. }
  split; [done|]. unfold SelectWinner. cbn [sort_by insert_by]. by rewrite Hb.
Qed.

(** ** Match expressions *)

(** A clause of an expression: a field, [==] or [!=], a value. *)
Record Clause := { cl_eq : bool; cl_field : string; cl_value : string }.

(** How a clause is written: the blanks before it, after the field, before the value and
    after it, and the quote around the value, if any. *)
Record Written := { wr_clause : Clause; wr_before : string; wr_field : string; wr_value : string; wr_after : string; wr_quote : option ascii }.

(** What stands between two [&&]: a clause, or nothing but blanks. *)
Inductive Part := Stated (w : Written) | Blank (blanks : string).

Definition quoted (q : option ascii) (value : string) : string :=
  match q with Some c => String c "" +:+ value +:+ String c "" | None => value end.
Definition operator (is_eq : bool) : string := if is_eq then "==" else "!=".

Definition print_core (w : Written) : string :=
  (cl_field (wr_clause w) +:+ wr_field w) +:+ operator (cl_eq (wr_clause w)) +:+ wr_value w +:+ quoted (wr_quote w) (cl_value (wr_clause w)).
Definition print_part (p : Part) : string :=
  match p with Stated w => wr_before w +:+ print_core w +:+ wr_after w | Blank blanks => blanks end.
Definition print_expression (ps : list Part) : string := Join (print_part <$> ps) "&&".

Definition clauses_of (ps : list Part) : list Clause := omap (fun p => match p with Stated w => Some (wr_clause w) | Blank _ => None end) ps.

(** Visible ASCII characters other than the ones the syntax uses; blanks; what a value
    may have between its ends. *)
Definition plain_char (c : ascii) : bool :=
  let n := nat_of_ascii c in
  (32 <? n)%nat && (n <? 127)%nat && negb (existsb (Ascii.eqb c) ["&"; "="; "!"; ascii_of_nat 34; "'"]%char).
Definition blank_char (c : ascii) : bool := existsb (Ascii.eqb c) (byte <$> [9; 10; 11; 12; 13; 32]%nat).
Definition value_char (c : ascii) : bool := plain_char c || blank_char c.

(** The field is not empty.  A value without quotes is not empty, and its ends are not
    blank; with quotes it may be anything of those characters. *)
Definition well_written (p : Part) : Prop :=
  match p with
  | Blank blanks => str_all blank_char blanks = true
  | Stated w =>
      let c := wr_clause w in
      cl_field c <> "" /\ str_all plain_char (cl_field c) = true /\ str_all value_char (cl_value c) = true /\
      str_all blank_char (wr_before w) = true /\ str_all blank_char (wr_field w) = true /\
      str_all blank_char (wr_value w) = true /\ str_all blank_char (wr_after w) = true /\
      match wr_quote w with Some q => q ∈ quotes | None => cl_value c <> "" /\ edges plain_char (cl_value c) = true end
  end.

(** The value of a field of a request. *)
Definition expr_fields (req : RequestContext) : list (string * string) :=
  [("org_id", req_OrgID req); ("tenant_id", req_TenantID req); ("application", req_Application req); ("service", req_Service req);
   ("environment", req_Environment req); ("signal_type", req_SignalType req); ("operation", req_Operation req);
   ("endpoint", req_Endpoint req); ("method", req_Method req); ("user_id", req_UserID req); ("api_key", req_APIKey req);
   ("client_id", req_ClientID req); ("source_ip", req_SourceIP req); ("region", req_Region req); ("resource", req_Resource req);
   ("severity", req_Severity req); ("span_name", req_SpanName req); ("topic", req_Topic req);
   ("consumer_group", req_ConsumerGroup req); ("job_type", req_JobType req)].

Definition field_value (req : RequestContext) (name : string) : string :=
  match List.find (fun kv => String.eqb name kv.1) (expr_fields req) with
  | Some (_, v) => v
  | None => match cut name "tag." with Some ("", tag) => mget (req_Tags req) tag | _ => "" end
  end.

Definition clause_holds (req : RequestContext) (c : Clause) : bool :=
  eqb (String.eqb (field_value req (cl_field c)) (cl_value c)) (cl_eq c).

(** The tag is what follows the prefix. *)
Lemma cut_tag name : match cut name "tag." with Some ("", tag) => Some tag | _ => None end =
  if HasPrefix name "tag." then Some (TrimPrefix name "tag.") else None.
Proof.
  unfold TrimPrefix, HasPrefix. destruct (String.prefix "tag." name) eqn:E.
  - apply prefix_inv in E as [tag ->]. rewrite str_drop_app. change ("tag." +:+ tag) with ("" +:+ "tag." +:+ tag). by rewrite (cut_app (fun _ => false)).
  - destruct name as [|c name]; [done|]. cbn [cut]. rewrite E. by destruct (cut name "tag.") as [[]|].
Qed.

Lemma resolveExprField_value req name : resolveExprField req name = field_value req name.
Proof.
  unfold resolveExprField, field_value, expr_fields. cbn [List.find fst]. repeat case_match; simplify_eq; try done.
  all: pose proof (cut_tag name) as Ht; repeat case_match; simplify_eq; congruence.
Qed.

(** *** Trimming *)

Lemma blank_lone c : blank_char c = true -> lone space_runes c /\ lone (str_rev <$> space_runes) c.
Proof.
  intros H. change (blank_char c) with (existsb (Ascii.eqb c) [byte 9; byte 10; byte 11; byte 12; byte 13; byte 32]) in H. cbn [existsb] in H.
  rewrite !orb_true_iff, !Ascii.eqb_eq in H. destruct H as [->|[->|[->|[->|[->|[->|H]]]]]]; [split; intros [|? ?]; vm_compute; reflexivity..|done].
Qed.

Lemma quote_lone c : c ∈ quotes -> lone ((fun c => String c "") <$> quotes) c /\ lone (str_rev <$> ((fun c => String c "") <$> quotes)) c.
Proof. unfold quotes. intros H. repeat (apply elem_of_cons in H as [->|H]; [split; intros [|? ?]; vm_compute; reflexivity|]). by apply elem_of_nil in H. Qed.

(** Characters at which trimming blanks stops. *)
Definition solid (c : ascii) : bool := plain_char c || bool_decide (c ∈ quotes) || Ascii.eqb c "=" || Ascii.eqb c "!".

Lemma TrimSpace_pad t s u : str_all blank_char t = true -> str_all blank_char u = true -> edges solid s = true -> TrimSpace (t +:+ s +:+ u) = s.
Proof.
  intros Ht Hu Hs. unfold TrimSpace. apply (trim_both_pad blank_char solid); [..|exact Ht|exact Hu|exact Hs].
  - intros c Hc. exact (proj1 (blank_lone c Hc)).
  - intros c Hc. exact (proj2 (blank_lone c Hc)).
  - by vm_compute.
  - by vm_compute.
Qed.

Lemma edges_impl (f g : ascii -> bool) s : (forall c, f c = true -> g c = true) -> edges f s = true -> edges g s = true.
Proof. unfold edges. intros H. rewrite !andb_true_iff. intros [H1 H2]. split; [destruct s|destruct (str_rev s)]; auto. Qed.

Lemma str_all_impl (f g : ascii -> bool) s : (forall c, f c = true -> g c = true) -> str_all f s = true -> str_all g s = true.
Proof. intros H. induction s as [|c s IH]; [done|]. cbn [str_all]. rewrite !andb_true_iff. intros [Hc Hs]. auto. Qed.

Lemma plain_solid c : plain_char c = true -> solid c = true.
Proof. unfold solid. by intros ->. Qed.

Lemma edges_app f a b m : edges f a = true -> edges f b = true -> a <> "" -> b <> "" -> edges f (a +:+ m +:+ b) = true.
Proof.
  unfold edges. rewrite !andb_true_iff. intros [H1 _] [_ H2] Ha Hb. rewrite !str_rev_concat. split; [by destruct a|].
  destruct (str_rev b) eqn:E; [|by rewrite !str_app_cons]. apply (f_equal str_rev) in E. rewrite str_rev_involutive in E. by subst.
Qed.

Lemma quoted_edges w : well_written (Stated w) ->
  let v := quoted (wr_quote w) (cl_value (wr_clause w)) in
  edges solid v = true /\ v <> "" /\ Trim v quotes = cl_value (wr_clause w).
Proof.
  intros (_ & _ & Hv & _ & _ & _ & _ & Hq). unfold quoted. destruct (wr_quote w) as [q|].
  - split_and!; [|done|].
    + apply (edges_app solid (String q "") (String q "")); [..|done|done]; by apply edges_all; cbn; rewrite andb_true_r; unfold solid;
        rewrite bool_decide_true, orb_true_r by done.
    + unfold Trim. apply (trim_both_pad (fun c => bool_decide (c ∈ quotes)) value_char).
      * intros c Hc%bool_decide_eq_true. exact (proj1 (quote_lone c Hc)).
      * intros c Hc%bool_decide_eq_true. exact (proj2 (quote_lone c Hc)).
      * by vm_compute.
      * by vm_compute.
      * cbn. by rewrite bool_decide_true.
      * cbn. by rewrite bool_decide_true.
      * by apply edges_all.
  - destruct Hq as [Hne He]. split_and!; [by eapply edges_impl, He; apply plain_solid|done|].
    apply (trim_both_id value_char); [by vm_compute|by vm_compute|done].
Qed.

(** *** Clauses *)

(** Characters of fields, values, blanks and quotes. *)
Definition text_char (c : ascii) : bool := value_char c || bool_decide (c ∈ quotes).

Lemma plain_text s : str_all plain_char s = true -> str_all text_char s = true.
Proof. apply str_all_impl. intros c Hc. unfold text_char, value_char. by rewrite Hc. Qed.

Lemma blank_text s : str_all blank_char s = true -> str_all text_char s = true.
Proof. apply str_all_impl. intros c Hc. unfold text_char, value_char. by rewrite Hc, orb_true_r. Qed.

Lemma quoted_text w : well_written (Stated w) -> str_all text_char (quoted (wr_quote w) (cl_value (wr_clause w))) = true.
Proof.
  intros (_ & _ & Hv & _ & _ & _ & _ & Hq).
  assert (Ht : str_all text_char (cl_value (wr_clause w)) = true) by (eapply str_all_impl, Hv; intros c Hc; unfold text_char; by rewrite Hc).
  unfold quoted. destruct (wr_quote w) as [q|]; [|done]. rewrite !str_all_app, Ht. cbn. unfold text_char.
  by rewrite (bool_decide_true (q ∈ quotes)), orb_true_r by done.
Qed.

(** There is no [==] in a clause with [!=]. *)
Lemma cut_ne_clause f v :
  str_all text_char f = true -> str_all text_char v = true -> cut (f +:+ "!=" +:+ v) "==" = None.
Proof.
  intros Hf Hv. induction f as [|d f IH].
  - change ("" +:+ ("!=" +:+ v)) with (String "!" (String "=" v)). cbn [cut].
    rewrite (cut_none text_char v) by done.
    destruct v as [|e v]; [done|]. cbn [str_all] in Hv. apply andb_true_iff in Hv as [He _].
    cbn [String.prefix]. destruct (ascii_dec "=" e) as [<-|]; [done|].
    by destruct (ascii_dec "=" "!"), (ascii_dec "=" "=").
  - rewrite str_app_cons. cbn [str_all] in Hf. apply andb_true_iff in Hf as [Hd Hf]. cbn [cut].
    rewrite IH by done. cbn [String.prefix]. by destruct (ascii_dec "=" d) as [<-|].
Qed.

Lemma split_print_clause is_eq l r : str_all text_char l = true -> str_all text_char r = true ->
  split_clause (l +:+ operator is_eq +:+ r) = Some (is_eq, l, r).
Proof.
  intros Hl Hr. unfold split_clause, SplitN2. destruct is_eq; cbn [operator].
  - by rewrite (cut_app text_char).
  - rewrite cut_ne_clause by done. by rewrite (cut_app text_char).
Qed.

Lemma core_edges w : well_written (Stated w) -> edges solid (print_core w) = true /\ String.eqb (print_core w) "" = false.
Proof.
  intros Hw. pose proof Hw as (Hne & Hf & _). destruct (quoted_edges w Hw) as (He & Hq & _). unfold print_core. split.
  - rewrite str_app_assoc, <- !(str_app_assoc (wr_field w)), <- (str_app_assoc _ (wr_value w)).
    apply edges_app; [|done..]. apply edges_all. eapply str_all_impl, Hf. apply plain_solid.
  - by destruct (cl_field (wr_clause w)).
Qed.

Lemma part_char p : well_written p -> str_all (fun c => text_char c || Ascii.eqb c "=" || Ascii.eqb c "!") (print_part p) = true.
Proof.
  assert (H : forall s, str_all text_char s = true -> str_all (fun c => text_char c || Ascii.eqb c "=" || Ascii.eqb c "!") s = true)
    by (intros s; apply str_all_impl; by intros c ->).
  destruct p as [w|blanks]; [|intros Hb; by apply H, blank_text]. intros Hw. pose proof (quoted_text w Hw) as Hq.
  destruct Hw as (_ & Hf & _ & H1 & H2 & H3 & H4 & _). cbn [print_part]. unfold print_core. rewrite !str_all_app.
  rewrite (H (wr_before w)), (H (cl_field _)), (H (wr_field w)), (H (wr_value w)), (H (quoted _ _)), (H (wr_after w))
    by auto using plain_text, blank_text. by destruct (cl_eq (wr_clause w)).
Qed.

Lemma evaluateClauses_print req ps :
  Forall well_written ps -> evaluateClauses req (print_part <$> ps) = Ok (forallb (clause_holds req) (clauses_of ps)).
Proof.
  induction 1 as [|p ps Hp _ IH]; [done|]. rewrite fmap_cons. cbn [evaluateClauses]. destruct p as [w|blanks]; cbn [print_part].
  - pose proof Hp as (Hne & Hf & _ & H1 & H2 & H3 & H4 & _). destruct (core_edges w Hp) as [He Hcore]. destruct (quoted_edges w Hp) as (Hqe & _ & Hq).
    rewrite (TrimSpace_pad _ _ _ H1 H4 He), Hcore. unfold print_core.
    rewrite split_print_clause; [|by rewrite str_all_app, plain_text, blank_text|by rewrite str_all_app, quoted_text, blank_text].
    change (cl_field (wr_clause w) +:+ wr_field w) with ("" +:+ cl_field (wr_clause w) +:+ wr_field w).
    rewrite TrimSpace_pad; [|done|done|apply edges_all; eapply str_all_impl, Hf; apply plain_solid].
    pose proof (TrimSpace_pad (wr_value w) (quoted (wr_quote w) (cl_value (wr_clause w))) "" H3 eq_refl Hqe) as Hr.
    rewrite str_app_nil_r in Hr. rewrite Hr, Hq, resolveExprField_value. cbn [clauses_of omap list_omap forallb].
    unfold clause_holds at 1. destruct (cl_eq (wr_clause w)), (String.eqb _ (cl_value (wr_clause w))); cbn [eqb andb negb]; by rewrite ?IH.
  - pose proof (TrimSpace_pad blanks "" "" Hp eq_refl eq_refl) as Hb. rewrite !str_app_nil_r in Hb. by rewrite Hb.
Qed.

(** C39 (kind: roundtrip).  Match expressions mean what they say: a text of clauses [field == value] and [field != value]
    joined by [&&], with any blanks around the clauses, the operators and the values, with single, double or no
    quotes around the values, and with blank clauses, evaluates without an error to whether all of the clauses hold of the
    request.  Fields and values are of visible ASCII characters other than quotes and the characters of the syntax,
    values may have blanks inside; a field is not empty, and a value without quotes neither is empty nor has blank
    ends. *)
Theorem expression_meaning (req : RequestContext) (ps : list Part) :
  Forall well_written ps ->
  evaluateExpression req (print_expression ps) = Ok (forallb (clause_holds req) (clauses_of ps)).
Proof.
  intros Hps. destruct (decide (ps = [])) as [->|Hne]; [done|]. unfold evaluateExpression, print_expression.
  rewrite (Split_Join (fun c => text_char c || Ascii.eqb c "=" || Ascii.eqb c "!")); [by apply evaluateClauses_print|by destruct ps| |done].
  apply Forall_fmap. eapply Forall_impl; [exact Hps|]. intros p. apply part_char.
Qed.

(** ** Examples *)

Definition stated (is_eq : bool) (field value before around : string) (q : option ascii) : Part :=
  Stated {| wr_clause := {| cl_eq := is_eq; cl_field := field; cl_value := value |}; wr_before := before; wr_field := around;
            wr_value := around; wr_after := before; wr_quote := q |}.

(** With blanks, with quotes, and nothing after the last [&&]. *)
Definition demo_parts : list Part :=
  [stated true "service" "api" " " "" None; stated false "tag.tier" "on trial" "" " " (Some "'"%char); Blank " "].
Definition demo_request : RequestContext :=
  {| req_RequestID := ""; req_OrgID := ""; req_TenantID := ""; req_Application := "";
     req_Service := "api"; req_Environment := ""; req_SignalType := ""; req_Operation := "";
     req_Endpoint := ""; req_Method := ""; req_UserID := ""; req_APIKey := "";
     req_ClientID := ""; req_SourceIP := ""; req_Region := ""; req_Resource := "";
     req_Severity := ""; req_SpanName := ""; req_Topic := ""; req_ConsumerGroup := "";
     req_JobType := ""; req_Quantity := 0; req_Priority := ""; req_Timestamp := zeroTime;
     req_Tags := Some {["tier" := "gold"]}; req_Attributes := None |}.

Lemma expression_meaning_witness :
  print_expression demo_parts = " service==api &&tag.tier != 'on trial'&& " /\
  evaluateExpression demo_request (print_expression demo_parts) = Ok true.
Proof.
  split; [reflexivity|].
  rewrite (expression_meaning demo_request demo_parts); [reflexivity|].
  repeat constructor; by vm_compute || (apply (bool_decide_unpack _); by vm_compute).
Defined.

Definition with_service (service : string) : PolicyScope :=
  {| sc_OrgID := ""; sc_TenantID := ""; sc_Application := ""; sc_Service := service;
     sc_Environment := ""; sc_SignalType := ""; sc_Operation := ""; sc_Endpoint := "";
     sc_Method := ""; sc_UserID := ""; sc_APIKey := ""; sc_ClientID := "";
     sc_SourceIP := ""; sc_Region := ""; sc_Resource := ""; sc_Severity := "";
     sc_SpanName := ""; sc_Topic := ""; sc_ConsumerGroup := ""; sc_JobType := "";
     sc_Tags := None |}.

Lemma narrower_wins_witness :
  let p' := mkPolicy "a" (with_service "api") zeroConfig ActionDeny in
  let p := mkPolicy "b" zeroScope zeroConfig ActionDeny in
  matchesScope demo_request (pol_Scope p) = true /\ SelectWinner [p; p'] = Ok p'.
Proof.
  destruct (narrower_wins demo_request (mkPolicy "a" (with_service "api") zeroConfig ActionDeny)
    (mkPolicy "b" zeroScope zeroConfig ActionDeny)) as [H1 H2]; [|by vm_compute|].
  - split; [|done]. repeat constructor.
  - split; [exact H1|]. apply H2. by vm_compute.
Defined.
