(* ===== verification/KeyBuilder.v ===== *)
(** * internal/key: counter keys *)

From Stdlib Require Import Ascii.
From S2P Require Import Prelude GoString GoHash GoFloat GoTime Model Matcher.
Local Open Scope Z_scope.
Local Open Scope stdpp_scope.

Record DefaultBuilder := { kb_Prefix : string }.

Definition New (prefix : string) : DefaultBuilder :=
  {| kb_Prefix := if String.eqb prefix "" then "rlaas" else prefix |}.

Definition sanitize (s : string) : string :=
  let s := ReplaceAll s " " "_" in
  let s := ReplaceAll s ":" "_" in
  if String.eqb s "" then "_" else s.

(** The text hashed for the tags a policy requires: its keys in order, with the
    request's values. *)
Definition tagText (reqTags : GoMap) (keys : list string) : string :=
  foldr (fun k rest => k +:+ "=" +:+ mget reqTags k +:+ ";" +:+ rest) "" keys.

(** [sort.Strings] makes the order in which [range] visits the map irrelevant. *)
Definition sortedKeys (required : gmap string string) : list string :=
  sort_by String.ltb ((map_to_list required).*1).

Definition hashTags (reqTags : GoMap) (required : gmap string string) : string :=
  EncodeToString (take 8 (sha1 (tagText reqTags (sortedKeys required)))).

(** The calls of [appendIfScoped]: name, scope value, request value. *)
Definition scoped_fields (s : PolicyScope) (req : RequestContext) : list (string * string * string) :=
  [("org", sc_OrgID s, req_OrgID req); ("tenant", sc_TenantID s, req_TenantID req);
   ("app", sc_Application s, req_Application req); ("service", sc_Service s, req_Service req);
   ("env", sc_Environment s, req_Environment req); ("signal", sc_SignalType s, req_SignalType req);
   ("operation", sc_Operation s, req_Operation req); ("endpoint", sc_Endpoint s, req_Endpoint req);
   ("method", sc_Method s, req_Method req); ("user", sc_UserID s, req_UserID req);
   ("api_key", sc_APIKey s, req_APIKey req); ("client", sc_ClientID s, req_ClientID req);
   ("source_ip", sc_SourceIP s, req_SourceIP req); ("region", sc_Region s, req_Region req);
   ("resource", sc_Resource s, req_Resource req); ("severity", sc_Severity s, req_Severity req);
   ("span", sc_SpanName s, req_SpanName req); ("topic", sc_Topic s, req_Topic req);
   ("consumer_group", sc_ConsumerGroup s, req_ConsumerGroup req); ("job_type", sc_JobType s, req_JobType req)].

Definition appendIfScoped (parts : list string) (f : string * string * string) : list string :=
  let '(name, scope, value) := f in
  if String.eqb scope "" then parts else parts ++ [name +:+ "=" +:+ sanitize value].

Definition Build (b : DefaultBuilder) (policy : Policy) (req : RequestContext) : string :=
  let scope := pol_Scope policy in
  let parts := fold_left appendIfScoped (scoped_fields scope req) [kb_Prefix b] in
  let parts := if 0 <? mlen (sc_Tags scope)
               then parts ++ ["tags=" +:+ hashTags (req_Tags req) (mentries (sc_Tags scope))] else parts in
  Join parts ":".

(** ** One counter for all the requests of a policy *)

(** The parts a list of fields contributes. *)
Definition field_parts (fs : list (string * string * string)) : list string :=
  omap (fun '(name, scope, value) =>
    if String.eqb scope "" then None else Some (name +:+ "=" +:+ sanitize value)) fs.

Lemma appendIfScoped_parts fs parts : fold_left appendIfScoped fs parts = parts ++ field_parts fs.
Proof.
  revert parts. induction fs as [|[[name scope] value] fs IH]; intros parts; cbn [fold_left]; [by rewrite app_nil_r|].
  rewrite IH. unfold field_parts. cbn [appendIfScoped omap list_omap].
  destruct (String.eqb scope ""); [done|]. by rewrite <- app_assoc.
Qed.

Definition field_names : list string :=
  ["org"; "tenant"; "app"; "service"; "env"; "signal"; "operation"; "endpoint"; "method"; "user"; "api_key";
   "client"; "source_ip"; "region"; "resource"; "severity"; "span"; "topic"; "consumer_group"; "job_type"].

(** The key builder and the matcher look at the same fields in the same order. *)
Lemma scoped_fields_zip s req :
  scoped_fields s req = zip_with (fun name '(scope, value) => (name, scope, value)) field_names (scope_fields req s).
Proof. reflexivity. Qed.

(** A request that a scope matches has the scope's values in the scope's fields. *)
Lemma field_parts_matching names (l1 l2 : list (string * string)) :
  l1.*1 = l2.*1 ->
  Forall (fun '(scope, val) => scope = "" \/ scope = val) l1 ->
  Forall (fun '(scope, val) => scope = "" \/ scope = val) l2 ->
  field_parts (zip_with (fun name '(scope, value) => (name, scope, value)) names l1) =
  field_parts (zip_with (fun name '(scope, value) => (name, scope, value)) names l2).
Proof.
  revert l1 l2. induction names as [|n names IH]; intros [|[x a] l1] [|[y b] l2]; try done.
  rewrite !fmap_cons. intros [= -> Hl] [Ha H1]%Forall_cons [Hb H2]%Forall_cons.
  unfold field_parts in *. cbn [zip_with omap list_omap].
  destruct (String.eqb_spec y "") as [|Hy]; [by apply IH|].
  destruct Ha as [|<-], Hb as [|<-]; try done. f_equal. by apply IH.
Qed.

Lemma tagText_matching t1 t2 keys :
  (forall k, k ∈ keys -> mget t1 k = mget t2 k) -> tagText t1 keys = tagText t2 keys.
Proof.
  intros H. induction keys as [|k keys IH]; [done|]. cbn [tagText foldr].
  rewrite (H k) by left. unfold tagText in IH. rewrite IH; [done|]. intros k' Hk'. apply H. by right.
Qed.

(** All the requests that the scope of a policy matches are counted under one key. *)
Theorem one_key_per_scope (b : DefaultBuilder) (policy : Policy) (req1 req2 : RequestContext) :
  matchesScope req1 (pol_Scope policy) = true -> matchesScope req2 (pol_Scope policy) = true ->
  Build b policy req1 = Build b policy req2.
Proof.
  intros H1 H2. apply matchesScope_true in H1 as [Hf1 Ht1], H2 as [Hf2 Ht2].
  unfold Build. rewrite !appendIfScoped_parts, !scoped_fields_zip.
  rewrite (field_parts_matching field_names (scope_fields req1 (pol_Scope policy))
             (scope_fields req2 (pol_Scope policy)) eq_refl Hf1 Hf2).
  destruct (0 <? mlen (sc_Tags (pol_Scope policy))); [|done].
  unfold hashTags. rewrite (tagText_matching (req_Tags req1) (req_Tags req2)); [done|].
  intros k Hk. unfold sortedKeys in Hk. rewrite sort_by_Permutation in Hk.
  apply list_elem_of_fmap in Hk as [[k' v] [-> Hkv]]. apply elem_of_map_to_list in Hkv.
  cbn [fst]. by rewrite (Ht1 k' v Hkv), (Ht2 k' v Hkv).
Qed.

(** ** Different scopes, different counters *)

(** A value that [sanitize] leaves alone, and the ones of a scope. *)
Definition clean_char (c : ascii) : bool := negb (Ascii.eqb c " ") && negb (Ascii.eqb c ":").
Definition clean (s : string) : Prop := str_all clean_char s = true.
(** The values of a scope, in the order of [field_names]. *)
Definition scope_list (s : PolicyScope) : list string := (scope_fields zeroRequest s).*1.
Definition clean_scope (s : PolicyScope) : Prop :=
  Forall clean (scope_list s) /\ mentries (sc_Tags s) = ∅.

Lemma ReplaceAll_none s c new : str_all (fun d => negb (Ascii.eqb d c)) s = true -> ReplaceAll s (String c "") new = s.
Proof.
  intros H. unfold ReplaceAll, Split. destruct (String.length s); [done|]. cbn [split_fuel].
  rewrite (cut_none _ s c "" H); [done|]. by rewrite Ascii.eqb_refl.
Qed.

Lemma sanitize_clean s : clean s -> s <> "" -> sanitize s = s.
Proof.
  intros Hc Hne. unfold sanitize.
  assert (H : forall c, c = " "%char \/ c = ":"%char -> str_all (fun d => negb (Ascii.eqb d c)) s = true).
  { intros c Hcc. clear Hne. unfold clean in Hc. induction s as [|d s IH]; [done|]. simpl in *.
    unfold clean_char in Hc. zify_bool. apply andb_true_iff. split; [|auto].
    destruct Hcc as [->| ->]; apply negb_true_iff; congruence. }
  rewrite (ReplaceAll_none s " " "_"), (ReplaceAll_none s ":" "_") by auto. by destruct (String.eqb_spec s "").
Qed.

(** A part starts with the name of its field. *)
Definition name_char (c : ascii) : bool := negb (Ascii.eqb c "=").

Lemma part_name_inj n1 n2 v1 v2 :
  str_all name_char n1 = true -> str_all name_char n2 = true ->
  n1 +:+ "=" +:+ v1 = n2 +:+ "=" +:+ v2 -> n1 = n2 /\ v1 = v2.
Proof.
  intros H1 H2 E. pose proof (cut_app name_char n1 "=" "" v1 H1 eq_refl) as C1.
  pose proof (cut_app name_char n2 "=" "" v2 H2 eq_refl) as C2. rewrite E, C2 in C1. by injection C1.
Qed.

(** The parts of clean values: name and value of the fields that are set. *)
Definition set_parts (names values : list string) : list string :=
  omap (fun '(n, v) => if String.eqb v "" then None else Some (n +:+ "=" +:+ v)) (zip names values).

Lemma set_parts_name names values p :
  p ∈ set_parts names values -> exists n v, n ∈ names /\ p = n +:+ "=" +:+ v.
Proof.
  unfold set_parts. revert values. induction names as [|n names IH]; intros [|v values];
    cbn [zip zip_with omap list_omap]; try (intros H; by apply elem_of_nil in H).
  destruct (String.eqb v "").
  - intros H. destruct (IH values H) as (n' & v' & ? & ?). exists n', v'. split; [by right|done].
  - intros [->|H]%elem_of_cons; [exists n, v; split; [left|done]|].
    destruct (IH values H) as (n' & v' & ? & ?). exists n', v'. split; [by right|done].
Qed.

Lemma set_parts_inj names vs vs' :
  NoDup names -> Forall (fun n => str_all name_char n = true) names ->
  length vs = length names -> length vs' = length names ->
  set_parts names vs = set_parts names vs' -> vs = vs'.
Proof.
  intros Hnd. revert vs vs'. induction Hnd as [|n names Hn Hnd IH]; intros vs vs' Hname.
  { destruct vs, vs'; done. }
  apply Forall_cons in Hname as [Hnn Hname]. destruct vs as [|v vs], vs' as [|v' vs']; try done.
  intros [= Hl] [= Hl']. specialize (IH vs vs' Hname Hl Hl').
  assert (Hout : forall ws p, p ∈ set_parts names ws -> forall x, p <> n +:+ "=" +:+ x).
  { intros ws p Hp x ->. apply set_parts_name in Hp as (m & y & Hm & E).
    apply part_name_inj in E as [-> _]; [done..|]. by eapply Forall_forall in Hname. }
  unfold set_parts. cbn [zip zip_with omap list_omap]. fold (set_parts names vs). fold (set_parts names vs').
  destruct (String.eqb_spec v "") as [->|], (String.eqb_spec v' "") as [->|].
  - intros E. f_equal. by apply IH.
  - intros E. exfalso. apply (Hout vs (n +:+ "=" +:+ v')  ltac:(rewrite E; left) v' eq_refl).
  - intros E. exfalso. apply (Hout vs' (n +:+ "=" +:+ v) ltac:(rewrite <- E; left) v eq_refl).
  - intros [= E1 E2]. apply part_name_inj in E1 as [_ ->]; [|done..]. f_equal. by apply IH.
Qed.

(** The fields of a matching request contribute the set values of the scope. *)
Lemma field_parts_set names (l : list (string * string)) :
  Forall clean l.*1 -> Forall (fun '(scope, val) => scope = "" \/ scope = val) l ->
  field_parts (zip_with (fun name '(scope, value) => (name, scope, value)) names l) = set_parts names l.*1.
Proof.
  revert l. induction names as [|n names IH]; intros [|[x a] l]; try done.
  rewrite !fmap_cons. intros [Hx Hc]%Forall_cons [Ha Hl]%Forall_cons.
  unfold field_parts, set_parts in *. cbn [zip_with zip omap list_omap fst].
  destruct (String.eqb_spec x "") as [|Hx']; [by apply IH|].
  destruct Ha as [|<-]; [done|]. rewrite sanitize_clean by done. f_equal. by apply IH.
Qed.

Definition no_colon (c : ascii) : bool := negb (Ascii.eqb c ":").

Lemma clean_no_colon s : clean s -> str_all no_colon s = true.
Proof.
  unfold clean. induction s as [|c s IH]; [done|]. simpl. unfold clean_char at 1, no_colon at 1. intros H.
  zify_bool. apply andb_true_iff. split; [by apply negb_true_iff|auto].
Qed.

Lemma set_parts_no_colon names vs :
  Forall (fun n => str_all no_colon n = true) names -> Forall clean vs ->
  Forall (fun x => str_all no_colon x = true) (set_parts names vs).
Proof.
  intros Hn. revert vs. unfold set_parts. induction Hn as [|n names Hn _ IH]; intros [|v vs]; try done.
  intros [Hv Hvs]%Forall_cons. cbn [zip zip_with omap list_omap]. destruct (String.eqb v ""); [by apply IH|].
  constructor; [|by apply IH]. rewrite !str_all_app, Hn, (clean_no_colon v) by done. done.
Qed.

(** Scopes do not share counters: when two policies with tag-free scopes, whose values
    have no space or colon, match two requests under the same key, their scopes
    set the same fields to the same values. *)
Theorem keys_separate (b : DefaultBuilder) (p p' : Policy) (req req' : RequestContext) :
  str_all no_colon (kb_Prefix b) = true ->
  clean_scope (pol_Scope p) -> clean_scope (pol_Scope p') ->
  matchesScope req (pol_Scope p) = true -> matchesScope req' (pol_Scope p') = true ->
  Build b p req = Build b p' req' -> scope_list (pol_Scope p) = scope_list (pol_Scope p').
Proof.
  intros Hb [Hc Ht] [Hc' Ht'] Hm Hm'. apply matchesScope_true in Hm as [Hm _], Hm' as [Hm' _].
  unfold Build, mlen. rewrite Ht, Ht', !appendIfScoped_parts, !scoped_fields_zip, !map_size_empty.
  cbn [Z.of_nat Z.ltb Z.compare]. rewrite !field_parts_set by done. fold (scope_list (pol_Scope p)).
  change ((scope_fields req' (pol_Scope p')).*1) with (scope_list (pol_Scope p')).
  change ((scope_fields req (pol_Scope p)).*1) with (scope_list (pol_Scope p)).
  intros E. apply (f_equal (fun s => Split s ":")) in E.
  assert (Hn : Forall (fun n => str_all no_colon n = true) field_names) by by repeat constructor.
  rewrite !(Split_Join no_colon) in E; try done;
    try (constructor; [done|]; by apply set_parts_no_colon).
  apply (inj2 cons) in E as [_ E]. eapply (set_parts_inj field_names); try done; [|by repeat constructor].
  by apply (@bool_decide_unpack _ (NoDup_dec field_names)).
Qed.

(** ** Examples *)

Definition tenant_scope (tenant : string) : PolicyScope :=
  {| sc_OrgID := ""; sc_TenantID := tenant; sc_Application := ""; sc_Service := "";
     sc_Environment := ""; sc_SignalType := ""; sc_Operation := ""; sc_Endpoint := "";
     sc_Method := ""; sc_UserID := ""; sc_APIKey := ""; sc_ClientID := "";
     sc_SourceIP := ""; sc_Region := ""; sc_Resource := ""; sc_Severity := "";
     sc_SpanName := ""; sc_Topic := ""; sc_ConsumerGroup := ""; sc_JobType := "";
     sc_Tags := None |}.
Definition service_request (tenant service : string) : RequestContext :=
  {| req_RequestID := ""; req_OrgID := ""; req_TenantID := tenant; req_Application := "";
     req_Service := service; req_Environment := ""; req_SignalType := ""; req_Operation := "";
     req_Endpoint := ""; req_Method := ""; req_UserID := ""; req_APIKey := "";
     req_ClientID := ""; req_SourceIP := ""; req_Region := ""; req_Resource := "";
     req_Severity := ""; req_SpanName := ""; req_Topic := ""; req_ConsumerGroup := "";
     req_JobType := ""; req_Quantity := 0; req_Priority := ""; req_Timestamp := zeroTime;
     req_Tags := None; req_Attributes := None |}.
Definition tenant_request (tenant : string) : RequestContext := service_request tenant "".
Definition tenant_policy (tenant : string) : Policy :=
  mkPolicy tenant (tenant_scope tenant) zeroConfig ActionDeny.

Example tenant_key : Build (New "") (tenant_policy "acme") (tenant_request "acme") = "rlaas:tenant=acme".
Proof. reflexivity. Qed.

Lemma one_key_per_scope_witness :
  Build (New "") (tenant_policy "acme") (service_request "acme" "web")
  = Build (New "") (tenant_policy "acme") (service_request "acme" "batch").
Proof.
  apply (one_key_per_scope (New "") (tenant_policy "acme") (service_request "acme" "web")
    (service_request "acme" "batch")); reflexivity.
Defined.

Lemma keys_separate_witness :
  Build (New "") (tenant_policy "acme") (tenant_request "acme")
  <> Build (New "") (tenant_policy "globex") (tenant_request "globex").
Proof.
  intros E. enough (scope_list (tenant_scope "acme") = scope_list (tenant_scope "globex")) by done.
  apply (keys_separate (New "") (tenant_policy "acme") (tenant_policy "globex")
    (tenant_request "acme") (tenant_request "globex"));
    [reflexivity|by repeat constructor|by repeat constructor|reflexivity|reflexivity|exact E].
Defined.

(** Without that restriction, scopes do share a counter: colons and spaces become
    underscores. *)
Example sanitized_keys_collide :
  Build (New "") (tenant_policy "a:b") (tenant_request "a:b")
  = Build (New "") (tenant_policy "a_b") (tenant_request "a_b").
Proof. reflexivity. Qed.
