(* ===== verification/PolicyCache.v ===== *)
(** * internal/store/cache: the policy cache

    Each method holds the cache's lock, so it is one atomic step.  [range] over a
    Go map visits the entries in an unspecified order: [visits] is that order, and
    the theorems hold for all of them. *)

From S2P Require Import Prelude GoString GoFloat GoTime Model.
Local Open Scope Z_scope.

Record item := { it_policies : list Policy; it_expiry : Time; it_lastUsed : Time }.

Record MemoryPolicyCache := { pc_ttl : Duration; pc_maxItems : Z; pc_items : gmap string item; pc_stopped : bool }.

Definition NewMemoryPolicyCacheWithLimits (ttl : Duration) (maxItems : Z) : MemoryPolicyCache :=
  {| pc_ttl := if ttl <=? 0 then 30 * Second else ttl;
     pc_maxItems := if maxItems <=? 0 then 10000 else maxItems;
     pc_items := ∅; pc_stopped := false |}.

Definition NewMemoryPolicyCache (ttl : Duration) : MemoryPolicyCache :=
  NewMemoryPolicyCacheWithLimits ttl 10000.

Definition with_items (f : gmap string item -> gmap string item) (m : MemoryPolicyCache) : MemoryPolicyCache :=
  {| pc_ttl := pc_ttl m; pc_maxItems := pc_maxItems m; pc_items := f (pc_items m); pc_stopped := pc_stopped m |}.

Definition Get (now : Time) (namespace : string) (m : MemoryPolicyCache) : option (list Policy) :=
  match pc_items m !! namespace with
  | None => None
  | Some it => if After now (it_expiry it) then None else Some (it_policies it)
  end.

(** The scan of [evictOldestLocked]: [None] before the first entry. *)
Definition scan_oldest (acc : option (string * Time)) (entry : string * item) : option (string * Time) :=
  let '(k, it) := entry in
  match acc with
  | None => Some (k, it_lastUsed it)
  | Some (oldestKey, oldestTime) =>
      if Before (it_lastUsed it) oldestTime then Some (k, it_lastUsed it) else acc
  end.

Definition evictOldest (entries : list (string * item)) (items : gmap string item) : gmap string item :=
  match fold_left scan_oldest entries None with
  | Some (oldestKey, _) => if String.eqb oldestKey "" then items else delete oldestKey items
  | None => items
  end.

Definition Invalidate (namespace : string) (m : MemoryPolicyCache) : MemoryPolicyCache :=
  with_items (delete namespace) m.

Definition Stop (m : MemoryPolicyCache) : MemoryPolicyCache :=
  {| pc_ttl := pc_ttl m; pc_maxItems := pc_maxItems m; pc_items := pc_items m; pc_stopped := true |}.

Definition sweep (now : Time) (m : MemoryPolicyCache) : MemoryPolicyCache :=
  with_items (filter (fun '(_, it) => After now (it_expiry it) = false)) m.

Section Cache.
(** The order in which [range] visits a map: each entry once. *)
Context (visits : gmap string item -> list (string * item)).

Definition Set_ (now : Time) (namespace : string) (policies : list Policy) (m : MemoryPolicyCache)
    : MemoryPolicyCache :=
  let items := <[namespace := {| it_policies := policies; it_expiry := time_Add now (pc_ttl m);
                                 it_lastUsed := now |}]> (pc_items m) in
  let items := if (0 <? pc_maxItems m) && (pc_maxItems m <? Z.of_nat (size items))
               then evictOldest (visits items) items else items in
  {| pc_ttl := pc_ttl m; pc_maxItems := pc_maxItems m; pc_items := items; pc_stopped := pc_stopped m |}.

(** What callers do to the cache, and when. *)
Inductive cache_op :=
| OpSet (namespace : string) (policies : list Policy)
| OpInvalidate (namespace : string)
| OpSweep.

Definition apply_op (now : Time) (op : cache_op) (m : MemoryPolicyCache) : MemoryPolicyCache :=
  match op with
  | OpSet ns ps => Set_ now ns ps m
  | OpInvalidate ns => Invalidate ns m
  | OpSweep => sweep now m
  end.

Definition apply_ops (ops : list (Time * cache_op)) (m : MemoryPolicyCache) : MemoryPolicyCache :=
  fold_left (fun m '(now, op) => apply_op now op m) ops m.

Hypothesis visits_all : forall items, visits items ≡ₚ map_to_list items.

(** The scan finds an entry that was not used later than any other. *)
Lemma scan_oldest_spec entries acc r :
  fold_left scan_oldest entries acc = r ->
  match r with
  | None => acc = None /\ entries = []
  | Some (k, t) =>
      (acc = Some (k, t) \/ exists it, (k, it) ∈ entries /\ it_lastUsed it = t) /\
      (forall k' t', acc = Some (k', t') -> t <= t') /\
      (forall k' it', (k', it') ∈ entries -> t <= it_lastUsed it')
  end.
Proof.
  revert acc. induction entries as [|[k it] entries IH]; intros acc; cbn [fold_left].
  { intros <-. destruct acc as [[k t]|]; [|done]. split_and!; [by left| |].
    - intros k' t' [= -> ->]. lia.
    - intros k' it' H. by apply elem_of_nil in H. }
  intros H. specialize (IH _ H). destruct r as [[k' t']|].
  - destruct IH as (Hin & Hacc & Hall). cbn [scan_oldest] in Hin, Hacc.
    destruct acc as [[k0 t0]|].
    + destruct (Before (it_lastUsed it) t0) eqn:E; unfold Before in E; zify_bool.
      * specialize (Hacc _ _ eq_refl). split_and!.
        -- right. destruct Hin as [[= <- <-]|(it' & Hit & Ht)]; [exists it; split; [left|done]|].
           exists it'. split; [by right|done].
        -- intros ? ? [= -> ->]. lia.
        -- intros k1 it1 [[= -> ->]|Hk1]%elem_of_cons; [lia|by eapply Hall].
      * specialize (Hacc _ _ eq_refl). split_and!.
        -- destruct Hin as [Hin|(it' & Hit & Ht)]; [by left|right; exists it'; split; [by right|done]].
        -- intros ? ? [= -> ->]. lia.
        -- intros k1 it1 [[= -> ->]|Hk1]%elem_of_cons; [lia|by eapply Hall].
    + specialize (Hacc _ _ eq_refl). split_and!; [|done|].
      * right. destruct Hin as [[= <- <-]|(it' & Hit & Ht)]; [exists it; split; [left|done]|].
        exists it'. split; [by right|done].
      * intros k1 it1 [[= -> ->]|Hk1]%elem_of_cons; [lia|by eapply Hall].
  - destruct IH as [Hn _]. destruct acc as [[]|]; cbn [scan_oldest] in Hn; [by case_step|done].
Qed.

Lemma evictOldest_spec items :
  items <> ∅ ->
  exists k it, items !! k = Some it /\ (forall k' it', items !! k' = Some it' -> it_lastUsed it <= it_lastUsed it') /\
    evictOldest (visits items) items = if String.eqb k "" then items else delete k items.
Proof.
  intros Hne. unfold evictOldest.
  destruct (fold_left scan_oldest (visits items) None) as [[k t]|] eqn:E; apply scan_oldest_spec in E.
  - destruct E as ([|(it & Hin & Ht)] & _ & Hall); [done|]. exists k, it.
    assert (Hl : forall k' it', items !! k' = Some it' -> (k', it') ∈ visits items).
    { intros k' it' H. rewrite visits_all. by apply elem_of_map_to_list. }
    rewrite visits_all in Hin. apply elem_of_map_to_list in Hin. split_and!; [done| |done].
    intros k' it' H. rewrite Ht. eapply Hall, Hl, H.
  - destruct E as [_ E]. exfalso. apply Hne, map_to_list_empty_iff, Permutation_nil.
    by rewrite <- E, visits_all.
Qed.

(** No entry for the empty namespace. *)
Definition named (m : MemoryPolicyCache) : Prop := pc_items m !! "" = None.

Definition within_capacity (m : MemoryPolicyCache) : Prop :=
  0 < pc_maxItems m /\ Z.of_nat (size (pc_items m)) <= pc_maxItems m.

Lemma size_insert_le (items : gmap string item) k it : (size (<[k := it]> items) <= S (size items))%nat.
Proof. rewrite map_size_insert. case_match; simpl; lia. Qed.

Lemma Set_capacity now ns ps m :
  ns <> "" -> named m -> within_capacity m -> named (Set_ now ns ps m) /\ within_capacity (Set_ now ns ps m).
Proof.
  intros Hns Hn [Hmax Hsize]. unfold named, within_capacity, Set_ in *. cbn [pc_items pc_maxItems].
  set (it := {| it_policies := ps; it_expiry := time_Add now (pc_ttl m); it_lastUsed := now |}).
  set (items := <[ns := it]> (pc_items m)).
  assert (Hempty : items !! "" = None) by (unfold items; by rewrite lookup_insert_ne).
  pose proof (size_insert_le (pc_items m) ns it) as Hle. fold items in Hle.
  destruct (_ && _) eqn:E; [|split_and!; [done..|]; apply andb_false_iff in E as [E|E]; zify_bool; lia].
  destruct (evictOldest_spec items) as (k & it' & Hk & _ & ->).
  { intros Hitems. assert (items !! ns = Some it) as Hl by apply lookup_insert_eq.
    by rewrite Hitems, lookup_empty in Hl. }
  destruct (String.eqb_spec k "") as [->|Hne]; [congruence|].
  split; [by rewrite lookup_delete_ne|]. split; [done|].
  rewrite map_size_delete, Hk. zify_bool. lia.
Qed.

Lemma with_items_capacity f m :
  (forall items, f items ⊆ items) -> named m -> within_capacity m ->
  named (with_items f m) /\ within_capacity (with_items f m).
Proof.
  intros Hf Hn [Hmax Hsize]. unfold named, within_capacity in *. cbn [with_items pc_items pc_maxItems].
  pose proof (map_subseteq_size _ _ (Hf (pc_items m))). split_and!; [|done|lia].
  destruct (f (pc_items m) !! "") eqn:E; [|done]. by rewrite (lookup_weaken _ _ _ _ E (Hf _)) in Hn.
Qed.

Lemma apply_op_capacity now op m :
  (forall ns ps, op = OpSet ns ps -> ns <> "") -> named m -> within_capacity m ->
  named (apply_op now op m) /\ within_capacity (apply_op now op m).
Proof.
  intros Hop Hn Hc. destruct op as [ns ps|ns|]; cbn [apply_op].
  - apply Set_capacity; eauto.
  - apply with_items_capacity; [|done..]. intros items. apply delete_subseteq.
  - apply with_items_capacity; [|done..]. intros items. apply map_filter_subseteq.
Qed.

(** What a read finds after a write: what was written, or nothing. *)
Lemma Get_Set now t ns ps m :
  0 < pc_ttl m -> now <= t ->
  Get t ns (Set_ now ns ps m) = (if time_Add now (pc_ttl m) <? t then None else Some ps) \/
  Get t ns (Set_ now ns ps m) = None.
Proof.
  intros Httl Ht. unfold Get, Set_. cbn [pc_items].
  set (it := {| it_policies := ps; it_expiry := time_Add now (pc_ttl m); it_lastUsed := now |}).
  set (items := <[ns := it]> (pc_items m)).
  assert (Hl : items !! ns = Some it) by apply lookup_insert_eq.
  destruct (_ && _) eqn:E; [|rewrite Hl; by left].
  destruct (evictOldest_spec items) as (k & it' & Hk & _ & ->).
  { intros Hitems. by rewrite Hitems, lookup_empty in Hl. }
  destruct (String.eqb k ""); [rewrite Hl; by left|].
  destruct (decide (k = ns)) as [->|Hne]; [rewrite lookup_delete_eq; by right|].
  rewrite lookup_delete_ne, Hl by done. by left.
Qed.
End Cache.

(** The cache never holds more entries than its capacity, whatever is stored,
    invalidated or swept and in whatever order maps are visited, as long as no
    entry is stored under the empty namespace. *)
Theorem cache_capacity (visits : gmap string item -> list (string * item)) (ttl : Duration) (maxItems : Z)
    (ops : list (Time * cache_op)) :
  (forall items, visits items ≡ₚ map_to_list items) ->
  Forall (fun '(_, op) => forall ns ps, op = OpSet ns ps -> ns <> "") ops ->
  let m := apply_ops visits ops (NewMemoryPolicyCacheWithLimits ttl maxItems) in
  Z.of_nat (size (pc_items m)) <= (if maxItems <=? 0 then 10000 else maxItems).
Proof.
  intros Hv Hops m. set (m0 := NewMemoryPolicyCacheWithLimits ttl maxItems) in m.
  assert (H : pc_maxItems m = pc_maxItems m0 /\ within_capacity m); [|destruct H as [E [_ H]]; rewrite E in H; exact H].
  assert (Hn : named m0) by apply lookup_empty.
  assert (Hc : within_capacity m0).
  { unfold within_capacity, m0. cbn. rewrite map_size_empty. zcases. }
  unfold m. clear m. revert Hn Hc. generalize m0 as m1. clear m0.
  induction Hops as [|[now op] ops Hop _ IH]; intros m1 Hn Hc; [done|]. cbn [apply_ops fold_left].
  destruct (apply_op_capacity visits Hv now op m1 Hop Hn Hc) as [Hn' Hc'].
  destruct (IH _ Hn' Hc') as [E ?]. split; [|done]. unfold apply_ops in E. rewrite E. by destruct op.
Qed.


(** ** Freshness *)

(** An operation that replaces or removes the entry of a namespace. *)
Definition touches (namespace : string) (op : cache_op) : bool :=
  match op with
  | OpSet ns _ | OpInvalidate ns => String.eqb ns namespace
  | OpSweep => false
  end.

Lemma evictOldest_subseteq entries items : evictOldest entries items ⊆ items.
Proof.
  unfold evictOldest. destruct (fold_left _ _ _) as [[k t]|]; [|done].
  destruct (String.eqb k ""); [done|]. apply delete_subseteq.
Qed.

(** An entry that is found after an operation was stored by it or was there before. *)
Lemma apply_op_lookup visits now op m ns it :
  pc_items (apply_op visits now op m) !! ns = Some it ->
  (exists ps, op = OpSet ns ps /\
     it = {| it_policies := ps; it_expiry := time_Add now (pc_ttl m); it_lastUsed := now |}) \/
  (touches ns op = false /\ pc_items m !! ns = Some it).
Proof.
  destruct op as [ns' ps|ns'|]; cbn [apply_op touches].
  - unfold Set_. cbn [pc_items]. set (it' := {| it_policies := ps |}). intros H.
    assert (Hl : <[ns' := it']> (pc_items m) !! ns = Some it).
    { destruct (_ && _); [|done]. eapply lookup_weaken; [exact H|]. apply evictOldest_subseteq. }
    destruct (String.eqb_spec ns' ns) as [->|Hne].
    + rewrite lookup_insert_eq in Hl. injection Hl as <-. left. by exists ps.
    + rewrite lookup_insert_ne in Hl by done. by right.
  - cbn. destruct (String.eqb_spec ns' ns) as [->|Hne]; [by rewrite lookup_delete_eq|].
    rewrite lookup_delete_ne by done. by right.
  - cbn. rewrite map_lookup_filter. destruct (pc_items m !! ns) as [it'|]; [|done]. cbn.
    intros H. right. case_guard; by simplify_eq/=.
Qed.

Lemma apply_ops_snoc visits ops now op m :
  apply_ops visits (ops ++ [(now, op)]) m = apply_op visits now op (apply_ops visits ops m).
Proof. unfold apply_ops. by rewrite fold_left_app. Qed.

Lemma apply_op_ttl visits now op m : pc_ttl (apply_op visits now op m) = pc_ttl m.
Proof. by destruct op. Qed.

Lemma apply_ops_ttl visits ops m : pc_ttl (apply_ops visits ops m) = pc_ttl m.
Proof.
  induction ops as [|[now op] ops IH] using rev_ind; [done|].
  by rewrite apply_ops_snoc, apply_op_ttl.
Qed.

(** Reads are fresh: what a read at time [t] returns was stored under its namespace no
    more than the time-to-live ago, and nothing has been stored under it, nor has
    it been invalidated, since. *)
Theorem cache_fresh (visits : gmap string item -> list (string * item)) (ttl : Duration) (maxItems : Z)
    (ops : list (Time * cache_op)) (t : Time) (ns : string) (ps : list Policy) :
  let m0 := NewMemoryPolicyCacheWithLimits ttl maxItems in
  Get t ns (apply_ops visits ops m0) = Some ps ->
  exists before now after, ops = before ++ (now, OpSet ns ps) :: after /\ t <= now + pc_ttl m0 /\
    Forall (fun '(_, op) => touches ns op = false) after.
Proof.
  intros m0. unfold Get. destruct (pc_items (apply_ops visits ops m0) !! ns) as [it|] eqn:Hit; [|done].
  destruct (After t (it_expiry it)) eqn:E; [done|]. intros [= Hps]. unfold After in E. zify_bool.
  assert (Hex : exists before now after, ops = before ++ (now, OpSet ns ps) :: after /\
    it_expiry it = now + pc_ttl m0 /\ Forall (fun '(_, op) => touches ns op = false) after).
  { clear E t. revert Hit. induction ops as [|[now op] ops IH] using rev_ind; [done|].
    rewrite apply_ops_snoc. intros [(ps' & -> & ->)|[Ht Hit]]%apply_op_lookup.
    - exists ops, now, []. cbn in Hps. subst ps'. split_and!; [done| |done].
      cbn. by rewrite apply_ops_ttl.
    - destruct (IH Hit) as (before & now' & after & -> & He & Hf).
      exists before, now', (after ++ [(now, op)]). split_and!; [by rewrite <- app_assoc|done|].
      apply Forall_app. by repeat constructor. }
  destruct Hex as (before & now & after & ? & He & ?). exists before, now, after. split_and!; [done|lia|done].
Qed.

(** ** Loading once: [GetOrLoad]

    Any number of callers run [GetOrLoad] on one cache.  A caller goes through the
    phases below; a step is what the code does under one lock, or one return of the
    loader, with whatever it returns. *)

Module SingleFlight.

(** Where a caller is: about to read the cache; past the miss; running the loader
    for its call; done with the loader, about to remove the call; waiting for
    another caller's call; returned. *)
Inductive phase :=
| Reading
| Missed
| Loading (call : nat)
| Removing (call : nat)
| Waiting (call : nat)
| Returned (r : result (list Policy)).

(** [sf_calls] is [sfCalls], with calls named by numbers; [sf_done] are the results
    of the calls whose wait group is done. *)
Record state := {
  sf_cache : MemoryPolicyCache;
  sf_calls : gmap string nat;
  sf_done : gmap nat (result (list Policy));
  sf_next : nat;
  sf_callers : list (string * phase)
}.

Definition move (i : nat) (ns : string) (ph : phase) (s : state) : state :=
  {| sf_cache := sf_cache s; sf_calls := sf_calls s; sf_done := sf_done s; sf_next := sf_next s;
     sf_callers := <[i := (ns, ph)]> (sf_callers s) |}.

Section Steps.
Context (visits : gmap string item -> list (string * item)).

Inductive step : state -> state -> Prop :=
| st_hit s i ns now ps :
    sf_callers s !! i = Some (ns, Reading) -> Get now ns (sf_cache s) = Some ps ->
    step s (move i ns (Returned (Ok ps)) s)
| st_miss s i ns now :
    sf_callers s !! i = Some (ns, Reading) -> Get now ns (sf_cache s) = None ->
    step s (move i ns Missed s)
| st_join s i ns c :
    sf_callers s !! i = Some (ns, Missed) -> sf_calls s !! ns = Some c ->
    step s (move i ns (Waiting c) s)
| st_lead s i ns :
    sf_callers s !! i = Some (ns, Missed) -> sf_calls s !! ns = None ->
    step s {| sf_cache := sf_cache s; sf_calls := <[ns := sf_next s]> (sf_calls s); sf_done := sf_done s;
              sf_next := S (sf_next s); sf_callers := <[i := (ns, Loading (sf_next s))]> (sf_callers s) |}
| st_loaded s i ns c now r :
    sf_callers s !! i = Some (ns, Loading c) ->
    step s {| sf_cache := match r with Ok ps => Set_ visits now ns ps (sf_cache s) | Err _ => sf_cache s end;
              sf_calls := sf_calls s; sf_done := <[c := r]> (sf_done s); sf_next := sf_next s;
              sf_callers := <[i := (ns, Removing c)]> (sf_callers s) |}
| st_remove s i ns c r :
    sf_callers s !! i = Some (ns, Removing c) -> sf_done s !! c = Some r ->
    step s {| sf_cache := sf_cache s; sf_calls := delete ns (sf_calls s); sf_done := sf_done s;
              sf_next := sf_next s; sf_callers := <[i := (ns, Returned r)]> (sf_callers s) |}
| st_wake s i ns c r :
    sf_callers s !! i = Some (ns, Waiting c) -> sf_done s !! c = Some r ->
    step s (move i ns (Returned r) s).

(** The call a caller leads, from the moment it registers it until it removes it. *)
Definition leads (ph : phase) : option nat :=
  match ph with Loading c | Removing c => Some c | _ => None end.

(** Every led call is registered under the leader's namespace, and led once. *)
Record sf_inv (s : state) : Prop := {
  inv_registered i ns ph c :
    sf_callers s !! i = Some (ns, ph) -> leads ph = Some c -> sf_calls s !! ns = Some c;
  inv_fresh i ns ph c :
    sf_callers s !! i = Some (ns, ph) -> leads ph = Some c -> (c < sf_next s)%nat;
  inv_once i j ns ns' ph ph' c :
    sf_callers s !! i = Some (ns, ph) -> sf_callers s !! j = Some (ns', ph') ->
    leads ph = Some c -> leads ph' = Some c -> i = j
}.

(** Looking up a caller after one of them moved. *)
Lemma moved_lookup (callers : list (string * phase)) i j ns ph ns' ph' :
  <[i := (ns, ph)]> callers !! j = Some (ns', ph') ->
  (j = i /\ ns' = ns /\ ph' = ph) \/ (j <> i /\ callers !! j = Some (ns', ph')).
Proof.
  destruct (decide (j = i)) as [->|Hne].
  - intros H. left. assert (Hi : (i < length callers)%nat).
    { apply lookup_lt_Some in H. by rewrite length_insert in H. }
    rewrite list_lookup_insert_eq in H by done. by simplify_eq.
  - rewrite list_lookup_insert_ne by done. auto.
Qed.

(** A caller that neither starts nor stops leading. *)
Lemma sf_inv_move s i ns ph ph' cache done :
  sf_callers s !! i = Some (ns, ph) -> leads ph' = leads ph -> sf_inv s ->
  sf_inv {| sf_cache := cache; sf_calls := sf_calls s; sf_done := done; sf_next := sf_next s;
            sf_callers := <[i := (ns, ph')]> (sf_callers s) |}.
Proof.
  intros Hi Hl [H1 H2 H3]. split; cbn [sf_callers sf_calls sf_next].
  - intros j ns1 ph1 c [(-> & -> & ->)|[Hne Hj]]%moved_lookup Hc; [|by eapply H1]. rewrite Hl in Hc. by eapply H1.
  - intros j ns1 ph1 c [(-> & -> & ->)|[Hne Hj]]%moved_lookup Hc; [|by eapply H2]. rewrite Hl in Hc. by eapply H2.
  - intros j k ns1 ns2 ph1 ph2 c [(-> & -> & ->)|[Hj1 Hj]]%moved_lookup [(-> & -> & ->)|[Hk1 Hk]]%moved_lookup Hc1 Hc2;
      [done|..]; rewrite ?Hl in *; by eapply (H3 _ _ _ _ _ _ c).
Qed.

Lemma sf_inv_step s s' : step s s' -> sf_inv s -> sf_inv s'.
Proof.
  intros Hstep Hinv. destruct Hstep as [s i ns now ps Hi _|s i ns now Hi _|s i ns c Hi _|s i ns Hi Hn
    |s i ns c now r Hi|s i ns c r Hi _|s i ns c r Hi _];
    try (by eapply sf_inv_move).
  - destruct Hinv as [H1 H2 H3].
    assert (Hns : forall j ns' ph' c, sf_callers s !! j = Some (ns', ph') -> leads ph' = Some c -> ns' <> ns).
    { intros j ns' ph' c Hj Hc ->. rewrite (H1 _ _ _ _ Hj Hc) in Hn. done. }
    split; cbn [sf_callers sf_calls sf_next].
    + intros j ns1 ph1 c [(-> & -> & ->)|[Hne Hj]]%moved_lookup Hc.
      * injection Hc as <-. apply lookup_insert_eq.
      * rewrite lookup_insert_ne; [by eapply H1|]. apply not_eq_sym. by eapply Hns.
    + intros j ns1 ph1 c [(-> & -> & ->)|[Hne Hj]]%moved_lookup Hc; [injection Hc as <-; lia|].
      specialize (H2 _ _ _ _ Hj Hc). lia.
    + intros j k ns1 ns2 ph1 ph2 c [(-> & -> & ->)|[Hj1 Hj]]%moved_lookup
        [(-> & -> & ->)|[Hk1 Hk]]%moved_lookup Hc1 Hc2; [done|..|by eapply H3].
      * injection Hc1 as <-. specialize (H2 _ _ _ _ Hk Hc2). lia.
      * injection Hc2 as <-. specialize (H2 _ _ _ _ Hj Hc1). lia.
  - pose proof Hinv as [H1 H2 H3]. split; cbn [sf_callers sf_calls sf_next].
    + intros j ns1 ph1 c1 [(-> & -> & ->)|[Hne Hj]]%moved_lookup Hc; [done|].
      rewrite lookup_delete_ne; [by eapply H1|]. intros <-.
      pose proof (H1 _ _ _ _ Hi eq_refl) as E1. pose proof (H1 _ _ _ _ Hj Hc) as E2.
      rewrite E1 in E2. injection E2 as <-. apply Hne. by eapply H3.
    + intros j ns1 ph1 c1 [(-> & -> & ->)|[Hne Hj]]%moved_lookup Hc; [done|by eapply H2].
    + intros j k ns1 ns2 ph1 ph2 c1 [(-> & -> & ->)|[Hj1 Hj]]%moved_lookup
        [(-> & -> & ->)|[Hk1 Hk]]%moved_lookup Hc1 Hc2; try done. by eapply H3.
Qed.
End Steps.

(** All the callers at the start, on some cache. *)
Definition start (cache : MemoryPolicyCache) (namespaces : list string) : state :=
  {| sf_cache := cache; sf_calls := ∅; sf_done := ∅; sf_next := 0;
     sf_callers := (fun ns => (ns, Reading)) <$> namespaces |}.

Lemma start_inv cache namespaces : sf_inv (start cache namespaces).
Proof.
  split; intros i; intros; simplify_eq/=;
    match goal with H : (_ <$> namespaces) !! i = Some _ |- _ => rewrite list_lookup_fmap in H end;
    destruct (namespaces !! i); by simplify_eq/=.
Qed.

(** C27 (kind: safety).  Stampede protection: however concurrent callers are interleaved, and whatever the
    loader returns, no two of them are ever running the loader for the same
    namespace. *)
Theorem one_loader_per_namespace (visits : gmap string item -> list (string * item))
    (cache : MemoryPolicyCache) (namespaces : list string) (s : state) (i j : nat) (ns : string) (c c' : nat) :
  rtc (step visits) (start cache namespaces) s ->
  sf_callers s !! i = Some (ns, Loading c) -> sf_callers s !! j = Some (ns, Loading c') -> i = j.
Proof.
  intros Hrtc Hi Hj.
  assert (Hinv : sf_inv s).
  { refine (rtc_ind_r (fun x => sf_inv x) _ _ _ _ Hrtc); [apply start_inv|].
    intros x y _ Hstep. by apply (sf_inv_step visits). }
  destruct Hinv as [H1 _ H3]. pose proof (H1 _ _ _ _ Hi eq_refl) as E1. pose proof (H1 _ _ _ _ Hj eq_refl) as E2.
  rewrite E1 in E2. injection E2 as <-. by eapply H3.
Qed.
End SingleFlight.

(** ** Examples *)

Definition demo_ops : list (Time * cache_op) :=
  [(0, OpSet "a" []); (1, OpSet "b" []); (2, OpSet "c" [])].

Lemma cache_capacity_witness :
  Z.of_nat (size (pc_items (apply_ops map_to_list demo_ops (NewMemoryPolicyCacheWithLimits 0 2)))) <= 2.
Proof.
  apply (cache_capacity map_to_list 0 2 demo_ops); [done|].
  repeat constructor; intros ns ps [= <- <-]; done.
Defined.

Lemma cache_fresh_witness :
  exists before now after, demo_ops = before ++ (now, OpSet "b" []) :: after /\ 5 <= now + 30 * Second.
Proof.
  destruct (cache_fresh map_to_list 0 2 demo_ops 5 "b" []) as (before & now & after & H1 & H2 & _); [reflexivity|].
  exists before, now, after. split; [exact H1|exact H2].
Defined.

Lemma one_loader_witness :
  exists s, rtc (SingleFlight.step map_to_list) (SingleFlight.start (NewMemoryPolicyCache 0) ["a"; "a"]) s /\
    SingleFlight.sf_callers s !! 0%nat = Some ("a", SingleFlight.Loading 0) /\
    forall j c, SingleFlight.sf_callers s !! j = Some ("a", SingleFlight.Loading c) -> 0%nat = j.
Proof.
  set (s0 := SingleFlight.start (NewMemoryPolicyCache 0) ["a"; "a"]).
  set (s1 := SingleFlight.move 0 "a" SingleFlight.Missed s0).
  assert (Hrtc : exists s, rtc (SingleFlight.step map_to_list) s0 s /\
    SingleFlight.sf_callers s !! 0%nat = Some ("a", SingleFlight.Loading 0)).
  { eexists. split; [|].
    - eapply rtc_l; [by apply (SingleFlight.st_miss map_to_list s0 0 "a" 0)|].
      apply rtc_once. by apply (SingleFlight.st_lead map_to_list s1 0 "a").
    - reflexivity. }
  destruct Hrtc as (s & Hrtc & Hi). exists s. split; [exact Hrtc|]. split; [exact Hi|]. intros j c Hj.
  apply (SingleFlight.one_loader_per_namespace map_to_list (NewMemoryPolicyCache 0) ["a"; "a"] s 0 j "a" 0 c);
    [exact Hrtc|exact Hi|exact Hj].
Defined.

(** The entry of the empty namespace, under which requests without tenant and
    organisation are cached, is never evicted; once it is the oldest nothing is,
    and the cache grows past its capacity. *)
Example empty_namespace_defeats_capacity :
  size (pc_items (apply_ops map_to_list ((-1, OpSet "" []) :: demo_ops) (NewMemoryPolicyCacheWithLimits 0 1))) = 4%nat.
Proof. vm_compute. reflexivity. Qed.

(** A read does not renew an entry: the entry evicted is the one stored first, also
    when it has been read since. *)
Example eviction_ignores_reads :
  let m := apply_ops map_to_list [(0, OpSet "a" []); (1, OpSet "b" [])] (NewMemoryPolicyCacheWithLimits 0 2) in
  Get 2 "a" m = Some [] /\ Get 4 "a" (Set_ map_to_list 3 "c" [] m) = None /\
  Get 4 "b" (Set_ map_to_list 3 "c" [] m) = Some [].
Proof. vm_compute. done. Qed.
