(* ===== verification/PolicyStore.v ===== *)
(** * internal/store/policy/file: policies in a JSON file

    Every method holds the store's lock for its whole duration and reads the file
    anew, so the state of the store is the contents of the file.  The system calls
    may fail: a [Sys] says which of them do, and with which error.  encoding/json
    is a parameter, with the round trip of what it can encode as a hypothesis. *)

From S2P Require Import Prelude GoString GoFloat GoTime Model.
Local Open Scope Z_scope.
Local Open Scope stdpp_scope.
Local Open Scope go_scope.

Record payload := {
  pl_Policies : list Policy;
  pl_Audits : list PolicyAuditEntry;
  pl_Versions : option (gmap string (list PolicyVersion))
}.

Definition empty_payload : payload := {| pl_Policies := []; pl_Audits := []; pl_Versions := Some ∅ |}.

(** [pl.Versions[id]]. *)
Definition versions_of (pl : payload) (policyID : string) : list PolicyVersion :=
  match pl_Versions pl with Some m => default [] (m !! policyID) | None => [] end.

(** ** What the methods do to a payload *)

(** The loop of [UpsertPolicy]: replaces the first policy with the id, and returns
    the one it replaced. *)
Fixpoint replace_policy (p : Policy) (all : list Policy) : option Policy * list Policy :=
  match all with
  | [] => (None, [])
  | q :: rest =>
      if String.eqb (pol_PolicyID q) (pol_PolicyID p) then (Some q, p :: rest)
      else let '(old, rest') := replace_policy p rest in (old, q :: rest')
  end.

Definition next_version (vv : list PolicyVersion) : int64 :=
  match last vv with Some v => ver_Version v +! 1 | None => 1 end.

(** The instants at which the three calls of [time.Now] are made. *)
Record Stamps := { st_version : Time; st_auditID : Time; st_audit : Time }.

Definition audit_entry (t : Stamps) (policyID action : string) (old new : option Policy) : PolicyAuditEntry :=
  {| aud_AuditID := "audit-" +:+ FormatInt (UnixNano (st_auditID t)); aud_PolicyID := policyID;
     aud_ActionType := action; aud_ChangedBy := ""; aud_ChangedAtUnix := Unix (st_audit t);
     aud_OldValue := old; aud_NewValue := new |}.

Definition upsert_payload (t : Stamps) (p : Policy) (pl : payload) : payload :=
  let '(old, all) := replace_policy p (pl_Policies pl) in
  let all := match old with Some _ => all | None => all ++ [p] end in
  let vv := versions_of pl (pol_PolicyID p) in
  let v := {| ver_PolicyID := pol_PolicyID p; ver_Version := next_version vv;
              ver_CreatedAtUnix := Unix (st_version t); ver_Snapshot := p |} in
  {| pl_Policies := all;
     pl_Audits := pl_Audits pl ++ [audit_entry t (pol_PolicyID p) "upsert" old (Some p)];
     pl_Versions := Some (<[pol_PolicyID p := vv ++ [v]]> (default ∅ (pl_Versions pl))) |}.

(** The last policy with the id is the one the audit entry records. *)
Definition delete_payload (t : Stamps) (policyID : string) (pl : payload) : payload :=
  let old := last (List.filter (fun p => String.eqb (pol_PolicyID p) policyID) (pl_Policies pl)) in
  {| pl_Policies := List.filter (fun p => negb (String.eqb (pol_PolicyID p) policyID)) (pl_Policies pl);
     pl_Audits := pl_Audits pl ++ [audit_entry t policyID "delete" old None];
     pl_Versions := pl_Versions pl |}.

(** [LoadPolicies] keeps the policies of the namespace and the global ones. *)
Definition in_namespace (tenantOrOrg : string) (p : Policy) : bool :=
  let s := pol_Scope p in
  String.eqb (sc_TenantID s) tenantOrOrg || String.eqb (sc_OrgID s) tenantOrOrg
  || (String.eqb (sc_TenantID s) "" && String.eqb (sc_OrgID s) "").

Definition load_from (tenantOrOrg : string) (pl : payload) : list Policy :=
  if String.eqb tenantOrOrg "" then pl_Policies pl
  else List.filter (in_namespace tenantOrOrg) (pl_Policies pl).

Definition get_from (policyID : string) (pl : payload) : result Policy :=
  match List.find (fun p => String.eqb (pol_PolicyID p) policyID) (pl_Policies pl) with
  | Some p => Ok p
  | None => Err "policy not found"
  end.

(** ** The file *)

(** Whether reading, writing the temporary file and renaming it fail. *)
Record Sys := { sys_read : option string; sys_write : option string; sys_rename : option string }.

(** The file, [None] when it does not exist.  The temporary file beside it is never
    read. *)
Definition Disk : Type := option string.

Section FileStore.
(** encoding/json on the payload, and on a bare list of policies. *)
Context (MarshalIndent : payload -> result string)
        (Unmarshal : string -> result payload)
        (UnmarshalList : string -> result (list Policy)).

Definition readPayload (sys : Sys) (d : Disk) : result payload :=
  match d with
  | None => Ok empty_payload
  | Some raw =>
      match sys_read sys with
      | Some err => Err err
      | None =>
          if String.eqb raw "" then Ok empty_payload
          else match Unmarshal raw with
               | Ok p => Ok {| pl_Policies := pl_Policies p; pl_Audits := pl_Audits p;
                               pl_Versions := Some (default ∅ (pl_Versions p)) |}
               | Err _ =>
                   match UnmarshalList raw with
                   | Ok direct => Ok {| pl_Policies := direct; pl_Audits := []; pl_Versions := Some ∅ |}
                   | Err err => Err err
                   end
               end
      end
  end.

(** The temporary file first, then the rename, which replaces the file at once. *)
Definition writePayload (sys : Sys) (pl : payload) (d : Disk) : result unit * Disk :=
  let pl := {| pl_Policies := pl_Policies pl; pl_Audits := pl_Audits pl;
               pl_Versions := Some (default ∅ (pl_Versions pl)) |} in
  match MarshalIndent pl with
  | Err err => (Err err, d)
  | Ok out =>
      match sys_write sys with
      | Some err => (Err err, d)
      | None =>
          match sys_rename sys with
          | Some err => (Err err, d)
          | None => (Ok (), Some out)
          end
      end
  end.

Definition UpsertPolicy (sys : Sys) (t : Stamps) (p : Policy) (d : Disk) : result unit * Disk :=
  match readPayload sys d with
  | Err err => (Err err, d)
  | Ok pl => writePayload sys (upsert_payload t p pl) d
  end.

Definition DeletePolicy (sys : Sys) (t : Stamps) (policyID : string) (d : Disk) : result unit * Disk :=
  match readPayload sys d with
  | Err err => (Err err, d)
  | Ok pl => writePayload sys (delete_payload t policyID pl) d
  end.

(** Reading methods. *)
Definition reading {A} (f : payload -> result A) (sys : Sys) (d : Disk) : result A :=
  match readPayload sys d with Err err => Err err | Ok pl => f pl end.

Definition LoadPolicies (tenantOrOrg : string) : Sys -> Disk -> result (list Policy) :=
  reading (fun pl => Ok (load_from tenantOrOrg pl)).
Definition GetPolicyByID (policyID : string) : Sys -> Disk -> result Policy :=
  reading (get_from policyID).
Definition ListPolicies : Sys -> Disk -> result (list Policy) :=
  reading (fun pl => Ok (pl_Policies pl)).
Definition ListPolicyAudit (policyID : string) : Sys -> Disk -> result (list PolicyAuditEntry) :=
  reading (fun pl => Ok (List.filter (fun a => String.eqb (aud_PolicyID a) policyID) (pl_Audits pl))).
Definition ListPolicyVersions (policyID : string) : Sys -> Disk -> result (list PolicyVersion) :=
  reading (fun pl => Ok (versions_of pl policyID)).
End FileStore.

(** ** What a payload holds *)

(** Ids are distinct; the versions of every id are numbered from 1 on; and the last
    version of a stored policy is the policy. *)
Record payload_inv (pl : payload) : Prop := {
  pi_ids : NoDup (pol_PolicyID <$> pl_Policies pl);
  pi_numbers id : ver_Version <$> versions_of pl id = seqZ 1 (Z.of_nat (length (versions_of pl id)));
  pi_current p : p ∈ pl_Policies pl ->
    exists v, last (versions_of pl (pol_PolicyID p)) = Some v /\ ver_Snapshot v = p
}.

Lemma replace_policy_spec p all :
  match replace_policy p all with
  | (Some q, all') =>
      exists l1 l2, all = l1 ++ q :: l2 /\ all' = l1 ++ p :: l2 /\ pol_PolicyID q = pol_PolicyID p /\
        pol_PolicyID p ∉ pol_PolicyID <$> l1
  | (None, all') => all' = all /\ pol_PolicyID p ∉ pol_PolicyID <$> all
  end.
Proof.
  induction all as [|q all IH]; cbn [replace_policy]; [split; [done|apply not_elem_of_nil]|].
  destruct (String.eqb_spec (pol_PolicyID q) (pol_PolicyID p)) as [E|Hne].
  - exists [], all. split_and!; [done..|apply not_elem_of_nil].
  - destruct (replace_policy p all) as [[q'|] all'].
    + destruct IH as (l1 & l2 & -> & -> & E & Hn). exists (q :: l1), l2. split_and!; [done..|].
      rewrite fmap_cons, not_elem_of_cons. auto.
    + destruct IH as [-> Hn]. split; [done|]. rewrite fmap_cons, not_elem_of_cons. auto.
Qed.

(** The policies after an update, as a set: the new one and the others. *)
Lemma upsert_policies t p pl :
  NoDup (pol_PolicyID <$> pl_Policies pl) ->
  NoDup (pol_PolicyID <$> pl_Policies (upsert_payload t p pl)) /\
  forall q, q ∈ pl_Policies (upsert_payload t p pl) <->
    q = p \/ (q ∈ pl_Policies pl /\ pol_PolicyID q <> pol_PolicyID p).
Proof.
  intros Hnd. unfold upsert_payload. pose proof (replace_policy_spec p (pl_Policies pl)) as H.
  destruct (replace_policy p (pl_Policies pl)) as [[old|] all].
  - destruct H as (l1 & l2 & E & -> & Hid & Hn). cbn [pl_Policies]. rewrite E in Hnd |- *.
    rewrite fmap_app, fmap_cons in Hnd |- *. rewrite Hid in Hnd. split; [done|].
    apply NoDup_app in Hnd as (_ & _ & Hnd2). apply NoDup_cons in Hnd2 as [Hn2 _].
    intros q. rewrite !elem_of_app, !elem_of_cons.
    assert (forall l : list Policy, pol_PolicyID p ∉ pol_PolicyID <$> l -> q ∈ l -> pol_PolicyID q <> pol_PolicyID p) as Hout.
    { intros l Hl Hq Eq. apply Hl. rewrite <- Eq. by apply list_elem_of_fmap_2. }
    specialize (Hout l1 Hn) as Hout1. specialize (Hout l2 Hn2) as Hout2.
    split; [tauto|]. intros [->|[[|[->|]] ]]; tauto.
  - destruct H as [-> Hn]. cbn [pl_Policies]. split.
    + rewrite fmap_app. apply NoDup_app. split_and!; [done| |apply NoDup_singleton].
      intros x Hx ->%list_elem_of_singleton. done.
    + intros q. rewrite elem_of_app, list_elem_of_singleton. split; [|tauto].
      intros [Hq| ->]; [right|by left]. split; [done|]. intros Eq. apply Hn. rewrite <- Eq.
      by apply list_elem_of_fmap_2.
Qed.

Lemma versions_upsert t p pl id :
  versions_of (upsert_payload t p pl) id =
  if String.eqb id (pol_PolicyID p)
  then versions_of pl id ++
       [{| ver_PolicyID := id; ver_Version := next_version (versions_of pl id);
           ver_CreatedAtUnix := Unix (st_version t); ver_Snapshot := p |}]
  else versions_of pl id.
Proof.
  unfold upsert_payload. destruct (replace_policy p (pl_Policies pl)) as [old all].
  unfold versions_of at 1. cbn [pl_Versions]. destruct (String.eqb_spec id (pol_PolicyID p)) as [->|Hne].
  - by rewrite lookup_insert_eq.
  - rewrite lookup_insert_ne by done. unfold versions_of. by destruct (pl_Versions pl).
Qed.

Lemma next_version_number vv :
  ver_Version <$> vv = seqZ 1 (Z.of_nat (length vv)) -> Z.of_nat (length vv) < maxInt64 ->
  next_version vv = Z.of_nat (length vv) + 1.
Proof.
  unfold next_version. destruct vv as [|v vv _] using rev_ind; [done|].
  rewrite last_snoc, fmap_app, length_app, Nat.add_1_r, seqZ_S. intros H Hlen.
  apply app_inj_tail in H as [_ H]. rewrite H. unwrap. lia.
Qed.

Lemma upsert_inv t p pl :
  Z.of_nat (length (versions_of pl (pol_PolicyID p))) < maxInt64 ->
  payload_inv pl -> payload_inv (upsert_payload t p pl).
Proof.
  intros Hlen [Hids Hnum Hcur]. destruct (upsert_policies t p pl Hids) as [Hids' Hin]. split; [done|..].
  - intros id. rewrite versions_upsert. destruct (String.eqb_spec id (pol_PolicyID p)) as [->|]; [|done].
    rewrite fmap_app, length_app, Nat.add_1_r, seqZ_S, <- Hnum. cbn [fmap list_fmap ver_Version].
    rewrite next_version_number by done. do 2 f_equal. lia.
  - intros q Hq. apply Hin in Hq as [->|[Hq Hne]]; rewrite versions_upsert.
    + rewrite String.eqb_refl, last_snoc. eauto.
    + destruct (String.eqb_spec (pol_PolicyID q) (pol_PolicyID p)); [done|]. by apply Hcur.
Qed.

Lemma delete_policies t id pl q :
  q ∈ pl_Policies (delete_payload t id pl) <-> q ∈ pl_Policies pl /\ pol_PolicyID q <> id.
Proof.
  cbn [delete_payload pl_Policies]. rewrite !list_elem_of_In, List.filter_In, negb_true_iff, String.eqb_neq. done.
Qed.

Lemma delete_inv t id pl : payload_inv pl -> payload_inv (delete_payload t id pl).
Proof.
  intros [Hids Hnum Hcur]. split.
  - cbn [delete_payload pl_Policies]. induction (pl_Policies pl) as [|q l IH]; [done|].
    rewrite fmap_cons in Hids. apply NoDup_cons in Hids as [Hn Hids]. cbn [List.filter].
    assert (IH' : NoDup (pol_PolicyID <$> List.filter (fun p => negb (String.eqb (pol_PolicyID p) id)) l)).
    { apply IH; [done|]. intros p Hp. apply Hcur. by right. }
    destruct (negb _); [|done]. rewrite fmap_cons. constructor; [|done].
    intros (x & E & Hx)%list_elem_of_fmap. apply Hn. rewrite E. apply list_elem_of_fmap_2.
    apply list_elem_of_In, List.filter_In in Hx as [Hx _]. by apply list_elem_of_In.
  - exact Hnum.
  - intros q [Hq _]%delete_policies. by apply Hcur.
Qed.

(** Updates and deletions of policies. *)
Inductive policy_op :=
| Upsert (t : Stamps) (p : Policy)
| Remove (t : Stamps) (policyID : string).

Definition op_payload (op : policy_op) (pl : payload) : payload :=
  match op with Upsert t p => upsert_payload t p pl | Remove t id => delete_payload t id pl end.

Lemma op_payload_versions op pl id :
  (length (versions_of (op_payload op pl) id) <= S (length (versions_of pl id)))%nat.
Proof.
  destruct op as [t p|t id']; cbn [op_payload]; [|change (versions_of (delete_payload t id' pl) id) with (versions_of pl id); lia].
  rewrite versions_upsert. destruct (String.eqb _ _); [rewrite length_app; simpl|]; lia.
Qed.

Definition run_ops (ops : list policy_op) (pl : payload) : payload :=
  fold_left (fun pl op => op_payload op pl) ops pl.

(** C22 (kind: invariant).  Policy history is consistent: after any sequence of updates and deletions from
    an empty store, policy ids are distinct, the versions of every id, deleted
    or not, are numbered 1, 2, 3 and so on, and the last version of every stored
    policy is that policy. *)
Theorem history_consistent (ops : list policy_op) :
  Z.of_nat (length ops) < maxInt64 -> payload_inv (run_ops ops empty_payload).
Proof.
  intros Hlen. enough (H : payload_inv (run_ops ops empty_payload) /\
    forall id, (length (versions_of (run_ops ops empty_payload) id) <= length ops)%nat) by apply H.
  induction ops as [|op ops IH] using rev_ind.
  - split; [|by intros id; cbn; rewrite lookup_empty]. split; [constructor| |].
    + intros id. cbn. by rewrite lookup_empty.
    + intros p Hp. by apply elem_of_nil in Hp.
  - rewrite length_app in Hlen. simpl in Hlen. destruct IH as [IH1 IH2]; [lia|].
    unfold run_ops in *. rewrite fold_left_app. cbn [fold_left]. split.
    + destruct op as [t p|t id]; cbn [op_payload]; [|by apply delete_inv].
      apply upsert_inv; [|done]. specialize (IH2 (pol_PolicyID p)). lia.
    + intros id. rewrite length_app. simpl. specialize (IH2 id).
      pose proof (op_payload_versions op (fold_left (fun pl op => op_payload op pl) ops empty_payload) id). lia.
Qed.

(** ** The file holds the payload *)

Definition no_failure : Sys := {| sys_read := None; sys_write := None; sys_rename := None |}.

Section Refinement.
Context (MarshalIndent : payload -> result string)
        (Unmarshal : string -> result payload)
        (UnmarshalList : string -> result (list Policy)).
(** The payloads that survive encoding: all their texts are valid UTF-8. *)
Context (encodable : payload -> Prop).
(** What is encoded is decoded again, and is not the empty text. *)
Hypothesis json_roundtrip : forall pl raw,
  encodable pl -> MarshalIndent pl = Ok raw -> raw <> "" /\ Unmarshal raw = Ok pl.

Definition op_file (sys : Sys) (op : policy_op) (d : Disk) : result unit * Disk :=
  match op with
  | Upsert t p => UpsertPolicy MarshalIndent Unmarshal UnmarshalList sys t p d
  | Remove t id => DeletePolicy MarshalIndent Unmarshal UnmarshalList sys t id d
  end.

Lemma readPayload_versions sys d pl :
  readPayload Unmarshal UnmarshalList sys d = Ok pl -> exists m, pl_Versions pl = Some m.
Proof.
  unfold readPayload. destruct d as [raw|]; [|intros [= <-]; by eexists].
  destruct (sys_read sys); [done|]. destruct (String.eqb raw ""); [intros [= <-]; by eexists|].
  destruct (Unmarshal raw); [intros [= <-]; by eexists|].
  destruct (UnmarshalList raw); [intros [= <-]; by eexists|done].
Qed.

Lemma writePayload_ok sys pl d d' m :
  pl_Versions pl = Some m -> encodable pl ->
  writePayload MarshalIndent sys pl d = (Ok (), d') ->
  readPayload Unmarshal UnmarshalList no_failure d' = Ok pl.
Proof.
  intros Hm He. unfold writePayload. rewrite Hm. cbn [default from_option id].
  replace {| pl_Policies := pl_Policies pl; pl_Audits := pl_Audits pl; pl_Versions := Some m |} with pl
    by (destruct pl; simpl in *; by subst).
  destruct (MarshalIndent pl) as [out|] eqn:E; [|done].
  destruct (sys_write sys); [done|]. destruct (sys_rename sys); [done|]. intros [= <-].
  destruct (json_roundtrip pl out He E) as [Hne Hu]. unfold readPayload. cbn [no_failure sys_read].
  destruct (String.eqb_spec out ""); [done|]. rewrite Hu, Hm. destruct pl; simpl in *. by subst.
Qed.

(** An update or deletion that fails, at whatever system call, leaves the file as
    it was; one that succeeds leaves a file that reads as the updated payload. *)
Lemma op_file_refines sys op d r d' :
  op_file sys op d = (r, d') ->
  match r with
  | Err _ => d' = d
  | Ok _ => exists pl, readPayload Unmarshal UnmarshalList sys d = Ok pl /\
      (encodable (op_payload op pl) ->
       readPayload Unmarshal UnmarshalList no_failure d' = Ok (op_payload op pl))
  end.
Proof.
  intros H.
  assert (Hw : forall pl, exists m, pl_Versions (op_payload op pl) = Some m \/ pl_Versions (op_payload op pl) = pl_Versions pl).
  { intros pl. destruct op as [t p|t id]; cbn [op_payload].
    - unfold upsert_payload. destruct (replace_policy p (pl_Policies pl)). eexists. by left.
    - exists ∅. by right. }
  assert (Hop : op_file sys op d = match readPayload Unmarshal UnmarshalList sys d with
    | Err err => (Err err, d) | Ok pl => writePayload MarshalIndent sys (op_payload op pl) d end)
    by by destruct op.
  rewrite Hop in H. destruct (readPayload Unmarshal UnmarshalList sys d) as [pl|err] eqn:Er; [|by simplify_eq].
  destruct r as [[]|err].
  - exists pl. split; [done|]. intros He. destruct (Hw pl) as [m [Hm|Hm]].
    + by eapply (writePayload_ok sys _ d d' m).
    + destruct (readPayload_versions _ _ _ Er) as [m' Hm']. rewrite Hm' in Hm.
      by eapply (writePayload_ok sys _ d d' m').
  - unfold writePayload in H. destruct (MarshalIndent _); [|by simplify_eq].
    destruct (sys_write sys); [by simplify_eq|]. destruct (sys_rename sys); by simplify_eq.
Qed.
End Refinement.

(** C23 (kind: refinement).  The file refines the payload: an update or deletion that fails, at whatever system
    call, leaves the file as it was; one that succeeds leaves a file that reads as
    the updated payload. *)
Theorem file_store_refines (MarshalIndent : payload -> result string) (Unmarshal : string -> result payload)
    (UnmarshalList : string -> result (list Policy)) (encodable : payload -> Prop)
    (sys : Sys) (op : policy_op) (d d' : Disk) (r : result unit) :
  (forall pl raw, encodable pl -> MarshalIndent pl = Ok raw -> raw <> "" /\ Unmarshal raw = Ok pl) ->
  op_file MarshalIndent Unmarshal UnmarshalList sys op d = (r, d') ->
  match r with
  | Err _ => d' = d
  | Ok _ => exists pl, readPayload Unmarshal UnmarshalList sys d = Ok pl /\
      (encodable (op_payload op pl) ->
       readPayload Unmarshal UnmarshalList no_failure d' = Ok (op_payload op pl))
  end.
Proof. intros Hj. by apply op_file_refines. Qed.

(** ** Reading back *)

Lemma get_from_Ok id pl q :
  NoDup (pol_PolicyID <$> pl_Policies pl) ->
  get_from id pl = Ok q <-> q ∈ pl_Policies pl /\ pol_PolicyID q = id.
Proof.
  unfold get_from. induction (pl_Policies pl) as [|p l IH]; cbn [List.find].
  { intros _. split; [done|]. intros [H _]. by apply elem_of_nil in H. }
  rewrite fmap_cons. intros [Hn Hnd]%NoDup_cons. specialize (IH Hnd). rewrite elem_of_cons.
  destruct (String.eqb_spec (pol_PolicyID p) id) as [<-|Hne].
  - split; [intros [= ->]; by split; [left|]|]. intros [[->|Hq] E]; [done|].
    destruct Hn. rewrite <- E. by apply list_elem_of_fmap_2.
  - rewrite IH. split; [tauto|]. intros [[->|Hq] E]; [congruence|done].
Qed.

(** Stores with the same policies of an id answer alike for it. *)
Lemma get_from_ext id pl1 pl2 :
  NoDup (pol_PolicyID <$> pl_Policies pl1) -> NoDup (pol_PolicyID <$> pl_Policies pl2) ->
  (forall q, pol_PolicyID q = id -> q ∈ pl_Policies pl1 <-> q ∈ pl_Policies pl2) ->
  get_from id pl1 = get_from id pl2.
Proof.
  intros H1 H2 Hq. pose proof (get_from_Ok id pl1) as G1. pose proof (get_from_Ok id pl2) as G2.
  destruct (get_from id pl1) as [q|e] eqn:E1.
  - symmetry. apply G2; [done|]. destruct (proj1 (G1 q H1) eq_refl) as [Hin Hid]. split; [by apply Hq|done].
  - destruct (get_from id pl2) as [q|e'] eqn:E2.
    + destruct (proj1 (G2 q H2) eq_refl) as [Hin Hid]. exfalso.
      enough (Err e = Ok q) by done. apply G1; [done|]. split; [by apply Hq|done].
    + unfold get_from in E1, E2. destruct (List.find _ (pl_Policies pl1)); [done|].
      destruct (List.find _ (pl_Policies pl2)); [done|]. congruence.
Qed.

(** Updating and reading back: after an update the policy is found under its id and
    its version history has grown by one entry, numbered next, that holds it; after
    a deletion it is not found and its history is kept; no other policy changes. *)
Theorem update_read_back (op : policy_op) (pl : payload) :
  payload_inv pl ->
  match op with
  | Upsert t p =>
      let id := pol_PolicyID p in
      let pl' := upsert_payload t p pl in
      get_from id pl' = Ok p /\ (forall id', id' <> id -> get_from id' pl' = get_from id' pl) /\
      exists v, versions_of pl' id = versions_of pl id ++ [v] /\ ver_Snapshot v = p /\
        (Z.of_nat (length (versions_of pl id)) < maxInt64 ->
         ver_Version v = Z.of_nat (length (versions_of pl id)) + 1)
  | Remove t id =>
      let pl' := delete_payload t id pl in
      get_from id pl' = Err "policy not found" /\
      (forall id', id' <> id -> get_from id' pl' = get_from id' pl) /\
      versions_of pl' id = versions_of pl id
  end.
Proof.
  intros Hinv. pose proof Hinv as [Hids Hnum Hcur]. destruct op as [t p|t id].
  - destruct (upsert_policies t p pl Hids) as [Hids' Hin]. intros id pl'. split_and!.
    + apply get_from_Ok; [done|]. split; [|done]. apply Hin. by left.
    + intros id' Hne. apply get_from_ext; [done..|]. intros q Hq. unfold pl'. rewrite Hin. split.
      * intros [->|[? _]]; [by destruct Hne|done].
      * intros Hq'. right. split; [done|]. rewrite Hq. exact Hne.
    + unfold pl'. rewrite versions_upsert, String.eqb_refl. eexists. split; [done|]. split; [done|].
      intros Hlen. by apply next_version_number.
  - intros pl'. pose proof (pi_ids _ (delete_inv t id pl Hinv)) as Hids'. split_and!; [| |done].
    + destruct (get_from id pl') as [q|e] eqn:E.
      * apply get_from_Ok in E as [Hq E]; [|done]. unfold pl' in Hq. by apply delete_policies in Hq as [_ Hq].
      * unfold get_from in E. destruct (List.find _ _); [done|]. by injection E as <-.
    + intros id' Hne. apply get_from_ext; [done..|]. intros q Hq. unfold pl'. rewrite delete_policies.
      split; [tauto|]. intros Hin. split; [done|]. congruence.
Qed.

(** ** Examples *)

Definition store_policy (id : string) (limit : int64) : Policy :=
  mkPolicy id zeroScope (mkConfig AlgoFixedWindow limit "1m") ActionDeny.
Definition noon : Stamps := {| st_version := 43200 * Second; st_auditID := 43200 * Second; st_audit := 43200 * Second |}.
Definition store_ops : list policy_op :=
  [Upsert noon (store_policy "a" 1); Upsert noon (store_policy "b" 2); Upsert noon (store_policy "a" 3);
   Remove noon "a"; Upsert noon (store_policy "a" 4)].

Lemma history_consistent_witness :
  ver_Version <$> versions_of (run_ops store_ops empty_payload) "a" = [1; 2; 3] /\
  payload_inv (run_ops store_ops empty_payload).
Proof. split; [reflexivity|]. apply (history_consistent store_ops). reflexivity. Defined.

Lemma update_read_back_witness :
  get_from "a" (upsert_payload noon (store_policy "a" 1) empty_payload) = Ok (store_policy "a" 1).
Proof.
  apply (update_read_back (Upsert noon (store_policy "a" 1)) empty_payload).
  split; [constructor|intros id; cbn; by rewrite lookup_empty|].
  intros p Hp. by apply elem_of_nil in Hp.
Defined.

(** An encoding of one payload. *)
Lemma file_store_refines_witness :
  let pl := upsert_payload noon (store_policy "a" 1) empty_payload in
  readPayload (fun _ => Ok pl) (fun _ => Err "") no_failure
    (op_file (fun _ => Ok "{}") (fun _ => Ok pl) (fun _ => Err "") no_failure
       (Upsert noon (store_policy "a" 1)) None).2 = Ok pl.
Proof.
  set (pl := upsert_payload noon (store_policy "a" 1) empty_payload).
  destruct (file_store_refines (fun _ => Ok "{}") (fun _ => Ok pl) (fun _ => Err "") (fun p => p = pl)
    no_failure (Upsert noon (store_policy "a" 1)) None (Some "{}") (Ok ())) as (pl0 & H0 & H);
    [|reflexivity|].
  - intros pl1 raw -> [= <-]. by split.
  - cbn in H0. injection H0 as <-. by apply H.
Defined.
