(* ===== verification/Engine.v ===== *)
(** * internal/engine/evaluator and pkg/rlaas: from a request to a decision

    [pickPolicy] reads the policy cache and the policy store; everything after it
    only makes counter store calls.  So evaluating a request is a [prog] together
    with the cache that picking the policy leaves behind. *)

From S2P Require Import Prelude GoString GoFloat GoTime Model Store Protocol Common MemoryStore CasLimit.
From S2P Require Import FixedWindow Quota Concurrency SlidingLog SlidingCounter TokenBucket LeakyBucket Matcher KeyBuilder PolicyCache.
Local Open Scope Z_scope.
Local Open Scope stdpp_scope.
Local Open Scope go_scope.

(** [algorithm.Evaluator]. *)
Definition Algorithm : Type := Policy -> RequestContext -> string -> prog (result Decision).

(** The parts of a [DefaultEngine] that do not change. *)
Record DefaultEngine := {
  en_KeyBuilder : DefaultBuilder;
  en_Algorithms : AlgorithmType -> option Algorithm;
  en_Now : option Time
}.

Definition allowDecision (reason : string) : Decision :=
  {| dec_Allowed := true; dec_Action := ActionAllow; dec_Reason := reason; dec_MatchedPolicyID := "";
     dec_MatchedRuleKey := ""; dec_LimitKey := ""; dec_Remaining := 0; dec_RetryAfter := 0;
     dec_ResetAt := zeroTime; dec_DelayFor := 0; dec_SampleRate := fzero; dec_ShadowMode := false;
     dec_Metadata := None |}.

Definition handleFailure (policy : Policy) (keyStr reason : string) : Decision :=
  let closed := String.eqb (pol_FailureMode policy) FailClosed in
  {| dec_Allowed := negb closed; dec_Action := if closed then ActionDeny else ActionAllow;
     dec_Reason := (if closed then "fail_closed: " else "fail_open: ") +:+ reason;
     dec_MatchedPolicyID := pol_PolicyID policy; dec_MatchedRuleKey := ""; dec_LimitKey := keyStr;
     dec_Remaining := 0; dec_RetryAfter := 0; dec_ResetAt := zeroTime; dec_DelayFor := 0;
     dec_SampleRate := fzero; dec_ShadowMode := false; dec_Metadata := None |}.

Definition isInRollout (policy : Policy) (req : RequestContext) : bool :=
  if pol_RolloutPercent policy <=? 0 then false
  else if 100 <=? pol_RolloutPercent policy then true
  else
    let seed := if String.eqb (req_RequestID req) ""
                then req_OrgID req +:+ ":" +:+ req_TenantID req +:+ ":" +:+ req_UserID req
                else req_RequestID req in
    let bucket := fnv32a (pol_PolicyID policy +:+ ":" +:+ seed) mod 100 in
    bucket <? pol_RolloutPercent policy.

(** The conditions of the loop of [pickPolicy]. *)
Definition eligible (now : Time) (req : RequestContext) (p : Policy) : bool :=
  if negb (pol_Enabled p) then false
  else if (0 <? pol_ValidFromUnix p) && (Unix now <? pol_ValidFromUnix p) then false
  else if (0 <? pol_ValidToUnix p) && (pol_ValidToUnix p <? Unix now) then false
  else if (0 <? pol_RolloutPercent p) && (pol_RolloutPercent p <? 100) && negb (isInRollout p req) then false
  else true.

Definition namespace_of (req : RequestContext) : string :=
  if String.eqb (req_TenantID req) "" then req_OrgID req else req_TenantID req.

(** The decision of an algorithm, labelled, and overridden in shadow mode. *)
Definition finish (policy : Policy) (keyStr : string) (r : result Decision) : Decision :=
  match r with
  | Err err => handleFailure policy keyStr err
  | Ok d =>
      let shadow := String.eqb (pol_EnforcementMode policy) ShadowMode in
      {| dec_Allowed := if shadow then true else dec_Allowed d;
         dec_Action := if shadow then ActionShadowOnly else dec_Action d;
         dec_Reason := if shadow then "shadow_mode" else dec_Reason d;
         dec_MatchedPolicyID := pol_PolicyID policy; dec_MatchedRuleKey := dec_MatchedRuleKey d;
         dec_LimitKey := keyStr; dec_Remaining := dec_Remaining d; dec_RetryAfter := dec_RetryAfter d;
         dec_ResetAt := dec_ResetAt d; dec_DelayFor := dec_DelayFor d; dec_SampleRate := dec_SampleRate d;
         dec_ShadowMode := if shadow then true else dec_ShadowMode d;
         dec_Metadata := if shadow
                         then Some (<["shadow_would_action" := dec_Action d]> (mentries (dec_Metadata d)))
                         else dec_Metadata d |}
  end.

(** A lease: the decision and, when a slot was taken, the key whose lease the
    release function gives back. *)
Definition Lease : Type := Decision * option string.

Section Engine.
Context (visits : gmap string item -> list (string * item)).
Context (e : DefaultEngine).
(** [PolicyStore.LoadPolicies] at the moment of the call. *)
Context (LoadPolicies : string -> result (list Policy)).

(** [wall] is the time of day, [now] the engine's time. *)
Definition load_policies (wall : Time) (namespace : string) (c : MemoryPolicyCache)
    : result (list Policy) * MemoryPolicyCache :=
  match PolicyCache.Get wall namespace c with
  | Some policies => (Ok policies, c)
  | None =>
      match LoadPolicies namespace with
      | Err err => (Err err, c)
      | Ok loaded => (Ok loaded, Set_ visits wall namespace loaded c)
      end
  end.

Definition pickPolicy (wall : Time) (req : RequestContext) (c : MemoryPolicyCache)
    : result (option (Policy * string)) * MemoryPolicyCache :=
  let now := default wall (en_Now e) in
  let '(loaded, c') := load_policies wall (namespace_of req) c in
  (match loaded with
   | Err err => Err err
   | Ok policies =>
       let candidates := List.filter (eligible now req) policies in
       let matched := Match req candidates in
       match matched with
       | [] => Ok None
       | _ => match SelectWinner matched with
              | Err err => Err err
              | Ok winner => Ok (Some (winner, Build (en_KeyBuilder e) winner req))
              end
       end
   end, c').

(** The part of [Evaluate] after the policy has been picked. *)
Definition evaluate_picked (req : RequestContext) (picked : result (option (Policy * string))) : prog Decision :=
  match picked with
  | Err err => mret (allowDecision ("policy resolution failed: " +:+ err))
  | Ok None => mret (allowDecision "no policy matched")
  | Ok (Some (policy, keyStr)) =>
      match en_Algorithms e (cfg_Type (pol_Algorithm policy)) with
      | None => mret (handleFailure policy keyStr "algorithm not configured")
      | Some alg => r ← alg policy req keyStr; mret (finish policy keyStr r)
      end
  end.

Definition Evaluate (wall : Time) (req : RequestContext) (c : MemoryPolicyCache)
    : prog Decision * MemoryPolicyCache :=
  let '(picked, c') := pickPolicy wall req c in (evaluate_picked req picked, c').

(** The decision on a lease for the winner [policy]. *)
Definition lease_decision (policy : Policy) (keyStr : string) (limit : int64) (acquired : bool) (current : int64)
    : Decision :=
  let shadow := String.eqb (pol_EnforcementMode policy) ShadowMode in
  {| dec_Allowed := acquired || shadow;
     dec_Action := if shadow then ActionShadowOnly else if acquired then ActionAllow else pol_Action policy;
     dec_Reason := if acquired then "concurrency_lease_acquired"
                   else if shadow then "shadow_mode" else "concurrency_limit_exceeded";
     dec_MatchedPolicyID := pol_PolicyID policy; dec_MatchedRuleKey := ""; dec_LimitKey := keyStr;
     dec_Remaining := Z.max (limit -! current) 0;
     dec_RetryAfter := if acquired then 0 else 100 * Millisecond;
     dec_ResetAt := zeroTime; dec_DelayFor := 0; dec_SampleRate := fzero; dec_ShadowMode := shadow;
     dec_Metadata := None |}.

(** [wall'] is the time of the second lookup, for policies of other types. *)
Definition StartConcurrencyLease (wall wall' : Time) (req : RequestContext) (c : MemoryPolicyCache)
    : prog Lease * MemoryPolicyCache :=
  let '(picked, c') := pickPolicy wall req c in
  match picked with
  | Err err => (mret (allowDecision "policy resolution failed", None), c')
  | Ok None => (mret (allowDecision "no policy matched", None), c')
  | Ok (Some (policy, keyStr)) =>
      let cfg := pol_Algorithm policy in
      if negb (String.eqb (cfg_Type cfg) AlgoConcurrency) then
        let '(p, c'') := Evaluate wall' req c' in (d ← p; mret (d, None), c'')
      else
        let limit := lease_limit cfg in
        (r ← call (AcquireLease (leaseKey keyStr) limit (lease_ttl cfg));
         match r with
         | Err err => mret (handleFailure policy keyStr err, None)
         | Ok (ok, current) =>
             mret (lease_decision policy keyStr limit ok current,
                   if (ok : bool) then Some (leaseKey keyStr) else None)
         end, c')
  end.
End Engine.

(** ** The SDK client *)

(** The algorithms of [rlaas.New], on a store with or without atomic timestamps;
    [loc] is the zone in which dates are computed. *)
Definition defaultAlgorithms (atomic : bool) (loc : Z) (ty : AlgorithmType) : option Algorithm :=
  let clk := {| clk_Now := None; clk_Loc := loc |} in
  if String.eqb ty AlgoFixedWindow then Some (FixedWindow.Evaluate clk)
  else if String.eqb ty AlgoTokenBucket then Some (TokenBucket.Evaluate clk)
  else if String.eqb ty AlgoSlidingWindowCnt then Some (SlidingCounter.Evaluate clk)
  else if String.eqb ty AlgoConcurrency then Some Concurrency.Evaluate
  else if String.eqb ty AlgoQuota then Some (Quota.Evaluate clk)
  else if String.eqb ty AlgoLeakyBucket then Some (LeakyBucket.Evaluate clk)
  else if String.eqb ty AlgoSlidingWindowLog then Some (SlidingLog.Evaluate atomic clk)
  else None.

(** [rlaas.New], on the cache it starts with. *)
Definition NewClient (keyPrefix : string) (cacheTTL : Duration) (atomic : bool) (loc : Z)
    : DefaultEngine * MemoryPolicyCache :=
  ({| en_KeyBuilder := KeyBuilder.New keyPrefix; en_Algorithms := defaultAlgorithms atomic loc; en_Now := None |},
   NewMemoryPolicyCache (if cacheTTL <=? 0 then 30 * Second else cacheTTL)).

(** [NewWithConfig] and [NewFromPolicyFile], on a file store and a memory store, which has
    atomic logs. *)
Definition NewWithConfig (keyPrefix : string) (cacheTTL : Duration) (loc : Z) : DefaultEngine * MemoryPolicyCache :=
  NewClient keyPrefix cacheTTL true loc.
Definition NewFromPolicyFile (loc : Z) : DefaultEngine * MemoryPolicyCache := NewWithConfig "" (30 * Second) loc.

(** A request without a time gets the current one, before the engine sees it. *)
Definition stamped (now : Time) (req : RequestContext) : RequestContext :=
  if IsZero (req_Timestamp req) then
    {| req_RequestID := req_RequestID req; req_OrgID := req_OrgID req; req_TenantID := req_TenantID req;
       req_Application := req_Application req; req_Service := req_Service req;
       req_Environment := req_Environment req; req_SignalType := req_SignalType req;
       req_Operation := req_Operation req; req_Endpoint := req_Endpoint req; req_Method := req_Method req;
       req_UserID := req_UserID req; req_APIKey := req_APIKey req; req_ClientID := req_ClientID req;
       req_SourceIP := req_SourceIP req; req_Region := req_Region req; req_Resource := req_Resource req;
       req_Severity := req_Severity req; req_SpanName := req_SpanName req; req_Topic := req_Topic req;
       req_ConsumerGroup := req_ConsumerGroup req; req_JobType := req_JobType req;
       req_Quantity := req_Quantity req; req_Priority := req_Priority req; req_Timestamp := now;
       req_Tags := req_Tags req; req_Attributes := req_Attributes req |}
  else req.

(** [Client.Evaluate] and [Client.StartConcurrencyLease]. *)
Definition client_Evaluate visits e Load (t wall : Time) (req : RequestContext) :=
  Evaluate visits e Load wall (stamped t req).
Definition client_StartConcurrencyLease visits e Load (t wall wall' : Time) (req : RequestContext) :=
  StartConcurrencyLease visits e Load wall wall' (stamped t req).

(** ** Which policy decides *)

Lemma eligible_true now req p :
  eligible now req p = true <->
  pol_Enabled p = true /\
  (0 < pol_ValidFromUnix p -> pol_ValidFromUnix p <= Unix now) /\
  (0 < pol_ValidToUnix p -> Unix now <= pol_ValidToUnix p) /\
  (0 < pol_RolloutPercent p < 100 -> isInRollout p req = true).
Proof.
  assert (Hand : forall a b : bool, (a && b = false <-> (a = true -> b = false))%bool)
    by (intros [] []; simpl; intuition discriminate).
  unfold eligible. rewrite <- (Z.ltb_lt 0 (pol_ValidFromUnix p)), <- (Z.ltb_ge (Unix now) (pol_ValidFromUnix p)), <- Hand,
    <- (Z.ltb_lt 0 (pol_ValidToUnix p)), <- (Z.ltb_ge (pol_ValidToUnix p) (Unix now)), <- Hand,
    <- (Z.ltb_lt 0 (pol_RolloutPercent p)), <- (Z.ltb_lt (pol_RolloutPercent p) 100), <- andb_true_iff,
    <- (negb_false_iff (isInRollout p req)), <- Hand.
  destruct (pol_Enabled p); cbn [negb]; repeat case_step; intuition congruence.
Qed.

(** A policy that may decide on a request: enabled, in its period of validity, rolled
    out to the request, and matching it. *)
Definition applies (now : Time) (req : RequestContext) (p : Policy) : Prop :=
  pol_Enabled p = true /\
  (0 < pol_ValidFromUnix p -> pol_ValidFromUnix p <= Unix now) /\
  (0 < pol_ValidToUnix p -> Unix now <= pol_ValidToUnix p) /\
  isInRollout p req = true /\
  matchesPolicy req p = true.

(** A policy that is rolled out to some requests. *)
Definition rolled_out (p : Policy) : Prop := 0 < pol_RolloutPercent p.

Lemma matched_applies now req policies p :
  Forall rolled_out policies ->
  p ∈ Match req (List.filter (eligible now req) policies) <-> p ∈ policies /\ applies now req p.
Proof.
  intros Hout. unfold Match, applies. rewrite !list_elem_of_In, !List.filter_In, eligible_true.
  rewrite Forall_forall in Hout. specialize (Hout p). rewrite list_elem_of_In in Hout.
  enough (In p policies -> (isInRollout p req = true <-> (0 < pol_RolloutPercent p < 100 -> isInRollout p req = true))) by tauto.
  intros Hin. apply Hout in Hin. unfold rolled_out in Hin. split; [done|]. intros H.
  destruct (Z.lt_ge_cases (pol_RolloutPercent p) 100); [by apply H|]. unfold isInRollout.
  by rewrite (proj2 (Z.leb_gt _ 0)), (proj2 (Z.leb_le 100 _)) by lia.
Qed.


(** C19 (kind: safety).  The engine blocks a request only when the picked policy says so: either its
    algorithm denied the request and the policy is enforced, or its algorithm
    failed, or is not configured, and the policy fails closed.  Every other outcome,
    a failure to load policies included, lets the request through. *)
Theorem engine_blocks_only_when {W : Type} (h : handler W) visits (e : DefaultEngine)
    (Load : string -> result (list Policy)) (wall : Time) (req : RequestContext) (c : MemoryPolicyCache)
    (w w' : W) (d : Decision) :
  run h (Evaluate visits e Load wall req c).1 w = (d, w') -> dec_Allowed d = false ->
  exists policy k, (pickPolicy visits e Load wall req c).1 = Ok (Some (policy, k)) /\
    dec_MatchedPolicyID d = pol_PolicyID policy /\ dec_LimitKey d = k /\
    match en_Algorithms e (cfg_Type (pol_Algorithm policy)) with
    | None => pol_FailureMode policy = FailClosed
    | Some alg =>
        match run h (alg policy req k) w with
        | (Ok d0, _) => dec_Allowed d0 = false /\ pol_EnforcementMode policy <> ShadowMode
        | (Err _, _) => pol_FailureMode policy = FailClosed
        end
    end.
Proof.
  unfold Evaluate. destruct (pickPolicy _ _ _ _ _ _) as [picked c']. cbn [fst]. unfold evaluate_picked.
  assert (Hfail : forall policy k reason, dec_Allowed (handleFailure policy k reason) = false ->
    pol_FailureMode policy = FailClosed).
  { intros policy k reason. cbn. destruct (String.eqb_spec (pol_FailureMode policy) FailClosed); done. }
  destruct picked as [[[policy k]|]|err]; [|intros [= <- <-]; done..].
  intros Hrun Hd. exists policy, k. split; [done|].
  destruct (en_Algorithms e _) as [alg|]; [|injection Hrun as <- <-; eauto].
  rewrite run_bind in Hrun. destruct (run h (alg policy req k) w) as [[d0|err] w1]; injection Hrun as <- <-.
  - cbn in Hd |- *. destruct (String.eqb_spec (pol_EnforcementMode policy) ShadowMode); [done|]. auto.
  - cbn [finish]. eauto.
Qed.

(** The same policy with another rollout percentage. *)
Definition with_rollout (p : Policy) (percent : Z) : Policy :=
  {| pol_PolicyID := pol_PolicyID p; pol_Name := pol_Name p; pol_Description := pol_Description p;
     pol_Enabled := pol_Enabled p; pol_Priority := pol_Priority p; pol_Scope := pol_Scope p;
     pol_Algorithm := pol_Algorithm p; pol_Action := pol_Action p; pol_FailureMode := pol_FailureMode p;
     pol_EnforcementMode := pol_EnforcementMode p; pol_RolloutPercent := percent;
     pol_ValidFromUnix := pol_ValidFromUnix p; pol_ValidToUnix := pol_ValidToUnix p;
     pol_Metadata := pol_Metadata p |}.

(** Progressive rollout only adds requests: raising the percentage of a policy from a
    positive value keeps every request it was rolled out to, at 100 percent it
    applies to all of them. *)
Theorem rollout_monotone (p : Policy) (req : RequestContext) (now : Time) (a b : Z) :
  0 < a <= b -> eligible now req (with_rollout p a) = true ->
  eligible now req (with_rollout p b) = true /\ isInRollout (with_rollout p 100) req = true.
Proof.
  intros Hab. rewrite !eligible_true. cbn [with_rollout pol_Enabled pol_ValidFromUnix pol_ValidToUnix pol_RolloutPercent].
  intros (H1 & H2 & H3 & H4). split; [|done]. split_and!; [done..|]. intros Hb. specialize (H4 ltac:(lia)).
  revert H4. unfold isInRollout. cbn [with_rollout pol_RolloutPercent pol_PolicyID].
  rewrite !(proj2 (Z.leb_gt _ 0)), !(proj2 (Z.leb_gt 100 _)) by lia. intros H. zify_bool. apply Z.ltb_lt. lia.
Qed.

(** ** End to end: a fixed window through the engine *)

(** A request through the engine, as one client: its cost and its decision. *)
Definition engine_client (e : DefaultEngine) (policy : Policy) (k : string) (req : RequestContext)
    : prog (int64 * result Decision) :=
  d ← evaluate_picked e req (Ok (Some (policy, k))); mret (Cost req (pol_Algorithm policy), Ok d).

(** The fixed window answers with an error only when the store does. *)
Lemma fixed_window_ends_well clk policy key req :
  ends_well (fun a => exists d, a.2 = Ok d) (FixedWindow.client clk policy key req).
Proof.
  unfold FixedWindow.client, FixedWindow.Evaluate. apply (ends_well_bind (fun r => exists d, r = Ok d)).
  - apply (ends_well_bind (fun _ => True)); [by destruct (clk_Now clk) eqn:E; unfold eval_now; rewrite E|]. intros now _.
    induction (Z.to_nat _) as [|n IH]; [cbn; eauto|]. cbn [cas_loop].
    intros [v|] H; [|done]. cbn. destruct (_ <? _); [intros t _; cbn; eauto|].
    intros [[]|] H'; [cbn; eauto|apply IH|done].
  - intros r [d ->]. cbn. eauto.
Qed.

(** The answer of the engine for that of the algorithm: nothing more is let through when
    the policy is enforced and fails closed, or the algorithm has not failed. *)
Lemma finish_granted policy k windowEnd a :
  pol_EnforcementMode policy <> ShadowMode -> pol_FailureMode policy = FailClosed \/ (exists d, a.2 = Ok d) ->
  granted windowEnd (a.1, Ok (finish policy k a.2)) <= granted windowEnd a.
Proof.
  intros Hm Hf. destruct a as [cost [d|err]]; cbn [fst snd finish] in *.
  - cbn [granted dec_Allowed dec_ResetAt]. by destruct (String.eqb_spec (pol_EnforcementMode policy) ShadowMode).
  - destruct Hf as [Hf|[d [=]]]. cbn [granted handleFailure dec_Allowed]. by rewrite Hf.
Qed.

(** A request through the engine is a client of the fixed window whose answer is
    finished. *)
Lemma engine_client_fixed e atomic loc policy key req :
  en_Algorithms e = defaultAlgorithms atomic loc -> cfg_Type (pol_Algorithm policy) = AlgoFixedWindow ->
  mapped (fun a => (a.1, Ok (finish policy key a.2)))
    (FixedWindow.client {| clk_Now := None; clk_Loc := loc |} policy key req) (engine_client e policy key req).
Proof.
  intros He Hty. unfold engine_client, evaluate_picked, FixedWindow.client. rewrite He, Hty. by apply mapped_binds.
Qed.

(** C2 (kind: safety).  End to end: however any number of concurrent requests through the engine are interleaved,
    when they resolve to one enforced fixed-window policy, the total cost of the requests that are allowed under
    its key in a window does not exceed what the counter of the window had left of the limit; provided the
    policy fails closed or the store does not fail, its action blocks what is over the limit, the window is not
    a calendar month and has a positive length, and no cost takes the limit out of the range of an int64. The
    counter holds between zero and the limit to begin with and does not expire within the window, instants are
    between 1970 and 2262, and the requests are followed until the window ends, less the precision of the store. *)
Theorem engine_fixed_window_safe {W : Type} (h : handler W) (env : W -> W -> Prop) {HL : StoreLaws h env}
    (e : DefaultEngine) (atomic : bool) (loc : Z) (policy : Policy) (key : string) (t0 : Time)
    (reqs : list RequestContext) (w w' : W) (ps' : list (prog (int64 * result Decision))) :
  let cfg := pol_Algorithm policy in
  let limit := effective_limit cfg in
  let windowEnd := WindowEnd t0 loc cfg in
  let wk := windowKey key (WindowStart t0 loc cfg) in
  en_Algorithms e = defaultAlgorithms atomic loc ->
  cfg_Type cfg = AlgoFixedWindow -> pol_EnforcementMode policy <> ShadowMode ->
  pol_FailureMode policy = FailClosed \/ never_fails h -> blocking (pol_Action policy) = true ->
  cfg_Window cfg <> "month" -> 0 < WindowDuration cfg -> WindowStart t0 loc cfg <= maxInt64 ->
  limit <= sl_cap -> sl_wf w -> 0 <= sl_clock w ->
  0 <= sl_value w wk <= limit -> alive_until (sl_deadline w wk) (windowEnd - sl_slack) ->
  Forall (fun req => limit + Cost req cfg <= maxInt64) reqs ->
  rtc (pool_step h env) (engine_client e policy key <$> reqs, w) (ps', w') ->
  sl_clock w' <= windowEnd - sl_slack ->
  claimed (granted windowEnd) ps' <= limit - sl_value w wk.
Proof.
  intros cfg limit windowEnd wk He Hty Henf Hfail Hb Hm Hd Hs Hcap Hwf Hc Hv Ha Hcost Hrtc Hend.
  set (clients := FixedWindow.client {| clk_Now := None; clk_Loc := loc |} policy key <$> reqs).
  assert (Hcl : Forall2 (mapped (fun a => (a.1, Ok (finish policy key a.2)))) clients (engine_client e policy key <$> reqs)).
  { unfold clients. rewrite Forall2_fmap. apply Forall_Forall2_diag, Forall_true. intros req.
    by apply (engine_client_fixed e atomic loc). }
  destruct (mapped_pool h env _ _ _ _ _ _ Hcl Hrtc) as (qs & Hqs & Hrun).
  transitivity (claimed (granted windowEnd) qs).
  - apply (claimed_mapped _ _ _ _ _ Hqs). intros a Hq. apply finish_granted; [done|]. destruct Hfail as [?|Hn]; [by left|right].
    assert (Hw : Forall (ends_well (fun a => exists d, a.2 = Ok d)) qs).
    { refine (ends_well_run h env _ clients w qs w' Hn _ Hrun). unfold clients. rewrite Forall_fmap.
      apply Forall_true. intros req. apply fixed_window_ends_well. }
    by apply (proj1 (Forall_forall _ _) Hw (Ret a)).
  - unfold windowEnd in Ha, Hend. rewrite WindowEnd_duration in Ha, Hend by done.
    eapply (protocol_safe h env wk limit (WindowStart t0 loc cfg) (WindowDuration cfg)); [done..| |exact Hrun|done].
    unfold clients. rewrite Forall_fmap. eapply Forall_impl; [exact Hcost|]. intros req Hreq.
    apply obeys_ret. by apply obeys_fixed_window.
Qed.

(** The engine on a policy that limits concurrency. *)
Lemma StartConcurrencyLease_run {W} (h : handler W) visits e Load wall wall' req c policy k w :
  (pickPolicy visits e Load wall req c).1 = Ok (Some (policy, k)) ->
  cfg_Type (pol_Algorithm policy) = AlgoConcurrency ->
  run h (StartConcurrencyLease visits e Load wall wall' req c).1 w =
  let limit := lease_limit (pol_Algorithm policy) in
  let '(r, w') := h _ (AcquireLease (leaseKey k) limit (lease_ttl (pol_Algorithm policy))) w in
  (match r with
   | Err err => (handleFailure policy k err, None)
   | Ok (ok, current) => (lease_decision policy k limit ok current, if (ok : bool) then Some (leaseKey k) else None)
   end, w').
Proof.
  intros Hp Hty. unfold StartConcurrencyLease. destruct (pickPolicy _ _ _ _ _ _) as [picked c'].
  cbn [fst] in Hp. subst picked. rewrite Hty, String.eqb_refl.
  unfold call, mbind, prog_mbind. cbn [negb fst prog_bind run].
  destruct (h _ _ w) as [[[ok cur]|err] w']; done.
Qed.

(** A lease and its slot go together: when the winning policy limits concurrency, a
    release function is returned exactly when there was a free slot, the slot is
    then taken and the request allowed; otherwise no slot is taken and the request
    is denied, unless the policy is in shadow mode. *)
Theorem lease_takes_slot visits (e : DefaultEngine) (Load : string -> result (list Policy)) (wall wall' : Time)
    (req : RequestContext) (c : MemoryPolicyCache) (w : World) (policy : Policy) (k : string) :
  let limit := lease_limit (pol_Algorithm policy) in
  let v := vi_value (lease_item w (leaseKey k)) in
  (pickPolicy visits e Load wall req c).1 = Ok (Some (policy, k)) ->
  cfg_Type (pol_Algorithm policy) = AlgoConcurrency ->
  wf_store (w_store w) -> 0 <= v -> 0 < limit <= maxInt64 ->
  let '((d, release), w') := run memory (StartConcurrencyLease visits e Load wall wall' req c).1 w in
  dec_MatchedPolicyID d = pol_PolicyID policy /\
  match release with
  | Some lk => lk = leaseKey k /\ v < limit /\ vi_value (lease_item w' lk) = v + 1 /\
               dec_Allowed d = true /\ dec_Remaining d = limit - (v + 1)
  | None => limit <= v /\ vi_value (lease_item w' (leaseKey k)) = v /\
            dec_Allowed d = String.eqb (pol_EnforcementMode policy) ShadowMode
  end.
Proof.
  intros limit v Hp Hty Hwf Hv Hl. rewrite (StartConcurrencyLease_run _ _ _ _ _ _ _ _ _ _ _ Hp Hty). cbv zeta.
  pose proof (memory_AcquireLease w (leaseKey k) limit (lease_ttl (pol_Algorithm policy)) Hwf ltac:(lia)) as Ha.
  fold limit. destruct (memory _ _ w) as [r w']. destruct Ha as [-> Hit].
  change (vi_value (lease_item w (leaseKey k))) with v in Hit |- *.
  destruct (limit <=? v) eqn:E; zify_bool.
  - split; [done|]. rewrite Hit. split_and!; [lia|done|]. cbn. by destruct (String.eqb _ _).
  - split; [done|]. rewrite Hit. cbn [vi_value lease_decision dec_Allowed dec_Remaining].
    unwrap. split_and!; [done|lia|done|done|lia].
Qed.

(** ** Examples *)

Definition engine_policy : Policy :=
  mkPolicy "p" zeroScope (mkConfig AlgoFixedWindow 3 "1s") ActionDeny.
Definition demo_engine : DefaultEngine := (NewClient "" 0 true 0).1.
Definition demo_cache : MemoryPolicyCache := (NewClient "" 0 true 0).2.
Definition demo_load (namespace : string) : result (list Policy) := Ok [engine_policy].

(** Of two policies that match, the one of higher priority is picked. *)
Definition ranked (id : string) (priority rollout : Z) : Policy :=
  {| pol_PolicyID := id; pol_Name := id; pol_Description := ""; pol_Enabled := true; pol_Priority := priority; pol_Scope := zeroScope;
     pol_Algorithm := mkConfig AlgoFixedWindow 3 "1s"; pol_Action := ActionDeny; pol_FailureMode := FailOpen;
     pol_EnforcementMode := EnforceMode; pol_RolloutPercent := rollout; pol_ValidFromUnix := 0; pol_ValidToUnix := 0;
     pol_Metadata := None |}.


Lemma engine_blocks_witness :
  exists policy k,
    (pickPolicy map_to_list demo_engine demo_load 1000 (mkRequest 4) demo_cache).1 = Ok (Some (policy, k)) /\
    pol_PolicyID policy = "p" /\ k = "rlaas".
Proof.
  destruct (engine_blocks_only_when memory map_to_list demo_engine demo_load 1000 (mkRequest 4) demo_cache demo_world
    (run memory (Evaluate map_to_list demo_engine demo_load 1000 (mkRequest 4) demo_cache).1 demo_world).2
    (run memory (Evaluate map_to_list demo_engine demo_load 1000 (mkRequest 4) demo_cache).1 demo_world).1)
    as (policy & k & H1 & H2 & H3 & _); [apply surjective_pairing|by vm_compute|].
  exists policy, k. split; [exact H1|]. split; [rewrite <- H2|rewrite <- H3]; by vm_compute.
Defined.

Lemma rollout_monotone_witness :
  eligible 0 (mkRequest 1) (with_rollout engine_policy 60) = true /\
  eligible 0 (mkRequest 1) (with_rollout engine_policy 90) = true.
Proof.
  split; [reflexivity|].
  apply (rollout_monotone engine_policy (mkRequest 1) 0 60 90); [lia|reflexivity].
Defined.

Lemma engine_fixed_window_safe_witness :
  let r := run_all memory (engine_client demo_engine engine_policy "k" <$> demo_requests) demo_world in
  let cfg := pol_Algorithm engine_policy in
  claimed (granted (WindowEnd 0 0 cfg)) (Ret <$> r.1) = 3 /\
  claimed (granted (WindowEnd 0 0 cfg)) (Ret <$> r.1)
    <= effective_limit cfg - counter_value demo_world (windowKey "k" (WindowStart 0 0 cfg)).
Proof.
  split; [by vm_compute|].
  apply (engine_fixed_window_safe memory env_step (HL := memory_laws) demo_engine true 0 engine_policy "k" 0
    demo_requests demo_world
    (run_all memory (engine_client demo_engine engine_policy "k" <$> demo_requests) demo_world).2);
    [done|done|by vm_compute|right; exact memory_never_fails|done|done|by vm_compute..|repeat constructor; by vm_compute| |by vm_compute].
  apply run_all_pool, surjective_pairing.
Defined.

Definition lease_load (namespace : string) : result (list Policy) := Ok [lease_policy 2].

Lemma lease_takes_slot_witness :
  let '((d, release), w') :=
    run memory (StartConcurrencyLease map_to_list demo_engine lease_load 1000 1000 (mkRequest 1) demo_cache).1 lease_world in
  dec_Allowed d = true /\ release = Some (leaseKey "rlaas") /\ dec_MatchedPolicyID d = "c".
Proof.
  pose proof (lease_takes_slot map_to_list demo_engine lease_load 1000 1000 (mkRequest 1) demo_cache lease_world
    (lease_policy 2) "rlaas" ltac:(by vm_compute) eq_refl ltac:(done) ltac:(by vm_compute) ltac:(by vm_compute)) as H.
  destruct (run memory _ lease_world) as [[d release] w'] eqn:E. destruct H as [H1 H2].
  assert (release = Some (leaseKey "rlaas")) as ->.
  { clear -E. vm_compute in E. by injection E as _ <- _. }
  split; [apply H2|]. split; [reflexivity|exact H1].
Defined.

(** A policy in shadow mode that fails closed does block, when the counter store
    fails: the failure is handled before the mode is looked at. *)
Definition shadow_policy : Policy :=
  {| pol_PolicyID := "s"; pol_Name := ""; pol_Description := ""; pol_Enabled := true; pol_Priority := 0;
     pol_Scope := zeroScope; pol_Algorithm := mkConfig AlgoFixedWindow 3 "1s"; pol_Action := ActionDeny;
     pol_FailureMode := FailClosed; pol_EnforcementMode := ShadowMode; pol_RolloutPercent := 100;
     pol_ValidFromUnix := 0; pol_ValidToUnix := 0; pol_Metadata := None |}.

(** A store that is out of reach. *)
Definition broken : handler Time := fun R op =>
  match op in CounterOp R return Time -> R * Time with
  | TimeNow => fun w => (w, w)
  | Increment _ _ _ => fun w => (Err "unreachable", w)
  | Store.Get _ => fun w => (Err "unreachable", w)
  | SetVal _ _ _ => fun w => (Err "unreachable", w)
  | CompareAndSwap _ _ _ _ => fun w => (Err "unreachable", w)
  | Delete _ => fun w => (Err "unreachable", w)
  | AddTimestamp _ _ _ => fun w => (Err "unreachable", w)
  | CountAfter _ _ => fun w => (Err "unreachable", w)
  | TrimBefore _ _ => fun w => (Err "unreachable", w)
  | CheckAndAddTimestamps _ _ _ _ _ _ => fun w => (Err "unreachable", w)
  | AcquireLease _ _ _ => fun w => (Err "unreachable", w)
  | ReleaseLease _ => fun w => (Err "unreachable", w)
  end.

Example shadow_policy_blocks :
  let d := (run broken (Evaluate map_to_list demo_engine (fun _ => Ok [shadow_policy]) 0 (mkRequest 1) demo_cache).1 0).1 in
  dec_Allowed d = false /\ dec_Reason d = "fail_closed: unreachable".
Proof. by vm_compute. Qed.

(** A rollout of zero percent applies to every request. *)
Example rollout_zero_applies :
  eligible 0 (mkRequest 1) (with_rollout engine_policy 0) = true /\
  isInRollout (with_rollout engine_policy 0) (mkRequest 1) = false.
Proof. by vm_compute. Qed.
