(* ===== verification/Region.v ===== *)
(** * internal/region: one global limit over many regions *)

From S2P Require Import Prelude GoString GoFloat GoTime.
Local Open Scope Z_scope.
Local Open Scope go_scope.

Record RegionWeight := { rw_Region : string; rw_Weight : int64 }.
Record Allocation := { al_Region : string; al_Limit : int64 }.

(** Weights that count. *)
Definition valid_weight (w : RegionWeight) : bool :=
  negb (String.eqb (rw_Region w) "" || (rw_Weight w <=? 0)).

Definition total_weight (ws : list RegionWeight) : int64 :=
  fold_left (fun total w => total +! rw_Weight w) ws 0.

(** The allocation loop: proportional shares, the last region gets the rest. *)
Fixpoint alloc_loop (globalLimit totalWeight assigned : int64) (ws : list RegionWeight) : list Allocation :=
  match ws with
  | [] => []
  | w :: ws' =>
      let limit := wrap64 (Z.quot (globalLimit *! rw_Weight w) totalWeight) in
      let limit := match ws' with [] => globalLimit -! assigned | _ => limit end in
      let limit := if limit <? 0 then 0 else limit in
      {| al_Region := rw_Region w; al_Limit := limit |} :: alloc_loop globalLimit totalWeight (assigned +! limit) ws'
  end.

Section Allocation.
(** [sort.Slice] by region name: it is not stable, so for equal names the order is
    not determined. *)
Context (sortSlice : list RegionWeight -> list RegionWeight).

Definition AllocateGlobalLimit (globalLimit : int64) (weights : list RegionWeight) : list Allocation :=
  if (globalLimit <=? 0) || (Z.of_nat (length weights) =? 0) then []
  else
    let valid := List.filter valid_weight weights in
    let totalWeight := total_weight valid in
    if totalWeight =? 0 then []
    else alloc_loop globalLimit totalWeight 0 (sortSlice valid).
End Allocation.

(** [limits[a.Region] = a.Limit] for each allocation in turn. *)
Definition limits_of (allocation : list Allocation) : gmap string int64 :=
  fold_left (fun m a => <[al_Region a := al_Limit a]> m) allocation ∅.

Definition RegionalOverflow (usage : gmap string int64) (allocation : list Allocation) : gmap string int64 :=
  if (Z.of_nat (size usage) =? 0) || (Z.of_nat (length allocation) =? 0) then ∅
  else
    let limits := limits_of allocation in
    map_imap (fun region used =>
      let over := used -! default 0 (limits !! region) in
      if 0 <? over then Some over else None) usage.

(** ** Proportional shares *)

Definition sum_weights (ws : list RegionWeight) : Z := sumZ (rw_Weight <$> ws).

(** A limit and weights whose products and sums do not overflow. *)
Definition no_overflow (globalLimit : Z) (ws : list RegionWeight) : Prop :=
  globalLimit * sum_weights ws <= maxInt64.

Lemma valid_weights_pos ws : Forall (fun w => 0 < rw_Weight w) (List.filter valid_weight ws).
Proof.
  apply Forall_forall. intros w Hw%list_elem_of_In%List.filter_In. destruct Hw as [_ Hw].
  unfold valid_weight in Hw. zify_bool. lia.
Qed.

Lemma sum_weights_nonneg ws : Forall (fun w => 0 < rw_Weight w) ws -> 0 <= sum_weights ws.
Proof. intros H. apply sumZ_nonneg, Forall_fmap. eapply Forall_impl; [exact H|]. simpl. lia. Qed.

Lemma total_weight_sum ws :
  Forall (fun w => 0 < rw_Weight w) ws -> sum_weights ws <= maxInt64 -> total_weight ws = sum_weights ws.
Proof.
  intros Hpos Hmax. unfold total_weight. enough (H : forall acc, 0 <= acc -> acc + sum_weights ws <= maxInt64 ->
    fold_left (fun total w => total +! rw_Weight w) ws acc = acc + sum_weights ws) by (apply H; lia).
  clear Hmax. induction Hpos as [|w ws Hw Hpos IH]; intros acc Hacc Hmax; cbn [fold_left].
  { unfold sum_weights. simpl. lia. }
  pose proof (sum_weights_nonneg ws Hpos). unfold sum_weights in *. rewrite fmap_cons in *. unfold sumZ in *. cbn [foldr] in *.
  rewrite (wrap64_small (acc + rw_Weight w)) by (unfold in_int64, minInt64, maxInt64 in *; lia).
  rewrite IH by lia. lia.
Qed.

(** What the loop assigns: shares rounded down, and in total what was left. *)
Lemma alloc_loop_spec G T assigned ws :
  0 < G -> 0 < T -> Forall (fun w => 0 < rw_Weight w) ws -> ws <> [] ->
  0 <= assigned -> G * sum_weights ws <= maxInt64 ->
  assigned * T + G * sum_weights ws <= G * T -> G <= maxInt64 ->
  let out := alloc_loop G T assigned ws in
  sumZ (al_Limit <$> out) = G - assigned /\ al_Region <$> out = rw_Region <$> ws /\
  Forall2 (fun w a => G * rw_Weight w / T <= al_Limit a) ws out.
Proof.
  intros HG HT Hpos. revert assigned. induction Hpos as [|w ws Hw Hpos IH]; [done|].
  intros assigned _ Ha Hmax Hle HGmax. pose proof (sum_weights_nonneg ws Hpos) as Hs.
  assert (Hsum : sum_weights (w :: ws) = rw_Weight w + sum_weights ws) by done. rewrite Hsum in *.
  cbn [alloc_loop]. rewrite (wrap64_small (G * rw_Weight w)) by (unfold in_int64, minInt64, maxInt64 in *; nia).
  rewrite Z.quot_div_nonneg by nia.
  set (share := G * rw_Weight w / T).
  assert (Hshare : 0 <= share /\ T * share <= G * rw_Weight w) by
    (split; [apply Z.div_pos; nia|apply Z.mul_div_le; lia]).
  rewrite (wrap64_small share) by (unfold in_int64, minInt64, maxInt64 in *; nia).
  destruct ws as [|w' ws].
  - assert (assigned <= G) by (unfold sum_weights in *; simpl in *; nia).
    rewrite (wrap64_small (G - assigned)) by (unfold in_int64, minInt64, maxInt64 in *; lia).
    rewrite (proj2 (Z.ltb_ge (G - assigned) 0)) by lia. cbn [alloc_loop].
    split_and!; [simpl; lia|done|]. constructor; [|constructor]. cbn [al_Limit]. fold share.
    unfold sum_weights in *. simpl in *. nia.
  - rewrite (proj2 (Z.ltb_ge share 0)) by lia.
    rewrite (wrap64_small (assigned + share)) by (unfold in_int64, minInt64, maxInt64 in *; nia).
    destruct (IH (assigned + share)) as (H1 & H2 & H3); [done|lia|nia|nia|lia|].
    split_and!.
    + rewrite fmap_cons. unfold sumZ in *. cbn [foldr al_Limit]. lia.
    + rewrite !fmap_cons. cbn [al_Region]. by f_equal.
    + constructor; [cbn [al_Limit]; fold share; lia|done].
Qed.

Lemma allocation_facts (sortSlice : list RegionWeight -> list RegionWeight) (globalLimit : int64)
    (weights : list RegionWeight) :
  (forall l, sortSlice l ≡ₚ l) ->
  let valid := List.filter valid_weight weights in
  0 < globalLimit <= maxInt64 -> valid <> [] -> no_overflow globalLimit valid ->
  let out := AllocateGlobalLimit sortSlice globalLimit weights in
  sumZ (al_Limit <$> out) = globalLimit /\ al_Region <$> out ≡ₚ rw_Region <$> valid /\
  Forall2 (fun w a => globalLimit * rw_Weight w / sum_weights valid <= al_Limit a) (sortSlice valid) out.
Proof.
  intros Hsort valid HG Hne Hov. unfold AllocateGlobalLimit.
  pose proof (valid_weights_pos weights) as Hpos. fold valid in Hpos |- *.
  assert (Hs : 0 < sum_weights valid).
  { destruct Hpos as [|w ws Hw Hws]; [done|]. pose proof (sum_weights_nonneg ws Hws).
    change (sum_weights (w :: ws)) with (rw_Weight w + sum_weights ws). lia. }
  unfold no_overflow in Hov. rewrite total_weight_sum by (done || nia).
  destruct weights as [|w0 ws0] eqn:E; [done|]. rewrite <- E in *.
  replace ((globalLimit <=? 0) || (Z.of_nat (length weights) =? 0)) with false
    by (symmetry; apply orb_false_iff; rewrite E; split; [apply Z.leb_gt; lia|done]).
  rewrite (proj2 (Z.eqb_neq (sum_weights valid) 0)) by lia.
  assert (Hsum : sum_weights (sortSlice valid) = sum_weights valid).
  { unfold sum_weights. by rewrite Hsort. }
  destruct (alloc_loop_spec globalLimit (sum_weights valid) 0 (sortSlice valid)) as (H1 & H2 & H3);
    rewrite ?Hsum; [lia|lia|by rewrite Hsort| |lia|lia|lia|lia|].
  { intros Hnil. apply Hne. pose proof (Hsort valid) as Hp. rewrite Hnil in Hp. by apply Permutation_nil in Hp. }
  split_and!; [lia|by rewrite H2, Hsort|done].
Qed.

(** The regions share the global limit: their limits add up to it exactly, and each
    gets at least its proportional share, rounded down. *)
Theorem allocation_exact (sortSlice : list RegionWeight -> list RegionWeight) (globalLimit : int64)
    (weights : list RegionWeight) :
  (forall l, sortSlice l ≡ₚ l) ->
  let valid := List.filter valid_weight weights in
  0 < globalLimit <= maxInt64 -> valid <> [] -> no_overflow globalLimit valid ->
  let out := AllocateGlobalLimit sortSlice globalLimit weights in
  sumZ (al_Limit <$> out) = globalLimit /\ al_Region <$> out ≡ₚ rw_Region <$> valid /\
  Forall2 (fun w a => globalLimit * rw_Weight w / sum_weights valid <= al_Limit a) (sortSlice valid) out.
Proof. intros Hsort. by apply allocation_facts. Qed.

(** ** The health-aware allocator *)

Definition RegionHealthy : Z := 0.
Definition RegionDegraded : Z := 1.
Definition RegionUnhealthy : Z := 2.

Record RegionStatus := {
  rs_Region : string; rs_Health : Z; rs_LastHeartbeat : Time; rs_CurrentUsage : int64
}.

Record DynamicAllocator := {
  da_globalLimit : int64; da_weights : list RegionWeight; da_allocations : list Allocation;
  da_health : gmap string RegionStatus; da_heartbeatTTL : Duration
}.

Definition Allocations (da : DynamicAllocator) : list Allocation := da_allocations da.

(** The statuses, in the order the map is visited. *)
Definition HealthStatus (visits : gmap string RegionStatus -> list (string * RegionStatus)) (da : DynamicAllocator) : list RegionStatus :=
  (visits (da_health da)).*2.

Definition with_health (h : gmap string RegionStatus) (da : DynamicAllocator) : DynamicAllocator :=
  {| da_globalLimit := da_globalLimit da; da_weights := da_weights da; da_allocations := da_allocations da;
     da_health := h; da_heartbeatTTL := da_heartbeatTTL da |}.

Section Dynamic.
Context (sortSlice : list RegionWeight -> list RegionWeight).

(** [s.Health != RegionUnhealthy] for a region that is known. *)
Definition serving (health : gmap string RegionStatus) (w : RegionWeight) : bool :=
  match health !! rw_Region w with Some s => negb (rs_Health s =? RegionUnhealthy) | None => false end.

Definition rebalanceLocked (da : DynamicAllocator) : DynamicAllocator :=
  let healthy := List.filter (serving (da_health da)) (da_weights da) in
  let allocations := match healthy with
                     | [] => AllocateGlobalLimit sortSlice (da_globalLimit da) (da_weights da)
                     | _ => AllocateGlobalLimit sortSlice (da_globalLimit da) healthy
                     end in
  {| da_globalLimit := da_globalLimit da; da_weights := da_weights da; da_allocations := allocations;
     da_health := da_health da; da_heartbeatTTL := da_heartbeatTTL da |}.

Definition NewDynamicAllocator (now : Time) (globalLimit : int64) (weights : list RegionWeight)
    (heartbeatTTL : Duration) : DynamicAllocator :=
  let ttl := if heartbeatTTL <=? 0 then 30 * Second else heartbeatTTL in
  let health := fold_left (fun m w =>
    <[rw_Region w := {| rs_Region := rw_Region w; rs_Health := RegionHealthy; rs_LastHeartbeat := now;
                        rs_CurrentUsage := 0 |}]> m) weights ∅ in
  rebalanceLocked
    {| da_globalLimit := globalLimit; da_weights := weights; da_allocations := []; da_health := health;
       da_heartbeatTTL := ttl |}.

Definition Heartbeat (now : Time) (region : string) (usage : int64) (da : DynamicAllocator) : DynamicAllocator :=
  match da_health da !! region with
  | None => da
  | Some s =>
      let unhealthy := rs_Health s =? RegionUnhealthy in
      let s := {| rs_Region := rs_Region s; rs_Health := if unhealthy then RegionHealthy else rs_Health s;
                  rs_LastHeartbeat := now; rs_CurrentUsage := usage |} in
      let da := with_health (<[region := s]> (da_health da)) da in
      if unhealthy then rebalanceLocked da else da
  end.

Definition stale (now : Time) (ttl : Duration) (s : RegionStatus) : bool :=
  (ttl <? time_Sub now (rs_LastHeartbeat s)) && negb (rs_Health s =? RegionUnhealthy).

Definition CheckHealth (now : Time) (da : DynamicAllocator) : DynamicAllocator :=
  let changed := existsb (fun '(_, s) => stale now (da_heartbeatTTL da) s) (map_to_list (da_health da)) in
  let health := (fun s => if stale now (da_heartbeatTTL da) s
    then {| rs_Region := rs_Region s; rs_Health := RegionUnhealthy; rs_LastHeartbeat := rs_LastHeartbeat s;
            rs_CurrentUsage := rs_CurrentUsage s |} else s) <$> da_health da in
  let da := with_health health da in
  if changed then rebalanceLocked da else da.

Definition DrainRegion (region : string) (da : DynamicAllocator) : DynamicAllocator :=
  match da_health da !! region with
  | None => da
  | Some s => rebalanceLocked (with_health (<[region :=
      {| rs_Region := rs_Region s; rs_Health := RegionUnhealthy; rs_LastHeartbeat := rs_LastHeartbeat s;
         rs_CurrentUsage := rs_CurrentUsage s |}]> (da_health da)) da)
  end.

Definition RestoreRegion (now : Time) (region : string) (da : DynamicAllocator) : DynamicAllocator :=
  match da_health da !! region with
  | None => da
  | Some s => rebalanceLocked (with_health (<[region :=
      {| rs_Region := rs_Region s; rs_Health := RegionHealthy; rs_LastHeartbeat := now;
         rs_CurrentUsage := rs_CurrentUsage s |}]> (da_health da)) da)
  end.

Inductive region_step : DynamicAllocator -> DynamicAllocator -> Prop :=
| rs_heartbeat now region usage da : region_step da (Heartbeat now region usage da)
| rs_check now da : region_step da (CheckHealth now da)
| rs_drain region da : region_step da (DrainRegion region da)
| rs_restore now region da : region_step da (RestoreRegion now region da).

(** The regions that share the limit: the ones that serve, or all if none does. *)
Definition active (da : DynamicAllocator) : list RegionWeight :=
  match List.filter (serving (da_health da)) (da_weights da) with [] => da_weights da | ws => ws end.

Definition balanced (da : DynamicAllocator) : Prop :=
  da_allocations da = AllocateGlobalLimit sortSlice (da_globalLimit da) (active da).

Lemma rebalance_balanced da : balanced (rebalanceLocked da).
Proof. unfold balanced, active, rebalanceLocked. cbn. by destruct (List.filter _ _). Qed.

(** Who serves is all that matters. *)
Lemma balanced_health h da :
  (forall w, serving h w = serving (da_health da) w) -> balanced da -> balanced (with_health h da).
Proof.
  unfold balanced, active. intros Hs. cbn. by rewrite (List.filter_ext _ _ Hs).
Qed.

Lemma step_balanced da da' : region_step da da' -> balanced da -> balanced da'.
Proof.
  intros [now region usage da0|now da0|region da0|now region da0] Hb.
  - unfold Heartbeat. destruct (da_health da0 !! region) as [s|] eqn:E; [|done].
    destruct (rs_Health s =? RegionUnhealthy) eqn:Eh; [apply rebalance_balanced|].
    apply balanced_health; [|done]. intros w. unfold serving.
    destruct (decide (region = rw_Region w)) as [->|Hne]; [|by rewrite lookup_insert_ne].
    rewrite lookup_insert_eq, E. cbn [rs_Health]. done.
  - unfold CheckHealth. destruct (existsb _ _) eqn:E; [apply rebalance_balanced|].
    apply balanced_health; [|done]. intros w. unfold serving. rewrite lookup_fmap.
    destruct (da_health da0 !! rw_Region w) as [s|] eqn:Es; [|done]. cbn.
    destruct (stale now (da_heartbeatTTL da0) s) eqn:Est; [|done]. exfalso.
    apply not_true_iff_false in E. apply E, existsb_exists. exists (rw_Region w, s). split; [|done].
    apply list_elem_of_In, elem_of_map_to_list. done.
  - unfold DrainRegion. destruct (da_health da0 !! region); [apply rebalance_balanced|done].
  - unfold RestoreRegion. destruct (da_health da0 !! region); [apply rebalance_balanced|done].
Qed.

Lemma step_constants da da' :
  region_step da da' -> da_globalLimit da' = da_globalLimit da /\ da_weights da' = da_weights da.
Proof.
  intros [now region usage da0|now da0|region da0|now region da0].
  - unfold Heartbeat. destruct (_ !! _); [|done]. by destruct (_ =? _).
  - unfold CheckHealth. by destruct (existsb _ _).
  - unfold DrainRegion. by destruct (_ !! _).
  - unfold RestoreRegion. by destruct (_ !! _).
Qed.

Lemma reachable_balanced now G weights ttl da :
  rtc region_step (NewDynamicAllocator now G weights ttl) da ->
  balanced da /\ da_globalLimit da = G /\ da_weights da = weights.
Proof.
  intros Hrtc. refine (rtc_ind_r (fun x => balanced x /\ da_globalLimit x = G /\ da_weights x = weights) _ _ _ _ Hrtc).
  - split; [apply rebalance_balanced|done].
  - intros x y _ Hs (Hb & HG & Hw). destruct (step_constants x y Hs) as [-> ->].
    split; [by eapply step_balanced|done].
Qed.
End Dynamic.

Lemma filter_sum_weights (P : RegionWeight -> bool) ws :
  Forall (fun w => 0 < rw_Weight w) ws -> sum_weights (List.filter P ws) <= sum_weights ws.
Proof.
  induction 1 as [|w ws Hw Hws IH]; [done|]. cbn [List.filter].
  destruct (P w); unfold sum_weights in *; rewrite ?fmap_cons; unfold sumZ in *; cbn [foldr]; lia.
Qed.

(** C40 (kind: invariant).  The allocator never loses capacity: after any sequence of heartbeats, health checks, drains
    and restores, the limits of the regions add up to the global limit, and only regions that serve have one,
    unless none serves; provided the global limit and the weights are positive, there is a region, and the global
    limit times the sum of the weights is an int64. *)
Theorem allocator_complete (sortSlice : list RegionWeight -> list RegionWeight) (now : Time) (globalLimit : int64)
    (weights : list RegionWeight) (ttl : Duration) (da : DynamicAllocator) :
  (forall l, sortSlice l ≡ₚ l) ->
  0 < globalLimit <= maxInt64 -> weights <> [] -> Forall (fun w => valid_weight w = true) weights ->
  no_overflow globalLimit weights ->
  rtc (region_step sortSlice) (NewDynamicAllocator sortSlice now globalLimit weights ttl) da ->
  sumZ (al_Limit <$> da_allocations da) = globalLimit /\
  al_Region <$> da_allocations da ≡ₚ rw_Region <$> active da /\
  (Exists (fun w => serving (da_health da) w = true) weights ->
   forall a, a ∈ da_allocations da -> exists w, w ∈ weights /\ rw_Region w = al_Region a /\ serving (da_health da) w = true).
Proof.
  intros Hsort HG Hne Hvalid Hov Hrtc.
  destruct (reachable_balanced sortSlice now globalLimit weights ttl da Hrtc) as (Hb & HGl & Hw).
  assert (Hpos : Forall (fun w => 0 < rw_Weight w) weights).
  { eapply Forall_impl; [exact Hvalid|]. intros w. unfold valid_weight. intros H. zify_bool. lia. }
  assert (Hsub : List.filter (serving (da_health da)) weights <> [] /\ active da = List.filter (serving (da_health da)) weights
    \/ List.filter (serving (da_health da)) weights = [] /\ active da = weights).
  { unfold active. rewrite Hw. destruct (List.filter _ weights); [by right|by left]. }
  assert (Hact : active da <> [] /\ List.filter valid_weight (active da) = active da /\ no_overflow globalLimit (active da)).
  { destruct Hsub as [[Hn ->]|[Hn ->]].
    - split_and!; [done| |].
      + apply List.forallb_filter_id, forallb_forall. intros w [Hin _]%List.filter_In.
        rewrite Forall_forall in Hvalid. by apply Hvalid, list_elem_of_In.
      + unfold no_overflow in *. pose proof (filter_sum_weights (serving (da_health da)) weights Hpos). nia.
    - split_and!; [done| |done]. apply List.forallb_filter_id, forallb_forall. intros w Hin.
      rewrite Forall_forall in Hvalid. by apply Hvalid, list_elem_of_In. }
  destruct Hact as (Hne' & Hfil & Hov'). rewrite Hb, HGl.
  destruct (allocation_facts sortSlice globalLimit (active da) Hsort) as (H1 & H2 & _); rewrite ?Hfil; try done.
  rewrite Hfil in H2. split_and!; [done..|]. intros Hex a Ha.
  rewrite Hb, HGl in Ha.
  assert (Hr : al_Region a ∈ rw_Region <$> active da) by (rewrite <- H2; by apply list_elem_of_fmap_2).
  apply list_elem_of_fmap in Hr as (w & Hr & Hin).
  destruct Hsub as [[_ Ea]|[Hnil _]].
  - rewrite Ea in Hin. apply list_elem_of_In, List.filter_In in Hin as [Hin Hs]. exists w.
    split_and!; [by apply list_elem_of_In|done|done].
  - exfalso. apply Exists_exists in Hex as (w' & Hw' & Hs').
    assert (Hin' : In w' (List.filter (serving (da_health da)) weights)).
    { apply List.filter_In. split; [by apply list_elem_of_In|done]. }
    by rewrite Hnil in Hin'.
Qed.

(** ** Examples *)

Definition by_name : list RegionWeight -> list RegionWeight :=
  sort_by (fun a b => String.ltb (rw_Region a) (rw_Region b)).
Definition demo_weights : list RegionWeight :=
  [{| rw_Region := "us"; rw_Weight := 2 |}; {| rw_Region := "eu"; rw_Weight := 1 |};
   {| rw_Region := "ap"; rw_Weight := 1 |}].

Lemma by_name_permutation l : by_name l ≡ₚ l.
Proof. apply sort_by_Permutation. Qed.

Lemma allocation_exact_witness :
  al_Limit <$> AllocateGlobalLimit by_name 10 demo_weights = [2; 2; 6] /\
  sumZ (al_Limit <$> AllocateGlobalLimit by_name 10 demo_weights) = 10.
Proof.
  split; [reflexivity|].
  apply (allocation_exact by_name 10 demo_weights); [apply by_name_permutation|done|done|done].
Defined.

Lemma allocator_complete_witness :
  let da := DrainRegion by_name "us" (NewDynamicAllocator by_name 0 10 demo_weights 0) in
  al_Limit <$> da_allocations da = [5; 5] /\ sumZ (al_Limit <$> da_allocations da) = 10.
Proof.
  split; [reflexivity|].
  apply (allocator_complete by_name 0 10 demo_weights 0); [apply by_name_permutation|done|done|by repeat constructor|done|].
  apply rtc_once, rs_drain.
Defined.

(** A heartbeat undoes a drain: the drained region is healthy again. *)
Example heartbeat_undoes_drain :
  let da := NewDynamicAllocator by_name 0 10 demo_weights 0 in
  serving (da_health (DrainRegion by_name "us" da)) {| rw_Region := "us"; rw_Weight := 2 |} = false /\
  serving (da_health (Heartbeat by_name 1 "us" 0 (DrainRegion by_name "us" da)))
    {| rw_Region := "us"; rw_Weight := 2 |} = true.
Proof. by vm_compute. Qed.

(** When no region serves, the limit is still split by weight, not evenly. *)
Example all_unhealthy_by_weight :
  let da := fold_left (fun da r => DrainRegion by_name r da) ["us"; "eu"; "ap"]
              (NewDynamicAllocator by_name 0 8 demo_weights 0) in
  al_Limit <$> da_allocations da = [2; 2; 4].
Proof. by vm_compute. Qed.

(** The product of limit and weight is computed in 64 bits. *)
Example allocation_overflow :
  al_Limit <$> AllocateGlobalLimit by_name (2 ^ 62)
    [{| rw_Region := "a"; rw_Weight := 4 |}; {| rw_Region := "b"; rw_Weight := 1 |}] = [0; 2 ^ 62].
Proof. by vm_compute. Qed.
