(* ===== verification/CircuitBreaker.v ===== *)
(** * internal/store/counter/redis: the circuit breaker in front of Redis

    The breaker's fields are atomics, read and written without its mutex by some
    methods and under it by others.  So its methods are programs of atomic actions
    ([bprog]), which [bpool_step] interleaves; [brun] executes one alone.  The
    guarded store [guarded] puts the breaker in front of any counter store, as
    [Store.do] does; go-redis and Redis are that store. *)

From S2P Require Import Prelude GoString GoFloat GoTime Model Store Protocol.
Local Open Scope Z_scope.
Local Open Scope stdpp_scope.
Local Open Scope go_scope.

Definition CBClosed : Z := 0.
Definition CBOpen : Z := 1.
Definition CBHalfOpen : Z := 2.

Record CircuitBreaker := {
  cb_state : Z;
  cb_failures : int64;
  cb_threshold : int64;
  cb_halfOpenAfter : Duration;
  cb_maxProbe : int64;
  cb_probeCount : int64;
  cb_openedAt : int64;
  cb_locked : bool
}.

Definition NewCircuitBreaker (threshold : int64) (halfOpenAfter : Duration) (maxProbe : int64) : CircuitBreaker :=
  {| cb_state := CBClosed; cb_failures := 0; cb_threshold := threshold; cb_halfOpenAfter := halfOpenAfter;
     cb_maxProbe := maxProbe; cb_probeCount := 0; cb_openedAt := 0; cb_locked := false |}.

(** The breaker of [NewWithOptions], with its defaults. *)
Definition breaker_of_options (threshold : int64) (halfOpenAfter : Duration) (maxProbe : int64) : CircuitBreaker :=
  NewCircuitBreaker (if threshold <=? 0 then 5 else threshold)
    (if halfOpenAfter <=? 0 then 10 * Second else halfOpenAfter) (if maxProbe <=? 0 then 2 else maxProbe).

(** ** Atomic actions *)

Section Fields.
Context (cb : CircuitBreaker).
Definition set_state (v : Z) : CircuitBreaker :=
  {| cb_state := v; cb_failures := cb_failures cb; cb_threshold := cb_threshold cb;
     cb_halfOpenAfter := cb_halfOpenAfter cb; cb_maxProbe := cb_maxProbe cb;
     cb_probeCount := cb_probeCount cb; cb_openedAt := cb_openedAt cb; cb_locked := cb_locked cb |}.
Definition set_failures (v : int64) : CircuitBreaker :=
  {| cb_state := cb_state cb; cb_failures := v; cb_threshold := cb_threshold cb;
     cb_halfOpenAfter := cb_halfOpenAfter cb; cb_maxProbe := cb_maxProbe cb;
     cb_probeCount := cb_probeCount cb; cb_openedAt := cb_openedAt cb; cb_locked := cb_locked cb |}.
Definition set_probeCount (v : int64) : CircuitBreaker :=
  {| cb_state := cb_state cb; cb_failures := cb_failures cb; cb_threshold := cb_threshold cb;
     cb_halfOpenAfter := cb_halfOpenAfter cb; cb_maxProbe := cb_maxProbe cb;
     cb_probeCount := v; cb_openedAt := cb_openedAt cb; cb_locked := cb_locked cb |}.
Definition set_openedAt (v : int64) : CircuitBreaker :=
  {| cb_state := cb_state cb; cb_failures := cb_failures cb; cb_threshold := cb_threshold cb;
     cb_halfOpenAfter := cb_halfOpenAfter cb; cb_maxProbe := cb_maxProbe cb;
     cb_probeCount := cb_probeCount cb; cb_openedAt := v; cb_locked := cb_locked cb |}.
Definition set_locked (v : bool) : CircuitBreaker :=
  {| cb_state := cb_state cb; cb_failures := cb_failures cb; cb_threshold := cb_threshold cb;
     cb_halfOpenAfter := cb_halfOpenAfter cb; cb_maxProbe := cb_maxProbe cb;
     cb_probeCount := cb_probeCount cb; cb_openedAt := cb_openedAt cb; cb_locked := v |}.
End Fields.

(** A program whose steps are atomic: each sees the clock and the breaker, and
    returns a value and the breaker it leaves, or waits. *)
Inductive bprog (A : Type) : Type :=
| BRet (a : A)
| BDo {X : Type} (f : Time -> CircuitBreaker -> option (X * CircuitBreaker)) (k : X -> bprog A).
Arguments BRet {_} _.
Arguments BDo {_ _} _ _.

Fixpoint bprog_bind {A B} (g : A -> bprog B) (p : bprog A) : bprog B :=
  match p with
  | BRet a => g a
  | BDo f k => BDo f (fun x => bprog_bind g (k x))
  end.

#[export] Instance bprog_mret : MRet bprog := @BRet.
#[export] Instance bprog_mbind : MBind bprog := @bprog_bind.

Definition atom {X} (f : Time -> CircuitBreaker -> option (X * CircuitBreaker)) : bprog X := BDo f BRet.
Definition load {X} (field : CircuitBreaker -> X) : bprog X := atom (fun _ cb => Some (field cb, cb)).
Definition store_ {X} (set : CircuitBreaker -> X -> CircuitBreaker) (v : X) : bprog unit :=
  atom (fun _ cb => Some (tt, set cb v)).
Definition add (field : CircuitBreaker -> int64) (set : CircuitBreaker -> int64 -> CircuitBreaker) (d : int64)
    : bprog int64 :=
  atom (fun _ cb => let n := field cb +! d in Some (n, set cb n)).
Definition lock : bprog unit := atom (fun _ cb => if cb_locked cb then None else Some (tt, set_locked cb true)).
Definition unlock : bprog unit := store_ set_locked false.
Definition now_nano : bprog int64 := atom (fun t cb => Some (UnixNano t, cb)).

(** ** The methods *)

Definition Allow : bprog bool :=
  st ← load cb_state;
  if st =? CBClosed then mret true
  else if st =? CBOpen then
    now ← now_nano; openedAt ← load cb_openedAt; halfOpenAfter ← load cb_halfOpenAfter;
    if halfOpenAfter <? now -! openedAt then
      _ ← lock;
      st' ← load cb_state;
      _ ← (if st' =? CBOpen then _ ← store_ set_state CBHalfOpen; store_ set_probeCount 0 else mret tt);
      _ ← unlock;
      st'' ← load cb_state; mret (st'' =? CBHalfOpen)
    else mret false
  else if st =? CBHalfOpen then
    n ← load cb_probeCount; maxProbe ← load cb_maxProbe; mret (n <? maxProbe)
  else mret true.

Definition RecordSuccess : bprog unit :=
  st ← load cb_state;
  if st =? CBHalfOpen then
    n ← add cb_probeCount set_probeCount 1; maxProbe ← load cb_maxProbe;
    if maxProbe <=? n then
      _ ← lock; _ ← store_ set_state CBClosed; _ ← store_ set_failures 0; _ ← store_ set_probeCount 0; unlock
    else mret tt
  else if st =? CBClosed then store_ set_failures 0
  else mret tt.

Definition RecordFailure : bprog unit :=
  st ← load cb_state;
  if st =? CBClosed then
    n ← add cb_failures set_failures 1; threshold ← load cb_threshold;
    if threshold <=? n then
      _ ← lock;
      st' ← load cb_state;
      _ ← (if st' =? CBClosed
           then _ ← store_ set_state CBOpen; now ← now_nano; store_ set_openedAt now
           else mret tt);
      unlock
    else mret tt
  else if st =? CBHalfOpen then
    _ ← lock; _ ← store_ set_state CBOpen; now ← now_nano; _ ← store_ set_openedAt now;
    _ ← store_ set_probeCount 0; unlock
  else mret tt.

(** [Store.do] around an operation that succeeds or fails: whether it was attempted. *)
Definition do_ (ok : bool) : bprog bool :=
  allowed ← Allow;
  if (allowed : bool) then
    _ ← (if ok then RecordSuccess else RecordFailure); mret true
  else mret false.

(** ** One caller at a time *)

(** Runs a program alone at the instant [t]; [None] when it waits for the lock. *)
Fixpoint brun {A} (t : Time) (p : bprog A) (cb : CircuitBreaker) : option (A * CircuitBreaker) :=
  match p with
  | BRet a => Some (a, cb)
  | BDo f k => match f t cb with Some (x, cb') => brun t (k x) cb' | None => None end
  end.

(** A call: when it starts, when its outcome is recorded, and whether the operation
    would succeed. *)
Record bcall := { bc_start : Time; bc_end : Time; bc_ok : bool }.

(** [Store.do] alone: whether the operation was attempted. *)
Definition do_alone (c : bcall) (cb : CircuitBreaker) : option (bool * CircuitBreaker) :=
  match brun (bc_start c) Allow cb with
  | Some (true, cb1) =>
      match brun (bc_end c) (if bc_ok c then RecordSuccess else RecordFailure) cb1 with
      | Some (_, cb2) => Some (true, cb2)
      | None => None
      end
  | Some (false, cb1) => Some (false, cb1)
  | None => None
  end.

Fixpoint calls_alone (cs : list bcall) (cb : CircuitBreaker) : option (list bool * CircuitBreaker) :=
  match cs with
  | [] => Some ([], cb)
  | c :: cs' =>
      match do_alone c cb with
      | Some (b, cb1) =>
          match calls_alone cs' cb1 with Some (l, cb2) => Some (b :: l, cb2) | None => None end
      | None => None
      end
  end.

(** *** What a breaker promises

    Closed with the number of failures in a row, open since an instant, or half-open
    with the number of successful probes. *)
Inductive phase := PClosed (k : Z) | POpen (since : Z) | PHalfOpen (k : Z).

Section Spec.
Context (threshold wait probes : Z).

(** After an attempted call. *)
Definition after_attempt (c : bcall) (ph : phase) : phase :=
  match ph with
  | PClosed k => if bc_ok c then PClosed 0
                 else if threshold <=? k + 1 then POpen (bc_end c) else PClosed (k + 1)
  | PHalfOpen k => if bc_ok c then (if probes <=? k + 1 then PClosed 0 else PHalfOpen (k + 1))
                   else POpen (bc_end c)
  | POpen since => POpen since
  end.

(** An open breaker rejects calls until [wait] has passed, then lets probes through. *)
Definition spec_call (c : bcall) (ph : phase) : bool * phase :=
  match ph with
  | POpen since =>
      if wait <? bc_start c - since then (true, after_attempt c (PHalfOpen 0)) else (false, ph)
  | _ => (true, after_attempt c ph)
  end.

Fixpoint spec_calls (cs : list bcall) (ph : phase) : list bool * phase :=
  match cs with
  | [] => ([], ph)
  | c :: cs' => let '(b, ph1) := spec_call c ph in let '(l, ph2) := spec_calls cs' ph1 in (b :: l, ph2)
  end.

Definition represents (cb : CircuitBreaker) (ph : phase) : Prop :=
  cb_locked cb = false /\ cb_threshold cb = threshold /\ cb_halfOpenAfter cb = wait /\ cb_maxProbe cb = probes /\
  match ph with
  | PClosed k => cb_state cb = CBClosed /\ cb_failures cb = k /\ 0 <= k < threshold
  | POpen since => cb_state cb = CBOpen /\ cb_openedAt cb = since /\ 0 <= since <= maxInt64
  | PHalfOpen k => cb_state cb = CBHalfOpen /\ cb_probeCount cb = k /\ 0 <= k < probes
  end.
End Spec.

Section Refinement.
Context (threshold wait probes : Z).
Context (Hthr : 0 < threshold <= maxInt64) (Hpr : 0 < probes <= maxInt64).

Definition timely (c : bcall) : Prop := 0 <= bc_start c <= maxInt64 /\ 0 <= bc_end c <= maxInt64.

Ltac breaker :=
  cbv [do_alone Allow RecordSuccess RecordFailure load store_ add lock unlock now_nano atom mbind bprog_mbind mret
       bprog_mret set_state set_failures set_probeCount set_openedAt set_locked CBClosed CBOpen CBHalfOpen];
  repeat (progress (cbn [bprog_bind brun cb_state cb_failures cb_threshold cb_halfOpenAfter cb_maxProbe
    cb_probeCount cb_openedAt cb_locked Z.eqb Pos.eqb])).

Lemma record_refines c cb ph :
  timely c -> represents threshold wait probes cb ph ->
  match ph with
  | POpen _ => True
  | _ => exists cb', brun (bc_end c) (if bc_ok c then RecordSuccess else RecordFailure) cb = Some (tt, cb') /\
           represents threshold wait probes cb' (after_attempt threshold probes c ph)
  end.
Proof.
  intros [_ Ht] (Hl & Et & Ew & Ep & Hph). destruct cb as [st f th ho mp pc oa lk]. cbn in *. subst lk th ho mp.
  destruct ph as [k|s|k]; [|done|]; destruct Hph as (-> & -> & Hk); cbn [after_attempt]; destruct (bc_ok c).
  - breaker. eexists. split; [done|]. split_and!; done || (cbn; lia).
  - breaker. rewrite (wrap64_small (k + 1)) by (unfold in_int64, minInt64; lia).
    destruct (threshold <=? k + 1) eqn:E; zify_bool; breaker; unfold UnixNano;
      rewrite ?wrap64_small by (unfold in_int64, minInt64; lia);
      eexists; (split; [done|]); split_and!; done || (cbn; lia).
  - breaker. rewrite (wrap64_small (k + 1)) by (unfold in_int64, minInt64; lia).
    destruct (probes <=? k + 1) eqn:E; zify_bool; breaker;
      eexists; (split; [done|]); split_and!; done || (cbn; lia).
  - breaker. unfold UnixNano. rewrite wrap64_small by (unfold in_int64, minInt64; lia).
    eexists. split; [done|]. split_and!; done || (cbn; lia).
Qed.

Lemma allow_refines c cb ph :
  timely c -> represents threshold wait probes cb ph ->
  exists cb', brun (bc_start c) Allow cb = Some ((spec_call threshold wait probes c ph).1, cb') /\
    match ph with
    | POpen s => if wait <? bc_start c - s then represents threshold wait probes cb' (PHalfOpen 0) else cb' = cb
    | _ => cb' = cb
    end.
Proof.
  intros [Ht _] (Hl & Et & Ew & Ep & Hph). destruct cb as [st f th ho mp pc oa lk]. cbn in *. subst lk th ho mp.
  destruct ph as [k|s|k]; destruct Hph as (-> & -> & Hk); cbn [spec_call fst].
  - breaker. by eexists.
  - breaker. unfold UnixNano. rewrite (wrap64_small (bc_start c)), (wrap64_small (_ - _))
      by (unfold in_int64, minInt64, maxInt64 in *; lia).
    destruct (wait <? bc_start c - s); breaker; eexists; (split; [done|]); [|done].
    split_and!; done || (cbn; lia).
  - breaker. eexists. rewrite (proj2 (Z.ltb_lt k probes)) by lia. done.
Qed.

Lemma do_refines c cb ph :
  timely c -> represents threshold wait probes cb ph ->
  exists cb', do_alone c cb = Some ((spec_call threshold wait probes c ph).1, cb') /\
    represents threshold wait probes cb' (spec_call threshold wait probes c ph).2.
Proof.
  intros Ht Hr. destruct (allow_refines c cb ph Ht Hr) as (cb1 & Ha & Hcb1). unfold do_alone. rewrite Ha.
  destruct ph as [k|s|k]; cbn [spec_call fst snd] in *.
  - subst cb1. destruct (record_refines c cb (PClosed k) Ht Hr) as (cb2 & -> & H2). by eexists.
  - destruct (wait <? bc_start c - s); cbn [fst snd]; [|subst; by eexists].
    destruct (record_refines c cb1 (PHalfOpen 0) Ht Hcb1) as (cb2 & -> & H2). by eexists.
  - subst cb1. destruct (record_refines c cb (PHalfOpen k) Ht Hr) as (cb2 & -> & H2). by eexists.
Qed.

Lemma calls_refine cs cb ph :
  Forall timely cs -> represents threshold wait probes cb ph ->
  exists cb', calls_alone cs cb = Some ((spec_calls threshold wait probes cs ph).1, cb') /\
    represents threshold wait probes cb' (spec_calls threshold wait probes cs ph).2.
Proof.
  intros Hcs. revert cb ph. induction Hcs as [|c cs Hc _ IH]; intros cb ph Hr; [by exists cb|].
  cbn [calls_alone spec_calls]. destruct (do_refines c cb ph Hc Hr) as (cb1 & -> & H1).
  destruct (spec_call _ _ _ c ph) as [b ph1]. cbn [fst snd] in *.
  destruct (IH cb1 ph1 H1) as (cb2 & -> & H2). destruct (spec_calls _ _ _ cs ph1). by exists cb2.
Qed.
End Refinement.

(** C29 (kind: refinement).  The breaker does what it promises: whatever calls are made through it, one at a
    time, it attempts and rejects the same ones as the specification.  It opens
    after the configured number of failures in a row, rejects calls until the wait
    is over, then closes after the configured number of successful probes and opens
    again on a failed one. *)
Theorem breaker_refines (threshold wait probes : Z) (cs : list bcall) :
  0 < threshold <= maxInt64 -> 0 < probes <= maxInt64 -> Forall timely cs ->
  exists cb', calls_alone cs (NewCircuitBreaker threshold wait probes)
                = Some ((spec_calls threshold wait probes cs (PClosed 0)).1, cb') /\
    represents threshold wait probes cb' (spec_calls threshold wait probes cs (PClosed 0)).2.
Proof.
  intros Ht Hp Hcs. apply calls_refine; [done..|]. split_and!; done || (cbn; lia).
Qed.

Definition failing (t : Time) : bcall := {| bc_start := t; bc_end := t; bc_ok := false |}.
Definition succeeding (t : Time) : bcall := {| bc_start := t; bc_end := t; bc_ok := true |}.

(** Two failures trip it, the third call is rejected, a probe is let through after
    the wait and closes it. *)
Lemma breaker_refines_witness :
  exists cb', calls_alone [failing 10; failing 20; succeeding 25; succeeding 40] (NewCircuitBreaker 2 15 1)
    = Some ([true; true; false; true], cb') /\ cb_state cb' = CBClosed.
Proof.
  destruct (breaker_refines 2 15 1 [failing 10; failing 20; succeeding 25; succeeding 40])
    as (cb' & H & _ & _ & _ & _ & Hr).
  - unfold maxInt64. lia.
  - unfold maxInt64. lia.
  - repeat constructor; done.
  - exists cb'. split; [exact H|]. apply Hr.
Defined.

(** ** Concurrent callers *)

(** Callers on one breaker: any of them may take the next atomic action, and time
    may pass. *)
Inductive bpool_step {A} : list (bprog A) * Time * CircuitBreaker -> list (bprog A) * Time * CircuitBreaker -> Prop :=
| bpool_act ps t cb i X (f : Time -> CircuitBreaker -> option (X * CircuitBreaker)) k x cb' :
    ps !! i = Some (BDo f k) -> f t cb = Some (x, cb') ->
    bpool_step (ps, t, cb) (<[i := k x]> ps, t, cb')
| bpool_time ps t t' cb : t <= t' -> bpool_step (ps, t, cb) (ps, t', cb).

(** Closed, with [f] failures counted. *)
Definition closed_with (threshold : Z) (cb : CircuitBreaker) : Prop :=
  cb_state cb = CBClosed /\ cb_threshold cb = threshold /\ 0 <= cb_failures cb.

(** A caller that will count at most [budget] failures, and that is let through, as
    long as the breaker stays closed with fewer than [threshold] failures. *)
Fixpoint calm (threshold : Z) (budget : Z) (p : bprog bool) : Prop :=
  match p with
  | BRet a => a = true /\ 0 <= budget
  | @BDo _ X f k =>
      0 <= budget /\
      forall (t : Time) (cb : CircuitBreaker) (x : X) (cb' : CircuitBreaker),
        closed_with threshold cb -> cb_failures cb + budget < threshold -> f t cb = Some (x, cb') ->
        exists budget', budget' <= budget /\ closed_with threshold cb' /\
          cb_failures cb' <= cb_failures cb + (budget - budget') /\ calm threshold budget' (k x)
  end.

Lemma calm_budget threshold b p : calm threshold b p -> 0 <= b.
Proof. destruct p; cbn [calm]; tauto. Qed.

(** Chooses the budget that is left after an action that keeps the breaker closed. *)
Ltac still_closed b :=
  exists b; split_and!; [lia|split; [|split]; (done || (cbn; lia))|cbn; lia|].

Lemma do_calm threshold (ok : bool) : threshold <= maxInt64 -> calm threshold (if ok then 0 else 1) (do_ ok).
Proof.
  intros Hmax. split; [destruct ok; lia|]. intros t cb x cb' (Hst & Hth & Hf) Hb [= <- <-].
  still_closed (if ok then 0 else 1). rewrite Hst. cbn.
  destruct ok; cbn [RecordSuccess RecordFailure load atom mbind bprog_mbind bprog_bind];
    (split; [lia|]); intros t1 cb1 x1 cb1' (H1 & H2 & H3) Hb1 [= <- <-].
  - still_closed 0. rewrite H1. split; [lia|].
    intros t2 cb2 x2 cb2' (G1 & G2 & G3) _ [= <- <-]. still_closed 0. done.
  - still_closed 1. rewrite H1. split; [lia|].
    intros t2 cb2 x2 cb2' (G1 & G2 & G3) Hb2 [= <- <-].
    rewrite wrap64_small by (unfold in_int64, minInt64, maxInt64 in *; lia).
    set (n := cb_failures cb2 + 1). assert (Hn : n < threshold) by lia. assert (Hn0 : 0 <= n) by lia.
    assert (Hn1 : n <= cb_failures cb2 + 1) by lia. clearbody n. still_closed 0. split; [lia|].
    intros t3 cb3 x3 cb3' (K1 & K2 & K3) _ [= <- <-]. still_closed 0.
    rewrite K2, (proj2 (Z.leb_gt threshold n)) by lia. done.
Qed.

(** All callers are calm and what they may still count does not reach the threshold. *)
Definition calm_pool (threshold : Z) (x : list (bprog bool) * Time * CircuitBreaker) : Prop :=
  closed_with threshold x.2 /\
  exists budgets, Forall2 (calm threshold) budgets x.1.1 /\ cb_failures x.2 + sumZ budgets < threshold.

Lemma sumZ_ge_lookup l i b : Forall (fun x => 0 <= x) l -> l !! i = Some b -> b <= sumZ l.
Proof.
  intros Hl. revert i. induction Hl as [|x l Hx Hl IH]; intros i Hi; [done|].
  pose proof (sumZ_nonneg l Hl). unfold sumZ in *. cbn [foldr]. destruct i; simplify_eq/=; [lia|].
  specialize (IH i Hi). lia.
Qed.

Lemma calm_step threshold x y : bpool_step x y -> calm_pool threshold x -> calm_pool threshold y.
Proof.
  intros Hs [Hcl (bs & Hbs & Hsum)]. destruct Hs as [ps t cb i X f k x cb' Hi Hf|ps t t' cb Ht]; cbn [fst snd] in *;
    [|by split; [|exists bs]].
  destruct (Forall2_lookup_r _ _ _ i _ Hbs Hi) as (b & Hb & Hc).
  assert (Hpos : Forall (fun x => 0 <= x) bs).
  { apply Forall_lookup. intros j c Hj. destruct (Forall2_lookup_l _ _ _ j _ Hbs Hj) as (p & _ & Hp).
    by eapply calm_budget. }
  pose proof (sumZ_ge_lookup bs i b Hpos Hb) as Hle. cbn [calm] in Hc. destruct Hc as [_ Hc].
  destruct (Hc t cb x cb' Hcl ltac:(lia) Hf) as (b' & Hb' & Hcl' & Hf' & Hk).
  split; [done|]. exists (<[i := b']> bs). split; [by apply Forall2_insert|]. cbn [snd].
  pose proof (sumZ_insert id bs i b b' Hb) as Hins. rewrite !list_fmap_id in Hins. unfold id in Hins. lia.
Qed.

(** A breaker only trips on failures: however concurrent callers are interleaved, when
    fewer of their operations fail than the threshold, the breaker stays closed and
    rejects none of them. *)
Theorem breaker_needs_failures (threshold wait probes : Z) (oks : list bool) (t t' : Time)
    (ps' : list (bprog bool)) (cb' : CircuitBreaker) :
  threshold <= maxInt64 -> Z.of_nat (length (List.filter negb oks)) < threshold ->
  rtc bpool_step (do_ <$> oks, t, NewCircuitBreaker threshold wait probes) (ps', t', cb') ->
  cb_state cb' = CBClosed /\ forall i, ps' !! i <> Some (BRet false).
Proof.
  intros Hmax Hfew Hrtc.
  assert (H : calm_pool threshold (ps', t', cb')).
  { refine (rtc_ind_r (calm_pool threshold) _ _ _ _ Hrtc); [|intros; by eapply calm_step].
    split; [by split_and!|]. exists ((fun ok : bool => if ok then 0 else 1) <$> oks). split.
    - apply Forall2_fmap, Forall_Forall2_diag, Forall_forall. intros ok _. by apply do_calm.
    - cbn [snd NewCircuitBreaker cb_failures]. enough (sumZ ((fun ok : bool => if ok then 0 else 1) <$> oks) =
        Z.of_nat (length (List.filter negb oks))) by lia.
      clear. unfold sumZ. induction oks as [|[] l IH]; cbn [fmap list_fmap foldr List.filter negb length]; [done|..]; lia. }
  destruct H as [(Hst & _) (bs & Hbs & _)]. split; [done|]. intros i Hi.
  destruct (Forall2_lookup_r _ _ _ i _ Hbs Hi) as (b & _ & [Hb _]). done.
Qed.

(** An executable schedule: the indices of the callers that act, in order. *)
Fixpoint bschedule {A} (sched : list nat) (t : Time) (ps : list (bprog A)) (cb : CircuitBreaker)
    : list (bprog A) * CircuitBreaker :=
  match sched with
  | [] => (ps, cb)
  | i :: sched' =>
      match ps !! i with
      | Some (BDo f k) =>
          match f t cb with
          | Some (x, cb') => bschedule sched' t (<[i := k x]> ps) cb'
          | None => bschedule sched' t ps cb
          end
      | _ => bschedule sched' t ps cb
      end
  end.

Lemma bschedule_steps {A} sched t (ps : list (bprog A)) cb :
  rtc bpool_step (ps, t, cb) ((bschedule sched t ps cb).1, t, (bschedule sched t ps cb).2).
Proof.
  revert ps cb. induction sched as [|i sched IH]; intros ps cb; cbn [bschedule]; [done|].
  destruct (ps !! i) as [[a|X f k]|] eqn:Hi; [by apply IH| |by apply IH].
  destruct (f t cb) as [[x cb1]|] eqn:Hf; [|by apply IH].
  eapply rtc_l; [by eapply bpool_act|]. by apply IH.
Qed.

Lemma breaker_needs_failures_witness :
  exists ps' cb', rtc bpool_step (do_ <$> [false; true; false], 0, NewCircuitBreaker 3 10 1) (ps', 0, cb') /\
    cb_failures cb' = 2 /\ cb_state cb' = CBClosed.
Proof.
  set (r := bschedule [0; 1; 2; 1; 1; 0; 2; 0; 2]%nat 0 (do_ <$> [false; true; false]) (NewCircuitBreaker 3 10 1)).
  assert (Hr : rtc bpool_step (do_ <$> [false; true; false], 0, NewCircuitBreaker 3 10 1) (r.1, 0, r.2))
    by apply bschedule_steps.
  exists r.1, r.2. split; [exact Hr|]. split; [by vm_compute|].
  apply (breaker_needs_failures 3 10 1 [false; true; false] 0 0 r.1 r.2); [done|done|exact Hr].
Defined.

(** A half-open breaker with two probes in flight: one fails and opens it again, and
    then the other, which had already seen it half-open, closes it at once. *)
Example stale_probe_closes_breaker :
  let half_open := set_state (NewCircuitBreaker 5 1000 1) CBHalfOpen in
  exists ps' cb', rtc bpool_step ([do_ true; do_ false], 7, half_open) (ps', 7, cb') /\
    ps' = [BRet true; BRet true] /\ cb_openedAt cb' = 7 /\ cb_state cb' = CBClosed.
Proof.
  intros half_open.
  set (r := bschedule ([0; 1; 0; 1; 0; 1; 0; 1; 1; 1; 1; 1; 1; 1] ++ [0; 0; 0; 0; 0; 0; 0; 0])%nat 7
    [do_ true; do_ false] half_open).
  exists r.1, r.2. split; [apply bschedule_steps|]. by vm_compute.
Qed.

(** ** The guarded store *)

(** Whether a store call failed; a rejected call is answered with [ErrCircuitOpen]. *)
Definition ErrCircuitOpen : string := "circuit breaker is open".

Definition call_failed {R} (op : CounterOp R) : R -> bool :=
  match op in CounterOp R return R -> bool with
  | TimeNow => fun _ => false
  | Increment _ _ _ | Get _ | CountAfter _ _ => fun r => match r with Err _ => true | Ok _ => false end
  | SetVal _ _ _ | Delete _ | AddTimestamp _ _ _ | TrimBefore _ _ | ReleaseLease _ =>
      fun r => match r with Err _ => true | Ok _ => false end
  | CompareAndSwap _ _ _ _ => fun r => match r with Err _ => true | Ok _ => false end
  | CheckAndAddTimestamps _ _ _ _ _ _ => fun r => match r with Err _ => true | Ok _ => false end
  | AcquireLease _ _ _ => fun r => match r with Err _ => true | Ok _ => false end
  end.

(** The answer to a rejected call; reading the clock is never rejected. *)
Definition rejection {R} (op : CounterOp R) : option R :=
  match op in CounterOp R return option R with
  | TimeNow => None
  | Increment _ _ _ | Get _ | CountAfter _ _ => Some (Err ErrCircuitOpen)
  | SetVal _ _ _ | Delete _ | AddTimestamp _ _ _ | TrimBefore _ _ | ReleaseLease _ => Some (Err ErrCircuitOpen)
  | CompareAndSwap _ _ _ _ => Some (Err ErrCircuitOpen)
  | CheckAndAddTimestamps _ _ _ _ _ _ => Some (Err ErrCircuitOpen)
  | AcquireLease _ _ _ => Some (Err ErrCircuitOpen)
  end.

Section Guarded.
Context {W : Type} (h : handler W) (env : W -> W -> Prop).

(** A breaker method at the time the store's clock shows; the breaker is left alone
    while another caller holds its lock. *)
Definition at_clock {A} (p : bprog A) (dflt : A) (cb : CircuitBreaker) (w : W) : A * CircuitBreaker :=
  default (dflt, cb) (brun (h _ TimeNow w).1 p cb).

(** [Store.do], on a store with a breaker. *)
Definition guarded : handler (CircuitBreaker * W) := fun R op cw =>
  let '(cb, w) := cw in
  match rejection op with
  | None => let '(r, w') := h _ op w in (r, (cb, w'))
  | Some err =>
      let '(allowed, cb1) := at_clock Allow true cb w in
      if (allowed : bool) then
        let '(r, w') := h _ op w in
        let '(_, cb2) := at_clock (if call_failed op r then RecordFailure else RecordSuccess) tt cb1 w' in
        (r, (cb2, w'))
      else (err, (cb1, w))
  end.

(** Other callers may leave the breaker in any state at any time. *)
Definition guarded_env (x y : CircuitBreaker * W) : Prop := x.2 = y.2 \/ env x.2 y.2.

(** A guarded call does to the store what the call does, or is rejected. *)
Lemma guarded_cases R (op : CounterOp R) cb w :
  let '(r, (_, w')) := guarded R op (cb, w) in
  (r, w') = h R op w \/ (w' = w /\ rejection op = Some r).
Proof.
  unfold guarded. destruct (rejection op) as [err|] eqn:E.
  - destruct (at_clock Allow true cb w) as [[|] cb1]; [|by right].
    destruct (h R op w) as [r w']. destruct (at_clock _ tt cb1 w') as [u cb2]. by left.
  - destruct (h R op w) as [r w']. by left.
Qed.

Context `{HL : !StoreLaws h env}.

Lemma guarded_now cw : guarded _ TimeNow cw = (sl_clock cw.2, cw).
Proof. destruct cw as [cb w]. cbn. by rewrite sl_now. Qed.

Lemma guarded_frame R (op : CounterOp R) cw k :
  sl_wf cw.2 -> op_key op <> Some k ->
  sl_value (guarded R op cw).2.2 k = sl_value cw.2 k /\ sl_deadline (guarded R op cw).2.2 k = sl_deadline cw.2 k.
Proof.
  destruct cw as [cb w]. cbn [snd]. intros Hwf Hk. pose proof (guarded_cases R op cb w) as H.
  destruct (guarded R op (cb, w)) as [r [cb' w']]. cbn [snd]. destruct H as [H|[-> _]]; [|done].
  pose proof (sl_frame R op w k Hwf Hk) as Hf. by rewrite <- H in Hf.
Qed.

Lemma guarded_op R (op : CounterOp R) cw :
  (sl_wf cw.2 -> sl_wf (guarded R op cw).2.2) /\ sl_clock (guarded R op cw).2.2 = sl_clock cw.2.
Proof.
  destruct cw as [cb w]. cbn [snd]. pose proof (guarded_cases R op cb w) as H.
  destruct (guarded R op (cb, w)) as [r [cb' w']]. cbn [snd]. destruct H as [H|[-> _]]; [|done].
  pose proof (sl_wf_op R op w) as H1. pose proof (sl_op_clock R op w) as H2. by rewrite <- H in H1, H2.
Qed.

Lemma guarded_get cw k :
  sl_wf cw.2 ->
  ((guarded _ (Get k) cw).1 = Ok (sl_value cw.2 k) \/ exists e, (guarded _ (Get k) cw).1 = Err e) /\
  sl_value (guarded _ (Get k) cw).2.2 k = sl_value cw.2 k /\
  sl_deadline (guarded _ (Get k) cw).2.2 k = sl_deadline cw.2 k.
Proof.
  destruct cw as [cb w]. cbn [snd]. intros Hwf. pose proof (guarded_cases _ (Get k) cb w) as H.
  destruct (guarded _ (Get k) (cb, w)) as [r [cb' w']]. cbn [fst snd].
  destruct H as [H|[-> [= <-]]].
  - pose proof (sl_get w k Hwf) as Hg. by rewrite <- H in Hg.
  - split; [right; by eexists|done].
Qed.

Lemma guarded_cas cw k oldVal newVal ttl :
  sl_wf cw.2 -> 0 <= oldVal <= sl_cap ->
  let '(r, cw') := guarded _ (CompareAndSwap k oldVal newVal ttl) cw in
  let unchanged := sl_value cw'.2 k = sl_value cw.2 k /\ sl_deadline cw'.2 k = sl_deadline cw.2 k in
  let swapped := sl_value cw.2 k = oldVal /\ sl_value cw'.2 k = newVal /\
                 (0 < ttl <= maxInt64 -> alive_until (sl_deadline cw'.2 k) (sl_clock cw.2 + ttl - sl_slack)) in
  match r with
  | Ok true => swapped
  | Ok false | Err _ => unchanged \/ swapped
  end.
Proof.
  destruct cw as [cb w]. cbn [snd]. intros Hwf Ho. pose proof (guarded_cases _ (CompareAndSwap k oldVal newVal ttl) cb w) as H.
  destruct (guarded _ _ (cb, w)) as [r [cb' w']]. cbn [snd]. destruct H as [H|[-> [= <-]]]; [|by left].
  pose proof (sl_cas w k oldVal newVal ttl Hwf Ho) as Hc. by rewrite <- H in Hc.
Qed.

Lemma guarded_env_law x y k :
  sl_wf x.2 -> guarded_env x y -> alive_until (sl_deadline x.2 k) (sl_clock y.2) ->
  sl_value y.2 k = sl_value x.2 k /\ sl_deadline y.2 k = sl_deadline x.2 k.
Proof. intros Hwf [->|He] Ha; [done|]. by apply (sl_env x.2 y.2 k Hwf He). Qed.

Lemma guarded_env_wf x y : guarded_env x y -> sl_wf x.2 -> sl_wf y.2.
Proof. intros [->|He]; [done|]. by apply sl_wf_env. Qed.

Lemma guarded_env_clock x y : guarded_env x y -> sl_clock x.2 <= sl_clock y.2.
Proof. intros [->|He]; [lia|]. by apply sl_env_clock. Qed.

(** Behind a breaker a lawful store is a lawful store. *)
#[export] Instance guarded_laws : StoreLaws guarded guarded_env := {|
  sl_wf x := sl_wf x.2;
  sl_wf_op R op x := proj1 (guarded_op R op x);
  sl_wf_env := guarded_env_wf;
  sl_clock x := sl_clock x.2;
  sl_value x := sl_value x.2;
  sl_deadline x := sl_deadline x.2;
  sl_now := guarded_now;
  sl_op_clock R op x := proj2 (guarded_op R op x);
  sl_frame := guarded_frame;
  sl_get := guarded_get;
  sl_cap := sl_cap;
  sl_slack := sl_slack;
  sl_cas := guarded_cas;
  sl_env_clock := guarded_env_clock;
  sl_env := guarded_env_law
|}.

#[export] Instance guarded_forget `{FL : !ForgetLaws h env} : ForgetLaws guarded guarded_env.
Proof. constructor. intros x y k Hwf [E|He]; cbn; [by left; rewrite E|]. by apply (sl_forget x.2 y.2). Qed.

(** *** Leases behind a breaker *)

Context `{LL : !LeaseLaws h env}.

Lemma guarded_lease_wf R (op : CounterOp R) cw : sl_wf cw.2 -> ls_wf cw.2 -> ls_wf (guarded R op cw).2.2.
Proof.
  destruct cw as [cb w]. cbn [snd]. intros Hwf Hl. pose proof (guarded_cases R op cb w) as H.
  destruct (guarded R op (cb, w)) as [r [cb' w']]. cbn [snd]. destruct H as [H|[-> _]]; [|done].
  pose proof (ls_wf_op R op w Hwf Hl) as H1. by rewrite <- H in H1.
Qed.

Lemma guarded_acquire cw k limit ttl :
  sl_wf cw.2 -> ls_wf cw.2 -> 0 <= ls_count cw.2 k -> 0 < limit <= ls_cap -> ls_unit <= ttl <= maxInt64 ->
  let '(r, cw') := guarded _ (AcquireLease k limit ttl) cw in
  match r with
  | Ok (true, _) => ls_count cw.2 k + 1 <= ls_count cw'.2 k <= limit /\
                    alive_until (ls_deadline cw'.2 k) (sl_clock cw.2 + ttl - sl_slack)
  | _ => ls_count cw.2 k <= ls_count cw'.2 k /\
         forall t, 0 < ls_count cw.2 k -> t <= sl_clock cw.2 + ttl - sl_slack ->
                   alive_until (ls_deadline cw.2 k) t -> alive_until (ls_deadline cw'.2 k) t
  end.
Proof.
  destruct cw as [cb w]. cbn [snd]. intros Hwf Hl Hc Hlim Ht.
  pose proof (guarded_cases _ (AcquireLease k limit ttl) cb w) as H.
  destruct (guarded _ _ (cb, w)) as [r [cb' w']]. cbn [snd]. destruct H as [H|[-> [= <-]]]; [|split; [lia|done]].
  pose proof (ls_acquire w k limit ttl Hwf Hl Hc Hlim Ht) as Ha. by rewrite <- H in Ha.
Qed.

Lemma guarded_release cw k :
  sl_wf cw.2 -> ls_wf cw.2 -> 0 < ls_count cw.2 k ->
  let cw' := (guarded _ (ReleaseLease k) cw).2 in
  ls_count cw.2 k - 1 <= ls_count cw'.2 k /\
  forall t, alive_until (ls_deadline cw.2 k) t -> alive_until (ls_deadline cw'.2 k) t.
Proof.
  destruct cw as [cb w]. cbn [snd]. intros Hwf Hl Hc. pose proof (guarded_cases _ (ReleaseLease k) cb w) as H.
  destruct (guarded _ _ (cb, w)) as [r [cb' w']]. cbn [snd]. destruct H as [H|[-> _]]; [|split; [lia|done]].
  pose proof (ls_release w k Hwf Hl Hc) as Hr. by rewrite <- H in Hr.
Qed.

Lemma guarded_lease_env x y k :
  sl_wf x.2 -> guarded_env x y -> 0 <= ls_count x.2 k ->
  0 <= ls_count y.2 k /\
  (alive_until (ls_deadline x.2 k) (sl_clock y.2) ->
   ls_count y.2 k = ls_count x.2 k /\ ls_deadline y.2 k = ls_deadline x.2 k).
Proof. intros Hwf [->|He] Hc; [done|]. by apply ls_env. Qed.

Lemma guarded_lease_env_wf x y : guarded_env x y -> ls_wf x.2 -> ls_wf y.2.
Proof. intros [->|He]; [done|]. by apply ls_wf_env. Qed.

#[export] Instance guarded_lease_laws : LeaseLaws guarded guarded_env := {|
  ls_wf x := ls_wf x.2;
  ls_wf_op := guarded_lease_wf;
  ls_wf_env := guarded_lease_env_wf;
  ls_count x := ls_count x.2;
  ls_deadline x := ls_deadline x.2;
  ls_cap := ls_cap;
  ls_unit := ls_unit;
  ls_acquire := guarded_acquire;
  ls_release := guarded_release;
  ls_env := guarded_lease_env
|}.
End Guarded.
