(* ===== verification/WorkerPool.v ===== *)
(** * Batches evaluated by a pool of workers

    [BatchProcessor.Process] (pkg/provider/provider.go), [Processor.ProcessLogs] and
    [Processor.ProcessSpans] (internal/adapter/otel/processor.go) all fill a closed
    channel with the indices of a batch and start workers that take an index,
    evaluate the item, and write the outcome at that index.  This file models the
    pool once, with any interleaving of the workers' store calls, and proves that
    it does what one evaluation per item, all running concurrently, would do.

    The writes that follow an evaluation (the outcome and the counters) are one
    step: nothing reads them before all workers have exited. *)

From S2P Require Import Prelude Store.
Local Open Scope Z_scope.
Local Open Scope stdpp_scope.

(** The list of at most one element of an option. *)
Definition singletons {A} (x : option A) : list A :=
  match x with Some a => [a] | None => [] end.

(** Replacing one element of a list moves one element of its image. *)
Lemma omap_insert_perm {A B} (f : A -> option B) (l : list A) j x y :
  l !! j = Some y ->
  singletons (f y) ++ omap f (<[j := x]> l) ≡ₚ singletons (f x) ++ omap f l.
Proof.
  revert j. induction l as [|z l IH]; intros [|j] Hj; simplify_eq/=.
  - destruct (f x), (f y); simpl; by rewrite 1?Permutation_swap.
  - specialize (IH j Hj). destruct (f z) as [b|]; [|done].
    rewrite !(Permutation_app_comm (singletons _)). cbn [app].
    by rewrite !(Permutation_app_comm _ (singletons _)), IH.
Qed.

Lemma all_answered {B} (ps : list (prog B)) :
  (forall i, (i < length ps)%nat -> exists b, ps !! i = Some (Ret b)) -> exists bs, ps = Ret <$> bs.
Proof.
  induction ps as [|p ps IH]; intros H; [by exists []|].
  destruct (H 0%nat ltac:(simpl; lia)) as [b Hb]. simplify_eq/=.
  destruct IH as [bs ->]; [|by exists (b :: bs)].
  intros i Hi. apply (H (S i)). simpl. lia.
Qed.

Lemma eq_zip_with {A B C} (f : A -> B -> C) (l : list C) (xs : list A) (ys : list B) :
  length ys = length xs -> length l = length xs ->
  (forall i x y, xs !! i = Some x -> ys !! i = Some y -> l !! i = Some (f x y)) ->
  l = zip_with f xs ys.
Proof.
  intros Hy Hl H. apply list_eq_same_length with (n := length xs); [rewrite length_zip_with; lia|done|].
  intros i c d _ Hc (x & y & -> & Hx & Hy')%lookup_zip_with_Some.
  rewrite (H i x y Hx Hy') in Hc. by injection Hc.
Qed.

Inductive worker (B : Type) :=
| Idle
| Working (idx : nat) (p : prog B)
| Exited.
Arguments Idle {_}.
Arguments Working {_} _ _.
Arguments Exited {_}.

(** The index a worker is busy with. *)
Definition busy {B} (x : worker B) : option nat :=
  match x with Working i _ => Some i | _ => None end.

Record pool (W B C T : Type) := Pool {
  wp_jobs : list nat;
  wp_workers : list (worker B);
  wp_results : list C;
  wp_tally : T;
  wp_world : W
}.
Arguments Pool {_ _ _ _} _ _ _ _ _.
Arguments wp_jobs {_ _ _ _} _.
Arguments wp_workers {_ _ _ _} _.
Arguments wp_results {_ _ _ _} _.
Arguments wp_tally {_ _ _ _} _.
Arguments wp_world {_ _ _ _} _.

Section WorkerPool.
Context {W : Type} (h : handler W) (env : W -> W -> Prop).
(** How an item is evaluated, what is written at its index, and how the shared
    counters change. *)
Context {A B C T : Type} (task : A -> prog B) (outcome : A -> B -> C) (bump : A -> B -> T -> T).
Context (items : list A).

(** The filled and closed channel, the zeroed results and [n] workers. *)
Definition launch (n : nat) (zero : C) (t : T) (w : W) : pool W B C T :=
  Pool (seq 0 (length items)) (replicate n Idle) (replicate (length items) zero) t w.

Inductive wp_step : pool W B C T -> pool W B C T -> Prop :=
| wp_take ws rs t w j i jobs a :
    ws !! j = Some Idle -> items !! i = Some a ->
    wp_step (Pool (i :: jobs) ws rs t w) (Pool jobs (<[j := Working i (task a)]> ws) rs t w)
| wp_call jobs ws rs t w j i p p' w' :
    ws !! j = Some (Working i p) -> tstep h p w = (p', w') ->
    wp_step (Pool jobs ws rs t w) (Pool jobs (<[j := Working i p']> ws) rs t w')
| wp_write jobs ws rs t w j i a b :
    ws !! j = Some (Working i (Ret b)) -> items !! i = Some a ->
    wp_step (Pool jobs ws rs t w)
      (Pool jobs (<[j := Idle]> ws) (<[i := outcome a b]> rs) (bump a b t) w)
| wp_exit ws rs t w j :
    ws !! j = Some Idle ->
    wp_step (Pool [] ws rs t w) (Pool [] (<[j := Exited]> ws) rs t w)
| wp_env jobs ws rs t w w' :
    env w w' -> wp_step (Pool jobs ws rs t w) (Pool jobs ws rs t w').

(** [wg.Wait] returns. *)
Definition finished (s : pool W B C T) : Prop := Forall (eq Exited) (wp_workers s).

(** ** Every batch is a concurrent run of one evaluation per item *)

(** Item [i] has been answered, and its outcome written. *)
Definition answered (ps : list (prog B)) (rs : list C) (i : nat) (x : A * B) : Prop :=
  items !! i = Some x.1 /\ ps !! i = Some (Ret x.2) /\ rs !! i = Some (outcome x.1 x.2).

Definition count_up (t : T) (l : list (A * B)) : T := foldl (fun t x => bump x.1 x.2 t) t l.

(** Every index is finished, with a worker, or in the channel, and only once. *)
Record wp_inv (t0 : T) (w0 : W) (s : pool W B C T) (ps : list (prog B)) (fin : list nat)
    (order : list (A * B)) : Prop := {
  inv_run : rtc (pool_step h env) (task <$> items, w0) (ps, wp_world s);
  inv_split : fin ++ omap busy (wp_workers s) ++ wp_jobs s ≡ₚ seq 0 (length items);
  inv_jobs i : i ∈ wp_jobs s -> ps !! i = task <$> items !! i;
  inv_busy j i p : wp_workers s !! j = Some (Working i p) -> ps !! i = Some p;
  inv_fin : Forall2 (answered ps (wp_results s)) fin order;
  inv_tally : wp_tally s = count_up t0 order;
  inv_exited : Exited ∈ wp_workers s -> wp_jobs s = [];
  inv_length : length ps = length items /\ length (wp_results s) = length items
}.

Lemma launch_inv n zero t0 w0 : wp_inv t0 w0 (launch n zero t0 w0) (task <$> items) [] [].
Proof.
  constructor; cbn [launch wp_jobs wp_workers wp_results wp_tally wp_world].
  - done.
  - assert (E : omap busy (replicate n (@Idle B)) = []) by (induction n; done). by rewrite E.
  - intros i _. by rewrite list_lookup_fmap.
  - intros j i p Hj. by apply lookup_replicate in Hj as [? _].
  - constructor.
  - done.
  - intros He%elem_of_replicate. by destruct He.
  - by rewrite length_fmap, length_replicate.
Qed.

Lemma split_NoDup t0 w0 s ps fin order :
  wp_inv t0 w0 s ps fin order -> NoDup (fin ++ omap busy (wp_workers s) ++ wp_jobs s).
Proof. intros H. rewrite (inv_split _ _ _ _ _ _ H). apply NoDup_seq. Qed.

(** A worker's index is neither finished nor in the channel, and no other worker
    has it. *)
Lemma busy_alone t0 w0 s ps fin order j i p :
  wp_inv t0 w0 s ps fin order -> wp_workers s !! j = Some (Working i p) ->
  (i ∉ fin) /\ (i ∉ wp_jobs s) /\
  forall j' p', wp_workers s !! j' = Some (Working i p') -> j' = j.
Proof.
  intros H Hj. pose proof (split_NoDup _ _ _ _ _ _ H) as Hnd.
  pose proof (omap_insert_perm busy _ j Idle _ Hj) as Hp. cbn [busy singletons app] in Hp.
  rewrite <- Hp in Hnd. cbn [app] in Hnd.
  assert (Hi : (i ∉ fin) /\ (i ∉ omap busy (<[j := Idle]> (wp_workers s))) /\ (i ∉ wp_jobs s)).
  { rewrite <- Permutation_middle in Hnd. apply NoDup_cons in Hnd as [Hnd _]. set_solver. }
  destruct Hi as (H1 & H2 & H3). split_and!; [done..|]. intros j' p' Hj'.
  destruct (decide (j' = j)) as [|Hne]; [done|]. exfalso. apply H2, list_elem_of_omap.
  exists (Working i p'). split; [|done]. apply (list_elem_of_lookup_2 _ j').
  by rewrite list_lookup_insert_ne.
Qed.

Lemma answered_insert ps rs fin order i (p : prog B) :
  i ∉ fin -> Forall2 (answered ps rs) fin order -> Forall2 (answered (<[i := p]> ps) rs) fin order.
Proof.
  intros Hi H. induction H as [|i' x fin order Ha _ IH]; constructor.
  - destruct Ha as (? & ? & ?). split_and!; [done| |done].
    rewrite list_lookup_insert_ne by set_solver. done.
  - apply IH. set_solver.
Qed.

Lemma answered_write ps rs fin order i c :
  i ∉ fin -> Forall2 (answered ps rs) fin order -> Forall2 (answered ps (<[i := c]> rs)) fin order.
Proof.
  intros Hi H. induction H as [|i' x fin order Ha _ IH]; constructor.
  - destruct Ha as (? & ? & ?). split_and!; [done..|].
    rewrite list_lookup_insert_ne by set_solver. done.
  - apply IH. set_solver.
Qed.

Lemma Exited_insert (x : worker B) (ws : list (worker B)) (j : nat) :
  x <> Exited -> Exited ∈ <[j := x]> ws -> Exited ∈ ws.
Proof.
  intros Hx [k Hk]%list_elem_of_lookup. apply list_lookup_insert_Some in Hk as [(_ & ? & _)|[_ Hk]].
  - done.
  - by eapply list_elem_of_lookup_2.
Qed.

Lemma take_inv t0 w0 ws rs t w j i jobs a ps fin order :
  ws !! j = Some Idle -> items !! i = Some a ->
  wp_inv t0 w0 (Pool (i :: jobs) ws rs t w) ps fin order ->
  wp_inv t0 w0 (Pool jobs (<[j := Working i (task a)]> ws) rs t w) ps fin order.
Proof.
  intros Hj Hi H. pose proof (inv_jobs _ _ _ _ _ _ H) as Hjobs.
  pose proof (omap_insert_perm busy ws j (Working i (task a)) _ Hj) as Hp.
  cbn [busy singletons app] in Hp.
  destruct H as [H1 H2 _ H4 H5 H6 H7 H8]. cbn [wp_jobs wp_workers wp_results wp_tally wp_world] in *.
  constructor; cbn [wp_jobs wp_workers wp_results wp_tally wp_world]; [done| | | |done..| |done].
  - rewrite Hp, <- H2. cbn [app]. by rewrite <- !Permutation_middle.
  - intros i' Hi'. apply Hjobs. by constructor.
  - intros j' i' p' [(-> & [=<- <-] & _)|[_ Hj']]%list_lookup_insert_Some; [|by eapply H4].
    rewrite Hjobs by constructor. by rewrite Hi.
  - intros He. apply Exited_insert in He; [|done]. by specialize (H7 He).
Qed.

Lemma call_inv t0 w0 jobs ws rs t w j i p p' w' ps fin order :
  ws !! j = Some (Working i p) -> tstep h p w = (p', w') ->
  wp_inv t0 w0 (Pool jobs ws rs t w) ps fin order ->
  wp_inv t0 w0 (Pool jobs (<[j := Working i p']> ws) rs t w') (<[i := p']> ps) fin order.
Proof.
  intros Hj Hs H. destruct (busy_alone _ _ _ _ _ _ _ _ _ H Hj) as (Hfin & Hjob & Huniq).
  pose proof (inv_busy _ _ _ _ _ _ H _ _ _ Hj) as Hps.
  pose proof (omap_insert_perm busy ws j (Working i p') _ Hj) as Hp.
  cbn [busy singletons app] in Hp. apply Permutation_cons_inv in Hp.
  destruct H as [H1 H2 H3 H4 H5 H6 H7 [H8 H9]]. cbn [wp_jobs wp_workers wp_results wp_tally wp_world] in *.
  constructor; cbn [wp_jobs wp_workers wp_results wp_tally wp_world]; [| | | | |done| |].
  - eapply rtc_r; [exact H1|]. by eapply pool_call.
  - by rewrite Hp.
  - intros i' Hi'. rewrite list_lookup_insert_ne by (intros <-; done). by apply H3.
  - intros j' i' q [(-> & [=<- <-] & _)|[Hne Hj']]%list_lookup_insert_Some.
    { apply list_lookup_insert_eq. by eapply lookup_lt_Some. }
    rewrite list_lookup_insert_ne by (intros <-; apply Hne; symmetry; by eapply Huniq). by eapply H4.
  - by apply answered_insert.
  - intros He. apply Exited_insert in He; [|done]. by apply H7.
  - by rewrite length_insert.
Qed.

Lemma write_inv t0 w0 jobs ws rs t w j i a b ps fin order :
  ws !! j = Some (Working i (Ret b)) -> items !! i = Some a ->
  wp_inv t0 w0 (Pool jobs ws rs t w) ps fin order ->
  wp_inv t0 w0 (Pool jobs (<[j := Idle]> ws) (<[i := outcome a b]> rs) (bump a b t) w)
    ps (fin ++ [i]) (order ++ [(a, b)]).
Proof.
  intros Hj Hi H. destruct (busy_alone _ _ _ _ _ _ _ _ _ H Hj) as (Hfin & Hjob & Huniq).
  pose proof (inv_busy _ _ _ _ _ _ H _ _ _ Hj) as Hps.
  pose proof (omap_insert_perm busy ws j Idle _ Hj) as Hp. cbn [busy singletons app] in Hp.
  destruct H as [H1 H2 H3 H4 H5 H6 H7 [H8 H9]]. cbn [wp_jobs wp_workers wp_results wp_tally wp_world] in *.
  assert (Hlt : (i < length rs)%nat) by (rewrite H9; by eapply lookup_lt_Some).
  constructor; cbn [wp_jobs wp_workers wp_results wp_tally wp_world]; [done| |done| | | | |].
  - rewrite <- H2, <- Hp, <- app_assoc. done.
  - intros j' i' q [(_ & ? & _)|[Hne Hj']]%list_lookup_insert_Some; [done|]. by eapply H4.
  - apply Forall2_app; [by apply answered_write|]. constructor; [|constructor].
    split_and!; [done..|]. by apply list_lookup_insert_eq.
  - unfold count_up in *. by rewrite foldl_app, <- H6.
  - intros He. apply Exited_insert in He; [|done]. by apply H7.
  - by rewrite length_insert.
Qed.

Lemma exit_inv t0 w0 ws rs t w j ps fin order :
  ws !! j = Some Idle -> wp_inv t0 w0 (Pool [] ws rs t w) ps fin order ->
  wp_inv t0 w0 (Pool [] (<[j := Exited]> ws) rs t w) ps fin order.
Proof.
  intros Hj H. pose proof (omap_insert_perm busy ws j Exited _ Hj) as Hp. cbn [busy singletons app] in Hp.
  destruct H as [H1 H2 H3 H4 H5 H6 H7 H8]. cbn [wp_jobs wp_workers wp_results wp_tally wp_world] in *.
  constructor; cbn [wp_jobs wp_workers wp_results wp_tally wp_world]; [done| |done| |done..].
  - by rewrite Hp.
  - intros j' i' q [(_ & ? & _)|[Hne Hj']]%list_lookup_insert_Some; [done|]. by eapply H4.
Qed.

Lemma env_inv t0 w0 jobs ws rs t w w' ps fin order :
  env w w' -> wp_inv t0 w0 (Pool jobs ws rs t w) ps fin order ->
  wp_inv t0 w0 (Pool jobs ws rs t w') ps fin order.
Proof.
  intros He H. destruct H as [H1 H2 H3 H4 H5 H6 H7 H8]. constructor; [|done..].
  eapply rtc_r; [exact H1|]. by apply pool_env.
Qed.

#[local] Hint Resolve take_inv call_inv write_inv exit_inv env_inv : rlaas.

Lemma step_inv t0 w0 s s' :
  wp_step s s' -> (exists ps fin order, wp_inv t0 w0 s ps fin order) ->
  exists ps fin order, wp_inv t0 w0 s' ps fin order.
Proof. intros Hs (ps & fin & order & H). destruct Hs; eauto 6 with rlaas. Qed.

Lemma reachable_inv t0 w0 n zero s :
  rtc wp_step (launch n zero t0 w0) s -> exists ps fin order, wp_inv t0 w0 s ps fin order.
Proof.
  apply (rtc_ind_r (fun s => exists ps fin order, wp_inv t0 w0 s ps fin order)).
  - do 3 eexists. apply launch_inv.
  - intros y z _ Hs IH. by eapply step_inv.
Qed.

Lemma workers_length n zero t w s :
  rtc wp_step (launch n zero t w) s -> length (wp_workers s) = n.
Proof.
  apply (rtc_ind_r (fun s => length (wp_workers s) = n)); [apply length_replicate|].
  intros y z _ Hs IH. destruct Hs; cbn [wp_workers] in *; by rewrite ?length_insert.
Qed.

Lemma finished_split t0 w0 s ps fin order :
  wp_inv t0 w0 s ps fin order -> (0 < length (wp_workers s))%nat -> finished s ->
  fin ≡ₚ seq 0 (length items).
Proof.
  intros H Hn Hfin. destruct H as [_ H2 _ _ _ _ H7 _]. unfold finished in Hfin.
  assert (Hb : forall ws : list (worker B), Forall (eq Exited) ws -> omap busy ws = [])
    by (induction 1 as [|x l <- _ IH]; [done|exact IH]).
  assert (Hj : wp_jobs s = []).
  { apply H7. destruct (wp_workers s) as [|x l]; [simpl in Hn; lia|].
    apply Forall_cons in Hfin as [<- _]. by constructor. }
  by rewrite Hb, Hj, app_nil_r in H2.
Qed.

(** What a finished batch has done. *)
Lemma finished_pool t0 w0 n zero s :
  (0 < n)%nat -> rtc wp_step (launch n zero t0 w0) s -> finished s ->
  exists bs, rtc (pool_step h env) (task <$> items, w0) (Ret <$> bs, wp_world s) /\
    wp_results s = zip_with outcome items bs /\ length bs = length items /\
    exists order, order ≡ₚ zip items bs /\ wp_tally s = count_up t0 order.
Proof.
  intros Hn Hrtc Hfin. destruct (reachable_inv _ _ _ _ _ Hrtc) as (ps & fin & order & H).
  rewrite <- (workers_length _ _ _ _ _ Hrtc) in Hn.
  pose proof (finished_split _ _ _ _ _ _ H Hn Hfin) as Hsp.
  destruct H as [H1 _ _ _ H5 H6 _ [H8 H9]].
  destruct (Permutation_Forall2 Hsp H5) as (order' & Ho & Hall).
  assert (Hat : forall i, (i < length items)%nat ->
      exists x, order' !! i = Some x /\ answered ps (wp_results s) i x).
  { intros i Hi. destruct (Forall2_lookup_l _ _ _ i i Hall) as (x & ? & ?); [|by eauto].
    by apply lookup_seq. }
  destruct (all_answered ps) as [bs ->].
  { intros i Hi. rewrite H8 in Hi. destruct (Hat i Hi) as (x & _ & _ & ? & _). by eauto. }
  rewrite length_fmap in H8. apply Forall2_length in Hall as Hlo. rewrite length_seq in Hlo.
  assert (Hx : forall i a b, items !! i = Some a -> bs !! i = Some b ->
      order' !! i = Some (a, b) /\ wp_results s !! i = Some (outcome a b)).
  { intros i a b Ha Hb. destruct (Hat i ltac:(by eapply lookup_lt_Some)) as ([a' b'] & Eo & Ea & Eb & Er).
    cbn [fst snd] in *. rewrite list_lookup_fmap, Hb in Eb. by simplify_eq/=. }
  exists bs. split_and!; [done| |done|].
  - apply eq_zip_with; [done..|]. intros i a b Ha Hb. by apply Hx.
  - exists order. split; [|done]. rewrite Ho.
    rewrite (eq_zip_with pair order' items bs); [done..|]. intros i a b Ha Hb. by apply Hx.
Qed.

(** ** Batches complete *)

(** A worker left alone finishes its item. *)
Lemma work_alone jobs ws rs t w j i (p : prog B) a b w' :
  items !! i = Some a -> ws !! j = Some (Working i p) -> run h p w = (b, w') ->
  rtc wp_step (Pool jobs ws rs t w)
    (Pool jobs (<[j := Idle]> ws) (<[i := outcome a b]> rs) (bump a b t) w').
Proof.
  intros Ha. revert ws w. induction p as [x|R op k IH]; intros ws w Hj Hr; cbn [run] in Hr.
  - simplify_eq. apply rtc_once. by eapply wp_write.
  - destruct (h R op w) as [r w1] eqn:E.
    eapply rtc_l; [apply (wp_call _ _ _ _ _ j i (Call op k) (k r) w1); [done|]; simpl; by rewrite E|].
    rewrite <- (list_insert_insert_eq ws j Idle (Working i (k r))). eapply (IH r); [|done].
    apply list_lookup_insert_eq. by eapply lookup_lt_Some.
Qed.

(** So a worker left alone empties the channel and exits. *)
Lemma empty_channel jobs ws rs t w j :
  ws !! j = Some Idle -> (forall i, i ∈ jobs -> is_Some (items !! i)) ->
  exists rs' t' w', rtc wp_step (Pool jobs ws rs t w) (Pool [] (<[j := Exited]> ws) rs' t' w').
Proof.
  revert rs t w. induction jobs as [|i jobs IH]; intros rs t w Hj Hin.
  - exists rs, t, w. apply rtc_once. by apply wp_exit.
  - destruct (Hin i ltac:(constructor)) as [a Ha]. destruct (run h (task a) w) as [b w1] eqn:E.
    assert (Hlt : (j < length ws)%nat) by (by eapply lookup_lt_Some).
    destruct (IH (<[i := outcome a b]> rs) (bump a b t) w1) as (rs' & t' & w' & Hr); [done| |].
    { intros i' Hi'. apply Hin. by constructor. }
    exists rs', t', w'. eapply rtc_l; [by eapply wp_take|].
    etransitivity; [|exact Hr].
    pose proof (work_alone jobs (<[j := Working i (task a)]> ws) rs t w j i (task a) a b w1 Ha) as Hw.
    rewrite list_insert_insert_eq, (list_insert_id ws j Idle) in Hw by done.
    apply Hw; [|done]. by apply list_lookup_insert_eq.
Qed.

Lemma exit_worker t0 w0 s ps fin order j :
  wp_inv t0 w0 s ps fin order -> (j < length (wp_workers s))%nat ->
  exists s', rtc wp_step s s' /\ wp_workers s' = <[j := Exited]> (wp_workers s).
Proof.
  intros H [x Hx]%lookup_lt_is_Some_2. pose proof (inv_split _ _ _ _ _ _ H) as Hsp.
  assert (Hin : forall i, i ∈ fin ++ omap busy (wp_workers s) ++ wp_jobs s -> is_Some (items !! i)).
  { intros i Hi. rewrite Hsp in Hi. apply lookup_lt_is_Some. apply elem_of_seq in Hi. lia. }
  destruct s as [jobs ws rs t w]. cbn [wp_jobs wp_workers] in *.
  assert (Hjobs : forall i, i ∈ jobs -> is_Some (items !! i)) by (intros; apply Hin; set_solver).
  destruct x as [|i p|].
  - destruct (empty_channel jobs ws rs t w j Hx Hjobs) as (rs' & t' & w' & Hr). by eexists.
  - destruct (Hin i) as [a Ha].
    { apply elem_of_app. right. apply elem_of_app. left. apply list_elem_of_omap.
      exists (Working i p). split; [|done]. by eapply list_elem_of_lookup_2. }
    destruct (run h p w) as [b w1] eqn:E.
    destruct (empty_channel jobs (<[j := Idle]> ws) (<[i := outcome a b]> rs) (bump a b t) w1 j)
      as (rs' & t' & w' & Hr); [|done|].
    { apply list_lookup_insert_eq. by eapply lookup_lt_Some. }
    rewrite list_insert_insert_eq in Hr. exists (Pool [] (<[j := Exited]> ws) rs' t' w'). split; [|done].
    etransitivity; [by eapply work_alone|exact Hr].
  - eexists. split; [done|]. symmetry. by apply list_insert_id.
Qed.

(** From every state of a batch all workers can exit. *)
Lemma can_finish t0 w0 n zero s :
  rtc wp_step (launch n zero t0 w0) s -> exists s', rtc wp_step s s' /\ finished s'.
Proof.
  intros Hrtc. enough (Hk : forall k, (k <= n)%nat -> exists s', rtc wp_step s s' /\
      forall j, (j < k)%nat -> wp_workers s' !! j = Some Exited).
  { destruct (Hk n ltac:(done)) as (s' & Hs & Hall). exists s'. split; [done|].
    apply Forall_lookup. intros j x Hx. apply lookup_lt_Some in Hx as Hlt.
    rewrite (workers_length n zero t0 w0) in Hlt by (by etransitivity). rewrite Hall in Hx by done. congruence. }
  intros k. induction k as [|k IH]; intros Hk; [exists s; split; [done|lia]|].
  destruct IH as (s1 & Hs1 & Hall); [lia|].
  assert (Hr : rtc wp_step (launch n zero t0 w0) s1) by (by etransitivity).
  destruct (reachable_inv _ _ _ _ _ Hr) as (ps & fin & order & H).
  destruct (exit_worker _ _ _ _ _ _ k H) as (s2 & Hs2 & Hws); [by rewrite (workers_length _ _ _ _ _ Hr)|].
  exists s2. split; [by etransitivity|]. intros j Hj. rewrite Hws.
  destruct (decide (j = k)) as [->|].
  - apply list_lookup_insert_eq. rewrite (workers_length _ _ _ _ _ Hr). lia.
  - rewrite list_lookup_insert_ne by done. apply Hall. lia.
Qed.

(** One of the schedules: a single worker takes every item in turn. *)
Lemma one_by_one xs k ws rs t w bs w' j :
  drop k items = xs -> length rs = length items -> ws !! j = Some Idle ->
  run_all h (task <$> xs) w = (bs, w') ->
  rtc wp_step (Pool (seq k (length xs)) ws rs t w)
    (Pool [] ws (take k rs ++ zip_with outcome xs bs) (count_up t (zip xs bs)) w').
Proof.
  revert k rs t w bs. induction xs as [|a xs IH]; intros k rs t w bs Hd Hl Hj Hr; cbn [fmap list_fmap run_all] in Hr.
  - simplify_eq. cbn. rewrite app_nil_r, take_ge; [done|]. rewrite Hl.
    apply (f_equal length) in Hd. rewrite length_drop in Hd. simpl in Hd. lia.
  - destruct (run h (task a) w) as [b w1] eqn:E1.
    destruct (run_all h (task <$> xs) w1) as [bs' w2] eqn:E2. simplify_eq.
    assert (Ha : items !! k = Some a) by (rewrite <- (Nat.add_0_r k), <- lookup_drop, Hd; done).
    assert (Hk : (k < length rs)%nat) by (rewrite Hl; by eapply lookup_lt_Some).
    assert (Hlt : (j < length ws)%nat) by (by eapply lookup_lt_Some).
    cbn [length seq]. eapply rtc_l; [by eapply wp_take|]. etransitivity.
    { eapply work_alone; [done| |exact E1]. by apply list_lookup_insert_eq. }
    rewrite list_insert_insert_eq, list_insert_id by done.
    specialize (IH (S k) (<[k := outcome a b]> rs) (bump a b t) w1 bs').
    rewrite (take_S_r _ _ (outcome a b)), take_insert_ge, <- app_assoc in IH
      by (rewrite ?list_lookup_insert_eq; lia || done).
    apply (f_equal (drop 1)) in Hd. rewrite drop_drop, Nat.add_1_r in Hd.
    rewrite length_insert in IH. exact (IH Hd Hl Hj E2).
Qed.

Lemma sequential_batch n zero t w bs w' :
  run_all h (task <$> items) w = (bs, w') ->
  exists s, rtc wp_step (launch (S n) zero t w) s /\ finished s /\
    wp_results s = zip_with outcome items bs /\ wp_tally s = count_up t (zip items bs) /\ wp_world s = w'.
Proof.
  intros Hr. set (s1 := Pool [] (replicate (S n) (@Idle B)) (zip_with outcome items bs) (count_up t (zip items bs)) w').
  assert (Hs1 : rtc wp_step (launch (S n) zero t w) s1).
  { apply (one_by_one items 0 _ _ _ _ bs w' 0); [done|apply length_replicate|done|done]. }
  enough (Hex : forall k m ws, rtc wp_step (Pool [] (ws ++ replicate k Idle) (wp_results s1) m w')
      (Pool [] (ws ++ replicate k Exited) (wp_results s1) m w')).
  { eexists. split_and!; [etransitivity; [exact Hs1|apply (Hex (S n) _ [])]| |done..].
    unfold finished. cbn [wp_workers app]. by apply Forall_replicate. }
  intros k m. induction k as [|k IH]; intros ws; [done|]. cbn [replicate].
  eapply rtc_l; [apply (wp_exit _ _ _ _ (length ws)); by rewrite lookup_app_r, Nat.sub_diag by done|].
  rewrite insert_app_r_alt, Nat.sub_diag by done. cbn [insert list_insert].
  specialize (IH (ws ++ [Exited])). by rewrite <- !app_assoc in IH.
Qed.
End WorkerPool.
