(* ===== verification/Provider.v ===== *)
(** * pkg/provider: batches of telemetry records and the adapter registry

    [TelemetryRecord], its request context, and [BatchProcessor.Process], which
    evaluates a batch on the worker pool of [WorkerPool].  An [Evaluator] is the
    program of store calls that answers a request with a decision and an error. *)

From S2P Require Import Prelude GoString GoFloat GoTime Model Store WorkerPool.
Local Open Scope Z_scope.
Local Open Scope stdpp_scope.

Definition SignalKind := string.
Definition SignalLog : SignalKind := "log".
Definition SignalSpan : SignalKind := "span".
Definition SignalMetric : SignalKind := "metric".
Definition SignalEvent : SignalKind := "event".
Definition SignalHTTP : SignalKind := "http".

Record TelemetryRecord := {
  tr_Signal : SignalKind; tr_OrgID : string; tr_Service : string; tr_Operation : string;
  tr_Severity : string; tr_Environment : string; tr_Region : string; tr_Endpoint : string;
  tr_Method : string; tr_Tags : GoMap
}.

Definition ToRequestContext (r : TelemetryRecord) : RequestContext :=
  {| req_RequestID := ""; req_OrgID := tr_OrgID r; req_TenantID := ""; req_Application := "";
     req_Service := tr_Service r; req_Environment := tr_Environment r; req_SignalType := tr_Signal r;
     req_Operation := tr_Operation r; req_Endpoint := tr_Endpoint r; req_Method := tr_Method r;
     req_UserID := ""; req_APIKey := ""; req_ClientID := ""; req_SourceIP := "";
     req_Region := tr_Region r; req_Resource := ""; req_Severity := tr_Severity r; req_SpanName := "";
     req_Topic := ""; req_ConsumerGroup := ""; req_JobType := ""; req_Quantity := 0; req_Priority := "";
     req_Timestamp := zeroTime; req_Tags := tr_Tags r; req_Attributes := None |}.

(** [provider.Decision]. *)
Record ProviderDecision := {
  pd_Allowed : bool; pd_Action : ActionType; pd_Reason : string;
  pd_Record : TelemetryRecord; pd_Raw : Decision
}.

(** The decision an evaluator returns, with the message of its error if any. *)
Definition Answer : Type := Decision * option string.
Definition Evaluator : Type := RequestContext -> prog Answer.

Record BatchProcessor := {
  bp_Eval : Evaluator;
  bp_Workers : Z;
  bp_FailOpen : bool
}.

(** What a worker writes for a record. *)
Definition batch_outcome (failOpen : bool) (rec : TelemetryRecord) (answer : Answer) : ProviderDecision :=
  match answer with
  | (d, None) =>
      {| pd_Allowed := dec_Allowed d; pd_Action := dec_Action d; pd_Reason := dec_Reason d;
         pd_Record := rec; pd_Raw := d |}
  | (d, Some err) =>
      if failOpen
      then {| pd_Allowed := true; pd_Action := ActionAllow; pd_Reason := "fail_open: " +:+ err;
              pd_Record := rec; pd_Raw := d |}
      else {| pd_Allowed := false; pd_Action := ActionDeny; pd_Reason := "fail_closed: " +:+ err;
              pd_Record := rec; pd_Raw := d |}
  end.

(** [provider.Decision{}]. *)
Definition zeroRecord : TelemetryRecord :=
  {| tr_Signal := ""; tr_OrgID := ""; tr_Service := ""; tr_Operation := ""; tr_Severity := "";
     tr_Environment := ""; tr_Region := ""; tr_Endpoint := ""; tr_Method := ""; tr_Tags := None |}.
Definition zeroProviderDecision : ProviderDecision :=
  {| pd_Allowed := false; pd_Action := ""; pd_Reason := ""; pd_Record := zeroRecord; pd_Raw := zeroDecision |}.

Lemma outcomes_records failOpen records answers :
  length answers = length records -> pd_Record <$> zip_with (batch_outcome failOpen) records answers = records.
Proof.
  revert answers. induction records as [|r l IH]; intros [|[d [e|]] answers] Hl; simplify_eq/=;
    [done|..]; (apply (f_equal2 cons); [by destruct failOpen|by apply IH]).
Qed.

(** The number of workers a configured number stands for. *)
Definition worker_count (workers : Z) : nat := Z.to_nat (if workers <=? 0 then 1 else workers).

Section Process.
Context {W : Type} (h : handler W) (env : W -> W -> Prop).

Definition batch_step (bp : BatchProcessor) (records : list TelemetryRecord) :
    relation (pool W Answer ProviderDecision unit) :=
  wp_step h env (fun rec => bp_Eval bp (ToRequestContext rec)) (batch_outcome (bp_FailOpen bp))
    (fun _ _ t => t) records.

Definition batch_start (bp : BatchProcessor) (records : list TelemetryRecord) (w : W) :
    pool W Answer ProviderDecision unit :=
  launch records (worker_count (bp_Workers bp)) zeroProviderDecision tt w.

(** [Process bp records w out w']: the batch may return [out], leaving the store
    in [w']. *)
Definition Process (bp : BatchProcessor) (records : list TelemetryRecord) (w : W)
    (out : list ProviderDecision) (w' : W) : Prop :=
  match records with
  | [] => out = [] /\ w' = w
  | _ => exists s, rtc (batch_step bp records) (batch_start bp records w) s /\ finished s /\
           wp_results s = out /\ wp_world s = w'
  end.

Lemma worker_count_pos n : (0 < worker_count n)%nat.
Proof. unfold worker_count. case_step; lia. Qed.

Lemma Process_answers bp records w out w' :
  Process bp records w out w' ->
  exists answers,
    rtc (pool_step h env) ((fun rec => bp_Eval bp (ToRequestContext rec)) <$> records, w) (Ret <$> answers, w') /\
    out = zip_with (batch_outcome (bp_FailOpen bp)) records answers /\ length answers = length records.
Proof.
  unfold Process. destruct records as [|r l]; [intros [-> ->]; by exists []|].
  intros (s & Hs & Hf & <- & <-). apply finished_pool in Hs as (bs & ? & ? & ? & _); eauto using worker_count_pos.
Qed.

Lemma Process_records bp records w out w' : Process bp records w out w' -> pd_Record <$> out = records.
Proof. intros (answers & _ & -> & Hl)%Process_answers. by apply outcomes_records. Qed.

Lemma Process_completes bp records w s :
  rtc (batch_step bp records) (batch_start bp records w) s ->
  exists s', rtc (batch_step bp records) s s' /\ finished s'.
Proof. intros H. by eapply can_finish. Qed.

(** What one worker taking the records in turn returns. *)
Definition process_in_turn (bp : BatchProcessor) (records : list TelemetryRecord) (w : W)
    : list ProviderDecision * W :=
  let '(answers, w') := run_all h ((fun rec => bp_Eval bp (ToRequestContext rec)) <$> records) w in
  (zip_with (batch_outcome (bp_FailOpen bp)) records answers, w').

Lemma Process_in_turn bp records w :
  Process bp records w (process_in_turn bp records w).1 (process_in_turn bp records w).2.
Proof.
  unfold Process, process_in_turn. destruct records as [|r l]; [done|].
  destruct (run_all _ _ _) as [answers w'] eqn:E. cbn [fst snd].
  pose proof (worker_count_pos (bp_Workers bp)) as Hn. unfold batch_start.
  destruct (worker_count (bp_Workers bp)) as [|n]; [lia|].
  destruct (sequential_batch h env _ (batch_outcome (bp_FailOpen bp)) (fun _ _ t => t) (r :: l) n
    zeroProviderDecision tt w answers w' E) as (s & ? & ? & ? & _ & ?). by exists s.
Qed.
End Process.

Definition FilterAllowed (decisions : list ProviderDecision) : list TelemetryRecord :=
  pd_Record <$> List.filter pd_Allowed decisions.

(** C32 (kind: refinement).  A batch is decided record by record: whatever the number of workers and
    however they are interleaved, a batch can always complete, and when it does the
    evaluator has run once for every record, all runs concurrent, and the decision
    at each index is the one for that record, fail-open or fail-closed on an error.
    Keeping the allowed ones keeps records of the batch, in order. *)
Theorem batch_decides_each {W : Type} (h : handler W) (env : W -> W -> Prop) (bp : BatchProcessor)
    (records : list TelemetryRecord) (w : W) :
  (forall s, rtc (batch_step h env bp records) (batch_start bp records w) s ->
     exists s', rtc (batch_step h env bp records) s s' /\ finished s') /\
  (forall out w', Process h env bp records w out w' ->
     exists answers,
       rtc (pool_step h env) (bp_Eval bp <$> (ToRequestContext <$> records), w) (Ret <$> answers, w') /\
       out = zip_with (batch_outcome (bp_FailOpen bp)) records answers /\
       pd_Record <$> out = records /\ FilterAllowed out `sublist_of` records).
Proof.
  split; [apply Process_completes|]. intros out w' H.
  destruct (Process_answers _ _ _ _ _ _ _ H) as (answers & Hr & -> & Hl).
  pose proof (outcomes_records (bp_FailOpen bp) records answers Hl) as Hrec.
  exists answers. split_and!; [by rewrite <- list_fmap_compose|done|done|].
  rewrite <- Hrec at 2. unfold FilterAllowed. apply fmap_sublist.
  clear. induction (zip_with _ _ _) as [|d l IH]; [done|]. cbn [List.filter]. case_step; by constructor.
Qed.

(** ** The adapter registry *)

Section Registry.
(** What is registered: anything with a name. *)
Context {Adapter : Type} (Name : Adapter -> string).

(** [fmt.Errorf("provider %q already registered", name)]. *)
Context (already_registered : string -> string).

Abbreviation Registry := (gmap string Adapter).

Definition NewRegistry : Registry := ∅.

Definition Register (adapter : Adapter) (r : Registry) : result unit * Registry :=
  let name := Name adapter in
  match r !! name with
  | Some _ => (Err (already_registered name), r)
  | None => (Ok tt, <[name := adapter]> r)
  end.

Definition Lookup (name : string) (r : Registry) : option Adapter := r !! name.

(** The names, in the order the map is visited. *)
Definition List_ (visits : Registry -> list (string * Adapter)) (r : Registry) : list string := (visits r).*1.

(** [None] is a panic. *)
Definition MustRegister (adapter : Adapter) (r : Registry) : option Registry :=
  match Register adapter r with (Ok _, r') => Some r' | (Err _, _) => None end.

(** Registering a list of adapters, errors ignored. *)
Definition register_all (adapters : list Adapter) (r : Registry) : Registry :=
  foldl (fun r a => (Register a r).2) r adapters.

(** A name belongs to the first adapter registered under it. *)
Lemma register_all_lookup adapters r name :
  Lookup name (register_all adapters r) =
  match Lookup name r with
  | Some a => Some a
  | None => List.find (fun a => String.eqb (Name a) name) adapters
  end.
Proof.
  unfold Lookup. revert r. induction adapters as [|a adapters IH]; intros r.
  { simpl. by destruct (r !! name). }
  unfold register_all in *. cbn [foldl List.find]. rewrite IH. unfold Register.
  destruct (r !! Name a) as [b|] eqn:E; cbn [snd].
  - destruct (String.eqb_spec (Name a) name) as [<-|]; by rewrite ?E.
  - destruct (String.eqb_spec (Name a) name) as [<-|]; [by rewrite lookup_insert_eq, E|].
    by rewrite lookup_insert_ne.
Qed.
End Registry.
