(* ===== verification/Adapters.v ===== *)
(** * internal/adapter: Kafka, Datadog, Fluent Bit and Envoy

    Each adapter turns its native items into telemetry records, has the batch
    processor decide them, and keeps the items whose decision allows them
    (Kafka, Datadog, Fluent Bit) or answers with Envoy's codes. *)

From S2P Require Import Prelude GoString GoFloat GoTime Model Store WorkerPool Provider MemoryStore.
Local Open Scope Z_scope.
Local Open Scope stdpp_scope.

(** ** What the filters share *)

(** The items whose decision is to allow them. *)
Fixpoint kept {M} (items : list M) (decisions : list ProviderDecision) : list M :=
  match items, decisions with
  | x :: items', d :: decisions' => if pd_Allowed d then x :: kept items' decisions' else kept items' decisions'
  | _, _ => []
  end.

(** The fields of an adapter that do not change. *)
Record Adapter := { ad_bp : BatchProcessor; ad_orgID : string }.

Definition NewAdapter (eval : Evaluator) (orgID : string) (workers : Z) (failOpen : bool) : Adapter :=
  {| ad_bp := {| bp_Eval := eval; bp_Workers := workers; bp_FailOpen := failOpen |}; ad_orgID := orgID |}.

Section Filter.
Context {W : Type} (h : handler W) (env : W -> W -> Prop).

Definition filter_batch {M} (bp : BatchProcessor) (record : M -> TelemetryRecord) (items : list M) (w : W)
    (out : list M) (w' : W) : Prop :=
  match items with
  | [] => out = [] /\ w' = w
  | _ => exists decisions, Process h env bp (record <$> items) w decisions w' /\ out = kept items decisions
  end.
End Filter.

(** ** Kafka *)

Module Kafka.
Record Message := {
  msg_Topic : string; msg_Partition : Z; msg_Offset : int64; msg_Key : string; msg_Headers : GoMap;
  msg_Timestamp : Time; msg_ConsumerGroup : string; msg_Service : string
}.

Definition record_of (orgID : string) (m : Message) : TelemetryRecord :=
  let tags := <["kafka.key" := msg_Key m]> (mentries (msg_Headers m)) in
  let tags := if String.eqb (msg_ConsumerGroup m) "" then tags
              else <["kafka.consumer_group" := msg_ConsumerGroup m]> tags in
  {| tr_Signal := SignalEvent; tr_OrgID := orgID; tr_Service := msg_Service m; tr_Operation := msg_Topic m;
     tr_Severity := ""; tr_Environment := ""; tr_Region := ""; tr_Endpoint := ""; tr_Method := "";
     tr_Tags := Some tags |}.

Definition FilterMessages {W} (h : handler W) (env : W -> W -> Prop) (a : Adapter) :=
  filter_batch h env (ad_bp a) (record_of (ad_orgID a)).
End Kafka.

(** ** Datadog *)

Module Datadog.
Record LogEntry := {
  log_Hostname : string; log_Service : string; log_Source : string; log_Tags : list string;
  log_Status : string; log_Message : string; log_Attrs : GoMap
}.

Record MetricSample := {
  met_Metric : string; met_Host : string; met_Service : string; met_Type : string;
  met_Tags : list string; met_Namespace : string; met_Attrs : GoMap
}.

(** The tags with a colon, cut at the first one, then the attributes. *)
Definition mergeTagSlice (tags : list string) (attrs : GoMap) : gmap string string :=
  mentries attrs ∪
  foldl (fun m t => match cut t ":" with Some (k, v) => <[k := v]> m | None => m end) ∅ tags.

Definition log_record (orgID : string) (l : LogEntry) : TelemetryRecord :=
  {| tr_Signal := SignalLog; tr_OrgID := orgID; tr_Service := log_Service l; tr_Operation := "";
     tr_Severity := log_Status l; tr_Environment := ""; tr_Region := ""; tr_Endpoint := ""; tr_Method := "";
     tr_Tags := Some (mergeTagSlice (log_Tags l) (log_Attrs l)) |}.

Definition metric_record (orgID : string) (m : MetricSample) : TelemetryRecord :=
  let tags := <["metric_name" := met_Metric m]>
                (<["metric_type" := met_Type m]> (mergeTagSlice (met_Tags m) (met_Attrs m))) in
  {| tr_Signal := SignalMetric; tr_OrgID := orgID; tr_Service := met_Service m; tr_Operation := met_Metric m;
     tr_Severity := ""; tr_Environment := ""; tr_Region := ""; tr_Endpoint := ""; tr_Method := "";
     tr_Tags := Some tags |}.

Definition FilterLogs {W} (h : handler W) (env : W -> W -> Prop) (a : Adapter) :=
  filter_batch h env (ad_bp a) (log_record (ad_orgID a)).

Definition FilterMetrics {W} (h : handler W) (env : W -> W -> Prop) (a : Adapter) :=
  filter_batch h env (ad_bp a) (metric_record (ad_orgID a)).
End Datadog.

(** ** Fluent Bit *)

Module FluentBit.
Record FluentRecord := { fb_Timestamp : Time; fb_Tag : string; fb_Fields : GoMap }.

(** The names of the fields the adapter reads. *)
Record FieldNames := { fn_Service : string; fn_Severity : string; fn_Environment : string }.

Definition defaultFields : FieldNames :=
  {| fn_Service := "service_name"; fn_Severity := "level"; fn_Environment := "environment" |}.

Definition record_from (orgID : string) (fields : FieldNames) (r : FluentRecord) : TelemetryRecord :=
  let service := mget (fb_Fields r) (fn_Service fields) in
  {| tr_Signal := SignalLog; tr_OrgID := orgID;
     tr_Service := if String.eqb service "" then fb_Tag r else service; tr_Operation := "";
     tr_Severity := mget (fb_Fields r) (fn_Severity fields);
     tr_Environment := mget (fb_Fields r) (fn_Environment fields);
     tr_Region := ""; tr_Endpoint := ""; tr_Method := ""; tr_Tags := fb_Fields r |}.

Definition FilterRecords {W} (h : handler W) (env : W -> W -> Prop) (a : Adapter) (fields : FieldNames) :=
  filter_batch h env (ad_bp a) (record_from (ad_orgID a) fields).
End FluentBit.

(** ** Envoy *)

Module Envoy.
Record DescriptorEntry := { de_Key : string; de_Value : string }.
Record Descriptor := { de_Entries : list DescriptorEntry }.

Definition RateLimitOK : Z := 1.
Definition RateLimitOverLimit : Z := 2.

Record DescriptorStatus := { ds_Code : Z; ds_LimitRemaining : int64 }.
Record RateLimitResponse := { rl_OverallCode : Z; rl_Statuses : list DescriptorStatus }.

(** [strings.ToLower], up to code points outside ASCII that stay outside ASCII:
    the letters A to Z, the dotted capital I and the Kelvin sign are the code
    points whose lower case is an ASCII letter. *)
Fixpoint ToLower (s : string) : string :=
  match s with
  | "" => ""
  | String c s' =>
      let n := Ascii.nat_of_ascii c in
      if (Nat.leb 65 n && Nat.leb n 90)%bool then String (byte (n + 32)) (ToLower s')
      else match s' with
           | String d s'' =>
               if (Nat.eqb n 196 && Nat.eqb (Ascii.nat_of_ascii d) 176)%bool
               then String (byte 105) (ToLower s'')
               else match s'' with
                    | String e s''' =>
                        if (Nat.eqb n 226 && Nat.eqb (Ascii.nat_of_ascii d) 132 &&
                            Nat.eqb (Ascii.nat_of_ascii e) 170)%bool
                        then String (byte 107) (ToLower s''')
                        else String c (ToLower s')
                    | _ => String c (ToLower s')
                    end
           | _ => String c (ToLower s')
           end
  end.

(** The value of the last entry whose key is one of [names]. *)
Definition last_value (names : list string) (entries : list DescriptorEntry) : string :=
  foldl (fun v e => if existsb (String.eqb (ToLower (de_Key e))) names then de_Value e else v) "" entries.

Definition descriptor_record (orgID : string) (desc : Descriptor) : TelemetryRecord :=
  let entries := de_Entries desc in
  {| tr_Signal := SignalHTTP; tr_OrgID := orgID;
     tr_Service := last_value ["service"; "destination_cluster"] entries; tr_Operation := "";
     tr_Severity := ""; tr_Environment := ""; tr_Region := "";
     tr_Endpoint := last_value ["path"; "request_path"] entries;
     tr_Method := last_value ["method"; "request_method"] entries;
     tr_Tags := Some (foldl (fun m e => <[de_Key e := de_Value e]> m) ∅ entries) |}.

Definition status_of (d : ProviderDecision) : DescriptorStatus :=
  if pd_Allowed d
  then {| ds_Code := RateLimitOK; ds_LimitRemaining := dec_Remaining (pd_Raw d) |}
  else {| ds_Code := RateLimitOverLimit; ds_LimitRemaining := 0 |}.

Definition response_of (decisions : list ProviderDecision) : RateLimitResponse :=
  {| rl_OverallCode := foldl (fun code d => if pd_Allowed d then code else RateLimitOverLimit) RateLimitOK decisions;
     rl_Statuses := status_of <$> decisions |}.

(** The domain is a parameter the function does not read. *)
Definition CheckRateLimit {W} (h : handler W) (env : W -> W -> Prop) (a : Adapter) (descriptors : list Descriptor)
    (w : W) (resp : RateLimitResponse) (w' : W) : Prop :=
  match descriptors with
  | [] => resp = {| rl_OverallCode := RateLimitOK; rl_Statuses := [] |} /\ w' = w
  | _ => exists decisions, Process h env (ad_bp a) (descriptor_record (ad_orgID a) <$> descriptors) w decisions w' /\
           resp = response_of decisions
  end.

Record AuthRequest := {
  ar_Method : string; ar_Path : string; ar_Headers : GoMap; ar_SourceIP : string; ar_Service : string
}.
Record AuthResponse := { as_Allowed : bool; as_StatusCode : Z; as_Headers : GoMap; as_Reason : string }.

Definition auth_record (orgID : string) (req : AuthRequest) : TelemetryRecord :=
  {| tr_Signal := SignalHTTP; tr_OrgID := orgID; tr_Service := ar_Service req; tr_Operation := "";
     tr_Severity := ""; tr_Environment := ""; tr_Region := ""; tr_Endpoint := ar_Path req;
     tr_Method := ar_Method req; tr_Tags := ar_Headers req |}.

Definition auth_response (decisions : list ProviderDecision) : AuthResponse :=
  match decisions with
  | [] => {| as_Allowed := true; as_StatusCode := 200; as_Headers := None; as_Reason := "allowed" |}
  | d :: _ =>
      if pd_Allowed d
      then {| as_Allowed := true; as_StatusCode := 200; as_Headers := None; as_Reason := "allowed" |}
      else {| as_Allowed := false; as_StatusCode := 429;
              as_Headers := Some {["x-rlaas-reason" := pd_Reason d]}; as_Reason := pd_Reason d |}
  end.

Definition CheckAuth {W} (h : handler W) (env : W -> W -> Prop) (a : Adapter) (req : AuthRequest)
    (w : W) (resp : AuthResponse) (w' : W) : Prop :=
  exists decisions, Process h env (ad_bp a) [auth_record (ad_orgID a) req] w decisions w' /\
    resp = auth_response decisions.
End Envoy.

(** ** What the adapters let through *)

(** Whether an answer lets an item through. *)
Definition passes (failOpen : bool) (answer : Answer) : bool :=
  match answer with (d, None) => dec_Allowed d | (_, Some _) => failOpen end.

Lemma outcome_allowed failOpen rec answer : pd_Allowed (batch_outcome failOpen rec answer) = passes failOpen answer.
Proof. destruct answer as [d [e|]]; [by destruct failOpen|done]. Qed.

Lemma kept_zip {M} failOpen (record : M -> TelemetryRecord) (items : list M) (answers : list Answer) :
  kept items (zip_with (batch_outcome failOpen) (record <$> items) answers) =
  fst <$> List.filter (fun x => passes failOpen x.2) (zip items answers).
Proof.
  revert answers. induction items as [|x items IH]; intros [|a answers]; [done..|].
  cbn [fmap list_fmap zip_with kept List.filter snd]. rewrite outcome_allowed, IH. by destruct (passes failOpen a).
Qed.

(** A concurrent run of one evaluation per item, with these answers. *)
Definition evaluates {W M} (h : handler W) (env : W -> W -> Prop) (bp : BatchProcessor)
    (record : M -> TelemetryRecord) (items : list M) (w : W) (answers : list Answer) (w' : W) : Prop :=
  length answers = length items /\
  rtc (pool_step h env) ((fun x => bp_Eval bp (ToRequestContext (record x))) <$> items, w) (Ret <$> answers, w').

Lemma Process_evaluates {W M} (h : handler W) (env : W -> W -> Prop) bp (record : M -> TelemetryRecord) items w ds w' :
  Process h env bp (record <$> items) w ds w' ->
  exists answers, evaluates h env bp record items w answers w' /\
    ds = zip_with (batch_outcome (bp_FailOpen bp)) (record <$> items) answers.
Proof.
  intros (answers & Hr & -> & Hl)%Process_answers. rewrite length_fmap in Hl. rewrite <- list_fmap_compose in Hr.
  exists answers. by split; [split|].
Qed.

(** The items an adapter keeps are those whose evaluation lets them through. *)
Definition keeps_allowed {W M} (h : handler W) (env : W -> W -> Prop) (bp : BatchProcessor)
    (record : M -> TelemetryRecord) (items : list M) (w : W) (out : list M) (w' : W) : Prop :=
  exists answers, evaluates h env bp record items w answers w' /\
    out = fst <$> List.filter (fun x => passes (bp_FailOpen bp) x.2) (zip items answers).

Lemma filter_batch_keeps {W M} (h : handler W) env bp (record : M -> TelemetryRecord) items w out w' :
  filter_batch h env bp record items w out w' -> keeps_allowed h env bp record items w out w'.
Proof.
  unfold filter_batch, keeps_allowed. destruct items as [|x items].
  - intros [-> ->]. exists []. by split; [split|].
  - intros (ds & (answers & He & ->)%Process_evaluates & ->). exists answers. split; [done|]. apply kept_zip.
Qed.

(** The Kafka, Datadog and Fluent Bit adapters evaluate every item exactly once, in
    the context its record describes, and keep, in order, the items whose
    evaluation allowed them or, failing open, failed. *)
Theorem adapters_keep_allowed {W : Type} (h : handler W) (env : W -> W -> Prop) (a : Adapter) (w w' : W) :
  (forall messages out, Kafka.FilterMessages h env a messages w out w' ->
     keeps_allowed h env (ad_bp a) (Kafka.record_of (ad_orgID a)) messages w out w') /\
  (forall logs out, Datadog.FilterLogs h env a logs w out w' ->
     keeps_allowed h env (ad_bp a) (Datadog.log_record (ad_orgID a)) logs w out w') /\
  (forall metrics out, Datadog.FilterMetrics h env a metrics w out w' ->
     keeps_allowed h env (ad_bp a) (Datadog.metric_record (ad_orgID a)) metrics w out w') /\
  (forall fields records out, FluentBit.FilterRecords h env a fields records w out w' ->
     keeps_allowed h env (ad_bp a) (FluentBit.record_from (ad_orgID a) fields) records w out w').
Proof. split_and!; intros *; apply filter_batch_keeps. Qed.

(** ** What Envoy is told *)

Lemma overall_code ds :
  Envoy.rl_OverallCode (Envoy.response_of ds) =
  if forallb pd_Allowed ds then Envoy.RateLimitOK else Envoy.RateLimitOverLimit.
Proof.
  unfold Envoy.response_of. cbn [Envoy.rl_OverallCode].
  assert (H : forall code, foldl (fun code d => if pd_Allowed d then code else Envoy.RateLimitOverLimit) code ds =
    if forallb pd_Allowed ds then code else Envoy.RateLimitOverLimit); [|apply H].
  induction ds as [|d ds IH]; intros code; [done|]. cbn [foldl forallb]. rewrite IH.
  destruct (pd_Allowed d), (forallb pd_Allowed ds); done.
Qed.

Lemma outcomes_forallb failOpen records answers :
  length answers = length records ->
  forallb pd_Allowed (zip_with (batch_outcome failOpen) records answers) = forallb (passes failOpen) answers.
Proof.
  revert answers. induction records as [|r l IH]; intros [|a answers] Hl; simplify_eq/=; [done|].
  by rewrite outcome_allowed, IH.
Qed.

Lemma statuses_codes failOpen records answers :
  length answers = length records ->
  Envoy.ds_Code <$> (Envoy.status_of <$> zip_with (batch_outcome failOpen) records answers) =
  (fun x => if passes failOpen x then Envoy.RateLimitOK else Envoy.RateLimitOverLimit) <$> answers.
Proof.
  revert answers. induction records as [|r l IH]; intros [|a answers] Hl; simplify_eq/=; [done|].
  rewrite IH by done. f_equal. unfold Envoy.status_of. rewrite outcome_allowed. by destruct (passes failOpen a).
Qed.

(** Envoy is told the truth: a rate limit check answers each descriptor with the
    code of its own evaluation and the whole with OVER_LIMIT exactly when one of
    them is over its limit; an authorization check answers 200 when its evaluation
    lets the request through and 429 when it does not. *)
Theorem envoy_codes {W : Type} (h : handler W) (env : W -> W -> Prop) (a : Adapter) (w w' : W) :
  (forall descriptors resp, Envoy.CheckRateLimit h env a descriptors w resp w' ->
     exists answers,
       evaluates h env (ad_bp a) (Envoy.descriptor_record (ad_orgID a)) descriptors w answers w' /\
       Envoy.ds_Code <$> Envoy.rl_Statuses resp =
         (fun x => if passes (bp_FailOpen (ad_bp a)) x then Envoy.RateLimitOK else Envoy.RateLimitOverLimit) <$> answers /\
       Envoy.rl_OverallCode resp =
         (if forallb (passes (bp_FailOpen (ad_bp a))) answers then Envoy.RateLimitOK else Envoy.RateLimitOverLimit)) /\
  (forall req resp, Envoy.CheckAuth h env a req w resp w' ->
     exists answer,
       evaluates h env (ad_bp a) (Envoy.auth_record (ad_orgID a)) [req] w [answer] w' /\
       Envoy.as_Allowed resp = passes (bp_FailOpen (ad_bp a)) answer /\
       Envoy.as_StatusCode resp = (if Envoy.as_Allowed resp then 200 else 429)).
Proof.
  split.
  - intros [|x l] resp; unfold Envoy.CheckRateLimit.
    + intros [-> ->]. exists []. by split_and!; [split|..].
    + intros (ds & (answers & He & ->)%Process_evaluates & ->). exists answers. destruct He as [Hl He].
      rewrite overall_code, outcomes_forallb by (by rewrite length_fmap).
      split_and!; [by split| |done]. cbn [Envoy.response_of Envoy.rl_Statuses].
      apply statuses_codes. by rewrite length_fmap.
  - intros req resp (ds & H & ->).
    apply (Process_evaluates h env (ad_bp a) (Envoy.auth_record (ad_orgID a)) [req]) in H as (answers & He & ->).
    pose proof He as [Hl _]. destruct answers as [|x [|y l]]; [done| |done]. exists x. split; [done|].
    cbn [fmap list_fmap zip_with Envoy.auth_response]. rewrite outcome_allowed.
    by destruct (passes _ x).
Qed.
