(* ===== verification/Otel.v ===== *)
(** * internal/adapter/otel: the OpenTelemetry processor

    The hook, the processor with its three counters, and the adapter that reports
    the processor's verdicts to the provider interface. *)

From S2P Require Import Prelude GoString GoFloat GoTime Model Store WorkerPool Provider MemoryStore.
Local Open Scope Z_scope.
Local Open Scope stdpp_scope.
Local Open Scope go_scope.

Record LogRecord := {
  lr_OrgID : string; lr_Service : string; lr_Severity : string; lr_Tags : GoMap; lr_Body : string
}.
Record SpanRecord := { sr_OrgID : string; sr_Service : string; sr_Name : string; sr_Tags : GoMap }.

(** ** The hook *)

Definition log_request (orgID service severity : string) (tags : GoMap) : RequestContext :=
  {| req_RequestID := ""; req_OrgID := orgID; req_TenantID := ""; req_Application := "";
     req_Service := service; req_Environment := ""; req_SignalType := "log"; req_Operation := "otel_log";
     req_Endpoint := ""; req_Method := ""; req_UserID := ""; req_APIKey := ""; req_ClientID := "";
     req_SourceIP := ""; req_Region := ""; req_Resource := ""; req_Severity := severity; req_SpanName := "";
     req_Topic := ""; req_ConsumerGroup := ""; req_JobType := ""; req_Quantity := 0; req_Priority := "";
     req_Timestamp := zeroTime; req_Tags := tags; req_Attributes := None |}.

Definition span_request (orgID service span : string) (tags : GoMap) : RequestContext :=
  {| req_RequestID := ""; req_OrgID := orgID; req_TenantID := ""; req_Application := "";
     req_Service := service; req_Environment := ""; req_SignalType := "span"; req_Operation := "otel_span";
     req_Endpoint := ""; req_Method := ""; req_UserID := ""; req_APIKey := ""; req_ClientID := "";
     req_SourceIP := ""; req_Region := ""; req_Resource := ""; req_Severity := ""; req_SpanName := span;
     req_Topic := ""; req_ConsumerGroup := ""; req_JobType := ""; req_Quantity := 0; req_Priority := "";
     req_Timestamp := zeroTime; req_Tags := tags; req_Attributes := None |}.

Definition AllowLog (eval : Evaluator) (l : LogRecord) : prog Answer :=
  eval (log_request (lr_OrgID l) (lr_Service l) (lr_Severity l) (lr_Tags l)).
Definition AllowSpan (eval : Evaluator) (s : SpanRecord) : prog Answer :=
  eval (span_request (sr_OrgID s) (sr_Service s) (sr_Name s) (sr_Tags s)).

(** ** The processor *)

Record ProcessorStats := { st_Allowed : int64; st_Dropped : int64; st_Errors : int64 }.

Record Processor := {
  pr_eval : Evaluator; pr_workers : Z; pr_failOpen : bool;
  pr_stats : ProcessorStats
}.

Definition NewProcessor (eval : Evaluator) (workers : Z) (failOpen : bool) : Processor :=
  {| pr_eval := eval; pr_workers := if workers <=? 0 then 1 else workers; pr_failOpen := failOpen;
     pr_stats := {| st_Allowed := 0; st_Dropped := 0; st_Errors := 0 |} |}.

Definition with_stats (p : Processor) (st : ProcessorStats) : Processor :=
  {| pr_eval := pr_eval p; pr_workers := pr_workers p; pr_failOpen := pr_failOpen p; pr_stats := st |}.

(** Whether a worker leaves [keep[idx]] true. *)
Definition keeps (failOpen : bool) (answer : Answer) : bool :=
  match answer with
  | (d, None) => dec_Allowed d
  | (d, Some _) => if failOpen then dec_Allowed d else false
  end.

(** The counters after a worker has handled an answer. *)
Definition count_answer (failOpen : bool) (answer : Answer) (st : ProcessorStats) : ProcessorStats :=
  let failed := match answer.2 with Some _ => true | None => false end in
  {| st_Errors := if failed then st_Errors st +! 1 else st_Errors st;
     st_Allowed := if keeps failOpen answer then st_Allowed st +! 1 else st_Allowed st;
     st_Dropped := if keeps failOpen answer then st_Dropped st else st_Dropped st +! 1 |}.

(** The records whose flag is true. *)
Fixpoint flagged {R} (records : list R) (keep : list bool) : list R :=
  match records, keep with
  | r :: records', ok :: keep' => if (ok : bool) then r :: flagged records' keep' else flagged records' keep'
  | _, _ => []
  end.

Section Process.
Context {W : Type} (h : handler W) (env : W -> W -> Prop).

(** The body that [ProcessLogs] and [ProcessSpans] share. *)
Definition process_records {R} (allow : Evaluator -> R -> prog Answer) (p : Processor) (records : list R)
    (w : W) (out : list R) (p' : Processor) (w' : W) : Prop :=
  match records with
  | [] => out = [] /\ p' = p /\ w' = w
  | _ => exists s,
      rtc (wp_step h env (allow (pr_eval p)) (fun _ => keeps (pr_failOpen p))
             (fun _ => count_answer (pr_failOpen p)) records)
          (launch records (Z.to_nat (pr_workers p)) true (pr_stats p) w) s /\
      finished s /\ out = flagged records (wp_results s) /\
      p' = with_stats p (wp_tally s) /\ w' = wp_world s
  end.

Definition ProcessLogs := process_records AllowLog.
Definition ProcessSpans := process_records AllowSpan.
End Process.

Definition Stats (p : Processor) : ProcessorStats := pr_stats p.

(** [DecisionFilter]. *)
Definition DecisionFilter (d : Decision) : bool :=
  dec_Allowed d &&
  negb (existsb (String.eqb (dec_Action d)) [ActionDrop; ActionDropLowPriority; ActionDeny]).

(** ** The provider adapter *)

Definition to_log (rec : TelemetryRecord) : LogRecord :=
  {| lr_OrgID := tr_OrgID rec; lr_Service := tr_Service rec; lr_Severity := tr_Severity rec;
     lr_Tags := tr_Tags rec; lr_Body := "" |}.
Definition to_span (rec : TelemetryRecord) : SpanRecord :=
  {| sr_OrgID := tr_OrgID rec; sr_Service := tr_Service rec; sr_Name := tr_Operation rec; sr_Tags := tr_Tags rec |}.

Definition is_log (rec : TelemetryRecord) : bool := String.eqb (tr_Signal rec) SignalLog.
Definition is_span (rec : TelemetryRecord) : bool := String.eqb (tr_Signal rec) SignalSpan.

(** The fields by which a record is looked for among the kept ones. *)
Definition log_key (l : LogRecord) : string * string * string := (lr_OrgID l, lr_Service l, lr_Severity l).
Definition span_key (s : SpanRecord) : string * string * string := (sr_OrgID s, sr_Service s, sr_Name s).

Definition verdict (rec : TelemetryRecord) (kept : bool) : ProviderDecision :=
  if kept
  then {| pd_Allowed := true; pd_Action := ActionAllow; pd_Reason := "allowed"; pd_Record := rec;
          pd_Raw := zeroDecision |}
  else {| pd_Allowed := false; pd_Action := ActionDrop; pd_Reason := "rate_limited"; pd_Record := rec;
          pd_Raw := zeroDecision |}.

(** The decision at the index of a record, given what the processor kept. *)
Definition batch_verdict (keptLogs : list LogRecord) (keptSpans : list SpanRecord) (rec : TelemetryRecord)
    : ProviderDecision :=
  if is_log rec
  then verdict rec (existsb (fun k => bool_decide (log_key (to_log rec) = log_key k)) keptLogs)
  else if is_span rec
  then verdict rec (existsb (fun k => bool_decide (span_key (to_span rec) = span_key k)) keptSpans)
  else {| pd_Allowed := true; pd_Action := ActionAllow; pd_Reason := "unsupported_signal"; pd_Record := rec;
          pd_Raw := zeroDecision |}.

Definition batch_logs (records : list TelemetryRecord) : list LogRecord := to_log <$> List.filter is_log records.
Definition batch_spans (records : list TelemetryRecord) : list SpanRecord := to_span <$> List.filter is_span records.

Definition ProcessBatch {W} (h : handler W) (env : W -> W -> Prop) (p : Processor) (records : list TelemetryRecord)
    (w : W) (out : list ProviderDecision) (p' : Processor) (w' : W) : Prop :=
  exists keptLogs keptSpans p1 w1,
    ProcessLogs h env p (batch_logs records) w keptLogs p1 w1 /\
    ProcessSpans h env p1 (batch_spans records) w1 keptSpans p' w' /\
    out = batch_verdict keptLogs keptSpans <$> records.

(** ** Every record is accounted for *)

Definition failed (answer : Answer) : bool := match answer.2 with Some _ => true | None => false end.

(** How many answers of a list satisfy a test. *)
Definition tally {R} (test : Answer -> bool) (l : list (R * Answer)) : Z :=
  Z.of_nat (length (List.filter (fun x => test x.2) l)).

Lemma tally_cons {R} test (x : R * Answer) l :
  tally test (x :: l) = (if test x.2 then 1 else 0) + tally test l.
Proof. unfold tally. cbn [List.filter]. case_step; cbn [length]; lia. Qed.

Lemma tally_Permutation {R} test (l l' : list (R * Answer)) : l ≡ₚ l' -> tally test l = tally test l'.
Proof.
  induction 1 as [|x l l' _ IH|x y l|l1 l2 l3 _ IH1 _ IH2]; rewrite ?tally_cons; lia.
Qed.

Lemma tally_negb {R} test (l : list (R * Answer)) :
  tally test l + tally (fun a => negb (test a)) l = Z.of_nat (length l).
Proof.
  induction l as [|x l IH]; [done|]. rewrite !tally_cons. cbn [length]. destruct (test x.2); cbn [negb]; lia.
Qed.

Lemma tally_nonneg {R} test (l : list (R * Answer)) : 0 <= tally test l <= Z.of_nat (length l).
Proof. pose proof (tally_negb test l). unfold tally in *. lia. Qed.

(** The counters have room for [n] more records. *)
Definition room (st : ProcessorStats) (n : Z) : Prop :=
  (0 <= st_Allowed st /\ st_Allowed st + n <= maxInt64) /\
  (0 <= st_Dropped st /\ st_Dropped st + n <= maxInt64) /\
  (0 <= st_Errors st /\ st_Errors st + n <= maxInt64).

Lemma bump_small x n (b : bool) : 0 <= n -> 0 <= x -> x + (n + 1) <= maxInt64 ->
  (if b then x +! 1 else x) = x + (if b then 1 else 0).
Proof. intros. destruct b; [|lia]. apply wrap64_small. unfold in_int64, minInt64, maxInt64 in *. lia. Qed.

Lemma count_answer_room fo a st n :
  0 <= n -> room st (n + 1) ->
  st_Allowed (count_answer fo a st) = st_Allowed st + (if keeps fo a then 1 else 0) /\
  st_Dropped (count_answer fo a st) = st_Dropped st + (if keeps fo a then 0 else 1) /\
  st_Errors (count_answer fo a st) = st_Errors st + (if failed a then 1 else 0) /\
  room (count_answer fo a st) n.
Proof.
  intros Hn ((A1 & A2) & (D1 & D2) & (E1 & E2)). unfold room, count_answer. cbn [st_Allowed st_Dropped st_Errors].
  fold (failed a). rewrite !(bump_small _ n) by lia.
  assert (Hd : (if keeps fo a then st_Dropped st else st_Dropped st +! 1) =
               st_Dropped st + (if keeps fo a then 0 else 1)).
  { pose proof (bump_small (st_Dropped st) n (negb (keeps fo a)) Hn D1 D2) as H. by destruct (keeps fo a). }
  rewrite Hd. destruct (keeps fo a), (failed a); lia.
Qed.

Lemma count_up_tally {R} fo (l : list (R * Answer)) st :
  room st (Z.of_nat (length l)) ->
  let st' := count_up (fun _ => count_answer fo) st l in
  st_Allowed st' = st_Allowed st + tally (keeps fo) l /\
  st_Dropped st' = st_Dropped st + tally (fun a => negb (keeps fo a)) l /\
  st_Errors st' = st_Errors st + tally failed l.
Proof.
  revert st. induction l as [|x l IH]; intros st Hr; [unfold tally; cbn; lia|].
  unfold count_up in *. cbn [foldl]. rewrite !tally_cons.
  destruct (count_answer_room fo x.2 st (Z.of_nat (length l))) as (HA & HD & HE & Hr'); [lia| |].
  { cbn [length] in Hr. by replace (Z.of_nat (length l) + 1) with (Z.of_nat (S (length l))) by lia. }
  destruct (IH _ Hr') as (IHA & IHD & IHE). rewrite IHA, IHD, IHE, HA, HD, HE.
  destruct (keeps fo x.2); cbn [negb]; lia.
Qed.

Lemma flagged_zip {R} fo (records : list R) (answers : list Answer) :
  flagged records (zip_with (fun _ => keeps fo) records answers) =
  fst <$> List.filter (fun x => keeps fo x.2) (zip records answers).
Proof.
  revert answers. induction records as [|r records IH]; intros [|a answers]; [done..|].
  cbn [zip_with flagged List.filter snd]. rewrite IH. by destruct (keeps fo a).
Qed.

(** What a batch does: the records kept, the counters and the store. *)
Definition accounted {W R} (h : handler W) (env : W -> W -> Prop) (allow : Evaluator -> R -> prog Answer)
    (p : Processor) (records : list R) (w : W) (out : list R) (p' : Processor) (w' : W) : Prop :=
  exists answers, length answers = length records /\
    rtc (pool_step h env) (allow (pr_eval p) <$> records, w) (Ret <$> answers, w') /\
    out = fst <$> List.filter (fun x => keeps (pr_failOpen p) x.2) (zip records answers) /\
    st_Allowed (Stats p') = st_Allowed (Stats p) + Z.of_nat (length out) /\
    st_Dropped (Stats p') = st_Dropped (Stats p) + Z.of_nat (length records) - Z.of_nat (length out) /\
    st_Errors (Stats p') = st_Errors (Stats p) + Z.of_nat (length (List.filter failed answers)).

Lemma tally_failed {R} (records : list R) answers :
  length answers = length records ->
  tally failed (zip records answers) = Z.of_nat (length (List.filter failed answers)).
Proof.
  revert answers. induction records as [|r l IH]; intros [|a answers] Hl; simplify_eq/=; [done|].
  rewrite tally_cons, IH by done. cbn [snd List.filter]. destruct (failed a); cbn [length]; lia.
Qed.

Lemma process_accounted {W R} (h : handler W) env (allow : Evaluator -> R -> prog Answer) p records w out p' w' :
  0 < pr_workers p -> room (Stats p) (Z.of_nat (length records)) ->
  process_records h env allow p records w out p' w' -> accounted h env allow p records w out p' w'.
Proof.
  intros Hn Hroom. unfold process_records, accounted, Stats in *. destruct records as [|r l].
  { intros (-> & -> & ->). exists []. split_and!; [done|done|done|cbn [length List.filter]; lia..]. }
  intros (s & Hs & Hf & -> & -> & ->).
  apply finished_pool in Hs as (answers & Hr & -> & Hl & order & Ho & Ht); [|lia|done].
  exists answers. rewrite flagged_zip, length_fmap, Ht. cbn [with_stats pr_stats].
  destruct (count_up_tally (pr_failOpen p) order (pr_stats p)) as (HA & HD & HE).
  { rewrite Ho, length_zip_with, Hl, Nat.min_id. done. }
  rewrite HA, HD, HE, !(tally_Permutation _ _ _ Ho), tally_failed by done.
  pose proof (tally_negb (keeps (pr_failOpen p)) (zip (r :: l) answers)) as Hneg.
  rewrite length_zip_with, Hl, Nat.min_id in Hneg. fold (tally (keeps (pr_failOpen p)) (zip (r :: l) answers)).
  split_and!; [done..|lia|done].
Qed.

(** The processor keeps exactly the records its evaluations allow and counts every
    record once: after a batch the allowed counter has grown by the records kept,
    the dropped counter by the others, and the error counter by the evaluations
    that failed. *)
Theorem otel_accounts {W : Type} (h : handler W) (env : W -> W -> Prop) (eval : Evaluator) (workers : Z)
    (failOpen : bool) (st : ProcessorStats) (w w' : W) (p' : Processor) :
  let p := with_stats (NewProcessor eval workers failOpen) st in
  (forall logs out, room st (Z.of_nat (length logs)) -> ProcessLogs h env p logs w out p' w' ->
     accounted h env AllowLog p logs w out p' w') /\
  (forall spans out, room st (Z.of_nat (length spans)) -> ProcessSpans h env p spans w out p' w' ->
     accounted h env AllowSpan p spans w out p' w').
Proof.
  intros p. assert (Hn : 0 < pr_workers p) by (cbn [p with_stats NewProcessor pr_workers]; case_step; lia).
  split; intros l out Hr; by apply process_accounted.
Qed.

(** One of the schedules: one worker handles the records in turn. *)
Definition process_in_order {W R} (h : handler W) (allow : Evaluator -> R -> prog Answer) (p : Processor)
    (records : list R) (w : W) : list R * Processor * W :=
  let '(answers, w') := run_all h (allow (pr_eval p) <$> records) w in
  (flagged records (zip_with (fun _ => keeps (pr_failOpen p)) records answers),
   with_stats p (count_up (fun _ => count_answer (pr_failOpen p)) (pr_stats p) (zip records answers)), w').

Lemma process_in_order_spec {W R} (h : handler W) env (allow : Evaluator -> R -> prog Answer) p records w out p' w' :
  0 < pr_workers p -> process_in_order h allow p records w = (out, p', w') ->
  process_records h env allow p records w out p' w'.
Proof.
  intros Hn. unfold process_in_order, process_records. destruct records as [|r l].
  - cbn [fmap list_fmap run_all]. intros H. simplify_eq. split_and!; [done| |done]. by destruct p.
  - destruct (run_all _ _ _) as [answers w1] eqn:E. intros H. simplify_eq.
    destruct (Z.to_nat (pr_workers p)) as [|n] eqn:En; [lia|].
    destruct (sequential_batch h env _ (fun _ => keeps (pr_failOpen p)) (fun _ => count_answer (pr_failOpen p))
      (r :: l) n true (pr_stats p) w answers w' E) as (s & Hs & Hf & Hr & Ht & Hw).
    exists s. by rewrite Hr, Ht, Hw.
Qed.

(** ** What the adapter reports *)

Lemma NoDup_fmap_eq {A B} (f : A -> B) (l : list A) x y :
  NoDup (f <$> l) -> x ∈ l -> y ∈ l -> f x = f y -> x = y.
Proof.
  intros Hnd Hx Hy E. induction l as [|z l IH]; [by apply elem_of_nil in Hx|].
  rewrite fmap_cons in Hnd. apply NoDup_cons in Hnd as [Hz Hnd].
  apply elem_of_cons in Hx as [->|Hx]; apply elem_of_cons in Hy as [->|Hy]; [done|..|by apply IH].
  - destruct Hz. rewrite E. by apply list_elem_of_fmap_2.
  - destruct Hz. rewrite <- E. by apply list_elem_of_fmap_2.
Qed.

Lemma flagged_elem {R} (records : list R) keep x : x ∈ flagged records keep -> x ∈ records.
Proof.
  revert keep. induction records as [|r l IH]; intros [|b keep]; cbn [flagged]; try (by intros ?%elem_of_nil).
  destruct b; [|by constructor; eapply IH]. intros [->|H]%elem_of_cons; constructor. by eapply IH.
Qed.

Lemma process_records_elem {W R} (h : handler W) env (allow : Evaluator -> R -> prog Answer) p records w out p' w' x :
  process_records h env allow p records w out p' w' -> x ∈ out -> x ∈ records.
Proof.
  destruct records; cbn [process_records].
  - by intros (-> & _).
  - intros (s & _ & _ & -> & _). apply flagged_elem.
Qed.

(** Looking a record up by its key finds it when keys are distinct. *)
Lemma found_by_key {R} (key : R -> string * string * string) (l kept : list R) (r : R) :
  r ∈ l -> (forall x, x ∈ kept -> x ∈ l) ->
  let found := existsb (fun k => bool_decide (key r = key k)) kept in
  (r ∈ kept -> found = true) /\ (NoDup (key <$> l) -> found = true -> r ∈ kept).
Proof.
  intros Hr Hsub found. split.
  - intros Hk. apply existsb_exists. exists r. rewrite <- list_elem_of_In. split; [done|]. by apply bool_decide_eq_true.
  - intros Hnd (k & Hk & E)%existsb_exists. apply list_elem_of_In in Hk. apply bool_decide_eq_true in E.
    by rewrite (NoDup_fmap_eq key l r k Hnd Hr (Hsub k Hk) E).
Qed.

(** The adapter never reports a record as dropped that the processor kept, and
    lets unsupported signals through; when no two log records of a batch agree on
    organization, service and severity, and no two spans on organization, service
    and name, it reports exactly what the processor decided. *)
Theorem otel_adapter_reports {W : Type} (h : handler W) (env : W -> W -> Prop) (p p' : Processor)
    (records : list TelemetryRecord) (w w' : W) (out : list ProviderDecision) :
  ProcessBatch h env p records w out p' w' ->
  exists keptLogs keptSpans p1 w1,
    ProcessLogs h env p (batch_logs records) w keptLogs p1 w1 /\
    ProcessSpans h env p1 (batch_spans records) w1 keptSpans p' w' /\
    Forall2 (fun rec d => pd_Record d = rec /\
      if is_log rec then
        (to_log rec ∈ keptLogs -> pd_Allowed d = true) /\
        (NoDup (log_key <$> batch_logs records) -> pd_Allowed d = true -> to_log rec ∈ keptLogs)
      else if is_span rec then
        (to_span rec ∈ keptSpans -> pd_Allowed d = true) /\
        (NoDup (span_key <$> batch_spans records) -> pd_Allowed d = true -> to_span rec ∈ keptSpans)
      else pd_Allowed d = true) records out.
Proof.
  intros (keptLogs & keptSpans & p1 & w1 & Hl & Hs & ->).
  exists keptLogs, keptSpans, p1, w1. split_and!; [done..|].
  apply Forall2_fmap_r, Forall_Forall2_diag, Forall_forall. intros rec Hrec.
  assert (Hv : forall b, pd_Record (verdict rec b) = rec /\ pd_Allowed (verdict rec b) = b) by (by intros []).
  unfold compose, batch_verdict. cbv beta. destruct (is_log rec) eqn:El; [|destruct (is_span rec) eqn:Es; [|done]].
  - split; [by apply Hv|]. rewrite (proj2 (Hv _)). apply (found_by_key log_key).
    + apply list_elem_of_fmap_2, list_elem_of_In, List.filter_In. by rewrite <- list_elem_of_In.
    + intros x. by eapply process_records_elem.
  - split; [by apply Hv|]. rewrite (proj2 (Hv _)). apply (found_by_key span_key).
    + apply list_elem_of_fmap_2, list_elem_of_In, List.filter_In. by rewrite <- list_elem_of_In.
    + intros x. by eapply process_records_elem.
Qed.

(** ** Concrete batches *)

(** An evaluator that allows the first request it sees. *)
Definition first_only : Evaluator := fun _ =>
  r ← call (Increment "seen" 1 0);
  mret (match r with
        | Ok 1 => {| dec_Allowed := true; dec_Action := ActionAllow; dec_Reason := ""; dec_MatchedPolicyID := "";
                     dec_MatchedRuleKey := ""; dec_LimitKey := ""; dec_Remaining := 0; dec_RetryAfter := 0;
                     dec_ResetAt := zeroTime; dec_DelayFor := 0; dec_SampleRate := fzero; dec_ShadowMode := false;
                     dec_Metadata := None |}
        | _ => zeroDecision
        end, None).

Definition otel_record (signal severity : string) : TelemetryRecord :=
  {| tr_Signal := signal; tr_OrgID := "acme"; tr_Service := "web"; tr_Operation := "op"; tr_Severity := severity;
     tr_Environment := ""; tr_Region := ""; tr_Endpoint := ""; tr_Method := ""; tr_Tags := None |}.

Definition otel_world : World := {| w_clock := 0; w_store := New |}.
Definition otel_processor : Processor := NewProcessor first_only 4 true.

Lemma process_batch_in_order p records w :
  0 < pr_workers p ->
  let '(keptLogs, p1, w1) := process_in_order memory AllowLog p (batch_logs records) w in
  let '(keptSpans, p2, w2) := process_in_order memory AllowSpan p1 (batch_spans records) w1 in
  ProcessBatch memory env_step p records w (batch_verdict keptLogs keptSpans <$> records) p2 w2.
Proof.
  intros Hn. destruct (process_in_order memory AllowLog _ _ _) as [[keptLogs p1] w1] eqn:E1.
  destruct (process_in_order memory AllowSpan _ _ _) as [[keptSpans p2] w2] eqn:E2.
  exists keptLogs, keptSpans, p1, w1. split_and!; [by apply process_in_order_spec| |done].
  apply process_in_order_spec; [|done]. revert E1. unfold process_in_order.
  destruct (run_all _ _ _). intros H. by simplify_eq.
Qed.

Lemma otel_adapter_witness :
  exists out p' w', ProcessBatch memory env_step otel_processor
      [otel_record SignalLog "INFO"; otel_record SignalLog "WARN"; otel_record SignalSpan ""] otel_world out p' w' /\
    pd_Allowed <$> out = [true; false; false] /\
  exists keptLogs keptSpans p1 w1,
    ProcessLogs memory env_step otel_processor
      (batch_logs [otel_record SignalLog "INFO"; otel_record SignalLog "WARN"; otel_record SignalSpan ""])
      otel_world keptLogs p1 w1 /\
    ProcessSpans memory env_step p1
      (batch_spans [otel_record SignalLog "INFO"; otel_record SignalLog "WARN"; otel_record SignalSpan ""])
      w1 keptSpans p' w'.
Proof.
  set (records := [otel_record SignalLog "INFO"; otel_record SignalLog "WARN"; otel_record SignalSpan ""]).
  pose proof (process_batch_in_order otel_processor records otel_world ltac:(done)) as H.
  destruct (process_in_order memory AllowLog _ _ _) as [[keptLogs p1] w1] eqn:E1.
  destruct (process_in_order memory AllowSpan _ _ _) as [[keptSpans p2] w2] eqn:E2.
  exists (batch_verdict keptLogs keptSpans <$> records), p2, w2. split_and!; [exact H| |].
  - vm_compute in E1. simplify_eq. vm_compute in E2. simplify_eq. by vm_compute.
  - destruct (otel_adapter_reports memory env_step otel_processor p2 records otel_world w2 _ H)
      as (a & b & c & d & H1 & H2 & _). exists a, b, c, d. split; [exact H1|exact H2].
Defined.

(** Two logs of one service and severity: the processor keeps one and drops the
    other, and the adapter reports both as allowed. *)
Example otel_reports_dropped_as_allowed :
  exists out p' w', ProcessBatch memory env_step otel_processor
      [otel_record SignalLog "INFO"; otel_record SignalLog "INFO"] otel_world out p' w' /\
    pd_Allowed <$> out = [true; true] /\
    Stats p' = {| st_Allowed := 1; st_Dropped := 1; st_Errors := 0 |}.
Proof.
  set (records := [otel_record SignalLog "INFO"; otel_record SignalLog "INFO"]).
  pose proof (process_batch_in_order otel_processor records otel_world ltac:(done)) as H.
  destruct (process_in_order memory AllowLog _ _ _) as [[keptLogs p1] w1] eqn:E1.
  destruct (process_in_order memory AllowSpan _ _ _) as [[keptSpans p2] w2] eqn:E2.
  exists (batch_verdict keptLogs keptSpans <$> records), p2, w2. split; [exact H|].
  vm_compute in E1. simplify_eq. vm_compute in E2. simplify_eq. by vm_compute.
Qed.

(** An evaluator that fails: the decision that comes with the error is the zero
    one. *)
Definition unreachable : Evaluator := fun _ => mret (zeroDecision, Some "unavailable").

(** Failing open still drops the record. *)
Example otel_fail_open_drops :
  exists p' w', ProcessLogs memory env_step (NewProcessor unreachable 1 true)
      [to_log (otel_record SignalLog "INFO")] otel_world [] p' w' /\
    Stats p' = {| st_Allowed := 0; st_Dropped := 1; st_Errors := 1 |}.
Proof.
  destruct (process_in_order memory AllowLog (NewProcessor unreachable 1 true)
    [to_log (otel_record SignalLog "INFO")] otel_world) as [[kept p1] w1] eqn:E1.
  exists p1, w1. assert (kept = []) as -> by (vm_compute in E1; by simplify_eq).
  split; [by apply process_in_order_spec|]. vm_compute in E1. by simplify_eq.
Qed.
