(* ===== verification/ControlPlane.v ===== *)
(** * internal/adapter/http/controlplane.go: the policy and lease endpoints

    The policy endpoints work on any [PolicyStore], and look for an optional
    history; the store is an interface here too ([PolicyStoreOps]), with what the
    endpoints rely on as its laws ([PolicyStoreLaws]).  Decoding request bodies is
    a parameter.  A handler returns the response, the calls of the notifier and of
    the recorder it makes, in order, and the store it leaves behind. *)

From S2P Require Import Prelude GoString GoHash GoFloat GoTime Model Store Common MemoryStore Concurrency.
From S2P Require Import KeyBuilder PolicyCache PolicyStore Engine.
Local Open Scope Z_scope.
Local Open Scope stdpp_scope.

(** ** Policy stores *)

Record HistoryOps (S : Type) := {
  ho_audit : string -> S -> result (list PolicyAuditEntry);
  ho_versions : string -> S -> result (list PolicyVersion)
}.
Arguments ho_audit {_} _ _ _.
Arguments ho_versions {_} _ _ _.

Class PolicyStoreOps (S : Type) := {
  ps_ListPolicies : S -> result (list Policy);
  ps_GetPolicyByID : string -> S -> result Policy;
  ps_UpsertPolicy : Policy -> S -> result unit * S;
  ps_DeletePolicy : string -> S -> result unit * S;
  (** the type assertion to [policyHistoryStore] *)
  ps_history : option (HistoryOps S)
}.

(** A store keeps a payload, and changes it only by the operations of a payload.  A
    failed operation changes nothing.  What is stored reads back when the store
    can encode it. *)
Class PolicyStoreLaws (S : Type) `{PolicyStoreOps S} := {
  psl_read : S -> result payload;
  psl_encodable : payload -> Prop;
  psl_get id s p : ps_GetPolicyByID id s = Ok p -> exists pl, psl_read s = Ok pl /\ get_from id pl = Ok p;
  psl_versions hist id s vs :
    ps_history = Some hist -> ho_versions hist id s = Ok vs ->
    exists pl, psl_read s = Ok pl /\ vs = versions_of pl id;
  psl_upsert p s :
    match ps_UpsertPolicy p s with
    | (Ok _, s') => exists t pl, psl_read s = Ok pl /\
        (psl_encodable (upsert_payload t p pl) -> psl_read s' = Ok (upsert_payload t p pl))
    | (Err _, s') => s' = s
    end;
  psl_delete id s :
    match ps_DeletePolicy id s with
    | (Ok _, s') => exists t pl, psl_read s = Ok pl /\
        (psl_encodable (delete_payload t id pl) -> psl_read s' = Ok (delete_payload t id pl))
    | (Err _, s') => s' = s
    end
}.

(** ** Requests and responses *)

Record HTTPRequest := { hr_Method : string; hr_Path : string; hr_Body : string }.

(** What a handler writes as a body, before encoding. *)
Inductive Body :=
| BodyText (text : string)
| BodyPolicies (l : list Policy)
| BodyPolicy (p : Policy)
| BodyAudits (l : list PolicyAuditEntry)
| BodyVersions (l : list PolicyVersion)
| BodyValid
| BodyNone.

Record HTTPResponse := { rs_Status : Z; rs_Body : Body }.

Definition http_error (status : Z) (text : string) : HTTPResponse :=
  {| rs_Status := status; rs_Body := BodyText text |}.

(** A call of one of the configured hooks. *)
Inductive Hook :=
| Published (topic : string) (event : gmap string string)
| Recorded (event : string) (tags : gmap string string).

(** [policiesHandlerConfig]: which hooks are configured. *)
Record HandlerConfig := { hc_notifier : bool; hc_analytics : bool }.

(** ** The helpers of the policy endpoints *)

Definition validatePolicy (p : Policy) : result unit :=
  if String.eqb (pol_Name p) "" then Err "policy name is required"
  else if String.eqb (cfg_Type (pol_Algorithm p)) "" then Err "algorithm type is required"
  else if cfg_Limit (pol_Algorithm p) <? 0 then Err "algorithm limit must be >= 0"
  else if String.eqb (pol_Action p) "" then Err "action is required"
  else if (pol_RolloutPercent p <? 0) || (100 <? pol_RolloutPercent p) then Err "rollout_percent must be 0..100"
  else Ok tt.

Definition selectVersionForRollback (versions : list PolicyVersion) (requestedVersion : int64) : option PolicyVersion :=
  if 0 <? requestedVersion
  then List.find (fun v => ver_Version v =? requestedVersion) versions
  else if (length versions <? 2)%nat then None
  else versions !! (length versions - 2)%nat.

Definition with_id (p : Policy) (id : string) : Policy :=
  {| pol_PolicyID := id; pol_Name := pol_Name p; pol_Description := pol_Description p;
     pol_Enabled := pol_Enabled p; pol_Priority := pol_Priority p; pol_Scope := pol_Scope p;
     pol_Algorithm := pol_Algorithm p; pol_Action := pol_Action p; pol_FailureMode := pol_FailureMode p;
     pol_EnforcementMode := pol_EnforcementMode p; pol_RolloutPercent := pol_RolloutPercent p;
     pol_ValidFromUnix := pol_ValidFromUnix p; pol_ValidToUnix := pol_ValidToUnix p;
     pol_Metadata := pol_Metadata p |}.

Definition policies_path : string := "/rlaas/v1/policies".
Definition policies_prefix : string := "/rlaas/v1/policies/".

(** The id between the prefix and a suffix. *)
Definition id_before (path suffix : string) : string := TrimSuffix (TrimPrefix path policies_prefix) suffix.
Definition under (path suffix : string) : bool := HasPrefix path policies_prefix && HasSuffix path suffix.

Definition event_of (id action : string) : gmap string string := {["policy_id" := id; "action" := action]}.

Section Policies.
Context {S : Type} `{PolicyStoreOps S}.
Context (cfg : HandlerConfig).
(** Decoding the body as a policy, as [{"version": n}] and as
    [{"rollout_percent": n}]. *)
Context (DecodePolicy : string -> result Policy)
        (DecodeVersion : string -> result int64)
        (DecodeRollout : string -> result Z).

Definition Reply : Type := HTTPResponse * list Hook * S.

Definition recorded (event : string) (tags : gmap string string) : list Hook :=
  if hc_analytics cfg then [Recorded event tags] else [].
Definition published (id action : string) : list Hook :=
  if hc_notifier cfg then [Published "policy.changed" (event_of id action)] else [].

Definition fail (status : Z) (text : string) (s : S) : Reply := (http_error status text, [], s).
Definition reply (body : Body) (hooks : list Hook) (s : S) : Reply :=
  ({| rs_Status := 200; rs_Body := body |}, hooks, s).

Definition list_policies (s : S) : Reply :=
  match ps_ListPolicies s with
  | Err _ => fail 500 "policy store error" s
  | Ok l => reply (BodyPolicies l) (recorded "policy_list" {["status" := "ok"]}) s
  end.

Definition policy_audit (path : string) (s : S) : Reply :=
  match ps_history with
  | None => fail 501 "policy history not supported" s
  | Some hist =>
      let policyID := id_before path "/audit" in
      if String.eqb policyID "" then fail 400 "missing policy id" s
      else match ho_audit hist policyID s with
           | Err _ => fail 500 "policy store error" s
           | Ok entries => reply (BodyAudits entries) [] s
           end
  end.

Definition policy_versions (path : string) (s : S) : Reply :=
  match ps_history with
  | None => fail 501 "policy versions not supported" s
  | Some hist =>
      let policyID := id_before path "/versions" in
      if String.eqb policyID "" then fail 400 "missing policy id" s
      else match ho_versions hist policyID s with
           | Err _ => fail 500 "policy store error" s
           | Ok versions => reply (BodyVersions versions) [] s
           end
  end.

Definition get_policy (path : string) (s : S) : Reply :=
  let id := TrimPrefix path policies_prefix in
  if String.eqb id "" then fail 400 "missing policy id" s
  else match ps_GetPolicyByID id s with
       | Err _ => fail 404 "policy not found" s
       | Ok p => reply (BodyPolicy p) [] s
       end.

(** [now] is the instant the id of a policy without one is made of. *)
Definition create_policy (now : Time) (body : string) (s : S) : Reply :=
  match DecodePolicy body with
  | Err _ => fail 400 "invalid request" s
  | Ok p0 =>
      let p := if String.eqb (pol_PolicyID p0) "" then with_id p0 ("policy-" +:+ FormatInt (UnixNano now)) else p0 in
      match ps_UpsertPolicy p s with
      | (Err _, s') => fail 500 "policy store error" s'
      | (Ok _, s') =>
          ({| rs_Status := 201; rs_Body := BodyPolicy p |},
           published (pol_PolicyID p) "create" ++ recorded "policy_create" {["policy_id" := pol_PolicyID p]}, s')
      end
  end.

Definition validate_policy (body : string) (s : S) : Reply :=
  match DecodePolicy body with
  | Err _ => fail 400 "invalid request" s
  | Ok p =>
      match validatePolicy p with
      | Err err => fail 400 err s
      | Ok _ => reply BodyValid (recorded "policy_validate" {["status" := "ok"]}) s
      end
  end.

Definition rollback_policy (path body : string) (s : S) : Reply :=
  match ps_history with
  | None => fail 501 "policy rollback not supported" s
  | Some hist =>
      let id := id_before path "/rollback" in
      if String.eqb id "" then fail 400 "missing policy id" s
      else match DecodeVersion body with
      | Err _ => fail 400 "invalid request" s
      | Ok requested =>
          match ho_versions hist id s with
          | Err _ => fail 500 "policy store error" s
          | Ok [] => fail 404 "policy version not found" s
          | Ok versions =>
              match selectVersionForRollback versions requested with
              | None => fail 404 "policy version not found" s
              | Some selected =>
                  let restore := with_id (ver_Snapshot selected) id in
                  match ps_UpsertPolicy restore s with
                  | (Err _, s') => fail 500 "policy store error" s'
                  | (Ok _, s') =>
                      reply (BodyPolicy restore)
                        (published id "rollback" ++
                         recorded "policy_rollback"
                           {["policy_id" := id; "version" := FormatInt (ver_Version selected)]}) s'
                  end
              end
          end
      end
  end.

Definition rollout_policy (path body : string) (s : S) : Reply :=
  let id := id_before path "/rollout" in
  if String.eqb id "" then fail 400 "missing policy id" s
  else match DecodeRollout body with
  | Err _ => fail 400 "invalid request" s
  | Ok percent =>
      if (percent <? 0) || (100 <? percent) then fail 400 "rollout_percent must be 0..100" s
      else match ps_GetPolicyByID id s with
      | Err _ => fail 404 "policy not found" s
      | Ok p0 =>
          let p := with_rollout p0 percent in
          match ps_UpsertPolicy p s with
          | (Err _, s') => fail 500 "policy store error" s'
          | (Ok _, s') =>
              reply (BodyPolicy p)
                (published (pol_PolicyID p) "rollout_update" ++
                 recorded "policy_rollout_update" {["policy_id" := pol_PolicyID p]}) s'
          end
      end
  end.

Definition update_policy (path body : string) (s : S) : Reply :=
  let id := TrimPrefix path policies_prefix in
  if String.eqb id "" then fail 400 "missing policy id" s
  else match DecodePolicy body with
  | Err _ => fail 400 "invalid request" s
  | Ok p0 =>
      let p := with_id p0 id in
      match ps_UpsertPolicy p s with
      | (Err _, s') => fail 500 "policy store error" s'
      | (Ok _, s') =>
          reply (BodyPolicy p)
            (published (pol_PolicyID p) "update" ++ recorded "policy_update" {["policy_id" := pol_PolicyID p]}) s'
      end
  end.

Definition delete_policy (path : string) (s : S) : Reply :=
  let id := TrimPrefix path policies_prefix in
  if String.eqb id "" then fail 400 "missing policy id" s
  else match ps_DeletePolicy id s with
  | (Err _, s') => fail 500 "policy store error" s'
  | (Ok _, s') =>
      ({| rs_Status := 204; rs_Body := BodyNone |},
       published id "delete" ++ recorded "policy_delete" {["policy_id" := id]}, s')
  end.

(** The cases of the switch, in order. *)
Definition PoliciesHandlerWithConfig (now : Time) (r : HTTPRequest) (s : S) : Reply :=
  let path := hr_Path r in
  let meth m := String.eqb (hr_Method r) m in
  if meth "GET" && String.eqb path policies_path then list_policies s
  else if meth "GET" && under path "/audit" then policy_audit path s
  else if meth "GET" && under path "/versions" then policy_versions path s
  else if meth "GET" && HasPrefix path policies_prefix then get_policy path s
  else if meth "POST" && String.eqb path policies_path then create_policy now (hr_Body r) s
  else if meth "POST" && String.eqb path (policies_prefix +:+ "validate") then validate_policy (hr_Body r) s
  else if meth "POST" && under path "/rollback" then rollback_policy path (hr_Body r) s
  else if meth "POST" && under path "/rollout" then rollout_policy path (hr_Body r) s
  else if meth "PUT" && HasPrefix path policies_prefix then update_policy path (hr_Body r) s
  else if meth "DELETE" && HasPrefix path policies_prefix then delete_policy path s
  else fail 404 "404 page not found" s.
End Policies.

(** [PoliciesHandler] has no hooks; [PoliciesHandlerWithHooks] has those that are not
    nil. *)
Definition no_hooks : HandlerConfig := {| hc_notifier := false; hc_analytics := false |}.
Definition hooks_config (publish record : bool) : HandlerConfig := {| hc_notifier := publish; hc_analytics := record |}.
Definition PoliciesHandler {S} `{PolicyStoreOps S} := PoliciesHandlerWithConfig (S := S) no_hooks.
Definition PoliciesHandlerWithHooks {S} `{PolicyStoreOps S} (publish record : bool) :=
  PoliciesHandlerWithConfig (S := S) (hooks_config publish record).

(** ** Every change of a policy is announced *)

(** The policy an operation is about. *)
Definition op_id (op : policy_op) : string :=
  match op with Upsert _ p => pol_PolicyID p | Remove _ id => id end.

(** The events sent to the notifier. *)
Definition announced (hooks : list Hook) : list (string * gmap string string) :=
  omap (fun x => match x with Published topic event => Some (topic, event) | Recorded _ _ => None end) hooks.

Section Announced.
Context {S : Type} {HO : PolicyStoreOps S} {HL : PolicyStoreLaws S}.
Context (cfg : HandlerConfig) (notified : hc_notifier cfg = true).
Context (DecodePolicy : string -> result Policy)
        (DecodeVersion : string -> result int64)
        (DecodeRollout : string -> result Z).

(** Either nothing changes and nothing is announced, or one operation is done and
    announced under the id of its policy, and the request succeeds. *)
Definition announces (s : S) (r : @Reply S) : Prop :=
  let '(resp, hooks, s') := r in
  match announced hooks with
  | [] => s' = s
  | [(topic, event)] =>
      topic = "policy.changed" /\ 200 <= rs_Status resp < 300 /\
      exists op pl, event !! "policy_id" = Some (op_id op) /\ psl_read s = Ok pl /\
        (psl_encodable (op_payload op pl) -> psl_read s' = Ok (op_payload op pl))
  | _ => False
  end.

Lemma announced_recorded event tags : announced (recorded cfg event tags) = [].
Proof. unfold recorded. by case_step. Qed.

Lemma announces_fail status text s : announces s (fail status text s).
Proof. done. Qed.

Lemma announces_reply body event tags s : announces s (reply body (recorded cfg event tags) s).
Proof. unfold announces, reply. by rewrite announced_recorded. Qed.

Lemma announced_published id action event tags :
  announced (published cfg id action ++ recorded cfg event tags) = [("policy.changed", event_of id action)].
Proof. unfold published. rewrite notified. cbn. by rewrite announced_recorded. Qed.

Lemma event_of_id id action : event_of id action !! "policy_id" = Some id.
Proof. done. Qed.

(** The end of every handler that stores a policy. *)
Lemma announces_upsert p s status body text action event tags :
  200 <= status < 300 ->
  announces s (match ps_UpsertPolicy p s with
               | (Err _, s') => fail 500 text s'
               | (Ok _, s') => ({| rs_Status := status; rs_Body := body |},
                                published cfg (pol_PolicyID p) action ++ recorded cfg event tags, s')
               end).
Proof.
  intros Hst. pose proof (psl_upsert p s) as H. destruct (ps_UpsertPolicy p s) as [[[]|err] s']; [|by subst].
  destruct H as (t & pl & Hr & Hr'). unfold announces. rewrite announced_published.
  split_and!; [done|cbn [rs_Status]; lia..|]. by exists (Upsert t p), pl.
Qed.

Lemma announces_delete path s : announces s (delete_policy cfg path s).
Proof.
  unfold delete_policy. case_step; [done|]. set (id := TrimPrefix path policies_prefix).
  pose proof (psl_delete id s) as H. destruct (ps_DeletePolicy id s) as [[[]|err] s']; [|by subst].
  destruct H as (t & pl & Hr & Hr'). unfold announces. rewrite announced_published.
  split_and!; [done|done|done|]. by exists (Remove t id), pl.
Qed.

Lemma announces_rollback path body s : announces s (rollback_policy cfg DecodeVersion path body s).
Proof.
  unfold rollback_policy. destruct ps_history as [hist|]; [|done]. case_step; [done|].
  destruct (DecodeVersion body) as [v|]; [|done].
  destruct (ho_versions hist _ s) as [[|v0 vs]|]; [done| |done].
  destruct (selectVersionForRollback _ v) as [selected|]; [|done].
  by apply (announces_upsert (with_id (ver_Snapshot selected) (id_before path "/rollback"))).
Qed.

Lemma announces_rollout path body s : announces s (rollout_policy cfg DecodeRollout path body s).
Proof.
  unfold rollout_policy. case_step; [done|]. destruct (DecodeRollout body) as [n|]; [|done].
  case_step; [done|]. destruct (ps_GetPolicyByID _ s) as [p|]; [|done]. by apply announces_upsert.
Qed.

Lemma announces_handler now r s :
  announces s (PoliciesHandlerWithConfig cfg DecodePolicy DecodeVersion DecodeRollout now r s).
Proof.
  unfold PoliciesHandlerWithConfig. cbv zeta.
  case_step; [unfold list_policies; destruct (ps_ListPolicies s); [apply announces_reply|done]|].
  case_step; [unfold policy_audit; destruct ps_history; [|done]; case_step; [done|]; by destruct (ho_audit _ _ s)|].
  case_step; [unfold policy_versions; destruct ps_history; [|done]; case_step; [done|]; by destruct (ho_versions _ _ s)|].
  case_step; [unfold get_policy; case_step; [done|]; by destruct (ps_GetPolicyByID _ s)|].
  case_step; [unfold create_policy; destruct (DecodePolicy _); [by apply announces_upsert|done]|].
  case_step; [unfold validate_policy; destruct (DecodePolicy _) as [p|]; [|done];
    destruct (validatePolicy p); [apply announces_reply|done]|].
  case_step; [apply announces_rollback|]. case_step; [apply announces_rollout|].
  case_step; [unfold update_policy; case_step; [done|]; destruct (DecodePolicy _) as [p|]; [|done];
    by apply (announces_upsert (with_id p (TrimPrefix (hr_Path r) policies_prefix)))|].
  case_step; [apply announces_delete|done].
Qed.
End Announced.

(** ** The file store is such a store *)

Section FileInstance.
Context (MarshalIndent : payload -> result string) (Unmarshal : string -> result payload)
        (UnmarshalList : string -> result (list Policy)).
(** The system calls that fail and the instants of the operations. *)
Context (sys : Sys) (t : Stamps).

Instance file_ops : PolicyStoreOps Disk := {|
  ps_ListPolicies := ListPolicies Unmarshal UnmarshalList sys;
  ps_GetPolicyByID id := GetPolicyByID Unmarshal UnmarshalList id sys;
  ps_UpsertPolicy p := UpsertPolicy MarshalIndent Unmarshal UnmarshalList sys t p;
  ps_DeletePolicy id := DeletePolicy MarshalIndent Unmarshal UnmarshalList sys t id;
  ps_history := Some {|
    ho_audit id := ListPolicyAudit Unmarshal UnmarshalList id sys;
    ho_versions id := ListPolicyVersions Unmarshal UnmarshalList id sys |}
|}.

Context (encodable : payload -> Prop).
Context (json_roundtrip : forall pl raw,
  encodable pl -> MarshalIndent pl = Ok raw -> raw <> "" /\ Unmarshal raw = Ok pl).

Lemma reading_inv {A} (f : payload -> result A) d x :
  reading Unmarshal UnmarshalList f sys d = Ok x ->
  exists pl, readPayload Unmarshal UnmarshalList no_failure d = Ok pl /\ f pl = Ok x.
Proof.
  unfold reading. destruct (readPayload Unmarshal UnmarshalList sys d) as [pl|] eqn:E; [|done].
  intros H. exists pl. split; [|done]. revert E. unfold readPayload. destruct d; [|done].
  by destruct (sys_read sys).
Qed.

Lemma file_op_law op d :
  match op_file MarshalIndent Unmarshal UnmarshalList sys op d with
  | (Ok _, d') => exists pl, readPayload Unmarshal UnmarshalList no_failure d = Ok pl /\
      (encodable (op_payload op pl) ->
       readPayload Unmarshal UnmarshalList no_failure d' = Ok (op_payload op pl))
  | (Err _, d') => d' = d
  end.
Proof.
  destruct (op_file _ _ _ sys op d) as [r d'] eqn:E.
  pose proof (op_file_refines MarshalIndent Unmarshal UnmarshalList encodable json_roundtrip sys op d r d' E) as H.
  destruct r; [|done]. destruct H as (pl & Hr & Hw). exists pl. split; [|done].
  destruct (reading_inv (fun pl => Ok pl) d pl) as (pl' & ? & ?); [by unfold reading; rewrite Hr|].
  by simplify_eq.
Qed.

Lemma file_get_law id d p :
  ps_GetPolicyByID id d = Ok p ->
  exists pl, readPayload Unmarshal UnmarshalList no_failure d = Ok pl /\ get_from id pl = Ok p.
Proof. apply reading_inv. Qed.

Lemma file_versions_law hist id d vs :
  ps_history = Some hist -> ho_versions hist id d = Ok vs ->
  exists pl, readPayload Unmarshal UnmarshalList no_failure d = Ok pl /\ vs = versions_of pl id.
Proof.
  intros [= <-] (pl & Hr & Hv)%reading_inv. exists pl. split; [done|]. by simplify_eq.
Qed.

Lemma file_upsert_law p d :
  match ps_UpsertPolicy p d with
  | (Ok _, d') => exists t pl, readPayload Unmarshal UnmarshalList no_failure d = Ok pl /\
      (encodable (upsert_payload t p pl) ->
       readPayload Unmarshal UnmarshalList no_failure d' = Ok (upsert_payload t p pl))
  | (Err _, d') => d' = d
  end.
Proof.
  pose proof (file_op_law (Upsert t p) d) as H. cbn [op_file op_payload] in H. cbn [ps_UpsertPolicy file_ops].
  destruct (UpsertPolicy _ _ _ sys t p d) as [[]]; [|done]. by exists t.
Qed.

Lemma file_delete_law id d :
  match ps_DeletePolicy id d with
  | (Ok _, d') => exists t pl, readPayload Unmarshal UnmarshalList no_failure d = Ok pl /\
      (encodable (delete_payload t id pl) ->
       readPayload Unmarshal UnmarshalList no_failure d' = Ok (delete_payload t id pl))
  | (Err _, d') => d' = d
  end.
Proof.
  pose proof (file_op_law (Remove t id) d) as H. cbn [op_file op_payload] in H. cbn [ps_DeletePolicy file_ops].
  destruct (DeletePolicy _ _ _ sys t id d) as [[]]; [|done]. by exists t.
Qed.

Definition file_laws : PolicyStoreLaws Disk := {|
  psl_read := readPayload Unmarshal UnmarshalList no_failure;
  psl_encodable := encodable;
  psl_get := file_get_law;
  psl_versions := file_versions_law;
  psl_upsert := file_upsert_law;
  psl_delete := file_delete_law
|}.
End FileInstance.

(** C33 (kind: safety).  Every change of a policy is announced, once: a request to the policy endpoints
    either leaves the store as it was and announces nothing, or succeeds, does one
    update or deletion, and tells the notifier the id of the policy it changed; on
    every policy store that keeps the [PolicyStoreLaws]. *)
Theorem changes_announced {S : Type} {HO : PolicyStoreOps S} {HL : PolicyStoreLaws S} (cfg : HandlerConfig)
    (DecodePolicy : string -> result Policy) (DecodeVersion : string -> result int64)
    (DecodeRollout : string -> result Z) (now : Time) (r : HTTPRequest) (s : S) :
  hc_notifier cfg = true ->
  announces s (PoliciesHandlerWithConfig cfg DecodePolicy DecodeVersion DecodeRollout now r s).
Proof. intros Hn. by apply announces_handler. Qed.

(** ** Rolling back *)

Lemma find_version vs n v :
  List.find (fun v => ver_Version v =? n) vs = Some v -> v ∈ vs /\ ver_Version v = n.
Proof. intros [Hin E]%List.find_some. zify_bool. by rewrite list_elem_of_In. Qed.

(** The selected version: the requested one, or the last but one. *)
Definition selected_version (vs : list PolicyVersion) (requested : int64) (v : PolicyVersion) : Prop :=
  if 0 <? requested then v ∈ vs /\ ver_Version v = requested
  else exists l v', vs = l ++ [v; v'].

Lemma selectVersion_spec vs requested :
  match selectVersionForRollback vs requested with
  | Some v => selected_version vs requested v
  | None => forall v, ~ selected_version vs requested v
  end.
Proof.
  unfold selectVersionForRollback, selected_version. destruct (0 <? requested).
  - destruct (List.find _ vs) as [v|] eqn:E; [by apply find_version|].
    intros v [Hv%list_elem_of_In Hn]. apply (List.find_none _ _ E) in Hv. cbn beta in Hv. zify_bool. lia.
  - destruct (length vs <? 2)%nat eqn:El.
    + apply Nat.ltb_lt in El. intros v (l & v' & ->). rewrite length_app in El. simpl in El. lia.
    + apply Nat.ltb_ge in El. destruct (vs !! (length vs - 2)%nat) as [v|] eqn:Hv.
      * exists (take (length vs - 2) vs). pose proof (take_drop_middle vs _ _ Hv) as E.
        assert (Hd : length (drop (Datatypes.S (length vs - 2)) vs) = 1%nat) by (rewrite length_drop; lia).
        destruct (drop (Datatypes.S (length vs - 2)) vs) as [|v' [|]] eqn:Ed; [done| |done].
        exists v'. exact (eq_sym E).
      * apply lookup_ge_None in Hv. lia.
Qed.

(** The path of a rollback leads to [rollback_policy] with the id in it. *)
Lemma rollback_route {S : Type} `{PolicyStoreOps S} cfg DecodePolicy DecodeVersion DecodeRollout now id body (s : S) :
  PoliciesHandlerWithConfig cfg DecodePolicy DecodeVersion DecodeRollout now
    {| hr_Method := "POST"; hr_Path := policies_prefix +:+ id +:+ "/rollback"; hr_Body := body |} s =
  rollback_policy cfg DecodeVersion (policies_prefix +:+ id +:+ "/rollback") body s.
Proof.
  unfold PoliciesHandlerWithConfig. cbn [hr_Path hr_Method hr_Body].
  set (path := policies_prefix +:+ id +:+ "/rollback").
  assert (Hu : under path "/rollback" = true).
  { unfold under, path, HasPrefix. rewrite prefix_app. cbn [andb]. rewrite <- str_app_assoc. apply HasSuffix_app. }
  assert (Hne : forall p, under p "/rollback" = false -> String.eqb path p = false).
  { intros p Hp. apply String.eqb_neq. intros E. rewrite E in Hu. congruence. }
  change (String.eqb "POST" "GET") with false. change (String.eqb "POST" "POST") with true. cbn [andb].
  rewrite !Hne by reflexivity. by rewrite Hu.
Qed.

(** The endpoint on a version that was found. *)
Lemma rollback_found {S : Type} `{PolicyStoreOps S} cfg DecodeVersion id body (s : S) hist requested vs :
  ps_history = Some hist -> id <> "" -> DecodeVersion body = Ok requested -> ho_versions hist id s = Ok vs ->
  rollback_policy cfg DecodeVersion (policies_prefix +:+ id +:+ "/rollback") body s =
  match selectVersionForRollback vs requested with
  | None => fail 404 "policy version not found" s
  | Some v =>
      match ps_UpsertPolicy (with_id (ver_Snapshot v) id) s with
      | (Err _, s') => fail 500 "policy store error" s'
      | (Ok _, s') =>
          reply (BodyPolicy (with_id (ver_Snapshot v) id))
            (published cfg id "rollback" ++
             recorded cfg "policy_rollback" {["policy_id" := id; "version" := FormatInt (ver_Version v)]}) s'
      end
  end.
Proof.
  intros Hh Hid Hdec Hv. unfold rollback_policy, id_before.
  rewrite TrimPrefix_app, TrimSuffix_app, Hdec, Hh, Hv.
  destruct (String.eqb_spec id ""); [done|]. destruct vs; [|done].
  unfold selectVersionForRollback. by destruct (0 <? requested).
Qed.

(** A rollback restores the version asked for: the version with the requested
    number, or the last but one when none is requested, is again the policy stored
    under the id, and the history has grown by it.  Without such a version the
    answer is 404 and nothing changes; when the store fails it is 500 and nothing
    changes. *)
Theorem rollback_restores {S : Type} {HO : PolicyStoreOps S} {HL : PolicyStoreLaws S} (cfg : HandlerConfig)
    (DecodePolicy : string -> result Policy) (DecodeVersion : string -> result int64)
    (DecodeRollout : string -> result Z) (now : Time) (hist : HistoryOps S) (id body : string)
    (requested : int64) (s : S) (vs : list PolicyVersion) :
  ps_history = Some hist -> id <> "" -> DecodeVersion body = Ok requested -> ho_versions hist id s = Ok vs ->
  let '(resp, hooks, s') := PoliciesHandlerWithConfig cfg DecodePolicy DecodeVersion DecodeRollout now
    {| hr_Method := "POST"; hr_Path := policies_prefix +:+ id +:+ "/rollback"; hr_Body := body |} s in
  match selectVersionForRollback vs requested with
  | None => rs_Status resp = 404 /\ s' = s /\ forall v, ~ selected_version vs requested v
  | Some v =>
      let restored := with_id (ver_Snapshot v) id in
      selected_version vs requested v /\
      match (ps_UpsertPolicy restored s).1 with
      | Err _ => rs_Status resp = 500 /\ s' = s
      | Ok _ =>
          rs_Status resp = 200 /\
          exists pl t, psl_read s = Ok pl /\ versions_of pl id = vs /\
            let pl' := upsert_payload t restored pl in
            (psl_encodable pl' -> psl_read s' = Ok pl') /\
            (NoDup (pol_PolicyID <$> pl_Policies pl) -> get_from id pl' = Ok restored) /\
            exists v', versions_of pl' id = vs ++ [v'] /\ ver_Snapshot v' = restored
      end
  end.
Proof.
  intros Hh Hid Hdec Hv. rewrite rollback_route, (rollback_found _ _ _ _ _ _ _ _ Hh Hid Hdec Hv).
  destruct (psl_versions hist id s vs Hh Hv) as (pl & Hr & ->).
  pose proof (selectVersion_spec (versions_of pl id) requested) as Hsel.
  destruct (selectVersionForRollback _ requested) as [v|]; [|done].
  cbv zeta. set (restored := with_id (ver_Snapshot v) id). pose proof (psl_upsert restored s) as Hu.
  destruct (ps_UpsertPolicy restored s) as [[[]|err] s1]; cbn [fst fail reply]; [|split_and!; done].
  split; [done|]. split; [done|]. destruct Hu as (t & pl1 & Hr1 & Hw). assert (pl1 = pl) as -> by congruence.
  exists pl, t. split_and!; [done..| |].
  - intros Hnd. destruct (upsert_policies t restored pl Hnd) as [Hnd' Hin].
    apply get_from_Ok; [done|]. split; [|done]. apply Hin. by left.
  - rewrite versions_upsert. cbn [restored pol_PolicyID with_id]. rewrite String.eqb_refl. by eexists.
Qed.

(** ** A store that never fails *)

#[export] Instance payload_ops : PolicyStoreOps payload := {|
  ps_ListPolicies pl := Ok (pl_Policies pl);
  ps_GetPolicyByID := get_from;
  ps_UpsertPolicy p pl := (Ok tt, upsert_payload noon p pl);
  ps_DeletePolicy id pl := (Ok tt, delete_payload noon id pl);
  ps_history := Some {|
    ho_audit id pl := Ok (List.filter (fun a => String.eqb (aud_PolicyID a) id) (pl_Audits pl));
    ho_versions id pl := Ok (versions_of pl id) |}
|}.

#[export] Instance payload_laws : PolicyStoreLaws payload.
Proof.
  refine {| psl_read := Ok; psl_encodable _ := True |}.
  - intros id pl p H. by exists pl.
  - intros hist id pl vs [= <-] [= <-]. by exists pl.
  - intros p pl. by exists noon, pl.
  - intros id pl. by exists noon, pl.
Defined.

Definition all_hooks : HandlerConfig := {| hc_notifier := true; hc_analytics := true |}.

(** The handler on bodies that all decode to the same policy, version and
    percentage. *)
Definition demo_handler (p : Policy) (n : Z) : HTTPRequest -> payload -> @Reply payload :=
  PoliciesHandlerWithConfig all_hooks (fun _ => Ok p) (fun _ => Ok n) (fun _ => Ok n) 0.

Lemma changes_announced_witness :
  announces empty_payload
    (demo_handler (store_policy "a" 1) 0
       {| hr_Method := "PUT"; hr_Path := "/rlaas/v1/policies/a"; hr_Body := "" |} empty_payload) /\
  announced (demo_handler (store_policy "a" 1) 0
       {| hr_Method := "PUT"; hr_Path := "/rlaas/v1/policies/a"; hr_Body := "" |} empty_payload).1.2
    = [("policy.changed", event_of "a" "update")].
Proof.
  split; [|reflexivity].
  apply (changes_announced all_hooks (fun _ => Ok (store_policy "a" 1)) (fun _ => Ok 0) (fun _ => Ok 0) 0
    {| hr_Method := "PUT"; hr_Path := "/rlaas/v1/policies/a"; hr_Body := "" |} empty_payload). reflexivity.
Defined.

(** Two versions of a policy, rolled back to the first. *)
Definition two_versions : payload :=
  upsert_payload noon (store_policy "a" 2) (upsert_payload noon (store_policy "a" 1) empty_payload).

Lemma rollback_restores_witness :
  rs_Status (demo_handler (store_policy "a" 1) 1
    {| hr_Method := "POST"; hr_Path := policies_prefix +:+ "a" +:+ "/rollback"; hr_Body := "" |} two_versions).1.1
  = 200.
Proof.
  pose proof (rollback_restores all_hooks (fun _ => Ok (store_policy "a" 1)) (fun _ => Ok 1) (fun _ => Ok 1) 0
    {| ho_audit id pl := Ok (List.filter (fun a => String.eqb (aud_PolicyID a) id) (pl_Audits pl));
       ho_versions id pl := Ok (versions_of pl id) |} "a" "" 1 two_versions (versions_of two_versions "a")
    eq_refl ltac:(done) eq_refl eq_refl) as H.
  unfold demo_handler. destruct (PoliciesHandlerWithConfig _ _ _ _ _ _ _) as [[resp hooks] s'].
  destruct (selectVersionForRollback (versions_of two_versions "a") 1) as [v|] eqn:E.
  - destruct H as (_ & H & _). exact H.
  - vm_compute in E. discriminate.
Defined.
