(* ===== verification/LeaseEndpoints.v ===== *)
(** * internal/adapter/http/controlplane.go: acquiring and releasing leases

    The registry of releases and the two handlers that share it.  A release
    function either gives back the lease of a key or does nothing, so the registry
    holds the key, if any.  The bytes of an id and decoding are parameters. *)

From S2P Require Import Prelude GoString GoHash GoFloat GoTime Model Store Common MemoryStore Concurrency.
From S2P Require Import KeyBuilder PolicyCache Engine.
Local Open Scope Z_scope.
Local Open Scope stdpp_scope.
Local Open Scope go_scope.

(** [leaseRegistry]: what the release function of an id gives back. *)
Abbreviation leaseRegistry := (gmap string (option string)).

Definition newLeaseRegistry : leaseRegistry := ∅.

(** [bytes] are the sixteen random bytes, in hexadecimal. *)
Definition put (bytes : string) (fn : option string) (items : leaseRegistry) : string * leaseRegistry :=
  let id := "lease-" +:+ bytes in (id, <[id := fn]> items).

Definition pop (id : string) (items : leaseRegistry) : option (option string) * leaseRegistry :=
  match items !! id with
  | Some fn => (Some fn, delete id items)
  | None => (None, items)
  end.

Inductive LeaseReply :=
| LeaseError (status : Z) (text : string)
| LeaseAcquired (allowed : bool) (leaseID reason : string) (action : ActionType)
| LeaseReleased.

Record LeaseState (W : Type) := {
  ls_items : leaseRegistry;
  ls_cache : MemoryPolicyCache;
  ls_world : W
}.
Arguments Build_LeaseState {_} _ _ _.
Arguments ls_items {_} _.
Arguments ls_cache {_} _.
Arguments ls_world {_} _.

Section LeaseEndpoints.
Context {W : Type} (h : handler W).
Context (visits : gmap string item -> list (string * item)) (e : DefaultEngine)
        (LoadPolicies : string -> result (list Policy)).
Context (DecodeRequest : string -> result RequestContext) (DecodeLeaseID : string -> result string).

(** The acquire handler.  The engine's error is always nil, so its 500 branch is
    never taken. *)
Definition acquire (wall wall' : Time) (bytes body : string) (st : LeaseState W) : LeaseReply * LeaseState W :=
  match DecodeRequest body with
  | Err _ => (LeaseError 400 "invalid request", st)
  | Ok req =>
      let '(p, c) := StartConcurrencyLease visits e LoadPolicies wall wall' req (ls_cache st) in
      let '((d, fn), w) := run h p (ls_world st) in
      let '(id, items) := if dec_Allowed d then put bytes fn (ls_items st) else ("", ls_items st) in
      (LeaseAcquired (dec_Allowed d) id (dec_Reason d) (dec_Action d), Build_LeaseState items c w)
  end.

(** The release handler. *)
Definition release (body : string) (st : LeaseState W) : LeaseReply * LeaseState W :=
  match DecodeLeaseID body with
  | Err _ => (LeaseError 400 "invalid request", st)
  | Ok id =>
      if String.eqb id "" then (LeaseError 400 "invalid request", st)
      else match pop id (ls_items st) with
      | (None, _) => (LeaseError 404 "lease not found", st)
      | (Some None, items) => (LeaseReleased, Build_LeaseState items (ls_cache st) (ls_world st))
      | (Some (Some key), items) =>
          let '(r, w) := run h (call (ReleaseLease key)) (ls_world st) in
          (match r with Ok _ => LeaseReleased | Err _ => LeaseError 500 "release failed" end,
           Build_LeaseState items (ls_cache st) w)
      end
  end.

(** [AcquireHandler] and [ReleaseHandler] are the same handlers, but each on a registry
    of its own. *)
Definition AcquireHandler (wall wall' : Time) (bytes body : string) (st : LeaseState W) : LeaseReply * LeaseState W :=
  acquire wall wall' bytes body st.
Definition ReleaseHandler (body : string) (st : LeaseState W) : LeaseReply * LeaseState W := release body st.

(** [NewAcquireReleaseHandlers]: the registry both handlers share. *)
Definition NewAcquireReleaseHandlers (c : MemoryPolicyCache) (w : W) : LeaseState W := Build_LeaseState newLeaseRegistry c w.
End LeaseEndpoints.

(** Leases over HTTP: when the winning policy limits concurrency and has a free slot,
    acquiring answers with a new lease id and takes the slot; releasing that id
    gives the slot back; releasing it again answers 404 and changes nothing. *)
Theorem http_lease_roundtrip visits (e : DefaultEngine) (Load : string -> result (list Policy))
    (DecodeRequest : string -> result RequestContext) (DecodeLeaseID : string -> result string)
    (wall wall' : Time) (bytes body body' : string) (st : LeaseState World) (req : RequestContext)
    (policy : Policy) (k : string) :
  let limit := lease_limit (pol_Algorithm policy) in
  let slots st := vi_value (lease_item (ls_world st) (leaseKey k)) in
  DecodeRequest body = Ok req -> DecodeLeaseID body' = Ok ("lease-" +:+ bytes) ->
  (pickPolicy visits e Load wall req (ls_cache st)).1 = Ok (Some (policy, k)) ->
  cfg_Type (pol_Algorithm policy) = AlgoConcurrency ->
  wf_store (w_store (ls_world st)) -> 0 <= slots st < limit -> limit <= maxInt64 ->
  ls_items st !! ("lease-" +:+ bytes) = None ->
  let '(reply1, st1) := acquire memory visits e Load DecodeRequest wall wall' bytes body st in
  let '(reply2, st2) := release memory DecodeLeaseID body' st1 in
  let '(reply3, st3) := release memory DecodeLeaseID body' st2 in
  (exists reason action, reply1 = LeaseAcquired true ("lease-" +:+ bytes) reason action) /\
  slots st1 = slots st + 1 /\
  reply2 = LeaseReleased /\ slots st2 = slots st /\ ls_items st2 = ls_items st /\
  reply3 = LeaseError 404 "lease not found" /\ st3 = st2.
Proof.
  intros limit slots Hreq Hid Hp Hty Hwf Hv Hl Hnew. unfold acquire. rewrite Hreq.
  pose proof (StartConcurrencyLease_run memory visits e Load wall wall' req (ls_cache st) policy k (ls_world st) Hp Hty) as Hr.
  destruct (StartConcurrencyLease _ _ _ _ _ _ _) as [p c]. cbn [fst] in Hr. rewrite Hr. fold limit.
  pose proof (memory_AcquireLease (ls_world st) (leaseKey k) limit (lease_ttl (pol_Algorithm policy)) Hwf ltac:(lia)) as Ha.
  pose proof (memory_wf (AcquireLease (leaseKey k) limit (lease_ttl (pol_Algorithm policy))) (ls_world st) Hwf) as Hwf1.
  destruct (memory _ (AcquireLease _ _ _) _) as [r w1]. destruct Ha as [-> Hit].
  change (vi_value (lease_item (ls_world st) (leaseKey k))) with (slots st) in Hit |- *.
  rewrite (proj2 (Z.leb_gt limit (slots st))) in Hit |- * by lia. cbn [lease_decision dec_Allowed orb put].
  unfold release. rewrite Hid. change (String.eqb ("lease-" +:+ bytes) "") with false. cbn [ls_items ls_cache ls_world].
  unfold pop. rewrite lookup_insert_eq. unfold call. cbn [run].
  pose proof (memory_ReleaseLease w1 (leaseKey k) Hwf1) as Hrel.
  destruct (memory _ (ReleaseLease _) w1) as [r w2]. destruct Hrel as [-> Hit2].
  rewrite delete_insert_id by done. cbn [ls_items]. rewrite Hnew.
  assert (H1 : vi_value (lease_item w1 (leaseKey k)) = slots st + 1) by (rewrite Hit; cbn [vi_value]; unwrap; lia).
  split; [by do 2 eexists|]. unfold slots in *. cbn [ls_world]. split_and!; [done|done| |done|done|done].
  rewrite Hit2, H1. cbn [vi_value]. rewrite (proj2 (Z.ltb_lt 0 _)) by lia. lia.
Qed.

Definition concurrency_policy : Policy := lease_policy 2.
Definition lease_start : LeaseState World :=
  {| ls_items := newLeaseRegistry; ls_cache := demo_cache; ls_world := lease_world |}.
Definition load_lease (namespace : string) : result (list Policy) := Ok [concurrency_policy].
Definition decode_id (body : string) : result string := Ok body.

Lemma http_lease_roundtrip_witness :
  exists k reason action,
    (acquire memory map_to_list demo_engine load_lease (fun _ => Ok (mkRequest 1)) 1000 1000 "00" "" lease_start).1
      = LeaseAcquired true ("lease-" +:+ "00") reason action /\
    vi_value (lease_item (ls_world (acquire memory map_to_list demo_engine load_lease (fun _ => Ok (mkRequest 1))
      1000 1000 "00" "" lease_start).2) (leaseKey k)) = 1.
Proof.
  set (k := "rlaas").
  assert (Hp : (pickPolicy map_to_list demo_engine load_lease 1000 (mkRequest 1) demo_cache).1
    = Ok (Some (concurrency_policy, k))) by (vm_compute; reflexivity).
  assert (Hs : 0 <= vi_value (lease_item lease_world (leaseKey k)) < lease_limit (pol_Algorithm concurrency_policy))
    by (vm_compute; done).
  pose proof (http_lease_roundtrip map_to_list demo_engine load_lease (fun _ => Ok (mkRequest 1)) decode_id 1000 1000
    "00" "" ("lease-" +:+ "00") lease_start (mkRequest 1) concurrency_policy k eq_refl eq_refl Hp eq_refl
    (NewSharded_wf 1 eq_refl) Hs ltac:(vm_compute; done) eq_refl) as H.
  exists k. destruct (acquire _ _ _ _ _ _ _ _ _ _) as [r1 st1]. destruct (release _ _ _ st1) as [r2 st2].
  destruct (release _ _ _ st2) as [r3 st3]. destruct H as ((reason & action & ->) & H1 & _).
  exists reason, action. split; [reflexivity|]. cbn [snd]. rewrite H1. by vm_compute.
Defined.

(** ** What the endpoints do not do *)

(** Nothing is ever put into the registry of [ReleaseHandler], so it finds no lease and
    changes nothing. *)
Example ReleaseHandler_finds_nothing {W} (h : handler W) DecodeLeaseID body c w :
  let st := NewAcquireReleaseHandlers c w in
  exists status text, (status = 400 \/ status = 404) /\ ReleaseHandler h DecodeLeaseID body st = (LeaseError status text, st).
Proof.
  intros st. unfold ReleaseHandler, release. destruct (DecodeLeaseID body) as [id|]; [|by eauto].
  destruct (String.eqb id ""); [by eauto|]. unfold pop. cbn [st NewAcquireReleaseHandlers ls_items].
  unfold newLeaseRegistry. rewrite lookup_empty. by eauto.
Qed.

(** A store that is down. *)
Definition down : handler unit := fun R op w =>
  (match op in CounterOp R return R with
   | TimeNow => 0
   | Increment _ _ _ | Store.Get _ | CountAfter _ _ => Err "unavailable"
   | SetVal _ _ _ | Delete _ | AddTimestamp _ _ _ | TrimBefore _ _ | ReleaseLease _ => Err "unavailable"
   | CompareAndSwap _ _ _ _ => Err "unavailable"
   | CheckAndAddTimestamps _ _ _ _ _ _ => Err "unavailable"
   | AcquireLease _ _ _ => Err "unavailable"
   end, w).

(** A release that fails forgets the lease: it cannot be tried again. *)
Example failed_release_forgets :
  let st := Build_LeaseState {["lease-00" := Some "k:concurrency"]} demo_cache tt in
  (release down decode_id "lease-00" st).1 = LeaseError 500 "release failed" /\
  (release down decode_id "lease-00" (release down decode_id "lease-00" st).2).1 = LeaseError 404 "lease not found".
Proof. by vm_compute. Qed.
