(* ===== verification/Analytics.v ===== *)
(** * internal/analytics: the usage counters and the audit log

    [Recorder] counts events and tags, up to a number of distinct keys.
    [AsyncAuditLogger] passes decision records to a slower logger through a
    buffered channel; it is a step relation, because callers, the loop and [Close]
    run concurrently. *)

From S2P Require Import Prelude GoString GoFloat GoTime Model.
Local Open Scope Z_scope.
Local Open Scope stdpp_scope.
Local Open Scope go_scope.

(** ** The recorder *)

Record Recorder := {
  rec_eventCount : gmap string int64;
  rec_tagCount : gmap string int64;
  rec_total : int64
}.

Definition NewRecorder : Recorder := {| rec_eventCount := ∅; rec_tagCount := ∅; rec_total := 0 |}.

Definition maxAnalyticsKeys : Z := 50000.

(** [m[key]++], unless the key is new and the map is full. *)
Definition count_key (key : string) (m : gmap string int64) : gmap string int64 :=
  match m !! key with
  | Some n => <[key := n +! 1]> m
  | None => if Z.of_nat (size m) <? maxAnalyticsKeys then <[key := 1]> m else m
  end.

(** [tags] are the entries of the map, in the order they are visited. *)
Definition Record_ (event : string) (tags : list (string * string)) (r : Recorder) : Recorder :=
  {| rec_eventCount := count_key event (rec_eventCount r);
     rec_tagCount := foldl (fun m kv => count_key (kv.1 +:+ "=" +:+ kv.2) m) (rec_tagCount r) tags;
     rec_total := rec_total r +! 1 |}.

Definition Snapshot (r : Recorder) : gmap string int64 := rec_eventCount r.
Definition SnapshotTags (r : Recorder) : gmap string int64 := rec_tagCount r.
Definition Total (r : Recorder) : int64 := rec_total r.

Definition record_all (events : list (string * list (string * string))) (r : Recorder) : Recorder :=
  foldl (fun r e => Record_ e.1 e.2 r) r events.

(** How often a key has been counted. *)
Definition occurrences (key : string) (keys : list string) : Z := Z.of_nat (count_occ String.string_dec keys key).

Lemma count_key_size key m :
  Z.of_nat (size m) <= maxAnalyticsKeys -> Z.of_nat (size (count_key key m)) <= maxAnalyticsKeys.
Proof.
  intros Hm. unfold count_key. destruct (m !! key) as [n|] eqn:E.
  - by rewrite map_size_insert, E.
  - case_step; [|done]. rewrite map_size_insert, E. zify_bool. simpl. lia.
Qed.

(** The keys of [m] have been counted exactly, and a key that is missing has not been
    seen, unless the map is full. *)
Definition counts (m : gmap string int64) (keys : list string) : Prop :=
  (forall key n, m !! key = Some n -> n = occurrences key keys) /\
  (Z.of_nat (size m) < maxAnalyticsKeys -> forall key, m !! key = None -> occurrences key keys = 0).

Lemma occurrences_snoc key keys x :
  occurrences key (keys ++ [x]) = occurrences key keys + (if decide (x = key) then 1 else 0).
Proof.
  unfold occurrences. rewrite count_occ_app. cbn [count_occ].
  destruct (String.string_dec x key), (decide (x = key)); done || lia.
Qed.

Lemma count_key_counts key m keys :
  Z.of_nat (length keys) < maxInt64 -> counts m keys -> counts (count_key key m) (keys ++ [key]).
Proof.
  intros Hlen [H1 H2]. unfold count_key.
  assert (Hocc : forall k, 0 <= occurrences k keys <= Z.of_nat (length keys)).
  { intros k. unfold occurrences. pose proof (count_occ_bound String.string_dec k keys). lia. }
  destruct (m !! key) as [n|] eqn:E.
  - split.
    + intros k v. rewrite occurrences_snoc. destruct (decide (key = k)) as [<-|Hne].
      * rewrite lookup_insert_eq. intros [= <-]. rewrite (H1 key n E). pose proof (Hocc key).
        rewrite wrap64_small by (unfold in_int64, minInt64; lia). lia.
      * rewrite lookup_insert_ne by done. intros Hv. rewrite (H1 k v Hv). lia.
    + rewrite map_size_insert, E. intros Hs k. rewrite lookup_insert_None. intros [Hk Hne].
      rewrite occurrences_snoc, decide_False by done. rewrite H2 by done. lia.
  - case_step; zify_bool.
    + split.
      * intros k v. rewrite occurrences_snoc. destruct (decide (key = k)) as [<-|Hne].
        -- rewrite lookup_insert_eq. intros [= <-]. rewrite H2 by done. lia.
        -- rewrite lookup_insert_ne by done. intros Hv. rewrite (H1 k v Hv). lia.
      * intros _ k. rewrite lookup_insert_None. intros [Hk Hne].
        rewrite occurrences_snoc, decide_False by done. rewrite H2 by done. lia.
    + split; [|lia]. intros k v Hv. rewrite occurrences_snoc, decide_False by congruence. rewrite (H1 k v Hv). lia.
Qed.

Lemma record_all_snoc events e r : record_all (events ++ [e]) r = Record_ e.1 e.2 (record_all events r).
Proof. unfold record_all. by rewrite foldl_app. Qed.

Lemma recorder_exact (events : list (string * list (string * string))) :
  Z.of_nat (length events) < maxInt64 ->
  let r := record_all events NewRecorder in
  Total r = Z.of_nat (length events) /\
  Z.of_nat (size (Snapshot r)) <= maxAnalyticsKeys /\ Z.of_nat (size (SnapshotTags r)) <= maxAnalyticsKeys /\
  counts (Snapshot r) (fst <$> events).
Proof.
  intros Hlen. induction events as [|e events IH] using rev_ind.
  { by split_and!. }
  rewrite length_app in Hlen. simpl in Hlen. destruct IH as (HT & HE & HG & HC); [lia|].
  rewrite record_all_snoc, length_app, fmap_app. unfold Total, Snapshot, SnapshotTags, Record_ in *.
  cbn [rec_total rec_eventCount rec_tagCount length fmap list_fmap]. split_and!.
  - rewrite HT, wrap64_small by (unfold in_int64, minInt64; lia). lia.
  - by apply count_key_size.
  - revert HG. generalize (rec_tagCount (record_all events NewRecorder)). generalize e.2.
    intros tags. induction tags as [|kv tags IH]; intros m Hm; [done|]. cbn [foldl]. by apply IH, count_key_size.
  - apply count_key_counts; [rewrite length_fmap; lia|done].
Qed.

(** ** The asynchronous audit logger *)

Record DecisionRecord := {
  dr_Timestamp : Time; dr_RequestID : string; dr_TenantID : string; dr_PolicyID : string;
  dr_Action : string; dr_Allowed : bool; dr_Reason : string; dr_SourceIP : string;
  dr_Endpoint : string; dr_LatencyUs : int64; dr_Tags : GoMap
}.

(** Where the loop is: waiting in its select, writing a record it received, draining
    the channel after the stop, writing while draining, or finished. *)
Inductive loop_state :=
| Waiting
| Writing (rec : DecisionRecord)
| Draining
| DrainWriting (rec : DecisionRecord)
| Finished.

Record AsyncAuditLogger := {
  al_ch : list DecisionRecord;
  al_size : nat;
  al_stop : bool;
  al_loop : loop_state;
  (** what the inner logger has been given, whatever its errors *)
  al_written : list DecisionRecord;
  (** the records whose [Log] has returned nil, and those of them before [Close] *)
  al_accepted : list DecisionRecord;
  al_before : option (list DecisionRecord)
}.

Definition NewAsyncAuditLogger (bufSize : Z) : AsyncAuditLogger :=
  {| al_ch := []; al_size := Z.to_nat (if bufSize <=? 0 then 8192 else bufSize); al_stop := false;
     al_loop := Waiting; al_written := []; al_accepted := []; al_before := None |}.

(** [Log]: never blocks; fails when the buffer is full. *)
Definition Log (rec : DecisionRecord) (a : AsyncAuditLogger) : result unit * AsyncAuditLogger :=
  if (length (al_ch a) <? al_size a)%nat
  then (Ok tt, {| al_ch := al_ch a ++ [rec]; al_size := al_size a; al_stop := al_stop a; al_loop := al_loop a;
                  al_written := al_written a; al_accepted := al_accepted a ++ [rec]; al_before := al_before a |})
  else (Err "audit buffer full", a).

(** The beginning of [Close], which then waits for the loop to finish; closing a
    closed channel panics, so it is called once. *)
Definition close_stop (a : AsyncAuditLogger) : AsyncAuditLogger :=
  {| al_ch := al_ch a; al_size := al_size a; al_stop := true; al_loop := al_loop a;
     al_written := al_written a; al_accepted := al_accepted a; al_before := Some (al_accepted a) |}.

(** The state after a step of the loop, with what is left in the channel. *)
Definition looped (ch : list DecisionRecord) (l : loop_state) (written : list DecisionRecord)
    (a : AsyncAuditLogger) : AsyncAuditLogger :=
  {| al_ch := ch; al_size := al_size a; al_stop := al_stop a; al_loop := l;
     al_written := written; al_accepted := al_accepted a; al_before := al_before a |}.

Inductive audit_step : AsyncAuditLogger -> AsyncAuditLogger -> Prop :=
| audit_log rec a : audit_step a (Log rec a).2
| audit_close a : al_stop a = false -> audit_step a (close_stop a)
| audit_receive a rec ch : al_loop a = Waiting -> al_ch a = rec :: ch ->
    audit_step a (looped ch (Writing rec) (al_written a) a)
| audit_write a rec : al_loop a = Writing rec ->
    audit_step a (looped (al_ch a) Waiting (al_written a ++ [rec]) a)
| audit_stopped a : al_loop a = Waiting -> al_stop a = true ->
    audit_step a (looped (al_ch a) Draining (al_written a) a)
| audit_drain a rec ch : al_loop a = Draining -> al_ch a = rec :: ch ->
    audit_step a (looped ch (DrainWriting rec) (al_written a) a)
| audit_drain_write a rec : al_loop a = DrainWriting rec ->
    audit_step a (looped (al_ch a) Draining (al_written a ++ [rec]) a)
| audit_finish a : al_loop a = Draining -> al_ch a = [] ->
    audit_step a (looped [] Finished (al_written a) a).

(** The record the loop has received and not yet written. *)
Definition held (l : loop_state) : list DecisionRecord :=
  match l with Writing rec | DrainWriting rec => [rec] | _ => [] end.

(** Accepted records are written, held or in the channel, in order; and once the
    loop has finished, all those accepted before [Close] are written. *)
Record audit_inv (a : AsyncAuditLogger) : Prop := {
  ai_split : al_accepted a = al_written a ++ held (al_loop a) ++ al_ch a;
  ai_before before : al_before a = Some before -> before `prefix_of` al_accepted a;
  ai_room : (length (al_ch a) <= al_size a)%nat;
  ai_finished before : al_loop a = Finished -> al_before a = Some before -> before `prefix_of` al_written a;
  ai_stop : al_loop a = Finished \/ al_loop a = Draining \/ (exists rec, al_loop a = DrainWriting rec) ->
    is_Some (al_before a);
  ai_closed : al_stop a = true <-> is_Some (al_before a)
}.

Lemma audit_step_inv a a' : audit_step a a' -> audit_inv a -> audit_inv a'.
Proof.
  intros Hs [H1 H2 H3 H4 H5 H6]. destruct Hs as [rec a|a Hst|a rec ch Hl Hc|a rec Hl|a Hl Hst|a rec ch Hl Hc|a rec Hl|a Hl Hc];
    try rewrite Hl in *; cbn [held] in *.
  - unfold Log. destruct (Nat.ltb_spec (length (al_ch a)) (al_size a)) as [Hlt|]; [|done]. cbn [snd].
    split; cbn [al_accepted al_written al_loop al_ch al_before al_size al_stop]; [| | |done..].
    + by rewrite H1, <- !app_assoc.
    + intros before Hb. etrans; [by apply H2|]. by eexists.
    + rewrite length_app. simpl. lia.
  - split; cbn [close_stop al_accepted al_written al_loop al_ch al_before al_size al_stop]; [done| |done| |by eexists|done].
    + by intros before [= <-].
    + intros before Hl [= <-]. destruct (H5 (or_introl Hl)) as [b Hb]. rewrite Hst in H6.
      destruct H6 as [_ H6]. discriminate H6. by eexists.
  - split; cbn [looped al_accepted al_written al_loop al_ch al_before al_size al_stop held]; [| done| |done| |done].
    + by rewrite H1, Hc.
    + rewrite Hc in H3. simpl in H3. lia.
    + intros [?|[?|[? ?]]]; done.
  - split; cbn [looped al_accepted al_written al_loop al_ch al_before al_size al_stop held]; [| done|done|done| |done].
    + by rewrite H1, <- app_assoc.
    + intros [?|[?|[? ?]]]; done.
  - split; cbn [looped al_accepted al_written al_loop al_ch al_before al_size al_stop held]; [done|done|done|done| |done].
    intros _. by apply H6.
  - split; cbn [looped al_accepted al_written al_loop al_ch al_before al_size al_stop held]; [| done| |done| |done].
    + by rewrite H1, Hc.
    + rewrite Hc in H3. simpl in H3. lia.
    + intros _. apply H5. auto.
  - split; cbn [looped al_accepted al_written al_loop al_ch al_before al_size al_stop held]; [| done|done|done| |done].
    + by rewrite H1, <- app_assoc.
    + intros _. apply H5. eauto.
  - split; cbn [looped al_accepted al_written al_loop al_ch al_before al_size al_stop held]; [| done| | | |done].
    + by rewrite H1, Hc.
    + simpl. lia.
    + intros before _ Hb. rewrite Hc in H1. cbn [app] in H1. rewrite app_nil_r in H1. rewrite <- H1. by apply H2.
    + intros _. apply H5. auto.
Qed.

Lemma audit_reachable n a : rtc audit_step (NewAsyncAuditLogger n) a -> audit_inv a.
Proof.
  apply (rtc_ind_r audit_inv); [|intros; by eapply audit_step_inv].
  split; cbn [NewAsyncAuditLogger al_accepted al_written al_loop al_ch al_before al_size al_stop held]; try done.
  - simpl. lia.
  - intros [?|[?|[? ?]]]; done.
Qed.

Lemma drain_finishes a : al_loop a = Draining -> exists a', rtc audit_step a a' /\ al_loop a' = Finished.
Proof.
  remember (al_ch a) as ch eqn:Ec. revert a Ec. induction ch as [|rec ch IH]; intros a Ec Hl.
  - eexists. split; [apply rtc_once; by apply audit_finish|done].
  - destruct (IH (looped ch Draining (al_written a ++ [rec]) a)) as (a' & Hr & Hf); [done..|].
    exists a'. split; [|done]. eapply rtc_l; [by eapply audit_drain|]. eapply rtc_l; [|exact Hr].
    by apply (audit_drain_write (looped ch (DrainWriting rec) (al_written a) a) rec).
Qed.

Lemma stopped_finishes a : al_stop a = true -> exists a', rtc audit_step a a' /\ al_loop a' = Finished.
Proof.
  intros Hst.
  assert (Hw : forall b, al_stop b = true -> al_loop b = Waiting -> exists a', rtc audit_step b a' /\ al_loop a' = Finished).
  { intros b Hb Hl. destruct (drain_finishes (looped (al_ch b) Draining (al_written b) b) eq_refl) as (a' & Hr & Hf).
    exists a'. split; [|done]. eapply rtc_l; [by apply audit_stopped|exact Hr]. }
  destruct (al_loop a) as [|rec| |rec|] eqn:Hl; [by apply Hw| | | |by exists a].
  - destruct (Hw (looped (al_ch a) Waiting (al_written a ++ [rec]) a) Hst eq_refl) as (a' & Hr & Hf).
    exists a'. split; [|done]. eapply rtc_l; [by eapply audit_write|exact Hr].
  - by apply drain_finishes.
  - destruct (drain_finishes (looped (al_ch a) Draining (al_written a ++ [rec]) a) eq_refl) as (a' & Hr & Hf).
    exists a'. split; [|done]. eapply rtc_l; [by eapply audit_drain_write|exact Hr].
Qed.

(** C35 (kind: safety).  The audit log keeps what it accepts: however callers, the loop and [Close] are
    interleaved, records are written once and in the order they were accepted, the
    buffer never exceeds its size, and once [Close] has been called the loop can
    always finish, with every record accepted before [Close] written. *)
Theorem audit_keeps_accepted (bufSize : Z) (a : AsyncAuditLogger) :
  rtc audit_step (NewAsyncAuditLogger bufSize) a ->
  al_written a `prefix_of` al_accepted a /\
  Z.of_nat (length (al_ch a)) <= (if bufSize <=? 0 then 8192 else bufSize) /\
  forall before, al_before a = Some before ->
    (al_loop a = Finished -> before `prefix_of` al_written a) /\
    exists a', rtc audit_step a a' /\ al_loop a' = Finished.
Proof.
  intros Hr. pose proof (audit_reachable _ _ Hr) as [H1 H2 H3 H4 H5 H6]. split_and!.
  - rewrite H1. by eexists.
  - assert (Hs : al_size a = Z.to_nat (if bufSize <=? 0 then 8192 else bufSize)).
    { refine (rtc_ind_r (fun a => al_size a = Z.to_nat (if bufSize <=? 0 then 8192 else bufSize)) _ _ _ _ Hr); [done|].
      intros y z _ Hs IH. destruct Hs; try done. unfold Log. by destruct (_ <? _)%nat. }
    case_step; zify_bool; lia.
  - intros before Hb. split; [by intros; apply H4|]. apply stopped_finishes, H6. by eexists.
Qed.

Definition demo_record (id : string) : DecisionRecord :=
  {| dr_Timestamp := 0; dr_RequestID := id; dr_TenantID := ""; dr_PolicyID := ""; dr_Action := "allow";
     dr_Allowed := true; dr_Reason := ""; dr_SourceIP := ""; dr_Endpoint := ""; dr_LatencyUs := 0; dr_Tags := None |}.

(** One record logged, then [Close]. *)
Definition closing : AsyncAuditLogger := close_stop (Log (demo_record "1") (NewAsyncAuditLogger 1)).2.

Lemma closing_reachable : rtc audit_step (NewAsyncAuditLogger 1) closing.
Proof. eapply rtc_l; [apply audit_log|]. apply rtc_once. by apply audit_close. Qed.

Lemma audit_keeps_accepted_witness :
  exists a', rtc audit_step closing a' /\ al_loop a' = Finished /\ al_before closing = Some [demo_record "1"].
Proof.
  destruct (audit_keeps_accepted 1 closing closing_reachable) as (_ & _ & H).
  destruct (H [demo_record "1"] eq_refl) as [_ (a' & Hr & Hf)]. exists a'. split; [exact Hr|]. split; [exact Hf|].
  reflexivity.
Defined.

(** After [Close] has returned, [Log] still answers nil, and the record is never
    written. *)
Example log_after_close_lost :
  exists a, rtc audit_step (NewAsyncAuditLogger 1) a /\ al_loop a = Finished /\
    (Log (demo_record "2") a).1 = Ok tt /\
    forall a', rtc audit_step (Log (demo_record "2") a).2 a' -> al_written a' = [].
Proof.
  set (a0 := close_stop (NewAsyncAuditLogger 1)).
  set (a1 := looped (al_ch a0) Draining (al_written a0) a0). set (a2 := looped [] Finished (al_written a1) a1).
  exists a2. split_and!; [|done|done|].
  - eapply rtc_l; [by apply audit_close|]. eapply rtc_l; [by apply audit_stopped|].
    apply rtc_once. by apply (audit_finish a1).
  - intros a' Hr. enough (al_loop a' = Finished /\ al_written a' = []) by tauto.
    refine (rtc_ind_r (fun a => al_loop a = Finished /\ al_written a = []) _ _ _ _ Hr); [done|].
    intros y z _ Hs [Hl Hw]. destruct Hs as [rec a| | | | | | |]; try congruence; [|done].
    unfold Log. by destruct (_ <? _)%nat.
Qed.
