(* ===== verification/Middleware.v ===== *)
(** * internal/adapter/http/middleware.go and internal/adapter/grpc/interceptor.go

    What the HTTP middleware, the check endpoint and the gRPC interceptor do with the
    decision on a request.  A client that goes away while its request is delayed, and
    the instants at which headers are written, are parameters. *)

From S2P Require Import Prelude GoString GoFloat GoTime Model Store Common Provider.
Local Open Scope Z_scope.
Local Open Scope stdpp_scope.

(** The parts of an [http.Request] the middleware reads; [ht_Header] is [Header.Get]. *)
Record HTTPCall := {
  ht_Header : string -> string; ht_Path : string; ht_Method : string; ht_Host : string; ht_RemoteAddr : string
}.

Definition sourceIP (r : HTTPCall) : string :=
  let xff := ht_Header r "X-Forwarded-For" in
  if String.eqb xff "" then ht_RemoteAddr r
  else TrimSpace (default "" (head (Split xff ","))).

Definition request_of (r : HTTPCall) : RequestContext :=
  {| req_RequestID := ht_Header r "X-Request-Id"; req_OrgID := ht_Header r "X-Org-Id";
     req_TenantID := ht_Header r "X-Tenant-Id"; req_Application := ht_Header r "X-Application";
     req_Service := ht_Header r "X-Service"; req_Environment := ""; req_SignalType := "http";
     req_Operation := ht_Path r; req_Endpoint := ht_Path r; req_Method := ht_Method r;
     req_UserID := ht_Header r "X-User-Id"; req_APIKey := ht_Header r "X-Api-Key";
     req_ClientID := ht_Header r "X-Client-Id"; req_SourceIP := sourceIP r; req_Region := "";
     req_Resource := ""; req_Severity := ""; req_SpanName := ""; req_Topic := ""; req_ConsumerGroup := "";
     req_JobType := ""; req_Quantity := 0; req_Priority := ""; req_Timestamp := zeroTime;
     req_Tags := Some {["host" := ht_Host r]}; req_Attributes := None |}.

Definition int64ToString (v : int64) : string := FormatInt v.

(** The rate limit headers, written when the clock shows [t]. *)
Definition setRateLimitHeaders (t : Time) (d : Decision) (w : gmap string string) : gmap string string :=
  let w := <["X-RateLimit-Remaining" := int64ToString (dec_Remaining d)]> w in
  let w := if String.eqb (dec_MatchedPolicyID d) "" then w
           else <["RateLimit-Policy" := dec_MatchedPolicyID d]> w in
  let w := <["RateLimit-Remaining" := int64ToString (dec_Remaining d)]> w in
  if IsZero (dec_ResetAt d) then w
  else
    let delta := Seconds (time_Sub (dec_ResetAt d) t) in
    let delta := if fltb delta fzero then fzero else delta in
    <["RateLimit-Reset" := FormatInt (int64_of_float delta)]> w.

(** The actions that refuse a request. *)
Definition refuses (act : ActionType) : bool :=
  String.eqb act ActionDeny || String.eqb act ActionDrop || String.eqb act ActionDropLowPriority.

(** What becomes of a request: an error, a refusal, a client that gave up, or the
    next handler after a delay. *)
Inductive Outcome :=
| Failed (status : Z)
| Refused (status : Z) (headers : gmap string string)
| Abandoned
| Served (delay : Duration) (headers : gmap string string).

Definition maxDelay : Duration := 30 * Second.

(** The wait of a delayed request. *)
Definition delay_of (d : Decision) : Duration :=
  if String.eqb (dec_Action d) ActionDelay
  then (let delay := if maxDelay <? dec_DelayFor d then maxDelay else dec_DelayFor d in
        if 0 <? delay then delay else 0)
  else 0.

(** [Retry-After], in whole seconds and at least one. *)
Definition retry_seconds (d : Decision) : int64 :=
  let n := int64_of_float (Seconds (dec_RetryAfter d)) in if n <? 1 then 1 else n.

(** The handler, after the evaluator has answered. *)
Definition Handler (t : Time) (gone : bool) (answer : Answer) : Outcome :=
  match answer with
  | (_, Some _) => Failed 500
  | (d, None) =>
      if refuses (dec_Action d)
      then Refused 429 (<["Retry-After" := FormatInt (retry_seconds d)]> (setRateLimitHeaders t d ∅))
      else if gone && (0 <? delay_of d) then Abandoned
      else Served (delay_of d) (setRateLimitHeaders t d ∅)
  end.

Definition serve (eval : Evaluator) (t : Time) (gone : bool) (r : HTTPCall) : prog Outcome :=
  a ← eval (request_of r); mret (Handler t gone a).

(** The check endpoint, on a body that decodes to [req]. *)
Definition CheckHandler (eval : Evaluator) (t : Time) (decoded : result RequestContext) : prog (Outcome * option Decision) :=
  match decoded with
  | Err _ => mret (Failed 400, None)
  | Ok req =>
      a ← eval req;
      mret (match a with
            | (_, Some _) => (Failed 500, None)
            | (d, None) => (Served 0 (<["Content-Type" := "application/json"]> (setRateLimitHeaders t d ∅)), Some d)
            end)
  end.

(** ** gRPC *)

Definition grpc_request (fullMethod : string) : RequestContext :=
  {| req_RequestID := ""; req_OrgID := ""; req_TenantID := ""; req_Application := ""; req_Service := "";
     req_Environment := ""; req_SignalType := "grpc"; req_Operation := fullMethod; req_Endpoint := fullMethod;
     req_Method := "UNARY"; req_UserID := ""; req_APIKey := ""; req_ClientID := ""; req_SourceIP := "";
     req_Region := ""; req_Resource := ""; req_Severity := ""; req_SpanName := ""; req_Topic := "";
     req_ConsumerGroup := ""; req_JobType := ""; req_Quantity := 0; req_Priority := "";
     req_Timestamp := zeroTime; req_Tags := None; req_Attributes := None |}.

(** [None] calls the handler; otherwise the status code of the error. *)
Definition codes_Internal : Z := 13.
Definition codes_ResourceExhausted : Z := 8.

Definition intercept (answer : Answer) : option Z :=
  match answer with
  | (_, Some _) => Some codes_Internal
  | (d, None) => if negb (dec_Allowed d) && refuses (dec_Action d) then Some codes_ResourceExhausted else None
  end.

Definition UnaryServerInterceptor (eval : Evaluator) (fullMethod : string) : prog (option Z) :=
  a ← eval (grpc_request fullMethod); mret (intercept a).

(** ** What gets through *)

Lemma delay_of_bounds d : 0 <= delay_of d <= maxDelay.
Proof. unfold delay_of, maxDelay, Second. repeat case_step; zify_bool; lia. Qed.

Lemma retry_seconds_pos d : 1 <= retry_seconds d.
Proof. unfold retry_seconds. case_step; zify_bool; lia. Qed.

(** A request reaches the next handler exactly when it was decided without an error,
    the action does not refuse it, and the client has waited. *)
Lemma Handler_serves t gone answer :
  (exists delay headers, Handler t gone answer = Served delay headers) <->
  answer.2 = None /\ refuses (dec_Action answer.1) = false /\ (gone = true -> delay_of answer.1 = 0).
Proof.
  destruct answer as [d [e|]]; cbn [Handler fst snd]; [split; [by intros (? & ? & ?)|by intros [? _]]|].
  pose proof (delay_of_bounds d) as Hb.
  destruct (refuses (dec_Action d)); [split; [by intros (? & ? & ?)|by intros (_ & ? & _)]|].
  destruct gone, (0 <? delay_of d) eqn:E; zify_bool; cbn [andb].
  - split; [by intros (? & ? & ?)|]. intros (_ & _ & H). specialize (H eq_refl). lia.
  - split; [|by intros _; do 2 eexists]. intros _. split_and!; [done..|]. lia.
  - split; [|by intros _; do 2 eexists]. by intros _.
  - split; [|by intros _; do 2 eexists]. by intros _.
Qed.

(** A refusal carries the status 429 and asks to wait at least a second. *)
Lemma Handler_refuses t gone d :
  refuses (dec_Action d) = true ->
  exists headers n, Handler t gone (d, None) = Refused 429 headers /\
    headers !! "Retry-After" = Some (FormatInt n) /\ 1 <= n.
Proof.
  intros H. cbn [Handler]. rewrite H. do 2 eexists. split; [done|].
  rewrite lookup_insert_eq. split; [done|]. apply retry_seconds_pos.
Qed.

(** Over the limit of a policy whose action is to sample, the decision does not allow
    the request, and the middleware and the interceptor serve it all the same. *)
Example denied_sample_is_served t gone :
  let policy := mkPolicy "p" zeroScope zeroConfig ActionSample in
  let d := overLimit 0 policy Second 0 "fixed_window_limit_exceeded" in
  dec_Allowed d = false /\ (exists headers, Handler t gone (d, None) = Served 0 headers) /\ intercept (d, None) = None.
Proof. cbn. split_and!; [done| |done]. destruct gone; by eexists. Qed.
