(* ===== verification/GoCrypto.v ===== *)
(** * crypto/sha256, crypto/hmac and encoding/base64

    SHA-256 (FIPS 180-4), HMAC (RFC 2104) and the unpadded URL encoding of base64
    (RFC 4648), as the packages compute them. *)

From Stdlib Require Import Ascii String.
From S2P Require Import Prelude GoString GoHash.
Local Open Scope Z_scope.

(** ** crypto/sha256 *)

Definition rotr32 (n x : Z) : Z := rotl32 (32 - n) x.
Definition not32 (x : Z) : Z := Z.lxor x 4294967295.

Definition sha256_k : list Z := [
  1116352408; 1899447441; 3049323471; 3921009573; 961987163; 1508970993; 2453635748; 2870763221;
  3624381080; 310598401; 607225278; 1426881987; 1925078388; 2162078206; 2614888103; 3248222580;
  3835390401; 4022224774; 264347078; 604807628; 770255983; 1249150122; 1555081692; 1996064986;
  2554220882; 2821834349; 2952996808; 3210313671; 3336571891; 3584528711; 113926993; 338241895;
  666307205; 773529912; 1294757372; 1396182291; 1695183700; 1986661051; 2177026350; 2456956037;
  2730485921; 2820302411; 3259730800; 3345764771; 3516065817; 3600352804; 4094571909; 275423344;
  430227734; 506948616; 659060556; 883997877; 958139571; 1322822218; 1537002063; 1747873779;
  1955562222; 2024104815; 2227730452; 2361852424; 2428436474; 2756734187; 3204031479; 3329325298].

(** The message schedule, the last word first. *)
Fixpoint schedule256 (n : nat) (rev_w : list Z) : list Z :=
  match n with
  | O => rev_w
  | S n' =>
      let at_ i := nth i rev_w 0 in
      let w15 := at_ 14%nat in
      let w2 := at_ 1%nat in
      let s0 := Z.lxor (Z.lxor (rotr32 7 w15) (rotr32 18 w15)) (Z.shiftr w15 3) in
      let s1 := Z.lxor (Z.lxor (rotr32 17 w2) (rotr32 19 w2)) (Z.shiftr w2 10) in
      schedule256 n' (w32 (s1 + at_ 6%nat + s0 + at_ 15%nat) :: rev_w)
  end.

Record sha256_state := { sa : Z; sb : Z; sc : Z; sd : Z; se : Z; sf : Z; sg : Z; sh : Z }.

Definition sha256_round (s : sha256_state) (kw : Z * Z) : sha256_state :=
  let '(k, w) := kw in
  let s1 := Z.lxor (Z.lxor (rotr32 6 (se s)) (rotr32 11 (se s))) (rotr32 25 (se s)) in
  let ch := Z.lxor (Z.land (se s) (sf s)) (Z.land (not32 (se s)) (sg s)) in
  let t1 := sh s + s1 + ch + k + w in
  let s0 := Z.lxor (Z.lxor (rotr32 2 (sa s)) (rotr32 13 (sa s))) (rotr32 22 (sa s)) in
  let maj := Z.lxor (Z.lxor (Z.land (sa s) (sb s)) (Z.land (sa s) (sc s))) (Z.land (sb s) (sc s)) in
  {| sa := w32 (t1 + s0 + maj); sb := sa s; sc := sb s; sd := sc s;
     se := w32 (sd s + t1); sf := se s; sg := sf s; sh := sg s |}.

Definition sha256_block (s : sha256_state) (block : list Z) : sha256_state :=
  let r := foldl sha256_round s (zip sha256_k (rev (schedule256 48 (rev block)))) in
  {| sa := w32 (sa s + sa r); sb := w32 (sb s + sb r); sc := w32 (sc s + sc r); sd := w32 (sd s + sd r);
     se := w32 (se s + se r); sf := w32 (sf s + sf r); sg := w32 (sg s + sg r); sh := w32 (sh s + sh r) |}.

Fixpoint sha256_blocks (fuel : nat) (ws : list Z) (s : sha256_state) : sha256_state :=
  match fuel, ws with
  | S fuel', _ :: _ => sha256_blocks fuel' (drop 16 ws) (sha256_block s (take 16 ws))
  | _, _ => s
  end.

(** [sha256.Sum256] on bytes; the padding is that of SHA-1. *)
Definition sha256 (msg : list Z) : list Z :=
  let padded := sha1_pad msg in
  let ws := words (length padded) padded in
  let r := sha256_blocks (length ws) ws
    {| sa := 1779033703; sb := 3144134277; sc := 1013904242; sd := 2773480762;
       se := 1359893119; sf := 2600822924; sg := 528734635; sh := 1541459225 |} in
  big_endian 4 (sa r) ++ big_endian 4 (sb r) ++ big_endian 4 (sc r) ++ big_endian 4 (sd r) ++
  big_endian 4 (se r) ++ big_endian 4 (sf r) ++ big_endian 4 (sg r) ++ big_endian 4 (sh r).

(** ** crypto/hmac *)

Definition hmac_sha256 (key msg : list Z) : list Z :=
  let key := if (64 <? length key)%nat then sha256 key else key in
  let padded := key ++ replicate (64 - length key) 0 in
  sha256 ((Z.lxor 92 <$> padded) ++ sha256 ((Z.lxor 54 <$> padded) ++ msg)).

(** ** encoding/base64: [RawURLEncoding] *)

Definition b64_char (n : Z) : ascii :=
  ascii_of_nat (Z.to_nat
    (if n <? 26 then 65 + n else if n <? 52 then 71 + n else if n <? 62 then n - 4 else if n =? 62 then 45 else 95)).

Definition b64_value (c : ascii) : option Z :=
  let n := Z.of_N (N_of_ascii c) in
  if (65 <=? n) && (n <=? 90) then Some (n - 65)
  else if (97 <=? n) && (n <=? 122) then Some (n - 71)
  else if (48 <=? n) && (n <=? 57) then Some (n + 4)
  else if n =? 45 then Some 62
  else if n =? 95 then Some 63
  else None.

(** [RawURLEncoding.EncodeToString]. *)
Fixpoint b64_encode (bytes : list Z) : string :=
  match bytes with
  | [] => ""
  | [a] => String (b64_char (a / 4)) (String (b64_char (a mod 4 * 16)) "")
  | [a; b] =>
      String (b64_char (a / 4)) (String (b64_char (a mod 4 * 16 + b / 16)) (String (b64_char (b mod 16 * 4)) ""))
  | a :: b :: c :: rest =>
      String (b64_char (a / 4)) (String (b64_char (a mod 4 * 16 + b / 16))
        (String (b64_char (b mod 16 * 4 + c / 64)) (String (b64_char (c mod 64)) (b64_encode rest))))
  end.

(** Line breaks are skipped; any other character stands for six bits or is an error. *)
Fixpoint b64_digits (s : string) : option (list Z) :=
  match s with
  | "" => Some []
  | String c s' =>
      if Ascii.eqb c "010" || Ascii.eqb c "013" then b64_digits s'
      else match b64_value c, b64_digits s' with
           | Some v, Some l => Some (v :: l)
           | _, _ => None
           end
  end.

(** Groups of four digits; the bits left over in the last group are ignored. *)
Fixpoint b64_groups (l : list Z) : option (list Z) :=
  match l with
  | [] => Some []
  | [_] => None
  | [a; b] => Some [a * 4 + b / 16]
  | [a; b; c] => Some [a * 4 + b / 16; b mod 16 * 16 + c / 4]
  | a :: b :: c :: d :: rest =>
      match b64_groups rest with
      | Some bytes => Some ((a * 4 + b / 16) :: (b mod 16 * 16 + c / 4) :: (c mod 4 * 64 + d) :: bytes)
      | None => None
      end
  end.

(** [RawURLEncoding.DecodeString]; [None] is an error. *)
Definition b64_decode (s : string) : option (list Z) :=
  match b64_digits s with Some l => b64_groups l | None => None end.

(** ** Lemmas *)

Definition is_byte (b : Z) : Prop := 0 <= b < 256.

Lemma sextets (P : Z -> Prop) : (forall k, (k < 64)%nat -> P (Z.of_nat k)) -> forall v, 0 <= v < 64 -> P v.
Proof. intros H v Hv. rewrite <- (Z2Nat.id v) by lia. apply H. lia. Qed.

Lemma b64_value_char v : 0 <= v < 64 -> b64_value (b64_char v) = Some v.
Proof. revert v. apply sextets. intros k Hk. do 64 (destruct k as [|k]; [done|]). lia. Qed.

Lemma b64_char_printable v : 0 <= v < 64 ->
  (Ascii.eqb (b64_char v) "010" || Ascii.eqb (b64_char v) "013") = false /\ Ascii.eqb (b64_char v) "." = false.
Proof. revert v. apply sextets. intros k Hk. do 64 (destruct k as [|k]; [done|]). lia. Qed.

Lemma b64_digits_cons v s : 0 <= v < 64 ->
  b64_digits (String (b64_char v) s) = match b64_digits s with Some l => Some (v :: l) | None => None end.
Proof. intros Hv. cbn [b64_digits]. destruct (b64_char_printable v Hv) as [-> _]. by rewrite b64_value_char. Qed.

(** Induction by groups of three. *)
Lemma list_ind3 {A} (P : list A -> Prop) :
  P [] -> (forall a, P [a]) -> (forall a b, P [a; b]) -> (forall a b c l, P l -> P (a :: b :: c :: l)) -> forall l, P l.
Proof.
  intros H0 H1 H2 H3 l. enough (P l /\ (forall a, P (a :: l)) /\ (forall a b, P (a :: b :: l))) by tauto.
  induction l as [|c l (IH1 & IH2 & IH3)]; split_and!; auto.
Qed.

Ltac digit_bounds :=
  repeat match goal with
  | |- context [?x / ?n] => lazymatch goal with
      | _ : n * (x / n) <= x < n * (x / n) + n |- _ => fail
      | _ => assert (n * (x / n) <= x < n * (x / n) + n) by (pose proof (Z.div_mod x n); pose proof (Z.mod_pos_bound x n); lia) end
  | |- context [?x mod ?n] => lazymatch goal with
      | _ : 0 <= x mod n < n |- _ => fail
      | _ => pose proof (Z.mod_pos_bound x n ltac:(lia)) end
  end.

Lemma b64_digits_encode bytes : Forall is_byte bytes ->
  exists l, b64_digits (b64_encode bytes) = Some l /\ b64_groups l = Some bytes.
Proof.
  unfold is_byte. induction bytes as [|a|a b|a b c rest IH] using list_ind3; intros H;
    repeat (apply Forall_cons in H as [? H]); cbv beta in *; cbn [b64_encode].
  - by exists [].
  - eexists. rewrite !b64_digits_cons by (digit_bounds; lia). split; [done|]. cbn. do 2 f_equal.
    rewrite Z.div_mul by lia. pose proof (Z.div_mod a 4). lia.
  - eexists. rewrite !b64_digits_cons by (digit_bounds; lia). split; [done|]. cbn [b64_groups].
    rewrite Z.div_add_l, (Z.div_small (b / 16)) by (digit_bounds; lia). pose proof (Z.div_mod a 4).
    rewrite Z.div_mul, (Z.add_comm (a mod 4 * 16)), Z.mod_add, (Z.mod_small (b / 16)) by (digit_bounds; lia).
    pose proof (Z.div_mod b 16). repeat f_equal; lia.
  - destruct (IH H) as (l & El & Eg). eexists. rewrite !b64_digits_cons by (digit_bounds; lia). rewrite El.
    split; [done|]. cbn [b64_groups]. rewrite Eg.
    rewrite (Z.div_add_l (a mod 4)), (Z.div_small (b / 16)) by (digit_bounds; lia).
    rewrite (Z.add_comm (a mod 4 * 16)), Z.mod_add, (Z.mod_small (b / 16)) by (digit_bounds; lia).
    rewrite (Z.div_add_l (b mod 16)), (Z.div_small (c / 64)) by (digit_bounds; lia).
    rewrite (Z.add_comm (b mod 16 * 4)), Z.mod_add, (Z.mod_small (c / 64)) by (digit_bounds; lia).
    pose proof (Z.div_mod a 4). pose proof (Z.div_mod b 16). pose proof (Z.div_mod c 64). repeat f_equal; lia.
Qed.

(** Decoding gives back what was encoded. *)
Lemma b64_decode_encode bytes : Forall is_byte bytes -> b64_decode (b64_encode bytes) = Some bytes.
Proof. intros H. unfold b64_decode. by destruct (b64_digits_encode bytes H) as (l & -> & ->). Qed.

Fixpoint dotless (s : string) : bool :=
  match s with "" => true | String c s' => negb (Ascii.eqb c ".") && dotless s' end.

Lemma dotless_cons v s : 0 <= v < 64 -> dotless (String (b64_char v) s) = dotless s.
Proof. intros Hv. cbn [dotless]. by destruct (b64_char_printable v Hv) as [_ ->]. Qed.

Lemma b64_encode_dotless bytes : Forall is_byte bytes -> dotless (b64_encode bytes) = true.
Proof.
  unfold is_byte. induction bytes as [|a|a b|a b c rest IH] using list_ind3; intros H;
    repeat (apply Forall_cons in H as [? H]); cbv beta in *; cbn [b64_encode]; rewrite ?dotless_cons by (digit_bounds; lia); auto.
Qed.

Lemma string_bytes_byte s : Forall is_byte (string_bytes s).
Proof.
  apply Forall_fmap, Forall_forall. intros c _. unfold is_byte. cbn. pose proof (N_ascii_bounded c). lia.
Qed.

(** The text of bytes. *)
Definition bytes_string (l : list Z) : string :=
  String.string_of_list_ascii ((fun b => ascii_of_N (Z.to_N b)) <$> l).

Lemma bytes_string_bytes s : bytes_string (string_bytes s) = s.
Proof.
  unfold bytes_string, string_bytes. rewrite <- list_fmap_compose.
  rewrite (list_fmap_ext _ id); [by rewrite list_fmap_id, string_of_list_ascii_of_string|].
  intros _ c _. cbn. by rewrite N2Z.id, ascii_N_embedding.
Qed.

Lemma big_endian_bytes n x : Forall is_byte (big_endian n x).
Proof. induction n as [|n IH]; constructor; [|done]. apply Z.mod_pos_bound. lia. Qed.

Lemma sha256_bytes msg : Forall is_byte (sha256 msg).
Proof. unfold sha256. cbv zeta. repeat (apply Forall_app; split); apply big_endian_bytes. Qed.

Lemma sha256_length msg : length (sha256 msg) = 32%nat.
Proof. unfold sha256. by rewrite !length_app, !big_endian_length. Qed.

Lemma hmac_bytes key msg : Forall is_byte (hmac_sha256 key msg).
Proof. apply sha256_bytes. Qed.

(** ** The test vectors of the standards *)

Example sha256_abc : EncodeToString (sha256 (string_bytes "abc"))
  = "ba7816bf8f01cfea414140de5dae2223b00361a396177a9cb410ff61f20015ad".
Proof. vm_compute. reflexivity. Qed.

Example sha256_two_blocks :
  EncodeToString (sha256 (string_bytes "abcdbcdecdefdefgefghfghighijhijkijkljklmklmnlmnomnopnopq"))
  = "248d6a61d20638b8e5c026930c3e6039a33ce45964ff2167f6ecedd419db06c1".
Proof. vm_compute. reflexivity. Qed.

Example hmac_rfc4231 :
  EncodeToString (hmac_sha256 (string_bytes "Jefe") (string_bytes "what do ya want for nothing?"))
  = "5bdcc146bf60754e6a042426089575c75a003f089d2739839dec58b964ec3843".
Proof. vm_compute. reflexivity. Qed.

Example b64_hello : b64_encode (string_bytes "hello?>") = "aGVsbG8_Pg" /\ b64_decode "aGVsbG8_Pg" = Some (string_bytes "hello?>").
Proof. vm_compute. done. Qed.
