(* ===== verification/GoJson.v ===== *)
(** * encoding/json

    Decoding of JSON text into [interface{}], [map[string]interface{}] and
    [map[string]string], and encoding of [map[string]string], with the treatment of
    escapes, of invalid UTF-8 and of numbers of package encoding/json. *)

From Stdlib Require Import Ascii String SpecFloat.
From S2P Require Import Prelude GoString GoHash GoFloat.
Local Open Scope Z_scope.
Local Open Scope stdpp_scope.

(** ** package unicode/utf8 *)

Definition code (c : ascii) : Z := Z.of_N (N_of_ascii c).
Definition char (n : Z) : ascii := ascii_of_N (Z.to_N n).

Definition in_range (lo hi x : Z) : bool := (lo <=? x) && (x <=? hi).
Definition is_cont (c : ascii) : bool := in_range 128 191 (code c).

(** The length of the encoding of a code point [s] starts with; 0 if it starts with
    none. *)
Definition rune_len (s : string) : nat :=
  match s with
  | "" => 0%nat
  | String a s1 =>
      if code a <? 128 then 1%nat else
      match s1 with
      | "" => 0%nat
      | String b s2 =>
          if in_range 194 223 (code a) then (if is_cont b then 2 else 0)%nat else
          match s2 with
          | "" => 0%nat
          | String c s3 =>
              let second :=
                if code a =? 224 then in_range 160 191 (code b)
                else if code a =? 237 then in_range 128 159 (code b)
                else if in_range 225 239 (code a) then is_cont b else false in
              if second then (if is_cont c then 3 else 0)%nat else
              match s3 with
              | "" => 0%nat
              | String d _ =>
                  let second :=
                    if code a =? 240 then in_range 144 191 (code b)
                    else if code a =? 244 then in_range 128 143 (code b)
                    else if in_range 241 243 (code a) then is_cont b else false in
                  if second && is_cont c && is_cont d then 4%nat else 0%nat
              end
          end
      end
  end.

(** U+FFFD. *)
Definition replacement : string := utf8_3 239 191 189.

(** [utf8.EncodeRune]; surrogates have no encoding. *)
Definition EncodeRune (r : Z) : string :=
  if r <? 128 then String (char r) ""
  else if r <? 2048 then String (char (192 + r / 64)) (String (char (128 + r mod 64)) "")
  else if in_range 55296 57343 r then replacement
  else if r <? 65536 then
    String (char (224 + r / 4096)) (String (char (128 + r / 64 mod 64)) (String (char (128 + r mod 64)) ""))
  else
    String (char (240 + r / 262144)) (String (char (128 + r / 4096 mod 64))
      (String (char (128 + r / 64 mod 64)) (String (char (128 + r mod 64)) ""))).

Fixpoint valid_fuel (fuel : nat) (s : string) : bool :=
  match fuel, s with
  | _, "" => true
  | O, _ => false
  | S fuel', _ => negb (rune_len s =? 0)%nat && valid_fuel fuel' (str_drop (rune_len s) s)
  end.

(** [utf8.ValidString]. *)
Definition ValidString (s : string) : bool := valid_fuel (String.length s) s.

(** ** Values *)

(** What [interface{}] holds after decoding; the members of an object in the order of
    the text. *)
#[warnings="-register-all"]
Inductive json :=
| JNull
| JBool (b : bool)
| JNum (x : float64)
| JStr (s : string)
| JArr (l : list json)
| JObj (members : list (string * json)).

(** [m[key]], where the last of equal keys counts. *)
Fixpoint jget (key : string) (members : list (string * json)) : option json :=
  match members with
  | [] => None
  | (k, v) :: rest =>
      match jget key rest with
      | Some x => Some x
      | None => if String.eqb k key then Some v else None
      end
  end.

(** ** Scanning *)

Definition quote : ascii := "034".
Definition backslash : ascii := "092".

Definition is_space (c : ascii) : bool :=
  Ascii.eqb c " " || Ascii.eqb c "009" || Ascii.eqb c "010" || Ascii.eqb c "013".

Fixpoint skip_space (s : string) : string :=
  match s with
  | String c s' => if is_space c then skip_space s' else s
  | "" => ""
  end.

Definition hex_value (c : ascii) : option Z :=
  let n := code c in
  if in_range 48 57 n then Some (n - 48)
  else if in_range 97 102 n then Some (n - 87)
  else if in_range 65 70 n then Some (n - 55)
  else None.

(** Four hexadecimal digits. *)
Definition hex4 (s : string) : option (Z * string) :=
  match s with
  | String a (String b (String c (String d rest))) =>
      match hex_value a, hex_value b, hex_value c, hex_value d with
      | Some x, Some y, Some z, Some w => Some (((x * 16 + y) * 16 + z) * 16 + w, rest)
      | _, _, _, _ => None
      end
  | _ => None
  end.

Definition simple_escape (c : ascii) : option ascii :=
  if Ascii.eqb c quote then Some quote
  else if Ascii.eqb c backslash then Some backslash
  else if Ascii.eqb c "/" then Some "/"%char
  else if Ascii.eqb c "b" then Some "008"%char
  else if Ascii.eqb c "f" then Some "012"%char
  else if Ascii.eqb c "n" then Some "010"%char
  else if Ascii.eqb c "r" then Some "013"%char
  else if Ascii.eqb c "t" then Some "009"%char
  else None.

(** The code point of an escape [\uXXXX], which may be followed by the second half of
    a surrogate pair. *)
Definition unescape (u : Z) (rest : string) : string * string :=
  if in_range 55296 57343 u then
    match rest with
    | String b (String c rest') =>
        if Ascii.eqb b backslash && Ascii.eqb c "u" then
          match hex4 rest' with
          | Some (v, rest'') =>
              if (u <? 56320) && in_range 56320 57343 v
              then (EncodeRune ((u - 55296) * 1024 + (v - 56320) + 65536), rest'')
              else (replacement, rest)
          | None => (replacement, rest)
          end
        else (replacement, rest)
    | _ => (replacement, rest)
    end
  else (EncodeRune u, rest).

(** A string, from after its opening quote; what is decoded, and the rest. *)
Fixpoint read_string (fuel : nat) (s : string) : option (string * string) :=
  match fuel, s with
  | S fuel', String c s' =>
      let continue (text rest : string) :=
        match read_string fuel' rest with Some (t, r) => Some (text +:+ t, r) | None => None end in
      if Ascii.eqb c quote then Some ("", s')
      else if Ascii.eqb c backslash then
        match s' with
        | String e s'' =>
            match simple_escape e with
            | Some x => continue (String x "") s''
            | None =>
                if Ascii.eqb e "u" then
                  match hex4 s'' with
                  | Some (u, rest) => let '(text, rest') := unescape u rest in continue text rest'
                  | None => None
                  end
                else None
            end
        | "" => None
        end
      else if code c <? 32 then None
      else if (rune_len s =? 0)%nat then continue replacement s'
      else continue (str_take (rune_len s) s) (str_drop (rune_len s) s)
  | _, _ => None
  end.

(** ** Numbers *)

(** Digits: how many, the number they make after [acc], and the rest. *)
Fixpoint read_digits (n acc : Z) (s : string) : Z * Z * string :=
  match s with
  | String c s' => match digit_value c with Some d => read_digits (n + 1) (10 * acc + d) s' | None => (n, acc, s) end
  | "" => (n, acc, s)
  end.

(** [strconv.ParseFloat] of [mant * 10^exp10]; [None] is out of range. *)
Definition decimal_float (neg : bool) (mant exp10 : Z) : option float64 :=
  match mant with
  | Zpos p =>
      let l := Z.log2 mant in
      let x :=
        if 0 <=? exp10 then
          if 1024 <? l + 3 * exp10 then S754_infinity neg
          else match mant * 10 ^ exp10 with Zpos q => binary_round prec emax neg q 0 | _ => S754_nan end
        else if l + 1 + 3 * exp10 <? -1076 then S754_zero neg
        else let '(q, e, loc) := SFdiv_core_binary prec emax mant 0 (10 ^ (- exp10)) 0 in
             binary_round_aux prec emax neg q e loc in
      match x with S754_infinity _ => None | _ => Some x end
  | _ => Some (S754_zero neg)
  end.

(** An exponent, if there is one. *)
Definition read_exponent (s : string) : option (Z * string) :=
  match s with
  | String c s' =>
      if Ascii.eqb c "e" || Ascii.eqb c "E" then
        let '(sign, s'') := match s' with
                            | String "+" r => (1, r)
                            | String "-" r => (-1, r)
                            | _ => (1, s')
                            end in
        let '(n, e, rest) := read_digits 0 0 s'' in
        if 0 <? n then Some (sign * e, rest) else None
      else Some (0, s)
  | "" => Some (0, s)
  end.

Definition read_number (s : string) : option (float64 * string) :=
  let '(neg, s1) := match s with String "-" r => (true, r) | _ => (false, s) end in
  let '(n, int, s2) := match s1 with
                       | String "0" r => (1, 0, r)
                       | _ => read_digits 0 0 s1
                       end in
  if n <=? 0 then None else
  match (match s2 with
         | String "." r => let '(k, m, r') := read_digits 0 int r in if 0 <? k then Some (k, m, r') else None
         | _ => Some (0, int, s2)
         end) with
  | None => None
  | Some (k, mant, s3) =>
      match read_exponent s3 with
      | None => None
      | Some (e, rest) => match decimal_float neg mant (e - k) with Some x => Some (x, rest) | None => None end
      end
  end.

(** ** Decoding *)

Definition read_word (word : string) (v : json) (s : string) : option (json * string) :=
  if HasPrefix s word then Some (v, str_drop (String.length word) s) else None.

(** A value, the members of an object and the elements of an array; [depth] more
    levels may be opened. *)
Fixpoint read_value (fuel : nat) (depth : Z) (s : string) : option (json * string) :=
  match fuel with
  | O => None
  | S fuel' =>
      let s := skip_space s in
      match s with
      | "" => None
      | String c s' =>
          if Ascii.eqb c "{" then
            if depth <=? 0 then None else
            match skip_space s' with
            | String "}" rest => Some (JObj [], rest)
            | s'' => match read_members fuel' (depth - 1) s'' with Some (l, rest) => Some (JObj l, rest) | None => None end
            end
          else if Ascii.eqb c "[" then
            if depth <=? 0 then None else
            match skip_space s' with
            | String "]" rest => Some (JArr [], rest)
            | s'' => match read_elements fuel' (depth - 1) s'' with Some (l, rest) => Some (JArr l, rest) | None => None end
            end
          else if Ascii.eqb c quote then
            match read_string (String.length s') s' with Some (t, rest) => Some (JStr t, rest) | None => None end
          else if Ascii.eqb c "t" then read_word "true" (JBool true) s
          else if Ascii.eqb c "f" then read_word "false" (JBool false) s
          else if Ascii.eqb c "n" then read_word "null" JNull s
          else match read_number s with Some (x, rest) => Some (JNum x, rest) | None => None end
      end
  end
with read_members (fuel : nat) (depth : Z) (s : string) : option (list (string * json) * string) :=
  match fuel with
  | O => None
  | S fuel' =>
      match skip_space s with
      | String c s1 =>
          if Ascii.eqb c quote then
            match read_string (String.length s1) s1 with
            | Some (key, s2) =>
                match skip_space s2 with
                | String ":" s3 =>
                    match read_value fuel' depth s3 with
                    | Some (v, s4) =>
                        match skip_space s4 with
                        | String "}" rest => Some ([(key, v)], rest)
                        | String "," rest =>
                            match read_members fuel' depth rest with
                            | Some (l, rest') => Some ((key, v) :: l, rest')
                            | None => None
                            end
                        | _ => None
                        end
                    | None => None
                    end
                | _ => None
                end
            | None => None
            end
          else None
      | "" => None
      end
  end
with read_elements (fuel : nat) (depth : Z) (s : string) : option (list json * string) :=
  match fuel with
  | O => None
  | S fuel' =>
      match read_value fuel' depth s with
      | Some (v, s1) =>
          match skip_space s1 with
          | String "]" rest => Some ([v], rest)
          | String "," rest =>
              match read_elements fuel' depth rest with
              | Some (l, rest') => Some (v :: l, rest')
              | None => None
              end
          | _ => None
          end
      | None => None
      end
  end.

Definition maxNestingDepth : Z := 10000.

(** [json.Unmarshal] into [interface{}].  Two calls are made for a byte of the text at
    most. *)
Definition Unmarshal (text : string) : option json :=
  match read_value (2 * String.length text + 2) maxNestingDepth text with
  | Some (v, rest) => if String.eqb (skip_space rest) "" then Some v else None
  | None => None
  end.

(** Into [map[string]interface{}]; null leaves the map nil. *)
Definition UnmarshalMap (text : string) : option (list (string * json)) :=
  match Unmarshal text with
  | Some (JObj l) => Some l
  | Some JNull => Some []
  | _ => None
  end.

(** The members of a [map[string]string]; null leaves an element zero. *)
Fixpoint strings_of (members : list (string * json)) : option (list (string * string)) :=
  match members with
  | [] => Some []
  | (k, v) :: rest =>
      match (match v with JStr s => Some s | JNull => Some "" | _ => None end), strings_of rest with
      | Some s, Some l => Some ((k, s) :: l)
      | _, _ => None
      end
  end.

(** Into [map[string]string]. *)
Definition UnmarshalStrings (text : string) : option (gmap string string) :=
  match UnmarshalMap text with
  | Some l => match strings_of l with Some l' => Some (list_to_map (rev l')) | None => None end
  | None => None
  end.

(** ** Encoding *)

(** A code point of one byte. *)
Definition escape_ascii (c : ascii) : string :=
  if Ascii.eqb c quote || Ascii.eqb c backslash then String backslash (String c "")
  else if Ascii.eqb c "008" then String backslash "b"
  else if Ascii.eqb c "012" then String backslash "f"
  else if Ascii.eqb c "010" then String backslash "n"
  else if Ascii.eqb c "013" then String backslash "r"
  else if Ascii.eqb c "009" then String backslash "t"
  else if (code c <? 32) || Ascii.eqb c "<" || Ascii.eqb c ">" || Ascii.eqb c "&" then
    String backslash ("u00" +:+ String (hex_digit (code c / 16)) (String (hex_digit (code c mod 16)) ""))
  else String c "".

(** U+2028 and U+2029 are escaped too, and what is not UTF-8 is replaced. *)
Definition escape_rune (s : string) : string :=
  if String.eqb s (utf8_3 226 128 168) then String backslash "u2028"
  else if String.eqb s (utf8_3 226 128 169) then String backslash "u2029"
  else s.

Fixpoint escape_fuel (fuel : nat) (s : string) : string :=
  match fuel, s with
  | S fuel', String c s' =>
      match rune_len s with
      | 0%nat => String backslash ("ufffd" +:+ escape_fuel fuel' s')
      | 1%nat => escape_ascii c +:+ escape_fuel fuel' s'
      | n => escape_rune (str_take n s) +:+ escape_fuel fuel' (str_drop n s)
      end
  | _, _ => ""
  end.

Definition encode_string (s : string) : string :=
  String quote (escape_fuel (String.length s) s +:+ String quote "").

Definition encode_member (kv : string * string) : string :=
  encode_string kv.1 +:+ ":" +:+ encode_string kv.2.

Definition by_key (a b : string * string) : bool := String.ltb a.1 b.1.

(** [json.Marshal] of a map with string values, the keys in order. *)
Definition MarshalStrings (m : gmap string string) : string :=
  "{" +:+ Join (encode_member <$> sort_by by_key (map_to_list m)) "," +:+ "}".

(** ** Lemmas *)

(** *** Code points *)

Lemma rune_len_le s : (rune_len s <= String.length s)%nat.
Proof.
  unfold rune_len. destruct s as [|a [|b [|c [|d s]]]]; cbn [String.length]; repeat case_match; lia.
Qed.

Lemma rune_len_app s t n : rune_len s = n -> n <> 0%nat -> rune_len (str_take n s +:+ t) = n.
Proof.
  intros <-. unfold rune_len at 1. destruct s as [|a s]; [done|]. unfold rune_len at 2 3.
  destruct (code a <? 128) eqn:Ea; [intros _; cbn [str_take]; rewrite ?str_app_cons; unfold rune_len; by rewrite Ea|].
  destruct s as [|b s]; [done|]. destruct (in_range 194 223 (code a)) eqn:Ea2.
  { destruct (is_cont b) eqn:Eb; [|done]. intros _. cbn [str_take]. rewrite !str_app_cons. unfold rune_len. by rewrite Ea, Ea2, Eb. }
  destruct s as [|c s]; [done|]. cbv zeta.
  match goal with |- context [if ?x then (if is_cont c then 3%nat else 0%nat) else _] => destruct x eqn:E2 end.
  { destruct (is_cont c) eqn:Ec; [|done]. intros _. cbn [str_take]. rewrite !str_app_cons. unfold rune_len. by rewrite Ea, Ea2, E2, Ec. }
  destruct s as [|d s]; [done|].
  match goal with |- context [if ?x then 4%nat else 0%nat] => destruct x eqn:E3 end; [|done].
  intros _. cbn [str_take]. rewrite !str_app_cons. unfold rune_len. by rewrite Ea, Ea2, E2, E3.
Qed.

Lemma str_take_drop n s : str_take n s +:+ str_drop n s = s.
Proof. revert s. induction n as [|n IH]; intros [|c s]; [done..|]. cbn [str_take str_drop]. rewrite str_app_cons. by rewrite IH. Qed.

Lemma str_take_length n s : (n <= String.length s)%nat -> String.length (str_take n s) = n.
Proof. revert s. induction n as [|n IH]; intros [|c s] H; cbn in *; [done..|lia|]. rewrite IH; lia. Qed.

Lemma str_drop_length n s : String.length (str_drop n s) = (String.length s - n)%nat.
Proof. revert s. induction n as [|n IH]; intros [|c s]; cbn; [done..|]. apply IH. Qed.

(** The first byte of a longer encoding is not ASCII. *)
Lemma rune_len_first c s : (1 < rune_len (String c s))%nat -> (code c <? 128) = false.
Proof. unfold rune_len. destruct (code c <? 128); [lia|done]. Qed.

Lemma code_range c : 0 <= code c < 256.
Proof. unfold code. pose proof (N_ascii_bounded c). lia. Qed.

Lemma char_code c : char (code c) = c.
Proof. unfold char, code. by rewrite N2Z.id, ascii_N_embedding. Qed.

Lemma not_ascii c d : (code c <? 128) = false -> (code d <? 128) = true -> Ascii.eqb c d = false.
Proof. intros Hc Hd. apply Ascii.eqb_neq. congruence. Qed.

(** *** Strings *)

Definition prepend (text : string) (r : option (string * string)) : option (string * string) :=
  match r with Some (t, rest) => Some (text +:+ t, rest) | None => None end.

Lemma read_escape_ascii c n t : (code c <? 128) = true ->
  read_string (S n) (escape_ascii c +:+ t) = prepend (String c "") (read_string n t).
Proof. intros Hc. destruct c as [[] [] [] [] [] [] [] []]; first [discriminate Hc|reflexivity]. Qed.

Lemma read_copied r n t k : rune_len (r +:+ t) = k -> (1 < k)%nat -> String.length r = k ->
  read_string (S n) (r +:+ t) = prepend r (read_string n t).
Proof.
  intros Hk H1 Hl. destruct r as [|c r]; [cbn in Hl; lia|]. rewrite str_app_cons in *. cbn [read_string].
  assert (Hc : (code c <? 128) = false) by (apply (rune_len_first c (r +:+ t)); lia).
  rewrite !not_ascii by done. rewrite Hk. pose proof (code_range c).
  assert ((code c <? 32) = false) as -> by (zify_bool; lia).
  destruct k as [|k]; [lia|]. cbn [Nat.eqb].
  pose proof (str_take_app (String c r) t) as Ht. pose proof (str_drop_app (String c r) t) as Hd.
  rewrite Hl, str_app_cons in Ht, Hd. by rewrite Ht, Hd.
Qed.

Lemma read_escape_rune r n t k : rune_len (r +:+ t) = k -> (1 < k)%nat -> String.length r = k ->
  read_string (S n) (escape_rune r +:+ t) = prepend r (read_string n t).
Proof.
  intros Hk H1 Hl. unfold escape_rune.
  destruct (String.eqb_spec r (utf8_3 226 128 168)) as [->|]; [done|].
  destruct (String.eqb_spec r (utf8_3 226 128 169)) as [->|]; [done|]. by eapply read_copied.
Qed.

Lemma prepend_Some text t rest : prepend text (Some (t, rest)) = Some (text +:+ t, rest).
Proof. done. Qed.

(** A string is read back from its encoding. *)
Lemma read_escaped fuel n s rest :
  (String.length s <= fuel)%nat -> valid_fuel fuel s = true ->
  (String.length (escape_fuel fuel s) < n)%nat ->
  read_string n (escape_fuel fuel s +:+ String quote rest) = Some (s, rest).
Proof.
  revert n s. induction fuel as [|fuel IH]; intros n s Hl Hv Hn; (destruct n as [|n]; [lia|]).
  { destruct s; [done|cbn in Hl; lia]. }
  destruct s as [|c s]; [done|]. cbn [valid_fuel] in Hv. apply andb_true_iff in Hv as [Hk Hv].
  pose proof (rune_len_le (String c s)) as Hle. cbn [escape_fuel] in *.
  destruct (rune_len (String c s)) as [|[|k]] eqn:Ek; [done|..].
  - assert (Hc : (code c <? 128) = true).
    { unfold rune_len in Ek. destruct (code c <? 128); [done|]. repeat case_match; done. }
    rewrite str_app_assoc, read_escape_ascii by done. cbn [str_drop] in Hv.
    assert (1 <= String.length (escape_ascii c))%nat by (unfold escape_ascii; repeat case_match; cbn; lia).
    rewrite str_length_app in Hn. rewrite IH; [done|cbn in Hl; lia|done|lia].
  - set (r := str_take (S (S k)) (String c s)) in *. set (s2 := str_drop (S (S k)) (String c s)) in *.
    assert (Hr : String.length r = S (S k)) by (apply str_take_length; lia).
    assert (Hs : String c s = r +:+ s2) by (unfold r, s2; by rewrite str_take_drop).
    assert (Hs2 : String.length s2 = (String.length (String c s) - S (S k))%nat) by apply str_drop_length.
    rewrite str_app_assoc, (read_escape_rune r n _ (S (S k))); [|by apply rune_len_app|lia|done].
    assert (1 <= String.length (escape_rune r))%nat by (unfold escape_rune; repeat case_match; cbn; lia).
    rewrite str_length_app in Hn. rewrite IH; [by rewrite prepend_Some, Hs|lia|done|lia].
Qed.

Lemma read_encoded s rest : ValidString s = true ->
  let text := escape_fuel (String.length s) s +:+ String quote rest in
  read_string (String.length text) text = Some (s, rest).
Proof. intros Hv text. apply read_escaped; [done|done|]. unfold text. rewrite str_length_app. cbn. lia. Qed.

(** *** Maps *)

Lemma encode_string_app s rest :
  encode_string s +:+ rest = String quote (escape_fuel (String.length s) s +:+ String quote rest).
Proof. unfold encode_string. by rewrite str_app_cons, str_app_assoc. Qed.

Lemma read_value_string fuel d s rest : ValidString s = true ->
  read_value (S fuel) d (encode_string s +:+ rest) = Some (JStr s, rest).
Proof. intros Hv. rewrite encode_string_app. cbn [read_value skip_space is_space]. cbn. by rewrite (read_encoded s rest Hv). Qed.

Definition valid_member (kv : string * string) : Prop := ValidString kv.1 = true /\ ValidString kv.2 = true.
Definition to_member (kv : string * string) : string * json := (kv.1, JStr kv.2).

(** What follows a member: the end, or more members. *)
Definition after_member (fuel : nat) (d : Z) (k : string) (v : json) (tail : string) : option (list (string * json) * string) :=
  match skip_space tail with
  | String "}" rest => Some ([(k, v)], rest)
  | String "," rest =>
      match read_members fuel d rest with Some (l, rest') => Some ((k, v) :: l, rest') | None => None end
  | _ => None
  end.

Lemma read_members_quote fuel d s1 : read_members (S fuel) d (String quote s1) =
  match read_string (String.length s1) s1 with
  | Some (key, s2) =>
      match skip_space s2 with
      | String ":" s3 => match read_value fuel d s3 with Some (v, s4) => after_member fuel d key v s4 | None => None end
      | _ => None
      end
  | None => None
  end.
Proof. reflexivity. Qed.

Lemma read_encoded_member fuel d kv tail : valid_member kv ->
  read_members (S (S fuel)) d (encode_member kv +:+ tail) = after_member (S fuel) d kv.1 (JStr kv.2) tail.
Proof.
  destruct kv as [k v]. intros [Hk Hv]. cbn [fst snd] in *. unfold encode_member. cbn [fst snd].
  rewrite !str_app_assoc, encode_string_app, read_members_quote, (read_encoded k _ Hk).
  rewrite (str_app_cons ":" ""). change (skip_space (String ":" ?x)) with (String ":" x). cbv iota.
  change (String.app "" ?x) with x. by rewrite (read_value_string fuel d v tail Hv).
Qed.

Lemma read_encoded_members fuel d l rest :
  l <> [] -> Forall valid_member l -> (length l < fuel)%nat ->
  read_members fuel d (Join (encode_member <$> l) "," +:+ "}" +:+ rest) = Some (to_member <$> l, rest).
Proof.
  revert fuel. induction l as [|kv l IH]; intros fuel Hne Hv Hf; [done|]. clear Hne.
  apply Forall_cons in Hv as [Hkv Hv]. destruct fuel as [|[|fuel]]; [cbn in Hf; lia..|].
  destruct l as [|kv' l].
  - cbn [fmap list_fmap Join]. by rewrite read_encoded_member.
  - pose proof (IH (S fuel) ltac:(done) Hv ltac:(cbn in *; lia)) as H.
    change (encode_member <$> kv :: kv' :: l) with (encode_member kv :: (encode_member <$> kv' :: l)).
    change (Join (encode_member kv :: (encode_member <$> kv' :: l)) ",")
      with (encode_member kv +:+ "," +:+ Join (encode_member <$> kv' :: l) ",").
    rewrite str_app_assoc, str_app_assoc, read_encoded_member by done. unfold after_member.
    rewrite (str_app_cons "," ""). change (skip_space (String "," ?x)) with (String "," x). cbv iota.
    change (String.app "" ?x) with x. by rewrite H.
Qed.

Lemma strings_of_members l : strings_of (to_member <$> l) = Some l.
Proof. induction l as [|[k v] l IH]; [done|]. cbn. by rewrite IH. Qed.

Lemma Join_members_length l : (length l <= String.length (Join (encode_member <$> l) ","))%nat.
Proof.
  induction l as [|kv l IH]; [done|].
  assert (Hm : (1 <= String.length (encode_member kv))%nat).
  { unfold encode_member. rewrite !str_length_app. cbn [String.length]. lia. }
  destruct l as [|kv' l]; [cbn [fmap list_fmap Join length]; lia|].
  change (Join (encode_member <$> kv :: kv' :: l) ",")
    with (encode_member kv +:+ "," +:+ Join (encode_member <$> kv' :: l) ",").
  rewrite !str_length_app. cbn [length] in *. lia.
Qed.

Lemma read_value_object fuel s t : s = String quote t ->
  read_value (S fuel) maxNestingDepth ("{" +:+ s) =
  match read_members fuel (maxNestingDepth - 1) s with Some (l, rest) => Some (JObj l, rest) | None => None end.
Proof. intros ->. reflexivity. Qed.

Lemma read_encoded_object l fuel : Forall valid_member l -> (length l + 1 < fuel)%nat ->
  read_value fuel maxNestingDepth ("{" +:+ Join (encode_member <$> l) "," +:+ "}") = Some (JObj (to_member <$> l), "").
Proof.
  intros Hv Hf. destruct fuel as [|fuel]; [lia|]. destruct l as [|kv l]; [done|].
  assert (exists t, Join (encode_member <$> kv :: l) "," +:+ "}" = String quote t) as [t Ht].
  { destruct l; [by eexists|]. by eexists. }
  rewrite (read_value_object fuel _ t Ht).
  pose proof (read_encoded_members fuel (maxNestingDepth - 1) (kv :: l) "" ltac:(done) Hv ltac:(lia)) as H.
  rewrite str_app_nil_r in H. by rewrite H.
Qed.

(** A map is read back from its encoding, if its strings are UTF-8. *)
Lemma UnmarshalStrings_Marshal m :
  map_Forall (fun k v => ValidString k = true /\ ValidString v = true) m ->
  UnmarshalStrings (MarshalStrings m) = Some m.
Proof.
  intros Hm. set (l := sort_by by_key (map_to_list m)).
  assert (Hl : Forall valid_member l).
  { unfold l. rewrite sort_by_Permutation. apply Forall_forall. intros [k v] Hin%elem_of_map_to_list. by apply Hm. }
  assert (Hmap : list_to_map (rev l) = m).
  { etransitivity; [|apply list_to_map_to_list]. apply list_to_map_proper.
    - rewrite <- Permutation_rev. unfold l. rewrite sort_by_Permutation. apply NoDup_fst_map_to_list.
    - rewrite <- Permutation_rev. unfold l. by rewrite sort_by_Permutation. }
  unfold UnmarshalStrings, UnmarshalMap, Unmarshal, MarshalStrings. fold l.
  set (text := "{" +:+ Join (encode_member <$> l) "," +:+ "}").
  enough (H : read_value (2 * String.length text + 2) maxNestingDepth text = Some (JObj (to_member <$> l), "")).
  { rewrite H. cbn [skip_space]. rewrite String.eqb_refl, strings_of_members. by rewrite Hmap. }
  apply (read_encoded_object l); [done|]. unfold text. rewrite !str_length_app. cbn [String.length].
  pose proof (Join_members_length l). lia.
Qed.

(** ** Examples *)

Definition quoted (s : string) : string := String quote (s +:+ String quote "").

Example unmarshal_values :
  Unmarshal (" {" +:+ quoted "a" +:+ ": [1, -2.5e3, 0.1, true, null ], " +:+ quoted "a" +:+ ":" +:+ quoted "x" +:+ "}")
  = Some (JObj [("a", JArr [JNum fone; JNum (float_of_Z (-2500)); JNum (fdiv fone (float_of_Z 10)); JBool true; JNull]);
                ("a", JStr "x")]).
Proof. vm_compute. reflexivity. Qed.

(** A surrogate pair, a lone surrogate, and a byte that is not UTF-8. *)
Example unmarshal_unicode :
  Unmarshal (quoted (String backslash "ud83d" +:+ String backslash "ude00" +:+ String backslash "ud800x" +:+ String "255" ""))
  = Some (JStr (EncodeRune 128512 +:+ replacement +:+ "x" +:+ replacement)).
Proof. vm_compute. reflexivity. Qed.

Example unmarshal_range :
  Unmarshal "1e308" <> None /\ Unmarshal "1e309" = None /\ Unmarshal "1e-400" = Some (JNum fzero) /\ Unmarshal "01" = None.
Proof. vm_compute. done. Qed.

Example marshal_event :
  MarshalStrings {[ "policy_id" := "a<b"; "action" := "update" ]} =
  "{" +:+ quoted "action" +:+ ":" +:+ quoted "update" +:+ "," +:+ quoted "policy_id" +:+ ":" +:+
  quoted ("a" +:+ String backslash "u003cb") +:+ "}".
Proof. vm_compute. reflexivity. Qed.
