(* ===== verification/Rounding.v ===== *)
(** * Which integers a float64 tells apart

    Integers of at most 53 bits are represented exactly, so a comparison of two
    doubles decides the equality of two integers when one of them is that small.  The
    scripts of the Redis store compare counters in this way.  Sums, products and
    quotients of doubles that are not negative are not either, and adding one of them
    to an integer does not bring it below a smaller integer: the estimate of the
    sliding counter relies on it. *)

From Stdlib Require Import SpecFloat.
From S2P Require Import Prelude GoFloat.
Local Open Scope Z_scope.

Lemma digits2_bounds p : 2 ^ (Zpos (digits2_pos p) - 1) <= Zpos p < 2 ^ Zpos (digits2_pos p).
Proof.
  induction p as [p IH|p IH|]; cbn [digits2_pos]; [| |done].
  all: rewrite Pos2Z.inj_succ; replace (Z.succ _ - 1) with (Zpos (digits2_pos p) - 1 + 1) by lia;
    rewrite Z.pow_add_r, Z.pow_succ_r, Z.pow_1_r by lia; lia.
Qed.

(** The number of digits, from the bounds. *)
Lemma digits2_unique p d : 0 < d -> 2 ^ (d - 1) <= Zpos p < 2 ^ d -> Zpos (digits2_pos p) = d.
Proof.
  intros Hd Hp. pose proof (digits2_bounds p) as Hb.
  destruct (Z.lt_trichotomy (Zpos (digits2_pos p)) d) as [H|[H|H]]; [|done|].
  - pose proof (Z.pow_le_mono_r 2 (Zpos (digits2_pos p)) (d - 1)). lia.
  - pose proof (Z.pow_le_mono_r 2 d (Zpos (digits2_pos p) - 1)). lia.
Qed.

Lemma iter_xO p n : Zpos (Pos.iter xO p n) = Zpos p * 2 ^ Zpos n.
Proof.
  induction n as [|n IH] using Pos.peano_ind; [cbn; lia|].
  rewrite Pos.iter_succ, Pos2Z.inj_xO, IH, Pos2Z.inj_succ, Z.pow_succ_r by lia. lia.
Qed.

(** A mantissa of 53 bits needs no rounding. *)
Lemma round_exact s p e :
  Zpos (digits2_pos p) = 53 -> -1074 <= e <= 971 ->
  binary_round_aux prec emax s (Zpos p) e loc_Exact = S754_finite s p e.
Proof.
  intros Hd He. unfold binary_round_aux, shr_fexp. cbn [Zdigits2]. rewrite Hd.
  assert (fexp prec emax (53 + e) - e = 0) as -> by (unfold fexp, emin, prec, emax; lia).
  cbn [shr shr_record_of_loc shr_m loc_of_shr_record round_nearest_even Zdigits2]. rewrite Hd.
  assert (fexp prec emax (53 + e) - e = 0) as -> by (unfold fexp, emin, prec, emax; lia).
  cbn [shr shr_m]. destruct (e <=? emax - prec) eqn:E; [done|]. unfold emax, prec in E. zify_bool. lia.
Qed.

(** The float of a small number: its digits, padded to 53. *)
Lemma round_small s p :
  Zpos p < 2 ^ 53 ->
  exists m, binary_round prec emax s p 0 = S754_finite s m (Zpos (digits2_pos p) - 53) /\
            Zpos m = Zpos p * 2 ^ (53 - Zpos (digits2_pos p)).
Proof.
  intros Hp. pose proof (digits2_bounds p) as Hb. set (d := Zpos (digits2_pos p)) in *.
  assert (Hd : 1 <= d <= 53).
  { split; [lia|]. destruct (Z.le_gt_cases d 53) as [|H]; [done|].
    pose proof (Z.pow_le_mono_r 2 53 (d - 1)). lia. }
  unfold binary_round. fold d. assert (fexp prec emax (d + 0) = d - 53) as -> by (unfold fexp, emin, prec, emax; lia).
  assert (exists m, shl_align p 0 (d - 53) = (m, d - 53) /\ Zpos m = Zpos p * 2 ^ (53 - d)) as (m & -> & Hm).
  { unfold shl_align. destruct (d - 53 - 0) as [|q|q] eqn:E.
    - exists p. replace (53 - d) with 0 by lia. split; [f_equal; lia|lia].
    - lia.
    - exists (Pos.iter xO p q). replace (53 - d) with (Zpos q) by lia. by rewrite iter_xO. }
  exists m. split; [|done]. apply round_exact; [|lia].
  assert (Hpow : forall k, 0 <= k -> 2 ^ k * 2 ^ (53 - d) = 2 ^ (k + (53 - d))) by (intros; rewrite Z.pow_add_r by lia; lia).
  apply digits2_unique; [lia|]. rewrite Hm. pose proof (Hpow (d - 1)) as H1. pose proof (Hpow d) as H2.
  replace (d - 1 + (53 - d)) with 52 in H1 by lia. replace (d + (53 - d)) with 53 in H2 by lia.
  change (53 - 1) with 52. rewrite <- H1, <- H2 by lia.
  assert (0 < 2 ^ (53 - d)) by (apply Z.pow_pos_nonneg; lia). nia.
Qed.

(** ** Large numbers *)

Lemma shr_1_m r : 0 <= shr_m r -> shr_m (shr_1 r) = shr_m r / 2.
Proof.
  destruct r as [m rb sb]. cbn [shr_m]. destruct m as [|[p|p|]|p]; intros Hm; cbn [shr_1 shr_m]; try lia; try done.
  - replace (Zpos p~1) with (Zpos p * 2 + 1) by lia. rewrite Z.div_add_l by lia. change (1 / 2) with 0. lia.
  - replace (Zpos p~0) with (Zpos p * 2) by lia. by rewrite Z.div_mul.
Qed.

Lemma shr_iter_m n r : 0 <= shr_m r -> shr_m (SpecFloat.iter_pos shr_1 n r) = shr_m r / 2 ^ Zpos n.
Proof.
  revert r. induction n as [n IH|n IH|]; intros r Hr; cbn [SpecFloat.iter_pos].
  - assert (H1 : 0 <= shr_m (shr_1 r)) by (rewrite shr_1_m by done; apply Z.div_pos; lia).
    rewrite !IH, shr_1_m by (rewrite ?IH by done; try apply Z.div_pos; lia).
    rewrite !Z.div_div by lia. f_equal. replace (Zpos n~1) with (Zpos n + Zpos n + 1) by lia.
    rewrite !Z.pow_add_r, Z.pow_1_r by lia. lia.
  - rewrite !IH by (rewrite ?IH by done; try apply Z.div_pos; lia). rewrite Z.div_div by lia. f_equal.
    replace (Zpos n~0) with (Zpos n + Zpos n) by lia. rewrite Z.pow_add_r by lia. lia.
  - by apply shr_1_m.
Qed.

Lemma round_nearest_even_ge m l : m <= round_nearest_even m l.
Proof. destruct l as [|[]]; cbn; [lia| |lia..]. destruct (Z.even m); lia. Qed.

(** Shifting by [n] keeps positive numbers of more than [n] digits positive, and
    does not lower the exponent. *)
Lemma shr_pos m l e n : 0 < m -> (0 < n -> 2 ^ n <= m) ->
  0 < shr_m (shr (shr_record_of_loc m l) e n).1 /\ e <= (shr (shr_record_of_loc m l) e n).2 /\
  e + n <= (shr (shr_record_of_loc m l) e n).2.
Proof.
  intros Hm Hn. assert (Hrec : shr_m (shr_record_of_loc m l) = m) by (by destruct l as [|[]]).
  destruct n as [|n|n]; cbn [shr fst snd]; rewrite ?Hrec; [lia| |lia].
  split; [|lia]. rewrite shr_iter_m, Hrec by lia. apply Z.div_str_pos.
  assert (0 < 2 ^ Zpos n) by (apply Z.pow_pos_nonneg; lia). specialize (Hn ltac:(lia)). lia.
Qed.

Lemma fexp_shift m e : 0 < m -> -1074 <= e -> 0 < fexp prec emax (Zdigits2 m + e) - e ->
  2 ^ (fexp prec emax (Zdigits2 m + e) - e) <= m.
Proof.
  intros Hm He. destruct m as [|p|p]; [lia| |lia]. cbn [Zdigits2]. pose proof (digits2_bounds p) as Hb.
  set (d := Zpos (digits2_pos p)) in *. unfold fexp, emin, prec, emax. intros H.
  etransitivity; [|apply Hb]. apply Z.pow_le_mono_r; lia.
Qed.

(** The float of a large number has a positive exponent. *)
Lemma round_large s p :
  2 ^ 53 <= Zpos p ->
  match binary_round prec emax s p 0 with
  | S754_finite s' _ e => s' = s /\ 1 <= e
  | S754_infinity s' => s' = s
  | _ => False
  end.
Proof.
  intros Hp. pose proof (digits2_bounds p) as Hb. set (d := Zpos (digits2_pos p)) in *.
  assert (Hd : 54 <= d).
  { destruct (Z.le_gt_cases 54 d) as [|H]; [done|]. pose proof (Z.pow_le_mono_r 2 d 53). lia. }
  assert (Hf : fexp prec emax (d + 0) = d - 53) by (unfold fexp, emin, prec, emax; lia).
  unfold binary_round. fold d. rewrite Hf.
  replace (shl_align p 0 (d - 53)) with (p, 0) by (unfold shl_align; destruct (d - 53 - 0) eqn:E; [done..|lia]).
  unfold binary_round_aux, shr_fexp at 1. cbn [Zdigits2]. fold d. rewrite Hf.
  pose proof (shr_pos (Zpos p) loc_Exact 0 (d - 53 - 0)) as Hs1.
  destruct (shr _ 0 (d - 53 - 0)) as [r1 e1]. cbn [fst snd] in Hs1.
  destruct Hs1 as (Hr1 & He1 & He1'); [lia| |].
  { intros _. etransitivity; [|apply Hb]. apply Z.pow_le_mono_r; lia. }
  pose proof (round_nearest_even_ge (shr_m r1) (loc_of_shr_record r1)) as Hn.
  set (m1 := round_nearest_even (shr_m r1) (loc_of_shr_record r1)) in *.
  unfold shr_fexp. pose proof (shr_pos m1 loc_Exact e1 (fexp prec emax (Zdigits2 m1 + e1) - e1)) as Hs2.
  destruct (shr _ e1 _) as [r2 e2]. cbn [fst snd] in Hs2.
  destruct Hs2 as (Hr2 & He2 & _); [lia|apply fexp_shift; lia|].
  destruct (shr_m r2) as [|q|q]; [lia| |lia]. destruct (e2 <=? _); [split; [done|lia]|done].
Qed.

(** ** Equality *)

Definition feqb (x y : float64) : bool := SFeqb x y.

Lemma feqb_finite s1 m1 e1 s2 m2 e2 :
  feqb (S754_finite s1 m1 e1) (S754_finite s2 m2 e2) = true -> s1 = s2 /\ m1 = m2 /\ e1 = e2.
Proof.
  unfold feqb, SFeqb, SFcompare. destruct s1, s2; try done;
    destruct (e1 ?= e2) eqn:E; try done; apply Z.compare_eq in E;
    change (Pos.compare_cont Eq m1 m2) with (Pos.compare m1 m2);
    destruct (Pos.compare m1 m2) eqn:Em; try done; apply Pos.compare_eq in Em; done.
Qed.

Lemma round_inj s1 s2 p q :
  Zpos q < 2 ^ 53 ->
  feqb (binary_round prec emax s1 p 0) (binary_round prec emax s2 q 0) = true -> s1 = s2 /\ p = q.
Proof.
  intros Hq. destruct (round_small s2 q Hq) as (mq & -> & Hmq). pose proof (digits2_bounds q) as Hbq.
  destruct (Z.lt_ge_cases (Zpos p) (2 ^ 53)) as [Hp|Hp].
  - destruct (round_small s1 p Hp) as (mp & -> & Hmp). intros (-> & -> & He)%feqb_finite. split; [done|].
    assert (Zpos (digits2_pos p) = Zpos (digits2_pos q)) as Hd by lia. rewrite Hd in *.
    assert (Zpos (digits2_pos q) <= 53).
    { destruct (Z.le_gt_cases (Zpos (digits2_pos q)) 53) as [|H]; [done|].
      pose proof (Z.pow_le_mono_r 2 53 (Zpos (digits2_pos q) - 1)). lia. }
    assert (0 < 2 ^ (53 - Zpos (digits2_pos q))) by (apply Z.pow_pos_nonneg; lia). nia.
  - pose proof (round_large s1 p Hp) as Hl.
    destruct (binary_round prec emax s1 p 0) as [| | |s m e]; try done; [by destruct s, s2|].
    intros (_ & _ & He)%feqb_finite. exfalso.
    assert (Zpos (digits2_pos q) <= 53); [|lia].
    destruct (Z.le_gt_cases (Zpos (digits2_pos q)) 53) as [|H]; [done|].
    pose proof (Z.pow_le_mono_r 2 53 (Zpos (digits2_pos q) - 1)). lia.
Qed.

Lemma round_not_zero s p s' : feqb (binary_round prec emax s p 0) (S754_zero s') = false.
Proof.
  destruct (Z.lt_ge_cases (Zpos p) (2 ^ 53)) as [Hp|Hp].
  - destruct (round_small s p Hp) as (m & -> & _). by destruct s.
  - pose proof (round_large s p Hp). by destruct (binary_round _ _ _ _ _) as [|[]| |[]].
Qed.

(** Doubles tell an integer below [2^53] from every other one. *)
Lemma float_eq_small a b : 0 <= b < 2 ^ 53 -> feqb (float_of_Z a) (float_of_Z b) = true -> a = b.
Proof.
  intros Hb. unfold float_of_Z. destruct b as [|q|q]; [| |lia]; cbn [binary_normalize].
  - destruct a as [|p|p]; [done|..]; cbn [binary_normalize]; by rewrite round_not_zero.
  - destruct a as [|p|p]; cbn [binary_normalize].
    + destruct (round_small false q ltac:(lia)) as (m & -> & _). done.
    + intros [_ ->]%round_inj; [done|lia].
    + intros [? _]%round_inj; [done|lia].
Qed.

Lemma feqb_refl x : is_nan x = false -> feqb x x = true.
Proof.
  destruct x as [[]|[]| |s m e]; try done. intros _. unfold feqb, SFeqb, SFcompare.
  rewrite Z.compare_refl. change (Pos.compare_cont Eq m m) with (Pos.compare m m). rewrite Pos.compare_refl.
  by destruct s.
Qed.

Lemma float_of_Z_number a : is_nan (float_of_Z a) = false.
Proof.
  assert (H : forall s p, is_nan (binary_round prec emax s p 0) = false).
  { intros s p. destruct (Z.lt_ge_cases (Zpos p) (2 ^ 53)) as [Hp|Hp].
    - by destruct (round_small s p Hp) as (m & -> & _).
    - pose proof (round_large s p Hp). by destruct (binary_round _ _ _ _ _). }
  unfold float_of_Z. destruct a; cbn [binary_normalize]; auto.
Qed.

(** ** Exact arithmetic on small integers *)

Lemma shr_1_even m : 0 < m ->
  shr_1 {| shr_m := m * 2; shr_r := false; shr_s := false |} = {| shr_m := m; shr_r := false; shr_s := false |}.
Proof. intros Hm. destruct m as [|p|p]; [lia| |lia]. by rewrite Z.mul_comm. Qed.

Lemma shr_iter_exact n m : 0 < m ->
  SpecFloat.iter_pos shr_1 n {| shr_m := m * 2 ^ Zpos n; shr_r := false; shr_s := false |}
  = {| shr_m := m; shr_r := false; shr_s := false |}.
Proof.
  revert m. induction n as [n IH|n IH|]; intros m Hm; cbn [SpecFloat.iter_pos].
  - replace (m * 2 ^ Zpos n~1) with (m * 2 ^ Zpos n * 2 ^ Zpos n * 2).
    + rewrite shr_1_even by (pose proof (Z.pow_pos_nonneg 2 (Zpos n)); nia).
      rewrite IH by (pose proof (Z.pow_pos_nonneg 2 (Zpos n)); nia). by apply IH.
    + replace (Zpos n~1) with (Zpos n + Zpos n + 1) by lia. rewrite !Z.pow_add_r, Z.pow_1_r by lia. lia.
  - replace (m * 2 ^ Zpos n~0) with (m * 2 ^ Zpos n * 2 ^ Zpos n).
    + rewrite IH by (pose proof (Z.pow_pos_nonneg 2 (Zpos n)); nia). by apply IH.
    + replace (Zpos n~0) with (Zpos n + Zpos n) by lia. rewrite Z.pow_add_r by lia. lia.
  - by apply shr_1_even.
Qed.

(** Trailing zeros are shifted out. *)
Lemma round_aux_shift s m e n :
  Zpos (digits2_pos m) = 53 -> -1074 <= e <= 971 ->
  binary_round_aux prec emax s (Zpos m * 2 ^ Zpos n) (e - Zpos n) loc_Exact = S754_finite s m e.
Proof.
  intros Hd He. set (q := Pos.iter xO m n). assert (Hq : Zpos m * 2 ^ Zpos n = Zpos q) by (by unfold q; rewrite iter_xO).
  rewrite Hq. unfold binary_round_aux, shr_fexp at 1. cbn [Zdigits2].
  assert (Zpos (digits2_pos q) = 53 + Zpos n) as ->.
  { apply digits2_unique; [lia|]. rewrite <- Hq. pose proof (digits2_bounds m) as Hb. rewrite Hd in Hb.
    replace (53 + Zpos n - 1) with (53 - 1 + Zpos n) by lia. rewrite !Z.pow_add_r by lia.
    pose proof (Z.pow_pos_nonneg 2 (Zpos n)). nia. }
  replace (fexp prec emax (53 + Zpos n + (e - Zpos n)) - (e - Zpos n)) with (Zpos n)
    by (unfold fexp, emin, prec, emax; lia).
  cbn [shr shr_record_of_loc]. rewrite <- Hq, shr_iter_exact by lia.
  cbn [shr_m loc_of_shr_record round_nearest_even]. replace (e - Zpos n + Zpos n) with e by lia.
  unfold shr_fexp. cbn [Zdigits2]. rewrite Hd.
  replace (fexp prec emax (53 + e) - e) with 0 by (unfold fexp, emin, prec, emax; lia).
  cbn [shr shr_m]. destruct (e <=? emax - prec) eqn:E; [done|]. unfold emax, prec in E. zify_bool. lia.
Qed.

(** Rounding [p * 2^k * 2^(-k)]. *)
Lemma round_scaled s p q k :
  0 <= k <= 1000 -> Zpos p < 2 ^ 53 -> Zpos q = Zpos p * 2 ^ k ->
  binary_round prec emax s q (- k) = binary_round prec emax s p 0.
Proof.
  intros Hk Hp Hq. destruct (round_small s p Hp) as (m & -> & Hm). pose proof (digits2_bounds p) as Hb.
  set (d := Zpos (digits2_pos p)) in *.
  assert (Hd : 1 <= d <= 53).
  { split; [lia|]. destruct (Z.le_gt_cases d 53) as [|H]; [done|].
    pose proof (Z.pow_le_mono_r 2 53 (d - 1)). lia. }
  assert (Hpk : 0 < 2 ^ k) by (apply Z.pow_pos_nonneg; lia).
  assert (Hpd : 0 < 2 ^ (53 - d)) by (apply Z.pow_pos_nonneg; lia).
  assert (Hdm : Zpos (digits2_pos m) = 53).
  { apply digits2_unique; [lia|]. rewrite Hm.
    replace (53 - 1) with (d - 1 + (53 - d)) by lia. replace 53 with (d + (53 - d)) at 4 by lia.
    rewrite !Z.pow_add_r by lia. nia. }
  assert (Hdq : Zpos (digits2_pos q) = d + k).
  { apply digits2_unique; [lia|]. rewrite Hq. replace (d + k - 1) with (d - 1 + k) by lia.
    rewrite !Z.pow_add_r by lia. nia. }
  unfold binary_round. rewrite Hdq.
  replace (fexp prec emax (d + k + - k)) with (d - 53) by (unfold fexp, emin, prec, emax; lia).
  destruct (Z.lt_trichotomy (d - 53) (- k)) as [H|[H|H]].
  - assert (shl_align q (- k) (d - 53) = (m, d - 53)) as ->; [|by apply round_exact; [|lia]].
    unfold shl_align. destruct (d - 53 - - k) as [|x|x] eqn:E; [exfalso; lia|exfalso; lia|]. f_equal.
    apply Pos2Z.inj. rewrite iter_xO, Hq, Hm. replace (53 - d) with (k + Zpos x) by lia.
    rewrite Z.pow_add_r by lia. lia.
  - assert (shl_align q (- k) (d - 53) = (m, d - 53)) as ->; [|by apply round_exact; [|lia]].
    unfold shl_align. replace (d - 53 - - k) with 0 by lia. f_equal; [|lia].
    apply Pos2Z.inj. rewrite Hq, Hm. do 2 f_equal. lia.
  - assert (shl_align q (- k) (d - 53) = (q, - k)) as ->.
    { unfold shl_align. destruct (d - 53 - - k) as [|x|x] eqn:E; [done..|lia]. }
    destruct (d - 53 + k) as [|n|n] eqn:E; [lia| |lia].
    replace (Zpos q) with (Zpos m * 2 ^ Zpos n).
    + replace (- k) with (d - 53 - Zpos n) by lia. by apply round_aux_shift; [|lia].
    + rewrite Hq, Hm. rewrite <- Z.mul_assoc, <- Z.pow_add_r by lia. do 2 f_equal. lia.
Qed.

(** A small integer as a float: sign, mantissa and exponent. *)
Lemma float_small n : n <> 0 -> - 2 ^ 53 < n < 2 ^ 53 ->
  exists m e, float_of_Z n = S754_finite (n <? 0) m e /\ -52 <= e <= 0 /\ cond_Zopp (n <? 0) (Zpos m) = n * 2 ^ (- e).
Proof.
  intros H0 Hn. destruct n as [|p|p]; [done|..]; unfold float_of_Z; cbn [binary_normalize Z.ltb Z.compare].
  - destruct (round_small false p ltac:(lia)) as (m & -> & Hm).
    exists m, (Zpos (digits2_pos p) - 53). cbn [cond_Zopp]. pose proof (digits2_bounds p) as Hb.
    split_and!; [done|lia| |rewrite Hm; do 2 f_equal; lia].
    destruct (Z.le_gt_cases (Zpos (digits2_pos p)) 53) as [|H]; [lia|].
    pose proof (Z.pow_le_mono_r 2 53 (Zpos (digits2_pos p) - 1)). lia.
  - destruct (round_small true p ltac:(lia)) as (m & -> & Hm).
    exists m, (Zpos (digits2_pos p) - 53). cbn [cond_Zopp]. pose proof (digits2_bounds p) as Hb.
    split_and!; [done|lia| |rewrite Hm; rewrite <- Z.mul_opp_l; do 2 f_equal; lia].
    destruct (Z.le_gt_cases (Zpos (digits2_pos p)) 53) as [|H]; [lia|].
    pose proof (Z.pow_le_mono_r 2 53 (Zpos (digits2_pos p) - 1)). lia.
Qed.

(** A scaled small integer is normalized to its float. *)
Lemma normalize_scaled n k : - 2 ^ 53 < n < 2 ^ 53 -> 0 <= k <= 1000 ->
  binary_normalize prec emax (n * 2 ^ k) (- k) false = float_of_Z n.
Proof.
  intros Hn Hk. assert (Hpk : 0 < 2 ^ k) by (apply Z.pow_pos_nonneg; lia). unfold float_of_Z.
  destruct n as [|p|p]; [done|..]; cbn [binary_normalize].
  - destruct (Zpos p * 2 ^ k) as [|q|q] eqn:E; [lia| |lia]. cbn [binary_normalize]. by apply round_scaled; [|lia|].
  - destruct (Zneg p * 2 ^ k) as [|q|q] eqn:E; [lia|lia|]. cbn [binary_normalize]. apply round_scaled; lia.
Qed.

Lemma shl_align_value m e ez : ez <= e -> Zpos (shl_align m e ez).1 = Zpos m * 2 ^ (e - ez).
Proof.
  intros H. unfold shl_align. destruct (ez - e) as [|x|x] eqn:E; [|lia|]; cbn [fst].
  - replace (e - ez) with 0 by lia. lia.
  - rewrite iter_xO. do 2 f_equal. lia.
Qed.

Lemma cond_Zopp_mul s x y : cond_Zopp s (x * y) = cond_Zopp s x * y.
Proof. destruct s; cbn [cond_Zopp]; lia. Qed.

Lemma aligned_small n m e ez : -52 <= e <= 0 -> ez <= e -> cond_Zopp (n <? 0) (Zpos m) = n * 2 ^ (- e) ->
  cond_Zopp (n <? 0) (Zpos (shl_align m e ez).1) = n * 2 ^ (- ez).
Proof.
  intros He Hez Hm. rewrite shl_align_value, cond_Zopp_mul, Hm by done.
  rewrite <- Z.mul_assoc, <- Z.pow_add_r by lia. do 2 f_equal. lia.
Qed.

(** Sums and differences of small integers are exact. *)
Lemma fadd_small a b : - 2 ^ 53 < a < 2 ^ 53 -> - 2 ^ 53 < b < 2 ^ 53 -> - 2 ^ 53 < a + b < 2 ^ 53 ->
  fadd (float_of_Z a) (float_of_Z b) = float_of_Z (a + b).
Proof.
  intros Ha Hb Hab. destruct (decide (a = 0)) as [->|Ha0].
  { destruct (decide (b = 0)) as [->|Hb0]; [done|].
    destruct (float_small b Hb0 Hb) as (m & e & E & _). by rewrite Z.add_0_l, E. }
  destruct (float_small a Ha0 Ha) as (ma & ea & Ea & Hea & Hma). rewrite Ea.
  destruct (decide (b = 0)) as [->|Hb0]; [by rewrite Z.add_0_r, Ea|].
  destruct (float_small b Hb0 Hb) as (mb & eb & Eb & Heb & Hmb). rewrite Eb. unfold fadd, SFadd.
  rewrite (aligned_small a ma ea), (aligned_small b mb eb) by (done || lia). rewrite <- Z.mul_add_distr_r.
  rewrite <- (Z.opp_involutive (Z.min ea eb)) at 2. apply normalize_scaled; lia.
Qed.

Lemma fsub_small a b : - 2 ^ 53 < a < 2 ^ 53 -> - 2 ^ 53 < b < 2 ^ 53 -> b <> 0 -> - 2 ^ 53 < a - b < 2 ^ 53 ->
  a <> 0 -> fsub (float_of_Z a) (float_of_Z b) = float_of_Z (a - b).
Proof.
  intros Ha Hb Hb0 Hab Ha0.
  destruct (float_small a Ha0 Ha) as (ma & ea & Ea & Hea & Hma). rewrite Ea.
  destruct (float_small b Hb0 Hb) as (mb & eb & Eb & Heb & Hmb). rewrite Eb. unfold fsub, SFsub.
  rewrite (aligned_small a ma ea), (aligned_small b mb eb) by (done || lia). rewrite <- Z.mul_sub_distr_r.
  rewrite <- (Z.opp_involutive (Z.min ea eb)) at 2. apply normalize_scaled; lia.
Qed.

(** ** Order *)

Lemma digits_small p : Zpos p < 2 ^ 53 -> 1 <= Zpos (digits2_pos p) <= 53.
Proof.
  intros Hp. pose proof (digits2_bounds p). split; [lia|].
  destruct (Z.le_gt_cases (Zpos (digits2_pos p)) 53) as [|H1]; [done|].
  pose proof (Z.pow_le_mono_r 2 53 (Zpos (digits2_pos p) - 1)). lia.
Qed.

Lemma digits_mono p q : (p <= q)%positive -> Zpos (digits2_pos p) <= Zpos (digits2_pos q).
Proof.
  intros H. pose proof (digits2_bounds p) as Hp. pose proof (digits2_bounds q) as Hq.
  destruct (Z.le_gt_cases (Zpos (digits2_pos p)) (Zpos (digits2_pos q))) as [|H1]; [done|].
  pose proof (Z.pow_le_mono_r 2 (Zpos (digits2_pos q)) (Zpos (digits2_pos p) - 1)). lia.
Qed.

Lemma round_lt_small p q : Zpos p < 2 ^ 53 -> Zpos q < 2 ^ 53 ->
  SFltb (binary_round prec emax false p 0) (binary_round prec emax false q 0) = (Zpos p <? Zpos q).
Proof.
  intros Hp Hq. destruct (round_small false p Hp) as (mp & -> & Hmp), (round_small false q Hq) as (mq & -> & Hmq).
  pose proof (digits_small p Hp). pose proof (digits_small q Hq). unfold SFltb, SFcompare.
  destruct (Z.compare_spec (Zpos (digits2_pos p) - 53) (Zpos (digits2_pos q) - 53)) as [He|He|He].
  - assert (0 < 2 ^ (53 - Zpos (digits2_pos q))) by (apply Z.pow_pos_nonneg; lia).
    replace (Zpos (digits2_pos p)) with (Zpos (digits2_pos q)) in Hmp by lia.
    change (Pos.compare_cont Eq mp mq) with (Zpos mp ?= Zpos mq). rewrite Hmp, Hmq.
    destruct (Z.compare_spec (Zpos p * 2 ^ (53 - Zpos (digits2_pos q))) (Zpos q * 2 ^ (53 - Zpos (digits2_pos q))));
      symmetry; [apply Z.ltb_ge|apply Z.ltb_lt|apply Z.ltb_ge]; nia.
  - symmetry. apply Z.ltb_lt. destruct (Pos.leb_spec q p) as [Hc|]; [|lia]. apply digits_mono in Hc. lia.
  - symmetry. apply Z.ltb_ge. destruct (Pos.leb_spec q p) as [Hc|Hc]; [lia|].
    pose proof (digits_mono p q ltac:(lia)). lia.
Qed.

(** Comparison with an integer below [2^53] is exact. *)
Lemma float_gt_small n limit : 0 < limit < 2 ^ 53 -> 0 <= n ->
  fgtb (float_of_Z n) (float_of_Z limit) = (limit <? n).
Proof.
  intros Hl Hn. destruct limit as [|q|q]; [lia| |lia]. unfold fgtb, float_of_Z. cbn [binary_normalize].
  destruct n as [|p|p]; [|cbn [binary_normalize]|lia].
  - by destruct (round_small false q ltac:(lia)) as (m & -> & _).
  - destruct (Z.lt_ge_cases (Zpos p) (2 ^ 53)) as [Hp|Hp]; [by apply round_lt_small; lia|].
    destruct (round_small false q ltac:(lia)) as (m & -> & _). rewrite (proj2 (Z.ltb_lt (Zpos q) (Zpos p))) by lia.
    pose proof (round_large false p Hp) as Hr. pose proof (digits_small q ltac:(lia)) as Hd.
    destruct (binary_round prec emax false p 0) as [| | |s m' e]; [done|by subst|done|].
    destruct Hr as [-> He]. unfold SFltb, SFcompare.
    by rewrite (proj2 (Z.compare_lt_iff _ e)) by lia.
Qed.

Lemma float_le_zero n : 0 <= n -> fleb (float_of_Z n) fzero = (n =? 0).
Proof.
  intros Hn. destruct n as [|p|p]; [done| |lia]. unfold fleb, float_of_Z. cbn [binary_normalize Z.eqb].
  destruct (Z.lt_ge_cases (Zpos p) (2 ^ 53)) as [Hp|Hp].
  - by destruct (round_small false p Hp) as (m & -> & _).
  - pose proof (round_large false p Hp) as Hr.
    destruct (binary_round prec emax false p 0) as [| | |s m e]; [done|by subst|done|by destruct Hr as [-> _]].
Qed.

Lemma float_neg_le_zero p : fleb (float_of_Z (Zneg p)) fzero = true.
Proof.
  unfold fleb, float_of_Z. cbn [binary_normalize]. destruct (Z.lt_ge_cases (Zpos p) (2 ^ 53)) as [Hp|Hp].
  - by destruct (round_small true p Hp) as (m & -> & _).
  - pose proof (round_large true p Hp) as Hr.
    destruct (binary_round prec emax true p 0) as [| | |s m e]; [done|by subst|done|by destruct Hr as [-> _]].
Qed.

(** Small integers come back. *)
Lemma trunc_small n : 0 <= n < 2 ^ 53 -> trunc_Z (float_of_Z n) = Some n.
Proof.
  intros Hn. destruct n as [|p|p]; [done| |lia]. unfold float_of_Z. cbn [binary_normalize].
  destruct (round_small false p ltac:(lia)) as (m & -> & Hm). pose proof (digits_small p ltac:(lia)) as Hd.
  set (d := Zpos (digits2_pos p)) in *. cbn [trunc_Z].
  f_equal. destruct (0 <=? d - 53) eqn:E; zify_bool.
  - replace (d - 53) with 0 by lia. replace (53 - d) with 0 in Hm by lia. lia.
  - rewrite Hm. replace (- (d - 53)) with (53 - d) by lia. apply Z.div_mul, Z.pow_nonzero; lia.
Qed.

Lemma int64_of_float_small n : 0 <= n < 2 ^ 53 -> int64_of_float (float_of_Z n) = n.
Proof. intros Hn. unfold int64_of_float. rewrite trunc_small by done. unfold minInt64, maxInt64. zcases. Qed.

(** Numbers are comparable. *)
Lemma fleb_not_gt x y : is_nan x = false -> is_nan y = false -> fleb x y = negb (fgtb x y).
Proof.
  intros Hx Hy. unfold fleb, fgtb, SFleb, SFltb, SFcompare.
  destruct x as [[]|[]| |[] m e], y as [[]|[]| |[] m' e']; try done;
    rewrite (Z.compare_antisym e' e); change (PosDef.Pos.compare_cont Eq m' m) with (m' ?= m)%positive;
    change (PosDef.Pos.compare_cont Eq m m') with (m ?= m')%positive; rewrite (Pos.compare_antisym m' m);
    destruct (e' ?= e); try done; cbn [CompOpp]; by destruct (m' ?= m)%positive.
Qed.

(** ** Sums *)

Lemma digits_bound p d : Zpos p < 2 ^ d -> Zpos (digits2_pos p) <= d.
Proof.
  intros Hp. pose proof (digits2_bounds p) as Hb. destruct (Z.le_gt_cases (Zpos (digits2_pos p)) d) as [|H]; [done|].
  pose proof (Z.pow_le_mono_r 2 d (Zpos (digits2_pos p) - 1)). lia.
Qed.

(** Shifting divides the mantissa and raises the exponent. *)
Lemma shr_value m l e n : 0 <= m -> 0 <= n ->
  shr_m (shr (shr_record_of_loc m l) e n).1 = m / 2 ^ n /\ (shr (shr_record_of_loc m l) e n).2 = e + n.
Proof.
  intros Hm Hn. assert (Hrec : shr_m (shr_record_of_loc m l) = m) by (by destruct l as [|[]]).
  destruct n as [|n|n]; [| |lia]; cbn [shr fst snd]; [rewrite Hrec, Z.pow_0_r, Z.div_1_r; lia|].
  by rewrite shr_iter_m, Hrec by lia.
Qed.

(** Rounding a mantissa of at least 53 bits keeps at least its leading 53. *)
Lemma round_aux_ge p e n :
  n = Zpos (digits2_pos p) - 53 -> 0 <= n -> -1074 <= e + n ->
  match binary_round_aux prec emax false (Zpos p) e loc_Exact with
  | S754_finite s q e' => s = false /\ (e + n < e' \/ e' = e + n /\ Zpos p / 2 ^ n <= Zpos q)
  | S754_infinity s => s = false
  | _ => False
  end.
Proof.
  intros Hn Hn0 He. pose proof (digits2_bounds p) as Hb. unfold binary_round_aux, shr_fexp at 1. cbn [Zdigits2].
  replace (fexp prec emax (Zpos (digits2_pos p) + e) - e) with n by (unfold fexp, emin, prec, emax; lia).
  pose proof (shr_value (Zpos p) loc_Exact e n ltac:(lia) Hn0) as Hs1. destruct (shr _ e n) as [r1 e1].
  cbn [fst snd] in Hs1. destruct Hs1 as [Hr1 ->].
  pose proof (round_nearest_even_ge (shr_m r1) (loc_of_shr_record r1)) as Hm1. rewrite Hr1 in Hm1 at 1.
  set (m1 := round_nearest_even (shr_m r1) (loc_of_shr_record r1)) in *.
  assert (Hlow : 2 ^ 52 <= Zpos p / 2 ^ n).
  { apply Z.div_le_lower_bound; [apply Z.pow_pos_nonneg; lia|]. rewrite <- Z.pow_add_r by lia.
    replace (n + 52) with (Zpos (digits2_pos p) - 1) by lia. lia. }
  destruct m1 as [|q1|q1]; [lia| |lia]. unfold shr_fexp. cbn [Zdigits2].
  assert (Hd1 : 53 <= Zpos (digits2_pos q1)).
  { pose proof (digits2_bounds q1) as Hb1. destruct (Z.le_gt_cases 53 (Zpos (digits2_pos q1))) as [|H]; [done|].
    pose proof (Z.pow_le_mono_r 2 (Zpos (digits2_pos q1)) 52). lia. }
  set (n2 := fexp prec emax (Zpos (digits2_pos q1) + (e + n)) - (e + n)).
  assert (Hn2 : n2 = Zpos (digits2_pos q1) - 53) by (unfold n2, fexp, emin, prec, emax; lia).
  pose proof (shr_value (Zpos q1) loc_Exact (e + n) n2 ltac:(lia) ltac:(lia)) as Hs2.
  destruct (shr _ (e + n) n2) as [r2 e2]. cbn [fst snd] in Hs2. destruct Hs2 as [Hr2 ->].
  assert (Hpos : 0 < Zpos q1 / 2 ^ n2).
  { apply Z.div_str_pos. split; [apply Z.pow_pos_nonneg; lia|]. pose proof (digits2_bounds q1).
    pose proof (Z.pow_le_mono_r 2 n2 (Zpos (digits2_pos q1) - 1)). lia. }
  rewrite Hr2. destruct (Zpos q1 / 2 ^ n2) as [|q2|q2] eqn:Eq; [lia| |lia].
  destruct (_ <=? emax - prec); [|done]. split; [done|].
  destruct (decide (n2 = 0)) as [E0|E0]; [right|left; lia]. rewrite E0, Z.pow_0_r, Z.div_1_r in Eq. split; [lia|].
  injection Eq as <-. lia.
Qed.

(** Aligning a mantissa keeps its value and gives it at least 53 bits. *)
Lemma align_value p e : 1 <= Zpos (digits2_pos p) + e ->
  let D := Zpos (digits2_pos p) + e in
  exists q f, shl_align p e (fexp prec emax D) = (q, f) /\ f <= e /\ Zpos q = Zpos p * 2 ^ (e - f) /\
    Zpos (digits2_pos q) + f = D /\ f <= D - 53.
Proof.
  intros HD D. pose proof (digits2_bounds p) as Hb.
  assert (Hf : fexp prec emax D = D - 53) by (unfold D, fexp, emin, prec, emax; lia). rewrite Hf. unfold shl_align.
  destruct (D - 53 - e) as [|x|x] eqn:E.
  - exists p, e. rewrite Z.sub_diag, Z.pow_0_r. split_and!; unfold D in *; lia || done.
  - exists p, e. rewrite Z.sub_diag, Z.pow_0_r. split_and!; unfold D in *; lia || done.
  - exists (Pos.iter xO p x), (D - 53). replace (e - (D - 53)) with (Zpos x) by lia. rewrite iter_xO.
    split_and!; [done|lia|done| |lia]. enough (Zpos (digits2_pos (Pos.iter xO p x)) = Zpos (digits2_pos p) + Zpos x) by lia.
    apply digits2_unique; [lia|]. rewrite iter_xO.
    replace (Zpos (digits2_pos p) + Zpos x - 1) with (Zpos (digits2_pos p) - 1 + Zpos x) by lia.
    rewrite !Z.pow_add_r by lia. assert (0 < 2 ^ Zpos x) by (apply Z.pow_pos_nonneg; lia). nia.
Qed.

(** A number above an integer below [2^53] does not round down to it. *)
Lemma round_above p e L :
  0 < L < 2 ^ 53 -> e <= 0 -> (L + 1) * 2 ^ (- e) <= Zpos p ->
  SFltb (float_of_Z L) (binary_round prec emax false p e) = true.
Proof.
  intros HL He Hv. pose proof (digits2_bounds p) as Hb. assert (He2 : 0 < 2 ^ (- e)) by (apply Z.pow_pos_nonneg; lia).
  destruct L as [|l|l]; [lia| |lia]. pose proof (digits2_bounds l) as Hbl.
  set (dl := Zpos (digits2_pos l)) in *. set (d := Zpos (digits2_pos p)) in *.
  assert (HD : dl <= d + e).
  { destruct (Z.le_gt_cases dl (d + e)) as [|H]; [done|]. exfalso.
    assert (2 ^ d <= 2 ^ (dl - 1) * 2 ^ (- e)) by (rewrite <- Z.pow_add_r by lia; apply Z.pow_le_mono_r; lia). nia. }
  destruct (align_value p e) as (q & f & Eal & Hfe & Hq & Hdq & Hf); [unfold dl in HD; fold d; lia|]. fold d in Eal, Hdq, Hf.
  unfold float_of_Z. cbn [binary_normalize]. destruct (round_small false l ltac:(lia)) as (m & -> & Hm). fold dl in Hm |- *.
  unfold binary_round. fold d. rewrite Eal.
  pose proof (round_aux_ge q f (d + e - 53 - f) ltac:(lia) ltac:(lia) ltac:(unfold dl in HD; lia)) as Hr.
  destruct (binary_round_aux prec emax false (Zpos q) f loc_Exact) as [|s| |s r e']; [done|by subst s|done|].
  destruct Hr as [-> Hr]. unfold SFltb, SFcompare. destruct (Z.compare_spec (dl - 53) e') as [Hc|Hc|Hc]; [|done|lia].
  destruct Hr as [Hr|[Hr Hge]]; [lia|]. change (Pos.compare_cont Eq m r) with (Zpos m ?= Zpos r).
  assert (Hd53 : dl <= 53) by (apply digits_bound; lia).
  enough (Zpos m < Zpos r) as Hlt by (by rewrite (proj2 (Z.compare_lt_iff _ _) Hlt)).
  eapply Z.lt_le_trans; [|exact Hge]. apply Z.lt_le_trans with ((Zpos l + 1) * 2 ^ (53 - dl)).
  { rewrite Hm. apply Z.mul_lt_mono_pos_r; [apply Z.pow_pos_nonneg; lia|lia]. }
  apply Z.div_le_lower_bound; [apply Z.pow_pos_nonneg; lia|]. rewrite Hq.
  replace (d + e - 53 - f) with (dl - 53 - f) by lia.
  replace (2 ^ (dl - 53 - f) * ((Zpos l + 1) * 2 ^ (53 - dl))) with ((Zpos l + 1) * (2 ^ (53 - dl) * 2 ^ (dl - 53 - f))) by lia.
  rewrite <- Z.pow_add_r by lia. replace (53 - dl + (dl - 53 - f)) with (- e + (e - f)) by lia.
  rewrite Z.pow_add_r by lia. assert (0 < 2 ^ (e - f)) by (apply Z.pow_pos_nonneg; lia). nia.
Qed.

(** Not negative, and a number. *)
Definition nonneg (x : float64) : bool :=
  match x with S754_zero _ => true | S754_infinity s => negb s | S754_nan => false | S754_finite s _ _ => negb s end.

(** Adding to an integer does not bring it down to a smaller one. *)
Lemma fadd_above n L y : 0 < L -> L < n < 2 ^ 53 -> nonneg y = true -> fgtb (fadd (float_of_Z n) y) (float_of_Z L) = true.
Proof.
  intros HL Hn Hy. destruct (float_small n ltac:(lia) ltac:(lia)) as (m & e & En & He & Hm).
  rewrite (proj2 (Z.ltb_ge n 0)) in En, Hm by lia. cbn [cond_Zopp] in Hm.
  assert (Hbase : fgtb (float_of_Z n) (float_of_Z L) = true) by (rewrite float_gt_small by lia; by apply Z.ltb_lt; lia).
  rewrite En in Hbase |- *. destruct y as [s|[]| |[] my ey]; try done.
  - unfold fadd, fgtb. cbn [SFadd]. unfold float_of_Z. destruct L as [|l|l]; [lia| |lia]. cbn [binary_normalize].
    by destruct (round_small false l ltac:(lia)) as (? & -> & _).
  - unfold fadd, fgtb. cbn [SFadd cond_Zopp]. set (ez := Z.min e ey).
    assert (Hx : Zpos (shl_align m e ez).1 = Zpos m * 2 ^ (e - ez)) by (apply shl_align_value; lia).
    destruct (Zpos (shl_align m e ez).1 + Zpos (shl_align my ey ez).1) as [|q|q] eqn:Eq; [lia| |lia].
    cbn [binary_normalize]. apply round_above; [lia|lia|]. rewrite <- Eq, Hx, Hm.
    rewrite <- Z.mul_assoc, <- Z.pow_add_r by lia. replace (- e + (e - ez)) with (- ez) by lia.
    assert (0 < 2 ^ (- ez)) by (apply Z.pow_pos_nonneg; lia). nia.
Qed.

(** ** Products and quotients *)

Definition finite (x : float64) : bool :=
  match x with S754_zero _ | S754_finite _ _ _ => true | _ => false end.

Lemma shr_nonneg m l e n : 0 <= m -> 0 <= shr_m (shr (shr_record_of_loc m l) e n).1 <= m /\
  (shr (shr_record_of_loc m l) e n).2 = Z.max e (e + n).
Proof.
  intros Hm. assert (Hrec : shr_m (shr_record_of_loc m l) = m) by (by destruct l as [|[]]).
  destruct n as [|n|n]; cbn [shr fst snd]; rewrite ?Hrec; [lia| |lia]. rewrite shr_iter_m, Hrec by lia.
  split; [|lia]. assert (0 < 2 ^ Zpos n) by (apply Z.pow_pos_nonneg; lia).
  split; [apply Z.div_pos; lia|]. apply Z.div_le_upper_bound; nia.
Qed.

Lemma round_nearest_even_le m l : round_nearest_even m l <= m + 1.
Proof. destruct l as [|[]]; cbn; [lia| |lia..]. destruct (Z.even m); lia. Qed.

Lemma Zdigits2_bound m k : 0 <= k -> 0 <= m < 2 ^ k -> Zdigits2 m <= k.
Proof. intros Hk Hm. destruct m as [|p|p]; cbn [Zdigits2]; [done|apply digits_bound; lia|lia]. Qed.

(** Rounding keeps the sign, and a number far from the largest one stays finite. *)
Lemma round_aux_range s m e l : 0 <= m ->
  binary_round_aux prec emax s m e l = S754_zero s \/
  (exists m' e', binary_round_aux prec emax s m e l = S754_finite s m' e') \/
  (binary_round_aux prec emax s m e l = S754_infinity s /\ ~ (m < 2 ^ 200 /\ e <= 200)).
Proof.
  intros Hm. unfold binary_round_aux, shr_fexp. set (n := fexp prec emax (Zdigits2 m + e) - e).
  pose proof (shr_nonneg m l e n Hm) as Hs1. destruct (shr _ e n) as [r1 e1]. cbn [fst snd] in Hs1.
  destruct Hs1 as [Hr1 He1]. pose proof (round_nearest_even_ge (shr_m r1) (loc_of_shr_record r1)) as Hg.
  pose proof (round_nearest_even_le (shr_m r1) (loc_of_shr_record r1)) as Hl.
  set (m1 := round_nearest_even (shr_m r1) (loc_of_shr_record r1)) in *.
  set (n2 := fexp prec emax (Zdigits2 m1 + e1) - e1).
  pose proof (shr_nonneg m1 loc_Exact e1 n2 ltac:(lia)) as Hs2. destruct (shr _ e1 n2) as [r2 e2].
  cbn [fst snd] in Hs2. destruct Hs2 as [Hr2 He2]. destruct (shr_m r2) as [|q|q]; [by left| |lia]. right.
  destruct (e2 <=? emax - prec) eqn:E; [left; by eexists _, _|]. right. split; [done|].
  intros [Hm2 He]. apply Z.leb_gt in E. assert (Hd : Zdigits2 m <= 200) by (apply Zdigits2_bound; lia).
  assert (Hd1 : Zdigits2 m1 <= 201).
  { apply Zdigits2_bound; [lia|]. change (2 ^ 201) with (2 ^ 200 + 2 ^ 200). lia. }
  unfold n2, n, fexp, emin, prec, emax in *. lia.
Qed.

Lemma fmul_nonneg x y : nonneg x = true -> nonneg y = true -> finite x = true -> finite y = true -> nonneg (fmul x y) = true.
Proof.
  intros Hx Hy Fx Fy. unfold fmul. destruct x as [sx|sx| |[] mx ex], y as [sy|sy| |[] my ey]; try done. cbn [SFmul xorb].
  by destruct (round_aux_range false (Zpos (mx * my)) (ex + ey) loc_Exact ltac:(lia)) as [->|[(? & ? & ->)|[-> _]]].
Qed.

(** A small positive integer: 53 bits. *)
Lemma float_normal n : 0 < n < 2 ^ 53 ->
  exists m e, float_of_Z n = S754_finite false m e /\ -52 <= e <= 0 /\ Zpos (digits2_pos m) = 53.
Proof.
  intros Hn. destruct n as [|p|p]; [lia| |lia]. unfold float_of_Z. cbn [binary_normalize].
  destruct (round_small false p ltac:(lia)) as (m & -> & Hm). pose proof (digits_small p ltac:(lia)) as Hd.
  eexists m, _. split_and!; [done|lia|lia|]. apply digits2_unique; [lia|]. rewrite Hm. pose proof (digits2_bounds p).
  set (d := Zpos (digits2_pos p)) in *. assert (0 < 2 ^ (53 - d)) by (apply Z.pow_pos_nonneg; lia).
  replace (53 - 1) with (d - 1 + (53 - d)) by lia. replace 53 with (d + (53 - d)) at 4 by lia.
  rewrite !Z.pow_add_r by lia. nia.
Qed.

Lemma float_nonneg n : 0 <= n < 2 ^ 53 -> nonneg (float_of_Z n) = true /\ finite (float_of_Z n) = true.
Proof.
  intros Hn. destruct (decide (n = 0)) as [->|H]; [done|]. by destruct (float_normal n ltac:(lia)) as (m & e & -> & _).
Qed.

Lemma fdiv_small a b : 0 <= a < 2 ^ 53 -> 0 < b < 2 ^ 53 ->
  nonneg (fdiv (float_of_Z a) (float_of_Z b)) = true /\ finite (fdiv (float_of_Z a) (float_of_Z b)) = true.
Proof.
  intros Ha Hb. destruct (float_normal b Hb) as (mb & eb & -> & Heb & Hdb). destruct (decide (a = 0)) as [->|H0]; [done|].
  destruct (float_normal a ltac:(lia)) as (ma & ea & -> & Hea & Hda). unfold fdiv, SFdiv, SFdiv_core_binary. cbn [Zdigits2].
  rewrite Hda, Hdb. replace (Z.min (fexp prec emax (53 + ea - (53 + eb))) (ea - eb)) with (ea - eb - 53)
    by (unfold fexp, emin, prec, emax; lia).
  replace (ea - eb - (ea - eb - 53)) with 53 by lia.
  pose proof (Z_div_mod (Z.shiftl (Zpos ma) 53) (Zpos mb) ltac:(lia)) as Hq.
  destruct (Z.div_eucl (Z.shiftl (Zpos ma) 53) (Zpos mb)) as [q r]. rewrite Z.shiftl_mul_pow2 in Hq by lia.
  destruct Hq as [Hq Hr]. pose proof (digits2_bounds ma) as Hba. rewrite Hda in Hba. cbn [xorb].
  destruct (round_aux_range false q (ea - eb - 53) (new_location (Zpos mb) r)) as [->|[(? & ? & ->)|[-> Hinf]]];
    [nia|done..|]. exfalso. apply Hinf. split; [|lia]. change (2 ^ 200) with (2 ^ 53 * 2 ^ 53 * 2 ^ 94). nia.
Qed.
