(* ===== verification/RedisStore.v ===== *)
(** * internal/store/counter/redis: the counter store on Redis

    The store sends commands and Lua scripts to a Redis server.  The server is a
    parameter: [exec] executes one command, and [RedisLaws] says what the store
    relies on of GET, SET and expiry.  The scripts are translated line by line; they
    run atomically, and what they compute with numbers is done in doubles, as Lua
    does.  A message may be lost on its way to the server or back, and go-redis may
    send it again: [deliver] says how often a script was run and whether its last
    reply arrived. *)

From Stdlib Require Import SpecFloat.
From S2P Require Import Prelude GoString GoFloat GoTime Model Store Protocol Rounding.
Local Open Scope Z_scope.
Local Open Scope stdpp_scope.
Local Open Scope go_scope.

(** ** Commands, replies and scripts *)

Inductive RedisCmd : Type -> Type :=
| GET (key : string) : RedisCmd (option string)
| SET (key value : string) (px : option string) : RedisCmd unit
| INCRBY (key increment : string) : RedisCmd int64
| INCR (key : string) : RedisCmd int64
| DECR (key : string) : RedisCmd int64
| PEXPIRE (key ms : string) : RedisCmd unit
| DEL (key : string) : RedisCmd unit
| ZADD (key score member : string) : RedisCmd unit
| ZCOUNT (key min max : string) : RedisCmd int64
| ZREMRANGEBYSCORE (key min max : string) : RedisCmd unit.

Definition cmd_key {R} (c : RedisCmd R) : string :=
  match c with
  | GET k | SET k _ _ | INCRBY k _ | INCR k | DECR k | PEXPIRE k _ | DEL k
  | ZADD k _ _ | ZCOUNT k _ _ | ZREMRANGEBYSCORE k _ _ => k
  end.

(** A reply is a value or an array of values, as the scripts return them. *)
Inductive Value := VInt (n : int64) | VBulk (s : string) | VNil.
Inductive Reply := One (v : Value) | Array (l : list Value).
Abbreviation RInt n := (One (VInt n)).

(** What the scripts use of Lua in Redis: [tonumber], [tostring], the text of a
    number that is passed to a command, and the numbers [math.random(1000000)]
    returns in one run of a script, one after the other. *)
Record Lua := {
  tonumber : string -> option float64;
  tostring : float64 -> string;
  argument : float64 -> string;
  random : nat -> Z
}.

(** A script changes the state of the server, and may raise an error. *)
Definition script (K A : Type) : Type := K -> result A * K.

#[export] Instance script_mret {K} : MRet (script K) := fun A a k => (Ok a, k).
#[export] Instance script_mbind {K} : MBind (script K) := fun A B f s k =>
  match s k with
  | (Ok a, k') => f a k'
  | (Err e, k') => (Err e, k')
  end.

Definition raise {K A} (e : string) : script K A := fun k => (Err e, k).

(** [x == y], where both may be nil. *)
Definition lua_eqb (x y : option float64) : bool :=
  match x, y with
  | Some a, Some b => feqb a b
  | None, None => true
  | _, _ => false
  end.

Section Scripts.
Context {K : Type} (exec : forall R, RedisCmd R -> K -> result R * K) (lua : Lua).

(** [redis.call]. *)
Definition rcall {R} (c : RedisCmd R) : script K R := exec R c.

(** [tonumber(s)] where a number is needed. *)
Definition number (s : string) : script K float64 :=
  match tonumber lua s with Some x => mret x | None => raise "attempt to use a nil value" end.

(** A number returned by a script: the integer part. *)
Definition integer_of (x : float64) : Value := VInt (int64_of_float x).

(** [if ttl > 0 then redis.call('PEXPIRE', key, ttl) end]. *)
Definition expire_if (key : string) (ttl : float64) : script K unit :=
  if fgtb ttl fzero then rcall (PEXPIRE key (argument lua ttl)) else mret tt.

Definition incrScript (key argv1 argv2 : string) : script K Reply :=
  increment ← number argv1;
  n ← rcall (INCRBY key (argument lua increment));
  let val := float_of_Z n in
  ttl ← number argv2;
  _ ← (if fgtb ttl fzero then
         if lua_eqb (Some val) (tonumber lua argv1) then rcall (PEXPIRE key (argument lua ttl)) else mret tt
       else mret tt);
  mret (One (integer_of val)).

Definition casScript (key argv1 argv2 argv3 : string) : script K Reply :=
  got ← rcall (GET key);
  let cur := tonumber lua (default "0" got) in
  if lua_eqb cur (tonumber lua argv1) then
    ttl ← number argv3;
    _ ← (if fgtb ttl fzero then rcall (SET key argv2 (Some (argument lua ttl))) else rcall (SET key argv2 None));
    mret (RInt 1)
  else mret (RInt 0).

Definition addTSScript (key argv1 argv2 : string) : script K Reply :=
  _ ← rcall (ZADD key argv1 argv1);
  ttl ← number argv2;
  _ ← expire_if key ttl;
  mret (RInt 1).

(** The loop [for i = 1, cost do ... end], from [i] on. *)
Fixpoint add_entries (n i : nat) (key ts : string) : script K unit :=
  match n with
  | O => mret tt
  | S n' =>
      _ ← rcall (ZADD key ts (ts +:+ ":" +:+ tostring lua (float_of_Z (Z.of_nat i)) +:+ ":" +:+
                               tostring lua (float_of_Z (random lua i))));
      add_entries n' (S i) key ts
  end.

Definition checkAndAddTSScript (key cutoff argv2 argv3 ts argv5 : string) : script K Reply :=
  _ ← rcall (ZREMRANGEBYSCORE key "-inf" cutoff);
  n ← rcall (ZCOUNT key cutoff "+inf");
  let count := float_of_Z n in
  limit ← number argv2;
  cost ← number argv3;
  if fgtb (fadd count cost) limit then mret (Array [integer_of count; VInt 0])
  else
    _ ← add_entries (Z.to_nat (default 0 (trunc_Z cost))) 1 key ts;
    ttl ← number argv5;
    _ ← expire_if key ttl;
    mret (Array [integer_of count; VInt 1]).

Definition acquireLeaseScript (key argv1 argv2 : string) : script K Reply :=
  n ← rcall (INCR key);
  let current := float_of_Z n in
  limit ← number argv1;
  if fgtb current limit then
    _ ← rcall (DECR key);
    mret (Array [VInt 0; integer_of (fsub current fone)])
  else
    ttl ← number argv2;
    _ ← expire_if key ttl;
    mret (Array [VInt 1; integer_of current]).

Definition releaseScript (key : string) : script K Reply :=
  got ← rcall (GET key);
  match got with
  | None => mret (RInt 0)
  | Some s =>
      current ← number s;
      if fleb current fzero then
        _ ← rcall (SET key (argument lua fzero) None);
        mret (RInt 0)
      else
        n ← rcall (DECR key);
        mret (One (integer_of (float_of_Z n)))
  end.
End Scripts.

(** ** The store *)

(** How a message fares: it is run [S n] times and the last reply arrives, or it is
    run [n] times and an error is reported. *)
Inductive delivery := Answered (n : nat) | Failed (n : nat) (err : string).

(** The server, and how the next messages will fare; all is well when nothing is
    said. *)
Record RedisWorld (K : Type) := { rw_server : K; rw_net : list delivery }.
Arguments rw_server {_} _.
Arguments rw_net {_} _.

(** Runs a script [n] times, for its effect. *)
Fixpoint run_lost {K A} (n : nat) (s : script K A) (k : K) : K :=
  match n with O => k | S n' => run_lost n' s (s k).2 end.

Definition deliver {K A} (s : script K A) (w : RedisWorld K) : result A * RedisWorld K :=
  let net := tail (rw_net w) in
  match head (rw_net w) with
  | None => let '(r, k) := s (rw_server w) in (r, {| rw_server := k; rw_net := net |})
  | Some (Answered n) =>
      let '(r, k) := s (run_lost n s (rw_server w)) in (r, {| rw_server := k; rw_net := net |})
  | Some (Failed n err) => (Err err, {| rw_server := run_lost n s (rw_server w); rw_net := net |})
  end.

Definition asInt64 (v : Value) : int64 :=
  match v with
  | VInt n => n
  | VBulk s => (ParseInt s).1
  | VNil => 0
  end.

(** [ttl.Milliseconds()], and the lifetime most methods send. *)
Definition milliseconds (ttl : Duration) : int64 := Z.quot ttl Millisecond.
Definition ms_of (ttl : Duration) : int64 := if 0 <? ttl then milliseconds ttl else 0.

Definition errUnexpected : string := "unexpected lua response".

(** The pair [res.([]interface{})] of length 2. *)
Definition pair_of (r : Reply) : result (int64 * int64) :=
  match r with
  | Array [a; b] => Ok (asInt64 a, asInt64 b)
  | _ => Err errUnexpected
  end.

Definition result_map {A B} (f : A -> result B) (r : result A) : result B :=
  match r with Ok a => f a | Err e => Err e end.

Section Store.
Context {K : Type} (exec : forall R, RedisCmd R -> K -> result R * K) (lua : Lua).
(** The clock, go-redis's [Cmd.Int64], and the lifetime [Set] sends for a duration. *)
Context (clock : K -> Time) (Int64 : Reply -> result int64) (set_px : Duration -> option string).

Abbreviation method A := (RedisWorld K -> result A * RedisWorld K).

Definition after {A B} (f : A -> result B) (s : script K A) : method B := fun w =>
  let '(r, w') := deliver s w in (result_map f r, w').

Definition redis_Increment (key : string) (value : int64) (ttl : Duration) : method int64 :=
  after Int64 (incrScript exec lua key (FormatInt value) (FormatInt (ms_of ttl))).

Definition redis_Get (key : string) : method int64 :=
  after (fun got => match got with
                    | None => Ok 0
                    | Some val => match ParseInt val with (n, None) => Ok n | (_, Some err) => Err err end
                    end) (rcall exec (GET key)).

Definition redis_Set (key : string) (value : int64) (ttl : Duration) : method unit :=
  after Ok (rcall exec (SET key (FormatInt value) (set_px ttl))).

Definition redis_CompareAndSwap (key : string) (oldVal newVal : int64) (ttl : Duration) : method bool :=
  after (fun r => result_map (fun n => Ok (n =? 1)) (Int64 r))
    (casScript exec lua key (FormatInt oldVal) (FormatInt newVal) (FormatInt (ms_of ttl))).

Definition redis_Delete (key : string) : method unit := after Ok (rcall exec (DEL key)).

Definition redis_AddTimestamp (key : string) (ts : Time) (ttl : Duration) : method unit :=
  after (fun _ => Ok tt) (addTSScript exec lua key (FormatInt (UnixNano ts)) (FormatInt (ms_of ttl))).

Definition redis_CountAfter (key : string) (t : Time) : method int64 :=
  after Ok (rcall exec (ZCOUNT key (FormatInt (UnixNano t)) "+inf")).

Definition redis_TrimBefore (key : string) (t : Time) : method unit :=
  after Ok (rcall exec (ZREMRANGEBYSCORE key "-inf" (FormatInt (UnixNano t)))).

Definition redis_CheckAndAddTimestamps (key : string) (cutoff : Time) (limit cost : int64) (ts : Time)
    (ttl : Duration) : method (int64 * bool) :=
  after (fun r => result_map (fun '(count, allowed) => Ok (count, allowed =? 1)) (pair_of r))
    (checkAndAddTSScript exec lua key (FormatInt (UnixNano cutoff)) (FormatInt limit) (FormatInt cost)
       (FormatInt (UnixNano ts)) (FormatInt (ms_of ttl))).

Definition redis_AcquireLease (key : string) (limit : int64) (ttl : Duration) : method (bool * int64) :=
  after (fun r => result_map (fun '(okVal, curVal) => Ok (okVal =? 1, curVal)) (pair_of r))
    (acquireLeaseScript exec lua key (FormatInt limit) (FormatInt (milliseconds ttl))).

Definition redis_ReleaseLease (key : string) : method unit :=
  after (fun _ => Ok tt) (releaseScript exec lua key).

(** The methods of [*Store], without a breaker. *)
Definition redis : handler (RedisWorld K) := fun R op =>
  match op in CounterOp R return RedisWorld K -> R * RedisWorld K with
  | TimeNow => fun w => (clock (rw_server w), w)
  | Increment k v ttl => redis_Increment k v ttl
  | Store.Get k => redis_Get k
  | SetVal k v ttl => redis_Set k v ttl
  | CompareAndSwap k o n ttl => redis_CompareAndSwap k o n ttl
  | Delete k => redis_Delete k
  | AddTimestamp k ts ttl => redis_AddTimestamp k ts ttl
  | CountAfter k t => redis_CountAfter k t
  | TrimBefore k t => redis_TrimBefore k t
  | CheckAndAddTimestamps k cutoff limit cost ts ttl => redis_CheckAndAddTimestamps k cutoff limit cost ts ttl
  | AcquireLease k limit ttl => redis_AcquireLease k limit ttl
  | ReleaseLease k => redis_ReleaseLease k
  end.
End Store.

(** ** What the store relies on *)

(** The strings of a server, all of them integers. *)
Definition integers (strings : string -> option string) : Prop :=
  forall key s, strings key = Some s -> exists n, s = FormatInt n.

(** The counter a string stands for; none is zero. *)
Definition counter_of (got : option string) : Z :=
  match got with None => 0 | Some s => default 0 (parse_dec s) end.

Definition is_SET {R} (c : RedisCmd R) : bool := match c with SET _ _ _ => true | _ => false end.

(** GET, SET, INCR, DECR and PEXPIRE work on the strings of a server; a string with a
    lifetime may vanish up to a millisecond before its lifetime is over; commands
    touch one key; commands that count leave integers; and between commands time
    passes, and what has expired vanishes. *)
Class RedisLaws {K : Type} (exec : forall R, RedisCmd R -> K -> result R * K) (clock : K -> Time)
    (senv : K -> K -> Prop) := {
  rl_string : K -> string -> option string;
  rl_deadline : K -> string -> option Time;
  rl_clock R (c : RedisCmd R) k : clock (exec R c k).2 = clock k;
  rl_frame R (c : RedisCmd R) k key :
    cmd_key c <> key ->
    rl_string (exec R c k).2 key = rl_string k key /\ rl_deadline (exec R c k).2 key = rl_deadline k key;
  rl_get key k :
    ((exec _ (GET key) k).1 = Ok (rl_string k key) \/ exists e, (exec _ (GET key) k).1 = Err e) /\
    rl_string (exec _ (GET key) k).2 key = rl_string k key /\
    rl_deadline (exec _ (GET key) k).2 key = rl_deadline k key;
  rl_set key value px k :
    match exec _ (SET key value px) k with
    | (Ok _, k') =>
        rl_string k' key = Some value /\
        match px with
        | None => rl_deadline k' key = None
        | Some ms => forall n, 0 < n -> ms = FormatInt n ->
            alive_until (rl_deadline k' key) (clock k + n * Millisecond - Millisecond)
        end
    | (Err _, k') => rl_string k' key = rl_string k key /\ rl_deadline k' key = rl_deadline k key
    end;
  rl_incr key k :
    match exec _ (INCR key) k with
    | (Ok n, k') =>
        n = counter_of (rl_string k key) + 1 /\ rl_string k' key = Some (FormatInt n) /\
        rl_deadline k' key = rl_deadline k key
    | (Err _, k') => rl_string k' key = rl_string k key /\ rl_deadline k' key = rl_deadline k key
    end;
  rl_decr key k :
    match exec _ (DECR key) k with
    | (Ok n, k') =>
        n = counter_of (rl_string k key) - 1 /\ rl_string k' key = Some (FormatInt n) /\
        rl_deadline k' key = rl_deadline k key
    | (Err _, k') => rl_string k' key = rl_string k key /\ rl_deadline k' key = rl_deadline k key
    end;
  rl_pexpire key ms k :
    0 < ms ->
    let '(r, k') := exec _ (PEXPIRE key (FormatInt ms)) k in
    rl_string k' key = rl_string k key /\
    match r with
    | Ok _ => rl_string k key <> None ->
        alive_until (rl_deadline k' key) (clock k + ms * Millisecond - Millisecond)
    | Err _ => rl_deadline k' key = rl_deadline k key
    end;
  rl_integers R (c : RedisCmd R) k :
    is_SET c = false -> integers (rl_string k) -> integers (rl_string (exec R c k).2);
  rl_env_clock k k' : senv k k' -> clock k <= clock k';
  rl_env k k' key :
    senv k k' -> alive_until (rl_deadline k key) (clock k') ->
    rl_string k' key = rl_string k key /\ rl_deadline k' key = rl_deadline k key;
  rl_env_vanish k k' key s : senv k k' -> rl_string k' key = Some s -> rl_string k key = Some s
}.

(** Numbers are read as the nearest double, and printed exactly when they are not
    too large. *)
Record LuaLaws (lua : Lua) : Prop := {
  ll_tonumber n : tonumber lua (FormatInt n) = Some (float_of_Z n);
  ll_argument n : 0 <= n < 2 ^ 53 -> argument lua (float_of_Z n) = FormatInt n
}.

Section Laws.
Context {K : Type} (exec : forall R, RedisCmd R -> K -> result R * K) (lua : Lua).
Context (clock : K -> Time) (Int64 : Reply -> result int64) (set_px : Duration -> option string).
Context (senv : K -> K -> Prop) (fares : delivery -> Prop).
Context `{HR : !RedisLaws exec clock senv} (HLua : LuaLaws lua).
Context (HInt64 : forall n, Int64 (RInt n) = Ok n).

Abbreviation store := (redis exec lua clock Int64 set_px).

(** The server steps, and messages fare as they may. *)
Definition redis_env (w w' : RedisWorld K) : Prop :=
  (rw_server w = rw_server w' /\ Forall fares (rw_net w')) \/
  (senv (rw_server w) (rw_server w') /\ rw_net w = rw_net w').

Definition same_key (k k' : K) (key : string) : Prop :=
  rl_string k' key = rl_string k key /\ rl_deadline k' key = rl_deadline k key.

(** A script that works on one key. *)
Definition only_on {A} (key : string) (s : script K A) : Prop := forall k,
  clock (s k).2 = clock k /\ (forall key', key' <> key -> same_key k (s k).2 key') /\
  (integers (rl_string k) -> integers (rl_string (s k).2)).

Lemma same_key_trans k1 k2 k3 key : same_key k1 k2 key -> same_key k2 k3 key -> same_key k1 k3 key.
Proof. unfold same_key. intros [-> ->] [-> ->]. done. Qed.

Lemma only_on_ret {A} key (a : A) : only_on key (mret a).
Proof. by intros k. Qed.

Lemma only_on_raise {A} key e : only_on key (raise (A := A) e).
Proof. by intros k. Qed.

Lemma only_on_bind {A B} key (s : script K A) (f : A -> script K B) :
  only_on key s -> (forall a, only_on key (f a)) -> only_on key (s ≫= f).
Proof.
  intros Hs Hf k. unfold mbind, script_mbind. specialize (Hs k). destruct (s k) as [[a|e] k1]; [|done].
  cbn [snd] in *. destruct Hs as (H1 & H2 & H3), (Hf a k1) as (H4 & H5 & H6).
  split_and!; [congruence| |auto]. intros key' Hk. eapply same_key_trans; auto.
Qed.

Lemma only_on_number key s : only_on key (number (K := K) lua s).
Proof. unfold number. destruct (tonumber lua s); [apply only_on_ret|apply only_on_raise]. Qed.

Lemma only_on_call {R} (c : RedisCmd R) : is_SET c = false -> only_on (cmd_key c) (rcall exec c).
Proof.
  intros Hc k. split_and!; [apply rl_clock| |by apply rl_integers].
  intros key' Hk. by apply rl_frame.
Qed.

Lemma only_on_SET key n px : only_on key (rcall exec (SET key (FormatInt n) px)).
Proof.
  intros k. split_and!; [apply rl_clock|intros key' Hk; by apply rl_frame|].
  intros Hi key' s. destruct (decide (key' = key)) as [->|Hk].
  - pose proof (rl_set key (FormatInt n) px k) as Hset. unfold rcall.
    destruct (exec _ (SET key (FormatInt n) px) k) as [[[]|e] k']; cbn [snd].
    + destruct Hset as [-> _]. intros [= <-]. by exists n.
    + destruct Hset as [-> _]. apply Hi.
  - pose proof (rl_frame _ (SET key (FormatInt n) px) k key' (not_eq_sym Hk)) as [Hf _].
    unfold rcall. rewrite Hf. apply Hi.
Qed.

Lemma argument_zero : argument lua fzero = FormatInt 0.
Proof. apply (ll_argument lua HLua 0). lia. Qed.

Lemma only_on_expire key ttl : only_on key (expire_if exec lua key ttl).
Proof. unfold expire_if. destruct (fgtb _ _); [by apply (only_on_call (PEXPIRE key _))|apply only_on_ret]. Qed.

Lemma only_on_entries n i key ts : only_on key (add_entries exec lua n i key ts).
Proof.
  revert i. induction n as [|n IH]; intros i; cbn [add_entries]; [apply only_on_ret|].
  apply only_on_bind; [by apply (only_on_call (ZADD key _ _))|done].
Qed.

(** Steps through a script. *)
Ltac only_on_script :=
  repeat first
    [ progress cbv zeta
    | apply only_on_ret | apply only_on_raise | apply only_on_number | apply only_on_expire
    | apply only_on_entries | apply only_on_SET
    | match goal with
      | |- only_on _ (rcall exec (SET _ (argument lua fzero) _)) => rewrite argument_zero
      | |- only_on ?key (rcall exec ?c) => apply (only_on_call c); done
      | |- only_on _ (if ?b then _ else _) => destruct b
      | |- only_on _ (match ?o with None => _ | Some _ => _ end) => destruct o
      end
    | apply only_on_bind; [|intros ?] ].

Lemma only_on_incr key a b : only_on key (incrScript exec lua key a b).
Proof. unfold incrScript. only_on_script. Qed.
Lemma only_on_cas key a n c : only_on key (casScript exec lua key a (FormatInt n) c).
Proof. unfold casScript. only_on_script. Qed.
Lemma only_on_addTS key a b : only_on key (addTSScript exec lua key a b).
Proof. unfold addTSScript. only_on_script. Qed.
Lemma only_on_checkAndAdd key a b c d e : only_on key (checkAndAddTSScript exec lua key a b c d e).
Proof. unfold checkAndAddTSScript. only_on_script. Qed.
Lemma only_on_acquire key a b : only_on key (acquireLeaseScript exec lua key a b).
Proof. unfold acquireLeaseScript. only_on_script. Qed.
Lemma only_on_release key : only_on key (releaseScript exec lua key).
Proof. unfold releaseScript. only_on_script. Qed.

(** A method that delivers such a script. *)
Definition world_on {B} (key : string) (m : RedisWorld K -> result B * RedisWorld K) : Prop := forall w,
  let k := rw_server w in let k' := rw_server (m w).2 in
  clock k' = clock k /\ (forall key', key' <> key -> same_key k k' key') /\
  (integers (rl_string k) -> integers (rl_string k')).

Lemma run_lost_on {A} key (s : script K A) n k : only_on key s ->
  clock (run_lost n s k) = clock k /\ (forall key', key' <> key -> same_key k (run_lost n s k) key') /\
  (integers (rl_string k) -> integers (rl_string (run_lost n s k))).
Proof.
  intros Hs. revert k. induction n as [|n IH]; intros k; cbn [run_lost]; [done|].
  destruct (Hs k) as (H1 & H2 & H3), (IH (s k).2) as (H4 & H5 & H6).
  split_and!; [congruence| |auto]. intros key' Hk. eapply same_key_trans; auto.
Qed.

Lemma after_on {A B} key (f : A -> result B) (s : script K A) : only_on key s -> world_on key (after f s).
Proof.
  intros Hs w. unfold after, deliver.
  destruct (head (rw_net w)) as [[n|n err]|]; cbn [snd rw_server].
  - destruct (run_lost_on key s n (rw_server w) Hs) as (H1 & H2 & H3).
    pose proof (Hs (run_lost n s (rw_server w))) as Hk. destruct (s _) as [r k]. cbn [snd rw_server] in *.
    destruct Hk as (H4 & H5 & H6). split_and!; [congruence| |auto].
    intros key' Hk. eapply same_key_trans; auto.
  - by apply run_lost_on.
  - specialize (Hs (rw_server w)). by destruct (s _) as [r k].
Qed.

(** Every method works on its key. *)
Lemma store_on {R} (op : CounterOp R) key w :
  op_key op = Some key ->
  clock (rw_server (store R op w).2) = clock (rw_server w) /\
  (forall key', key' <> key -> same_key (rw_server w) (rw_server (store R op w).2) key') /\
  (integers (rl_string (rw_server w)) -> integers (rl_string (rw_server (store R op w).2))).
Proof.
  destruct op; intros [= ->]; cbn [redis]; refine (after_on key _ _ _ w).
  - apply only_on_incr.
  - by apply (only_on_call (GET key)).
  - apply only_on_SET.
  - apply only_on_cas.
  - by apply (only_on_call (DEL key)).
  - apply only_on_addTS.
  - by apply (only_on_call (ZCOUNT key _ _)).
  - by apply (only_on_call (ZREMRANGEBYSCORE key _ _)).
  - apply only_on_checkAndAdd.
  - apply only_on_acquire.
  - apply only_on_release.
Qed.

(** *** Counters *)

Definition redis_value (w : RedisWorld K) (key : string) : Z := counter_of (rl_string (rw_server w) key).

Definition swapped (key : string) (oldVal newVal : int64) (ttl : Duration) (k k' : K) : Prop :=
  counter_of (rl_string k key) = oldVal /\ counter_of (rl_string k' key) = newVal /\
  (0 < ttl <= maxInt64 -> alive_until (rl_deadline k' key) (clock k + ttl - 2 * Millisecond)).

Lemma number_FormatInt n k : number (K := K) lua (FormatInt n) k = (Ok (float_of_Z n), k).
Proof. unfold number. by rewrite (ll_tonumber lua HLua). Qed.

(** The lifetime of a counter, in milliseconds. *)
Lemma ms_of_range ttl : 0 < ttl <= maxInt64 ->
  0 <= ms_of ttl < 2 ^ 53 /\ ms_of ttl * Millisecond <= ttl < (ms_of ttl + 1) * Millisecond.
Proof.
  intros Ht. unfold ms_of, milliseconds. rewrite (proj2 (Z.ltb_lt 0 ttl)) by lia.
  rewrite Z.quot_div_nonneg by (unfold Millisecond, Microsecond; lia).
  pose proof (Z.div_mod ttl Millisecond). pose proof (Z.mod_pos_bound ttl Millisecond).
  unfold maxInt64, Millisecond, Microsecond in *. lia.
Qed.

Lemma float_positive n : 0 <= n < 2 ^ 53 -> fgtb (float_of_Z n) fzero = (0 <? n).
Proof.
  intros Hn. destruct n as [|p|p]; [done| |lia]. unfold float_of_Z. cbn [binary_normalize].
  by destruct (round_small false p ltac:(lia)) as (m & -> & _).
Qed.

(** A counter is compared as a double, which is exact when the expected value is
    small. *)
Lemma cas_compare got oldVal :
  0 <= oldVal < 2 ^ 53 -> (forall s, got = Some s -> exists n, s = FormatInt n) ->
  lua_eqb (tonumber lua (default "0" got)) (tonumber lua (FormatInt oldVal)) = true -> counter_of got = oldVal.
Proof.
  intros Ho Hint. rewrite (ll_tonumber lua HLua).
  assert (exists n, default "0" got = FormatInt n /\ counter_of got = n) as (n & -> & ->).
  { destruct got as [s|]; [|by exists 0]. destruct (Hint s eq_refl) as [n ->]. exists n.
    cbn. by rewrite parse_dec_FormatInt. }
  rewrite (ll_tonumber lua HLua). cbn [lua_eqb]. by apply float_eq_small.
Qed.

Lemma cas_set key oldVal newVal ttl k :
  counter_of (rl_string k key) = oldVal ->
  let px := if fgtb (float_of_Z (ms_of ttl)) fzero then Some (argument lua (float_of_Z (ms_of ttl))) else None in
  match exec _ (SET key (FormatInt newVal) px) k with
  | (Ok _, k') => swapped key oldVal newVal ttl k k'
  | (Err _, k') => same_key k k' key
  end.
Proof.
  intros Ho px. pose proof (rl_set key (FormatInt newVal) px k) as Hset.
  destruct (exec _ (SET _ _ px) k) as [[[]|e] k']; [|done]. destruct Hset as [Hs Hd].
  split_and!; [done|by rewrite Hs; cbn; rewrite parse_dec_FormatInt|]. intros Ht.
  destruct (ms_of_range ttl Ht) as [Hm Hb]. unfold px in Hd. rewrite float_positive in Hd by done.
  destruct (0 <? ms_of ttl) eqn:E; zify_bool; [|by rewrite Hd].
  eapply alive_until_le; [apply (Hd (ms_of ttl)); [done|by apply (ll_argument lua HLua)]|]. lia.
Qed.

(** One run of the script swaps the counter and says so, or leaves it alone. *)
Lemma casScript_run key oldVal newVal ttl k :
  integers (rl_string k) -> 0 <= oldVal < 2 ^ 53 ->
  let '(r, k') := casScript exec lua key (FormatInt oldVal) (FormatInt newVal) (FormatInt (ms_of ttl)) k in
  (same_key k k' key /\ (r = Ok (RInt 0) \/ exists e, r = Err e)) \/
  (swapped key oldVal newVal ttl k k' /\ r = Ok (RInt 1)).
Proof.
  intros Hi Ho. unfold casScript, rcall, mbind, script_mbind.
  pose proof (rl_get key k) as Hg. pose proof (rl_clock _ (GET key) k) as Hc.
  destruct (exec _ (GET key) k) as [[got|e] k1]; cbn [fst snd] in Hg, Hc; cbv beta iota zeta;
    [|left; split; [exact (proj2 Hg)|right; by eexists]].
  destruct Hg as [[[= ->]|[e [=]]] Hsame].
  destruct (lua_eqb _ _) eqn:E; cbv beta iota; [|left; split; [done|by left]].
  apply cas_compare in E; [|done|intros s; apply Hi]. rewrite number_FormatInt.
  assert (E1 : counter_of (rl_string k1 key) = oldVal) by (by rewrite (proj1 Hsame)).
  pose proof (cas_set key oldVal newVal ttl k1 E1) as Hset. cbv zeta in Hset.
  destruct (fgtb _ _); destruct (exec _ (SET _ _ _) k1) as [[[]|e] k2]; cbv beta iota.
  all: first [ right; split; [|done]; destruct Hset as (_ & H1 & H2); rewrite Hc in H2; done
             | left; split; [|right; by eexists]; eapply same_key_trans; done ].
Qed.

(** What two runs of the script do together. *)
Lemma swapped_after key oldVal newVal ttl k k1 k2 :
  clock k1 = clock k -> same_key k k1 key \/ swapped key oldVal newVal ttl k k1 ->
  swapped key oldVal newVal ttl k1 k2 -> swapped key oldVal newVal ttl k k2.
Proof.
  intros Hc [[H1 _]|(H1 & _ & _)] (H4 & H5 & H6); (split_and!; [|done|by rewrite <- Hc]); [|done]. by rewrite <- H1.
Qed.

Lemma same_after key oldVal newVal ttl k k1 k2 :
  same_key k k1 key \/ swapped key oldVal newVal ttl k k1 -> same_key k1 k2 key ->
  same_key k k2 key \/ swapped key oldVal newVal ttl k k2.
Proof.
  intros [H1|(H1 & H2 & H3)] [H4 H5]; [left; split; destruct H1; congruence|].
  right. split_and!; [done|by rewrite H4|by rewrite H5].
Qed.

(** However often it is run. *)
Lemma casScript_repeated key oldVal newVal ttl n k :
  integers (rl_string k) -> 0 <= oldVal < 2 ^ 53 ->
  let k' := run_lost n (casScript exec lua key (FormatInt oldVal) (FormatInt newVal) (FormatInt (ms_of ttl))) k in
  same_key k k' key \/ swapped key oldVal newVal ttl k k'.
Proof.
  intros Hi Ho. revert k Hi. induction n as [|n IH]; intros k Hi; cbn [run_lost]; [by left|].
  pose proof (casScript_run key oldVal newVal ttl k Hi Ho) as H1.
  pose proof (only_on_cas key (FormatInt oldVal) newVal (FormatInt (ms_of ttl)) k) as (Hc & _ & Hi').
  destruct (casScript _ _ _ _ _ _ k) as [r k1]. cbn [snd] in *.
  assert (Hk1 : same_key k k1 key \/ swapped key oldVal newVal ttl k k1) by tauto.
  destruct (IH k1 (Hi' Hi)) as [H2|H2]; [by eapply same_after|right; by eapply swapped_after].
Qed.

Lemma redis_cas_law w key oldVal newVal ttl :
  integers (rl_string (rw_server w)) -> 0 <= oldVal <= 2 ^ 53 - 1 ->
  let '(r, w') := store _ (CompareAndSwap key oldVal newVal ttl) w in
  let unchanged := redis_value w' key = redis_value w key /\
                   rl_deadline (rw_server w') key = rl_deadline (rw_server w) key in
  let swapped := redis_value w key = oldVal /\ redis_value w' key = newVal /\
                 (0 < ttl <= maxInt64 ->
                  alive_until (rl_deadline (rw_server w') key) (clock (rw_server w) + ttl - 2 * Millisecond)) in
  match r with Ok true => swapped | Ok false | Err _ => unchanged \/ swapped end.
Proof.
  intros Hi Ho. set (k := rw_server w) in *.
  assert (Hu : forall k', same_key k k' key ->
    counter_of (rl_string k' key) = counter_of (rl_string k key) /\ rl_deadline k' key = rl_deadline k key).
  { intros k' [-> ->]. done. }
  cbn [redis]. unfold redis_CompareAndSwap, after, deliver, redis_value. fold k.
  pose proof (fun n => casScript_repeated key oldVal newVal ttl n k Hi ltac:(lia)) as Hrep.
  set (scr := casScript _ _ _ _ _ _) in *.
  pose proof (fun n => run_lost_on key scr n k (only_on_cas key _ newVal _)) as Hlost.
  destruct (head (rw_net w)) as [[n|n err]|]; cbn [rw_server].
  - destruct (Hlost n) as (Hc & _ & Hi1). specialize (Hrep n). cbv zeta in Hrep.
    pose proof (casScript_run key oldVal newVal ttl (run_lost n scr k) (Hi1 Hi) ltac:(lia)) as Hrun.
    change (casScript _ _ _ _ _ _) with scr in Hrun. destruct (scr (run_lost n scr k)) as [r k2]. cbn [rw_server].
    destruct Hrun as [[Hs Hr]|[Hs ->]].
    + apply (same_after _ _ _ _ _ _ _ Hrep) in Hs as [Hs|Hs].
      all: destruct Hr as [->|[e ->]]; cbn [result_map]; rewrite ?HInt64; first [left; by apply Hu|right; exact Hs].
    + cbn [result_map]. rewrite HInt64. by apply (swapped_after _ _ _ _ _ _ _ Hc Hrep).
  - destruct (Hrep n) as [Hs|Hs]; [left; by apply Hu|right; exact Hs].
  - pose proof (casScript_run key oldVal newVal ttl k Hi ltac:(lia)) as Hrun.
    change (casScript _ _ _ _ _ _) with scr in Hrun. destruct (scr k) as [r k2]. cbn [rw_server].
    destruct Hrun as [[Hs Hr]|[Hs ->]].
    + destruct Hr as [->|[e ->]]; cbn [result_map]; rewrite ?HInt64; left; by apply Hu.
    + cbn [result_map]. rewrite HInt64. exact Hs.
Qed.

(** Reading any number of times changes nothing. *)
Lemma get_repeated key n k : same_key k (run_lost n (rcall exec (GET key)) k) key.
Proof.
  revert k. induction n as [|n IH]; intros k; cbn [run_lost]; [done|].
  eapply same_key_trans; [|apply IH]. apply rl_get.
Qed.

Lemma redis_get_law w key :
  integers (rl_string (rw_server w)) ->
  let '(r, w') := store _ (Store.Get key) w in
  (r = Ok (redis_value w key) \/ exists e, r = Err e) /\
  redis_value w' key = redis_value w key /\
  rl_deadline (rw_server w') key = rl_deadline (rw_server w) key.
Proof.
  intros Hi. cbn [redis]. unfold redis_Get, after, deliver, redis_value. set (k := rw_server w) in *.
  assert (Hread : forall k1, same_key k k1 key -> let '(r, k2) := rcall exec (GET key) k1 in
    same_key k k2 key /\ (r = Ok (rl_string k key) \/ exists e, r = Err e)).
  { intros k1 Hk. pose proof (rl_get key k1) as [Hr Hs]. unfold rcall. destruct (exec _ (GET key) k1) as [r k2].
    cbn [fst snd] in *. split; [by eapply same_key_trans|]. by rewrite (proj1 Hk) in Hr. }
  assert (Hval : forall r, (r = Ok (rl_string k key) \/ exists e, r = Err e) ->
    let r' := result_map (fun got => match got with None => Ok 0
      | Some val => match ParseInt val with (n, None) => Ok n | (_, Some err) => Err err end end) r in
    r' = Ok (counter_of (rl_string k key)) \/ exists e, r' = Err e).
  { intros r [->|[e ->]]; [|right; by exists e]. destruct (rl_string k key) as [s|] eqn:E; [|by left].
    destruct (Hi _ _ E) as [n ->]. cbn [result_map counter_of]. unfold ParseInt. rewrite parse_dec_FormatInt.
    cbn [default from_option id]. destruct (n <? minInt64); [right; by eexists|].
    destruct (maxInt64 <? n); [right; by eexists|by left]. }
  destruct (head (rw_net w)) as [[n|n err]|].
  - pose proof (Hread _ (get_repeated key n k)) as H. destruct (rcall _ _ _) as [r k2]. cbn [rw_server].
    destruct H as [[-> ->] Hr]. auto.
  - cbn [result_map rw_server]. destruct (get_repeated key n k) as [-> ->]. split; [right; by eexists|done].
  - pose proof (Hread k ltac:(done)) as H. destruct (rcall _ _ _) as [r k2]. cbn [rw_server].
    destruct H as [[-> ->] Hr]. auto.
Qed.

Lemma redis_env_law w w' key :
  redis_env w w' -> alive_until (rl_deadline (rw_server w) key) (clock (rw_server w')) ->
  redis_value w' key = redis_value w key /\ rl_deadline (rw_server w') key = rl_deadline (rw_server w) key.
Proof.
  unfold redis_value. intros [[<- _]|[He _]] Ha; [done|]. by destruct (rl_env _ _ key He Ha) as [-> ->].
Qed.

Lemma redis_env_integers w w' :
  redis_env w w' -> integers (rl_string (rw_server w)) -> integers (rl_string (rw_server w')).
Proof.
  intros [[<- _]|[He _]] Hi; [done|]. intros key s Hs. eapply Hi. by eapply rl_env_vanish.
Qed.

Lemma redis_env_clock w w' : redis_env w w' -> clock (rw_server w) <= clock (rw_server w').
Proof. intros [[<- _]|[He _]]; [lia|]. by eapply rl_env_clock. Qed.

Lemma redis_frame R (op : CounterOp R) w key :
  op_key op <> Some key ->
  redis_value (store R op w).2 key = redis_value w key /\
  rl_deadline (rw_server (store R op w).2) key = rl_deadline (rw_server w) key.
Proof.
  intros Hk. unfold redis_value. destruct (op_key op) as [key'|] eqn:E; [|by destruct op].
  destruct (store_on op key' w E) as (_ & H & _). by destruct (H key) as [-> ->]; [congruence|].
Qed.

Lemma redis_op R (op : CounterOp R) w :
  (integers (rl_string (rw_server w)) -> integers (rl_string (rw_server (store R op w).2))) /\
  clock (rw_server (store R op w).2) = clock (rw_server w).
Proof.
  destruct (op_key op) as [key|] eqn:E; [|by destruct op].
  by destruct (store_on op key w E) as (H1 & _ & H2).
Qed.

(** Redis is a lawful counter store for counters below [2^53]. *)
#[export] Instance redis_laws : StoreLaws store redis_env := {|
  sl_wf w := integers (rl_string (rw_server w));
  sl_wf_op R op w := proj1 (redis_op R op w);
  sl_wf_env := redis_env_integers;
  sl_clock w := clock (rw_server w);
  sl_value := redis_value;
  sl_deadline w := rl_deadline (rw_server w);
  sl_now w := eq_refl;
  sl_op_clock R op w := proj2 (redis_op R op w);
  sl_frame R op w key _ := redis_frame R op w key;
  sl_get := ltac:(intros w key Hi; pose proof (redis_get_law w key Hi) as H; by destruct (store _ _ w));
  sl_cap := 2 ^ 53 - 1;
  sl_slack := 2 * Millisecond;
  sl_cas := redis_cas_law;
  sl_env_clock := redis_env_clock;
  sl_env w w' key _ := redis_env_law w w' key
|}.

#[export] Instance redis_forget : ForgetLaws store redis_env.
Proof.
  constructor. intros w w' key _ [[E _]|[He _]]; cbn; unfold redis_value; [left; by rewrite E|].
  destruct (rl_string (rw_server w') key) as [s|] eqn:E; [|by right]. left. by rewrite (rl_env_vanish _ _ key s He E).
Qed.

(** *** Leases *)

(** A message that is run at most once. *)
Definition at_most_once (d : delivery) : Prop :=
  match d with Answered O | Failed O _ | Failed 1 _ => True | _ => False end.

Lemma deliver_once {A B} (f : A -> result B) (s : script K A) w :
  Forall at_most_once (rw_net w) ->
  let '(r, w') := after f s w in
  (rw_server w' = (s (rw_server w)).2 /\ (r = result_map f (s (rw_server w)).1 \/ exists e, r = Err e)) \/
  (rw_server w' = rw_server w /\ exists e, r = Err e).
Proof.
  intros Hnet. unfold after, deliver. destruct (rw_net w) as [|d net]; cbn [head].
  - destruct (s (rw_server w)) as [r k]. left. cbn. auto.
  - apply Forall_cons in Hnet as [Hd _]. destruct d as [[|n]|[|[|n]] err]; try done; cbn [run_lost].
    + destruct (s (rw_server w)) as [r k]. left. cbn. auto.
    + right. cbn. eauto.
    + left. cbn. eauto.
Qed.

Lemma milliseconds_range ttl : Millisecond <= ttl <= maxInt64 ->
  0 < milliseconds ttl < 2 ^ 53 /\ ttl < (milliseconds ttl + 1) * Millisecond.
Proof.
  intros Ht. pose proof (ms_of_range ttl) as H. unfold ms_of in H.
  assert (0 < Millisecond) by done. rewrite (proj2 (Z.ltb_lt 0 ttl)) in H by lia.
  destruct H as [H1 H2]; [lia|]. split; [|lia]. split; [|lia].
  enough (milliseconds ttl <> 0) by lia. intros E. rewrite E in H2. lia.
Qed.

(** One run takes a lease within the limit and renews the deadline, or leaves the
    deadline and takes no lease away. *)
Lemma acquire_run key limit ttl k :
  let count k := counter_of (rl_string k key) in
  0 <= count k -> 0 < limit < 2 ^ 53 -> Millisecond <= ttl <= maxInt64 ->
  let '(r, k') := acquireLeaseScript exec lua key (FormatInt limit) (FormatInt (milliseconds ttl)) k in
  (count k + 1 <= count k' <= limit /\ alive_until (rl_deadline k' key) (clock k + ttl - 2 * Millisecond)) \/
  (count k <= count k' /\ rl_deadline k' key = rl_deadline k key /\
   ((exists v, r = Ok (Array [VInt 0; v])) \/ exists e, r = Err e)).
Proof.
  cbv zeta. intros Hc Hl Ht. destruct (milliseconds_range ttl Ht) as [Hm Hms].
  unfold acquireLeaseScript, rcall, mbind, script_mbind, mret, script_mret.
  pose proof (rl_incr key k) as Hi. pose proof (rl_clock _ (INCR key) k) as Hck.
  destruct (exec _ (INCR key) k) as [[n|e] k1]; cbn [snd] in Hck; cbv beta iota zeta.
  2: { destruct Hi as [-> ->]. right. split_and!; [done..|right; by eexists]. }
  destruct Hi as (Hn & Hs & Hd). rewrite number_FormatInt, float_gt_small by lia.
  assert (Hc1 : counter_of (rl_string k1 key) = n) by (by rewrite Hs; cbn; rewrite parse_dec_FormatInt).
  destruct (limit <? n) eqn:E; zify_bool.
  - pose proof (rl_decr key k1) as Hdec. destruct (exec _ (DECR key) k1) as [[n'|e] k2]; cbv beta iota.
    + destruct Hdec as (Hn' & Hs' & Hd'). rewrite Hs', Hd', Hd. right.
      split_and!; [cbn; rewrite parse_dec_FormatInt; cbn; lia|done|left; by eexists].
    + destruct Hdec as [-> ->]. rewrite Hc1, Hd. right. split_and!; [lia|done|right; by eexists].
  - rewrite number_FormatInt. unfold expire_if, rcall. rewrite float_positive, (proj2 (Z.ltb_lt 0 _)) by lia.
    rewrite (ll_argument lua HLua) by lia. pose proof (rl_pexpire key (milliseconds ttl) k1 ltac:(lia)) as Hp.
    destruct (exec _ (PEXPIRE _ _) k1) as [[[]|e] k2]; cbv beta iota; destruct Hp as [Hs' Hp]; rewrite Hs', Hc1.
    + left. split; [lia|]. rewrite Hck in Hp. eapply alive_until_le; [apply Hp; by rewrite Hs|lia].
    + right. rewrite Hp. split_and!; [lia|done|right; by eexists].
Qed.

Lemma redis_acquire_law w key limit ttl :
  Forall at_most_once (rw_net w) ->
  0 <= redis_value w key -> 0 < limit <= 2 ^ 53 - 1 -> Millisecond <= ttl <= maxInt64 ->
  let '(r, w') := store _ (AcquireLease key limit ttl) w in
  match r with
  | Ok (true, _) => redis_value w key + 1 <= redis_value w' key <= limit /\
      alive_until (rl_deadline (rw_server w') key) (clock (rw_server w) + ttl - 2 * Millisecond)
  | _ => redis_value w key <= redis_value w' key /\
      forall t, 0 < redis_value w key -> t <= clock (rw_server w) + ttl - 2 * Millisecond ->
        alive_until (rl_deadline (rw_server w) key) t -> alive_until (rl_deadline (rw_server w') key) t
  end.
Proof.
  intros Hnet Hc Hl Ht. cbn [redis]. unfold redis_AcquireLease, redis_value in *. set (f := fun r => _).
  pose proof (acquire_run key limit ttl (rw_server w) Hc ltac:(lia) Ht) as Hrun.
  pose proof (deliver_once f (acquireLeaseScript exec lua key (FormatInt limit) (FormatInt (milliseconds ttl))) w Hnet) as Hd.
  destruct (after f _ w) as [r w']. destruct (acquireLeaseScript _ _ _ _ _ _) as [r0 k']. cbn [fst snd] in Hd.
  destruct Hd as [[-> Hr]|[-> [e ->]]]; [|done].
  destruct Hrun as [[Hcnt Ha]|(Hcnt & Hdl & Hr0)].
  - assert (Hweak : counter_of (rl_string (rw_server w) key) <= counter_of (rl_string k' key) /\
      forall t, 0 < counter_of (rl_string (rw_server w) key) -> t <= clock (rw_server w) + ttl - 2 * Millisecond ->
        alive_until (rl_deadline (rw_server w) key) t -> alive_until (rl_deadline k' key) t).
    { split; [lia|]. intros t _ Ht' _. by eapply alive_until_le. }
    by destruct r as [[[] v]|].
  - rewrite Hdl. assert (Hno : forall v, r <> Ok (true, v)).
    { intros v. destruct Hr as [->|[e ->]]; [|done]. by destruct Hr0 as [[v' ->]|[e ->]]. }
    destruct r as [[[] v]|]; [by destruct (Hno v)|by split..].
Qed.

(** One run of a release takes at most one lease. *)
Lemma release_run key k :
  let count k := counter_of (rl_string k key) in
  integers (rl_string k) -> 0 < count k ->
  let k' := (releaseScript exec lua key k).2 in
  count k - 1 <= count k' /\ rl_deadline k' key = rl_deadline k key.
Proof.
  cbv beta zeta. intros Hi Hc. unfold releaseScript, rcall, mbind, script_mbind, mret, script_mret.
  pose proof (rl_get key k) as Hg. destruct (exec _ (GET key) k) as [[got|e] k1]; cbn [fst snd] in Hg.
  2: { cbn [snd]. destruct Hg as [_ [-> ->]]. split; [lia|done]. }
  destruct Hg as [[[= ->]|[e [=]]] [Hs Hd]]. destruct (rl_string k key) as [s|] eqn:E; [|cbn in Hc; lia].
  destruct (Hi _ _ E) as [n ->]. cbn [counter_of] in Hc. rewrite parse_dec_FormatInt in Hc. cbn in Hc.
  rewrite number_FormatInt, float_le_zero, (proj2 (Z.eqb_neq n 0)) by lia.
  pose proof (rl_decr key k1) as Hdec. destruct (exec _ (DECR key) k1) as [[n'|e] k2]; cbn [snd].
  - destruct Hdec as (Hn' & -> & ->). rewrite Hd, Hn', Hs. cbn [counter_of]. rewrite !parse_dec_FormatInt. cbn. split; [lia|done].
  - destruct Hdec as [-> ->]. rewrite Hs, Hd. split; [lia|done].
Qed.

Lemma redis_release_law w key :
  integers (rl_string (rw_server w)) -> Forall at_most_once (rw_net w) -> 0 < redis_value w key ->
  let w' := (store _ (ReleaseLease key) w).2 in
  redis_value w key - 1 <= redis_value w' key /\
  forall t, alive_until (rl_deadline (rw_server w) key) t -> alive_until (rl_deadline (rw_server w') key) t.
Proof.
  intros Hi Hnet Hc. cbn [redis]. unfold redis_ReleaseLease, redis_value in *.
  pose proof (release_run key (rw_server w) Hi Hc) as [H1 H2].
  pose proof (deliver_once (fun _ => Ok tt) (releaseScript exec lua key) w Hnet) as Hd.
  destruct (after _ _ w) as [r w']. cbn [snd]. destruct Hd as [[-> _]|[-> _]]; [|split; [lia|done]].
  rewrite H2. by split.
Qed.

Lemma redis_lease_env w w' key :
  redis_env w w' -> 0 <= redis_value w key ->
  0 <= redis_value w' key /\
  (alive_until (rl_deadline (rw_server w) key) (clock (rw_server w')) ->
   redis_value w' key = redis_value w key /\ rl_deadline (rw_server w') key = rl_deadline (rw_server w) key).
Proof.
  intros He Hc. split; [|by apply redis_env_law]. unfold redis_value in *.
  destruct He as [[<- _]|[He _]]; [done|].
  destruct (rl_string (rw_server w') key) as [s|] eqn:E; [|done].
  rewrite (rl_env_vanish _ _ key s He E) in Hc. done.
Qed.

Lemma redis_net R (op : CounterOp R) w : Forall at_most_once (rw_net w) -> Forall at_most_once (rw_net (store R op w).2).
Proof.
  intros Hnet. assert (Ht : Forall at_most_once (tail (rw_net w))) by (by destruct (rw_net w); [|inversion Hnet]).
  assert (Ha : forall A B (f : A -> result B) s, Forall at_most_once (rw_net (after f s w).2)).
  { intros A B f s. unfold after, deliver. destruct (head (rw_net w)) as [[n|n e]|]; [| |]; cbn [snd];
      repeat case_match; simplify_eq/=; done. }
  destruct op; cbn [redis]; try apply Ha. done.
Qed.

Lemma redis_net_env (once : forall d, fares d -> at_most_once d) w w' :
  redis_env w w' -> Forall at_most_once (rw_net w) -> Forall at_most_once (rw_net w').
Proof. intros [[_ H]|[_ <-]] Hw; [|done]. eapply Forall_impl; [exact H|done]. Qed.

(** When no message is run twice, Redis keeps leases for limits below [2^53]. *)
Definition redis_lease_laws (once : forall d, fares d -> at_most_once d) : LeaseLaws store redis_env := {|
  ls_wf w := Forall at_most_once (rw_net w);
  ls_wf_op R op w _ := redis_net R op w;
  ls_wf_env := redis_net_env once;
  ls_count := redis_value;
  ls_deadline w := rl_deadline (rw_server w);
  ls_cap := 2 ^ 53 - 1;
  ls_unit := Millisecond;
  ls_acquire w k limit ttl _ := redis_acquire_law w k limit ttl;
  ls_release := redis_release_law;
  ls_env w w' k _ := redis_lease_env w w' k
|}.
End Laws.
