(* ===== verification/RedisSafety.v ===== *)
(** * Limits on Redis, end to end

    The limiter in front of the circuit breaker in front of Redis keeps its limits;
    leases are counted by scripts.  A small Redis server ([Server]) shows that what
    the store relies on can be had, and runs the examples. *)

From Stdlib Require Import SpecFloat.
From S2P Require Import Prelude GoString GoFloat GoTime Model Store Protocol Common MemoryStore CasLimit FixedWindow Concurrency.
From S2P Require Import Rounding CircuitBreaker RedisStore.
Local Open Scope Z_scope.
Local Open Scope stdpp_scope.
Local Open Scope go_scope.

(** ** A Redis server *)

Inductive datum := DStr (s : string) | DZset (z : gmap string float64).

(** A datum and the millisecond after which it is expired. *)
Record entry := { en_data : datum; en_expire : option Z }.
Record Server := { sv_clock : Time; sv_keys : gmap string entry }.

Definition now_ms (sv : Server) : Z := sv_clock sv / Millisecond.

Definition live (sv : Server) (key : string) : option entry :=
  e ← sv_keys sv !! key;
  match en_expire e with
  | Some t => if t <? now_ms sv then None else Some e
  | None => Some e
  end.

Definition put_entry (sv : Server) (key : string) (d : datum) (expire : option Z) : Server :=
  {| sv_clock := sv_clock sv; sv_keys := <[key := {| en_data := d; en_expire := expire |}]> (sv_keys sv) |}.

Definition drop_entry (sv : Server) (key : string) : Server :=
  {| sv_clock := sv_clock sv; sv_keys := delete key (sv_keys sv) |}.

Definition wrongType : string := "WRONGTYPE Operation against a key holding the wrong kind of value".
Definition notInteger : string := "ERR value is not an integer or out of range".

Definition incr_by (key : string) (d : Z) (sv : Server) : result int64 * Server :=
  let add c expire :=
    let n := c + d in
    if bool_decide (in_int64 n) then (Ok n, put_entry sv key (DStr (FormatInt n)) expire) else (Err notInteger, sv) in
  match live sv key with
  | None => add 0 None
  | Some e =>
      match en_data e with
      | DStr s => match parse_dec s with Some c => add c (en_expire e) | None => (Err notInteger, sv) end
      | DZset _ => (Err wrongType, sv)
      end
  end.

Definition zset_of (sv : Server) (key : string) : result (gmap string float64 * option Z) :=
  match live sv key with
  | None => Ok (∅, None)
  | Some e => match en_data e with DZset z => Ok (z, en_expire e) | DStr _ => Err wrongType end
  end.

Definition score (s : string) : option float64 :=
  if String.eqb s "-inf" then Some (S754_infinity true)
  else if String.eqb s "+inf" then Some (S754_infinity false)
  else float_of_Z <$> parse_dec s.

Definition between (lo hi : option float64) (x : float64) : bool :=
  match lo, hi with Some a, Some b => fleb a x && fleb x b | _, _ => false end.

Definition exec (R : Type) (c : RedisCmd R) : Server -> result R * Server :=
  match c in RedisCmd R return Server -> result R * Server with
  | GET key => fun sv =>
      match live sv key with
      | None => (Ok None, sv)
      | Some e => match en_data e with DStr s => (Ok (Some s), sv) | DZset _ => (Err wrongType, sv) end
      end
  | SET key value px => fun sv =>
      match px with
      | None => (Ok tt, put_entry sv key (DStr value) None)
      | Some ms =>
          match parse_dec ms with
          | Some n => if 0 <? n then (Ok tt, put_entry sv key (DStr value) (Some (now_ms sv + n)))
                      else (Err "ERR invalid expire time", sv)
          | None => (Err notInteger, sv)
          end
      end
  | INCRBY key increment => fun sv =>
      match parse_dec increment with Some d => incr_by key d sv | None => (Err notInteger, sv) end
  | INCR key => incr_by key 1
  | DECR key => incr_by key (-1)
  | PEXPIRE key ms => fun sv =>
      match parse_dec ms, live sv key with
      | None, _ => (Err notInteger, sv)
      | Some n, None => (Ok tt, sv)
      | Some n, Some e =>
          if 0 <? n then (Ok tt, put_entry sv key (en_data e) (Some (now_ms sv + n))) else (Ok tt, drop_entry sv key)
      end
  | DEL key => fun sv => (Ok tt, drop_entry sv key)
  | ZADD key sc member => fun sv =>
      match zset_of sv key, score sc with
      | Ok (z, expire), Some x => (Ok tt, put_entry sv key (DZset (<[member := x]> z)) expire)
      | Ok _, None => (Err "ERR value is not a valid float", sv)
      | Err e, _ => (Err e, sv)
      end
  | ZCOUNT key min max => fun sv =>
      match zset_of sv key with
      | Ok (z, _) => (Ok (Z.of_nat (size (filter (fun '(_, x) => between (score min) (score max) x = true) z))), sv)
      | Err e => (Err e, sv)
      end
  | ZREMRANGEBYSCORE key min max => fun sv =>
      match zset_of sv key with
      | Ok (z, expire) =>
          (Ok tt, put_entry sv key (DZset (filter (fun '(_, x) => between (score min) (score max) x = false) z)) expire)
      | Err e => (Err e, sv)
      end
  end.

(** Time passes. *)
Definition server_env (sv sv' : Server) : Prop := sv_clock sv <= sv_clock sv' /\ sv_keys sv' = sv_keys sv.

Definition string_at (sv : Server) (key : string) : option string :=
  e ← live sv key; match en_data e with DStr s => Some s | DZset _ => None end.

Definition deadline_at (sv : Server) (key : string) : option Time :=
  e ← live sv key;
  match en_data e with DStr _ => (fun t => t * Millisecond + Millisecond - 1) <$> en_expire e | DZset _ => None end.

(** *** It keeps the laws *)

Lemma live_put_eq sv key d expire :
  match expire with Some t => now_ms sv <= t | None => True end ->
  live (put_entry sv key d expire) key = Some {| en_data := d; en_expire := expire |}.
Proof.
  intros He. unfold live, put_entry. cbn [sv_keys]. rewrite lookup_insert_eq. cbn.
  destruct expire as [t|]; [|done]. unfold now_ms in *. cbn [sv_clock].
  by rewrite (proj2 (Z.ltb_ge t _)).
Qed.

Lemma live_put_ne sv key key' d expire : key <> key' -> live (put_entry sv key d expire) key' = live sv key'.
Proof. intros H. unfold live, put_entry. cbn [sv_keys]. by rewrite lookup_insert_ne. Qed.

Lemma live_drop_eq sv key : live (drop_entry sv key) key = None.
Proof. unfold live, drop_entry. cbn [sv_keys]. by rewrite lookup_delete_eq. Qed.

Lemma live_drop_ne sv key key' : key <> key' -> live (drop_entry sv key) key' = live sv key'.
Proof. intros H. unfold live, drop_entry. cbn [sv_keys]. by rewrite lookup_delete_ne. Qed.

(** The expiry of a live entry is not over. *)
Lemma live_expire sv key e : live sv key = Some e ->
  match en_expire e with Some t => now_ms sv <= t | None => True end.
Proof.
  unfold live. intros (e' & _ & H)%bind_Some. destruct (en_expire e') as [t|] eqn:E; [|by simplify_eq; rewrite E].
  destruct (t <? now_ms sv) eqn:Et; [done|]. simplify_eq. rewrite E. zify_bool. done.
Qed.

(** A command leaves the server, or changes its key. *)
Lemma exec_effect R (c : RedisCmd R) sv :
  (exec R c sv).2 = sv \/ (exists d expire, (exec R c sv).2 = put_entry sv (cmd_key c) d expire) \/
  (exec R c sv).2 = drop_entry sv (cmd_key c).
Proof.
  destruct c; cbn [exec cmd_key]; unfold incr_by; cbv zeta; repeat case_match; simplify_eq/=; eauto 6.
Qed.

Lemma live_other R (c : RedisCmd R) sv key : cmd_key c <> key -> live (exec R c sv).2 key = live sv key.
Proof.
  intros H. destruct (exec_effect R c sv) as [->|[(d & x & ->)| ->]]; [done|by apply live_put_ne|by apply live_drop_ne].
Qed.

Lemma server_clock R (c : RedisCmd R) sv : sv_clock (exec R c sv).2 = sv_clock sv.
Proof. by destruct (exec_effect R c sv) as [->|[(d & x & ->)| ->]]. Qed.

Lemma server_frame R (c : RedisCmd R) sv key :
  cmd_key c <> key ->
  string_at (exec R c sv).2 key = string_at sv key /\ deadline_at (exec R c sv).2 key = deadline_at sv key.
Proof. intros H. unfold string_at, deadline_at. by rewrite live_other. Qed.

Lemma server_get key sv :
  ((exec _ (GET key) sv).1 = Ok (string_at sv key) \/ exists e, (exec _ (GET key) sv).1 = Err e) /\
  string_at (exec _ (GET key) sv).2 key = string_at sv key /\
  deadline_at (exec _ (GET key) sv).2 key = deadline_at sv key.
Proof.
  unfold string_at, deadline_at. cbn [exec]. destruct (live sv key) as [[[s|z] x]|] eqn:E; cbn; rewrite E; cbn; eauto.
Qed.

(** The end of a lifetime counted in whole milliseconds. *)
Lemma deadline_bound sv n : 0 < n ->
  sv_clock sv + n * Millisecond - Millisecond <= (now_ms sv + n) * Millisecond + Millisecond - 1.
Proof.
  intros Hn. unfold now_ms. pose proof (Z.div_mod (sv_clock sv) Millisecond).
  pose proof (Z.mod_pos_bound (sv_clock sv) Millisecond). unfold Millisecond, Microsecond in *. lia.
Qed.

Lemma server_set key value px sv :
  match exec _ (SET key value px) sv with
  | (Ok _, sv') =>
      string_at sv' key = Some value /\
      match px with
      | None => deadline_at sv' key = None
      | Some ms => forall n, 0 < n -> ms = FormatInt n ->
          alive_until (deadline_at sv' key) (sv_clock sv + n * Millisecond - Millisecond)
      end
  | (Err _, sv') => string_at sv' key = string_at sv key /\ deadline_at sv' key = deadline_at sv key
  end.
Proof.
  unfold string_at, deadline_at. cbn [exec]. destruct px as [ms|]; [|by rewrite live_put_eq].
  destruct (parse_dec ms) as [n|] eqn:Ep; [|done]. destruct (0 <? n) eqn:En; [|done]. zify_bool.
  rewrite live_put_eq by lia. cbn. split; [done|]. intros n' Hn' ->.
  rewrite parse_dec_FormatInt in Ep. simplify_eq. by apply deadline_bound.
Qed.

Lemma server_incr_by key d sv :
  match incr_by key d sv with
  | (Ok n, sv') =>
      n = counter_of (string_at sv key) + d /\ string_at sv' key = Some (FormatInt n) /\
      deadline_at sv' key = deadline_at sv key
  | (Err _, sv') => string_at sv' key = string_at sv key /\ deadline_at sv' key = deadline_at sv key
  end.
Proof.
  unfold incr_by. cbv zeta. destruct (live sv key) as [[[s|z] x]|] eqn:E; cbn [en_data en_expire]; [|done|].
  - destruct (parse_dec s) as [c|] eqn:Ep; [|done]. case_bool_decide; [|done].
    pose proof (live_expire sv key _ E) as Hx. unfold string_at, deadline_at. rewrite live_put_eq, E by done.
    cbn. by rewrite Ep.
  - case_bool_decide; [|done]. unfold string_at, deadline_at. rewrite live_put_eq, E by done. done.
Qed.

Lemma server_pexpire key ms sv :
  0 < ms ->
  let '(r, sv') := exec _ (PEXPIRE key (FormatInt ms)) sv in
  string_at sv' key = string_at sv key /\
  match r with
  | Ok _ => string_at sv key <> None ->
      alive_until (deadline_at sv' key) (sv_clock sv + ms * Millisecond - Millisecond)
  | Err _ => deadline_at sv' key = deadline_at sv key
  end.
Proof.
  intros Hms. cbn [exec]. rewrite parse_dec_FormatInt. unfold string_at, deadline_at.
  destruct (live sv key) as [[dt x]|] eqn:E; [|by rewrite E].
  rewrite (proj2 (Z.ltb_lt 0 ms)), live_put_eq by lia. cbn. split; [done|].
  destruct dt; [|done]. intros _. by apply deadline_bound.
Qed.

Lemma server_integers R (c : RedisCmd R) sv :
  is_SET c = false -> integers (string_at sv) -> integers (string_at (exec R c sv).2).
Proof.
  intros Hc Hi key s. destruct (decide (key = cmd_key c)) as [->|Hk]; [|unfold string_at; rewrite live_other by done; apply Hi].
  pose proof (fun d => server_incr_by (cmd_key c) d sv) as Hinc.
  assert (Hgo : forall d, string_at (incr_by (cmd_key c) d sv).2 (cmd_key c) = Some s -> exists n, s = FormatInt n).
  { intros d. specialize (Hinc d). destruct (incr_by (cmd_key c) d sv) as [[n|e] sv']; cbn [snd].
    - destruct Hinc as (_ & -> & _). intros [= <-]. by exists n.
    - destruct Hinc as [-> _]. apply Hi. }
  clear Hinc. destruct c; try discriminate Hc; cbn [exec cmd_key] in *; try apply Hgo.
  - repeat case_match; simplify_eq/=; apply Hi.
  - destruct (parse_dec increment); [apply Hgo|apply Hi].
  - destruct (parse_dec ms) as [n|]; [|apply Hi]. destruct (live sv key) as [e|] eqn:E; [|apply Hi].
    destruct (0 <? n) eqn:En; cbn [snd]; unfold string_at; [|by rewrite live_drop_eq].
    zify_bool. rewrite live_put_eq by lia. specialize (Hi key s). unfold string_at in Hi. by rewrite E in Hi.
  - cbn [snd]. unfold string_at. by rewrite live_drop_eq.
  - unfold zset_of, string_at. destruct (live sv key) as [[[s'|z] x]|] eqn:E; cbn [en_data en_expire snd].
    + rewrite E. specialize (Hi key s). unfold string_at in Hi. by rewrite E in Hi.
    + destruct (score score0); cbn [snd]; [|by rewrite E]. by rewrite live_put_eq by apply (live_expire sv key _ E).
    + destruct (score score0); cbn [snd]; [|by rewrite E]. by rewrite live_put_eq.
  - destruct (zset_of sv key) as [[z x]|]; apply Hi.
  - unfold zset_of, string_at. destruct (live sv key) as [[[s'|z] x]|] eqn:E; cbn [en_data en_expire snd].
    + rewrite E. specialize (Hi key s). unfold string_at in Hi. by rewrite E in Hi.
    + by rewrite live_put_eq by apply (live_expire sv key _ E).
    + by rewrite live_put_eq.
Qed.

Lemma now_ms_le sv sv' : sv_clock sv <= sv_clock sv' -> now_ms sv <= now_ms sv'.
Proof. intros H. unfold now_ms. by apply Z.div_le_mono. Qed.

Lemma server_env_live sv sv' key :
  server_env sv sv' ->
  live sv' key = match live sv key with
                 | Some e => match en_expire e with
                             | Some t => if t <? now_ms sv' then None else Some e
                             | None => Some e
                             end
                 | None => None
                 end.
Proof.
  intros [Hc Hk]. apply now_ms_le in Hc. unfold live. rewrite Hk. destruct (sv_keys sv !! key) as [e|]; [|done]. cbn.
  destruct (en_expire e) as [t|] eqn:E; [|by rewrite E]. destruct (t <? now_ms sv) eqn:Et; [|by rewrite E].
  zify_bool. by rewrite (proj2 (Z.ltb_lt t (now_ms sv'))) by lia.
Qed.

Lemma server_env_law sv sv' key :
  server_env sv sv' -> alive_until (deadline_at sv key) (sv_clock sv') ->
  string_at sv' key = string_at sv key /\ deadline_at sv' key = deadline_at sv key.
Proof.
  intros He Ha. unfold string_at, deadline_at in *. rewrite (server_env_live sv sv' key He).
  destruct (live sv key) as [[[s|z] [t|]]|]; cbn in *; try done; [|by destruct (t <? now_ms sv')].
  destruct (t <? now_ms sv') eqn:Et; [|done]. zify_bool. exfalso. unfold now_ms in Et.
  pose proof (Z.div_mod (sv_clock sv') Millisecond). pose proof (Z.mod_pos_bound (sv_clock sv') Millisecond).
  unfold Millisecond, Microsecond in *. lia.
Qed.

Lemma server_env_vanish sv sv' key s : server_env sv sv' -> string_at sv' key = Some s -> string_at sv key = Some s.
Proof.
  intros He. unfold string_at. rewrite (server_env_live sv sv' key He).
  destruct (live sv key) as [[[s'|z] [t|]]|]; cbn; try done; by destruct (t <? now_ms sv').
Qed.

#[export] Instance server_laws : RedisLaws exec sv_clock server_env := {|
  rl_string := string_at;
  rl_deadline := deadline_at;
  rl_clock := server_clock;
  rl_frame := server_frame;
  rl_get := server_get;
  rl_set := server_set;
  rl_incr key sv := server_incr_by key 1 sv;
  rl_decr key sv := server_incr_by key (-1) sv;
  rl_pexpire := server_pexpire;
  rl_integers := server_integers;
  rl_env_clock sv sv' (He : server_env sv sv') := proj1 He;
  rl_env := server_env_law;
  rl_env_vanish := server_env_vanish
|}.

(** Lua on integers. *)
Definition demo_lua : Lua := {|
  tonumber s := float_of_Z <$> parse_dec s;
  tostring x := FormatInt (default 0 (trunc_Z x));
  argument x := FormatInt (default 0 (trunc_Z x));
  random i := Z.of_nat i
|}.

Lemma demo_lua_laws : LuaLaws demo_lua.
Proof.
  split; intros n; cbn.
  - by rewrite parse_dec_FormatInt.
  - intros Hn. by rewrite trunc_small.
Qed.

Definition demo_Int64 (r : Reply) : result int64 :=
  match r with
  | One (VInt n) => Ok n
  | One (VBulk s) => match ParseInt s with (n, None) => Ok n | (_, Some err) => Err err end
  | _ => Err "redis: unexpected type"
  end.

Definition demo_px (ttl : Duration) : option string :=
  if 0 <? ttl then Some (FormatInt (milliseconds ttl)) else None.

Definition demo_redis : handler (RedisWorld Server) := redis exec demo_lua sv_clock demo_Int64 demo_px.

(** ** Limits *)

(** C7 (kind: safety).  The fixed window on Redis, behind its circuit breaker: however the store calls of any
    number of concurrent requests are interleaved, whatever the breaker rejects, and however messages to Redis
    are lost or sent again, the total cost of the requests that are allowed in a window does not exceed what its
    counter had left of a limit below [2^53], up to two milliseconds before the end of the window; provided the
    policy's action blocks what is over the limit, the window is not a calendar month and has a positive length,
    and no cost takes the limit out of the range of an int64. The counter holds between zero and the limit to
    begin with and does not expire within that time, and instants are between 1970 and 2262. *)
Theorem redis_fixed_window_safe {K : Type} (exec : forall R, RedisCmd R -> K -> result R * K) (lua : Lua)
    (clock : K -> Time) (Int64 : Reply -> result int64) (set_px : Duration -> option string)
    (senv : K -> K -> Prop) {HR : RedisLaws exec clock senv}
    (loc : Z) (policy : Policy) (key : string) (t0 : Time) (reqs : list RequestContext)
    (x x' : CircuitBreaker * RedisWorld K) (ps' : list (prog (int64 * result Decision))) :
  LuaLaws lua -> (forall n, Int64 (RInt n) = Ok n) ->
  let cfg := pol_Algorithm policy in
  let limit := effective_limit cfg in
  let windowEnd := WindowEnd t0 loc cfg in
  let wk := windowKey key (WindowStart t0 loc cfg) in
  let horizon := windowEnd - 2 * Millisecond in
  let server := rw_server x.2 in
  blocking (pol_Action policy) = true ->
  cfg_Window cfg <> "month" -> 0 < WindowDuration cfg -> WindowStart t0 loc cfg <= maxInt64 ->
  limit < 2 ^ 53 -> integers (rl_string server) -> 0 <= clock server ->
  0 <= counter_of (rl_string server wk) <= limit -> alive_until (rl_deadline server wk) horizon ->
  Forall (fun req => limit + Cost req cfg <= maxInt64) reqs ->
  rtc (pool_step (guarded (redis exec lua clock Int64 set_px)) (guarded_env (redis_env senv (fun _ => True))))
    (client {| clk_Now := None; clk_Loc := loc |} policy key <$> reqs, x) (ps', x') ->
  clock (rw_server x'.2) <= horizon ->
  claimed (granted windowEnd) ps' <= limit - counter_of (rl_string server wk).
Proof.
  intros HLua HInt64 cfg limit windowEnd wk horizon server Hb Hm Hd Hs Hlim Hi Hc Hv Ha Hcost Hrtc Hend.
  pose (HL := guarded_laws _ _ (HL := redis_laws exec lua clock Int64 set_px senv (fun _ => True) HLua HInt64)).
  unfold horizon, windowEnd in Ha, Hend. rewrite WindowEnd_duration in Ha, Hend by done.
  refine (protocol_safe _ _ (HL := HL) wk limit (WindowStart t0 loc cfg) (WindowDuration cfg) Hd _ _ _ x _ x'
    Hi Hv Ha _ Hrtc Hend).
  - cbn. lia.
  - rewrite Forall_fmap. eapply Forall_impl; [exact Hcost|]. intros req Hreq.
    apply obeys_ret. by apply obeys_fixed_window.
Qed.

Definition demo_server : Server := {| sv_clock := 1000; sv_keys := ∅ |}.
Definition demo_redis_world (net : list delivery) : CircuitBreaker * RedisWorld Server :=
  (NewCircuitBreaker 5 (10 * Second) 2, {| rw_server := demo_server; rw_net := net |}).

(** Two requests of cost 2 and one of cost 1 against a limit of 3, where the reply to
    the first swap is lost and the swap sent again. *)
Lemma redis_fixed_window_safe_witness :
  let policy := demo_policy 3 "1s" in
  let x := demo_redis_world [Answered 0; Answered 1] in
  let r := run_all (guarded demo_redis) (client demo_clock policy "k" <$> demo_requests) x in
  claimed (granted (WindowEnd 0 0 (pol_Algorithm policy))) (Ret <$> r.1)
    <= 3 - counter_of (string_at demo_server (windowKey "k" 0)).
Proof.
  intros policy x r.
  pose proof (redis_fixed_window_safe exec demo_lua sv_clock demo_Int64 demo_px server_env (HR := server_laws)
    0 policy "k" 0 demo_requests x r.2 (Ret <$> r.1) demo_lua_laws (fun n => eq_refl)) as H.
  apply H; clear H; only 1-5, 7-9, 12: by vm_compute.
  - intros key s H. by vm_compute in H.
  - repeat constructor; by vm_compute.
  - apply run_all_pool, surjective_pairing.
Defined.

(** ** Leases *)

(** C5 (kind: safety).  The concurrency limiter on Redis, behind its circuit breaker: however the
    acquisitions and releases of any number of sessions are interleaved, whatever the
    breaker rejects and however messages are lost, as long as none is run twice, over
    a period two milliseconds shorter than the lease time-to-live there are never more
    sessions between acquisition and release than the limit. *)
Theorem redis_concurrency_safe {K : Type} (exec : forall R, RedisCmd R -> K -> result R * K) (lua : Lua)
    (clock : K -> Time) (Int64 : Reply -> result int64) (set_px : Duration -> option string)
    (senv : K -> K -> Prop) {HR : RedisLaws exec clock senv}
    (policy : Policy) (key : string) (reqs : list RequestContext)
    (x x' : CircuitBreaker * RedisWorld K) (ps' : list (prog (result Decision))) :
  LuaLaws lua -> (forall n, Int64 (RInt n) = Ok n) ->
  let limit := lease_limit (pol_Algorithm policy) in
  let ttl := lease_ttl (pol_Algorithm policy) in
  let server := rw_server x.2 in
  in_int64 (cfg_MaxConcurrency (pol_Algorithm policy)) -> in_int64 (cfg_Limit (pol_Algorithm policy)) ->
  limit < 2 ^ 53 -> Millisecond <= ttl ->
  integers (rl_string server) -> Forall at_most_once (rw_net x.2) ->
  0 <= counter_of (rl_string server (leaseKey key)) ->
  rtc (pool_step (guarded (redis exec lua clock Int64 set_px)) (guarded_env (redis_env senv at_most_once)))
    (session policy key <$> reqs, x) (ps', x') ->
  clock (rw_server x'.2) <= clock server + ttl - 2 * Millisecond ->
  holders ps' <= limit.
Proof.
  intros HLua HInt64 limit ttl server Hmc Hlim Hcap Httl Hi Hnet Hc Hrtc Hend.
  pose (HS := redis_laws exec lua clock Int64 set_px senv at_most_once HLua HInt64).
  pose (HL := redis_lease_laws exec lua clock Int64 set_px senv at_most_once HLua HInt64 (fun _ H => H)).
  pose proof (lease_limit_bounds _ Hmc Hlim). pose proof (lease_ttl_bound (pol_Algorithm policy)).
  refine (sessions_safe _ _ (LL := guarded_lease_laws _ _ (HL := HS) (LL := HL)) policy key reqs x x' ps'
    _ _ Hi Hnet Hc Hrtc Hend); cbn; subst limit ttl; lia.
Qed.

(** Three sessions against a limit of 2; the reply to the second acquisition is lost. *)
Lemma redis_concurrency_safe_witness :
  let x := demo_redis_world [Answered 0; Failed 1 "i/o timeout"] in
  let r := run_all (guarded demo_redis) (session (lease_policy 2) "k" <$> demo_requests) x in
  holders (Ret <$> r.1) <= 2.
Proof.
  intros x r.
  pose proof (redis_concurrency_safe exec demo_lua sv_clock demo_Int64 demo_px server_env (HR := server_laws)
    (lease_policy 2) "k" demo_requests x r.2 (Ret <$> r.1) demo_lua_laws (fun n => eq_refl)) as H.
  apply H; clear H; only 1-4, 7, 9: by vm_compute.
  - intros key s H. by vm_compute in H.
  - by repeat constructor.
  - apply run_all_pool, surjective_pairing.
Defined.

(** ** Examples *)

Definition served {R} (op : CounterOp R) (net : list delivery) (sv : Server) : R * Server :=
  let '(r, w) := demo_redis R op {| rw_server := sv; rw_net := net |} in (r, rw_server w).

Definition holding_two : Server :=
  put_entry demo_server (leaseKey "k") (DStr "2") None.

(** A release whose reply is lost is sent again and frees a slot that is still held. *)
Example redis_release_twice :
  let '(r, sv) := served (ReleaseLease (leaseKey "k")) [Answered 1] holding_two in
  r = Ok () /\ string_at sv (leaseKey "k") = Some "0" /\
  (served (AcquireLease (leaseKey "k") 2 Minute) [] sv).1 = Ok (true, 1).
Proof. by vm_compute. Qed.

(** Beyond [2^53] a swap succeeds on a value that was not the expected one. *)
Example redis_cas_beyond_doubles :
  let sv := put_entry demo_server "k" (DStr "9007199254740993") None in
  (served (CompareAndSwap "k" 9007199254740992 0 Second) [] sv).1 = Ok true.
Proof. by vm_compute. Qed.

(** Scripts start from the same random seed, so two requests of the same nanosecond
    write the same members: of four events, two are counted. *)
Example redis_log_collides :
  let op := CheckAndAddTimestamps "k" 0 3 2 1700000000000000000 Minute in
  let '(r1, sv1) := served op [] demo_server in
  let '(r2, sv2) := served op [] sv1 in
  r1 = Ok (0, true) /\ r2 = Ok (2, false) /\
  let '(r3, sv3) := served (CheckAndAddTimestamps "k" 0 4 2 1700000000000000000 Minute) [] sv1 in
  r3 = Ok (2, true) /\ (served (CountAfter "k" 0) [] sv3).1 = Ok 2.
Proof. by vm_compute. Qed.

(** [TrimBefore] removes an event at the very cutoff, which [CountAfter] counts. *)
Example redis_trim_inclusive :
  let sv := (served (AddTimestamp "k" 1024 Minute) [] demo_server).2 in
  (served (CountAfter "k" 1024) [] sv).1 = Ok 1 /\
  (served (CountAfter "k" 1024) [] (served (TrimBefore "k" 1024) [] sv).2).1 = Ok 0.
Proof. by vm_compute. Qed.

(** A retried swap that had taken effect is reported as a lost race. *)
Example redis_cas_retried :
  let '(r, sv) := served (CompareAndSwap "k" 0 1 Second) [Answered 1] demo_server in
  r = Ok false /\ string_at sv "k" = Some "1".
Proof. by vm_compute. Qed.
