(* ===== verification/RedisOptions.v ===== *)
(** * internal/store/counter/redis: options of the Redis store

    [NewWithOptions] picks a kind of go-redis client and hands it the connection
    settings; a zero in them leaves go-redis its own default. *)

From S2P Require Import Prelude GoString GoTime CircuitBreaker.
Local Open Scope Z_scope.
Local Open Scope stdpp_scope.

Record Options := {
  op_Addr : string; op_Password : string; op_DB : int64; op_PoolSize : int64; op_MinIdleConns : int64;
  op_DialTimeout : Duration; op_ReadTimeout : Duration; op_WriteTimeout : Duration; op_MaxRetries : int64;
  op_TLSEnabled : bool; op_ClusterAddrs : list string; op_SentinelAddrs : list string; op_SentinelMaster : string;
  op_CBEnabled : bool; op_CBOpenThreshold : int64; op_CBHalfOpenAfter : Duration; op_CBHalfOpenMaxProbe : int64
}.

(** The connection settings that [goredis.Options], [ClusterOptions] and
    [FailoverOptions] share. *)
Record PoolOptions := {
  po_PoolSize : int64; po_MinIdleConns : int64; po_DialTimeout : Duration; po_ReadTimeout : Duration;
  po_WriteTimeout : Duration; po_MaxRetries : int64
}.

Definition defaultPool : PoolOptions :=
  {| po_PoolSize := 0; po_MinIdleConns := 0; po_DialTimeout := 0; po_ReadTimeout := 0; po_WriteTimeout := 0; po_MaxRetries := 0 |}.

(** [if opts.X > 0 { out.X = opts.X }]. *)
Definition positive_or (v old : Z) : Z := if 0 <? v then v else old.

Definition with_pool (opts : Options) (p : PoolOptions) : PoolOptions :=
  {| po_PoolSize := positive_or (op_PoolSize opts) (po_PoolSize p);
     po_MinIdleConns := positive_or (op_MinIdleConns opts) (po_MinIdleConns p);
     po_DialTimeout := positive_or (op_DialTimeout opts) (po_DialTimeout p);
     po_ReadTimeout := positive_or (op_ReadTimeout opts) (po_ReadTimeout p);
     po_WriteTimeout := positive_or (op_WriteTimeout opts) (po_WriteTimeout p);
     po_MaxRetries := positive_or (op_MaxRetries opts) (po_MaxRetries p) |}.

(** The two arguments it may set, either of which may be nil. *)
Definition applyPoolOptions (ropts copts : option PoolOptions) (opts : Options) : option PoolOptions * option PoolOptions :=
  (with_pool opts <$> ropts, with_pool opts <$> copts).
Definition applyPoolOptionsFO (fopts : PoolOptions) (opts : Options) : PoolOptions := with_pool opts fopts.

Inductive Client :=
| ClusterClient (addrs : list string) (password : string) (pool : PoolOptions)
| FailoverClient (master : string) (sentinels : list string) (password : string) (db : int64) (pool : PoolOptions)
| SingleClient (addr password : string) (db : int64) (pool : PoolOptions).

Definition client_of_options (opts : Options) : Client :=
  match op_ClusterAddrs opts, op_SentinelAddrs opts with
  | _ :: _, _ =>
      ClusterClient (op_ClusterAddrs opts) (op_Password opts)
        (default defaultPool (applyPoolOptions None (Some defaultPool) opts).2)
  | [], sentinels =>
      if negb (Nat.eqb (length sentinels) 0) && negb (String.eqb (op_SentinelMaster opts) "") then
        FailoverClient (op_SentinelMaster opts) sentinels (op_Password opts) (op_DB opts)
          (applyPoolOptionsFO defaultPool opts)
      else
        SingleClient (op_Addr opts) (op_Password opts) (op_DB opts)
          (default defaultPool (applyPoolOptions (Some defaultPool) None opts).1)
  end.

Record Store := { st_client : Client; st_cb : option CircuitBreaker }.

Definition NewWithOptions (opts : Options) : Store :=
  {| st_client := client_of_options opts;
     st_cb := if op_CBEnabled opts
              then Some (breaker_of_options (op_CBOpenThreshold opts) (op_CBHalfOpenAfter opts) (op_CBHalfOpenMaxProbe opts))
              else None |}.

Definition New (addr password : string) (db : int64) : Store :=
  NewWithOptions
    {| op_Addr := addr; op_Password := password; op_DB := db; op_PoolSize := 0; op_MinIdleConns := 0; op_DialTimeout := 0;
       op_ReadTimeout := 0; op_WriteTimeout := 0; op_MaxRetries := 0; op_TLSEnabled := false; op_ClusterAddrs := [];
       op_SentinelAddrs := []; op_SentinelMaster := ""; op_CBEnabled := false; op_CBOpenThreshold := 0;
       op_CBHalfOpenAfter := 0; op_CBHalfOpenMaxProbe := 0 |}.

Definition client_pool (c : Client) : PoolOptions :=
  match c with ClusterClient _ _ p | FailoverClient _ _ _ _ p | SingleClient _ _ _ p => p end.

(** Every kind of client gets the same connection settings. *)
Lemma pool_of_any_client opts : client_pool (client_of_options opts) = with_pool opts defaultPool.
Proof. unfold client_of_options. destruct (op_ClusterAddrs opts); [|done]. by case_match. Qed.

(** [Options] that differ in [TLSEnabled] alone. *)
Definition set_TLS (b : bool) (o : Options) : Options :=
  {| op_Addr := op_Addr o; op_Password := op_Password o; op_DB := op_DB o; op_PoolSize := op_PoolSize o;
     op_MinIdleConns := op_MinIdleConns o; op_DialTimeout := op_DialTimeout o; op_ReadTimeout := op_ReadTimeout o;
     op_WriteTimeout := op_WriteTimeout o; op_MaxRetries := op_MaxRetries o; op_TLSEnabled := b;
     op_ClusterAddrs := op_ClusterAddrs o; op_SentinelAddrs := op_SentinelAddrs o;
     op_SentinelMaster := op_SentinelMaster o; op_CBEnabled := op_CBEnabled o;
     op_CBOpenThreshold := op_CBOpenThreshold o; op_CBHalfOpenAfter := op_CBHalfOpenAfter o;
     op_CBHalfOpenMaxProbe := op_CBHalfOpenMaxProbe o |}.

(** [TLSEnabled] has no effect: the connection is in the clear either way. *)
Lemma redis_tls_ignored b opts : NewWithOptions (set_TLS b opts) = NewWithOptions opts.
Proof. done. Qed.
