(* ===== verification/Http.v ===== *)
(** * internal/server: requests, responses and the middleware of the HTTP server

    net/http as the server uses it: headers, a response that is sent once, handlers
    that may panic, routes.  On it the middleware of internal/server and of
    cmd/rlaas-server: panic recovery, body limits, trace context, request ids and
    security headers. *)

From Stdlib Require Import Ascii String.
From S2P Require Import Prelude GoString GoHash GoTime.
Local Open Scope Z_scope.
Local Open Scope stdpp_scope.

(** ** Headers *)

Definition upper (c : ascii) : ascii :=
  let n := nat_of_ascii c in if (97 <=? n)%nat && (n <=? 122)%nat then ascii_of_nat (n - 32) else c.

(** [textproto.CanonicalMIMEHeaderKey]: the first letter of each part is a capital. *)
Fixpoint canonical_from (start : bool) (s : string) : string :=
  match s with
  | "" => ""
  | String c s' => String (if start then upper c else lower_ascii c) (canonical_from (Ascii.eqb c "-") s')
  end.
Definition canonical (key : string) : string := canonical_from true key.

Abbreviation Header := (gmap string (list string)).

Definition header_Get (h : Header) (key : string) : string := default "" (head (default [] (h !! canonical key))).
Definition header_Set (key value : string) (h : Header) : Header := <[canonical key := [value]]> h.
Definition header_Add (key value : string) (h : Header) : Header :=
  <[canonical key := default [] (h !! canonical key) ++ [value]]> h.
Definition header_Del (key : string) (h : Header) : Header := delete (canonical key) h.

(** ** Requests and responses *)

Record TraceContext := { tc_TraceID : string; tc_SpanID : string; tc_Flags : string }.
Definition emptyTrace : TraceContext := {| tc_TraceID := ""; tc_SpanID := ""; tc_Flags := "" |}.

(** A request, the limit on its body and the trace context it carries. *)
Record Request := {
  rq_Method : string; rq_Path : string; rq_Header : Header; rq_RemoteAddr : string; rq_TLS : bool;
  rq_Body : string; rq_MaxBody : option int64; rq_Trace : option TraceContext
}.

Definition with_header (h : Header) (r : Request) : Request :=
  {| rq_Method := rq_Method r; rq_Path := rq_Path r; rq_Header := h; rq_RemoteAddr := rq_RemoteAddr r;
     rq_TLS := rq_TLS r; rq_Body := rq_Body r; rq_MaxBody := rq_MaxBody r; rq_Trace := rq_Trace r |}.
Definition with_trace (tc : TraceContext) (r : Request) : Request :=
  {| rq_Method := rq_Method r; rq_Path := rq_Path r; rq_Header := rq_Header r; rq_RemoteAddr := rq_RemoteAddr r;
     rq_TLS := rq_TLS r; rq_Body := rq_Body r; rq_MaxBody := rq_MaxBody r; rq_Trace := Some tc |}.

(** [http.MaxBytesReader]: reading more than [n] bytes is an error. *)
Definition MaxBytesReader (n : int64) (r : Request) : Request :=
  let n := if n <? 0 then 0 else n in
  {| rq_Method := rq_Method r; rq_Path := rq_Path r; rq_Header := rq_Header r; rq_RemoteAddr := rq_RemoteAddr r;
     rq_TLS := rq_TLS r; rq_Body := rq_Body r;
     rq_MaxBody := Some (match rq_MaxBody r with Some m => Z.min m n | None => n end); rq_Trace := rq_Trace r |}.

Definition errBodyTooLarge : string := "http: request body too large".

(** [io.ReadAll(r.Body)]. *)
Definition read_body (r : Request) : result string :=
  match rq_MaxBody r with
  | Some n => if n <? Z.of_nat (String.length (rq_Body r)) then Err errBodyTooLarge else Ok (rq_Body r)
  | None => Ok (rq_Body r)
  end.

(** A response: the headers to be sent, the status and headers once they are sent, and
    the body. *)
Record Writer := { wr_Header : Header; wr_Sent : option (Z * Header); wr_Body : string }.
Definition newWriter : Writer := {| wr_Header := ∅; wr_Sent := None; wr_Body := "" |}.

Definition set_header (key value : string) (w : Writer) : Writer :=
  {| wr_Header := header_Set key value (wr_Header w); wr_Sent := wr_Sent w; wr_Body := wr_Body w |}.
Definition del_header (key : string) (w : Writer) : Writer :=
  {| wr_Header := header_Del key (wr_Header w); wr_Sent := wr_Sent w; wr_Body := wr_Body w |}.

(** Only the first status counts. *)
Definition WriteHeader (status : Z) (w : Writer) : Writer :=
  match wr_Sent w with
  | Some _ => w
  | None => {| wr_Header := wr_Header w; wr_Sent := Some (status, wr_Header w); wr_Body := wr_Body w |}
  end.

Definition Write (text : string) (w : Writer) : Writer :=
  let w := WriteHeader 200 w in
  {| wr_Header := wr_Header w; wr_Sent := wr_Sent w; wr_Body := wr_Body w +:+ text |}.

Definition newline : string := String "010" "".

(** [http.Error]. *)
Definition http_Error (error : string) (status : Z) (w : Writer) : Writer :=
  let w := del_header "Content-Length" w in
  let w := set_header "Content-Type" "text/plain; charset=utf-8" w in
  let w := set_header "X-Content-Type-Options" "nosniff" w in
  Write (error +:+ newline) (WriteHeader status w).

(** A response that [http_Error] sends first has its status and its headers. *)
Definition refused (status : Z) (w w' : Writer) : Prop :=
  exists h, wr_Sent w' = Some (status, h) /\
    forall key, key <> "Content-Length" -> key <> "Content-Type" -> key <> "X-Content-Type-Options" ->
      h !! key = wr_Header w !! key.

Lemma http_Error_sent error status w :
  wr_Sent w = None -> refused status w (http_Error error status w).
Proof.
  intros Hw. unfold refused, http_Error, Write, WriteHeader, set_header, del_header. cbn [wr_Sent wr_Header]. rewrite Hw.
  cbn [wr_Sent]. eexists. split; [done|]. intros key H1 H2 H3. unfold header_Set, header_Del.
  rewrite !lookup_insert_ne, lookup_delete_ne by (intros E; vm_compute in E; congruence). done.
Qed.

(** ** Handlers *)

Section Handlers.
(** The state handlers share. *)
Context {St : Type}.

(** What a handler leaves: the response, whether it panicked, and the state. *)
Abbreviation Handler := (Request -> Writer -> St -> Writer * bool * St).

(** *** http.go *)

(** [PanicRecovery]. *)
Definition PanicRecovery (next : Handler) : Handler := fun r w s =>
  let '(w', panicked, s') := next r w s in
  if panicked then (http_Error "internal server error" 500 w', false, s') else (w', false, s').

(** Routes of an [http.ServeMux], for paths in canonical form: the pattern that is the
    path, else the longest pattern ending in a slash that is a prefix of it. *)
Definition subtree (pattern path : string) : bool := HasSuffix pattern "/" && HasPrefix path pattern.

Definition longer (best candidate : option (string * Handler)) : option (string * Handler) :=
  match best, candidate with
  | Some (p, _), Some (q, _) => if (String.length p <? String.length q)%nat then candidate else best
  | None, _ => candidate
  | _, None => best
  end.

Fixpoint longest_subtree (routes : list (string * Handler)) (path : string) : option (string * Handler) :=
  match routes with
  | [] => None
  | (p, h) :: rest => longer (longest_subtree rest path) (if subtree p path then Some (p, h) else None)
  end.

Definition route (routes : list (string * Handler)) (path : string) : option Handler :=
  match List.find (fun ph => String.eqb ph.1 path) routes with
  | Some (_, h) => Some h
  | None => snd <$> longest_subtree routes path
  end.

Definition ServeMux (routes : list (string * Handler)) : Handler := fun r w s =>
  match route routes (rq_Path r) with
  | Some h => h r w s
  | None => (http_Error "404 page not found" 404 w, false, s)
  end.

Definition healthz : Handler := fun _ w s => (Write "ok" w, false, s).

Definition readyz (ready : St -> bool) : Handler := fun _ w s =>
  if ready s then (Write "ok" w, false, s) else (http_Error "not ready" 503 w, false, s).

(** The routes [NewHTTPServer] registers. *)
Definition base_routes (ready : St -> bool) (checkHandler : Handler) : list (string * Handler) :=
  [("/rlaas/v1/check", checkHandler); ("/healthz", healthz); ("/readyz", readyz ready)].

(** What [ListenAndServe] serves: the wrapper set by [WrapHandler] around the routes,
    and panic recovery around both. *)
Definition root_handler (wrap : option (Handler -> Handler)) (mux : Handler) : Handler :=
  PanicRecovery (match wrap with Some f => f mux | None => mux end).

(** *** bodylimit.go *)

Definition MaxBodyBytes (maxBytes : int64) (next : Handler) : Handler :=
  if maxBytes <=? 0 then next else fun r w s => next (MaxBytesReader maxBytes r) w s.

(** *** tracing.go *)

(** [n] characters of the class [[0-9a-f]]. *)
Fixpoint take_hex (n : nat) (s : string) : option (string * string) :=
  match n, s with
  | O, _ => Some ("", s)
  | S n', String c s' =>
      let k := nat_of_ascii c in
      if ((48 <=? k) && (k <=? 57) || (97 <=? k) && (k <=? 102))%nat then
        match take_hex n' s' with Some (a, rest) => Some (String c a, rest) | None => None end
      else None
  | _, _ => None
  end.

Definition take_dash (s : string) : option string :=
  match s with String "-" s' => Some s' | _ => None end.

(** The match of [traceparentRE], or the empty context. *)
Definition parseTraceparent (header : string) : TraceContext :=
  default emptyTrace (
    '(_, s) ← take_hex 2 header; s ← take_dash s;
    '(t, s) ← take_hex 32 s; s ← take_dash s;
    '(p, s) ← take_hex 16 s; s ← take_dash s;
    '(f, s) ← take_hex 2 s;
    if String.eqb s "" then Some {| tc_TraceID := t; tc_SpanID := p; tc_Flags := f |} else None).

Definition TraceContextMiddleware (next : Handler) : Handler := fun r w s =>
  let tc := parseTraceparent (header_Get (rq_Header r) "traceparent") in
  let w := if String.eqb (tc_TraceID tc) "" then w
           else set_header "traceparent" (header_Get (rq_Header r) "traceparent") w in
  next (with_trace tc r) w s.

Definition TraceFromContext (r : Request) : TraceContext := default emptyTrace (rq_Trace r).

(** *** cmd/rlaas-server: request ids and security headers *)

(** [generateRequestID], on the 16 bytes read from crypto/rand. *)
Definition generateRequestID (random : list Z) : string := EncodeToString random.

Definition RequestIDMiddleware (random : list Z) (next : Handler) : Handler := fun r w s =>
  let id := header_Get (rq_Header r) "X-Request-Id" in
  if String.eqb id "" then
    let id := generateRequestID random in
    next (with_header (header_Set "X-Request-Id" id (rq_Header r)) r) (set_header "X-Request-Id" id w) s
  else next r (set_header "X-Request-Id" id w) s.

Definition SecurityHeadersMiddleware (next : Handler) : Handler := fun r w s =>
  let w := set_header "X-Content-Type-Options" "nosniff" w in
  let w := set_header "X-Frame-Options" "DENY" w in
  let w := set_header "X-XSS-Protection" "0" w in
  let w := set_header "Cache-Control" "no-store" w in
  let w := set_header "Content-Security-Policy" "default-src 'none'; frame-ancestors 'none'" w in
  let w := set_header "Referrer-Policy" "no-referrer" w in
  let w := set_header "Permissions-Policy" "camera=(), microphone=(), geolocation=()" w in
  let w := if rq_TLS r
           then set_header "Strict-Transport-Security" "max-age=63072000; includeSubDomains; preload" w else w in
  next r w s.
End Handlers.

Abbreviation Handler St := (Request -> Writer -> St -> Writer * bool * St).

(** ** Trace contexts *)

Definition is_hex (c : ascii) : bool :=
  let k := nat_of_ascii c in ((48 <=? k) && (k <=? 57) || (97 <=? k) && (k <=? 102))%nat.

Fixpoint all_hex (s : string) : bool :=
  match s with "" => true | String c s' => is_hex c && all_hex s' end.

Lemma take_hex_app n a rest : all_hex a = true -> String.length a = n -> take_hex n (a +:+ rest) = Some (a, rest).
Proof.
  intros H <-. induction a as [|c a IH]; [done|]. cbn [all_hex] in H. apply andb_true_iff in H as [Hc Ha].
  rewrite str_app_cons. cbn [String.length take_hex]. unfold is_hex in Hc. rewrite Hc. by rewrite IH.
Qed.

Lemma take_hex_inv n s a rest : take_hex n s = Some (a, rest) ->
  s = a +:+ rest /\ String.length a = n /\ all_hex a = true.
Proof.
  revert s a. induction n as [|n IH]; intros s a; cbn [take_hex].
  - intros [= <- <-]. done.
  - destruct s as [|c s]; [done|]. destruct (_ || _) eqn:Ec; [|done].
    destruct (take_hex n s) as [[a' r']|] eqn:E; [|done]. intros [= <- <-].
    destruct (IH s a' E) as (-> & <- & H). cbn [all_hex String.length]. unfold is_hex. by rewrite Ec, H.
Qed.

Lemma take_dash_inv s s' : take_dash s = Some s' -> s = "-" +:+ s'.
Proof. destruct s as [|[[] [] [] [] [] [] [] []] s]; cbn; try done. by intros [= ->]. Qed.

(** A trace context is read from a header exactly when the header is four groups of
    2, 32, 16 and 2 hexadecimal digits, separated by dashes. *)
Lemma traceparent_read (v t p f : string) :
  all_hex v = true -> all_hex t = true -> all_hex p = true -> all_hex f = true ->
  String.length v = 2%nat -> String.length t = 32%nat -> String.length p = 16%nat -> String.length f = 2%nat ->
  parseTraceparent (v +:+ "-" +:+ t +:+ "-" +:+ p +:+ "-" +:+ f) = {| tc_TraceID := t; tc_SpanID := p; tc_Flags := f |}.
Proof.
  intros Hv Ht Hp Hf Lv Lt Lp Lf. unfold parseTraceparent.
  rewrite take_hex_app by done. cbn [mbind option_bind].
  change (take_dash ("-" +:+ ?x)) with (Some x). cbn [mbind option_bind].
  rewrite take_hex_app by done. cbn [mbind option_bind].
  change (take_dash ("-" +:+ ?x)) with (Some x). cbn [mbind option_bind].
  rewrite take_hex_app by done. cbn [mbind option_bind].
  change (take_dash ("-" +:+ ?x)) with (Some x). cbn [mbind option_bind].
  rewrite <- (str_app_nil_r f) at 1. by rewrite take_hex_app.
Qed.

Lemma all_hex_app s t : all_hex (s +:+ t) = all_hex s && all_hex t.
Proof. induction s as [|c s IH]; [done|]. rewrite str_app_cons. cbn [all_hex]. by rewrite IH, andb_assoc. Qed.

Lemma traceparent_inv header : tc_TraceID (parseTraceparent header) <> "" ->
  let tc := parseTraceparent header in
  exists v, header = v +:+ "-" +:+ tc_TraceID tc +:+ "-" +:+ tc_SpanID tc +:+ "-" +:+ tc_Flags tc /\
    String.length v = 2%nat /\ String.length (tc_TraceID tc) = 32%nat /\ String.length (tc_SpanID tc) = 16%nat /\
    String.length (tc_Flags tc) = 2%nat /\ all_hex (v +:+ tc_TraceID tc +:+ tc_SpanID tc +:+ tc_Flags tc) = true.
Proof.
  unfold parseTraceparent. cbv zeta.
  destruct (take_hex 2 header) as [[v s1]|] eqn:E1; [|done]. cbn [mbind option_bind].
  destruct (take_dash s1) as [s2|] eqn:E2; [|done]. cbn [mbind option_bind].
  destruct (take_hex 32 s2) as [[t s3]|] eqn:E3; [|done]. cbn [mbind option_bind].
  destruct (take_dash s3) as [s4|] eqn:E4; [|done]. cbn [mbind option_bind].
  destruct (take_hex 16 s4) as [[p s5]|] eqn:E5; [|done]. cbn [mbind option_bind].
  destruct (take_dash s5) as [s6|] eqn:E6; [|done]. cbn [mbind option_bind].
  destruct (take_hex 2 s6) as [[f s7]|] eqn:E7; [|done]. cbn [mbind option_bind].
  destruct (String.eqb_spec s7 "") as [->|]; [|done]. intros _. cbn [default from_option id tc_TraceID tc_SpanID tc_Flags].
  apply take_hex_inv in E1 as (-> & Lv & Hv), E3 as (-> & Lt & Ht), E5 as (-> & Lp & Hp), E7 as (-> & Lf & Hf).
  apply take_dash_inv in E2 as ->, E4 as ->, E6 as ->. exists v. rewrite str_app_nil_r, !all_hex_app, Hv, Ht, Hp, Hf. done.
Qed.
