(* ===== verification/Auth.v ===== *)
(** * internal/server/auth.go: authentication

    API keys and HS256 tokens in front of a handler.  [Authorized] says which requests
    may pass; [AuthMiddleware] lets exactly those through. *)

From Stdlib Require Import Ascii String.
From S2P Require Import Prelude GoString GoHash GoFloat GoTime GoCrypto GoJson Http.
Local Open Scope Z_scope.
Local Open Scope stdpp_scope.

Definition AuthModeAPIKey : string := "apikey".
Definition AuthModeJWT : string := "jwt".

Record AuthMiddlewareConfig := {
  am_Enabled : bool; am_Mode : string; am_APIKeys : gset string; am_JWTSecret : list Z;
  am_JWTIssuer : string; am_JWTAudience : string; am_AdminRole : string; am_ReadRole : string;
  am_ExemptPaths : list string
}.

Definition extractBearerToken (r : Request) : string :=
  let h := header_Get (rq_Header r) "Authorization" in
  if HasPrefix h "Bearer " then TrimPrefix h "Bearer " else "".

Definition isMutatingMethod (method : string) : bool :=
  String.eqb method "POST" || String.eqb method "PUT" || String.eqb method "PATCH" || String.eqb method "DELETE".

Definition errInvalidToken : string := "invalid token".
Definition errInvalidSignature : string := "invalid signature".
Definition errTokenExpired : string := "token expired".
Definition errInvalidIssuer : string := "invalid issuer".
Definition errInvalidAudience : string := "invalid audience".

Abbreviation Claims := (list (string * json)).

(** [claims[key].(string)], empty when it is not a string. *)
Definition claim_string (key : string) (claims : Claims) : string :=
  match jget key claims with Some (JStr s) => s | _ => "" end.

Definition expired_at (now : Time) (claims : Claims) : bool :=
  match jget "exp" claims with Some (JNum x) => int64_of_float x <? Unix now | _ => false end.

Definition validateHS256JWT (now : Time) (tokenStr : string) (secret : list Z) (issuer audience : string) : result Claims :=
  match Split tokenStr "." with
  | [header; claimsPart; signature] =>
      let payload := header +:+ "." +:+ claimsPart in
      match b64_decode signature with
      | None => Err errInvalidToken
      | Some sig =>
          if bool_decide (sig = hmac_sha256 secret (string_bytes payload)) then
            match b64_decode claimsPart with
            | None => Err errInvalidToken
            | Some claimsJSON =>
                match UnmarshalMap (bytes_string claimsJSON) with
                | None => Err errInvalidToken
                | Some claims =>
                    if expired_at now claims then Err errTokenExpired
                    else if negb (String.eqb issuer "") && negb (String.eqb (claim_string "iss" claims) issuer)
                    then Err errInvalidIssuer
                    else if negb (String.eqb audience "") && negb (String.eqb (claim_string "aud" claims) audience)
                    then Err errInvalidAudience
                    else Ok claims
                end
            end
          else Err errInvalidSignature
      end
  | _ => Err errInvalidToken
  end.

(** The key a request presents. *)
Definition presentedKey (r : Request) : string :=
  let key := header_Get (rq_Header r) "X-Api-Key" in
  if String.eqb key "" then TrimPrefix (header_Get (rq_Header r) "Authorization") "Bearer " else key.

Definition json_error (message : string) : string :=
  "{" +:+ quoted "error" +:+ ":" +:+ quoted message +:+ "}".

Section Middleware.
Context {St : Type}.

Definition AuthMiddleware (cfg : AuthMiddlewareConfig) (now : Time) (next : Handler St) : Handler St :=
  if negb (am_Enabled cfg) then next else fun r w s =>
  if bool_decide (rq_Path r ∈ am_ExemptPaths cfg) then next r w s
  else if String.eqb (am_Mode cfg) AuthModeAPIKey then
    if bool_decide (presentedKey r ∈ am_APIKeys cfg) then next r w s
    else (http_Error (json_error "unauthorized") 401 w, false, s)
  else if String.eqb (am_Mode cfg) AuthModeJWT then
    let token := extractBearerToken r in
    if String.eqb token "" then (http_Error (json_error "missing bearer token") 401 w, false, s)
    else match validateHS256JWT now token (am_JWTSecret cfg) (am_JWTIssuer cfg) (am_JWTAudience cfg) with
         | Err _ => (http_Error (json_error "unauthorized") 401 w, false, s)
         | Ok claims =>
             if isMutatingMethod (rq_Method r) && negb (String.eqb (am_AdminRole cfg) "") &&
                negb (String.eqb (claim_string "role" claims) (am_AdminRole cfg))
             then (http_Error (json_error "forbidden") 403 w, false, s)
             else next r w s
         end
  else (http_Error (json_error "auth not configured") 500 w, false, s).
End Middleware.

(** ** What is allowed *)

(** A token of three parts whose signature is the HMAC of the first two, whose second
    part encodes [claims], and whose claims are not expired and name the issuer and the
    audience that are asked for. *)
Record Genuine (now : Time) (secret : list Z) (issuer audience token : string) (claims : Claims) : Prop := {
  gn_parts : exists header claimsPart signature claimsJSON,
    token = header +:+ "." +:+ claimsPart +:+ "." +:+ signature /\
    dotless header = true /\ dotless claimsPart = true /\ dotless signature = true /\
    b64_decode signature = Some (hmac_sha256 secret (string_bytes (header +:+ "." +:+ claimsPart))) /\
    b64_decode claimsPart = Some claimsJSON /\ UnmarshalMap (bytes_string claimsJSON) = Some claims;
  gn_expiry : forall x, jget "exp" claims = Some (JNum x) -> Unix now <= int64_of_float x;
  gn_issuer : issuer <> "" -> claim_string "iss" claims = issuer;
  gn_audience : audience <> "" -> claim_string "aud" claims = audience
}.

(** The key a request presents: in the header of its own or else as the authorization,
    with or without the word that names the scheme. *)
Inductive presents (r : Request) (key : string) : Prop :=
| in_header : header_Get (rq_Header r) "X-Api-Key" = key -> key <> "" -> presents r key
| as_bearer : header_Get (rq_Header r) "X-Api-Key" = "" ->
    header_Get (rq_Header r) "Authorization" = "Bearer " +:+ key -> presents r key
| bare : header_Get (rq_Header r) "X-Api-Key" = "" ->
    header_Get (rq_Header r) "Authorization" = key -> HasPrefix key "Bearer " = false -> presents r key.

(** The methods that change something. *)
Definition changing : list string := ["POST"; "PUT"; "PATCH"; "DELETE"].

(** What a request is let through for.  Without a key, a request presents the empty one. *)
Inductive Authorized (cfg : AuthMiddlewareConfig) (now : Time) (r : Request) : Prop :=
| by_default : am_Enabled cfg = false -> Authorized cfg now r
| by_path : rq_Path r ∈ am_ExemptPaths cfg -> Authorized cfg now r
| by_key key : am_Mode cfg = AuthModeAPIKey -> presents r key -> key ∈ am_APIKeys cfg -> Authorized cfg now r
| by_token token claims :
    am_Mode cfg = AuthModeJWT -> header_Get (rq_Header r) "Authorization" = "Bearer " +:+ token -> token <> "" ->
    Genuine now (am_JWTSecret cfg) (am_JWTIssuer cfg) (am_JWTAudience cfg) token claims ->
    (rq_Method r ∈ changing -> am_AdminRole cfg <> "" -> claim_string "role" claims = am_AdminRole cfg) ->
    Authorized cfg now r.

(** The credentials of a request: a key, which is not empty, or a genuine token with its
    claims. *)
Inductive credential (cfg : AuthMiddlewareConfig) (now : Time) (r : Request) : option Claims -> Prop :=
| key_credential key :
    am_Mode cfg = AuthModeAPIKey -> presents r key -> key <> "" -> key ∈ am_APIKeys cfg -> credential cfg now r None
| token_credential token claims :
    am_Mode cfg = AuthModeJWT -> header_Get (rq_Header r) "Authorization" = "Bearer " +:+ token -> token <> "" ->
    Genuine now (am_JWTSecret cfg) (am_JWTIssuer cfg) (am_JWTAudience cfg) token claims ->
    credential cfg now r (Some claims).

(** The credentials that entitle to a request: any key, the role of an administrator,
    and to read also the role of a reader. *)
Definition entitled (cfg : AuthMiddlewareConfig) (r : Request) (c : option Claims) : Prop :=
  match c with
  | None => True
  | Some claims => claim_string "role" claims = am_AdminRole cfg \/
                   ((rq_Method r ∉ changing) /\ claim_string "role" claims = am_ReadRole cfg)
  end.

(** *** Splitting at dots *)

Lemma cut_dot_app a rest : dotless a = true -> cut (a +:+ "." +:+ rest) "." = Some (a, rest).
Proof.
  induction a as [|c a IH]; intros H; [by destruct rest|]. cbn [dotless] in H. apply andb_true_iff in H as [Hc Ha].
  rewrite str_app_cons. cbn [cut String.prefix]. destruct (ascii_dec "." c) as [<-|_]; [done|]. by rewrite IH.
Qed.

Lemma cut_dot_inv s : match cut s "." with
  | Some (a, rest) => s = a +:+ "." +:+ rest /\ dotless a = true
  | None => dotless s = true
  end.
Proof.
  induction s as [|c s IH]; [done|]. cbn [cut String.prefix].
  destruct (ascii_dec "." c) as [<-|Hc].
  - cbn. by destruct s.
  - assert (Ascii.eqb c "." = false) as E by (by apply Ascii.eqb_neq).
    destruct (cut s ".") as [[a rest]|]; cbn [dotless]; rewrite E; [destruct IH as [-> ->]|]; done.
Qed.

Lemma split_dot_one n s : dotless s = true -> split_fuel n s "." = [s].
Proof.
  intros H. destruct n as [|n]; [done|]. cbn [split_fuel]. pose proof (cut_dot_inv s) as Hc.
  destruct (cut s ".") as [[a rest]|]; [|done]. destruct Hc as [-> _]. exfalso. clear -H.
  induction a as [|c a IH]; [done|]. rewrite str_app_cons in H. cbn [dotless] in H. by apply andb_true_iff in H as [_ H].
Qed.

Lemma Split_three s a b c :
  Split s "." = [a; b; c] <->
  s = a +:+ "." +:+ b +:+ "." +:+ c /\ dotless a = true /\ dotless b = true /\ dotless c = true.
Proof.
  unfold Split. split.
  - destruct (String.length s) as [|[|n]] eqn:El; cbn [split_fuel]; [done| |].
    { destruct (cut s ".") as [[]|]; done. }
    pose proof (cut_dot_inv s) as H1. destruct (cut s ".") as [[a' s1]|]; [|done]. destruct H1 as [-> Ha].
    pose proof (cut_dot_inv s1) as H2. destruct (cut s1 ".") as [[b' s2]|]; [|done]. destruct H2 as [-> Hb].
    intros [= <- <- H3]. rewrite !str_length_app in El. cbn [String.length] in El.
    destruct n as [|n]; cbn [split_fuel] in H3.
    + injection H3 as <-. split_and!; [done..|]. destruct s2; [done|cbn in El; lia].
    + pose proof (cut_dot_inv s2) as H4. destruct (cut s2 ".") as [[x y]|]; [|by injection H3 as <-].
      injection H3 as <- H3. exfalso. destruct n as [|n]; cbn [split_fuel] in H3; [done|]. by destruct (cut y ".") as [[]|].
  - intros (-> & Ha & Hb & Hc).
    assert (exists n, String.length (a +:+ "." +:+ b +:+ "." +:+ c) = S (S n)) as [n ->].
    { rewrite !str_length_app. cbn [String.length]. exists (String.length a + String.length b + String.length c)%nat. lia. }
    cbn [split_fuel]. rewrite cut_dot_app, cut_dot_app by done. by rewrite split_dot_one.
Qed.

(** *** Tokens *)

Lemma andb_negb_eqb (a b : string) : negb (String.eqb a "") && negb (String.eqb b a) = false <-> (a <> "" -> b = a).
Proof.
  destruct (String.eqb_spec a ""), (String.eqb_spec b a); cbn; split; try done; tauto.
Qed.

Lemma expired_at_false now claims :
  expired_at now claims = false <-> forall x, jget "exp" claims = Some (JNum x) -> Unix now <= int64_of_float x.
Proof.
  unfold expired_at. destruct (jget "exp" claims) as [[]|]; try (split; [intros _ y [=]|done]).
  rewrite Z.ltb_ge. split; [by intros H y [= <-]|]. intros H. by apply H.
Qed.

(** Exactly the genuine tokens are valid. *)
Lemma validate_genuine now token secret issuer audience claims :
  validateHS256JWT now token secret issuer audience = Ok claims <-> Genuine now secret issuer audience token claims.
Proof.
  split.
  - unfold validateHS256JWT. intros H. destruct (Split token ".") as [|h [|p [|sg [|]]]] eqn:Es; try done.
    apply Split_three in Es as (-> & Hh & Hp & Hs).
    destruct (b64_decode sg) as [sig|] eqn:Esg; [|done]. case_bool_decide; [subst sig|done].
    destruct (b64_decode p) as [cj|] eqn:Ep; [|done]. destruct (UnmarshalMap (bytes_string cj)) as [cl|] eqn:Ec; [|done].
    destruct (expired_at now cl) eqn:E1; [done|].
    destruct (negb (String.eqb issuer "") && _) eqn:E2; [done|].
    destruct (negb (String.eqb audience "") && _) eqn:E3; [done|]. injection H as <-.
    split; [by eauto 15|by apply expired_at_false|by apply andb_negb_eqb..].
  - intros [(h & p & sg & cj & -> & Hh & Hp & Hs & Esg & Ep & Ec) He Hi Ha]. unfold validateHS256JWT.
    rewrite (proj2 (Split_three _ h p sg)) by done. rewrite Esg, bool_decide_true, Ep, Ec by done.
    rewrite (proj2 (expired_at_false now claims)) by done. by rewrite !(proj2 (andb_negb_eqb _ _)).
Qed.

Lemma bearer_token r token : token <> "" ->
  extractBearerToken r = token <-> header_Get (rq_Header r) "Authorization" = "Bearer " +:+ token.
Proof.
  intros Ht. unfold extractBearerToken, TrimPrefix, HasPrefix. split.
  - destruct (String.prefix "Bearer " _) eqn:E; [|congruence]. apply prefix_inv in E as [t E]. rewrite E.
    rewrite (str_drop_app "Bearer " t). by intros ->.
  - intros ->. by rewrite prefix_app, str_drop_app.
Qed.

Lemma presents_iff r key : presents r key <-> presentedKey r = key.
Proof.
  unfold presentedKey. split.
  - intros [E H|E H|E H Hp]; rewrite E; cbn [String.eqb]; [by destruct (String.eqb_spec key "")| |]; rewrite H.
    + unfold TrimPrefix, HasPrefix. by rewrite prefix_app, str_drop_app.
    + unfold TrimPrefix. by rewrite Hp.
  - destruct (String.eqb_spec (header_Get (rq_Header r) "X-Api-Key") "") as [E|E]; [|intros <-; by apply in_header].
    unfold TrimPrefix. destruct (HasPrefix _ _) eqn:Hp; intros <-; [|by apply bare].
    apply as_bearer; [done|]. unfold HasPrefix in Hp. apply prefix_inv in Hp as [t ->]. by rewrite (str_drop_app "Bearer " t).
Qed.

Lemma mutating_iff m : isMutatingMethod m = true <-> m ∈ changing.
Proof.
  unfold isMutatingMethod, changing. rewrite !orb_true_iff, !String.eqb_eq, !elem_of_cons, elem_of_nil. tauto.
Qed.

(** ** What the middleware does *)

(** A request in token mode. *)
Lemma token_authorized cfg now r :
  am_Enabled cfg = true -> rq_Path r ∉ am_ExemptPaths cfg -> am_Mode cfg = AuthModeJWT -> Authorized cfg now r ->
  exists claims, extractBearerToken r <> "" /\
    validateHS256JWT now (extractBearerToken r) (am_JWTSecret cfg) (am_JWTIssuer cfg) (am_JWTAudience cfg) = Ok claims /\
    (isMutatingMethod (rq_Method r) = true -> am_AdminRole cfg <> "" -> claim_string "role" claims = am_AdminRole cfg).
Proof.
  intros He Hp Hm [H|H|k H _ _|token claims _ Hh Ht Hg Hr]; [congruence|done|by rewrite Hm in H|].
  exists claims. apply bearer_token in Hh; [|done]. rewrite Hh. split_and!; [done|by apply validate_genuine|].
  by rewrite mutating_iff.
Qed.

Lemma forbidden_false m a role : m && negb (String.eqb a "") && negb (String.eqb role a) = false <->
  (m = true -> a <> "" -> role = a).
Proof. rewrite <- andb_assoc. destruct m; cbn [andb]; [|done]. rewrite andb_negb_eqb. tauto. Qed.

(** A refusal and its status. *)
Ltac refusal :=
  eexists _, _; split; [done|]; split; [lia|]; first [tauto | split; [lia|intros []; congruence]].

Lemma auth_cases {St : Type} (cfg : AuthMiddlewareConfig) (now : Time) (next : Handler St) (r : Request)
    (w : Writer) (s : St) :
  (Authorized cfg now r /\ AuthMiddleware cfg now next r w s = next r w s) \/
  (~ Authorized cfg now r /\
   exists error status, AuthMiddleware cfg now next r w s = (http_Error error status w, false, s) /\
     (status = 401 \/ status = 403 \/ status = 500) /\
     (status = 500 <-> am_Mode cfg <> AuthModeAPIKey /\ am_Mode cfg <> AuthModeJWT)).
Proof.
  unfold AuthMiddleware. destruct (am_Enabled cfg) eqn:He; [|left; split; [by apply by_default|done]]. cbn [negb].
  case_bool_decide as Hp; [left; split; [by apply by_path|done]|].
  destruct (String.eqb_spec (am_Mode cfg) AuthModeAPIKey) as [Hk|Hk].
  { case_bool_decide as Hin; [left; split; [by eapply by_key, Hin; [|apply presents_iff]|done]|]. right. split; [|refusal].
    intros [H|H|k _ H Hk'|t c H _ _ _ _]; [congruence|done| |by rewrite Hk in H]. apply presents_iff in H. congruence. }
  destruct (String.eqb_spec (am_Mode cfg) AuthModeJWT) as [Hj|Hj].
  - pose proof (token_authorized cfg now r He Hp Hj) as Ht. cbv zeta.
    destruct (String.eqb_spec (extractBearerToken r) "") as [Hb|Hb].
    { right. split; [|refusal]. intros Ha. by destruct (Ht Ha) as (c & ? & _). }
    destruct (validateHS256JWT _ _ _ _ _) as [claims|e] eqn:Ev.
    + destruct (isMutatingMethod _ && _ && _) eqn:Ef.
      * right. split; [|refusal]. intros Ha. destruct (Ht Ha) as (c & _ & [= <-] & Hr).
        apply forbidden_false in Hr. congruence.
      * left. split; [|done]. apply (by_token _ _ _ (extractBearerToken r) claims); [done| |done| |].
        -- by apply bearer_token.
        -- by apply validate_genuine.
        -- rewrite <- mutating_iff. by apply forbidden_false.
    + right. split; [|refusal]. intros Ha. by destruct (Ht Ha) as (c & _ & ? & _).
  - right. split; [|refusal]. intros [H|H|k H _ _|t c H _ _ _ _]; [congruence|done|done|done].
Qed.

(** The key of a request is a credential or is not configured. *)
Lemma key_mode {St : Type} cfg now (next : Handler St) r w s :
  am_Enabled cfg = true -> rq_Path r ∉ am_ExemptPaths cfg -> am_Mode cfg = AuthModeAPIKey ->
  AuthMiddleware cfg now next r w s =
  if bool_decide (presentedKey r ∈ am_APIKeys cfg) then next r w s else (http_Error (json_error "unauthorized") 401 w, false, s).
Proof.
  intros He Hp Hm. unfold AuthMiddleware. rewrite He, Hm. cbn [negb]. by rewrite bool_decide_false by done.
Qed.

(** What becomes of a request with a genuine token. *)
Lemma token_mode {St : Type} cfg now (next : Handler St) r w s token claims :
  am_Enabled cfg = true -> rq_Path r ∉ am_ExemptPaths cfg -> am_Mode cfg = AuthModeJWT ->
  header_Get (rq_Header r) "Authorization" = "Bearer " +:+ token -> token <> "" ->
  Genuine now (am_JWTSecret cfg) (am_JWTIssuer cfg) (am_JWTAudience cfg) token claims ->
  AuthMiddleware cfg now next r w s =
  if isMutatingMethod (rq_Method r) && negb (String.eqb (am_AdminRole cfg) "") &&
     negb (String.eqb (claim_string "role" claims) (am_AdminRole cfg))
  then (http_Error (json_error "forbidden") 403 w, false, s) else next r w s.
Proof.
  intros He Hp Hm Hh Ht Hg. apply bearer_token in Hh; [|done]. apply validate_genuine in Hg.
  unfold AuthMiddleware. rewrite He, Hm. cbn [negb]. rewrite bool_decide_false by done. cbn [String.eqb Ascii.eqb Bool.eqb].
  rewrite Hh. destruct (String.eqb_spec token ""); [done|]. cbv zeta. change (String.eqb AuthModeJWT AuthModeAPIKey) with false.
  change (String.eqb AuthModeJWT AuthModeJWT) with true. cbv iota. by rewrite Hg.
Qed.

(** A request without credentials, when the mode is known. *)
Lemma without_credential {St : Type} cfg now (next : Handler St) r w s :
  am_Enabled cfg = true -> rq_Path r ∉ am_ExemptPaths cfg -> "" ∉ am_APIKeys cfg ->
  am_Mode cfg = AuthModeAPIKey \/ am_Mode cfg = AuthModeJWT -> (forall c, ~ credential cfg now r c) ->
  exists error, AuthMiddleware cfg now next r w s = (http_Error error 401 w, false, s).
Proof.
  intros He Hp Hempty [Hm|Hm] Hc.
  - rewrite key_mode by done. case_bool_decide as Hk; [|by eexists]. exfalso. apply (Hc None).
    apply (key_credential _ _ _ (presentedKey r)); [done|by apply presents_iff|congruence|done].
  - unfold AuthMiddleware. rewrite He, Hm. cbn [negb]. rewrite bool_decide_false by done.
    change (String.eqb AuthModeJWT AuthModeAPIKey) with false. change (String.eqb AuthModeJWT AuthModeJWT) with true. cbv iota zeta.
    destruct (String.eqb_spec (extractBearerToken r) "") as [|Ht]; [by eexists|].
    destruct (validateHS256JWT _ _ _ _ _) as [claims|] eqn:Ev; [|by eexists]. exfalso. apply (Hc (Some claims)).
    apply (token_credential _ _ _ (extractBearerToken r)); [done|by apply bearer_token|done|by apply validate_genuine].
Qed.

Lemma with_credential {St : Type} cfg now (next : Handler St) r w s c :
  am_Enabled cfg = true -> rq_Path r ∉ am_ExemptPaths cfg -> credential cfg now r c ->
  (entitled cfg r c -> AuthMiddleware cfg now next r w s = next r w s) /\
  (forall claims, c = Some claims -> rq_Method r ∈ changing -> am_AdminRole cfg <> "" ->
     claim_string "role" claims <> am_AdminRole cfg ->
     exists error, AuthMiddleware cfg now next r w s = (http_Error error 403 w, false, s)).
Proof.
  intros He Hp [key Hm Hpr Hk Hin|token claims Hm Hh Ht Hg].
  - rewrite key_mode by done. apply presents_iff in Hpr. rewrite Hpr, bool_decide_true by done. split; [done|]. by intros claims [=].
  - rewrite (token_mode cfg now next r w s token claims) by done. split.
    + intros [E|[Hr _]]; [by rewrite E, String.eqb_refl, andb_false_r|].
      rewrite <- mutating_iff in Hr. apply not_true_is_false in Hr. by rewrite Hr.
    + intros ? [= <-] Hr Ha Hrole. apply mutating_iff in Hr. rewrite Hr.
      destruct (String.eqb_spec (am_AdminRole cfg) ""); [done|]. destruct (String.eqb_spec (claim_string "role" claims) (am_AdminRole cfg)); [done|].
      by eexists.
Qed.

(** C15 (kind: safety).  Authentication does what it documents.  Without it, or on an exempt path, requests are
    served as if there were no middleware.  With it, in the mode of keys or of tokens and
    with no empty key configured, a request without credentials is answered with 401 and
    does not reach the handler; one that changes something with a token of another role
    than the administrator's, if there is such a role, is answered with 403 and does not
    reach it either; and one with a configured key, with a token of an administrator, or
    one that reads with a token of a reader is served.  (A token of any other role reads as
    well, [token_any_role_reads].) *)
Theorem auth_enforced {St : Type} (cfg : AuthMiddlewareConfig) (now : Time) (next : Handler St) (r : Request)
    (w : Writer) (s : St) :
  (am_Enabled cfg = false \/ rq_Path r ∈ am_ExemptPaths cfg -> AuthMiddleware cfg now next r w s = next r w s) /\
  (am_Enabled cfg = true -> rq_Path r ∉ am_ExemptPaths cfg -> "" ∉ am_APIKeys cfg ->
   am_Mode cfg = AuthModeAPIKey \/ am_Mode cfg = AuthModeJWT ->
   ((forall c, ~ credential cfg now r c) ->
      exists error, AuthMiddleware cfg now next r w s = (http_Error error 401 w, false, s)) /\
   (forall claims, credential cfg now r (Some claims) -> rq_Method r ∈ changing -> am_AdminRole cfg <> "" ->
      claim_string "role" claims <> am_AdminRole cfg ->
      exists error, AuthMiddleware cfg now next r w s = (http_Error error 403 w, false, s)) /\
   (forall c, credential cfg now r c -> entitled cfg r c -> AuthMiddleware cfg now next r w s = next r w s)).
Proof.
  split.
  - intros H. unfold AuthMiddleware. destruct (am_Enabled cfg); [|done]. cbn [negb].
    destruct H as [[=]|H]. by rewrite bool_decide_true.
  - intros He Hp Hempty Hm. split_and!.
    + by apply without_credential.
    + intros claims Hc Hr Ha Hrole. by eapply (with_credential cfg now next r w s (Some claims)).
    + intros c Hc Hen. by apply (with_credential cfg now next r w s c).
Qed.

(** ** Tokens that are issued *)

(** A token as RFC 7519 builds it from its header and its claims. *)
Definition issue (secret : list Z) (header claims : string) : string :=
  let payload := b64_encode (string_bytes header) +:+ "." +:+ b64_encode (string_bytes claims) in
  payload +:+ "." +:+ b64_encode (hmac_sha256 secret (string_bytes payload)).

(** C37 (kind: roundtrip).  A token issued with the secret of the server is accepted, with the claims it was
    issued for, exactly when the claims are JSON, have not expired and name the
    issuer and the audience the server asks for. *)
Theorem issued_token_accepted (now : Time) (secret : list Z) (issuer audience header text : string) (claims : Claims) :
  validateHS256JWT now (issue secret header text) secret issuer audience = Ok claims <->
  UnmarshalMap text = Some claims /\
  (forall x, jget "exp" claims = Some (JNum x) -> Unix now <= int64_of_float x) /\
  (issuer <> "" -> claim_string "iss" claims = issuer) /\ (audience <> "" -> claim_string "aud" claims = audience).
Proof.
  rewrite validate_genuine. set (h := b64_encode (string_bytes header)). set (p := b64_encode (string_bytes text)).
  assert (Hh : dotless h = true) by apply b64_encode_dotless, string_bytes_byte.
  assert (Hp : dotless p = true) by apply b64_encode_dotless, string_bytes_byte.
  set (sig := b64_encode (hmac_sha256 secret (string_bytes (h +:+ "." +:+ p)))).
  assert (Hs : dotless sig = true) by apply b64_encode_dotless, hmac_bytes.
  assert (Ht : issue secret header text = h +:+ "." +:+ p +:+ "." +:+ sig).
  { unfold issue. fold h p. unfold sig. by rewrite !str_app_assoc. }
  assert (Hdp : b64_decode p = Some (string_bytes text)) by apply b64_decode_encode, string_bytes_byte.
  split.
  - intros [(h' & p' & sg' & cj & E & Hh' & Hp' & Hs' & _ & Ep & Ec) He Hi Ha]. split_and!; [|done..].
    pose proof (proj2 (Split_three _ h' p' sg') (conj E (conj Hh' (conj Hp' Hs')))) as E1.
    pose proof (proj2 (Split_three _ h p sig) (conj Ht (conj Hh (conj Hp Hs)))) as E2.
    rewrite E1 in E2. injection E2 as -> -> ->. rewrite Hdp in Ep. injection Ep as <-.
    by rewrite bytes_string_bytes in Ec.
  - intros (Ec & He & Hi & Ha). split; [|done..]. exists h, p, sig, (string_bytes text).
    split_and!; [done..| |done|by rewrite bytes_string_bytes]. apply b64_decode_encode, hmac_bytes.
Qed.

(** ** Examples *)

Definition jwt_header : string := "{" +:+ quoted "alg" +:+ ":" +:+ quoted "HS256" +:+ "," +:+ quoted "typ" +:+ ":" +:+ quoted "JWT" +:+ "}".
Definition jwt_claims : string := "{" +:+ quoted "role" +:+ ":" +:+ quoted "admin" +:+ "," +:+ quoted "exp" +:+ ":1700000000}".

(** A token as any other library makes it. *)
Example token_text :
  issue (string_bytes "secret") jwt_header jwt_claims =
  "eyJhbGciOiJIUzI1NiIsInR5cCI6IkpXVCJ9.eyJyb2xlIjoiYWRtaW4iLCJleHAiOjE3MDAwMDAwMDB9." +:+
  "B-sbloXsf-kpYTaOjNro7eMy7JsV9RFUfrvoyZXUZ8E".
Proof. vm_compute. reflexivity. Qed.

Definition auth_request (method path : string) (headers : list (string * string)) : Request :=
  {| rq_Method := method; rq_Path := path; rq_Header := foldr (fun kv => header_Set kv.1 kv.2) ∅ headers;
     rq_RemoteAddr := "10.0.0.1:9"; rq_TLS := false; rq_Body := ""; rq_MaxBody := None; rq_Trace := None |}.

Definition serve_ok : Handler nat := fun _ w n => (Write "ok" w, false, S n).

Definition status_of {St} (x : Writer * bool * St) : option Z := fst <$> wr_Sent x.1.1.

Definition jwt_cfg : AuthMiddlewareConfig :=
  {| am_Enabled := true; am_Mode := "jwt"; am_APIKeys := ∅; am_JWTSecret := string_bytes "secret"; am_JWTIssuer := "";
     am_JWTAudience := ""; am_AdminRole := "admin"; am_ReadRole := "reader"; am_ExemptPaths := ["/healthz"] |}.

(** The token above passes until its last second, and not with another role or another
    signature. *)
Example token_served :
  let token claims := issue (string_bytes "secret") jwt_header claims in
  let send now t := AuthMiddleware jwt_cfg now serve_ok
    (auth_request "PUT" "/rlaas/v1/policies/p" [("authorization", "Bearer " +:+ t)]) newWriter 0%nat in
  let reader := "{" +:+ quoted "role" +:+ ":" +:+ quoted "reader" +:+ "}" in
  status_of (send (1700000000 * Second) (token jwt_claims)) = Some 200 /\
  status_of (send (1700000001 * Second) (token jwt_claims)) = Some 401 /\
  status_of (send 0 (token reader)) = Some 403 /\
  status_of (send 0 (issue (string_bytes "other") jwt_header jwt_claims)) = Some 401.
Proof. vm_compute. done. Qed.

(** A reader may list the policies and not delete one, and without a token nothing is
    served. *)
Lemma auth_enforced_witness :
  let reader := "{" +:+ quoted "role" +:+ ":" +:+ quoted "reader" +:+ "}" in
  let token := issue (string_bytes "secret") jwt_header reader in
  let send method headers := AuthMiddleware jwt_cfg 0 serve_ok (auth_request method "/rlaas/v1/policies/p" headers) newWriter 0%nat in
  status_of (send "GET" [("Authorization", "Bearer " +:+ token)]) = Some 200 /\
  status_of (send "DELETE" [("Authorization", "Bearer " +:+ token)]) = Some 403 /\
  status_of (send "GET" []) = Some 401.
Proof.
  intros reader token send.
  assert (Hp : "/rlaas/v1/policies/p" ∉ ["/healthz"]) by (intros [H|[]%elem_of_nil]%elem_of_cons; discriminate H).
  assert (Hcred : forall method, credential jwt_cfg 0 (auth_request method "/rlaas/v1/policies/p" [("Authorization", "Bearer " +:+ token)])
    (Some [("role", JStr "reader")])).
  { intros method. apply (token_credential _ _ _ token); [done|by vm_compute|by vm_compute|]. apply validate_genuine. by vm_compute. }
  split_and!.
  - destruct (auth_enforced jwt_cfg 0 serve_ok (auth_request "GET" "/rlaas/v1/policies/p" [("Authorization", "Bearer " +:+ token)]) newWriter 0%nat)
      as [_ H]. destruct (H eq_refl Hp ltac:(done) (or_intror eq_refl)) as (_ & _ & Hs). unfold send.
    rewrite (Hs _ (Hcred "GET")); [done|]. right. split; [|done]. apply (bool_decide_unpack _). by vm_compute.
  - destruct (auth_enforced jwt_cfg 0 serve_ok (auth_request "DELETE" "/rlaas/v1/policies/p" [("Authorization", "Bearer " +:+ token)]) newWriter 0%nat)
      as [_ H]. destruct (H eq_refl Hp ltac:(done) (or_intror eq_refl)) as (_ & Hf & _). unfold send.
    destruct (Hf _ (Hcred "DELETE")) as [e ->]; [|done|done|done]. apply (bool_decide_unpack _). by vm_compute.
  - destruct (auth_enforced jwt_cfg 0 serve_ok (auth_request "GET" "/rlaas/v1/policies/p" []) newWriter 0%nat) as [_ H].
    destruct (H eq_refl Hp ltac:(done) (or_intror eq_refl)) as (Hu & _). unfold send. destruct Hu as [e ->]; [|done].
    intros c [key Hm _ _ _|t cl _ Hh _ _]; [discriminate Hm|]. by vm_compute in Hh.
Defined.

(** A token without an expiry, or with one that is not a number, never expires; and the
    algorithm in its header is not looked at. *)
Example token_forever :
  let claims := "{" +:+ quoted "role" +:+ ":" +:+ quoted "admin" +:+ "," +:+ quoted "exp" +:+ ":" +:+ quoted "1" +:+ "}" in
  let token := issue (string_bytes "secret") ("{" +:+ quoted "alg" +:+ ":" +:+ quoted "none" +:+ "}") claims in
  status_of (AuthMiddleware jwt_cfg (4000000000 * Second) serve_ok
    (auth_request "DELETE" "/rlaas/v1/policies/p" [("Authorization", "Bearer " +:+ token)]) newWriter 0%nat) = Some 200.
Proof. vm_compute. done. Qed.

(** The read role is never looked at: any genuine token may read. *)
Example token_any_role_reads :
  let claims := "{" +:+ quoted "role" +:+ ":" +:+ quoted "nobody" +:+ "}" in
  status_of (AuthMiddleware jwt_cfg 0 serve_ok (auth_request "GET" "/rlaas/v1/policies"
    [("Authorization", "Bearer " +:+ issue (string_bytes "secret") jwt_header claims)]) newWriter 0%nat) = Some 200.
Proof. vm_compute. done. Qed.
