(* ===== verification/Config.v ===== *)
(** * internal/config: settings

    The settings, their defaults, how environment variables override them, and their
    validation. *)

From Stdlib Require Import Ascii String.
From S2P Require Import Prelude GoString GoTime.
Local Open Scope Z_scope.
Local Open Scope stdpp_scope.

Record ServerConfig := {
  sc_HTTPAddr : string; sc_GRPCAddr : string; sc_ReadTimeout : Duration; sc_WriteTimeout : Duration;
  sc_IdleTimeout : Duration; sc_MaxHeaderBytes : int64; sc_MaxBodyBytes : int64; sc_ShutdownTimeout : Duration;
  sc_GRPCMaxRecvBytes : int64; sc_GRPCMaxSendBytes : int64
}.

Record TLSConfig := {
  tl_Enabled : bool; tl_CertFile : string; tl_KeyFile : string; tl_CAFile : string; tl_ClientAuth : string;
  tl_MinVersion : string; tl_CipherSuites : list string; tl_RedisTLS : bool
}.

Record AuthConfig := {
  au_Enabled : bool; au_Mode : string; au_APIKeys : list string; au_JWTSecret : string; au_JWTIssuer : string;
  au_JWTAudience : string; au_OIDCIssuerURL : string; au_OIDCClientID : string; au_AdminRole : string;
  au_ReadOnlyRole : string; au_ExemptPaths : list string
}.

Record ClusterConfig := {
  cl_Enabled : bool; cl_NodeID : string; cl_PeerAddresses : list string; cl_RedisMode : string;
  cl_RedisSentinelAddrs : list string; cl_RedisMasterName : string; cl_RegionName : string;
  cl_PeerRegions : list string; cl_InvalidationDriver : string; cl_InvalidationAddr : string
}.

Record AuditLogConfig := {
  al_Enabled : bool; al_Driver : string; al_FilePath : string; al_DSN : string; al_TableName : string;
  al_Retention : Duration
}.

Record LoggingConfig := { lg_Level : string; lg_Format : string }.

Record PolicyBackendConfig := {
  pb_Driver : string; pb_DSN : string; pb_TableName : string; pb_UseLegacyAdapter : bool
}.

Record CounterBackendConfig := {
  cb_Driver : string; cb_Address : string; cb_Password : string; cb_DB : int64; cb_Prefix : string
}.

Record Config := {
  cf_Mode : string; cf_PolicyBackend : PolicyBackendConfig; cf_CounterBackend : CounterBackendConfig;
  cf_CacheTTL : Duration; cf_RefreshInterval : Duration; cf_DefaultFailureMode : string; cf_MetricsEnabled : bool;
  cf_ShadowMetricsEnabled : bool; cf_DecisionLogEnabled : bool; cf_Server : ServerConfig; cf_TLS : TLSConfig;
  cf_Auth : AuthConfig; cf_Logging : LoggingConfig; cf_Cluster : ClusterConfig; cf_AuditLog : AuditLogConfig
}.

(** ** Defaults *)

Definition DefaultConfig : Config := {|
  cf_Mode := "server";
  cf_PolicyBackend := {| pb_Driver := ""; pb_DSN := ""; pb_TableName := ""; pb_UseLegacyAdapter := false |};
  cf_CounterBackend := {| cb_Driver := ""; cb_Address := ""; cb_Password := ""; cb_DB := 0; cb_Prefix := "" |};
  cf_CacheTTL := 30 * Second;
  cf_RefreshInterval := 10 * Second;
  cf_DefaultFailureMode := "fail_open";
  cf_MetricsEnabled := true;
  cf_ShadowMetricsEnabled := false;
  cf_DecisionLogEnabled := false;
  cf_Server := {|
    sc_HTTPAddr := ":8080"; sc_GRPCAddr := ":9090"; sc_ReadTimeout := 5 * Second; sc_WriteTimeout := 10 * Second;
    sc_IdleTimeout := 120 * Second; sc_MaxHeaderBytes := 2 ^ 20; sc_MaxBodyBytes := 2 ^ 20;
    sc_ShutdownTimeout := 15 * Second; sc_GRPCMaxRecvBytes := 4 * 2 ^ 20; sc_GRPCMaxSendBytes := 4 * 2 ^ 20 |};
  cf_TLS := {|
    tl_Enabled := false; tl_CertFile := ""; tl_KeyFile := ""; tl_CAFile := ""; tl_ClientAuth := "";
    tl_MinVersion := "1.2"; tl_CipherSuites := []; tl_RedisTLS := false |};
  cf_Auth := {|
    au_Enabled := false; au_Mode := ""; au_APIKeys := []; au_JWTSecret := ""; au_JWTIssuer := ""; au_JWTAudience := "";
    au_OIDCIssuerURL := ""; au_OIDCClientID := ""; au_AdminRole := ""; au_ReadOnlyRole := "";
    au_ExemptPaths := ["/healthz"; "/readyz"] |};
  cf_Logging := {| lg_Level := "info"; lg_Format := "json" |};
  cf_Cluster := {|
    cl_Enabled := false; cl_NodeID := ""; cl_PeerAddresses := []; cl_RedisMode := ""; cl_RedisSentinelAddrs := [];
    cl_RedisMasterName := ""; cl_RegionName := ""; cl_PeerRegions := []; cl_InvalidationDriver := "";
    cl_InvalidationAddr := "" |};
  cf_AuditLog := {|
    al_Enabled := false; al_Driver := ""; al_FilePath := ""; al_DSN := ""; al_TableName := ""; al_Retention := 0 |}
|}.

(** ** Validation *)

(** The errors, one for each message of the source, with the text it quotes. *)
Inductive ConfigError :=
| InvalidMode (mode : string)
| TLSFilesRequired
| APIKeyRequired
| JWTSecretRequired
| OIDCIssuerURLRequired
| InvalidAuthMode (mode : string)
| InvalidRedisMode (mode : string)
| RedisMasterNameRequired.

Definition validate_tls (c : TLSConfig) : option ConfigError :=
  if tl_Enabled c && (String.eqb (tl_CertFile c) "" || String.eqb (tl_KeyFile c) "")
  then Some TLSFilesRequired else None.

Definition validate_auth (c : AuthConfig) : option ConfigError :=
  if au_Enabled c then
    if String.eqb (au_Mode c) "apikey" then
      match au_APIKeys c with
      | [] => Some APIKeyRequired
      | _ => None
      end
    else if String.eqb (au_Mode c) "jwt" then
      if String.eqb (au_JWTSecret c) "" then Some JWTSecretRequired else None
    else if String.eqb (au_Mode c) "oidc" then
      if String.eqb (au_OIDCIssuerURL c) "" then Some OIDCIssuerURLRequired else None
    else Some (InvalidAuthMode (au_Mode c))
  else None.

Definition validate_cluster (c : ClusterConfig) : option ConfigError :=
  if cl_Enabled c then
    if bool_decide (cl_RedisMode c ∈ ["";"single";"cluster";"sentinel"]) then
      if String.eqb (cl_RedisMode c) "sentinel" && String.eqb (cl_RedisMasterName c) ""
      then Some RedisMasterNameRequired else None
    else Some (InvalidRedisMode (cl_RedisMode c))
  else None.

(** [Config.Validate]; [None] is no error. *)
Definition Validate (c : Config) : option ConfigError :=
  if bool_decide (cf_Mode c ∈ ["sdk"; "server"; "sidecar"]) then
    match validate_tls (cf_TLS c) with
    | Some err => Some err
    | None => match validate_auth (cf_Auth c) with
              | Some err => Some err
              | None => validate_cluster (cf_Cluster c)
              end
    end
  else Some (InvalidMode (cf_Mode c)).

(** ** The environment *)

Section Env.
(** [os.Getenv]. *)
Context (env : string -> string).

Definition text_or (key old : string) : string := if String.eqb (env key) "" then old else env key.
Definition list_or (key : string) (old : list string) : list string :=
  if String.eqb (env key) "" then old else Split (env key) ",".
Definition duration_or (key : string) (old : Duration) : Duration :=
  if String.eqb (env key) "" then old else default old (ParseDuration (env key)).
Definition int_or (key : string) (old : int64) : int64 :=
  if String.eqb (env key) "" then old else match ParseInt (env key) with (n, None) => n | (_, Some _) => old end.
Definition enabled_or (key : string) (old : bool) : bool := if String.eqb (env key) "true" then true else old.

Definition load_server (c : ServerConfig) : ServerConfig := {|
  sc_HTTPAddr := text_or "RLAAS_HTTP_ADDR" (sc_HTTPAddr c);
  sc_GRPCAddr := text_or "RLAAS_GRPC_ADDR" (sc_GRPCAddr c);
  sc_ReadTimeout := duration_or "RLAAS_READ_TIMEOUT" (sc_ReadTimeout c);
  sc_WriteTimeout := duration_or "RLAAS_WRITE_TIMEOUT" (sc_WriteTimeout c);
  sc_IdleTimeout := sc_IdleTimeout c;
  sc_MaxHeaderBytes := sc_MaxHeaderBytes c;
  sc_MaxBodyBytes := int_or "RLAAS_MAX_BODY_BYTES" (sc_MaxBodyBytes c);
  sc_ShutdownTimeout := sc_ShutdownTimeout c;
  sc_GRPCMaxRecvBytes := sc_GRPCMaxRecvBytes c;
  sc_GRPCMaxSendBytes := sc_GRPCMaxSendBytes c |}.

Definition load_tls (c : TLSConfig) : TLSConfig := {|
  tl_Enabled := enabled_or "RLAAS_TLS_ENABLED" (tl_Enabled c);
  tl_CertFile := text_or "RLAAS_TLS_CERT_FILE" (tl_CertFile c);
  tl_KeyFile := text_or "RLAAS_TLS_KEY_FILE" (tl_KeyFile c);
  tl_CAFile := text_or "RLAAS_TLS_CA_FILE" (tl_CAFile c);
  tl_ClientAuth := tl_ClientAuth c; tl_MinVersion := tl_MinVersion c;
  tl_CipherSuites := tl_CipherSuites c; tl_RedisTLS := tl_RedisTLS c |}.

Definition load_auth (c : AuthConfig) : AuthConfig := {|
  au_Enabled := enabled_or "RLAAS_AUTH_ENABLED" (au_Enabled c);
  au_Mode := text_or "RLAAS_AUTH_MODE" (au_Mode c);
  au_APIKeys := list_or "RLAAS_AUTH_API_KEYS" (au_APIKeys c);
  au_JWTSecret := text_or "RLAAS_AUTH_JWT_SECRET" (au_JWTSecret c);
  au_JWTIssuer := text_or "RLAAS_AUTH_JWT_ISSUER" (au_JWTIssuer c);
  au_JWTAudience := text_or "RLAAS_AUTH_JWT_AUDIENCE" (au_JWTAudience c);
  au_OIDCIssuerURL := text_or "RLAAS_AUTH_OIDC_ISSUER_URL" (au_OIDCIssuerURL c);
  au_OIDCClientID := au_OIDCClientID c;
  au_AdminRole := text_or "RLAAS_AUTH_ADMIN_ROLE" (au_AdminRole c);
  au_ReadOnlyRole := text_or "RLAAS_AUTH_READONLY_ROLE" (au_ReadOnlyRole c);
  au_ExemptPaths := au_ExemptPaths c |}.

Definition load_counter (c : CounterBackendConfig) : CounterBackendConfig := {|
  cb_Driver := text_or "RLAAS_COUNTER_BACKEND" (cb_Driver c);
  cb_Address := text_or "RLAAS_REDIS_ADDR" (cb_Address c);
  cb_Password := text_or "RLAAS_REDIS_PASSWORD" (cb_Password c);
  cb_DB := cb_DB c; cb_Prefix := cb_Prefix c |}.

Definition load_policy (c : PolicyBackendConfig) : PolicyBackendConfig := {|
  pb_Driver := text_or "RLAAS_POLICY_BACKEND" (pb_Driver c);
  pb_DSN := text_or "RLAAS_POLICY_DSN" (pb_DSN c);
  pb_TableName := pb_TableName c; pb_UseLegacyAdapter := pb_UseLegacyAdapter c |}.

Definition load_cluster (c : ClusterConfig) : ClusterConfig := {|
  cl_Enabled := enabled_or "RLAAS_CLUSTER_ENABLED" (cl_Enabled c);
  cl_NodeID := text_or "RLAAS_CLUSTER_NODE_ID" (cl_NodeID c);
  cl_PeerAddresses := cl_PeerAddresses c;
  cl_RedisMode := text_or "RLAAS_CLUSTER_REDIS_MODE" (cl_RedisMode c);
  cl_RedisSentinelAddrs := list_or "RLAAS_CLUSTER_SENTINEL_ADDRS" (cl_RedisSentinelAddrs c);
  cl_RedisMasterName := text_or "RLAAS_CLUSTER_SENTINEL_MASTER" (cl_RedisMasterName c);
  cl_RegionName := text_or "RLAAS_CLUSTER_REGION" (cl_RegionName c);
  cl_PeerRegions := cl_PeerRegions c;
  cl_InvalidationDriver := text_or "RLAAS_INVALIDATION_DRIVER" (cl_InvalidationDriver c);
  cl_InvalidationAddr := text_or "RLAAS_INVALIDATION_ADDR" (cl_InvalidationAddr c) |}.

Definition load_audit (c : AuditLogConfig) : AuditLogConfig := {|
  al_Enabled := enabled_or "RLAAS_AUDIT_ENABLED" (al_Enabled c);
  al_Driver := text_or "RLAAS_AUDIT_DRIVER" (al_Driver c);
  al_FilePath := text_or "RLAAS_AUDIT_FILE" (al_FilePath c);
  al_DSN := text_or "RLAAS_AUDIT_DSN" (al_DSN c);
  al_TableName := al_TableName c; al_Retention := al_Retention c |}.

Definition load_logging (c : LoggingConfig) : LoggingConfig := {|
  lg_Level := text_or "RLAAS_LOG_LEVEL" (lg_Level c);
  lg_Format := text_or "RLAAS_LOG_FORMAT" (lg_Format c) |}.

Definition LoadFromEnv : Config :=
  let c := DefaultConfig in {|
  cf_Mode := text_or "RLAAS_MODE" (cf_Mode c);
  cf_PolicyBackend := load_policy (cf_PolicyBackend c);
  cf_CounterBackend := load_counter (cf_CounterBackend c);
  cf_CacheTTL := cf_CacheTTL c; cf_RefreshInterval := cf_RefreshInterval c;
  cf_DefaultFailureMode := cf_DefaultFailureMode c; cf_MetricsEnabled := cf_MetricsEnabled c;
  cf_ShadowMetricsEnabled := cf_ShadowMetricsEnabled c; cf_DecisionLogEnabled := cf_DecisionLogEnabled c;
  cf_Server := load_server (cf_Server c);
  cf_TLS := load_tls (cf_TLS c);
  cf_Auth := load_auth (cf_Auth c);
  cf_Logging := load_logging (cf_Logging c);
  cf_Cluster := load_cluster (cf_Cluster c);
  cf_AuditLog := load_audit (cf_AuditLog c) |}.
End Env.

(** ** Lemmas *)

(** What a valid configuration guarantees. *)
Lemma validate_auth_ok c : validate_auth c = None -> au_Enabled c = true ->
  (au_Mode c = "apikey" /\ au_APIKeys c <> []) \/ (au_Mode c = "jwt" /\ au_JWTSecret c <> "") \/
  (au_Mode c = "oidc" /\ au_OIDCIssuerURL c <> "").
Proof.
  unfold validate_auth. intros H He. rewrite He in H.
  destruct (String.eqb_spec (au_Mode c) "apikey"); [left; by destruct (au_APIKeys c)|].
  destruct (String.eqb_spec (au_Mode c) "jwt"); [right; left; by destruct (String.eqb_spec (au_JWTSecret c) "")|].
  destruct (String.eqb_spec (au_Mode c) "oidc"); [right; right; by destruct (String.eqb_spec (au_OIDCIssuerURL c) "")|done].
Qed.

Lemma Validate_ok c : Validate c = None ->
  cf_Mode c ∈ ["sdk"; "server"; "sidecar"] /\ validate_tls (cf_TLS c) = None /\
  validate_auth (cf_Auth c) = None /\ validate_cluster (cf_Cluster c) = None.
Proof.
  unfold Validate. case_bool_decide; [|done]. destruct (validate_tls _); [done|]. destruct (validate_auth _); [done|]. done.
Qed.

(** An empty environment is valid, and authentication is off. *)
Example default_valid : Validate (LoadFromEnv (fun _ => "")) = None /\ au_Enabled (cf_Auth (LoadFromEnv (fun _ => ""))) = false.
Proof. by vm_compute. Qed.

(** Only the exact text true turns a feature on. *)
Example enabled_is_exact :
  au_Enabled (cf_Auth (LoadFromEnv (fun k => if String.eqb k "RLAAS_AUTH_ENABLED" then "TRUE" else ""))) = false.
Proof. by vm_compute. Qed.
