(* ===== verification/ServerCmd.v ===== *)
(** * cmd/rlaas-server: what the server does with a request

    The routes of the server and the middleware around them, from the outermost
    layer in: panic recovery, trace context, request id, security headers,
    authentication, body limit.  [Startup] models the process around it. *)

From Stdlib Require Import Ascii String.
From S2P Require Import Prelude GoString GoHash GoFloat GoTime GoJson Store WorkerPool Analytics Http Auth Config.
Local Open Scope Z_scope.
Local Open Scope stdpp_scope.

(** ** The middleware chain *)

Definition auth_of (c : AuthConfig) : AuthMiddlewareConfig :=
  {| am_Enabled := au_Enabled c; am_Mode := au_Mode c; am_APIKeys := list_to_set (au_APIKeys c);
     am_JWTSecret := string_bytes (au_JWTSecret c); am_JWTIssuer := au_JWTIssuer c; am_JWTAudience := au_JWTAudience c;
     am_AdminRole := au_AdminRole c; am_ReadRole := au_ReadOnlyRole c; am_ExemptPaths := au_ExemptPaths c |}.

Section Chain.
Context {St : Type}.

(** The wrapper [runAll] gives to [WrapHandler], around [h]. *)
Definition production (cfg : Config) (random : list Z) (now : Time) (h : Handler St) : Handler St :=
  let h := MaxBodyBytes (sc_MaxBodyBytes (cf_Server cfg)) h in
  let h := AuthMiddleware (auth_of (cf_Auth cfg)) now h in
  let h := SecurityHeadersMiddleware h in
  let h := RequestIDMiddleware random h in
  TraceContextMiddleware h.

(** What the server does with a request. *)
Definition serve (cfg : Config) (random : list Z) (now : Time) (mux : Handler St) (r : Request) (s : St) : Writer * bool * St :=
  root_handler (Some (production cfg random now)) mux r newWriter s.

(** The handlers behind the routes. *)
Record Handlers := {
  hd_check : Handler St; hd_acquire : Handler St; hd_release : Handler St; hd_policies : Handler St;
  hd_summary : Handler St; hd_metrics : Handler St; hd_version : Handler St; hd_demo : Handler St
}.

Definition server_routes (ready : St -> bool) (hs : Handlers) : list (string * Handler St) :=
  base_routes ready (hd_check hs) ++
  [("/rlaas/v1/acquire", hd_acquire hs); ("/rlaas/v1/release", hd_release hs);
   ("/rlaas/v1/policies", hd_policies hs); ("/rlaas/v1/policies/", hd_policies hs);
   ("/rlaas/v1/analytics/summary", hd_summary hs); ("/metrics", hd_metrics hs); ("/version", hd_version hs);
   ("/demo", hd_demo hs)].
End Chain.
Arguments Handlers : clear implicits.

(** [versionHandler], on the variables of internal/version. *)
Definition versionHandler {St} (version commit buildTime : string) : Handler St := fun _ w s =>
  (Write (MarshalStrings {[ "version" := version; "commit" := commit; "build_time" := buildTime ]} +:+ newline)
     (set_header "Content-Type" "application/json" w), false, s).

(** *** What the chain guarantees *)

Definition securityHeaders : list (string * string) :=
  [("X-Content-Type-Options", "nosniff"); ("X-Frame-Options", "DENY"); ("X-Xss-Protection", "0");
   ("Cache-Control", "no-store"); ("Content-Security-Policy", "default-src 'none'; frame-ancestors 'none'");
   ("Referrer-Policy", "no-referrer"); ("Permissions-Policy", "camera=(), microphone=(), geolocation=()")].

(** The id of a request: its own, or a new one. *)
Definition request_id (random : list Z) (r : Request) : string :=
  let id := header_Get (rq_Header r) "X-Request-Id" in if String.eqb id "" then generateRequestID random else id.

(** Headers of a response that identify the request and protect the client. *)
Definition hardened (id : string) (h : Header) : Prop :=
  h !! "X-Request-Id" = Some [id] /\ Forall (fun kv => h !! kv.1 = Some [kv.2]) securityHeaders.

(** The response as the innermost handler finds it. *)
Definition prepared (random : list Z) (r : Request) : Writer :=
  let tc := parseTraceparent (header_Get (rq_Header r) "traceparent") in
  let w := if String.eqb (tc_TraceID tc) "" then newWriter
           else set_header "traceparent" (header_Get (rq_Header r) "traceparent") newWriter in
  let w := set_header "X-Request-Id" (request_id random r) w in
  foldl (fun w kv => set_header kv.1 kv.2 w) w
    (securityHeaders ++
     (if rq_TLS r then [("Strict-Transport-Security", "max-age=63072000; includeSubDomains; preload")] else [])).

(** The request with its trace context and its id. *)
Definition identified (random : list Z) (r : Request) : Request :=
  let r1 := with_trace (parseTraceparent (header_Get (rq_Header r) "traceparent")) r in
  if String.eqb (header_Get (rq_Header r) "X-Request-Id") ""
  then with_header (header_Set "X-Request-Id" (generateRequestID random) (rq_Header r)) r1 else r1.

(** The request as the routes see it. *)
Definition admitted_request (cfg : Config) (random : list Z) (r : Request) : Request :=
  let n := sc_MaxBodyBytes (cf_Server cfg) in
  if n <=? 0 then identified random r else MaxBytesReader n (identified random r).

Lemma production_auth {St} cfg random now (h : Handler St) r s :
  production cfg random now h r newWriter s =
  AuthMiddleware (auth_of (cf_Auth cfg)) now (MaxBodyBytes (sc_MaxBodyBytes (cf_Server cfg)) h)
    (identified random r) (prepared random r) s.
Proof.
  unfold production, TraceContextMiddleware, RequestIDMiddleware, SecurityHeadersMiddleware, identified, prepared, request_id.
  destruct r as [m p hd ra tls body mb tr]. cbn [with_trace with_header rq_Header rq_TLS]. cbv zeta.
  destruct (String.eqb (header_Get hd "X-Request-Id") ""), tls; reflexivity.
Qed.

Lemma header_Get_Set h key key' v : canonical key <> canonical key' -> header_Get (header_Set key v h) key' = header_Get h key'.
Proof. intros H. unfold header_Get, header_Set. by rewrite lookup_insert_ne. Qed.

Lemma identified_same random r :
  rq_Path (identified random r) = rq_Path r /\ rq_Method (identified random r) = rq_Method r /\
  rq_Body (identified random r) = rq_Body r /\
  forall key, canonical key <> "X-Request-Id" ->
    header_Get (rq_Header (identified random r)) key = header_Get (rq_Header r) key.
Proof.
  unfold identified. destruct (String.eqb _ ""); split_and!; try done.
  intros key Hk. cbn [with_header rq_Header]. apply header_Get_Set. by apply not_eq_sym.
Qed.

(** Authentication does not depend on what the outer middleware added. *)
Lemma presents_same r r' key :
  (forall k, canonical k <> "X-Request-Id" -> header_Get (rq_Header r) k = header_Get (rq_Header r') k) ->
  presents r key -> presents r' key.
Proof.
  intros Hh [H1 H2|H1 H2|H1 H2 H3]; rewrite !Hh in * by done; [by apply in_header|by apply as_bearer|by apply bare].
Qed.

Lemma identified_authorized cfg now random r : Authorized cfg now (identified random r) <-> Authorized cfg now r.
Proof.
  destruct (identified_same random r) as (Hp & Hm & _ & Hh).
  split; intros [H|H|k H1 H2 H3|t c H1 H2 H3 H4 H5].
  - by apply by_default.
  - apply by_path. by rewrite <- Hp.
  - apply (by_key _ _ _ k); [done| |done]. by eapply presents_same; [apply Hh|].
  - apply (by_token _ _ _ t c); [done|by rewrite <- Hh|done|done|by rewrite <- Hm].
  - by apply by_default.
  - apply by_path. by rewrite Hp.
  - apply (by_key _ _ _ k); [done| |done]. eapply presents_same; [|done]. intros k' Hk'. by rewrite Hh.
  - apply (by_token _ _ _ t c); [done|by rewrite Hh|done|done|by rewrite Hm].
Qed.

Lemma identified_credential cfg now random r c : credential cfg now (identified random r) c <-> credential cfg now r c.
Proof.
  destruct (identified_same random r) as (_ & _ & _ & Hh).
  split; intros [k H1 H2 H3 H4|t cl H1 H2 H3 H4].
  - apply (key_credential _ _ _ k); [done| |done|done]. by eapply presents_same; [apply Hh|].
  - apply (token_credential _ _ _ t cl); [done|by rewrite <- Hh|done|done].
  - apply (key_credential _ _ _ k); [done| |done|done]. eapply presents_same; [|done]. intros k' Hk'. by rewrite Hh.
  - apply (token_credential _ _ _ t cl); [done|by rewrite Hh|done|done].
Qed.

Lemma prepared_hardened random r : hardened (request_id random r) (wr_Header (prepared random r)) /\ wr_Sent (prepared random r) = None.
Proof.
  unfold hardened, prepared. destruct (String.eqb (tc_TraceID _) ""), (rq_TLS r); cbn -[request_id];
    (split; [split; [reflexivity|repeat constructor]|done]).
Qed.

(** An error response keeps the headers that were prepared. *)
Lemma refused_hardened id status w w' :
  hardened id (wr_Header w) -> wr_Sent w = None -> w' = http_Error status.1 status.2 w ->
  exists h, wr_Sent w' = Some (status.2, h) /\ hardened id h.
Proof.
  intros [Hid Hs] Hw ->. unfold http_Error, Write, WriteHeader, set_header, del_header. cbn [wr_Sent wr_Header]. rewrite Hw.
  cbn [wr_Sent wr_Header]. eexists. split; [done|]. unfold header_Set, header_Del. split.
  - by rewrite !lookup_insert_ne, lookup_delete_ne by done.
  - unfold securityHeaders in *. rewrite !Forall_cons in *. cbn [fst snd] in *.
    destruct Hs as (_ & H2 & H3 & H4 & H5 & H6 & H7 & _).
    split_and!; try (by rewrite !lookup_insert_ne, lookup_delete_ne by done); [|constructor].
    apply lookup_insert_eq.
Qed.

(** C16 (kind: safety).  The server as a whole: whatever the routes do, a panic included, the response of the
    server is sent and the process goes on; an authorized request reaches the routes
    once, with a request id and a limited body, on a response that carries its id and
    the security headers; any other request changes nothing, and is answered with 401,
    403 or 500, and with those headers too. *)
Theorem server_chain {St : Type} (cfg : Config) (random : list Z) (now : Time) (mux : Handler St) (r : Request) (s : St) :
  let '(w', panicked, s') := serve cfg random now mux r s in
  let w := prepared random r in
  panicked = false /\ hardened (request_id random r) (wr_Header w) /\
  ((Authorized (auth_of (cf_Auth cfg)) now r /\
    exists x p, mux (admitted_request cfg random r) w s = (x, p, s') /\
      w' = if (p : bool) then http_Error "internal server error" 500 x else x) \/
   (~ Authorized (auth_of (cf_Auth cfg)) now r /\ s' = s /\
    exists status h, wr_Sent w' = Some (status, h) /\ hardened (request_id random r) h /\
      (status = 401 \/ status = 403 \/ status = 500))).
Proof.
  unfold serve, root_handler, PanicRecovery. rewrite production_auth.
  set (n := sc_MaxBodyBytes (cf_Server cfg)). destruct (prepared_hardened random r) as [Hh Hw].
  destruct (auth_cases (auth_of (cf_Auth cfg)) now (MaxBodyBytes n mux) (identified random r) (prepared random r) s)
    as [[Ha ->]|[Ha (err & status & -> & Hst & _)]]; rewrite identified_authorized in Ha.
  - assert (E : MaxBodyBytes n mux (identified random r) (prepared random r) s =
                mux (admitted_request cfg random r) (prepared random r) s).
    { unfold MaxBodyBytes, admitted_request. fold n. cbv zeta. by destruct (n <=? 0). }
    rewrite E. destruct (mux _ _ s) as [[x p] s'] eqn:Em.
    destruct p; (split_and!; [done|done|]); left; (split; [done|]); by eexists _, _.
  - split_and!; [done|done|]. right. split_and!; [done|done|].
    destruct (refused_hardened _ (err, status) _ _ Hh Hw eq_refl) as (h & H1 & H2). by exists status, h.
Qed.

(** A refusal by the authentication is the response of the server. *)
Lemma refusal_served {St : Type} cfg random now (mux : Handler St) r s error status :
  AuthMiddleware (auth_of (cf_Auth cfg)) now (MaxBodyBytes (sc_MaxBodyBytes (cf_Server cfg)) mux)
    (identified random r) (prepared random r) s = (http_Error error status (prepared random r), false, s) ->
  exists w' h, serve cfg random now mux r s = (w', false, s) /\ wr_Sent w' = Some (status, h).
Proof.
  intros E. unfold serve, root_handler, PanicRecovery. rewrite production_auth, E.
  destruct (prepared_hardened random r) as [Hh Hw].
  destruct (refused_hardened _ (error, status) _ _ Hh Hw eq_refl) as (h & Hs & _). by eexists _, h.
Qed.

(** C38 (kind: error).  With a configuration that [Validate] accepts, authentication on in the mode of keys or
    of tokens, and no empty key, the server refuses what it should: on a path that is not exempt a request
    without credentials is answered with 401, and one that changes something with a token of another role than
    the administrator's, if there is such a role, with 403; neither reaches the routes. *)
Theorem valid_config_refuses {St : Type} (cfg : Config) (random : list Z) (now : Time) (mux : Handler St) (r : Request) (s : St) :
  let auth := auth_of (cf_Auth cfg) in
  Validate cfg = None -> au_Enabled (cf_Auth cfg) = true -> au_Mode (cf_Auth cfg) <> "oidc" ->
  "" ∉ am_APIKeys auth -> rq_Path r ∉ am_ExemptPaths auth ->
  ((forall c, ~ credential auth now r c) ->
   exists w' h, serve cfg random now mux r s = (w', false, s) /\ wr_Sent w' = Some (401, h)) /\
  (forall claims, credential auth now r (Some claims) -> rq_Method r ∈ changing -> am_AdminRole auth <> "" ->
   claim_string "role" claims <> am_AdminRole auth ->
   exists w' h, serve cfg random now mux r s = (w', false, s) /\ wr_Sent w' = Some (403, h)).
Proof.
  intros auth Hv He Hm Hempty Hp. apply Validate_ok in Hv as (_ & _ & Hv & _). pose proof (validate_auth_ok _ Hv He) as Hmode.
  assert (Hknown : am_Mode auth = AuthModeAPIKey \/ am_Mode auth = AuthModeJWT).
  { destruct Hmode as [[E _]|[[E _]|[E _]]]; [by left|by right|done]. }
  destruct (identified_same random r) as (Ep & Em & _ & _). split.
  - intros Hc. destruct (without_credential auth now (MaxBodyBytes (sc_MaxBodyBytes (cf_Server cfg)) mux)
      (identified random r) (prepared random r) s) as [error E]; try done; [by rewrite Ep| |by eapply refusal_served].
    intros c. rewrite identified_credential. apply Hc.
  - intros claims Hc Hr Ha Hrole. destruct (with_credential auth now (MaxBodyBytes (sc_MaxBodyBytes (cf_Server cfg)) mux)
      (identified random r) (prepared random r) s (Some claims)) as [_ H]; [done|by rewrite Ep|by rewrite identified_credential|].
    destruct (H claims eq_refl) as [error E]; [by rewrite Em|done|done|]. by eapply refusal_served.
Qed.

(** ** Examples *)

Definition env_of (l : list (string * string)) : string -> string := fun k => default "" ((list_to_map l : gmap string string) !! k).

Definition oidc_env : string -> string :=
  env_of [("RLAAS_AUTH_ENABLED", "true"); ("RLAAS_AUTH_MODE", "oidc"); ("RLAAS_AUTH_OIDC_ISSUER_URL", "https://id")].

Definition demo_random : list Z := replicate 16 171.

Definition keys_env : string -> string :=
  env_of [("RLAAS_AUTH_ENABLED", "true"); ("RLAAS_AUTH_MODE", "apikey"); ("RLAAS_AUTH_API_KEYS", "k1,k2")].

Lemma valid_config_refuses_witness :
  exists w' h, serve (LoadFromEnv keys_env) demo_random 0 serve_ok (auth_request "DELETE" "/rlaas/v1/policies/p" []) 0%nat = (w', false, 0%nat) /\
    wr_Sent w' = Some (401, h).
Proof.
  destruct (valid_config_refuses (LoadFromEnv keys_env) demo_random 0 serve_ok (auth_request "DELETE" "/rlaas/v1/policies/p" []) 0%nat) as [H _];
    [by vm_compute|by vm_compute|by vm_compute|apply (bool_decide_unpack _); by vm_compute..|].
  apply H. intros c [key Hm Hk Hne _|t cl Hm _ _ _]; [|by vm_compute in Hm].
  apply presents_iff in Hk. apply Hne. rewrite <- Hk. by vm_compute.
Defined.

(** OIDC is accepted by validation, and every request that is not on an exempt path is
    answered with 500. *)
Example oidc_answers_500 :
  Validate (LoadFromEnv oidc_env) = None /\
  status_of (serve (LoadFromEnv oidc_env) demo_random 0 serve_ok (auth_request "GET" "/version" []) 0%nat) = Some 500 /\
  status_of (serve (LoadFromEnv oidc_env) demo_random 0 serve_ok (auth_request "GET" "/healthz" []) 0%nat) = Some 200.
Proof. by vm_compute. Qed.

(** A trailing comma in the list of keys makes the empty key valid: a request without
    any key is let through. *)
Example trailing_comma_opens :
  let cfg := LoadFromEnv (env_of [("RLAAS_AUTH_ENABLED", "true"); ("RLAAS_AUTH_MODE", "apikey"); ("RLAAS_AUTH_API_KEYS", "k1,")]) in
  Validate cfg = None /\
  status_of (serve cfg demo_random 0 serve_ok (auth_request "DELETE" "/rlaas/v1/policies/p" []) 0%nat) = Some 200.
Proof. by vm_compute. Qed.

(** A panic in a handler is answered with 500. *)
Example panic_recovered :
  status_of (serve DefaultConfig demo_random 0 (fun _ w n => (w, true, n)) (auth_request "GET" "/version" []) 0%nat) = Some 500.
Proof. by vm_compute. Qed.
