(* ===== verification/Invalidation.v ===== *)
(** * Telling others about policy changes

    internal/controlplane/invalidation: the broker, local or over Redis Pub/Sub.
    cmd/rlaas-server: the dispatcher that posts policy changes to sidecars through a
    bounded queue, a pool of workers per event and a pool of workers per batch. *)

From Stdlib Require Import Ascii String.
From S2P Require Import Prelude GoString GoJson Store MemoryStore WorkerPool Analytics.
Local Open Scope Z_scope.
Local Open Scope stdpp_scope.

Abbreviation Event := (gmap string string).

(** ** The broker *)

Section Broker.
Context {St : Type}.

(** A callback gets the map of the event itself, which it may change: what it leaves is
    whether it panicked, the map and the state. *)
Abbreviation Callback := (Event -> St -> bool * Event * St).

Inductive channel := NilChannel | OpenChannel | ClosedChannel.

(** [distributedTransport]: the topics that were subscribed, the channels of the Redis
    subscription, [None] before there is one, and the loops that were started and have
    not returned. *)
Record Transport := {
  dt_prefix : string; dt_subs : gset string; dt_pubsub : option (list string); dt_stopCh : channel;
  dt_stopped : bool; dt_loops : nat
}.

Record Broker := { br_subscribers : gmap string (list Callback); br_distributed : option Transport }.

Definition NewBroker : Broker := {| br_subscribers := ∅; br_distributed := None |}.

Definition NewDistributedBroker (channelPrefix : string) : Broker :=
  {| br_subscribers := ∅;
     br_distributed := Some {| dt_prefix := channelPrefix; dt_subs := ∅; dt_pubsub := None; dt_stopCh := NilChannel;
                               dt_stopped := false; dt_loops := 0 |} |}.

Definition channelName (d : Transport) (topic : string) : string := dt_prefix d +:+ topic.

Definition ensureSubscription (topic : string) (d : Transport) : Transport :=
  if bool_decide (topic ∈ dt_subs d) then d else
  match dt_pubsub d with
  | None => {| dt_prefix := dt_prefix d; dt_subs := {[topic]} ∪ dt_subs d; dt_pubsub := Some [channelName d topic];
               dt_stopCh := OpenChannel; dt_stopped := dt_stopped d; dt_loops := S (dt_loops d) |}
  | Some chans => {| dt_prefix := dt_prefix d; dt_subs := {[topic]} ∪ dt_subs d;
                     dt_pubsub := Some (chans ++ [channelName d topic]); dt_stopCh := dt_stopCh d;
                     dt_stopped := dt_stopped d; dt_loops := dt_loops d |}
  end.

Definition subscribers (b : Broker) (topic : string) : list Callback := default [] (br_subscribers b !! topic).

Definition Subscribe (topic : string) (fn : Callback) (b : Broker) : Broker :=
  {| br_subscribers := <[topic := subscribers b topic ++ [fn]]> (br_subscribers b);
     br_distributed := ensureSubscription topic <$> br_distributed b |}.

(** Every callback is called, in order; a panic is recovered before the next. *)
Fixpoint call_all (handlers : list Callback) (event : Event) (s : St) : St :=
  match handlers with
  | [] => s
  | h :: rest => let '(_, event', s') := h event s in call_all rest event' s'
  end.

Definition dispatchLocal (b : Broker) (topic : string) (event : Event) (s : St) : St :=
  call_all (subscribers b topic) event s.

(** [Publish]: the message for Redis, or the state after the local callbacks. *)
Definition Publish (b : Broker) (topic : string) (event : Event) (s : St) : option (string * string) * St :=
  match br_distributed b with
  | Some d => (Some (channelName d topic, MarshalStrings event), s)
  | None => (None, dispatchLocal b topic event s)
  end.

(** What [receiveLoop] does with a message. *)
Definition receive (b : Broker) (d : Transport) (msg : string * string) (s : St) : St :=
  let '(chan, payload) := msg in
  let topic := if (String.length (dt_prefix d) <? String.length chan)%nat
               then str_drop (String.length (dt_prefix d)) chan else chan in
  match UnmarshalStrings payload with
  | None => s
  | Some event => dispatchLocal b topic event s
  end.

(** [stop]: closing the channel ends the loops that wait on it. *)
Definition stop (d : Transport) : Transport :=
  if dt_stopped d then d else
  {| dt_prefix := dt_prefix d; dt_subs := dt_subs d; dt_pubsub := dt_pubsub d;
     dt_stopCh := match dt_stopCh d with NilChannel => NilChannel | _ => ClosedChannel end;
     dt_stopped := true; dt_loops := match dt_stopCh d with NilChannel => dt_loops d | _ => 0 end |}.

Definition Stop (b : Broker) : Broker :=
  {| br_subscribers := br_subscribers b; br_distributed := stop <$> br_distributed b |}.

(** Callbacks that leave the event alone all see the event. *)
Definition reads_only (f : Callback) : Prop := forall e s, (f e s).1.2 = e.

Lemma call_all_reads handlers event s :
  Forall reads_only handlers -> call_all handlers event s = foldl (fun s f => (f event s).2) s handlers.
Proof.
  revert s. induction handlers as [|f hs IH]; intros s H; [done|]. apply Forall_cons in H as [Hf Hs].
  cbn [call_all foldl]. pose proof (Hf event s) as Hev. destruct (f event s) as [[p e'] s']. cbn [fst snd] in *. subst e'. by apply IH.
Qed.

(** C30 (kind: roundtrip).  Distributed publishing is local publishing, elsewhere: the message for an event on a
    topic that is not empty, received by a broker with the same prefix, is dispatched there to the subscribers of that
    topic as a local publication of the event would be; the strings of the event are to be UTF-8.  If no
    subscriber changes the event it is handed, each is called in the order of subscription with the event that was
    published.  (The empty topic is lost, [empty_topic_lost].) *)
Theorem distributed_as_local (pub sub : Broker) (d d' : Transport) (topic : string) (event : Event) (s s1 : St) :
  br_distributed pub = Some d -> br_distributed sub = Some d' -> dt_prefix d = dt_prefix d' ->
  topic <> "" -> map_Forall (fun k v => ValidString k = true /\ ValidString v = true) event ->
  exists msg, Publish pub topic event s1 = (Some msg, s1) /\
    receive sub d' msg s = dispatchLocal sub topic event s /\
    (Forall reads_only (subscribers sub topic) ->
      receive sub d' msg s = foldl (fun s f => (f event s).2) s (subscribers sub topic)).
Proof.
  intros Hp Hs Hpre Ht Hv. exists (channelName d topic, MarshalStrings event). unfold Publish. rewrite Hp. split; [done|].
  unfold receive, channelName. rewrite Hpre, str_length_app, str_drop_app, UnmarshalStrings_Marshal by done.
  assert (String.length topic <> 0%nat) by (by destruct topic).
  rewrite (proj2 (Nat.ltb_lt _ _)) by lia. split; [done|]. by apply call_all_reads.
Qed.
End Broker.
Arguments Broker : clear implicits.

(** Callbacks that note who was called with what. *)
Definition note (name : string) : Event -> list (string * Event) -> bool * Event * list (string * Event) :=
  fun e s => (false, e, s ++ [(name, e)]).
Definition panics : Event -> list (string * Event) -> bool * Event * list (string * Event) := fun e s => (true, e, s).

Definition demo_event : Event := {[ "policy_id" := "p1"; "action" := "updated" ]}.
Definition demo_broker : Broker (list (string * Event)) :=
  Subscribe "policy.changed" (note "b") (Subscribe "policy.changed" panics
    (Subscribe "policy.changed" (note "a") (NewDistributedBroker "rlaas:"))).

Lemma distributed_as_local_witness :
  exists d msg, br_distributed demo_broker = Some d /\ Publish demo_broker "policy.changed" demo_event [] = (Some msg, []) /\
    receive demo_broker d msg [] = [("a", demo_event); ("b", demo_event)].
Proof.
  destruct (br_distributed demo_broker) as [d|] eqn:E; [|by vm_compute in E].
  destruct (distributed_as_local demo_broker demo_broker d d "policy.changed" demo_event [] [] E E eq_refl) as (msg & H1 & _ & H2).
  - done.
  - apply (bool_decide_unpack _). by vm_compute.
  - exists d, msg. split_and!; [done|done|]. rewrite H2 by (by repeat constructor). clear. vm_compute. reflexivity.
Defined.

(** The empty topic is not recognised on arrival. *)
Example empty_topic_lost :
  let b := Subscribe "" (note "a") (NewDistributedBroker "rlaas:") in
  match br_distributed b, (Publish b "" demo_event []).1 with
  | Some d, Some msg => receive b d msg [] = []
  | _, _ => False
  end.
Proof. by vm_compute. Qed.

(** A broker that is stopped before its first subscription starts a loop that nothing
    stops any more. *)
Example stop_before_subscribe :
  let b := Stop (Subscribe "t" (note "a") (Stop (NewDistributedBroker "rlaas:"))) in
  dt_loops <$> br_distributed b = Some 1%nat.
Proof. by vm_compute. Qed.

(** ** The dispatcher of the server *)

Definition splitTrimmed (raw : string) : list string :=
  filter (fun t => t <> "") (TrimSpace <$> Split raw ",").

(** [loadInvalidationTargets], on the value of the environment variable. *)
Definition loadInvalidationTargets (value : string) : list string :=
  let raw := TrimSpace value in if String.eqb raw "" then [] else splitTrimmed raw.

Definition queueSize : nat := 256.

(** The queue, the event each worker is busy with, the events whose publication is
    over, and the recorder of dropped events. *)
Record Dispatcher := {
  dp_queue : list Event; dp_workers : list (option Event); dp_published : list Event; dp_recorder : Recorder
}.

Definition startInvalidationDispatcher (targets : list string) (rec : Recorder) : Dispatcher :=
  {| dp_queue := []; dp_workers := replicate (Nat.min 4 (length targets)) None; dp_published := []; dp_recorder := rec |}.

(** The function it returns: the event is queued, or dropped and counted; without
    targets nothing happens. *)
Definition enqueue (targets : list string) (event : Event) (d : Dispatcher) : Dispatcher :=
  match targets with
  | [] => d
  | _ =>
      if (length (dp_queue d) <? queueSize)%nat
      then {| dp_queue := dp_queue d ++ [event]; dp_workers := dp_workers d; dp_published := dp_published d;
              dp_recorder := dp_recorder d |}
      else {| dp_queue := dp_queue d; dp_workers := dp_workers d; dp_published := dp_published d;
              dp_recorder := Record_ "policy_invalidation_dropped" [("reason", "queue_full")] (dp_recorder d) |}
  end.

(** The steps of the workers, and of the callers that offer events. *)
Inductive dp_label := Offer (event : Event) | Take (j : nat) | Done (j : nat).

Definition dp_step (targets : list string) (l : dp_label) (d : Dispatcher) : option Dispatcher :=
  match l with
  | Offer event => Some (enqueue targets event d)
  | Take j =>
      match dp_workers d !! j, dp_queue d with
      | Some None, event :: rest =>
          Some {| dp_queue := rest; dp_workers := <[j := Some event]> (dp_workers d); dp_published := dp_published d;
                  dp_recorder := dp_recorder d |}
      | _, _ => None
      end
  | Done j =>
      match dp_workers d !! j with
      | Some (Some event) =>
          Some {| dp_queue := dp_queue d; dp_workers := <[j := None]> (dp_workers d);
                  dp_published := dp_published d ++ [event]; dp_recorder := dp_recorder d |}
      | _ => None
      end
  end.

Fixpoint dp_run (targets : list string) (ls : list dp_label) (d : Dispatcher) : option Dispatcher :=
  match ls with
  | [] => Some d
  | l :: rest => match dp_step targets l d with Some d' => dp_run targets rest d' | None => None end
  end.

Definition offered (ls : list dp_label) : list Event :=
  omap (fun l => match l with Offer e => Some e | _ => None end) ls.

(** The events of a run that a full queue turned away. *)
Fixpoint turned_away (targets : list string) (ls : list dp_label) (d : Dispatcher) : list Event :=
  match ls with
  | [] => []
  | l :: rest =>
      match l with Offer e => if (length (dp_queue d) <? queueSize)%nat then [] else [e] | _ => [] end ++
      match dp_step targets l d with Some d' => turned_away targets rest d' | None => [] end
  end.

(** The events in the dispatcher, wherever they are. *)
Definition in_dispatcher (d : Dispatcher) : list Event := dp_published d ++ omap id (dp_workers d) ++ dp_queue d.

Lemma dp_step_accounts targets l d d' : targets <> [] -> dp_step targets l d = Some d' ->
  in_dispatcher d' ++ match l with Offer e => if (length (dp_queue d) <? queueSize)%nat then [] else [e] | _ => [] end
  ≡ₚ in_dispatcher d ++ offered [l].
Proof.
  intros Ht. destruct l as [e|j|j]; cbn [dp_step offered omap list_omap].
  - intros [= <-]. unfold enqueue, in_dispatcher. destruct targets; [done|]. destruct (_ <? _)%nat; cbn; [|done].
    by rewrite app_nil_r, !app_assoc.
  - destruct (dp_workers d !! j) as [[|]|] eqn:E; try done. destruct (dp_queue d) as [|e q] eqn:Eq; [done|]. intros [= <-].
    unfold in_dispatcher. rewrite Eq. cbn [dp_published dp_workers dp_queue].
    pose proof (omap_insert_perm id _ j (Some e) _ E) as Hp. cbn [singletons id app] in Hp. rewrite Hp, !app_nil_r.
    apply Permutation_app_head. cbn [app]. by rewrite Permutation_middle.
  - destruct (dp_workers d !! j) as [[e|]|] eqn:E; try done. intros [= <-].
    unfold in_dispatcher. cbn [dp_published dp_workers dp_queue].
    pose proof (omap_insert_perm id _ j None _ E) as Hp. cbn [singletons id app] in Hp. rewrite <- Hp, !app_nil_r.
    by rewrite <- app_assoc.
Qed.

Lemma dp_step_bounds targets l d d' : dp_step targets l d = Some d' -> (length (dp_queue d) <= queueSize)%nat ->
  (length (dp_queue d') <= queueSize)%nat /\ length (dp_workers d') = length (dp_workers d).
Proof.
  destruct l as [e|j|j]; cbn [dp_step].
  - intros [= <-]. unfold enqueue. destruct targets; [done|]. destruct (_ <? _)%nat eqn:E; cbn; [|done].
    apply Nat.ltb_lt in E. rewrite length_app. cbn. split; [lia|done].
  - destruct (dp_workers d !! j) as [[|]|]; try done. destruct (dp_queue d) as [|e q]; [done|]. intros [= <-]. cbn.
    rewrite length_insert. split; [lia|done].
  - destruct (dp_workers d !! j) as [[e|]|]; try done. intros [= <-]. cbn. by rewrite length_insert.
Qed.

Lemma dp_run_accounts targets ls d d' : targets <> [] -> dp_run targets ls d = Some d' ->
  (length (dp_queue d) <= queueSize)%nat ->
  in_dispatcher d' ++ turned_away targets ls d ≡ₚ in_dispatcher d ++ offered ls /\
  (length (dp_queue d') <= queueSize)%nat /\ length (dp_workers d') = length (dp_workers d).
Proof.
  intros Ht. revert d. induction ls as [|l ls IH]; intros d; cbn [dp_run turned_away].
  - intros [= <-] H. done.
  - destruct (dp_step targets l d) as [d1|] eqn:E; [|done]. intros Hr Hq.
    destruct (dp_step_bounds _ _ _ _ E Hq) as [Hq1 Hw]. destruct (IH d1 Hr Hq1) as (H1 & H2 & H3).
    pose proof (dp_step_accounts targets l d d1 Ht E) as H4. split_and!; [|done|congruence].
    set (x := match l with Offer e => _ | _ => _ end) in *.
    rewrite (Permutation_app_comm x), app_assoc, H1, <- app_assoc, (Permutation_app_comm _ x), app_assoc, H4, <- app_assoc.
    by destruct l.
Qed.

(** A busy worker can finish, an idle one can take what is queued. *)
Lemma dp_progress targets d : targets <> [] -> dp_workers d <> [] ->
  in_dispatcher d <> dp_published d -> exists l d', dp_step targets l d = Some d' /\ forall e, l <> Offer e.
Proof.
  intros Ht Hw Hin. destruct (dp_workers d) as [|[e|] ws] eqn:E; [done|..].
  - exists (Done 0). eexists. cbn [dp_step]. rewrite E. done.
  - destruct (dp_queue d) as [|e q] eqn:Eq; [|exists (Take 0); eexists; cbn [dp_step]; by rewrite E, Eq].
    destruct (omap id ws) as [|e l] eqn:Eo.
    { exfalso. apply Hin. unfold in_dispatcher. rewrite E, Eq. cbn. by rewrite Eo, app_nil_r. }
    assert (e ∈ omap id ws) as (x & Hx & He)%list_elem_of_omap by (rewrite Eo; constructor). cbn in He. subst x.
    apply list_elem_of_lookup in Hx as [j Hj]. exists (Done (S j)). eexists. cbn [dp_step]. rewrite E.
    change ((None :: ws) !! S j) with (ws !! j). by rewrite Hj.
Qed.

(** C31 (kind: invariant).  The dispatcher loses nothing it has accepted: however callers and workers interleave,
    the events offered are those published, those a worker is publishing and those
    queued, each once, together with those a full queue turned away; never more than
    256 events wait and never more than four are being published. *)
Theorem dispatcher_accounts (targets : list string) (rec : Recorder) (ls : list dp_label) (d : Dispatcher) :
  targets <> [] -> dp_run targets ls (startInvalidationDispatcher targets rec) = Some d ->
  in_dispatcher d ++ turned_away targets ls (startInvalidationDispatcher targets rec) ≡ₚ offered ls /\
  (length (dp_queue d) <= 256)%nat /\ (length (omap id (dp_workers d)) <= 4)%nat.
Proof.
  intros Ht Hr. destruct (dp_run_accounts targets ls _ d Ht Hr) as (H1 & H2 & H3); [cbn; lia|].
  assert (Hi : in_dispatcher (startInvalidationDispatcher targets rec) = []).
  { unfold in_dispatcher, startInvalidationDispatcher. cbn [dp_published dp_workers dp_queue app]. rewrite app_nil_r.
    generalize (Nat.min 4 (length targets)). intros n. induction n as [|n IH]; [done|exact IH]. }
  rewrite Hi in H1. split_and!; [done|done|].
  assert (Ho : forall ws : list (option Event), (length (omap id ws) <= length ws)%nat).
  { induction ws as [|[x|] ws IH]; [done|apply le_n_S, IH|etransitivity; [exact IH|cbn; lia]]. }
  specialize (Ho (dp_workers d)). rewrite H3 in Ho. cbn [startInvalidationDispatcher dp_workers] in Ho. rewrite length_replicate in Ho. lia.
Qed.

Lemma dispatcher_accounts_witness :
  exists d, dp_run ["http://a"] [Offer demo_event; Take 0; Offer ∅; Done 0] (startInvalidationDispatcher ["http://a"] NewRecorder) = Some d /\
    in_dispatcher d ++ [] ≡ₚ [demo_event; ∅] /\ (length (dp_queue d) <= 256)%nat /\ (length (omap id (dp_workers d)) <= 4)%nat.
Proof.
  eexists. split; [reflexivity|].
  apply (dispatcher_accounts ["http://a"] NewRecorder [Offer demo_event; Take 0; Offer ∅; Done 0]); [done|reflexivity].
Defined.

(** *** One event *)

(** The address an event is posted to. *)
Definition invalidate_url (target : string) : string := TrimRight target ["/"%char] +:+ "/rlaas/v1/agent/invalidate".

Section Publish.
(** Whether [http.NewRequestWithContext] accepts an address. *)
Context (valid_url : string -> bool).
(** Posting makes no call to a counter store. *)
Context {W : Type} (h : handler W).

Definition publish_workers (targets : list string) : nat := Nat.min 8 (length targets).

(** A request per target; the answer does not matter. *)
Definition post (body target : string) (_ : unit) (sent : list (string * string)) : list (string * string) :=
  if valid_url (invalidate_url target) then sent ++ [(invalidate_url target, body)] else sent.

(** [publishInvalidation] as a pool of workers on the channel of targets. *)
Definition publish_step (targets : list string) (event : Event) :
    pool W unit unit (list (string * string)) -> pool W unit unit (list (string * string)) -> Prop :=
  wp_step h (fun _ _ => False) (fun _ => Ret tt) (fun _ _ => tt) (post (MarshalStrings event)) targets.

Definition publishInvalidation (targets : list string) (w : W) : pool W unit unit (list (string * string)) :=
  launch targets (publish_workers targets) tt [] w.

Lemma posted_all body (order : list (string * unit)) sent :
  count_up (post body) sent order =
  sent ++ ((fun t => (invalidate_url t, body)) <$> filter (fun t => valid_url (invalidate_url t) = true) order.*1).
Proof.
  unfold count_up. revert sent. induction order as [|[t []] order IH]; intros sent; cbn [foldl fmap list_fmap fst snd]; [by rewrite app_nil_r|].
  rewrite IH. unfold post. rewrite filter_cons. destruct (valid_url (invalidate_url t)) eqn:E.
  - rewrite decide_True by done. by rewrite <- app_assoc.
  - rewrite decide_False by done. done.
Qed.

(** Publishing posts an event once to every target with a valid address, however its
    workers interleave: from every state they can all return, and when they have,
    exactly those requests have been sent. *)
Theorem publish_reaches_all (targets : list string) (event : Event) (w : W) (s : pool W unit unit (list (string * string))) :
  rtc (publish_step targets event) (publishInvalidation targets w) s ->
  (exists s', rtc (publish_step targets event) s s' /\ finished s') /\
  (finished s ->
   wp_tally s ≡ₚ ((fun t => (invalidate_url t, MarshalStrings event)) <$>
     filter (fun t => valid_url (invalidate_url t) = true) targets)).
Proof.
  intros Hr. split; [by eapply can_finish|]. intros Hf. destruct targets as [|t targets].
  { assert (E : wp_tally s = [] /\ wp_workers s = []); [|by destruct E as [-> _]].
    revert Hr. apply (rtc_ind_r (fun s => wp_tally s = [] /\ wp_workers s = [])); [done|].
    intros x y _ Hs [H1 H2]. destruct Hs; cbn in *; subst; done. }
  set (ts := t :: targets) in *.
  destruct (finished_pool h (fun _ _ => False) (fun _ => Ret tt) (fun _ _ => tt) (post (MarshalStrings event)) ts
    [] w (publish_workers ts) tt s) as (bs & _ & _ & Hl & order & Ho & ->); [unfold publish_workers, ts; cbn; lia|done|done|].
  rewrite posted_all, Ho. cbn [app]. rewrite fst_zip by lia. done.
Qed.
End Publish.

Definition publish_world : World := {| w_clock := 0; w_store := NewSharded 1 |}.

(** Two targets, one of them written with a slash at its end. *)
Lemma publish_reaches_all_witness :
  let ts := ["http://a/"; "http://b"] in
  exists s, rtc (publish_step (fun _ => true) memory ts demo_event) (publishInvalidation ts publish_world) s /\ finished s /\
    wp_tally s ≡ₚ [("http://a/rlaas/v1/agent/invalidate", MarshalStrings demo_event);
                   ("http://b/rlaas/v1/agent/invalidate", MarshalStrings demo_event)].
Proof.
  intros ts.
  destruct (publish_reaches_all (fun _ => true) memory ts demo_event publish_world (publishInvalidation ts publish_world))
    as [(s & Hr & Hf) _]; [done|].
  exists s. split_and!; [done|done|]. rewrite (proj2 (publish_reaches_all (fun _ => true) memory ts demo_event publish_world s Hr) Hf).
  by vm_compute.
Defined.
