(* ===== verification/Agent.v ===== *)
(** * cmd/rlaas-agent: the sidecar

    The agent forwards checks to the server, and fetches the policies of the server
    once at its start, at every tick, and after an invalidation.  The handlers of the
    agent and its loop run concurrently and share a queue of 32 invalidations: [ag_step]
    is the step relation of both. *)

From Stdlib Require Import Ascii String.
From S2P Require Import Prelude GoString GoFloat GoTime GoJson Http.
Local Open Scope Z_scope.
Local Open Scope stdpp_scope.
Local Open Scope go_scope.

(** ** Configuration *)

Record agentConfig := { ac_ListenAddr : string; ac_UpstreamBase : string; ac_SyncInterval : Duration }.

Inductive agentError := InvalidUpstream | InvalidSyncSecs (raw : string).

(** [loadConfig]; [valid_uri] is whether [url.ParseRequestURI] accepts a text. *)
Definition loadConfig (valid_uri : string -> bool) (env : string -> string) : agentConfig + agentError :=
  let listen := if String.eqb (TrimSpace (env "RLAAS_AGENT_LISTEN")) "" then ":18080" else env "RLAAS_AGENT_LISTEN" in
  let upstream := if String.eqb (TrimSpace (env "RLAAS_UPSTREAM_HTTP")) "" then "http://localhost:8080"
                  else env "RLAAS_UPSTREAM_HTTP" in
  if valid_uri upstream then
    let raw := TrimSpace (env "RLAAS_AGENT_SYNC_SECS") in
    let config secs := inl {| ac_ListenAddr := listen; ac_UpstreamBase := TrimRight upstream ["/"%char];
                              ac_SyncInterval := secs *! Second |} in
    if String.eqb raw "" then config 30
    else match ParseInt raw with
         | (v, None) => if v <=? 0 then inr (InvalidSyncSecs raw) else config v
         | (_, Some _) => inr (InvalidSyncSecs raw)
         end
  else inr InvalidUpstream.

(** ** The state of synchronisation *)

Record syncState := { ss_lastSuccess : Time; ss_lastError : string; ss_runs : int64 }.
Definition newSyncState : syncState := {| ss_lastSuccess := zeroTime; ss_lastError := ""; ss_runs := 0 |}.

Definition markSuccess (t : Time) (s : syncState) : syncState :=
  {| ss_lastSuccess := t; ss_lastError := ""; ss_runs := ss_runs s +! 1 |}.
Definition markError (err : string) (s : syncState) : syncState :=
  {| ss_lastSuccess := ss_lastSuccess s; ss_lastError := err; ss_runs := ss_runs s +! 1 |}.

(** [snapshot]: the fields of the status document. *)
Record status := { st_sync_runs : int64; st_last_error : string; st_last_success_unix : option Z }.
Definition snapshot (s : syncState) : status :=
  {| st_sync_runs := ss_runs s; st_last_error := ss_lastError s;
     st_last_success_unix := if IsZero (ss_lastSuccess s) then None else Some (Unix (ss_lastSuccess s)) |}.

(** What the server answers to a fetch: an error on the way, or a status. *)
Inductive upstream := Unreachable (err : string) | Replied (statusCode : Z).

(** [fetchPolicySnapshot], when the clock shows [now] at its end. *)
Definition fetchPolicySnapshot (now : Time) (u : upstream) (s : syncState) : syncState :=
  match u with
  | Unreachable err => markError err s
  | Replied code =>
      if (200 <=? code) && (code <? 300) then markSuccess now s
      else markError ("policy sync status: " +:+ FormatInt code) s
  end.

(** ** The loop and the queue *)

Definition queueCap : nat := 32.

(** Where the loop is: before its first fetch, waiting, emptying the queue, fetching,
    or gone. *)
Inductive loop := Starting | Waiting | Draining (policyID : string) | Fetching | Stopped.

Record Agent := { ag_queue : list string; ag_loop : loop; ag_state : syncState }.
Definition newAgent : Agent := {| ag_queue := []; ag_loop := Starting; ag_state := newSyncState |}.

(** The send of the invalidation handler: without effect when the queue is full. *)
Definition send (policyID : string) (a : Agent) : Agent :=
  if (length (ag_queue a) <? queueCap)%nat
  then {| ag_queue := ag_queue a ++ [policyID]; ag_loop := ag_loop a; ag_state := ag_state a |} else a.

Definition at_loop (l : loop) (a : Agent) : Agent := {| ag_queue := ag_queue a; ag_loop := l; ag_state := ag_state a |}.

(** What happens: a handler posts an invalidation, the ticker fires, the context is
    cancelled, or the loop makes a step, with what the server answers to a fetch. *)
Inductive action := Post (policyID : string) | Tick | Cancel | Loop (now : Time) (u : upstream).

Inductive ag_step : action -> Agent -> Agent -> Prop :=
| ag_post id a : ag_step (Post id) a (send id a)
| ag_start now u a : ag_loop a = Starting -> ag_step (Loop now u) a (at_loop Fetching a)
| ag_receive now u id q a :
    ag_loop a = Waiting -> ag_queue a = id :: q ->
    ag_step (Loop now u) a {| ag_queue := q; ag_loop := Draining id; ag_state := ag_state a |}
| ag_drain now u id id' q a :
    ag_loop a = Draining id -> ag_queue a = id' :: q ->
    ag_step (Loop now u) a {| ag_queue := q; ag_loop := Draining id; ag_state := ag_state a |}
| ag_drained now u id a : ag_loop a = Draining id -> ag_queue a = [] -> ag_step (Loop now u) a (at_loop Fetching a)
| ag_fetched now u a :
    ag_loop a = Fetching ->
    ag_step (Loop now u) a {| ag_queue := ag_queue a; ag_loop := Waiting; ag_state := fetchPolicySnapshot now u (ag_state a) |}
| ag_tick a : ag_loop a = Waiting -> ag_step Tick a (at_loop Fetching a)
| ag_cancel a : ag_loop a = Waiting -> ag_step Cancel a (at_loop Stopped a).

(** A run: what happens in turn. *)
Inductive ag_run : list action -> Agent -> Agent -> Prop :=
| run_nil a : ag_run [] a a
| run_cons x xs a b c : ag_step x a b -> ag_run xs b c -> ag_run (x :: xs) a c.

(** ** Every invalidation is followed by a fetch *)

(** A fetch is owed: there is an invalidation after which none has begun. *)
Definition owed (a : Agent) : Prop :=
  match ag_loop a with Draining _ => True | _ => ag_queue a <> [] end.

(** A step at which a fetch begins. *)
Definition fetch_begins (a b : Agent) : Prop := ag_loop a <> Fetching /\ ag_loop b = Fetching.

(** A run in which no fetch begins and nothing is cancelled. *)
Inductive idle_run : list action -> Agent -> Agent -> Prop :=
| idle_nil a : idle_run [] a a
| idle_cons x xs a b c : ag_step x a b -> x <> Cancel -> ~ fetch_begins a b -> idle_run xs b c -> idle_run (x :: xs) a c.

Definition is_post (x : action) : bool := match x with Post _ => true | _ => false end.
Definition posts (xs : list action) : nat := length (List.filter is_post xs).
Definition others (xs : list action) : nat := length (List.filter (fun x => negb (is_post x)) xs).

(** How many steps of the loop are left before a fetch begins. *)
Definition distance (a : Agent) : nat :=
  length (ag_queue a) + match ag_loop a with Draining _ => 0 | Waiting => 1 | Fetching => 2 | Starting => 0 | Stopped => 0 end.

Lemma send_owed id a : owed (send id a).
Proof.
  unfold owed, send. destruct (_ <? _)%nat eqn:E; cbn [ag_loop ag_queue].
  - destruct (ag_loop a); try done; by destruct (ag_queue a).
  - apply Nat.ltb_ge in E. destruct (ag_loop a); try done; by destruct (ag_queue a); [cbn in E; unfold queueCap in E; lia|].
Qed.

Lemma owed_step x a b : owed a -> ag_step x a b -> x <> Cancel -> ~ fetch_begins a b ->
  owed b /\ (distance b + (if is_post x then 0 else 1) <= distance a + (if is_post x then 1 else 0))%nat.
Proof.
  unfold fetch_begins, distance. intros Ho Hs Hc Hn.
  destruct Hs as [id a|now u a Hl|now u id q a Hl Hq|now u id id' q a Hl Hq|now u id a Hl Hq|now u a Hl|a Hl|a Hl]; cbn [is_post].
  - split; [apply send_owed|]. unfold send. destruct (_ <? _)%nat; cbn [ag_queue ag_loop]; [rewrite length_app; cbn|]; lia.
  - exfalso. apply Hn. rewrite Hl. done.
  - unfold owed. rewrite Hl, Hq. cbn. split; [done|lia].
  - unfold owed. rewrite Hl, Hq. cbn. split; [done|lia].
  - exfalso. apply Hn. rewrite Hl. done.
  - unfold owed in *. rewrite Hl in *. cbn [ag_loop ag_queue]. split; [done|lia].
  - exfalso. apply Hn. rewrite Hl. done.
  - done.
Qed.

(** C24 (kind: liveness).  An invalidation the agent has acknowledged is followed by a fetch: after the post, even
    of one that a full queue did not take, a fetch is owed, the loop can make a step,
    and until a fetch begins the loop makes at most as many steps as there are
    invalidations in the queue and posted since, and two more. *)
Theorem invalidation_fetched (id : string) (a a' : Agent) (xs : list action) :
  ag_loop a <> Stopped -> idle_run xs (send id a) a' ->
  owed a' /\ (exists now u b, ag_step (Loop now u) a' b) /\
  (others xs <= length (ag_queue (send id a)) + posts xs + 2)%nat.
Proof.
  intros Hl Hr.
  enough (H : forall b, owed b -> ag_loop b <> Stopped -> idle_run xs b a' ->
      owed a' /\ ag_loop a' <> Stopped /\ (others xs + distance a' <= distance b + posts xs)%nat).
  { destruct (H (send id a) (send_owed id a)) as (H1 & H2 & H3); [|done|].
    { unfold send. by destruct (_ <? _)%nat. }
    split_and!; [done| |].
    - exists 0, (Replied 200). destruct (ag_loop a') eqn:E; [by eexists; apply ag_start| | | |done].
      + unfold owed in H1. rewrite E in H1. destruct (ag_queue a') eqn:Eq; [done|]. by eexists; eapply ag_receive.
      + destruct (ag_queue a') eqn:Eq; [by eexists; eapply ag_drained|by eexists; eapply ag_drain].
      + by eexists; apply ag_fetched.
    - unfold distance in H3 at 2. destruct (ag_loop (send id a)); lia. }
  clear. intros b Ho Hl Hr. induction Hr as [a|x xs a b c Hs Hc Hn Hr IH]; [split_and!; [done|done|cbn; lia]|].
  destruct (owed_step x a b Ho Hs Hc Hn) as [Ho' Hd].
  assert (Hl' : ag_loop b <> Stopped).
  { destruct Hs; cbn [ag_loop at_loop]; try done. unfold send. by destruct (_ <? _)%nat. }
  destruct (IH Ho' Hl') as (H1 & H2 & H3). split_and!; [done|done|].
  unfold others, posts in *. cbn [List.filter]. destruct (is_post x); cbn [negb length]; lia.
Qed.

(** Three posts while the loop fetches for the first time. *)
Lemma invalidation_fetched_witness :
  exists a', idle_run [Post "p2"; Loop 5 (Replied 200); Loop 5 (Replied 200); Loop 5 (Replied 200); Post "p3"]
               (send "p1" (at_loop Fetching newAgent)) a' /\
    owed a' /\ (3 <= length (ag_queue (send "p1" (at_loop Fetching newAgent))) + 2 + 2)%nat.
Proof.
  eexists. assert (Hr : idle_run [Post "p2"; Loop 5 (Replied 200); Loop 5 (Replied 200); Loop 5 (Replied 200); Post "p3"]
    (send "p1" (at_loop Fetching newAgent)) {| ag_queue := ["p3"]; ag_loop := Draining "p1"; ag_state := markSuccess 5 newSyncState |}).
  { eapply idle_cons; [apply ag_post|done|unfold fetch_begins; cbn; tauto|].
    eapply idle_cons; [by apply ag_fetched|done|unfold fetch_begins; cbn; by intros []|].
    eapply idle_cons; [by eapply ag_receive|done|unfold fetch_begins; cbn; by intros []|].
    eapply idle_cons; [by eapply ag_drain|done|unfold fetch_begins; cbn; by intros []|].
    eapply idle_cons; [apply ag_post|done|unfold fetch_begins; cbn; by intros []|]. apply idle_nil. }
  split; [exact Hr|]. destruct (invalidation_fetched "p1" (at_loop Fetching newAgent) _ _ ltac:(done) Hr) as (H1 & _ & H2).
  split; [exact H1|exact H2].
Defined.

(** ** The handlers *)

(** [Decoder.Decode] into the struct of the request: the first value of the text, with
    the members whose name is [policy_id] up to letter case. *)
Definition set_policy_id (old : option string) (kv : string * json) : option string :=
  match old with
  | None => None
  | Some id =>
      if String.eqb (ToLower kv.1) "policy_id"
      then match kv.2 with JStr s => Some s | JNull => Some id | _ => None end
      else Some id
  end.

Definition decode_policy_id (text : string) : option string :=
  match read_value (2 * String.length text + 2) maxNestingDepth text with
  | Some (JObj members, _) => foldl set_policy_id (Some "") members
  | Some (JNull, _) => Some ""
  | _ => None
  end.

(** The first [n] bytes of a body can be read. *)
Definition readable (r : Request) : string :=
  match rq_MaxBody r with Some n => str_take (Z.to_nat n) (rq_Body r) | None => rq_Body r end.

Definition maxInvalidation : int64 := 65536.

(** The text of the answer. *)
Definition queued_text (policyID : string) : string :=
  "{" +:+ encode_string "policy_id" +:+ ":" +:+ encode_string policyID +:+ "," +:+ encode_string "queued" +:+ ":true}" +:+ newline.

Definition invalidateHandler : Handler Agent := fun r w a =>
  if negb (String.eqb (rq_Method r) "POST") then (http_Error "method not allowed" 405 w, false, a)
  else
    let r := MaxBytesReader maxInvalidation r in
    match decode_policy_id (readable r) with
    | None => (http_Error "invalid request" 400 w, false, a)
    | Some policyID =>
        if String.eqb (TrimSpace policyID) "" then (http_Error "policy_id is required" 400 w, false, a)
        else (Write (queued_text policyID) (WriteHeader 202 (set_header "Content-Type" "application/json" w)), false, send policyID a)
    end.

(** What comes back from the server for a check, and what is sent to it. *)
Inductive checkReply := NoReply | CheckReply (statusCode : Z) (headers : Header) (body : string).

Definition maxProxyBody : Z := 1048576.

Definition add_headers (from to : Header) : Header := union_with (fun a b => Some (a ++ b)) to from.

Section Proxy.
(** The server, as the requests that reach it and their answers; [new_request] is
    whether an address makes a request. *)
Context {St : Type} (cfg : agentConfig) (new_request : string -> bool).
Context (server : string -> string -> St -> checkReply * St).

Definition proxyCheck : Handler St := fun r w s =>
  if negb (String.eqb (rq_Method r) "POST") then (http_Error "method not allowed" 405 w, false, s)
  else
    match read_body r with
    | Err _ => (http_Error "invalid request body" 400 w, false, s)
    | Ok body =>
        if maxProxyBody <? Z.of_nat (String.length body) then (http_Error "request body too large" 413 w, false, s)
        else
          let url := ac_UpstreamBase cfg +:+ "/rlaas/v1/check" in
          if new_request url then
            let '(reply, s') := server url body s in
            match reply with
            | NoReply => (http_Error "upstream unavailable" 502 w, false, s')
            | CheckReply code headers text =>
                let w := {| wr_Header := add_headers headers (wr_Header w); wr_Sent := wr_Sent w; wr_Body := wr_Body w |} in
                (Write text (WriteHeader code w), false, s')
            end
          else (http_Error "upstream request error" 500 w, false, s)
    end.
End Proxy.

(** A check of the agent is a check of the server: the server gets the body once, and
    its status, headers and answer come back unchanged. *)
Lemma proxy_transparent {St : Type} cfg new_request (server : string -> string -> St -> checkReply * St) r s code headers text s' :
  rq_Method r = "POST" -> rq_MaxBody r = None -> Z.of_nat (String.length (rq_Body r)) <= maxProxyBody ->
  new_request (ac_UpstreamBase cfg +:+ "/rlaas/v1/check") = true ->
  server (ac_UpstreamBase cfg +:+ "/rlaas/v1/check") (rq_Body r) s = (CheckReply code headers text, s') ->
  proxyCheck cfg new_request server r newWriter s =
    ({| wr_Header := headers; wr_Sent := Some (code, headers); wr_Body := text |}, false, s').
Proof.
  intros Hm Hb Hl Hn Hs. unfold proxyCheck, read_body. rewrite Hm, Hb, (proj2 (Z.ltb_ge _ _)), Hn, Hs by done. cbn [negb String.eqb].
  unfold Write, WriteHeader, newWriter, add_headers. cbn [wr_Header wr_Sent wr_Body].
  by rewrite (left_id_L ∅ (union_with _)).
Qed.

(** [agent/status]. *)
Definition status_text (st : status) : string :=
  "{" +:+ encode_string "last_error" +:+ ":" +:+ encode_string (st_last_error st) +:+ "," +:+
  match st_last_success_unix st with
  | Some t => encode_string "last_success_unix" +:+ ":" +:+ FormatInt t +:+ ","
  | None => ""
  end +:+ encode_string "sync_runs" +:+ ":" +:+ FormatInt (st_sync_runs st) +:+ "}" +:+ newline.

Definition statusHandler : Handler Agent := fun _ w a =>
  (Write (status_text (snapshot (ag_state a))) (set_header "Content-Type" "application/json" w), false, a).

Definition panicRecovery (next : Handler Agent) : Handler Agent := fun r w a =>
  let '(w', panicked, a') := next r w a in
  if panicked then (http_Error "internal server error" 500 w', false, a') else (w', false, a').

(** [buildServer]: what the agent serves; [check] is [proxyCheck]. *)
Definition agent_handler (check : Handler Agent) : Handler Agent :=
  panicRecovery (ServeMux [("/healthz", healthz); ("/rlaas/v1/check", check);
    ("/rlaas/v1/agent/invalidate", invalidateHandler); ("/rlaas/v1/agent/status", statusHandler)]).

(** *** Events of the server *)

Lemma str_take_ge n s : (String.length s <= n)%nat -> str_take n s = s.
Proof. revert s. induction n as [|n IH]; intros [|c s] H; cbn in *; [done|lia|done|]. rewrite IH by lia. done. Qed.

(** No other name of the event is [policy_id] up to letter case. *)
Definition one_policy_id (event : gmap string string) : Prop :=
  map_Forall (fun k _ => ToLower k = "policy_id" -> k = "policy_id") event.

Lemma decode_members l id old :
  Forall (fun kv => ToLower kv.1 = "policy_id" -> kv = ("policy_id", id)) l ->
  foldl set_policy_id (Some old) (to_member <$> l) = Some (if decide (("policy_id", id) ∈ l) then id else old).
Proof.
  revert old. induction l as [|[k v] l IH]; intros old H; [done|]. apply Forall_cons in H as [Hk Hl].
  cbn [fmap list_fmap foldl]. unfold set_policy_id at 2. cbn [to_member fst snd].
  destruct (String.eqb_spec (ToLower k) "policy_id") as [E|E].
  - injection (Hk E) as -> ->. rewrite (IH id Hl). rewrite (decide_True (P := ("policy_id", id) ∈ ("policy_id", id) :: l)) by constructor.
    by destruct (decide _).
  - rewrite (IH old Hl). destruct (decide (("policy_id", id) ∈ l)) as [Hin|Hin].
    + by rewrite decide_True by (by constructor).
    + rewrite decide_False; [done|]. rewrite elem_of_cons. intros [[= <- <-]|?]; [by apply E|done].
Qed.

Lemma decode_event (event : gmap string string) id :
  map_Forall (fun k v => ValidString k = true /\ ValidString v = true) event -> one_policy_id event ->
  event !! "policy_id" = Some id -> decode_policy_id (MarshalStrings event) = Some id.
Proof.
  intros Hv Hone Hid. unfold decode_policy_id, MarshalStrings. set (l := sort_by by_key (map_to_list event)).
  assert (Hl : forall kv, kv ∈ l <-> event !! kv.1 = Some kv.2).
  { intros [k v]. unfold l. rewrite sort_by_Permutation. apply elem_of_map_to_list. }
  rewrite (read_encoded_object l).
  - rewrite (decode_members l id).
    + by rewrite decide_True by (by apply Hl).
    + apply Forall_forall. intros [k v] Hkv. cbn. intros E. apply Hl in Hkv. cbn in Hkv.
      pose proof (Hone k v Hkv E) as ->. rewrite Hid in Hkv. by injection Hkv as ->.
  - apply Forall_forall. intros [k v] Hkv%Hl. by apply (Hv k v).
  - rewrite !str_length_app. cbn [String.length]. pose proof (Join_members_length l). lia.
Qed.

Lemma readable_limited n r : 0 <= n -> rq_MaxBody r = None -> Z.of_nat (String.length (rq_Body r)) <= n ->
  readable (MaxBytesReader n r) = rq_Body r.
Proof.
  intros Hn Hm Hl. unfold readable, MaxBytesReader. cbn [rq_MaxBody rq_Body]. rewrite Hm.
  destruct (n <? 0) eqn:E; zify_bool; [lia|]. apply str_take_ge. lia.
Qed.

(** C25 (kind: refinement).  From the server to the sidecar: the text the server posts for a policy change is taken
    by the agent as an invalidation of that policy, answered with 202, and a fetch of
    the policies is owed from then on. *)
Theorem change_reaches_agent (event : gmap string string) (id : string) (check : Handler Agent) (r : Request) (a : Agent) :
  map_Forall (fun k v => ValidString k = true /\ ValidString v = true) event -> one_policy_id event ->
  event !! "policy_id" = Some id -> TrimSpace id <> "" ->
  rq_Method r = "POST" -> rq_Path r = "/rlaas/v1/agent/invalidate" -> rq_MaxBody r = None ->
  rq_Body r = MarshalStrings event -> Z.of_nat (String.length (MarshalStrings event)) <= maxInvalidation ->
  exists w' h, agent_handler check r newWriter a = (w', false, send id a) /\ wr_Sent w' = Some (202, h) /\ owed (send id a).
Proof.
  intros Hv Hone Hid Hne Hm Hp Hb Hbody Hlen. unfold agent_handler, panicRecovery, ServeMux.
  rewrite Hp. replace (route _ _) with (Some invalidateHandler) by reflexivity.
  unfold invalidateHandler. cbv zeta. rewrite readable_limited by (done || by rewrite Hbody). rewrite Hm, Hbody. cbn [negb String.eqb].
  rewrite (decode_event event id Hv Hone Hid).
  rewrite (proj2 (String.eqb_neq _ _) Hne). eexists _, _. split_and!; [done|done|apply send_owed].
Qed.

Definition change_event : gmap string string := {[ "policy_id" := "p1"; "action" := "updated" ]}.

Definition invalidate_request (body : string) : Request :=
  {| rq_Method := "POST"; rq_Path := "/rlaas/v1/agent/invalidate"; rq_Header := ∅; rq_RemoteAddr := ""; rq_TLS := false;
     rq_Body := body; rq_MaxBody := None; rq_Trace := None |}.

Lemma change_reaches_agent_witness :
  exists w' h, agent_handler healthz (invalidate_request (MarshalStrings change_event)) newWriter newAgent
    = (w', false, send "p1" newAgent) /\ wr_Sent w' = Some (202, h) /\ owed (send "p1" newAgent).
Proof.
  apply (change_reaches_agent change_event "p1" healthz (invalidate_request (MarshalStrings change_event)) newAgent);
    only 3, 5-8: reflexivity.
  - apply (bool_decide_unpack _). by vm_compute.
  - apply map_Forall_insert_2; [done|]. apply map_Forall_singleton. by vm_compute.
  - by vm_compute.
  - by vm_compute.
Defined.

(** ** Examples *)

(** An invalidation that a full queue does not take is acknowledged as queued. *)
Example full_queue_says_queued :
  let full := {| ag_queue := replicate 32 "p"; ag_loop := Fetching; ag_state := newSyncState |} in
  let '(w, _, a) := invalidateHandler (invalidate_request (MarshalStrings change_event)) newWriter full in
  a = full /\ wr_Body w = queued_text "p1".
Proof. by vm_compute. Qed.

(** What follows the first JSON value is not looked at, and the letter case of the name
    does not matter. *)
Example invalidate_lenient :
  let '(w, _, a) := invalidateHandler (invalidate_request ("{" +:+ quoted "POLICY_ID" +:+ ":" +:+ quoted "x" +:+ "} and more")) newWriter newAgent in
  ag_queue a = ["x"].
Proof. by vm_compute. Qed.

(** An interval whose nanoseconds do not fit makes a negative period, at which
    [time.NewTicker] panics. *)
Example interval_overflow :
  exists cfg, loadConfig (fun _ => true) (fun k => if String.eqb k "RLAAS_AGENT_SYNC_SECS" then "9223372037" else "") = inl cfg /\
    ac_SyncInterval cfg < 0.
Proof. eexists. by vm_compute. Qed.

Example agent_defaults :
  loadConfig (fun _ => true) (fun _ => "") =
  inl {| ac_ListenAddr := ":18080"; ac_UpstreamBase := "http://localhost:8080"; ac_SyncInterval := 30 * Second |}.
Proof. by vm_compute. Qed.
