(* ===== verification/GrpcService.v ===== *)
(** * internal/adapter/grpc/service.go: the gRPC service

    [CheckLimit], [Acquire] and [Release] on the engine, with the registry of leases
    whose ids are made from the clock, and the account of the slots they take. *)

From S2P Require Import Prelude GoString GoHash GoFloat GoTime Model Store Protocol Common MemoryStore Concurrency.
From S2P Require Import CasLimit FixedWindow Quota SlidingLog SlidingCounter TokenBucket LeakyBucket KeyBuilder PolicyCache Engine LeaseEndpoints.
Local Open Scope Z_scope.
Local Open Scope stdpp_scope.
Local Open Scope go_scope.

(** ** Messages *)

Record CheckLimitRequest := {
  ck_request_id : string; ck_org_id : string; ck_tenant_id : string; ck_signal_type : string; ck_operation : string;
  ck_endpoint : string; ck_method : string; ck_user_id : string; ck_api_key : string
}.

Record CheckLimitResponse := {
  cr_Allowed : bool; cr_Action : string; cr_Reason : string; cr_Remaining : int64; cr_RetryAfterMs : int64
}.

Record AcquireRequest := { aq_request_id : string; aq_org_id : string; aq_tenant_id : string; aq_operation : string }.
Record AcquireResponse := { ar_Allowed : bool; ar_LeaseId : string; ar_Reason : string }.

Definition nonEmpty (value fallback : string) : string := if String.eqb value "" then fallback else value.

Definition rpc_request (rid org tenant signal operation endpoint method user key : string) : RequestContext :=
  {| req_RequestID := rid; req_OrgID := org; req_TenantID := tenant; req_Application := ""; req_Service := "";
     req_Environment := ""; req_SignalType := signal; req_Operation := operation; req_Endpoint := endpoint;
     req_Method := method; req_UserID := user; req_APIKey := key; req_ClientID := ""; req_SourceIP := "";
     req_Region := ""; req_Resource := ""; req_Severity := ""; req_SpanName := ""; req_Topic := "";
     req_ConsumerGroup := ""; req_JobType := ""; req_Quantity := 0; req_Priority := "";
     req_Timestamp := zeroTime; req_Tags := None; req_Attributes := None |}.

Definition check_context (m : CheckLimitRequest) : RequestContext :=
  rpc_request (ck_request_id m) (ck_org_id m) (ck_tenant_id m) (nonEmpty (ck_signal_type m) "grpc") (ck_operation m)
    (ck_endpoint m) (nonEmpty (ck_method m) "UNARY") (ck_user_id m) (ck_api_key m).

Definition acquire_context (m : AcquireRequest) : RequestContext :=
  rpc_request (aq_request_id m) (aq_org_id m) (aq_tenant_id m) "grpc" (aq_operation m) (aq_operation m) "UNARY" "" "".

Definition check_response (d : Decision) : CheckLimitResponse :=
  {| cr_Allowed := dec_Allowed d; cr_Action := dec_Action d; cr_Reason := dec_Reason d; cr_Remaining := dec_Remaining d;
     cr_RetryAfterMs := Z.quot (dec_RetryAfter d) Millisecond |}.

(** ** The service *)

(** [grpcLeaseRegistry.put], when the clock shows [t]. *)
Definition lease_id (t : Time) : string := "grpc-lease-" +:+ FormatInt (UnixNano t).
Definition grpc_put (t : Time) (fn : option string) (items : leaseRegistry) : string * leaseRegistry :=
  (lease_id t, <[lease_id t := fn]> items).

Section Service.
Context {W : Type} (h : handler W).
Context (visits : gmap string item -> list (string * item)) (e : DefaultEngine)
        (LoadPolicies : string -> result (list Policy)).

Definition CheckLimit (t wall : Time) (m : CheckLimitRequest) (st : LeaseState W) : CheckLimitResponse * LeaseState W :=
  let '(p, c) := client_Evaluate visits e LoadPolicies t wall (check_context m) (ls_cache st) in
  let '(d, w) := run h p (ls_world st) in
  (check_response d, Build_LeaseState (ls_items st) c w).

(** The engine never returns an error, and always a release function. *)
Definition Acquire (t wall wall' t' : Time) (m : AcquireRequest) (st : LeaseState W) : AcquireResponse * LeaseState W :=
  let '(p, c) := client_StartConcurrencyLease visits e LoadPolicies t wall wall' (acquire_context m) (ls_cache st) in
  let '((d, fn), w) := run h p (ls_world st) in
  let '(id, items) := if dec_Allowed d then grpc_put t' fn (ls_items st) else ("", ls_items st) in
  ({| ar_Allowed := dec_Allowed d; ar_LeaseId := id; ar_Reason := dec_Reason d |}, Build_LeaseState items c w).

(** [Released] of the response. *)
Definition Release (id : string) (st : LeaseState W) : bool * LeaseState W :=
  match pop id (ls_items st) with
  | (None, _) => (false, st)
  | (Some None, items) => (true, Build_LeaseState items (ls_cache st) (ls_world st))
  | (Some (Some key), items) =>
      let '(r, w) := run h (call (ReleaseLease key)) (ls_world st) in
      (match r with Ok _ => true | Err _ => false end, Build_LeaseState items (ls_cache st) w)
  end.
End Service.

(** ** Evaluations that take no slot *)

(** The calls that leave the leases of a store alone. *)
Definition counting {R} (op : CounterOp R) : bool :=
  match op with AcquireLease _ _ _ | ReleaseLease _ | Delete _ => false | _ => true end.

Fixpoint counts {A} (p : prog A) : Prop :=
  match p with Ret _ => True | Call op k => counting op = true /\ forall r, counts (k r) end.

#[local] Hint Extern 0 (counts (Ret _)) => exact I : core.

Lemma counts_bind {A B} (p : prog A) (f : A -> prog B) : counts p -> (forall a, counts (f a)) -> counts (p ≫= f).
Proof.
  unfold mbind, prog_mbind. intros Hp Hf. induction p as [a|R op k IH]; cbn [prog_bind]; [apply Hf|].
  destruct Hp as [Ho Hk]. split; [done|]. intros r. by apply IH.
Qed.

Lemma counts_map {A B} (p : prog A) (g : A -> B) : counts p -> counts (a ← p; mret (g a)).
Proof. intros Hp. by apply counts_bind. Qed.

Lemma counts_try {A B} (p : prog (result A)) (f : A -> prog (result B)) :
  counts p -> (forall a, counts (f a)) -> counts (try_bind p f).
Proof. intros Hp Hf. apply counts_bind; [done|]. intros [a|err]; [apply Hf|done]. Qed.

Lemma counts_call {R B} (op : CounterOp (result R)) (f : R -> prog (result B)) :
  counting op = true -> (forall a, counts (f a)) -> counts (try_bind (call op) f).
Proof. intros Ho Hf. by apply counts_try. Qed.

Lemma counts_over policy retryAfter remaining reason : counts (OverLimitDecision policy retryAfter remaining reason).
Proof. done. Qed.

Lemma counts_now {B} clk (f : Time -> prog (result B)) : (forall t, counts (f t)) -> counts (t ← eval_now clk; f t).
Proof. intros Hf. by apply counts_bind. Qed.

Lemma counts_cas n wk limit cost window exceeded contention admitted :
  counts exceeded -> counts contention -> counts (cas_loop n wk limit cost window exceeded contention admitted).
Proof.
  intros He Hc. induction n as [|n IH]; cbn [cas_loop]; [by apply counts_map|]. apply counts_call; [done|]. intros cur. case_step.
  - by apply counts_map.
  - apply counts_call; [done|]. by intros [].
Qed.

Lemma counts_swc n policy curKey limit cost prevCount weight window retryAfter resetAt :
  counts (swc_loop n policy curKey limit cost prevCount weight window retryAfter resetAt).
Proof.
  induction n as [|n IH]; cbn [swc_loop]; [apply counts_map, counts_over|]. apply counts_call; [done|]. intros cur. cbv zeta. case_step.
  - apply counts_map, counts_over.
  - apply counts_call; [done|]. by intros [].
Qed.

Lemma counts_set n key value ttl : counts (set_best_effort n key value ttl).
Proof. induction n as [|n IH]; cbn [set_best_effort]; [done|]. split; [done|]. by intros [u|err]. Qed.

Lemma counts_tb n policy key capacity refillRate cost now : counts (tb_loop n policy key capacity refillRate cost now).
Proof.
  induction n as [|n IH]; cbn [tb_loop]; [apply counts_map, counts_over|].
  do 2 (apply counts_call; [done|]; intros ?). cbv zeta. case_step; [apply counts_map, counts_over|].
  apply counts_call; [done|]. intros []; cbn [negb]; [apply counts_map, counts_set|apply IH].
Qed.

Lemma counts_lb n policy key limit leakRate cost ttl now : counts (lb_loop n policy key limit leakRate cost ttl now).
Proof.
  induction n as [|n IH]; cbn [lb_loop]; [apply counts_map, counts_over|].
  do 2 (apply counts_call; [done|]; intros ?). cbv zeta. case_step; [apply counts_map, counts_over|].
  apply counts_call; [done|]. intros []; cbn [negb]; [apply counts_map, counts_set|apply IH].
Qed.

Lemma counts_timestamps n key ts ttl : counts (addTimestamps n key ts ttl).
Proof. induction n as [|n IH]; cbn [addTimestamps]; [done|]. by apply counts_call. Qed.

(** Every algorithm but the limit on concurrency only counts. *)
Lemma algorithm_counts atomic loc ty (alg : Algorithm) policy req key :
  defaultAlgorithms atomic loc ty = Some alg -> ty <> AlgoConcurrency -> counts (alg policy req key).
Proof.
  unfold defaultAlgorithms. intros Ha Hty. rewrite (proj2 (String.eqb_neq _ _) Hty) in Ha. revert Ha.
  repeat match goal with |- context [String.eqb ty ?x] => destruct (String.eqb ty x) end; intros [= <-].
  - apply counts_now. intros t. apply counts_cas; apply counts_over.
  - apply counts_now. intros t. apply counts_tb.
  - apply counts_now. intros t. apply counts_call; [done|]. intros prev. apply counts_swc.
  - apply counts_now. intros t. apply counts_cas; apply counts_over.
  - apply counts_now. intros t. apply counts_lb.
  - unfold SlidingLog.Evaluate. destruct atomic; apply counts_now; intros t; cbv zeta.
    + apply counts_call; [done|]. intros [count []]; [done|]. apply counts_map, counts_over.
    + do 2 (apply counts_call; [done|]; intros ?). case_step; [apply counts_map, counts_over|].
      apply counts_try; [apply counts_timestamps|done].
Qed.

Lemma lease_item_other {R} (op : CounterOp R) key w : wf_store (w_store w) -> op_key op <> Some key ->
  lease_item (memory R op w).2 key = lease_item w key.
Proof. intros Hwf Hk. unfold lease_item. by rewrite memory_clock, memory_view_other. Qed.

Lemma lease_item_counting {R} (op : CounterOp R) key w : wf_store (w_store w) -> counting op = true ->
  lease_item (memory R op w).2 key = lease_item w key.
Proof.
  intros Hwf Ho. destruct (decide (op_key op = Some key)) as [Hk|Hk]; [|by apply lease_item_other].
  unfold lease_item. rewrite memory_clock, (memory_view op key w Hk Hwf). unfold view.
  set (sh := ms_shards (w_store w) !!! _). generalize (w_clock w) as now. intros now. unfold live_lease, cell_of. cbn [c_lease].
  enough (sh_leases (shard_op op now sh).2 = sh_leases sh) as -> by done.
  destruct op; simplify_eq/=; unfold mem_Increment, mem_Get, mem_Set, mem_CompareAndSwap, mem_AddTimestamp, mem_CountAfter,
    mem_TrimBefore, mem_CheckAndAddTimestamps, getValueLocked, cleanTSLocked, touchTS; by repeat (case_match; simplify_eq/=).
Qed.

Lemma run_wf {A} (p : prog A) w : wf_store (w_store w) -> wf_store (w_store (run memory p w).2).
Proof.
  revert w. induction p as [a|R op k IH]; intros w Hwf; cbn [run]; [done|].
  pose proof (memory_wf op w Hwf). destruct (memory R op w) as [r w']. by apply IH.
Qed.

Lemma run_counting {A} (p : prog A) key w : wf_store (w_store w) -> counts p ->
  lease_item (run memory p w).2 key = lease_item w key.
Proof.
  revert w. induction p as [a|R op k IH]; intros w Hwf; cbn [run counts]; [done|]. intros [Ho Hk].
  pose proof (memory_wf op w Hwf). pose proof (lease_item_counting op key w Hwf Ho) as Hl.
  destruct (memory R op w) as [r w']. cbn [snd] in *. by rewrite IH.
Qed.

(** ** Every slot is accounted for *)

(** What can happen to the service, one thing after the other: a call of a client, with
    what the policy store answers and the instants at which the clock is read; time
    passing; the collector of the memory store. *)
Inductive rpc :=
| CallCheck (load : string -> result (list Policy)) (t wall : Time) (m : CheckLimitRequest)
| CallAcquire (load : string -> result (list Policy)) (t wall wall' t' : Time) (m : AcquireRequest)
| CallRelease (id : string)
| Elapse (d : Z)
| Collect.

(** The leases of the registry on a key. *)
Definition leases_on (key : string) (items : leaseRegistry) : Z := Z.of_nat (size (filter (fun kv => kv.2 = Some key) items)).

Lemma leases_on_pos key items : 0 <= leases_on key items.
Proof. unfold leases_on. lia. Qed.

Lemma leases_on_insert key id fn items : items !! id = None ->
  leases_on key (<[id := fn]> items) = leases_on key items + if decide (fn = Some key) then 1 else 0.
Proof.
  intros Hn. unfold leases_on. destruct (decide (fn = Some key)) as [->|Hf].
  - rewrite map_filter_insert_True by done. rewrite map_size_insert_None; [lia|]. apply map_lookup_filter_None. by left.
  - rewrite map_filter_insert_False by done. rewrite delete_id by done. lia.
Qed.

Lemma leases_on_delete key id fn items : items !! id = Some fn ->
  leases_on key (delete id items) = leases_on key items - if decide (fn = Some key) then 1 else 0.
Proof.
  intros Hs. assert (Hd : delete id items !! id = None) by apply lookup_delete_eq.
  pose proof (leases_on_insert key id fn (delete id items) Hd) as H. rewrite insert_delete_id in H by done. lia.
Qed.

Section Accounting.
Context (visits : gmap string item -> list (string * item)) (e : DefaultEngine) (atomic : bool) (loc : Z).
(** The algorithms of the client. *)
Context (He : en_Algorithms e = defaultAlgorithms atomic loc).

Definition rpc_step (st : LeaseState World) (c : rpc) : LeaseState World :=
  match c with
  | CallCheck load t wall m => (CheckLimit memory visits e load t wall m st).2
  | CallAcquire load t wall wall' t' m => (Acquire memory visits e load t wall wall' t' m st).2
  | CallRelease id => (Release memory id st).2
  | Elapse d => Build_LeaseState (ls_items st) (ls_cache st)
                  {| w_clock := w_clock (ls_world st) + Z.max 0 d; w_store := w_store (ls_world st) |}
  | Collect => Build_LeaseState (ls_items st) (ls_cache st)
                 {| w_clock := w_clock (ls_world st); w_store := MemoryStore.sweep (w_clock (ls_world st)) (w_store (ls_world st)) |}
  end.

Definition slots (st : LeaseState World) (key : string) : Z := vi_value (lease_item (ls_world st) key).

(** The key on which the evaluation of a request takes a slot: that of a policy that
    limits concurrency and has one free. *)
Definition eval_slot (load : string -> result (list Policy)) (wall : Time) (req : RequestContext) (c : MemoryPolicyCache)
    (w : World) : option string :=
  match (pickPolicy visits e load wall req c).1 with
  | Ok (Some (policy, k)) =>
      if String.eqb (cfg_Type (pol_Algorithm policy)) AlgoConcurrency &&
         (vi_value (lease_item w (leaseKey k)) <? lease_limit (pol_Algorithm policy))
      then Some (leaseKey k) else None
  | _ => None
  end.

(** The slot a call takes without registering a lease: [CheckLimit] on a policy that
    limits concurrency, or [Acquire] when such a policy appears between its two looks at
    the policies. *)
Definition slot_unleased (c : rpc) (st : LeaseState World) : option string :=
  match c with
  | CallCheck load t wall m => eval_slot load wall (stamped t (check_context m)) (ls_cache st) (ls_world st)
  | CallAcquire load t wall wall' t' m =>
      let req := stamped t (acquire_context m) in
      match pickPolicy visits e load wall req (ls_cache st) with
      | (Ok (Some (policy, k)), c') =>
          if String.eqb (cfg_Type (pol_Algorithm policy)) AlgoConcurrency then None
          else eval_slot load wall' req c' (ls_world st)
      | _ => None
      end
  | _ => None
  end.

Fixpoint unleased (key : string) (calls : list rpc) (st : LeaseState World) : Z :=
  match calls with
  | [] => 0
  | c :: rest => (if decide (slot_unleased c st = Some key) then 1 else 0) + unleased key rest (rpc_step st c)
  end.

(** The limits of the policies that are picked are numbers of 64 bits. *)
Definition pick_fits (load : string -> result (list Policy)) (wall : Time) (req : RequestContext) (c : MemoryPolicyCache) : Prop :=
  match (pickPolicy visits e load wall req c).1 with
  | Ok (Some (policy, _)) => lease_limit (pol_Algorithm policy) <= maxInt64
  | _ => True
  end.

Definition call_fits (c : rpc) (st : LeaseState World) : Prop :=
  match c with
  | CallCheck load t wall m => pick_fits load wall (stamped t (check_context m)) (ls_cache st)
  | CallAcquire load t wall wall' t' m =>
      let req := stamped t (acquire_context m) in
      pick_fits load wall req (ls_cache st) /\ pick_fits load wall' req (pickPolicy visits e load wall req (ls_cache st)).2
  | _ => True
  end.

Fixpoint limits_fit (calls : list rpc) (st : LeaseState World) : Prop :=
  match calls with [] => True | c :: rest => call_fits c st /\ limits_fit rest (rpc_step st c) end.

(** The slots of the key do not reach the end of their life. *)
Definition keeps (key : string) (c : rpc) (st : LeaseState World) : Prop :=
  match c with
  | Elapse d => let x := vi_expiry (lease_item (ls_world st) key) in x = zeroTime \/ w_clock (ls_world st) + Z.max 0 d <= x
  | _ => True
  end.

Fixpoint none_expires (key : string) (calls : list rpc) (st : LeaseState World) : Prop :=
  match calls with [] => True | c :: rest => keeps key c st /\ none_expires key rest (rpc_step st c) end.

(** The instants at which acquisitions make their ids. *)
Definition instants (calls : list rpc) : list Time :=
  omap (fun c => match c with CallAcquire _ _ _ _ t' _ => Some t' | _ => None end) calls.

(** One more slot on the key of [taken], if any. *)
Definition one_more (taken : option string) (w w' : World) : Prop :=
  wf_store (w_store w') /\
  forall key, vi_value (lease_item w' key) = vi_value (lease_item w key) + if decide (taken = Some key) then 1 else 0.

Lemma acquire_one_more w key limit ttl :
  wf_store (w_store w) -> 0 <= vi_value (lease_item w key) -> 0 < limit <= maxInt64 ->
  let '(r, w') := memory _ (AcquireLease key limit ttl) w in
  let free := vi_value (lease_item w key) <? limit in
  (exists current, r = Ok (free, current)) /\ one_more (if free then Some key else None) w w'.
Proof.
  intros Hwf Hv Hl. pose proof (memory_AcquireLease w key limit ttl Hwf ltac:(lia)) as Ha.
  set (op := AcquireLease key limit ttl) in *. pose proof (memory_wf op w Hwf) as Hwf'.
  pose proof (fun key' (Hk : key' <> key) => lease_item_other op key' w Hwf ltac:(by intros [=])) as Ho.
  destruct (memory _ op w) as [r w']. cbn [snd] in *. destruct Ha as [-> Hit]. cbv zeta.
  rewrite (Z.ltb_antisym limit). destruct (limit <=? vi_value (lease_item w key)) eqn:E; zify_bool; cbn [negb].
  - split; [by eexists|]. split; [done|]. intros key'. rewrite decide_False by done. rewrite Z.add_0_r.
    destruct (decide (key' = key)) as [->|Hk]; [by rewrite Hit|by rewrite Ho].
  - split; [by eexists|]. split; [done|]. intros key'. destruct (decide (key' = key)) as [->|Hk].
    + rewrite Hit, decide_True by done. cbn [vi_value]. unwrap. lia.
    + rewrite Ho, decide_False by (done || congruence). lia.
Qed.

Lemma lease_limit_pos cfg : 0 < lease_limit cfg.
Proof. unfold lease_limit. zcases. Qed.

Lemma no_more {A} (p : prog A) w : wf_store (w_store w) -> counts p -> one_more None w (run memory p w).2.
Proof. intros Hwf Hp. split; [by apply run_wf|]. intros key. by rewrite run_counting, decide_False, Z.add_0_r. Qed.

(** What an evaluation takes. *)
Lemma evaluate_one_more load wall req c w :
  wf_store (w_store w) -> (forall key, 0 <= vi_value (lease_item w key)) -> pick_fits load wall req c ->
  one_more (eval_slot load wall req c w) w (run memory (Engine.Evaluate visits e load wall req c).1 w).2.
Proof.
  intros Hwf Hv. unfold pick_fits, eval_slot, Engine.Evaluate. destruct (pickPolicy _ _ _ _ _ _) as [picked c']. cbn [fst].
  unfold evaluate_picked. destruct picked as [[[policy k]|]|err]; [|intros _; by apply no_more..]. intros Hfit.
  rewrite He. destruct (String.eqb (cfg_Type (pol_Algorithm policy)) AlgoConcurrency) eqn:Ety.
  - apply String.eqb_eq in Ety. rewrite Ety. change (defaultAlgorithms atomic loc AlgoConcurrency) with (Some Concurrency.Evaluate).
    cbn [andb]. rewrite run_bind. unfold Concurrency.Evaluate, try_bind. rewrite run_bind. unfold call. cbn [run].
    pose proof (acquire_one_more w (leaseKey k) _ (lease_ttl (pol_Algorithm policy)) Hwf (Hv _) (conj (lease_limit_pos _) Hfit)) as Ha.
    destruct (memory _ _ w) as [r w1]. destruct Ha as [(current & ->) Ha]. destruct (_ <? _); [done|].
    destruct Ha as [Hwf1 Ha]. destruct (no_more (OverLimitDecision policy (100 * Millisecond) 0 "concurrency_limit_exceeded") w1 Hwf1
      (counts_over _ _ _ _)) as [Hwf2 Hb]. rewrite run_bind. destruct (run memory (OverLimitDecision _ _ _ _) w1) as [d w2].
    split; [done|]. intros key. cbn [run snd]. by rewrite Hb, Ha, decide_False, !Z.add_0_r.
  - apply String.eqb_neq in Ety. cbn [andb]. destruct (defaultAlgorithms _ _ _) as [alg|] eqn:Ea; [|by apply no_more].
    apply no_more; [done|]. apply counts_map. by eapply algorithm_counts.
Qed.

(** The slots taken on a key since [st0], of which [loose] have no lease: never more than
    are registered, and as many unless some have expired. *)
Definition accounted (st0 : LeaseState World) (key : string) (loose : Z) (exact : Prop) (st : LeaseState World) : Prop :=
  let owed := slots st0 key + leases_on key (ls_items st) + loose in
  0 <= slots st key <= owed /\ (exact -> slots st key = owed).

Definition sound (st : LeaseState World) : Prop := wf_store (w_store (ls_world st)) /\ forall key, 0 <= slots st key.

Lemma one_more_sound taken st items c w' : sound st -> one_more taken (ls_world st) w' -> sound (Build_LeaseState items c w').
Proof.
  intros [Hwf H0] [Hwf' Hm]. split; [done|]. intros key. unfold slots. cbn [ls_world]. rewrite Hm. specialize (H0 key). unfold slots in H0.
  case_decide; lia.
Qed.

(** A call that takes the slot of [taken] and registers [fn]. *)
Lemma one_more_accounted st0 key loose exact st taken items c w' n :
  accounted st0 key loose exact st -> one_more taken (ls_world st) w' ->
  leases_on key items + n = leases_on key (ls_items st) + (if decide (taken = Some key) then 1 else 0) ->
  accounted st0 key (loose + n) exact (Build_LeaseState items c w').
Proof.
  intros [Hle Heq] [_ Hm] Hn. unfold accounted, slots in *. cbn [ls_world ls_items]. rewrite Hm. cbv zeta in *.
  destruct (decide (taken = Some key)); split; [lia|intros Hx; rewrite Heq by done; lia|lia|intros Hx; rewrite Heq by done; lia].
Qed.

(** What [Acquire] does to the registry and to the slots. *)
Lemma acquire_effect load t wall wall' t' m st :
  sound st -> call_fits (CallAcquire load t wall wall' t' m) st -> ls_items st !! lease_id t' = None ->
  exists taken items c w', (Acquire memory visits e load t wall wall' t' m st).2 = Build_LeaseState items c w' /\
    one_more taken (ls_world st) w' /\
    (forall key, leases_on key items + (if decide (slot_unleased (CallAcquire load t wall wall' t' m) st = Some key) then 1 else 0) =
      leases_on key (ls_items st) + (if decide (taken = Some key) then 1 else 0)) /\
    (items = ls_items st \/ exists fn, items = <[lease_id t' := fn]> (ls_items st)).
Proof.
  intros [Hwf H0] [Hf1 Hf2] Hnew. unfold pick_fits at 1 in Hf1. unfold slot_unleased, Acquire, client_StartConcurrencyLease, StartConcurrencyLease.
  set (req := stamped t (acquire_context m)) in *. destruct (pickPolicy _ _ _ wall _ _) as [[[[policy k]|]|err] c']; cbn [fst snd] in *.
  2-3: eexists None, _, _, _; split_and!; [done|by apply (no_more (Ret tt))| |right; by eexists];
    intros key; rewrite leases_on_insert by done; rewrite !decide_False by done; lia.
  destruct (String.eqb (cfg_Type (pol_Algorithm policy)) AlgoConcurrency); cbn [negb].
  - unfold call, mbind, prog_mbind. cbn [prog_bind run].
    pose proof (acquire_one_more (ls_world st) (leaseKey k) _ (lease_ttl (pol_Algorithm policy)) Hwf (H0 _) (conj (lease_limit_pos _) Hf1)) as Ha.
    destruct (memory _ _ (ls_world st)) as [r w']. destruct Ha as [(current & ->) Ha].
    exists (if vi_value (lease_item (ls_world st) (leaseKey k)) <? lease_limit (pol_Algorithm policy) then Some (leaseKey k) else None).
    destruct (_ <? _); cbn [mret prog_mret run lease_decision dec_Allowed orb grpc_put]; [|destruct (String.eqb _ _); cbn [grpc_put]].
    1-2: eexists _, _, _; split_and!; [done|done| |right; by eexists]; intros key; rewrite leases_on_insert by done;
      rewrite (decide_False (P := None = Some key)) by done; lia.
    eexists _, _, _; split_and!; [done|done| |by left]. intros key. rewrite !decide_False by done. lia.
  - pose proof (evaluate_one_more load wall' req c' (ls_world st) Hwf H0 Hf2) as Hev.
    destruct (Engine.Evaluate _ _ _ _ _ _) as [p c'']. cbn [fst] in Hev. rewrite run_bind. destruct (run memory p (ls_world st)) as [d w'].
    cbn [mret prog_mret run snd] in *. exists (eval_slot load wall' req c' (ls_world st)).
    destruct (dec_Allowed d); cbn [grpc_put]; eexists _, _, _; (split_and!; [done|done| |by eauto]); intros key; [|done].
    rewrite leases_on_insert, (decide_False (P := None = Some key)) by done. lia.
Qed.

(** What [Release] does to the slots of a key. *)
Lemma release_effect st id : sound st -> sound (Release memory id st).2 /\
  forall st0 key loose exact, 0 <= slots st0 key -> 0 <= loose -> accounted st0 key loose exact st ->
    accounted st0 key loose exact (Release memory id st).2.
Proof.
  intros [Hwf H0]. unfold Release, pop. destruct (ls_items st !! id) as [[key|]|] eqn:Ei; [..|done].
  2: { split; [done|]. intros st0 key loose exact _ _ [Hle Heq]. unfold accounted, slots in *. cbn [snd ls_world ls_items].
       rewrite (leases_on_delete key id None) by done. rewrite decide_False, Z.sub_0_r by done. done. }
  unfold call. cbn [run]. pose proof (memory_ReleaseLease (ls_world st) key Hwf) as Ha.
  pose proof (memory_wf (ReleaseLease key) (ls_world st) Hwf) as Hwf'.
  pose proof (fun key' (Hk : key' <> key) => lease_item_other (ReleaseLease key) key' (ls_world st) Hwf ltac:(by intros [=])) as Ho.
  destruct (memory _ _ _) as [r w']. destruct Ha as [-> Hit]. cbn [snd] in *. split.
  - split; [done|]. intros key'. specialize (H0 key'). unfold slots in *. cbn [ls_world].
    destruct (decide (key' = key)) as [->|Hk]; [rewrite Hit; cbn [vi_value]; zcases|by rewrite Ho].
  - intros st0 key' loose exact Hs0 Hl [Hle Heq]. unfold accounted, slots in *. cbn [ls_world ls_items]. cbv zeta in *.
    rewrite (leases_on_delete key' id (Some key)) by done. pose proof (leases_on_pos key' (delete id (ls_items st))) as Hp.
    rewrite (leases_on_delete key' id (Some key)) in Hp by done. destruct (decide (Some key = Some key')) as [[= <-]|Hk].
    + rewrite Hit. cbn [vi_value]. split; [zcases|]. intros Hx. specialize (Heq Hx). rewrite (proj2 (Z.ltb_lt 0 _)) by lia. lia.
    + rewrite Ho by congruence. by rewrite Z.sub_0_r.
Qed.

(** Time and the collector. *)
Lemma elapse_lease d w key :
  let w' := {| w_clock := w_clock w + Z.max 0 d; w_store := w_store w |} in wf_store (w_store w) ->
  (lease_item w' key = lease_item w key \/ lease_item w' key = zeroItem) /\
  (vi_expiry (lease_item w key) = zeroTime \/ w_clock w + Z.max 0 d <= vi_expiry (lease_item w key) ->
    lease_item w' key = lease_item w key).
Proof.
  intros w' Hwf. assert (Hs : env_step w w') by (apply env_tick; lia). split; [by apply env_step_lease_or_zero|]. exact (env_step_lease w w' key Hwf Hs).
Qed.

Lemma collect_lease w key : wf_store (w_store w) ->
  lease_item {| w_clock := w_clock w; w_store := MemoryStore.sweep (w_clock w) (w_store w) |} key = lease_item w key.
Proof. intros Hwf. unfold lease_item. cbn [w_clock w_store]. rewrite sweep_view by done. by apply sweepShard_alike. Qed.

Definition fresh (c : rpc) (st : LeaseState World) : Prop :=
  match c with CallAcquire _ _ _ _ t' _ => ls_items st !! lease_id t' = None | _ => True end.

Lemma step_accounted c st : sound st -> call_fits c st -> fresh c st -> sound (rpc_step st c) /\
  forall st0 key loose exact, 0 <= slots st0 key -> 0 <= loose -> accounted st0 key loose exact st ->
    accounted st0 key (loose + if decide (slot_unleased c st = Some key) then 1 else 0) (exact /\ keeps key c st) (rpc_step st c).
Proof.
  intros Hst Hf Hnew. pose proof Hst as [Hwf H0]. destruct c as [load t wall m|load t wall wall' t' m|id|d|]; cbn [rpc_step keeps slot_unleased].
  - cbn [call_fits] in Hf. unfold CheckLimit, client_Evaluate.
    pose proof (evaluate_one_more load wall (stamped t (check_context m)) (ls_cache st) (ls_world st) Hwf H0 Hf) as Hev.
    destruct (Engine.Evaluate _ _ _ _ _ _) as [p c]. cbn [fst] in Hev. destruct (run memory p (ls_world st)) as [d w']. cbn [snd] in *.
    split; [by eapply one_more_sound|]. intros st0 key loose exact _ _ [Hle Heq].
    apply (one_more_accounted _ _ _ _ st (eval_slot load wall (stamped t (check_context m)) (ls_cache st) (ls_world st))); [|done|lia].
    split; [done|]. intros [Hx _]. by apply Heq.
  - destruct (acquire_effect load t wall wall' t' m st Hst Hf Hnew) as (taken & items & c & w' & -> & Hm & Hn & _).
    split; [by eapply one_more_sound|]. intros st0 key loose exact _ _ [Hle Heq].
    apply (one_more_accounted _ _ _ _ st taken); [|done|apply Hn]. split; [done|]. intros [Hx _]. by apply Heq.
  - destruct (release_effect st id Hst) as [Hs Ha]. split; [done|]. intros st0 key loose exact Hs0 Hl [Hle Heq].
    rewrite decide_False, Z.add_0_r by done. apply Ha; [done|done|]. split; [done|]. intros [Hx _]. by apply Heq.
  - split.
    + split; [done|]. intros key. specialize (H0 key). unfold slots in *. cbn [ls_world].
      destruct (elapse_lease d (ls_world st) key Hwf) as [[-> | ->] _]; [done|cbn; lia].
    + intros st0 key loose exact Hs0 Hl [Hle Heq]. pose proof (leases_on_pos key (ls_items st)). unfold accounted, slots in *. cbv zeta in *.
      cbn [ls_world ls_items]. rewrite decide_False, Z.add_0_r by done. destruct (elapse_lease d (ls_world st) key Hwf) as [Hor Hk]. split.
      * destruct Hor as [-> | ->]; [done|cbn [zeroItem vi_value]; lia].
      * intros [Hx Hkeep]. rewrite Hk by done. by apply Heq.
  - split.
    + split; [unfold wf_store in *; cbn; by rewrite length_fmap|]. intros key. specialize (H0 key). unfold slots in *. cbn [ls_world].
      by rewrite collect_lease.
    + intros st0 key loose exact _ _ [Hle Heq]. unfold accounted, slots in *. cbn [ls_world ls_items].
      rewrite decide_False, Z.add_0_r, collect_lease by done. split; [done|]. intros [Hx _]. by apply Heq.
Qed.

(** A call registers no id but its own. *)
Lemma step_ids c st id fn : sound st -> call_fits c st -> fresh c st -> ls_items (rpc_step st c) !! id = Some fn ->
  is_Some (ls_items st !! id) \/ id ∈ lease_id <$> instants [c].
Proof.
  intros Hst Hf Hnew. destruct c as [load t wall m|load t wall wall' t' m|i|d|]; cbn [rpc_step].
  - unfold CheckLimit. destruct (client_Evaluate _ _ _ _ _ _ _) as [p c], (run memory p _). cbn. eauto.
  - destruct (acquire_effect load t wall wall' t' m st Hst Hf Hnew) as (taken & items & c & w' & -> & _ & _ & [->|[fn' ->]]); cbn; [eauto|].
    intros [[<- _]|[_ Hs]]%lookup_insert_Some; [right; constructor|eauto].
  - unfold Release, pop, call. cbn [run]. destruct (ls_items st !! i) as [[k|]|]; [destruct (memory _ _ _)| |]; cbn; intros Hs; eauto.
    all: apply lookup_delete_Some in Hs as [_ Hs]; eauto.
  - cbn. eauto.
  - cbn. eauto.
Qed.

Lemma calls_accounted calls : forall st, sound st -> limits_fit calls st -> NoDup (lease_id <$> instants calls) ->
  (forall id, id ∈ lease_id <$> instants calls -> ls_items st !! id = None) ->
  forall st0 key loose exact, 0 <= slots st0 key -> 0 <= loose -> accounted st0 key loose exact st ->
    accounted st0 key (loose + unleased key calls st) (exact /\ none_expires key calls st) (foldl rpc_step st calls).
Proof.
  induction calls as [|c calls IH]; intros st Hst Hfit Hnd Hfresh st0 key loose exact Hs0 Hl Hacc; cbn [unleased none_expires foldl].
  - rewrite Z.add_0_r. destruct Hacc as [Hle Heq]. split; [done|]. intros [Hx _]. by apply Heq.
  - destruct Hfit as [Hf Hfit]. assert (Hi : instants (c :: calls) = instants [c] ++ instants calls) by (by destruct c).
    rewrite Hi, fmap_app in *. apply NoDup_app in Hnd as (_ & Hdisj & Hnd).
    assert (Hnew : fresh c st) by (destruct c; try done; apply Hfresh, elem_of_app; left; constructor).
    destruct (step_accounted c st Hst Hf Hnew) as [Hst' Ha]. set (n := if decide _ then 1 else 0) in *.
    assert (Hn : 0 <= n) by (unfold n; case_decide; lia). rewrite Z.add_assoc.
    destruct (IH (rpc_step st c) Hst' Hfit Hnd) with (st0 := st0) (key := key) (loose := loose + n) (exact := exact /\ keeps key c st)
      as [Hle Heq]; [|done|lia|by apply Ha|split; [done|]; intros (Hx & Hk & Hne); by apply Heq].
    intros id Hid. destruct (ls_items (rpc_step st c) !! id) as [fn|] eqn:E; [|done]. exfalso.
    destruct (step_ids c st id fn Hst Hf Hnew E) as [[fn' Hs]|Hin]; [|by eapply Hdisj].
    rewrite Hfresh in Hs; [done|]. apply elem_of_app. by right.
Qed.

(** C28 (kind: invariant).  Slots are accounted for over gRPC.  After any sequence of calls of [CheckLimit], [Acquire] and
    [Release], time passing and the collector running between them, whatever policies apply: the slots taken on a
    key are at most those that were taken before, one for each lease of the registry on that key, and one for each
    call that took a slot and registered no lease ([slot_unleased]: [CheckLimit] on a policy that limits
    concurrency); and they are exactly that many as long as none expired.  Calls are served one after the other by the
    algorithms of the client on the memory store, the registry starts empty, limits have 64 bits, and no two
    acquisitions make their ids in the same nanosecond. *)
Theorem grpc_leases_accounted (calls : list rpc) (st : LeaseState World) (key : string) :
  wf_store (w_store (ls_world st)) -> ls_items st = ∅ -> (forall key, 0 <= slots st key) ->
  NoDup (UnixNano <$> instants calls) -> limits_fit calls st ->
  let st' := foldl rpc_step st calls in
  let owed := slots st key + leases_on key (ls_items st') + unleased key calls st in
  0 <= slots st' key <= owed /\ (none_expires key calls st -> slots st' key = owed).
Proof.
  intros Hwf Hemp H0 Hnd Hfit st' owed.
  destruct (calls_accounted calls st (conj Hwf H0) Hfit) with (st0 := st) (key := key) (loose := 0) (exact := True) as [Hle Heq].
  - unfold lease_id. rewrite (list_fmap_compose UnixNano (fun n => "grpc-lease-" +:+ FormatInt n)).
    apply NoDup_fmap_2; [|done]. intros a b E%str_app_inj_l%FormatInt_inj. done.
  - intros id _. rewrite Hemp. apply lookup_empty.
  - done.
  - done.
  - unfold accounted. rewrite Hemp. unfold leases_on. rewrite map_filter_empty, map_size_empty. specialize (H0 key). split; [lia|]. intros _. lia.
  - split; [done|]. intros Hne. by apply Heq.
Qed.
End Accounting.

(** ** internal/server/grpc.go: recovery *)

(** A call of a handler answers, or panics ([None]). *)
Definition grpcRecoveryUnary {Req Resp St} (handler : Req -> St -> option (result Resp) * St) (req : Req) (s : St)
    : result Resp * St :=
  match handler req s with
  | (Some r, s') => (r, s')
  | (None, s') => (Err "internal error", s')
  end.

Definition grpcRecoveryStream {Stream St} (handler : Stream -> St -> option (result unit) * St) (ss : Stream) (s : St)
    : result unit * St :=
  match handler ss s with
  | (Some r, s') => (r, s')
  | (None, s') => (Err "internal error", s')
  end.

(** [grpcHealthCheck] of cmd/rlaas-server. *)
Definition grpcHealthCheck : result Z := Ok 1.

(** ** Examples *)

Definition demo_acquire : AcquireRequest := {| aq_request_id := ""; aq_org_id := ""; aq_tenant_id := ""; aq_operation := "" |}.
Definition demo_check : CheckLimitRequest :=
  {| ck_request_id := ""; ck_org_id := ""; ck_tenant_id := ""; ck_signal_type := ""; ck_operation := ""; ck_endpoint := "";
     ck_method := ""; ck_user_id := ""; ck_api_key := "" |}.

Definition acquire_at (t : Time) : rpc := CallAcquire load_lease t t t t demo_acquire.
Definition check_at (t : Time) : rpc := CallCheck load_lease t t demo_check.

(** A policy of two slots: two acquisitions, a third that is refused, a release, and a
    check that takes the slot again. *)
Definition demo_calls : list rpc :=
  [acquire_at 1000; Elapse 1000; acquire_at 2000; acquire_at 3000; CallRelease (lease_id 1000); CallRelease "unknown"; Collect; check_at 4000].

Lemma grpc_leases_accounted_witness :
  let st := foldl (rpc_step map_to_list demo_engine) lease_start demo_calls in
  slots st (leaseKey "rlaas") = slots lease_start (leaseKey "rlaas") + leases_on (leaseKey "rlaas") (ls_items st) +
    unleased map_to_list demo_engine (leaseKey "rlaas") demo_calls lease_start /\
  slots st (leaseKey "rlaas") = 2 /\ leases_on (leaseKey "rlaas") (ls_items st) = 1.
Proof.
  intros st. split; [|by vm_compute].
  apply (grpc_leases_accounted map_to_list demo_engine true 0 eq_refl demo_calls lease_start (leaseKey "rlaas")).
  - by apply NewSharded_wf.
  - done.
  - intros key. unfold slots, lease_item, lease_start, lease_world. cbn [ls_world w_store w_clock]. by rewrite NewSharded_view.
  - apply (bool_decide_unpack _). by vm_compute.
  - by vm_compute.
  - vm_compute. repeat split. by right.
Defined.

(** Two acquisitions in the same nanosecond get the same id: both slots are taken, one
    lease is registered, and releasing it frees one slot only. *)
Example grpc_same_nanosecond :
  let st := foldl (rpc_step map_to_list demo_engine) lease_start [acquire_at 1000; acquire_at 1000; CallRelease (lease_id 1000)] in
  slots st (leaseKey "rlaas") = 1 /\ ls_items st = ∅.
Proof. by vm_compute. Qed.

(** [CheckLimit] on a policy that limits concurrency takes slots and registers nothing:
    after two checks the operation is refused, and no call gives the slots back. *)
Example check_takes_slot :
  let st := foldl (rpc_step map_to_list demo_engine) lease_start [check_at 1000; check_at 2000] in
  slots st (leaseKey "rlaas") = 2 /\ ls_items st = ∅ /\
  ar_Allowed (Acquire memory map_to_list demo_engine load_lease 3000 3000 3000 3000 demo_acquire st).1 = false.
Proof. by vm_compute. Qed.

(** After its two minutes of life the slot is free while the lease is still registered. *)
Example lease_outlives_slot :
  let st := foldl (rpc_step map_to_list demo_engine) lease_start [acquire_at 1000; Elapse (3 * Minute)] in
  slots st (leaseKey "rlaas") = 0 /\ leases_on (leaseKey "rlaas") (ls_items st) = 1.
Proof. by vm_compute. Qed.
