(* ===== verification/Metrics.v ===== *)
(** * internal/metrics: the collector and the exposition of /metrics

    [Histogram] counts observations in buckets and reads percentiles back;
    [Collector] counts decisions, by tenant and by policy up to a number of distinct
    keys.  The counters are atomic and callers run concurrently: [RecordDecision] is
    the sequence of its atomic actions, which [m_turn] interleaves.  [Load]s of a
    scrape are taken of one state. *)

From Stdlib Require Import Ascii String SpecFloat.
From S2P Require Import Prelude GoString GoFloat GoTime Rounding Http.
Local Open Scope Z_scope.
Local Open Scope stdpp_scope.
Local Open Scope go_scope.

(** ** Go's sort and math *)

(** The order of [sort.Float64s]: NaNs come first. *)
Definition float_less (x y : float64) : bool := fltb x y || (is_nan x && negb (is_nan y)).
Definition Float64s (l : list float64) : list float64 := sort_by float_less l.

(** The loop of [sort.Search]: [j - i] falls with every turn. *)
Fixpoint search_loop (fuel : nat) (f : nat -> bool) (i j : nat) : nat :=
  match fuel with
  | O => i
  | S fuel =>
      if (i <? j)%nat then
        let h := ((i + j) / 2)%nat in
        if f h then search_loop fuel f i h else search_loop fuel f (S h) j
      else i
  end.
Definition sort_Search (n : nat) (f : nat -> bool) : nat := search_loop n f 0 n.

Definition SearchFloat64s (a : list float64) (x : float64) : nat :=
  sort_Search (length a) (fun i => match a !! i with Some y => fleb x y | None => false end).

(** [math.Ceil]. *)
Definition math_Ceil (x : float64) : float64 :=
  match x with
  | S754_finite s m e =>
      if 0 <=? e then x
      else
        let q := - ((if s then Zpos m else - Zpos m) / 2 ^ (- e)) in
        if q =? 0 then S754_zero s else binary_normalize prec emax q 0 s
  | _ => x
  end.

(** ** Histogram *)

Record Histogram := {
  hist_bounds : list float64; hist_counts : list int64; hist_sum : int64; hist_total : int64
}.

Definition NewHistogram (bounds : list float64) : Histogram :=
  {| hist_bounds := Float64s bounds; hist_counts := replicate (S (length bounds)) 0; hist_sum := 0; hist_total := 0 |}.

(** The three atomic additions of [Observe]. *)
Definition add_bucket (v : float64) (h : Histogram) : Histogram :=
  {| hist_bounds := hist_bounds h;
     hist_counts := alter (fun n => n +! 1) (SearchFloat64s (hist_bounds h) v) (hist_counts h);
     hist_sum := hist_sum h; hist_total := hist_total h |}.
Definition add_sum (v : float64) (h : Histogram) : Histogram :=
  {| hist_bounds := hist_bounds h; hist_counts := hist_counts h;
     hist_sum := hist_sum h +! int64_of_float v; hist_total := hist_total h |}.
Definition add_observed (h : Histogram) : Histogram :=
  {| hist_bounds := hist_bounds h; hist_counts := hist_counts h;
     hist_sum := hist_sum h; hist_total := hist_total h +! 1 |}.

Definition Observe (v : float64) (h : Histogram) : Histogram := add_observed (add_sum v (add_bucket v h)).

Definition percentile_target (total : int64) (p : float64) : int64 :=
  int64_of_float (math_Ceil (fdiv (fmul (float_of_Z total) p) (float_of_Z 100))).

(** The loop over the bounds. *)
Fixpoint percentile_loop (target cum : int64) (bounds : list float64) (counts : list int64) : option float64 :=
  match bounds, counts with
  | b :: bounds, n :: counts =>
      let cum := cum +! n in
      if target <=? cum then Some b else percentile_loop target cum bounds counts
  | _, _ => None
  end.

Definition Percentile (h : Histogram) (p : float64) : float64 :=
  if hist_total h =? 0 then fzero
  else
    match percentile_loop (percentile_target (hist_total h) p) 0 (hist_bounds h) (hist_counts h) with
    | Some b => b
    | None => default fzero (last (hist_bounds h))
    end.

(** ** Collector *)

Definition maxCardinalityPerMap : Z := 10000.

Record Collector := {
  DecisionsTotal : int64; DecisionsAllowed : int64; DecisionsDenied : int64; DecisionsShadow : int64;
  PolicyCacheHit : int64; PolicyCacheMiss : int64;
  BackendFailOpen : int64; BackendFailClosed : int64; CounterStoreErrors : int64;
  latency : Histogram;
  tenantAllowed : gmap string int64; tenantDenied : gmap string int64;
  policyAllowed : gmap string int64; policyDenied : gmap string int64
}.

Definition latencyBounds : list Z := [50; 100; 250; 500; 1000; 2500; 5000; 10000; 25000; 50000; 100000].

Definition New : Collector :=
  {| DecisionsTotal := 0; DecisionsAllowed := 0; DecisionsDenied := 0; DecisionsShadow := 0;
     PolicyCacheHit := 0; PolicyCacheMiss := 0;
     BackendFailOpen := 0; BackendFailClosed := 0; CounterStoreErrors := 0;
     latency := NewHistogram (float_of_Z <$> latencyBounds);
     tenantAllowed := ∅; tenantDenied := ∅; policyAllowed := ∅; policyDenied := ∅ |}.

(** The collector with its decision counters and its histogram replaced. *)
Definition with_totals (total allowed denied : int64) (h : Histogram) (c : Collector) : Collector :=
  {| DecisionsTotal := total; DecisionsAllowed := allowed; DecisionsDenied := denied;
     DecisionsShadow := DecisionsShadow c; PolicyCacheHit := PolicyCacheHit c; PolicyCacheMiss := PolicyCacheMiss c;
     BackendFailOpen := BackendFailOpen c; BackendFailClosed := BackendFailClosed c;
     CounterStoreErrors := CounterStoreErrors c; latency := h;
     tenantAllowed := tenantAllowed c; tenantDenied := tenantDenied c;
     policyAllowed := policyAllowed c; policyDenied := policyDenied c |}.

Definition with_latency (h : Histogram) (c : Collector) : Collector :=
  with_totals (DecisionsTotal c) (DecisionsAllowed c) (DecisionsDenied c) h c.

(** The dimensions, each with a map of the allowed and one of the denied decisions. *)
Inductive dimension := Tenant | Policy_.
#[export] Instance dimension_eq_dec : EqDecision dimension.
Proof. solve_decision. Defined.

Definition counter_map (d : dimension) (allowed : bool) (c : Collector) : gmap string int64 :=
  match d, allowed with
  | Tenant, true => tenantAllowed c | Tenant, false => tenantDenied c
  | Policy_, true => policyAllowed c | Policy_, false => policyDenied c
  end.

Definition with_map (d : dimension) (allowed : bool) (m : gmap string int64) (c : Collector) : Collector :=
  {| DecisionsTotal := DecisionsTotal c; DecisionsAllowed := DecisionsAllowed c;
     DecisionsDenied := DecisionsDenied c; DecisionsShadow := DecisionsShadow c;
     PolicyCacheHit := PolicyCacheHit c; PolicyCacheMiss := PolicyCacheMiss c;
     BackendFailOpen := BackendFailOpen c; BackendFailClosed := BackendFailClosed c;
     CounterStoreErrors := CounterStoreErrors c; latency := latency c;
     tenantAllowed := match d, allowed with Tenant, true => m | _, _ => tenantAllowed c end;
     tenantDenied := match d, allowed with Tenant, false => m | _, _ => tenantDenied c end;
     policyAllowed := match d, allowed with Policy_, true => m | _, _ => policyAllowed c end;
     policyDenied := match d, allowed with Policy_, false => m | _, _ => policyDenied c end |}.

(** [tenantCounter] and [policyCounter]: whether the counter that is returned is the
    one of the map, or a throwaway.  Entries are never removed, so that the second
    lookup, under the write lock, settles what the first one missed. *)
Definition get_counter (d : dimension) (id : string) (allowed : bool) (c : Collector) : Collector * bool :=
  let m := counter_map d allowed c in
  match m !! id with
  | Some _ => (c, true)
  | None =>
      if maxCardinalityPerMap <=? Z.of_nat (size m) then (c, false)
      else (with_map d allowed (<[id := 0]> m) c, true)
  end.
Definition tenantCounter := get_counter Tenant.
Definition policyCounter := get_counter Policy_.

(** The atomic actions of [RecordDecision]. *)
Inductive atom :=
| AddTotal | AddBucket (v : float64) | AddSum (v : float64) | AddObserved
| AddAllowed | AddDenied
| GetCounter (d : dimension) (id : string) (allowed : bool)
| AddCounter (d : dimension) (id : string) (allowed : bool).

(** What an action does, and what it leaves to be done on the counter it found. *)
Definition perform (a : atom) (c : Collector) : Collector * list atom :=
  let total := DecisionsTotal c in
  let allowed := DecisionsAllowed c in
  let denied := DecisionsDenied c in
  match a with
  | AddTotal => (with_totals (total +! 1) allowed denied (latency c) c, [])
  | AddBucket v => (with_latency (add_bucket v (latency c)) c, [])
  | AddSum v => (with_latency (add_sum v (latency c)) c, [])
  | AddObserved => (with_latency (add_observed (latency c)) c, [])
  | AddAllowed => (with_totals total (allowed +! 1) denied (latency c) c, [])
  | AddDenied => (with_totals total allowed (denied +! 1) (latency c) c, [])
  | GetCounter d id b => let '(c', found) := get_counter d id b c in (c', if found then [AddCounter d id b] else [])
  | AddCounter d id b => (with_map d b (alter (fun n => n +! 1) id (counter_map d b c)) c, [])
  end.

Record Call := { call_tenant : string; call_policy : string; call_allowed : bool; call_latency : Duration }.

Definition record_atoms (k : Call) : list atom :=
  let v := float_of_Z (Microseconds (call_latency k)) in
  [AddTotal; AddBucket v; AddSum v; AddObserved; if call_allowed k then AddAllowed else AddDenied] ++
  (if String.eqb (call_tenant k) "" then [] else [GetCounter Tenant (call_tenant k) (call_allowed k)]) ++
  (if String.eqb (call_policy k) "" then [] else [GetCounter Policy_ (call_policy k) (call_allowed k)]).

(** [RecordDecision] of a caller that is not interrupted. *)
Definition perform_all (c : Collector) (a : atom) : Collector :=
  let '(c', next) := perform a c in foldl (fun c b => (perform b c).1) c' next.
Definition RecordDecision (tenantID policyID : string) (allowed : bool) (lat : Duration) (c : Collector) : Collector :=
  foldl perform_all c
    (record_atoms {| call_tenant := tenantID; call_policy := policyID; call_allowed := allowed; call_latency := lat |}).

Definition LatencyPercentile (c : Collector) (p : float64) : float64 := Percentile (latency c) p.

(** One turn of caller [i]. *)
Definition m_turn (s : Collector * list (list atom)) (i : nat) : Collector * list (list atom) :=
  let '(c, pool) := s in
  match pool !! i with
  | Some (a :: rest) => let '(c', next) := perform a c in (c', <[i := next ++ rest]> pool)
  | _ => s
  end.
Definition m_run (calls : list Call) (schedule : list nat) : Collector * list (list atom) :=
  foldl m_turn (New, record_atoms <$> calls) schedule.

(** ** Exposition *)

Section Exposition.
(** [%q] of fmt. *)
Context (Quote : string -> string).

Definition dquote : string := String "034" "".

Definition writeCounter (name : string) (val : int64) : string :=
  "# TYPE " +:+ name +:+ " counter" +:+ newline +:+ name +:+ " " +:+ FormatInt val +:+ newline.

(** [%.0f] of an integral bound. *)
Definition bound_text (b : float64) : string := FormatInt (default 0 (trunc_Z b)).

Definition bucket_line (le : string) (cum : int64) : string :=
  "rlaas_decision_latency_us_bucket{le=" +:+ dquote +:+ le +:+ dquote +:+ "} " +:+ FormatInt cum +:+ newline.

(** The cumulative counts of the buckets below each bound, and of all of them. *)
Fixpoint cumulative (cum : int64) (bounds : list float64) (counts : list int64) : list (option float64 * int64) :=
  match bounds, counts with
  | b :: bounds, n :: counts => (Some b, cum +! n) :: cumulative (cum +! n) bounds counts
  | [], n :: _ => [(None, cum +! n)]
  | _, [] => []
  end.

Definition writeHistogram (h : Histogram) : string :=
  "# HELP rlaas_decision_latency_us Decision evaluation latency in microseconds." +:+ newline +:+
  "# TYPE rlaas_decision_latency_us histogram" +:+ newline +:+
  foldr String.append ""
    ((fun '(b, cum) => bucket_line (match b with Some b => bound_text b | None => "+Inf" end) cum) <$>
       cumulative 0 (hist_bounds h) (hist_counts h)) +:+
  "rlaas_decision_latency_us_sum " +:+ FormatInt (hist_sum h) +:+ newline +:+
  "rlaas_decision_latency_us_count " +:+ FormatInt (hist_total h) +:+ newline.

(** [entries] are those of the map, in the order they are visited. *)
Definition writeDimensional (entries : list (string * int64)) (name label : string) : string :=
  match entries with
  | [] => ""
  | _ =>
      "# TYPE " +:+ name +:+ " counter" +:+ newline +:+
      foldr String.append ""
        ((fun '(k, v) => name +:+ "{" +:+ label +:+ "=" +:+ Quote k +:+ "} " +:+ FormatInt v +:+ newline) <$> entries)
  end.

(** The body of a scrape; [visit] is the order Go visits a map in. *)
Definition exposition (visit : gmap string int64 -> list (string * int64)) (c : Collector) : string :=
  writeCounter "rlaas_decisions_total" (DecisionsTotal c) +:+
  writeCounter "rlaas_decisions_allowed_total" (DecisionsAllowed c) +:+
  writeCounter "rlaas_decisions_denied_total" (DecisionsDenied c) +:+
  writeCounter "rlaas_decisions_shadow_total" (DecisionsShadow c) +:+
  writeCounter "rlaas_policy_cache_hits_total" (PolicyCacheHit c) +:+
  writeCounter "rlaas_policy_cache_misses_total" (PolicyCacheMiss c) +:+
  writeCounter "rlaas_backend_fail_open_total" (BackendFailOpen c) +:+
  writeCounter "rlaas_backend_fail_closed_total" (BackendFailClosed c) +:+
  writeCounter "rlaas_counter_store_errors_total" (CounterStoreErrors c) +:+
  writeHistogram (latency c) +:+
  writeDimensional (visit (tenantAllowed c)) "rlaas_tenant_decisions_allowed_total" "tenant_id" +:+
  writeDimensional (visit (tenantDenied c)) "rlaas_tenant_decisions_denied_total" "tenant_id" +:+
  writeDimensional (visit (policyAllowed c)) "rlaas_policy_decisions_allowed_total" "policy_id" +:+
  writeDimensional (visit (policyDenied c)) "rlaas_policy_decisions_denied_total" "policy_id".

Definition PrometheusHandler {St : Type} (visit : gmap string int64 -> list (string * int64)) (c : St -> Collector)
    (r : Request) (w : Writer) (s : St) : Writer * bool * St :=
  (Write (exposition visit (c s)) (set_header "Content-Type" "text/plain; version=0.0.4; charset=utf-8" w), false, s).
End Exposition.

(** ** Binary search and percentiles *)

Lemma search_loop_spec f n fuel i j :
  (forall a b, (a <= b < n)%nat -> f a = true -> f b = true) ->
  (j - i <= fuel)%nat -> (i <= j <= n)%nat ->
  (forall k, (k < i)%nat -> f k = false) -> (forall k, (j <= k < n)%nat -> f k = true) ->
  let r := search_loop fuel f i j in
  (r <= n)%nat /\ forall k, (k < n)%nat -> f k = (r <=? k)%nat.
Proof.
  intros Hm. revert i j. induction fuel as [|fuel IH]; intros i j Hf Hij Hlo Hhi; cbn [search_loop].
  { split; [lia|]. intros k Hk. destruct (Nat.leb_spec i k); [apply Hhi|apply Hlo]; lia. }
  destruct (Nat.ltb_spec i j) as [Hlt|Hge].
  - pose proof (Nat.div_mod (i + j) 2 ltac:(lia)). pose proof (Nat.mod_upper_bound (i + j) 2 ltac:(lia)).
    set (h := ((i + j) / 2)%nat) in *. destruct (f h) eqn:E; apply IH; try lia; try done.
    + intros k Hk. by apply (Hm h); [lia|].
    + intros k Hk. destruct (f k) eqn:Ek; [|done]. rewrite (Hm k h) in E; [done|lia|done].
  - split; [lia|]. intros k Hk. destruct (Nat.leb_spec i k); [apply Hhi|apply Hlo]; lia.
Qed.

(** Bounds that are increasing integers a float64 represents. *)
Definition bounds_ok (zs : list Z) : Prop := StronglySorted Z.lt zs /\ Forall (fun z => 0 < z < 2 ^ 53) zs.

Lemma float_le_small n b : 0 < b < 2 ^ 53 -> 0 <= n -> fleb (float_of_Z n) (float_of_Z b) = (n <=? b).
Proof.
  intros Hb Hn. rewrite fleb_not_gt, float_gt_small by (done || apply float_of_Z_number). by rewrite Z.leb_antisym.
Qed.

Lemma bounds_index zs i j a b :
  bounds_ok zs -> zs !! i = Some a -> zs !! j = Some b -> (i <= j)%nat -> a <= b.
Proof.
  intros [Hs _]. revert i j. induction Hs as [|z zs Hs IH Hz]; intros [|i] [|j] Hi Hj Hij; simplify_eq/=; try lia.
  - rewrite Forall_forall in Hz. apply Z.lt_le_incl, Hz, list_elem_of_lookup_2 with j, Hj.
  - apply (IH i j); [done..|lia].
Qed.

Lemma Float64s_sorted zs : bounds_ok zs -> Float64s (float_of_Z <$> zs) = float_of_Z <$> zs.
Proof.
  intros [Hs Hf]. apply sort_by_id. induction Hs as [|z zs Hs IH Hz]; [constructor|].
  apply Forall_cons in Hf as [Hz0 Hf]. cbn [fmap list_fmap]. constructor; [by apply IH|].
  apply Forall_fmap, Forall_forall. intros b Hb. rewrite Forall_forall in Hf, Hz. specialize (Hf b Hb). specialize (Hz b Hb).
  unfold not_after, float_less, compose. rewrite float_of_Z_number. change (fltb ?x ?y) with (fgtb y x).
  rewrite float_gt_small by lia. zcases.
Qed.

Definition bucket (zs : list Z) (n : Z) : nat := SearchFloat64s (float_of_Z <$> zs) (float_of_Z n).

(** The bucket of [n] is the number of bounds below [n]. *)
Lemma bucket_spec zs n :
  bounds_ok zs -> 0 <= n ->
  (bucket zs n <= length zs)%nat /\ forall k b, zs !! k = Some b -> (n <=? b) = (bucket zs n <=? k)%nat.
Proof.
  intros Hz Hn. unfold bucket, SearchFloat64s, sort_Search. rewrite length_fmap.
  set (f := fun i => _). assert (Hf : forall k b, zs !! k = Some b -> f k = (n <=? b)).
  { intros k b Hk. unfold f. rewrite list_lookup_fmap, Hk. cbn [fmap option_fmap option_map].
    apply float_le_small; [|done]. destruct Hz as [_ Hz]. rewrite Forall_lookup in Hz. by apply (Hz k). }
  destruct (search_loop_spec f (length zs) (length zs) 0 (length zs)) as [Hr Hk]; try lia.
  - intros a b Hab Ha. destruct (lookup_lt_is_Some_2 zs a) as [x Hx]; [lia|].
    destruct (lookup_lt_is_Some_2 zs b) as [y Hy]; [lia|]. rewrite (Hf a x Hx) in Ha. rewrite (Hf b y Hy).
    pose proof (bounds_index zs a b x y Hz Hx Hy ltac:(lia)). zify_bool. apply Z.leb_le. lia.
  - split; [done|]. intros k b Hb. rewrite <- (Hf k b Hb). apply Hk. by apply lookup_lt_Some in Hb.
Qed.

(** How many of [ns] fall below bucket [k]. *)
Definition below (zs : list Z) (ns : list Z) (k : nat) : Z :=
  Z.of_nat (length (filter (fun n => (bucket zs n < k)%nat) ns)).

Lemma below_snoc zs ns n k : below zs (ns ++ [n]) k = below zs ns k + (if decide (bucket zs n < k)%nat then 1 else 0).
Proof. unfold below. rewrite filter_app, length_app, filter_cons, filter_nil. case_decide; simpl; lia. Qed.

Lemma below_range zs ns k : 0 <= below zs ns k <= Z.of_nat (length ns).
Proof. unfold below. pose proof (filter_length_le (fun n => (bucket zs n < k)%nat) ns). lia. Qed.

Lemma below_0 zs ns : below zs ns 0 = 0.
Proof. induction ns as [|n ns IH] using rev_ind; [done|]. by rewrite below_snoc, IH, decide_False by lia. Qed.

Lemma below_bound zs ns k b :
  bounds_ok zs -> Forall (Z.le 0) ns -> zs !! k = Some b ->
  below zs ns (S k) = Z.of_nat (length (filter (fun n => n <= b) ns)).
Proof.
  intros Hz Hn Hk. unfold below. do 2 f_equal. induction Hn as [|n ns Hn _ IH]; [done|].
  rewrite !filter_cons, IH. destruct (bucket_spec zs n Hz Hn) as [_ Hb]. specialize (Hb k b Hk).
  do 2 case_decide; try done; exfalso; [|]; destruct (Nat.leb_spec (bucket zs n) k); zify_bool; lia.
Qed.

Definition observe_all (ns : list Z) (h : Histogram) : Histogram := foldl (fun h n => Observe (float_of_Z n) h) h ns.

(** The histogram counts every observation once, in its bucket. *)
Lemma observe_all_counts zs ns :
  bounds_ok zs -> Forall (Z.le 0) ns -> Z.of_nat (length ns) <= maxInt64 ->
  let h := observe_all ns (NewHistogram (float_of_Z <$> zs)) in
  hist_bounds h = float_of_Z <$> zs /\ hist_total h = Z.of_nat (length ns) /\
  length (hist_counts h) = S (length zs) /\
  forall k, (k <= length zs)%nat -> hist_counts h !! k = Some (below zs ns (S k) - below zs ns k).
Proof.
  intros Hz. induction ns as [|n ns IH] using rev_ind; intros Hn Hlen.
  { cbn [observe_all foldl NewHistogram hist_bounds hist_total hist_counts]. rewrite Float64s_sorted by done.
    rewrite length_replicate, length_fmap. split_and!; [done..|]. intros k Hk. apply lookup_replicate_2. lia. }
  apply Forall_app in Hn as [Hn Hn0]. apply Forall_singleton in Hn0. rewrite length_app in Hlen. cbn [length] in Hlen.
  destruct IH as (HB & HT & HL & HC); [done|lia|]. unfold observe_all in *. rewrite foldl_app. cbn [foldl].
  set (h := foldl _ _ ns) in *. unfold Observe, add_observed, add_sum, add_bucket. cbn [hist_bounds hist_total hist_counts].
  rewrite HB, HT, length_app, length_alter. cbn [length]. split_and!; [done| |done|].
  { rewrite wrap64_small by (unfold in_int64, minInt64; lia). lia. }
  intros k Hk. fold (bucket zs n). rewrite !below_snoc. pose proof (below_range zs ns (S k)). pose proof (below_range zs ns k).
  destruct (decide (k = bucket zs n)) as [->|Hne].
  - rewrite list_lookup_alter_eq, HC by done. cbn [fmap option_fmap option_map]. rewrite decide_True, decide_False by lia.
    f_equal. rewrite wrap64_small by (unfold in_int64, minInt64, maxInt64 in *; lia). lia.
  - rewrite list_lookup_alter_ne, HC by done. f_equal. do 2 case_decide; lia.
Qed.

Lemma percentile_loop_spec zs ns target bs cs k :
  Z.of_nat (length ns) <= maxInt64 ->
  (forall i, (i < length bs)%nat -> cs !! i = Some (below zs ns (S (k + i)) - below zs ns (k + i))) ->
  match percentile_loop target (below zs ns k) bs cs with
  | Some b => exists i, bs !! i = Some b /\ target <= below zs ns (S (k + i)) /\
      forall j, (j < i)%nat -> below zs ns (S (k + j)) < target
  | None => forall j, (j < length bs)%nat -> below zs ns (S (k + j)) < target
  end.
Proof.
  intros Hlen. revert cs k. induction bs as [|b bs IH]; intros cs k Hcs; cbn [percentile_loop length] in *; [intros; lia|].
  destruct cs as [|n cs]; [by specialize (Hcs 0%nat ltac:(lia))|].
  pose proof (Hcs 0%nat ltac:(lia)) as [= ->]. rewrite Nat.add_0_r.
  replace (wrap64 _) with (below zs ns (S k)).
  2: { pose proof (below_range zs ns (S k)). rewrite wrap64_small by (unfold in_int64, minInt64; lia). lia. }
  destruct (target <=? below zs ns (S k)) eqn:E; zify_bool.
  { exists 0%nat. rewrite Nat.add_0_r. split_and!; [done|done|intros; lia]. }
  specialize (IH cs (S k)). destruct (percentile_loop _ _ _ _) as [b'|].
  - destruct IH as (i & Hi & Ht & Hj).
    { intros i Hi. rewrite Nat.add_succ_comm. apply (Hcs (S i)). lia. }
    exists (S i). rewrite <- Nat.add_succ_comm. split_and!; [done|done|].
    intros [|j] Hj'; [by rewrite Nat.add_0_r|]. rewrite <- Nat.add_succ_comm. apply Hj. lia.
  - intros [|j] Hj; [by rewrite Nat.add_0_r|]. rewrite <- Nat.add_succ_comm. apply IH; [|lia].
    intros i Hi. rewrite Nat.add_succ_comm. apply (Hcs (S i)). lia.
Qed.

(** A percentile of a histogram with increasing integer bounds, after any observations
    of non-negative integers, is the least bound that at least as many observations as asked for do not exceed; when
    fewer than that are within the last bound, it is the last bound. *)
Theorem percentile_least_bound (zs ns : list Z) (p : float64) :
  bounds_ok zs -> zs <> [] -> ns <> [] -> Forall (Z.le 0) ns -> Z.of_nat (length ns) <= maxInt64 ->
  let h := observe_all ns (NewHistogram (float_of_Z <$> zs)) in
  let within b := Z.of_nat (length (filter (fun n => n <= b) ns)) in
  let target := percentile_target (Z.of_nat (length ns)) p in
  exists b, b ∈ zs /\ Percentile h p = float_of_Z b /\
    (forall b', b' ∈ zs -> b' < b -> within b' < target) /\
    (target <= within b \/ forall b', b' ∈ zs -> b' <= b /\ within b' < target).
Proof.
  intros Hz Hzs Hns Hn Hlen h within target.
  destruct (observe_all_counts zs ns Hz Hn Hlen) as (HB & HT & HL & HC). fold h in HB, HT, HL, HC.
  assert (Hw : forall k b, zs !! k = Some b -> below zs ns (S k) = within b) by (intros; by apply below_bound).
  pose proof (percentile_loop_spec zs ns target (hist_bounds h) (hist_counts h) 0 Hlen) as Hloop.
  rewrite below_0 in Hloop. unfold Percentile. rewrite HT. fold target. destruct (Z.eqb_spec (Z.of_nat (length ns)) 0).
  { by destruct ns. }
  rewrite HB in Hloop |- *. rewrite length_fmap in Hloop. destruct (percentile_loop _ _ _ _) as [x|].
  - destruct Hloop as (i & Hi & Ht & Hj); [intros; apply HC; lia|].
    rewrite list_lookup_fmap in Hi. destruct (zs !! i) as [b|] eqn:Eb; simplify_eq/=. rewrite (Hw i b Eb) in Ht.
    exists b. split_and!; [by apply list_elem_of_lookup_2 with i|done| |by left].
    intros b' Hb' Hlt. apply list_elem_of_lookup_1 in Hb' as [j Hb']. rewrite <- (Hw j b' Hb'). apply Hj.
    destruct (Nat.lt_ge_cases j i) as [|Hge]; [done|]. pose proof (bounds_index zs i j b b' Hz Eb Hb' Hge). lia.
  - specialize (Hloop (fun i Hi => HC i ltac:(lia))).
    assert (Hall : forall b', b' ∈ zs -> within b' < target).
    { intros b' Hb'. apply list_elem_of_lookup_1 in Hb' as [j Hb']. rewrite <- (Hw j b' Hb'). apply Hloop.
      by apply lookup_lt_Some in Hb'. }
    destruct (last zs) as [b|] eqn:El; [|by apply last_None in El]. exists b. rewrite fmap_last, El.
    apply last_Some in El as [zs' ->]. split_and!; [set_solver|done|by auto|].
    right. intros b' Hb'. split; [|by auto]. apply list_elem_of_lookup_1 in Hb' as [j Hb'].
    eapply (bounds_index _ j (length zs') b' b Hz Hb'); [by apply list_lookup_middle|].
    apply lookup_lt_Some in Hb'. rewrite length_app in Hb'. simpl in Hb'. lia.
Qed.

Lemma latencyBounds_ok : bounds_ok latencyBounds.
Proof. split; [repeat constructor|by repeat constructor]. Qed.

Lemma percentile_least_bound_witness :
  let ns := [40; 70; 80; 120; 600000] in
  Percentile (observe_all ns (NewHistogram (float_of_Z <$> latencyBounds))) (float_of_Z 60) = float_of_Z 100 /\
  exists b, b ∈ latencyBounds /\
    Percentile (observe_all ns (NewHistogram (float_of_Z <$> latencyBounds))) (float_of_Z 60) = float_of_Z b /\
    (forall b', b' ∈ latencyBounds -> b' < b -> Z.of_nat (length (filter (fun n => n <= b') ns)) < 3).
Proof.
  split; [by vm_compute|].
  destruct (percentile_least_bound latencyBounds [40; 70; 80; 120; 600000] (float_of_Z 60)) as (b & Hb & HP & Hlt & _);
    [apply latencyBounds_ok|done|done|by repeat constructor|by vm_compute|].
  exists b. split_and!; [done|done|]. intros b' H1 H2. by apply Hlt.
Defined.

(** ** Decisions are counted exactly *)

(** The counters that count calls. *)
Inductive gauge := GTotal | GAllowed | GDenied | GBucket (i : nat) | GObserved.

Definition gauge_read (g : gauge) (c : Collector) : Z :=
  match g with
  | GTotal => DecisionsTotal c | GAllowed => DecisionsAllowed c | GDenied => DecisionsDenied c
  | GBucket i => default 0 (hist_counts (latency c) !! i)
  | GObserved => hist_total (latency c)
  end.

Definition latency_bucket (v : float64) : nat := SearchFloat64s (float_of_Z <$> latencyBounds) v.

(** What an action adds to a gauge. *)
Definition gauge_weight (g : gauge) (a : atom) : Z :=
  match g, a with
  | GTotal, AddTotal | GAllowed, AddAllowed | GDenied, AddDenied | GObserved, AddObserved => 1
  | GBucket i, AddBucket v => if decide (latency_bucket v = i) then 1 else 0
  | _, _ => 0
  end.

Definition pending (weight : atom -> Z) (pool : list (list atom)) : Z :=
  sumZ ((fun prog => sumZ (weight <$> prog)) <$> pool).

Lemma pending_turn weight pool i a rest next :
  pool !! i = Some (a :: rest) ->
  pending weight (<[i := next ++ rest]> pool) = pending weight pool - weight a + sumZ (weight <$> next).
Proof.
  intros Hi. unfold pending. rewrite (sumZ_insert _ _ _ _ _ Hi). cbn [fmap list_fmap sumZ foldr].
  rewrite fmap_app, sumZ_app. unfold sumZ at 4. cbn [foldr]. lia.
Qed.

Lemma pending_nonneg weight pool : (forall a, 0 <= weight a) -> 0 <= pending weight pool.
Proof.
  intros Hw. apply sumZ_nonneg, Forall_fmap, Forall_true. intros prog. apply sumZ_nonneg, Forall_fmap, Forall_true. auto.
Qed.

Lemma pending_quiet weight pool : Forall (fun prog => prog = []) pool -> pending weight pool = 0.
Proof. unfold pending. induction 1 as [|prog pool -> _ IH]; [done|]. cbn [fmap list_fmap sumZ foldr]. done. Qed.

(** What [calls] add to a weight. *)
Definition issued (weight : atom -> Z) (calls : list Call) : Z := pending weight (record_atoms <$> calls).

(** The histogram keeps its shape, and a gauge moves by its weight. *)
Definition shaped (c : Collector) : Prop :=
  hist_bounds (latency c) = float_of_Z <$> latencyBounds /\ length (hist_counts (latency c)) = 12%nat.

Definition gauge_ok (g : gauge) : Prop := match g with GBucket i => (i < 12)%nat | _ => True end.

Lemma get_counter_latency d id b c c' found :
  get_counter d id b c = (c', found) ->
  latency c' = latency c /\ DecisionsTotal c' = DecisionsTotal c /\ DecisionsAllowed c' = DecisionsAllowed c /\
  DecisionsDenied c' = DecisionsDenied c.
Proof. unfold get_counter. destruct (counter_map d b c !! id); [|case_step]; by intros [= <- <-]. Qed.

Ltac perform_cases Hp :=
  match type of Hp with perform ?a ?c = _ =>
    destruct a as [|v|v| | | |d id b|d id b]; cbn [perform] in Hp;
      [..|let E := fresh "E" in destruct (get_counter d id b c) as [? found] eqn:E;
          destruct (get_counter_latency _ _ _ _ _ _ E) as (? & ? & ? & ?); destruct found|]; simplify_eq
  end.

Lemma perform_shaped a c c' next : shaped c -> perform a c = (c', next) -> shaped c'.
Proof.
  unfold shaped. intros [HB HL] Hp. perform_cases Hp; try done.
  - cbn [latency with_latency with_totals add_bucket hist_bounds hist_counts]. by rewrite length_alter.
  - by rewrite H.
  - by rewrite H.
Qed.

Lemma perform_gauge g a c c' next :
  shaped c -> gauge_ok g -> in_int64 (gauge_read g c) -> perform a c = (c', next) ->
  gauge_read g c' = wrap64 (gauge_read g c + gauge_weight g a) /\ sumZ (gauge_weight g <$> next) = 0.
Proof.
  intros [HB HL] Hg Hr Hp.
  assert (H0 : gauge_read g c = wrap64 (gauge_read g c + 0)) by (rewrite Z.add_0_r; by rewrite wrap64_small).
  perform_cases Hp; destruct g as [| | |i|]; cbn [gauge_weight gauge_read] in *;
    lazymatch goal with
    | |- context [decide _] => idtac
    | |- context [_ + 0] => split; [etrans; [|exact H0]; first [reflexivity|congruence|by destruct d, b]|done]
    | _ => split; [reflexivity|done]
    end.
  split; [|done]. cbn [latency with_latency with_totals add_bucket hist_counts]. rewrite HB. fold (latency_bucket v).
  destruct (lookup_lt_is_Some_2 (hist_counts (latency c)) i) as [n Hn]; [by rewrite HL|]. case_decide as Hd.
  - rewrite Hd, list_lookup_alter_eq, Hn. done.
  - rewrite list_lookup_alter_ne, Hn by done. by rewrite Hn in H0.
Qed.

(** Which calls a gauge counts. *)
Definition counted (g : gauge) (k : Call) : bool :=
  match g with
  | GTotal | GObserved => true
  | GAllowed => call_allowed k
  | GDenied => negb (call_allowed k)
  | GBucket i => bool_decide (latency_bucket (float_of_Z (Microseconds (call_latency k))) = i)
  end.

Definition call_key (d : dimension) (k : Call) : string :=
  match d with Tenant => call_tenant k | Policy_ => call_policy k end.

(** Which calls the counter of a key counts. *)
Definition keyed (d : dimension) (id : string) (b : bool) (k : Call) : bool :=
  bool_decide (call_key d k = id /\ id <> "" /\ call_allowed k = b).

Definition get_weight (d : dimension) (id : string) (b : bool) (a : atom) : Z :=
  match a with GetCounter d' id' b' => if decide (d' = d /\ id' = id /\ b' = b) then 1 else 0 | _ => 0 end.
Definition add_weight (d : dimension) (id : string) (b : bool) (a : atom) : Z :=
  match a with AddCounter d' id' b' => if decide (d' = d /\ id' = id /\ b' = b) then 1 else 0 | _ => 0 end.

Definition count_calls (P : Call -> bool) (calls : list Call) : Z := Z.of_nat (length (filter (fun k => P k = true) calls)).

Lemma issued_count (weight : atom -> Z) (P : Call -> bool) (calls : list Call) :
  (forall k, sumZ (weight <$> record_atoms k) = if P k then 1 else 0) -> issued weight calls = count_calls P calls.
Proof.
  intros Hk. unfold issued, pending. induction calls as [|k calls IH]; [done|].
  rewrite !fmap_cons, sumZ_cons, IH, Hk. unfold count_calls. rewrite filter_cons. destruct (P k); cbn [length decide]; case_decide; cbn [length]; done || lia.
Qed.

Lemma issued_gauge g calls : issued (gauge_weight g) calls = count_calls (counted g) calls.
Proof.
  apply issued_count. intros k. unfold record_atoms.
  destruct g, (call_allowed k) eqn:Ek, (String.eqb (call_tenant k) ""), (String.eqb (call_policy k) "");
    cbn [counted app fmap list_fmap gauge_weight sumZ foldr]; rewrite ?Ek; try done; by case_decide; case_bool_decide.
Qed.

Lemma issued_keyed d id b calls : issued (get_weight d id b) calls = count_calls (keyed d id b) calls.
Proof.
  apply issued_count. intros k. unfold record_atoms, keyed.
  destruct d; cbn [call_key];
    destruct (String.eqb_spec (call_tenant k) ""), (String.eqb_spec (call_policy k) "");
    cbn [app fmap list_fmap get_weight sumZ foldr]; destruct (call_allowed k);
    cbn [app fmap list_fmap get_weight sumZ foldr]; case_bool_decide; repeat case_decide; first [lia|intuition congruence].
Qed.

Lemma issued_added d id b calls : issued (add_weight d id b) calls = 0.
Proof.
  rewrite (issued_count _ (fun _ => false)).
  - unfold count_calls. induction calls as [|k calls IH]; [done|]. by rewrite filter_cons, decide_False.
  - intros k. unfold record_atoms.
    by destruct (call_allowed k), (String.eqb (call_tenant k) ""), (String.eqb (call_policy k) "").
Qed.

Lemma count_calls_range P calls : 0 <= count_calls P calls <= Z.of_nat (length calls).
Proof. unfold count_calls. pose proof (filter_length_le (fun k => P k = true) calls). lia. Qed.

Lemma count_calls_cons P k calls : count_calls P (k :: calls) = (if P k then 1 else 0) + count_calls P calls.
Proof. unfold count_calls. rewrite filter_cons. destruct (P k); case_decide; cbn [length]; done || lia. Qed.

Lemma count_calls_all calls : count_calls (fun _ => true) calls = Z.of_nat (length calls).
Proof. induction calls as [|k calls IH]; [done|]. rewrite count_calls_cons, IH. cbn [length]. lia. Qed.

Lemma count_calls_split calls : count_calls (counted GAllowed) calls + count_calls (counted GDenied) calls = Z.of_nat (length calls).
Proof.
  induction calls as [|k calls IH]; [done|]. rewrite !count_calls_cons. cbn [counted length].
  destruct (call_allowed k); cbn [negb]; lia.
Qed.

(** A map of a dimension: every key it has is counted exactly, up to what is pending,
    and a key it lacks has not been asked for, unless the map is full. *)
Definition dim_inv (calls : list Call) (d : dimension) (b : bool) (m : gmap string int64) (pool : list (list atom)) : Prop :=
  Z.of_nat (size m) <= maxCardinalityPerMap /\
  forall id,
    match m !! id with
    | Some n => 0 <= n /\ n + pending (add_weight d id b) pool + pending (get_weight d id b) pool = count_calls (keyed d id b) calls
    | None => pending (add_weight d id b) pool = 0 /\
        (Z.of_nat (size m) < maxCardinalityPerMap -> pending (get_weight d id b) pool = count_calls (keyed d id b) calls)
    end.

Definition gauge_inv (calls : list Call) (c : Collector) (pool : list (list atom)) : Prop :=
  forall g, gauge_ok g -> 0 <= gauge_read g c /\ gauge_read g c + pending (gauge_weight g) pool = count_calls (counted g) calls.

Definition m_inv (calls : list Call) (s : Collector * list (list atom)) : Prop :=
  let '(c, pool) := s in
  shaped c /\ gauge_inv calls c pool /\ forall d b, dim_inv calls d b (counter_map d b c) pool.

Lemma gauge_weight_nonneg g a : 0 <= gauge_weight g a.
Proof. destruct g, a; cbn [gauge_weight]; try case_decide; lia. Qed.
Lemma get_weight_nonneg d id b a : 0 <= get_weight d id b a.
Proof. destruct a; cbn [get_weight]; try case_decide; lia. Qed.
Lemma add_weight_nonneg d id b a : 0 <= add_weight d id b a.
Proof. destruct a; cbn [add_weight]; try case_decide; lia. Qed.

Lemma counter_map_with d b d' b' m c :
  counter_map d b (with_map d' b' m c) = if decide (d' = d /\ b' = b) then m else counter_map d b c.
Proof. case_decide as H; [destruct H as [-> ->]; by destruct d, b|]. destruct d, b, d', b'; naive_solver. Qed.

Lemma gauge_inv_turn calls c pool i a rest c' next :
  Z.of_nat (length calls) <= maxInt64 -> shaped c -> gauge_inv calls c pool ->
  pool !! i = Some (a :: rest) -> perform a c = (c', next) -> gauge_inv calls c' (<[i := next ++ rest]> pool).
Proof.
  intros Hlen Hs Hinv Hi Hp g Hg. destruct (Hinv g Hg) as [H0 Heq].
  rewrite (pending_turn _ _ _ _ _ next Hi). pose proof (count_calls_range (counted g) calls) as Hc.
  pose proof (pending_nonneg (gauge_weight g) pool (gauge_weight_nonneg g)) as Hpn.
  pose proof (pending_nonneg (gauge_weight g) (<[i := [] ++ rest]> pool) (gauge_weight_nonneg g)) as Hpn'.
  rewrite (pending_turn _ _ _ _ _ [] Hi) in Hpn'. cbn [fmap list_fmap sumZ foldr] in Hpn'.
  pose proof (gauge_weight_nonneg g a) as Hw.
  assert (Hr : in_int64 (gauge_read g c)) by (unfold in_int64, minInt64; lia).
  destruct (perform_gauge g a c c' next Hs Hg Hr Hp) as [-> ->].
  rewrite wrap64_small by (unfold in_int64, minInt64; lia). lia.
Qed.

(** An action that does not look up or add to a map leaves it alone. *)
Lemma dim_inv_other calls d b m pool i a rest next :
  dim_inv calls d b m pool -> pool !! i = Some (a :: rest) ->
  (forall id, get_weight d id b a = 0 /\ add_weight d id b a = 0) ->
  Forall (fun x => forall id, get_weight d id b x = 0 /\ add_weight d id b x = 0) next ->
  dim_inv calls d b m (<[i := next ++ rest]> pool).
Proof.
  intros [Hsz Hinv] Hi Ha Hn. split; [done|]. intros id. specialize (Hinv id). specialize (Ha id) as [Ha1 Ha2].
  rewrite !(pending_turn _ _ _ _ _ next Hi), Ha1, Ha2.
  assert (Hz : sumZ (get_weight d id b <$> next) = 0 /\ sumZ (add_weight d id b <$> next) = 0).
  { clear -Hn. induction Hn as [|x next Hx _ IH]; [done|]. destruct (Hx id) as [H1 H2]. cbn [fmap list_fmap sumZ foldr].
    rewrite H1, H2. exact IH. }
  destruct Hz as [-> ->]. destruct (m !! id); rewrite !Z.sub_0_r, !Z.add_0_r; done.
Qed.

Lemma weight_same (d : dimension) (id id' : string) (b : bool) :
  (if decide (d = d /\ id = id' /\ b = b) then 1 else 0) = if decide (id = id') then 1 else 0.
Proof. do 2 case_decide; intuition congruence. Qed.

(** What finding a counter leaves to be done. *)
Definition follow_up (d : dimension) (id : string) (b found : bool) : list atom := if found then [AddCounter d id b] else [].

Lemma pending_lookup d id b id' found pool i rest :
  pool !! i = Some (GetCounter d id b :: rest) ->
  let pool' := <[i := follow_up d id b found ++ rest]> pool in
  pending (get_weight d id' b) pool' = pending (get_weight d id' b) pool - (if decide (id = id') then 1 else 0) /\
  pending (add_weight d id' b) pool' =
    pending (add_weight d id' b) pool + (if found then if decide (id = id') then 1 else 0 else 0).
Proof.
  intros Hi pool'. unfold pool', follow_up. rewrite !(pending_turn _ _ _ _ _ _ Hi). destruct found; rewrite ?fmap_cons, ?sumZ_cons;
    cbn [get_weight add_weight fmap list_fmap sumZ foldr]; rewrite ?weight_same; lia.
Qed.

Lemma dim_inv_get calls d id b c c' found pool i rest :
  dim_inv calls d b (counter_map d b c) pool -> pool !! i = Some (GetCounter d id b :: rest) ->
  get_counter d id b c = (c', found) -> dim_inv calls d b (counter_map d b c') (<[i := follow_up d id b found ++ rest]> pool).
Proof.
  intros [Hsz Hinv] Hi Hg. unfold get_counter in Hg. set (m := counter_map d b c) in *.
  assert (Hp := fun id' => pending_lookup d id b id' found pool i rest Hi). cbn zeta in Hp.
  destruct (m !! id) as [n|] eqn:E; [|destruct (maxCardinalityPerMap <=? Z.of_nat (size m)) eqn:Ec]; injection Hg as <- <-; zify_bool.
  - fold m. split; [done|]. intros id'. specialize (Hinv id'). destruct (Hp id') as [-> ->].
    destruct (decide (id = id')) as [<-|]; [rewrite E in Hinv |- *; lia|]. by rewrite Z.sub_0_r, Z.add_0_r.
  - fold m. split; [done|]. intros id'. specialize (Hinv id'). destruct (Hp id') as [-> ->]. rewrite Z.add_0_r.
    destruct (decide (id = id')) as [<-|]; [rewrite E in Hinv |- *|by rewrite Z.sub_0_r]. split; [tauto|lia].
  - rewrite counter_map_with, decide_True by done. split; [rewrite map_size_insert_None by done; lia|].
    intros id'. pose proof (Hinv id') as H'. rewrite map_size_insert_None by done. destruct (Hp id') as [-> ->].
    destruct (decide (id = id')) as [<-|Hne].
    + rewrite lookup_insert_eq. rewrite E in H'. destruct H' as [-> H']. rewrite H' by lia. lia.
    + rewrite lookup_insert_ne, Z.sub_0_r, Z.add_0_r by done. destruct (m !! id'); [done|]. split; [tauto|]. intros. apply H'. lia.
Qed.

Lemma dim_inv_add calls d id b m pool i rest :
  Z.of_nat (length calls) <= maxInt64 ->
  dim_inv calls d b m pool -> pool !! i = Some (AddCounter d id b :: rest) ->
  dim_inv calls d b (alter (fun n => n +! 1) id m) (<[i := [] ++ rest]> pool).
Proof.
  intros Hlen [Hsz Hinv] Hi.
  assert (Hsize : size (alter (fun n => n +! 1) id m) = size m) by (rewrite <- !(size_dom (D := gset string)); by rewrite dom_alter_L).
  split; [by rewrite Hsize|]. intros id'. rewrite Hsize, !(pending_turn _ _ _ _ _ _ Hi).
  cbn [fmap list_fmap sumZ foldr get_weight add_weight]. rewrite weight_same.
  pose proof (Hinv id') as H'. destruct (decide (id = id')) as [<-|Hne].
  - rewrite lookup_alter_eq. pose proof (pending_nonneg (add_weight d id b) (<[i := [] ++ rest]> pool) (add_weight_nonneg _ _ _)) as Ha.
    pose proof (pending_nonneg (get_weight d id b) pool (get_weight_nonneg _ _ _)) as Hg.
    rewrite (pending_turn _ _ _ _ _ _ Hi) in Ha. cbn [fmap list_fmap sumZ foldr add_weight] in Ha.
    rewrite weight_same, decide_True in Ha by done. pose proof (count_calls_range (keyed d id b) calls) as Hc.
    destruct (m !! id) as [n|]; cbn [fmap option_fmap option_map]; [|lia].
    rewrite wrap64_small by (unfold in_int64, minInt64; lia). lia.
  - rewrite lookup_alter_ne by done. destruct (m !! id'); rewrite !Z.sub_0_r, !Z.add_0_r; done.
Qed.

Lemma get_counter_other d id b d' b' c c' found :
  get_counter d' id b' c = (c', found) -> ~ (d' = d /\ b' = b) -> counter_map d b c' = counter_map d b c.
Proof.
  unfold get_counter. intros Hg Hne. destruct (counter_map d' b' c !! id); [|case_step]; simplify_eq; try done.
  by rewrite counter_map_with, decide_False.
Qed.

Lemma dims_turn calls c pool i a rest c' next d b :
  Z.of_nat (length calls) <= maxInt64 -> dim_inv calls d b (counter_map d b c) pool ->
  pool !! i = Some (a :: rest) -> perform a c = (c', next) -> dim_inv calls d b (counter_map d b c') (<[i := next ++ rest]> pool).
Proof.
  intros Hlen Hinv Hi Hp.
  destruct a as [|v|v| | | |d' id b'|d' id b']; cbn [perform] in Hp;
    try (injection Hp as <- <-; replace (counter_map d b _) with (counter_map d b c) by (by destruct d, b);
         by apply (dim_inv_other calls d b _ pool i _ rest [] Hinv Hi)).
  - destruct (get_counter d' id b' c) as [c1 found] eqn:E. injection Hp as <- <-.
    destruct (decide (d' = d /\ b' = b)) as [[-> ->]|Hne]; [by eapply dim_inv_get|].
    rewrite (get_counter_other d id b d' b' c c1 found E Hne). apply (dim_inv_other _ _ _ _ _ _ _ _ _ Hinv Hi).
    + intros id'. split; [|done]. cbn [get_weight]. apply decide_False. intuition congruence.
    + destruct found; repeat constructor. cbn [add_weight]. apply decide_False. intuition congruence.
  - injection Hp as <- <-. rewrite counter_map_with. case_decide as Hd.
    + destruct Hd as [-> ->]. by apply (dim_inv_add calls d id b _ pool i rest).
    + apply (dim_inv_other _ _ _ _ _ _ _ _ [] Hinv Hi); [|constructor].
      intros id'. split; [done|]. cbn [add_weight]. apply decide_False. intuition congruence.
Qed.

Lemma m_inv_turn calls s i : Z.of_nat (length calls) <= maxInt64 -> m_inv calls s -> m_inv calls (m_turn s i).
Proof.
  intros Hlen Hinv. destruct s as [c pool]. unfold m_turn. destruct (pool !! i) as [[|a rest]|] eqn:Hi; [done| |done].
  destruct (perform a c) as [c' next] eqn:Hp. destruct Hinv as (Hs & Hg & Hd). split_and!.
  - by eapply perform_shaped.
  - by eapply gauge_inv_turn.
  - intros d b. by eapply dims_turn.
Qed.

Lemma m_inv_run calls schedule : Z.of_nat (length calls) <= maxInt64 -> m_inv calls (m_run calls schedule).
Proof.
  intros Hlen. unfold m_run. assert (H0 : m_inv calls (New, record_atoms <$> calls)).
  { split_and!; [by split; vm_compute| |].
    - intros g Hg. fold (issued (gauge_weight g) calls). rewrite issued_gauge.
      assert (gauge_read g New = 0) as ->; [|pose proof (count_calls_range (counted g) calls); lia].
      destruct g as [| | |k|]; try done. simpl in Hg. cbn [gauge_read]. do 12 (destruct k as [|k]; [done|]). lia.
    - intros d b. replace (counter_map d b New) with (∅ : gmap string int64) by (by destruct d, b). split; [done|].
      intros id. rewrite lookup_empty. fold (issued (add_weight d id b) calls). fold (issued (get_weight d id b) calls).
      by rewrite issued_added, issued_keyed. }
  revert H0. generalize (New, record_atoms <$> calls). induction schedule as [|i schedule IH]; intros s Hs; [done|].
  cbn [foldl]. by apply IH, m_inv_turn.
Qed.

(** *** Allowed and denied decisions never exceed the total *)

(** The total is counted first, and once. *)
Definition total_first (prog : list atom) : Prop :=
  match prog with
  | AddTotal :: rest => sumZ (gauge_weight GTotal <$> rest) = 0 /\
      1 <= sumZ (gauge_weight GAllowed <$> rest) + sumZ (gauge_weight GDenied <$> rest)
  | _ => sumZ (gauge_weight GTotal <$> prog) = 0
  end.

Lemma sum_weight_nonneg g prog : 0 <= sumZ (gauge_weight g <$> prog).
Proof. apply sumZ_nonneg, Forall_fmap, Forall_true. intros a. apply gauge_weight_nonneg. Qed.

Lemma total_first_turn a rest c c' next :
  total_first (a :: rest) -> perform a c = (c', next) -> total_first (next ++ rest).
Proof.
  intros Ht Hp. assert (Hz : sumZ (gauge_weight GTotal <$> next ++ rest) = 0).
  { rewrite fmap_app, sumZ_app. replace (sumZ (gauge_weight GTotal <$> next)) with 0.
    - destruct a; cbn [total_first fmap list_fmap sumZ foldr gauge_weight] in Ht; unfold sumZ; tauto || lia.
    - perform_cases Hp; done. }
  destruct (next ++ rest) as [|x prog]; [done|]. destruct x; try done.
  cbn [fmap list_fmap sumZ foldr gauge_weight] in Hz. pose proof (sum_weight_nonneg GTotal prog). unfold sumZ, fmap in *. lia.
Qed.

Lemma total_first_run calls schedule : Forall total_first (m_run calls schedule).2.
Proof.
  unfold m_run. assert (H0 : Forall total_first (New, record_atoms <$> calls).2).
  { apply Forall_fmap, Forall_true. intros k. unfold compose, record_atoms.
    by destruct (call_allowed k), (String.eqb (call_tenant k) ""), (String.eqb (call_policy k) ""). }
  revert H0. generalize (New, record_atoms <$> calls). induction schedule as [|i schedule IH]; intros s Hs; [done|].
  cbn [foldl]. apply IH. destruct s as [c pool]. unfold m_turn. destruct (pool !! i) as [[|a rest]|] eqn:Hi; [done| |done].
  destruct (perform a c) as [c' next] eqn:Hp. cbn [snd] in *. apply Forall_insert; [done|].
  eapply total_first_turn; [|done]. by rewrite Forall_lookup in Hs; apply (Hs i).
Qed.

Lemma pending_total pool : Forall total_first pool ->
  pending (gauge_weight GTotal) pool <= pending (gauge_weight GAllowed) pool + pending (gauge_weight GDenied) pool.
Proof.
  unfold pending. induction 1 as [|prog pool Hp _ IH]; [done|]. rewrite !fmap_cons, !sumZ_cons.
  enough (sumZ (gauge_weight GTotal <$> prog) <= sumZ (gauge_weight GAllowed <$> prog) + sumZ (gauge_weight GDenied <$> prog)) by lia.
  pose proof (sum_weight_nonneg GAllowed prog). pose proof (sum_weight_nonneg GDenied prog).
  destruct prog as [|[] prog]; cbn [total_first] in Hp; rewrite ?fmap_cons, ?sumZ_cons in *; cbn [gauge_weight] in *; lia.
Qed.

(** C26 (kind: invariant).  Whatever way the atomic additions of concurrent [RecordDecision] calls interleave, the
    allowed and the denied decisions together never exceed the total, and no dimension has more keys than the cap; and
    once all calls have returned, every decision is counted once in the total, on its side, in its latency bucket and
    under its tenant and its policy: a key of a dimension has its exact count, and a missing key has none unless the
    dimension is full. *)
Theorem metrics_exact (calls : list Call) (schedule : list nat) :
  Z.of_nat (length calls) <= maxInt64 ->
  let '(c, pool) := m_run calls schedule in
  DecisionsAllowed c + DecisionsDenied c <= DecisionsTotal c <= Z.of_nat (length calls) /\
  (forall d b, Z.of_nat (size (counter_map d b c)) <= maxCardinalityPerMap) /\
  (Forall (fun prog => prog = []) pool ->
    DecisionsTotal c = Z.of_nat (length calls) /\ hist_total (latency c) = Z.of_nat (length calls) /\
    DecisionsAllowed c = count_calls call_allowed calls /\
    DecisionsDenied c = count_calls (fun k => negb (call_allowed k)) calls /\
    (forall i, (i <= length latencyBounds)%nat ->
      hist_counts (latency c) !! i = Some (count_calls (counted (GBucket i)) calls)) /\
    forall d b id,
      match counter_map d b c !! id with
      | Some n => n = count_calls (keyed d id b) calls
      | None => Z.of_nat (size (counter_map d b c)) < maxCardinalityPerMap -> count_calls (keyed d id b) calls = 0
      end).
Proof.
  intros Hlen. pose proof (m_inv_run calls schedule Hlen) as Hinv. pose proof (total_first_run calls schedule) as Hord.
  destruct (m_run calls schedule) as [c pool]. destruct Hinv as ([_ HL] & Hg & Hd). cbn [snd] in Hord.
  apply pending_total in Hord. pose proof (count_calls_all calls) as Hall.
  pose proof (Hg GTotal I) as HT. pose proof (Hg GAllowed I) as HA. pose proof (Hg GDenied I) as HD.
  pose proof (Hg GObserved I) as HO. cbn [gauge_read counted] in *.
  change (count_calls (counted GTotal) calls) with (count_calls (fun _ => true) calls) in HT.
  change (count_calls (counted GObserved) calls) with (count_calls (fun _ => true) calls) in HO. rewrite Hall in HT, HO.
  pose proof (count_calls_split calls) as Hsplit.
  split_and!.
  - lia.
  - pose proof (pending_nonneg (gauge_weight GTotal) pool (gauge_weight_nonneg _)). lia.
  - intros d b. apply Hd.
  - intros Hq. rewrite !pending_quiet, !Z.add_0_r in * by done. split_and!; try tauto.
    + intros i Hi. assert (Hi' : (i < 12)%nat) by (cbn in Hi; lia). destruct (Hg (GBucket i) Hi') as [_ Hb].
      rewrite pending_quiet, Z.add_0_r in Hb by done. cbn [gauge_read] in Hb.
      destruct (lookup_lt_is_Some_2 (hist_counts (latency c)) i) as [n Hn]; [lia|]. rewrite Hn in Hb |- *. by f_equal.
    + intros d b id. destruct (Hd d b) as [_ Hid]. specialize (Hid id). rewrite !pending_quiet in Hid by done.
      destruct (counter_map d b c !! id); [lia|]. intros Hsz. destruct Hid as [_ Hid]. by rewrite <- Hid.
Qed.

Definition two_calls : list Call :=
  [{| call_tenant := "t1"; call_policy := "p1"; call_allowed := true; call_latency := 100 * Microsecond |};
   {| call_tenant := "t1"; call_policy := ""; call_allowed := false; call_latency := 700 * Microsecond |}].

(** The two callers take turns. *)
Definition alternate : list nat := mjoin (replicate 10 [0%nat; 1%nat]).

(** Both callers have returned. *)
Lemma alternate_done : (m_run two_calls alternate).2 = [[]; []].
Proof. by vm_compute. Qed.

Lemma metrics_exact_witness : exists c,
  m_run two_calls alternate = (c, [[]; []]) /\ DecisionsTotal c = 2 /\
  forall n, tenantDenied c !! "t1" = Some n -> n = count_calls (keyed Tenant "t1" false) two_calls.
Proof.
  pose proof (metrics_exact two_calls alternate ltac:(apply Z.leb_le; reflexivity)) as H. pose proof alternate_done as E.
  destruct (m_run two_calls alternate) as [c pool]. exists c. cbn [snd] in E. subst pool.
  destruct H as (_ & _ & H). specialize (H ltac:(by repeat constructor)). destruct H as (-> & _ & _ & _ & _ & Hk).
  split_and!; [done|done|]. intros n Hn. specialize (Hk Tenant false "t1"). cbn [counter_map] in Hk. by rewrite Hn in Hk.
Defined.

(** ** Examples *)

(** Two callers that took turns. *)
Example turns_counted :
  let c := (m_run two_calls alternate).1 in
  tenantDenied c !! "t1" = Some 1 /\ tenantAllowed c !! "t1" = Some 1 /\ LatencyPercentile c (float_of_Z 50) = float_of_Z 100.
Proof. by vm_compute. Qed.

Definition quote_plain (s : string) : string := dquote +:+ s +:+ dquote.

(** A scrape after one decision. *)
Example scrape_tenant :
  let c := RecordDecision "t1" "" true (100 * Microsecond) New in
  writeDimensional quote_plain (map_to_list (tenantAllowed c)) "n" "tenant_id" =
    "# TYPE n counter" +:+ newline +:+ "n{tenant_id=" +:+ dquote +:+ "t1" +:+ dquote +:+ "} 1" +:+ newline /\
  snd <$> cumulative 0 (hist_bounds (latency c)) (hist_counts (latency c)) = [0; 1; 1; 1; 1; 1; 1; 1; 1; 1; 1; 1].
Proof. by vm_compute. Qed.

(** The cumulative count of the last bucket is the number of observations. *)
Example scrape_counts :
  let h := observe_all [40; 70; 600000] (NewHistogram (float_of_Z <$> latencyBounds)) in
  snd <$> last (cumulative 0 (hist_bounds h) (hist_counts h)) = Some 3 /\ hist_total h = 3 /\ hist_sum h = 600110.
Proof. by vm_compute. Qed.

(** A percentile is never above the last bound, whatever was observed. *)
Example percentile_saturates :
  let h := observe_all [600000; 700000] (NewHistogram (float_of_Z <$> latencyBounds)) in
  Percentile h (float_of_Z 99) = float_of_Z 100000.
Proof. by vm_compute. Qed.

(** A collector nothing records to reads zero.  [runAll] makes such a one for /metrics:
    [RecordDecision] has no caller in the server. *)
Example unrecorded_zero :
  str_take 61 (exposition quote_plain map_to_list New) =
  "# TYPE rlaas_decisions_total counter" +:+ newline +:+ "rlaas_decisions_total 0" +:+ newline.
Proof. by vm_compute. Qed.

(** A scrape loads the total before the allowed decisions: when a decision is recorded
    in between, the page shows more allowed decisions than decisions. *)
Example scrape_overlaps :
  let c1 := New in
  let c2 := RecordDecision "" "" true 0 New in
  DecisionsTotal c1 < DecisionsAllowed c2.
Proof. by vm_compute. Qed.
