(* ===== verification/SqlStore.v ===== *)
(** * internal/store/counter/postgres and internal/store/counter/oracle

    The counter stores on PostgreSQL and on Oracle.  A statement is a function of the
    tables it sees to its result, the rows it writes and the rows it locks; a method
    is a program of statements, [BeginTx], [Commit] and [Rollback].  The two packages
    differ in their dialect where a definition says so.  Transactions are READ
    COMMITTED: a statement sees what is committed when it runs, and its own
    transaction's writes; it waits while another transaction holds a row it locks.
    [session_step] runs one statement of one client; [call_alone] runs a method that
    no other client interrupts, as on a pool of one connection. *)

From Stdlib Require Import Ascii String.
From S2P Require Import Prelude GoString GoFloat GoTime Store Protocol.
Local Open Scope Z_scope.
Local Open Scope stdpp_scope.
Local Open Scope go_scope.

(** ** Tables *)

Inductive dialect := Postgres | Oracle.

Record row := { r_value : Z; r_expires : option Time }.
Record stamp := { s_key : string; s_ts : Time; s_expires : option Time }.

#[export] Instance row_eq_dec : EqDecision row.
Proof. solve_decision. Defined.
#[export] Instance stamp_eq_dec : EqDecision stamp.
Proof. solve_decision. Defined.

(** rlaas_counters, rlaas_timestamps (by row id) and rlaas_leases. *)
Record Tables := { t_counters : gmap string row; t_timestamps : gmap N stamp; t_leases : gmap string row }.

Definition emptyTables : Tables := {| t_counters := ∅; t_timestamps := ∅; t_leases := ∅ |}.

(** The tables with one row for each key. *)
Inductive table := Counters | Leases.
#[export] Instance table_eq_dec : EqDecision table.
Proof. solve_decision. Defined.

Definition rows (tbl : table) (t : Tables) : gmap string row :=
  match tbl with Counters => t_counters t | Leases => t_leases t end.

(** A row that is written or, if [None], deleted. *)
Inductive write :=
| WRow (tbl : table) (key : string) (r : option row)
| WStamp (id : N) (s : option stamp).

Definition apply_write (t : Tables) (w : write) : Tables :=
  match w with
  | WRow Counters k r =>
      {| t_counters := partial_alter (fun _ => r) k (t_counters t);
         t_timestamps := t_timestamps t; t_leases := t_leases t |}
  | WRow Leases k r =>
      {| t_counters := t_counters t; t_timestamps := t_timestamps t;
         t_leases := partial_alter (fun _ => r) k (t_leases t) |}
  | WStamp id s =>
      {| t_counters := t_counters t; t_timestamps := partial_alter (fun _ => s) id (t_timestamps t);
         t_leases := t_leases t |}
  end.
Definition apply_writes (ws : list write) (t : Tables) : Tables := foldl apply_write t ws.

(** Whether two states of the tables agree on the row a write is about. *)
Definition same_target (t t' : Tables) (w : write) : bool :=
  match w with
  | WRow tbl k _ => bool_decide (rows tbl t !! k = rows tbl t' !! k)
  | WStamp id _ => bool_decide (t_timestamps t !! id = t_timestamps t' !! id)
  end.

(** ** Statements *)

(** A row, or the number of an advisory lock. *)
Inductive lock := LRow (tbl : table) (key : string) | LAdvisory (n : Z).
#[export] Instance lock_eq_dec : EqDecision lock.
Proof. solve_decision. Defined.

Record effect (R : Type) := { ef_result : result R; ef_writes : list write; ef_locks : list lock }.
Arguments ef_result {_} _.
Arguments ef_writes {_} _.
Arguments ef_locks {_} _.

(** What a statement does at an instant ([NOW()], [SYSTIMESTAMP]), with a fresh row id
    at hand, on the tables it sees. *)
Definition statement (R : Type) : Type := Time -> N -> Tables -> effect R.

Definition effect_of {R} (r : result R) (ws : list write) (ls : list lock) : effect R :=
  {| ef_result := r; ef_writes := ws; ef_locks := ls |}.

(** [expires_at IS NULL OR expires_at >= NOW()]. *)
Definition live (now : Time) (expires : option Time) : bool :=
  match expires with Some e => now <=? e | None => true end.

(** The values a column takes: BIGINT, or NUMBER(19). *)
Definition fits (d : dialect) (v : Z) : bool :=
  match d with
  | Postgres => (minInt64 <=? v) && (v <=? maxInt64)
  | Oracle => (- 10 ^ 19 <? v) && (v <? 10 ^ 19)
  end.

Definition errOutOfRange : string := "value out of range".

(** [Scan] of a value into an [int64]. *)
Definition scan (v : Z) : result int64 := if (minInt64 <=? v) && (v <=? maxInt64) then Ok v else Err errOutOfRange.

Definition result_some {A} (r : result A) : result (option A) :=
  match r with Ok a => Ok (Some a) | Err e => Err e end.

(** [SELECT value FROM tbl WHERE key = k AND (live)], with [FOR UPDATE] or without; no
    row is [Ok None]. *)
Definition select_value (tbl : table) (k : string) (for_update : bool) : statement (option int64) := fun now _ t =>
  match rows tbl t !! k with
  | Some r =>
      if live now (r_expires r) then effect_of (result_some (scan (r_value r))) [] (if for_update then [LRow tbl k] else [])
      else effect_of (Ok None) [] []
  | None => effect_of (Ok None) [] []
  end.

(** [SELECT value FROM rlaas_counters WHERE key = k]. *)
Definition select_any (k : string) : statement (option int64) := fun _ _ t =>
  effect_of (match t_counters t !! k with Some r => result_some (scan (r_value r)) | None => Ok None end) [] [].

(** [INSERT ... ON CONFLICT (key) DO UPDATE SET value = v, expires_at = exp], or the
    [MERGE] that does the same. *)
Definition upsert (tbl : table) (k : string) (v : Z) (exp : option Time) : statement unit := fun _ _ _ =>
  effect_of (Ok tt) [WRow tbl k (Some {| r_value := v; r_expires := exp |})] [LRow tbl k].

(** The upsert of [Increment], with the value it leaves. *)
Definition upsert_add (d : dialect) (k : string) (v : Z) (exp : option Time) : statement Z := fun now _ t =>
  let v' := match t_counters t !! k with
            | Some r => if live now (r_expires r) then r_value r + v else v
            | None => v
            end in
  if fits d v' then effect_of (Ok v') [WRow Counters k (Some {| r_value := v'; r_expires := exp |})] [LRow Counters k]
  else effect_of (Err errOutOfRange) [] [LRow Counters k].

(** [UPDATE rlaas_counters SET value = v, expires_at = exp WHERE key = k]. *)
Definition update_row (k : string) (v : Z) (exp : option Time) : statement unit := fun _ _ t =>
  match t_counters t !! k with
  | Some _ => effect_of (Ok tt) [WRow Counters k (Some {| r_value := v; r_expires := exp |})] [LRow Counters k]
  | None => effect_of (Ok tt) [] []
  end.

(** [UPDATE rlaas_leases SET value = GREATEST(value - 1, 0) WHERE key = k]. *)
Definition update_release (k : string) : statement unit := fun _ _ t =>
  match t_leases t !! k with
  | Some r => effect_of (Ok tt) [WRow Leases k (Some {| r_value := Z.max (r_value r - 1) 0; r_expires := r_expires r |})]
                [LRow Leases k]
  | None => effect_of (Ok tt) [] []
  end.

(** [DELETE FROM tbl WHERE key = k]. *)
Definition delete_row (tbl : table) (k : string) : statement unit := fun _ _ t =>
  match rows tbl t !! k with
  | Some _ => effect_of (Ok tt) [WRow tbl k None] [LRow tbl k]
  | None => effect_of (Ok tt) [] []
  end.

(** The rows of rlaas_timestamps that satisfy a condition, and their deletion. *)
Definition stamps_with (P : stamp -> bool) (t : Tables) : list (N * stamp) :=
  filter (fun '(_, s) => P s = true) (map_to_list (t_timestamps t)).
Definition drop_stamps (P : stamp -> bool) (t : Tables) : list write :=
  (fun '(id, _) => WStamp id None) <$> stamps_with P t.

Definition delete_stamps (k : string) : statement unit := fun _ _ t =>
  effect_of (Ok tt) (drop_stamps (fun s => String.eqb (s_key s) k) t) [].

(** [DELETE FROM rlaas_timestamps WHERE key = k AND ts < before]. *)
Definition delete_before (k : string) (before : Time) : statement unit := fun _ _ t =>
  effect_of (Ok tt) (drop_stamps (fun s => String.eqb (s_key s) k && (s_ts s <? before)) t) [].

(** [SELECT COUNT( * ) FROM rlaas_timestamps WHERE key = k AND ts >= after], of the rows
    that are live or of all of them. *)
Definition count_stamps (k : string) (after : Time) (only_live : bool) : statement int64 := fun now _ t =>
  effect_of (Ok (Z.of_nat (length (stamps_with
    (fun s => String.eqb (s_key s) k && (after <=? s_ts s) && (negb only_live || live now (s_expires s))) t)))) [] [].

Definition insert_stamp (k : string) (ts : Time) (exp : option Time) : statement unit := fun _ id _ =>
  effect_of (Ok tt) [WStamp id (Some {| s_key := k; s_ts := ts; s_expires := exp |})] [].

(** [SELECT pg_advisory_xact_lock(n)]. *)
Definition advisory_lock (n : Z) : statement unit := fun _ _ _ => effect_of (Ok tt) [] [LAdvisory n].

(** [DELETE FROM tbl WHERE expires_at IS NOT NULL AND expires_at < NOW()], with the
    number of rows. *)
Definition purge_rows (tbl : table) : statement int64 := fun now _ t =>
  let dead := filter (fun '(_, r) => live now (r_expires r) = false) (map_to_list (rows tbl t)) in
  effect_of (Ok (Z.of_nat (length dead))) ((fun '(k, _) => WRow tbl k None) <$> dead) ((fun '(k, _) => LRow tbl k) <$> dead).
Definition purge_stamps : statement int64 := fun now _ t =>
  let dead s := negb (live now (s_expires s)) in
  effect_of (Ok (Z.of_nat (length (stamps_with dead t)))) (drop_stamps dead t) [].

(** ** Programs of statements *)

(** Reading the clock of the client, database/sql's [BeginTx] (serializable or with the
    default isolation), statements, [Commit] and [Rollback]. *)
Inductive sql (A : Type) : Type :=
| SRet (a : A)
| SNow (k : Time -> sql A)
| SBegin (serializable : bool) (k : result unit -> sql A)
| SStmt {R : Type} (st : statement R) (k : result R -> sql A)
| SCommit (k : result unit -> sql A)
| SRollback (k : sql A).
Arguments SRet {_} _.
Arguments SNow {_} _.
Arguments SBegin {_} _ _.
Arguments SStmt {_ _} _ _.
Arguments SCommit {_} _.
Arguments SRollback {_} _.

Fixpoint sql_bind {A B} (f : A -> sql B) (p : sql A) : sql B :=
  match p with
  | SRet a => f a
  | SNow k => SNow (fun t => sql_bind f (k t))
  | SBegin s k => SBegin s (fun r => sql_bind f (k r))
  | SStmt st k => SStmt st (fun r => sql_bind f (k r))
  | SCommit k => SCommit (fun r => sql_bind f (k r))
  | SRollback k => SRollback (sql_bind f k)
  end.
#[export] Instance sql_mret : MRet sql := @SRet.
#[export] Instance sql_mbind : MBind sql := @sql_bind.

Definition stmt {R} (st : statement R) : sql (result R) := SStmt st SRet.
Definition begin_tx (serializable : bool) : sql (result unit) := SBegin serializable SRet.
Definition commit : sql (result unit) := SCommit SRet.

(** [defer tx.Rollback()]. *)
Definition deferred {A} (p : sql A) : sql A := a ← p; SRollback (SRet a).

Definition is_ok {A} (r : result A) : bool := match r with Ok _ => true | Err _ => false end.

(** ** The methods *)

Section Methods.
(** [%q] of fmt; what becomes of an instant that is sent to the database, or that the
    database shows as its clock; the hash of PostgreSQL; the dialect. *)
Context (Quote : string -> string) (usec : Time -> Time) (hashtext : string -> Z) (d : dialect).

Definition expiresAt (ttl : Duration) : sql (option Time) :=
  if ttl <=? 0 then mret None else SNow (fun now => mret (Some (usec (time_Add now ttl)))).

(** [fmt.Errorf("what %q: %w", key, err)]. *)
Definition wrap_key (what key e : string) : string := what +:+ " " +:+ Quote key +:+ ": " +:+ e.

(** [if err != nil { return ..., fmt.Errorf(...) }]. *)
Definition on_ok {A B} (r : result A) (wrapped : string -> string) (f : A -> sql (result B)) : sql (result B) :=
  match r with Ok a => f a | Err e => mret (Err (wrapped e)) end.

Definition sql_Increment (key : string) (value : int64) (ttl : Duration) : sql (result int64) :=
  exp ← expiresAt ttl;
  r ← stmt (upsert_add d key value exp);
  match d with
  | Postgres => on_ok r (wrap_key "increment" key) (fun v => mret (Ok v))
  | Oracle =>
      on_ok r (wrap_key "increment" key) (fun _ =>
        got ← stmt (select_any key);
        on_ok got (wrap_key "increment readback" key) (fun o =>
          match o with
          | Some v => mret (Ok v)
          | None => mret (Err (wrap_key "increment readback" key "sql: no rows in result set"))
          end))
  end.

Definition sql_Get (key : string) : sql (result int64) :=
  got ← stmt (select_value Counters key false);
  on_ok got (wrap_key "get" key) (fun o => mret (Ok (default 0 o))).

Definition sql_Set (key : string) (value : int64) (ttl : Duration) : sql (result unit) :=
  exp ← expiresAt ttl;
  r ← stmt (upsert Counters key value exp);
  on_ok r (wrap_key "set" key) (fun _ => mret (Ok tt)).

(** [return tx.Commit() == nil, nil]. *)
Definition commit_is_nil : sql (result bool) := r ← commit; mret (Ok (is_ok r)).

(** What follows the SELECT of [CompareAndSwap]. *)
Definition cas_selected (key : string) (oldVal newVal : int64) (exp : option Time) (got : result (option int64)) : sql (result bool) :=
  match got with
  | Ok None =>
      if negb (oldVal =? 0) then mret (Ok false)
      else
        r ← stmt (upsert Counters key newVal exp);
        on_ok r (fun e => "cas insert: " +:+ e) (fun _ => commit_is_nil)
  | Err e => mret (Err ("cas select: " +:+ e))
  | Ok (Some cur) =>
      if negb (cur =? oldVal) then mret (Ok false)
      else
        r ← stmt (update_row key newVal exp);
        on_ok r (fun e => "cas update: " +:+ e) (fun _ => commit_is_nil)
  end.

Definition sql_CompareAndSwap (key : string) (oldVal newVal : int64) (ttl : Duration) : sql (result bool) :=
  exp ← expiresAt ttl;
  b ← begin_tx false;
  on_ok b (fun e => "cas begin: " +:+ e) (fun _ =>
    deferred (got ← stmt (select_value Counters key true); cas_selected key oldVal newVal exp got)).

Definition sql_Delete (key : string) : sql (result unit) :=
  let from tbl e := "delete " +:+ Quote key +:+ " from " +:+ tbl +:+ ": " +:+ e in
  r ← stmt (delete_row Counters key);
  on_ok r (from "rlaas_counters") (fun _ =>
    r ← stmt (delete_stamps key);
    on_ok r (from "rlaas_timestamps") (fun _ =>
      r ← stmt (delete_row Leases key);
      on_ok r (from "rlaas_leases") (fun _ => mret (Ok tt)))).

Definition sql_AddTimestamp (key : string) (ts : Time) (ttl : Duration) : sql (result unit) :=
  exp ← expiresAt ttl;
  r ← stmt (insert_stamp key (usec ts) exp);
  on_ok r (wrap_key "add timestamp" key) (fun _ => mret (Ok tt)).

Definition sql_CountAfter (key : string) (after : Time) : sql (result int64) :=
  r ← stmt (count_stamps key (usec after) true);
  on_ok r (wrap_key "count after" key) (fun n => mret (Ok n)).

Definition sql_TrimBefore (key : string) (before : Time) : sql (result unit) :=
  r ← stmt (delete_before key (usec before));
  on_ok r (wrap_key "trim before" key) (fun _ => mret (Ok tt)).

(** The loop that adds [n] entries, and the commit. *)
Fixpoint add_stamps (n : nat) (key : string) (ts : Time) (exp : option Time) (count : int64) : sql (result (int64 * bool)) :=
  match n with
  | O => r ← commit; on_ok r id (fun _ => mret (Ok (count, true)))
  | S n =>
      r ← stmt (insert_stamp key ts exp);
      on_ok r (fun e => "check-and-add insert: " +:+ e) (fun _ => add_stamps n key ts exp count)
  end.

Definition sql_CheckAndAddTimestamps (key : string) (cutoff : Time) (limit cost : int64) (ts : Time) (ttl : Duration)
    : sql (result (int64 * bool)) :=
  exp ← expiresAt ttl;
  b ← begin_tx (match d with Postgres => false | Oracle => true end);
  on_ok b (fun e => "check-and-add begin: " +:+ e) (fun _ =>
    deferred (
      _ ← (match d with Postgres => stmt (advisory_lock (hashtext key)) | Oracle => mret (Ok tt) end);
      _ ← stmt (delete_before key (usec cutoff));
      r ← stmt (count_stamps key (usec cutoff) false);
      on_ok r (fun e => "check-and-add count: " +:+ e) (fun count =>
        if limit <? count +! cost then _ ← commit; mret (Ok (count, false))
        else add_stamps (Z.to_nat cost) key (usec ts) exp count))).

(** What follows the SELECT of [AcquireLease]. *)
Definition acquire_selected (key : string) (limit : int64) (exp : option Time) (got : result (option int64))
    : sql (result (bool * int64)) :=
  on_ok got (fun e => "acquire lease select: " +:+ e) (fun o =>
    let cur := default 0 o in
    if limit <=? cur then mret (Ok (false, cur))
    else
      r ← stmt (upsert Leases key (cur +! 1) exp);
      on_ok r (fun e => "acquire lease upsert: " +:+ e) (fun _ =>
        c ← commit;
        on_ok c id (fun _ => mret (Ok (true, cur +! 1))))).

Definition sql_AcquireLease (key : string) (limit : int64) (ttl : Duration) : sql (result (bool * int64)) :=
  if limit <=? 0 then mret (Err "limit must be positive")
  else
    exp ← expiresAt ttl;
    b ← begin_tx false;
    on_ok b (fun e => "acquire lease begin: " +:+ e) (fun _ =>
      deferred (got ← stmt (select_value Leases key true); acquire_selected key limit exp got)).

Definition sql_ReleaseLease (key : string) : sql (result unit) :=
  r ← stmt (update_release key);
  on_ok r (wrap_key "release lease" key) (fun _ => mret (Ok tt)).

(** [PurgeExpired]: a table after the other, and the number of rows removed so far. *)
Definition sql_PurgeExpired : sql (int64 * option string) :=
  r ← stmt (purge_rows Counters);
  match r with
  | Err e => mret (0, Some ("purge rlaas_counters: " +:+ e))
  | Ok n1 =>
      r ← stmt purge_stamps;
      match r with
      | Err e => mret (n1, Some ("purge rlaas_timestamps: " +:+ e))
      | Ok n2 =>
          r ← stmt (purge_rows Leases);
          match r with
          | Err e => mret (n1 +! n2, Some ("purge rlaas_leases: " +:+ e))
          | Ok n3 => mret (n1 +! n2 +! n3, None)
          end
      end
  end.

(** The method a call of the interface is. *)
Definition method {R} (op : CounterOp R) : sql R :=
  match op in CounterOp R return sql R with
  | TimeNow => SNow SRet
  | Increment k v ttl => sql_Increment k v ttl
  | Get k => sql_Get k
  | SetVal k v ttl => sql_Set k v ttl
  | CompareAndSwap k o n ttl => sql_CompareAndSwap k o n ttl
  | Delete k => sql_Delete k
  | AddTimestamp k ts ttl => sql_AddTimestamp k ts ttl
  | CountAfter k after => sql_CountAfter k after
  | TrimBefore k before => sql_TrimBefore k before
  | CheckAndAddTimestamps k cutoff limit cost ts ttl => sql_CheckAndAddTimestamps k cutoff limit cost ts ttl
  | AcquireLease k limit ttl => sql_AcquireLease k limit ttl
  | ReleaseLease k => sql_ReleaseLease k
  end.

(** A client of the interface as the statements it sends. *)
Fixpoint compile {A} (p : prog A) : sql A :=
  match p with
  | Ret a => SRet a
  | Call op k => sql_bind (fun r => compile (k r)) (method op)
  end.

(** ** Execution *)

(** How a message to the database fares: it is executed and answered, refused, or
    executed and its answer lost. *)
Inductive fault := Fine | Refused (e : string) | Lost (e : string).

(** An open transaction: the instant it began, what it sees instead of the committed
    tables if it is serializable, its writes, its locks, and whether it can only be
    rolled back. *)
Record Tx := {
  tx_now : Time; tx_snapshot : option Tables; tx_writes : list write; tx_locks : list lock; tx_dead : bool
}.

Record Db := { db_clock : Time; db_tables : Tables; db_next : N }.

Definition set_tables (t : Tables) (db : Db) : Db :=
  {| db_clock := db_clock db; db_tables := t; db_next := N.succ (db_next db) |}.

Definition kill (tx : Tx) : Tx :=
  {| tx_now := tx_now tx; tx_snapshot := tx_snapshot tx; tx_writes := tx_writes tx; tx_locks := tx_locks tx; tx_dead := true |}.

Definition errTxAborted : string := "current transaction is aborted".
Definition errTxDone : string := "sql: transaction has already been committed or rolled back".
Definition errSerialize : string := "ORA-08177: can't serialize access for this transaction".

Definition do_begin (f : fault) (serializable : bool) (db : Db) : result unit * option Tx :=
  match f with
  | Fine => (Ok tt, Some {| tx_now := usec (db_clock db); tx_snapshot := if serializable then Some (db_tables db) else None;
                            tx_writes := []; tx_locks := []; tx_dead := false |})
  | Refused e | Lost e => (Err e, None)
  end.

(** The tables a transaction sees, and the instant its statements see. *)
Definition tx_view (tx : Tx) (db : Db) : Tables :=
  apply_writes (tx_writes tx) (default (db_tables db) (tx_snapshot tx)).
Definition stmt_now (tx : option Tx) (db : Db) : Time :=
  match tx, d with
  | Some tx, Postgres => tx_now tx
  | _, _ => usec (db_clock db)
  end.

(** The effect of a statement of an open transaction: a serializable transaction must
    not write a row that has changed since it began. *)
Definition tx_effect {R} (st : statement R) (tx : Tx) (db : Db) : effect R :=
  let ef := st (stmt_now (Some tx) db) (db_next db) (tx_view tx db) in
  match tx_snapshot tx with
  | Some snap =>
      if forallb (same_target snap (db_tables db)) (ef_writes ef) then ef else effect_of (Err errSerialize) [] (ef_locks ef)
  | None => ef
  end.
Definition stmt_effect {R} (st : statement R) (tx : option Tx) (db : Db) : effect R :=
  match tx with
  | None => st (stmt_now None db) (db_next db) (db_tables db)
  | Some tx => tx_effect st tx db
  end.

(** A statement on its own commits at once. *)
Definition do_single {R} (f : fault) (st : statement R) (db : Db) : result R * Db :=
  let ef := stmt_effect st None db in
  let db' := set_tables (apply_writes (ef_writes ef) (db_tables db)) db in
  match f, ef_result ef with
  | Fine, Ok r => (Ok r, db')
  | Fine, Err e => (Err e, db)
  | Refused e, _ => (Err e, db)
  | Lost e, Ok _ => (Err e, db')
  | Lost e, Err _ => (Err e, db)
  end.

(** A statement in a transaction.  After an error PostgreSQL refuses all further
    statements; Oracle goes on, unless the connection is lost. *)
Definition do_in_tx {R} (f : fault) (st : statement R) (tx : Tx) (db : Db) : result R * Tx * Db :=
  if tx_dead tx then (Err errTxAborted, tx, db)
  else
    let ef := stmt_effect st (Some tx) db in
    let failed := match d with Postgres => kill tx | Oracle => tx end in
    match f, ef_result ef with
    | Fine, Ok r =>
        (Ok r,
         {| tx_now := tx_now tx; tx_snapshot := tx_snapshot tx; tx_writes := tx_writes tx ++ ef_writes ef;
            tx_locks := tx_locks tx ++ ef_locks ef; tx_dead := false |},
         set_tables (db_tables db) db)
    | Fine, Err e => (Err e, failed, db)
    | Refused e, _ => (Err e, failed, db)
    | Lost e, _ => (Err e, kill tx, db)
    end.

Definition do_commit (f : fault) (tx : option Tx) (db : Db) : result unit * Db :=
  match tx with
  | None => (Err errTxDone, db)
  | Some tx =>
      if tx_dead tx then (Err errTxAborted, db)
      else
        let db' := set_tables (apply_writes (tx_writes tx) (db_tables db)) db in
        match f with
        | Fine => (Ok tt, db')
        | Refused e => (Err e, db)
        | Lost e => (Err e, db')
        end
  end.

(** *** Alone *)

(** The database and how its messages will fare. *)
Record SqlWorld := { sw_db : Db; sw_net : list fault }.

Definition next_fault (net : list fault) : fault * list fault :=
  match net with [] => (Fine, []) | f :: net => (f, net) end.

Fixpoint run_sql {A} (p : sql A) (tx : option Tx) (w : SqlWorld) : A * SqlWorld :=
  let '(f, net) := next_fault (sw_net w) in
  let db := sw_db w in
  match p with
  | SRet a => (a, w)
  | SNow k => run_sql (k (db_clock db)) tx w
  | SBegin s k => let '(r, tx') := do_begin f s db in run_sql (k r) tx' {| sw_db := db; sw_net := net |}
  | SStmt st k =>
      match tx with
      | None => let '(r, db') := do_single f st db in run_sql (k r) None {| sw_db := db'; sw_net := net |}
      | Some tx => let '(r, tx', db') := do_in_tx f st tx db in run_sql (k r) (Some tx') {| sw_db := db'; sw_net := net |}
      end
  | SCommit k => let '(r, db') := do_commit f tx db in run_sql (k r) None {| sw_db := db'; sw_net := net |}
  | SRollback k => run_sql k None w
  end.

(** The methods of [*Store] when no other client is at work. *)
Definition call_alone : handler SqlWorld := fun R op w => run_sql (method op) None w.

(** *** Interleaved *)

Record session (A : Type) := { ss_prog : sql A; ss_tx : option Tx }.
Arguments ss_prog {_} _.
Arguments ss_tx {_} _.

Definition idle {A} (p : prog A) : session A := {| ss_prog := compile p; ss_tx := None |}.

Definition blocked (held : list lock) (needed : list lock) : bool :=
  existsb (fun l => bool_decide (l ∈ held)) needed.

(** One message of a client while others hold the locks [held]; [None] when it waits,
    or has nothing to send. *)
Definition session_step {A} (held : list lock) (f : fault) (s : session A) (db : Db) : option (session A * Db) :=
  match ss_prog s with
  | SRet _ => None
  | SNow k => Some ({| ss_prog := k (db_clock db); ss_tx := ss_tx s |}, db)
  | SBegin ser k => let '(r, tx') := do_begin f ser db in Some ({| ss_prog := k r; ss_tx := tx' |}, db)
  | SStmt st k =>
      if blocked held (ef_locks (stmt_effect st (ss_tx s) db)) then None
      else
        match ss_tx s with
        | None => let '(r, db') := do_single f st db in Some ({| ss_prog := k r; ss_tx := None |}, db')
        | Some tx => let '(r, tx', db') := do_in_tx f st tx db in Some ({| ss_prog := k r; ss_tx := Some tx' |}, db')
        end
  | SCommit k => let '(r, db') := do_commit f (ss_tx s) db in Some ({| ss_prog := k r; ss_tx := None |}, db')
  | SRollback k => Some ({| ss_prog := k; ss_tx := None |}, db)
  end.

(** The locks of all clients but [i]. *)
Definition held_by_others {A} (i : nat) (ss : list (session A)) : list lock :=
  mjoin (imap (fun j s => if (j =? i)%nat then [] else match ss_tx s with Some tx => tx_locks tx | None => [] end) ss).

(** The statements of [PurgeExpired]. *)
Definition purge_statements : list (statement int64) := [purge_rows Counters; purge_stamps; purge_rows Leases].

(** A client sends a message, time passes, or a statement of [PurgeExpired] runs. *)
Inductive db_step {A} : list (session A) * Db -> list (session A) * Db -> Prop :=
| db_client ss db i s f s' db' :
    ss !! i = Some s -> session_step (held_by_others i ss) f s db = Some (s', db') ->
    db_step (ss, db) (<[i := s']> ss, db')
| db_tick ss db t :
    db_clock db <= t -> db_step (ss, db) (ss, {| db_clock := t; db_tables := db_tables db; db_next := db_next db |})
| db_purge ss db st f :
    st ∈ purge_statements -> blocked (held_by_others (length ss) ss) (ef_locks (stmt_effect st None db)) = false ->
    db_step (ss, db) (ss, (do_single f st db).2).
End Methods.
Arguments ss_prog {_} _.
Arguments ss_tx {_} _.

(** ** Migrations *)

(** The statements of [Migrate], in order. *)
Inductive ddl := CreateCounters | CreateTimestamps | CreateTimestampsIndex | CreateLeases.
Definition ddls : list ddl := [CreateCounters; CreateTimestamps; CreateTimestampsIndex; CreateLeases].

(** [containsSub(s, sub)]: [s] from the position of the loop on. *)
Fixpoint containsSub (s sub : string) : bool :=
  if (String.length sub <=? String.length s)%nat then
    String.prefix sub s || match s with "" => false | String _ s' => containsSub s' sub end
  else false.

Definition contains (s sub : string) : bool :=
  (String.length sub <=? String.length s)%nat &&
  (String.eqb s sub || ((0 <? String.length s)%nat && containsSub s sub)).

Definition isOracleObjExists (err : option string) : bool :=
  match err with None => false | Some e => contains e "ORA-00955" || contains e "already used" end.

(** [Migrate], given what the database answers to each statement. *)
Fixpoint migrate_from (d : dialect) (exec : ddl -> option string) (l : list ddl) : option string :=
  match l with
  | [] => None
  | s :: l =>
      match exec s with
      | Some e =>
          match d with
          | Oracle => if isOracleObjExists (Some e) then migrate_from d exec l else Some ("migrate: " +:+ e)
          | Postgres => Some ("migrate: " +:+ e)
          end
      | None => migrate_from d exec l
      end
  end.
Definition Migrate (d : dialect) (exec : ddl -> option string) : option string := migrate_from d exec ddls.

Lemma containsSub_iff s sub : containsSub s sub = true <-> exists a b, s = a +:+ sub +:+ b.
Proof.
  induction s as [|c s IH]; cbn [containsSub].
  - split.
    + destruct (_ <=? _)%nat eqn:E; [|done]. intros H%orb_true_iff. exists "", "". destruct sub; [done|]. by destruct H.
    + intros (a & b & H). destruct a; [|done]. destruct sub; [done|]. done.
  - assert (Hlen : forall a b, String c s = a +:+ sub +:+ b -> (String.length sub <=? String.length (String c s))%nat = true).
    { intros a b ->. rewrite !str_length_app. apply Nat.leb_le. lia. }
    split.
    + destruct (_ <=? _)%nat; [|done]. intros [H|H]%orb_true_iff.
      * apply prefix_inv in H as [b ->]. by exists "", b.
      * apply IH in H as (a & b & ->). by exists (String c a), b.
    + intros (a & b & H). rewrite (Hlen a b H). apply orb_true_iff. destruct a as [|c' a].
      * left. rewrite H. change ("" +:+ sub +:+ b) with (sub +:+ b). apply prefix_app.
      * right. apply IH. exists a, b. by injection H.
Qed.

(** A table that exists already does not stop a migration of Oracle. *)
Lemma migrate_oracle exec :
  Migrate Oracle exec = None <-> Forall (fun s => match exec s with Some e => isOracleObjExists (Some e) = true | None => True end) ddls.
Proof.
  unfold Migrate. induction ddls as [|s l IH]; [split; [by constructor|done]|]. cbn [migrate_from]. rewrite Forall_cons.
  destruct (exec s) as [e|]; [destruct (isOracleObjExists (Some e))|]; rewrite ?IH; tauto || (split; [done|by intros [? _]]).
Qed.

(** What is relied on of instants: a database keeps microseconds, in order. *)
Class UsecLaws (usec : Time -> Time) := {
  us_mono t u : t <= u -> usec t <= usec u;
  us_idem t : usec (usec t) = usec t;
  us_near t : t - Microsecond < usec t <= t + Microsecond
}.

(** pgx cuts nanoseconds off. *)
Definition trunc_usec (t : Time) : Time := t / Microsecond * Microsecond.

#[export] Instance trunc_usec_laws : UsecLaws trunc_usec.
Proof.
  split; unfold trunc_usec, Microsecond.
  - intros t u H. apply Z.mul_le_mono_nonneg_r; [lia|]. apply Z.div_le_mono; lia.
  - intros t. by rewrite Z.div_mul.
  - intros t. pose proof (Z.div_mod t 1000 ltac:(lia)). pose proof (Z.mod_pos_bound t 1000 ltac:(lia)). lia.
Qed.

(** ** What a method does to the rows of other keys *)

Section Laws.
Context (Quote : string -> string) (usec : Time -> Time) (hashtext : string -> Z) (d : dialect).
Context `{HU : !UsecLaws usec}.

(** An expiry the database has stored. *)
Definition stored (exp : option Time) : Prop := match exp with Some e => usec e = e | None => True end.

Definition write_stored (w : write) : Prop := match w with WRow _ _ (Some r) => stored (r_expires r) | _ => True end.
Definition rows_stored (t : Tables) : Prop :=
  forall tbl, map_Forall (fun _ r => stored (r_expires r)) (rows tbl t).

Definition keeps (tbl : table) (k : string) (w : write) : Prop :=
  match w with WRow tbl' k' _ => ~ (tbl' = tbl /\ k' = k) | WStamp _ _ => True end.

(** The statements about one key. *)
Inductive about (k : string) : forall R, statement R -> Prop :=
| about_select tbl fu : about k _ (select_value tbl k fu)
| about_any : about k _ (select_any k)
| about_upsert tbl v exp : stored exp -> about k _ (upsert tbl k v exp)
| about_add d' v exp : stored exp -> about k _ (upsert_add d' k v exp)
| about_update v exp : stored exp -> about k _ (update_row k v exp)
| about_release : about k _ (update_release k)
| about_delete tbl : about k _ (delete_row tbl k)
| about_delete_stamps : about k _ (delete_stamps k)
| about_before t : about k _ (delete_before k t)
| about_count t b : about k _ (count_stamps k t b)
| about_insert t exp : about k _ (insert_stamp k t exp)
| about_advisory n : about k _ (advisory_lock n).

(** A program that sends only statements of a kind, and ends with its transaction open
    or not. *)
Fixpoint sends {A} (Phi : forall R, statement R -> Prop) (Q : bool -> A -> Prop) (opened : bool) (p : sql A) : Prop :=
  match p with
  | SRet a => Q opened a
  | SNow k => forall t, sends Phi Q opened (k t)
  | SBegin _ k => sends Phi Q true (k (Ok tt)) /\ forall e, sends Phi Q false (k (Err e))
  | SStmt st k => Phi _ st /\ forall r, sends Phi Q opened (k r)
  | SCommit k => forall r, sends Phi Q false (k r)
  | SRollback k => sends Phi Q false k
  end.

Lemma sends_bind {A B} Phi Q opened (p : sql A) (f : A -> sql B) :
  sends Phi (fun o a => sends Phi Q o (f a)) opened p -> sends Phi Q opened (sql_bind f p).
Proof.
  revert opened. induction p as [a|k IH|s k IH|R st k IH|k IH|k IH]; intros opened; cbn [sends sql_bind]; auto.
  - intros [H1 H2]. auto.
  - intros [H1 H2]. auto.
Qed.

Lemma stored_usec t : stored (Some (usec t)).
Proof. apply us_idem. Qed.

Ltac send_step :=
  match goal with
  | |- sends _ _ _ (_ ≫= _) => apply sends_bind
  | |- sends _ _ _ (sql_bind _ _) => apply sends_bind
  | |- sends _ _ _ (deferred _) => unfold deferred
  | |- sends _ _ _ (stmt _) => unfold stmt; cbn [sends]
  | |- sends _ _ _ (begin_tx _) => unfold begin_tx; cbn [sends]
  | |- sends _ _ _ commit => unfold commit; cbn [sends]
  | |- sends _ _ _ (on_ok (Ok _) _ _) => unfold on_ok at 1
  | |- sends _ _ _ (on_ok (Err _) _ _) => unfold on_ok at 1
  | |- sends _ _ _ (on_ok ?r _ _) => destruct r
  | |- sends _ _ _ (mret _) => unfold mret, sql_mret; cbn [sends]
  | |- sends _ _ _ _ => progress cbn [sends]
  | |- about _ _ _ => constructor
  | |- _ /\ _ => split
  | |- forall _, _ => intros ?
  end.

Definition closed {A} (o : bool) (a : A) : Prop := o = false.

Lemma expiresAt_sends {A} k Q o ttl (f : option Time -> sql A) :
  (forall exp, stored exp -> sends (about k) Q o (f exp)) -> sends (about k) Q o (expiresAt usec ttl ≫= f).
Proof.
  intros Hf. unfold expiresAt. case_step; apply sends_bind; cbn [sends]; [by apply Hf|].
  intros t. apply Hf, stored_usec.
Qed.

Lemma add_stamps_sends k (Q : bool -> result (int64 * bool) -> Prop) o n key ts exp count :
  key = k -> (forall o r, Q o r) -> sends (about k) Q o (add_stamps n key ts exp count).
Proof.
  intros ->. revert o. induction n as [|n IH]; intros o HQ; cbn [add_stamps]; repeat send_step; auto.
Qed.

(** A method sends statements about its own key, and leaves no transaction open. *)
Lemma method_sends {R} (op : CounterOp R) k :
  op_key op = Some k -> sends (about k) closed false (method Quote usec hashtext d op).
Proof.
  intros Hk. destruct op; simplify_eq/=;
    unfold sql_Increment, sql_Get, sql_Set, sql_CompareAndSwap, sql_Delete, sql_AddTimestamp, sql_CountAfter, sql_TrimBefore,
      sql_CheckAndAddTimestamps, sql_AcquireLease, sql_ReleaseLease.
  all: try case_step; try (apply expiresAt_sends; intros exp Hexp).
  all: repeat (send_step || case_match || unfold cas_selected, acquire_selected, commit_is_nil); try done.
  all: apply add_stamps_sends; [done|]; intros; cbn; done.
Qed.

Lemma apply_keeps tbl k ws t : Forall (keeps tbl k) ws -> rows tbl (apply_writes ws t) !! k = rows tbl t !! k.
Proof.
  intros Hws. revert t. induction Hws as [|w ws Hw _ IH]; intros t; [done|]. cbn [apply_writes foldl]. etransitivity; [apply IH|].
  destruct w as [tbl' k' r|id s]; [|by destruct tbl]. unfold keeps in Hw.
  destruct tbl', tbl; try done; cbn [apply_write rows t_counters t_leases];
    rewrite lookup_partial_alter_ne; done || (intros ->; by apply Hw).
Qed.

Lemma apply_stored ws t : Forall write_stored ws -> rows_stored t -> rows_stored (apply_writes ws t).
Proof.
  intros Hws. revert t. induction Hws as [|w ws Hw _ IH]; intros t Ht; [done|]. cbn [apply_writes foldl]. apply IH.
  intros tbl. specialize (Ht tbl). destruct w as [tbl' k r|id s]; [|by destruct tbl].
  destruct tbl', tbl; try done; cbn [apply_write rows t_counters t_leases] in *;
    intros k' r' Hr'; (destruct (decide (k' = k)) as [->|Hne];
      [rewrite lookup_partial_alter_eq in Hr'; by subst r|rewrite lookup_partial_alter_ne in Hr' by done; by apply (Ht k')]).
Qed.

Lemma drop_stamps_neutral P t tbl k : Forall (fun w => keeps tbl k w /\ write_stored w) (drop_stamps P t).
Proof. unfold drop_stamps. apply Forall_fmap, Forall_true. by intros [id s]. Qed.

(** A statement about a key leaves the other keys alone, locks none of them, and stores
    expiries as the database keeps them. *)
Lemma about_local k R (st : statement R) tbl k' now id t :
  about k R st -> k' <> k ->
  Forall (keeps tbl k') (ef_writes (st now id t)) /\ LRow tbl k' ∉ ef_locks (st now id t).
Proof.
  intros Hst Hne.
  assert (Hlock : forall tbl', LRow tbl k' ∉ [LRow tbl' k]) by (intros tbl' [= -> ->]%list_elem_of_singleton; done).
  destruct Hst; unfold select_value, select_any, upsert, upsert_add, update_row, update_release, delete_row,
    delete_stamps, delete_before, count_stamps, insert_stamp, advisory_lock; repeat case_match; cbn [effect_of ef_writes ef_locks].
  all: split; try (apply not_elem_of_nil); try (apply Hlock); try (by intros [=]%list_elem_of_singleton).
  all: try (eapply Forall_impl; [apply drop_stamps_neutral|]; by intros w [? _]).
  all: repeat constructor; cbn [keeps]; by intros [_ ->].
Qed.

Lemma about_stored k R (st : statement R) now id t :
  about k R st -> rows_stored t -> Forall write_stored (ef_writes (st now id t)).
Proof.
  intros Hst Ht.
  destruct Hst; unfold select_value, select_any, upsert, upsert_add, update_row, update_release, delete_row,
    delete_stamps, delete_before, count_stamps, insert_stamp, advisory_lock; repeat case_match; cbn [effect_of ef_writes].
  all: try (eapply Forall_impl; [apply (drop_stamps_neutral _ _ Counters k)|]; by intros w [_ ?]).
  all: repeat constructor; cbn [write_stored r_expires]; try done.
  by apply (Ht Leases k).
Qed.

(** What holds of a transaction of a client that works on [k]. *)
Definition tx_local (k : string) (tx : option Tx) : Prop :=
  match tx with
  | Some tx => Forall write_stored (tx_writes tx) /\
      (forall snap, tx_snapshot tx = Some snap -> rows_stored snap) /\
      (forall tbl k', k' <> k -> Forall (keeps tbl k') (tx_writes tx) /\ LRow tbl k' ∉ tx_locks tx)
  | None => True
  end.

Definition rows_local (k : string) (t t' : Tables) : Prop :=
  (rows_stored t -> rows_stored t') /\ forall tbl k', k' <> k -> rows tbl t' !! k' = rows tbl t !! k'.

Lemma rows_local_refl k t : rows_local k t t.
Proof. by split. Qed.

Lemma rows_local_trans k t1 t2 t3 : rows_local k t1 t2 -> rows_local k t2 t3 -> rows_local k t1 t3.
Proof. intros [H1 H2] [H3 H4]. split; [auto|]. intros tbl k' Hk. by rewrite H4, H2. Qed.

Lemma writes_local k ws t :
  Forall write_stored ws -> (forall tbl k', k' <> k -> Forall (keeps tbl k') ws) -> rows_local k t (apply_writes ws t).
Proof. intros H1 H2. split; [by apply apply_stored|]. intros tbl k' Hk. by apply apply_keeps, H2. Qed.

Lemma do_single_local k R (st : statement R) f db :
  about k R st -> rows_stored (db_tables db) ->
  let db' := (do_single usec d f st db).2 in
  db_clock db' = db_clock db /\ rows_local k (db_tables db) (db_tables db').
Proof.
  intros Hst Hdb. unfold do_single. set (ef := stmt_effect _ _ _ _ _).
  assert (Hl : rows_local k (db_tables db) (apply_writes (ef_writes ef) (db_tables db))).
  { apply writes_local; [by eapply about_stored|]. intros tbl k' Hk. by apply (about_local k R st tbl k' _ _ _ Hst Hk). }
  destruct f, (ef_result ef); cbn [snd set_tables db_clock db_tables]; auto using rows_local_refl.
Qed.

Lemma tx_view_stored k tx db : tx_local k (Some tx) -> rows_stored (db_tables db) -> rows_stored (tx_view tx db).
Proof. intros (H1 & H2 & _) Hdb. apply apply_stored; [done|]. destruct (tx_snapshot tx); [by apply H2|done]. Qed.

Lemma do_in_tx_local k R (st : statement R) f tx db :
  about k R st -> rows_stored (db_tables db) -> tx_local k (Some tx) ->
  let '(_, tx', db') := do_in_tx usec d f st tx db in
  tx_local k (Some tx') /\ db_clock db' = db_clock db /\ db_tables db' = db_tables db.
Proof.
  intros Hst Hdb Htx. pose proof (tx_view_stored k tx db Htx Hdb) as Hview. unfold do_in_tx. case_step; [done|].
  assert (Hkill : tx_local k (Some (kill tx))) by exact Htx. unfold stmt_effect.
  assert (Hef : Forall write_stored (ef_writes (tx_effect usec d st tx db)) /\
    forall tbl k', k' <> k -> Forall (keeps tbl k') (ef_writes (tx_effect usec d st tx db)) /\
                              LRow tbl k' ∉ ef_locks (tx_effect usec d st tx db)).
  { unfold tx_effect.
    assert (H1 := about_stored k R st (stmt_now usec d (Some tx) db) (db_next db) (tx_view tx db) Hst Hview).
    assert (H2 := fun tbl k' => about_local k R st tbl k' (stmt_now usec d (Some tx) db) (db_next db) (tx_view tx db) Hst).
    destruct (tx_snapshot tx); [|split; [exact H1|exact H2]].
    destruct (forallb _ _); [split; [exact H1|exact H2]|]. cbn [effect_of ef_writes ef_locks].
    split; [constructor|]. intros tbl k' Hk. split; [constructor|]. by apply H2. }
  destruct f, (ef_result (tx_effect usec d st tx db)), d; try done;
    (split; [|done]); destruct Htx as (H1 & H2 & H3), Hef as [H4 H5]; cbn [tx_local tx_writes tx_snapshot tx_locks];
    (split_and!; [by apply Forall_app|done|]; intros tbl k' Hk; destruct (H3 tbl k' Hk), (H5 tbl k' Hk);
     split; [by apply Forall_app|by rewrite not_elem_of_app]).
Qed.

Lemma do_commit_local k f tx db :
  tx_local k tx ->
  let db' := (do_commit f tx db).2 in
  db_clock db' = db_clock db /\ rows_local k (db_tables db) (db_tables db').
Proof.
  intros Htx. unfold do_commit. destruct tx as [tx|]; [|by auto using rows_local_refl]. case_step; [by auto using rows_local_refl|].
  destruct Htx as (H1 & _ & H3). assert (Hl : rows_local k (db_tables db) (apply_writes (tx_writes tx) (db_tables db))).
  { apply writes_local; [done|]. intros tbl k' Hk. by apply H3. }
  destruct f; cbn [snd set_tables db_clock db_tables]; auto using rows_local_refl.
Qed.

Lemma do_begin_local k f s db : rows_stored (db_tables db) -> tx_local k (do_begin usec f s db).2.
Proof.
  intros Hdb. destruct f; try done. cbn [do_begin snd tx_local tx_writes tx_snapshot tx_locks]. split_and!; [constructor| |].
  - intros snap. destruct s; [by intros [= <-]|done].
  - intros tbl k' _. split; [constructor|apply not_elem_of_nil].
Qed.

(** A program about [k] changes nothing else. *)
Lemma run_local {A} k Q o (p : sql A) tx w :
  sends (about k) Q o p -> rows_stored (db_tables (sw_db w)) -> tx_local k tx ->
  let w' := (run_sql usec d p tx w).2 in
  db_clock (sw_db w') = db_clock (sw_db w) /\ rows_local k (db_tables (sw_db w)) (db_tables (sw_db w')).
Proof.
  revert o tx w. induction p as [a|kk IH|s kk IH|R st kk IH|kk IH|kk IH]; intros o tx w Hs Hdb Htx;
    cbn [sends run_sql] in *; destruct (next_fault (sw_net w)) as [f net].
  - by auto using rows_local_refl.
  - by eapply IH.
  - pose proof (do_begin_local k f s (sw_db w) Hdb) as Hb. destruct Hs as [Hs1 Hs2].
    destruct (do_begin usec f s (sw_db w)) as [[[]|e] tx'] eqn:E;
      [eapply (IH (Ok tt) true tx' {| sw_db := sw_db w; sw_net := net |})|
       eapply (IH (Err e) false tx' {| sw_db := sw_db w; sw_net := net |})]; auto.
  - destruct Hs as [Hst Hs]. destruct tx as [tx|].
    + pose proof (do_in_tx_local k R st f tx (sw_db w) Hst Hdb Htx) as Hl.
      destruct (do_in_tx usec d f st tx (sw_db w)) as [[r tx'] db']. destruct Hl as (H1 & H2 & H3).
      destruct (IH r o (Some tx') {| sw_db := db'; sw_net := net |}) as [H4 H5];
        [apply Hs|cbn [sw_db]; by rewrite H3|done|]. cbn [sw_db] in *. rewrite H3 in H5. split; [congruence|done].
    + pose proof (do_single_local k R st f (sw_db w) Hst Hdb) as Hl.
      destruct (do_single usec d f st (sw_db w)) as [r db']. cbn [snd] in Hl. destruct Hl as [H1 H2].
      destruct (IH r o None {| sw_db := db'; sw_net := net |}) as [H4 H5];
        [apply Hs|by apply H2|done|]. cbn [sw_db] in *.
      split; [congruence|by eapply rows_local_trans].
  - pose proof (do_commit_local k f tx (sw_db w) Htx) as Hl.
    destruct (do_commit f tx (sw_db w)) as [r db']. cbn [snd] in Hl. destruct Hl as [H1 H2].
    destruct (IH r false None {| sw_db := db'; sw_net := net |}) as [H4 H5];
        [apply Hs|by apply H2|done|]. cbn [sw_db] in *.
    split; [congruence|by eapply rows_local_trans].
  - by eapply IH.
Qed.
End Laws.

(** ** The Oracle store

    Its methods, as [method] runs them for that dialect. *)

Section OracleStore.
Context (Quote : string -> string) (usec : Time -> Time) (hashtext : string -> Z).

Definition oracle_Increment := sql_Increment Quote usec Oracle.
Definition oracle_Get := sql_Get Quote.
Definition oracle_Set := sql_Set Quote usec.
Definition oracle_CompareAndSwap := sql_CompareAndSwap usec.
Definition oracle_Delete := sql_Delete Quote.
Definition oracle_AddTimestamp := sql_AddTimestamp Quote usec.
Definition oracle_CountAfter := sql_CountAfter Quote usec.
Definition oracle_TrimBefore := sql_TrimBefore Quote usec.
Definition oracle_CheckAndAddTimestamps := sql_CheckAndAddTimestamps usec hashtext Oracle.
Definition oracle_AcquireLease := sql_AcquireLease usec.
Definition oracle_ReleaseLease := sql_ReleaseLease Quote.
Definition oracle_PurgeExpired := sql_PurgeExpired.
Definition oracle_Migrate := Migrate Oracle.

(** [oracle.Store] as an implementation of the interface. *)
Definition oracle_method {R} (op : CounterOp R) : sql R :=
  match op in CounterOp R return sql R with
  | TimeNow => SNow SRet
  | Increment k v ttl => oracle_Increment k v ttl
  | Get k => oracle_Get k
  | SetVal k v ttl => oracle_Set k v ttl
  | CompareAndSwap k o n ttl => oracle_CompareAndSwap k o n ttl
  | Delete k => oracle_Delete k
  | AddTimestamp k ts ttl => oracle_AddTimestamp k ts ttl
  | CountAfter k after => oracle_CountAfter k after
  | TrimBefore k before => oracle_TrimBefore k before
  | CheckAndAddTimestamps k cutoff limit cost ts ttl => oracle_CheckAndAddTimestamps k cutoff limit cost ts ttl
  | AcquireLease k limit ttl => oracle_AcquireLease k limit ttl
  | ReleaseLease k => oracle_ReleaseLease k
  end.

Lemma oracle_method_eq {R} (op : CounterOp R) : oracle_method op = method Quote usec hashtext Oracle op.
Proof. by destruct op. Qed.
End OracleStore.
