(* ===== verification/SqlSafety.v ===== *)
(** * Limits on PostgreSQL and Oracle

    On a pool of one connection the methods of the SQL stores are not interleaved, and
    the stores keep the laws of counters and of leases ([sql_laws], [sql_lease_laws]).
    With more connections the statements of concurrent transactions interleave:
    [live_row_safe] shows that compare-and-swap keeps its limit on a row that is there
    and does not expire, and the examples show what happens on a row that is not. *)

From Stdlib Require Import Ascii String.
From S2P Require Import Prelude GoString GoFloat GoTime Model Store Protocol Common MemoryStore CasLimit FixedWindow Concurrency SqlStore.
Local Open Scope Z_scope.
Local Open Scope stdpp_scope.
Local Open Scope go_scope.

(** ** A pool of one connection *)

Lemma drop_rows_lookup tbl (dead : list (string * row)) t tbl' k :
  rows tbl' (apply_writes ((fun '(k, _) => WRow tbl k None) <$> dead) t) !! k =
  if decide (tbl' = tbl /\ k ∈ dead.*1) then None else rows tbl' t !! k.
Proof.
  revert t. induction dead as [|[k0 r0] dead IH]; intros t.
  { rewrite decide_False; [done|]. by intros [_ ?%not_elem_of_nil]. }
  cbn [fmap list_fmap apply_writes foldl]. etransitivity; [apply IH|].
  assert (Hw : rows tbl' (apply_write t (WRow tbl k0 None)) !! k = if decide (tbl' = tbl /\ k = k0) then None else rows tbl' t !! k).
  { destruct (decide (tbl' = tbl)) as [->|Hne]; [|rewrite decide_False by tauto; by destruct tbl, tbl'].
    destruct (decide (k = k0)) as [->|Hk]; [rewrite decide_True by done|rewrite decide_False by tauto];
      destruct tbl; cbn [apply_write rows t_counters t_leases];
      [apply lookup_partial_alter_eq..|apply lookup_partial_alter_ne|apply lookup_partial_alter_ne]; done. }
  rewrite Hw. cbn [fst]. repeat case_decide; try done; exfalso; rewrite elem_of_cons in *; tauto.
Qed.

Section Alone.
Context (Quote : string -> string) (usec : Time -> Time) (hashtext : string -> Z) (d : dialect).
Context `{HU : !UsecLaws usec}.

Abbreviation store := (call_alone Quote usec hashtext d).

(** The row a query sees now. *)
Definition row_now (tbl : table) (db : Db) (k : string) : option row :=
  r ← rows tbl (db_tables db) !! k; if live (usec (db_clock db)) (r_expires r) then Some r else None.

Definition value_now (tbl : table) (db : Db) (k : string) : Z := default 0 (r_value <$> row_now tbl db k).
Definition deadline_now (tbl : table) (db : Db) (k : string) : option Time := row_now tbl db k ≫= r_expires.

(** Messages fare as they may, time passes, or a statement of [PurgeExpired] runs. *)
Inductive sql_env : SqlWorld -> SqlWorld -> Prop :=
| sql_net w net : sql_env w {| sw_db := sw_db w; sw_net := net |}
| sql_tick w t :
    db_clock (sw_db w) <= t ->
    sql_env w {| sw_db := {| db_clock := t; db_tables := db_tables (sw_db w); db_next := db_next (sw_db w) |}; sw_net := sw_net w |}
| sql_purge w st f :
    st ∈ purge_statements -> sql_env w {| sw_db := (do_single usec d f st (sw_db w)).2; sw_net := sw_net w |}.

(** *** Purging *)

Lemma purge_writes st tbl db k :
  st ∈ purge_statements ->
  let t := apply_writes (ef_writes (st (usec (db_clock db)) (db_next db) (db_tables db))) (db_tables db) in
  (rows_stored usec (db_tables db) -> rows_stored usec t) /\ row_now tbl (set_tables t db) k = row_now tbl db k.
Proof.
  intros Hst. assert (Hst' : (exists tbl', st = purge_rows tbl') \/ st = purge_stamps).
  { unfold purge_statements in Hst. rewrite !elem_of_cons in Hst. destruct Hst as [->|[->|[->|[]%not_elem_of_nil]]]; eauto. }
  destruct Hst' as [[tbl' ->]| ->]; split.
  - apply apply_stored. apply Forall_fmap, Forall_true. by intros [k' r].
  - unfold row_now, purge_rows. cbn [effect_of ef_writes set_tables db_tables db_clock].
    rewrite drop_rows_lookup. case_decide as Hd; [|done]. destruct Hd as [-> Hin].
    apply list_elem_of_fmap in Hin as ([k' r] & -> & Hin). apply list_elem_of_filter in Hin as [Hdead Hin].
    apply elem_of_map_to_list in Hin. cbn [fst]. rewrite Hin. cbn. by rewrite Hdead.
  - apply apply_stored. eapply Forall_impl; [apply (drop_stamps_neutral usec _ _ Counters "")|]. by intros w [_ ?].
  - unfold row_now. cbn [set_tables db_tables db_clock]. rewrite apply_keeps; [done|].
    eapply Forall_impl; [apply (drop_stamps_neutral usec _ _ tbl k)|]. by intros w [? _].
Qed.

Lemma purge_row_now st f tbl db k :
  st ∈ purge_statements ->
  let db' := (do_single usec d f st db).2 in
  db_clock db' = db_clock db /\ (rows_stored usec (db_tables db) -> rows_stored usec (db_tables db')) /\
  row_now tbl db' k = row_now tbl db k.
Proof.
  intros Hst. destruct (purge_writes st tbl db k Hst) as [H1 H2]. unfold do_single, stmt_effect, stmt_now.
  destruct f; try destruct (ef_result (st _ _ _)); cbn [snd set_tables db_clock db_tables]; split_and!; done.
Qed.

(** *** Time *)

Lemma live_stored u e : stored usec (Some e) -> u <= e -> live (usec u) (Some e) = true.
Proof. intros He Hu. apply Z.leb_le. rewrite <- He. by apply us_mono. Qed.

Lemma tick_row_now tbl db k t :
  rows_stored usec (db_tables db) -> db_clock db <= t -> alive_until (deadline_now tbl db k) t ->
  row_now tbl {| db_clock := t; db_tables := db_tables db; db_next := db_next db |} k = row_now tbl db k.
Proof.
  intros Hs Ht Ha. unfold deadline_now, row_now in *. cbn [db_tables db_clock].
  destruct (rows tbl (db_tables db) !! k) as [r|] eqn:E; [|done]. cbn in *. specialize (Hs tbl k r E). cbn in Hs.
  destruct (r_expires r) as [e|] eqn:Ee; [|cbn in *; done]. destruct (live (usec (db_clock db)) (Some e)) eqn:El; cbn in Ha.
  - rewrite Ee in Ha. by rewrite live_stored.
  - cbn in El |- *. zify_bool. pose proof (us_mono _ _ Ht). rewrite (proj2 (Z.leb_gt _ _)) by lia. done.
Qed.

Definition sql_wf (w : SqlWorld) : Prop := rows_stored usec (db_tables (sw_db w)).

Lemma env_clock w w' : sql_env w w' -> db_clock (sw_db w) <= db_clock (sw_db w').
Proof.
  intros [w0 net|w0 t Ht|w0 st f Hst]; cbn [sw_db db_clock]; [lia|done|].
  destruct (purge_row_now st f Counters (sw_db w0) "" Hst) as (-> & _). lia.
Qed.

Lemma env_wf w w' : sql_env w w' -> sql_wf w -> sql_wf w'.
Proof.
  intros [w0 net|w0 t Ht|w0 st f Hst]; try done. intros Hw. by apply (purge_row_now st f Counters (sw_db w0) "" Hst).
Qed.

Lemma env_row tbl w w' k :
  sql_wf w -> sql_env w w' -> alive_until (deadline_now tbl (sw_db w) k) (db_clock (sw_db w')) ->
  row_now tbl (sw_db w') k = row_now tbl (sw_db w) k.
Proof.
  intros Hwf Henv. revert Hwf. destruct Henv as [w0 net|w0 t Ht|w0 st f Hst]; intros Hwf Ha; cbn [sw_db db_clock] in *; [done|by apply tick_row_now|].
  by apply (purge_row_now st f tbl (sw_db w0) k Hst).
Qed.

(** *** Compare-and-swap *)

Definition expiry (now : Time) (ttl : Duration) : option Time :=
  if ttl <=? 0 then None else Some (usec (time_Add now ttl)).

(** A program that computes its expiry first. *)
Lemma run_expiresAt {A} ttl (f : option Time -> sql A) tx w :
  run_sql usec d (expiresAt usec ttl ≫= f) tx w = run_sql usec d (f (expiry (db_clock (sw_db w)) ttl)) tx w.
Proof.
  unfold expiresAt, expiry. case_step; [done|]. unfold mbind, sql_mbind. cbn [sql_bind run_sql].
  by destruct (next_fault (sw_net w)).
Qed.

Lemma expiry_live now ttl : live (usec now) (expiry now ttl) = true.
Proof. unfold expiry, time_Add. case_step; [done|]. zify_bool. apply Z.leb_le, us_mono. lia. Qed.

Lemma expiry_alive now ttl t : 0 < ttl -> t <= now + ttl - Microsecond -> alive_until (expiry now ttl) t.
Proof.
  intros H Ht. unfold expiry, time_Add. case_step; zify_bool; [lia|]. cbn. pose proof (us_near (now + ttl)). lia.
Qed.

(** A statement of a transaction on a database that stays as it is. *)
Definition quiet_tx (tx : Tx) (db : Db) : Prop :=
  tx_now tx = usec (db_clock db) /\ tx_snapshot tx = None /\ tx_writes tx = [] /\ tx_dead tx = false.

Lemma quiet_now tx db : quiet_tx tx db -> stmt_now usec d (Some tx) db = usec (db_clock db).
Proof. intros (H & _). unfold stmt_now. by destruct d. Qed.

Lemma quiet_effect {R} (st : statement R) tx db :
  quiet_tx tx db -> tx_effect usec d st tx db = st (usec (db_clock db)) (db_next db) (db_tables db).
Proof.
  intros Hq. unfold tx_effect. rewrite (quiet_now tx db Hq). destruct Hq as (_ & H1 & H2 & _).
  unfold tx_view. rewrite H1, H2. done.
Qed.

(** Whatever way messages fare, [got] stands for the answer to a SELECT ... FOR UPDATE. *)
Definition sees (tbl : table) (k : string) (db : Db) (got : result (option int64)) : Prop :=
  match got with Ok o => o = r_value <$> row_now tbl db k | Err _ => True end.

Lemma select_sees tbl k fu db id :
  sees tbl k db (ef_result (select_value tbl k fu (usec (db_clock db)) id (db_tables db))).
Proof.
  unfold sees, select_value, row_now. destruct (rows tbl (db_tables db) !! k) as [r|]; cbn; [|done].
  destruct (live _ _); cbn; [|done]. unfold scan. by case_step.
Qed.

Lemma run_select {A} tbl k (f : result (option int64) -> sql A) tx w :
  quiet_tx tx (sw_db w) ->
  exists got tx' w', run_sql usec d (stmt (select_value tbl k true) ≫= f) (Some tx) w = run_sql usec d (f got) (Some tx') w' /\
    sees tbl k (sw_db w) got /\ db_clock (sw_db w') = db_clock (sw_db w) /\ db_tables (sw_db w') = db_tables (sw_db w) /\
    (is_ok got = true -> quiet_tx tx' (sw_db w')).
Proof.
  intros Hq. unfold mbind, sql_mbind, stmt. cbn [sql_bind run_sql]. destruct (next_fault (sw_net w)) as [ft net].
  pose proof (select_sees tbl k true (sw_db w) (db_next (sw_db w))) as Hsees.
  unfold do_in_tx, stmt_effect. rewrite (quiet_effect _ tx _ Hq). destruct Hq as (H1 & H2 & H3 & H4). rewrite H4.
  assert (Hw : ef_writes (select_value tbl k true (usec (db_clock (sw_db w))) (db_next (sw_db w)) (db_tables (sw_db w))) = []).
  { unfold select_value. by repeat case_match. }
  destruct ft as [|e|e]; [destruct (ef_result _) as [o|e] eqn:E|..]; eexists _, _, _; (split; [done|]); cbn [sw_db].
  - split_and!; [done..|]. intros _. rewrite Hw, app_nil_r. done.
  - by split_and!.
  - by split_and!.
  - by split_and!.
Qed.

(** The last statement of a transaction, and its commit: the writes take effect or they
    do not, and they do when the commit succeeds. *)
Definition write_and_commit {B} (st : statement unit) (wrapped : string -> string) (g : result unit -> result B) : sql (result B) :=
  r ← stmt st; on_ok r wrapped (fun _ => c ← commit; mret (g c)).

Lemma run_last {B} (st : statement unit) ws ls wrapped (g : result unit -> result B) tx w :
  quiet_tx tx (sw_db w) ->
  st (usec (db_clock (sw_db w))) (db_next (sw_db w)) (db_tables (sw_db w)) = effect_of (Ok tt) ws ls ->
  let t := db_tables (sw_db w) in
  let '(r, w') := run_sql usec d (deferred (write_and_commit st wrapped g)) (Some tx) w in
  (r = g (Ok tt) /\ db_tables (sw_db w') = apply_writes ws t) \/
  (((exists e, r = Err e) \/ exists e, r = g (Err e)) /\
   (db_tables (sw_db w') = t \/ db_tables (sw_db w') = apply_writes ws t)).
Proof.
  intros Hq Hst. unfold write_and_commit, deferred, commit, mbind, sql_mbind, stmt. cbn [sql_bind run_sql].
  destruct (next_fault (sw_net w)) as [ft net]. unfold do_in_tx, stmt_effect. rewrite (quiet_effect _ tx _ Hq), Hst.
  destruct Hq as (H1 & H2 & H3 & H4). rewrite H4. cbn [effect_of ef_result ef_writes ef_locks].
  destruct ft as [|e|e]; cbn [on_ok sql_bind run_sql mret sql_mret sw_net sw_db]; destruct (next_fault net) as [fc net'];
    try (right; split; [by eauto|by left]).
  unfold do_commit. cbn [tx_dead tx_writes]. rewrite H3. cbn [app].
  destruct fc as [|e|e]; cbn [run_sql sw_net sw_db set_tables db_tables]; destruct (next_fault net');
    cbn [sw_db set_tables db_tables]; [left; done|right; split; [by eauto|by left]|right; split; [by eauto|by right]].
Qed.

(** A transaction that begins with a SELECT ... FOR UPDATE. *)
Lemma run_locked {B} tbl k ttl wrapped (f : option Time -> result (option int64) -> sql (result B)) w :
  let exp := expiry (db_clock (sw_db w)) ttl in
  let '(r, w') := run_sql usec d (exp ← expiresAt usec ttl; b ← begin_tx false;
    on_ok b wrapped (fun _ => deferred (got ← stmt (select_value tbl k true); f exp got))) None w in
  ((exists e, r = Err e) /\ db_tables (sw_db w') = db_tables (sw_db w)) \/
  exists got tx w1, (r, w') = run_sql usec d (deferred (f exp got)) (Some tx) w1 /\
    sees tbl k (sw_db w) got /\ db_clock (sw_db w1) = db_clock (sw_db w) /\ db_tables (sw_db w1) = db_tables (sw_db w) /\
    (is_ok got = true -> quiet_tx tx (sw_db w1)).
Proof.
  cbv zeta. rewrite run_expiresAt. set (exp := expiry _ ttl).
  change (run_sql usec d (begin_tx false ≫= ?f) None w) with (run_sql usec d (SBegin false f) None w). cbn [run_sql].
  destruct (next_fault (sw_net w)) as [fb net]. unfold do_begin.
  destruct fb as [|e|e]; [|cbn [on_ok run_sql mret sql_mret]; destruct (next_fault _); left; by eauto..].
  cbn [on_ok]. set (tx := {| tx_now := _ |}). set (w1 := {| sw_db := sw_db w; sw_net := net |}).
  assert (Hq : quiet_tx tx (sw_db w1)) by done.
  change (deferred (stmt (select_value tbl k true) ≫= ?p)) with (stmt (select_value tbl k true) ≫= fun got => deferred (f exp got)).
  destruct (run_select tbl k (fun got => deferred (f exp got)) tx w1 Hq) as (got & tx' & w2 & -> & Hs & Hc & Ht & Hq').
  destruct (run_sql usec d (deferred (f exp got)) (Some tx') w2) eqn:E. right. by exists got, tx', w2.
Qed.

Lemma run_deferred_ret {B} (r : B) tx w : run_sql usec d (deferred (mret r)) tx w = (r, w).
Proof. cbn. by destruct (next_fault (sw_net w)), (next_fault (sw_net w)). Qed.

Lemma cas_alone w k o n ttl :
  let now := db_clock (sw_db w) in
  let '(r, w') := store _ (CompareAndSwap k o n ttl) w in
  let t := db_tables (sw_db w) in
  let t' := db_tables (sw_db w') in
  let swapped := value_now Counters (sw_db w) k = o /\ t_counters t' !! k = Some {| r_value := n; r_expires := expiry now ttl |} in
  match r with
  | Ok true => swapped
  | Ok false | Err _ => t' = t \/ swapped
  end.
Proof.
  cbv zeta. unfold call_alone, method, sql_CompareAndSwap. set (exp := expiry _ ttl).
  pose proof (run_locked Counters k ttl (fun e => "cas begin: " +:+ e) (cas_selected k o n) w) as Hrun. cbv zeta in Hrun.
  fold exp in Hrun. destruct (run_sql usec d _ None w) as [r w']. destruct Hrun as [[[e ->] ->]|(got & tx & w1 & Hrun & Hs & Hc & Ht & Hq)].
  { by left. }
  assert (Hlast : forall st ls, quiet_tx tx (sw_db w1) -> value_now Counters (sw_db w) k = o ->
    st (usec (db_clock (sw_db w1))) (db_next (sw_db w1)) (db_tables (sw_db w1)) =
      effect_of (Ok tt) [WRow Counters k (Some {| r_value := n; r_expires := exp |})] ls ->
    forall wrapped, (r, w') = run_sql usec d (deferred (write_and_commit st wrapped (fun c => Ok (is_ok c)))) (Some tx) w1 ->
    let swapped := value_now Counters (sw_db w) k = o /\ t_counters (db_tables (sw_db w')) !! k = Some {| r_value := n; r_expires := exp |} in
    match r with
    | Ok true => swapped
    | Ok false | Err _ => db_tables (sw_db w') = db_tables (sw_db w) \/ swapped
    end).
  { intros st ls Hq' Hv Hst wrapped E. pose proof (run_last st _ ls wrapped (fun c => Ok (is_ok c)) tx w1 Hq' Hst) as Hl.
    cbv zeta in Hl. rewrite <- E, Ht in Hl. cbv zeta.
    assert (Hput : db_tables (sw_db w') = apply_writes [WRow Counters k (Some {| r_value := n; r_expires := exp |})] (db_tables (sw_db w)) ->
      t_counters (db_tables (sw_db w')) !! k = Some {| r_value := n; r_expires := exp |}).
    { intros ->. apply lookup_partial_alter_eq. }
    destruct Hl as [[-> H]|[[[e ->]|[e ->]] [H|H]]]; cbn [is_ok]; auto. }
  unfold cas_selected in Hrun. destruct got as [[cur|]|e].
  - destruct (negb (cur =? o)) eqn:E; [rewrite run_deferred_ret in Hrun; simplify_eq; by left|]. zify_bool. subst cur.
    specialize (Hq eq_refl). cbn [sees] in Hs. destruct (row_now Counters (sw_db w) k) as [r0|] eqn:Er; [|done].
    eapply (Hlast (update_row k n exp)); [done| | |exact Hrun].
    + unfold value_now. rewrite Er. by injection Hs.
    + unfold update_row. rewrite Ht. unfold row_now in Er. cbn [rows] in Er. by destruct (t_counters (db_tables (sw_db w)) !! k).
  - destruct (negb (o =? 0)) eqn:E; [rewrite run_deferred_ret in Hrun; simplify_eq; by left|]. zify_bool. subst o.
    specialize (Hq eq_refl). eapply (Hlast (upsert Counters k n exp)); [done| |done|exact Hrun].
    unfold value_now. cbn [sees] in Hs. by rewrite <- Hs.
  - rewrite run_deferred_ret in Hrun. simplify_eq. by left.
Qed.

(** *** The laws of counters *)

Lemma run_clock {A} (p : sql A) tx w : db_clock (sw_db (run_sql usec d p tx w).2) = db_clock (sw_db w).
Proof.
  revert tx w. induction p as [a|kk IH|s kk IH|R st kk IH|kk IH|kk IH]; intros tx w; cbn [run_sql];
    destruct (next_fault (sw_net w)) as [f net]; try done; try apply IH.
  - destruct (do_begin usec f s (sw_db w)). by rewrite IH.
  - destruct tx as [tx|].
    + destruct (do_in_tx usec d f st tx (sw_db w)) as [[r tx'] db'] eqn:E. rewrite IH. cbn [sw_db].
      unfold do_in_tx in E. case_step; [by simplify_eq|].
      destruct f; [destruct (ef_result (stmt_effect usec d st (Some tx) (sw_db w)))|..]; by simplify_eq.
    + destruct (do_single usec d f st (sw_db w)) as [r db'] eqn:E. rewrite IH. cbn [sw_db].
      unfold do_single in E. destruct f, (ef_result (stmt_effect usec d st None (sw_db w))); by simplify_eq.
  - destruct (do_commit f tx (sw_db w)) as [r db'] eqn:E. rewrite IH. cbn [sw_db]. unfold do_commit in E.
    destruct tx as [tx|]; [case_step; [|destruct f]|]; by simplify_eq.
Qed.

Lemma alone_local {R} (op : CounterOp R) k w :
  op_key op = Some k -> sql_wf w -> rows_local usec k (db_tables (sw_db w)) (db_tables (sw_db (store _ op w).2)).
Proof.
  intros Hk Hwf. apply (run_local usec d k closed false (method Quote usec hashtext d op) None w); [|done|done].
  by apply method_sends.
Qed.

Lemma alone_now w : store _ TimeNow w = (db_clock (sw_db w), w).
Proof. unfold call_alone. cbn. by destruct (next_fault (sw_net w)). Qed.

Lemma alone_wf {R} (op : CounterOp R) w : sql_wf w -> sql_wf (store _ op w).2.
Proof.
  intros Hwf. destruct (op_key op) as [k|] eqn:Hk; [by apply (alone_local op k w Hk Hwf)|].
  destruct op; try done. by rewrite alone_now.
Qed.

Lemma alone_row {R} (op : CounterOp R) tbl w k :
  sql_wf w -> op_key op <> Some k -> row_now tbl (sw_db (store _ op w).2) k = row_now tbl (sw_db w) k.
Proof.
  intros Hwf Hne. destruct (op_key op) as [k'|] eqn:Hk.
  - unfold row_now. destruct (alone_local op k' w Hk Hwf) as [_ ->]; [|congruence]. unfold call_alone. by rewrite run_clock.
  - destruct op; try done. by rewrite alone_now.
Qed.

Lemma alone_get w k :
  let '(r, w') := store _ (Get k) w in
  (r = Ok (value_now Counters (sw_db w) k) \/ exists e, r = Err e) /\ db_tables (sw_db w') = db_tables (sw_db w).
Proof.
  unfold call_alone, method, sql_Get, mbind, sql_mbind, stmt. cbn [sql_bind run_sql].
  destruct (next_fault (sw_net w)) as [f net]. unfold do_single, stmt_effect, stmt_now.
  pose proof (select_sees Counters k false (sw_db w) (db_next (sw_db w))) as Hs.
  assert (Hw : ef_writes (select_value Counters k false (usec (db_clock (sw_db w))) (db_next (sw_db w)) (db_tables (sw_db w))) = []).
  { unfold select_value. by repeat case_match. }
  rewrite Hw. destruct f; destruct (ef_result _) as [o|e']; cbn [on_ok run_sql mret sql_mret sw_net sw_db];
    destruct (next_fault net); cbn [sw_db set_tables db_tables]; split; try done; eauto.
  left. cbn [sees] in Hs. by subst o.
Qed.

Lemma row_now_put tbl db k r :
  rows tbl (db_tables db) !! k = Some r -> live (usec (db_clock db)) (r_expires r) = true -> row_now tbl db k = Some r.
Proof. intros H1 H2. unfold row_now. rewrite H1. cbn. by rewrite H2. Qed.

#[export] Instance sql_laws : StoreLaws store sql_env.
Proof.
  refine {|
    sl_wf := sql_wf;
    sl_clock w := db_clock (sw_db w);
    sl_value w k := value_now Counters (sw_db w) k;
    sl_deadline w k := deadline_now Counters (sw_db w) k;
    sl_cap := maxInt64;
    sl_slack := Microsecond
  |}.
  - intros R op w. apply alone_wf.
  - apply env_wf.
  - apply alone_now.
  - intros R op w. apply run_clock.
  - intros R op w k Hwf Hne. unfold value_now, deadline_now. by rewrite alone_row.
  - intros w k Hwf. pose proof (alone_get w k) as Hg. pose proof (run_clock (method Quote usec hashtext d (Get k)) None w) as Hc.
    unfold call_alone in *. destruct (run_sql _ _ _ None w) as [r w']. destruct Hg as [Hr Ht]. split; [done|].
    unfold value_now, deadline_now, row_now. cbn [snd] in *. by rewrite Ht, Hc.
  - intros w k oldVal newVal ttl Hwf Ho. pose proof (cas_alone w k oldVal newVal ttl) as Hcas. cbv zeta in Hcas.
    pose proof (run_clock (method Quote usec hashtext d (CompareAndSwap k oldVal newVal ttl)) None w) as Hc.
    unfold call_alone in *. destruct (run_sql _ _ _ None w) as [r w']. cbn [snd] in Hc. cbv zeta.
    assert (Hsw : value_now Counters (sw_db w) k = oldVal /\ t_counters (db_tables (sw_db w')) !! k =
        Some {| r_value := newVal; r_expires := expiry (db_clock (sw_db w)) ttl |} ->
      value_now Counters (sw_db w) k = oldVal /\ value_now Counters (sw_db w') k = newVal /\
      (0 < ttl <= maxInt64 -> alive_until (deadline_now Counters (sw_db w') k) (db_clock (sw_db w) + ttl - Microsecond))).
    { intros [Hv Hp]. unfold value_now at 2, deadline_now.
      rewrite (row_now_put Counters (sw_db w') k _ Hp) by (rewrite Hc; apply expiry_live). cbn.
      split_and!; [done|done|]. intros [H1 H2]. apply expiry_alive; lia. }
    assert (Hun : db_tables (sw_db w') = db_tables (sw_db w) ->
      value_now Counters (sw_db w') k = value_now Counters (sw_db w) k /\
      deadline_now Counters (sw_db w') k = deadline_now Counters (sw_db w) k).
    { intros E. unfold value_now, deadline_now, row_now. by rewrite E, Hc. }
    destruct r as [[]|e]; [by auto|destruct Hcas; auto..].
  - intros w w' Henv. by apply env_clock.
  - intros w w' k Hwf Henv Ha. unfold value_now, deadline_now. by rewrite (env_row Counters w w' k Hwf Henv Ha).
Defined.

(** *** The laws of leases *)

Lemma acquire_alone w k limit ttl :
  0 < limit <= maxInt64 -> 0 <= value_now Leases (sw_db w) k ->
  let '(r, w') := store _ (AcquireLease k limit ttl) w in
  let taken := value_now Leases (sw_db w) k < limit /\
    t_leases (db_tables (sw_db w')) !! k =
      Some {| r_value := value_now Leases (sw_db w) k + 1; r_expires := expiry (db_clock (sw_db w)) ttl |} in
  match r with
  | Ok (true, _) => taken
  | _ => db_tables (sw_db w') = db_tables (sw_db w) \/ taken
  end.
Proof.
  intros Hl Hv. unfold call_alone, method, sql_AcquireLease. rewrite (proj2 (Z.leb_gt limit 0)) by lia. set (exp := expiry _ ttl).
  pose proof (run_locked Leases k ttl (fun e => "acquire lease begin: " +:+ e) (acquire_selected k limit) w) as Hrun. cbv zeta in Hrun.
  fold exp in Hrun. destruct (run_sql usec d _ None w) as [r w']. destruct Hrun as [[[e ->] ->]|(got & tx & w1 & Hrun & Hs & Hc & Ht & Hq)].
  { by left. }
  unfold acquire_selected in Hrun. destruct got as [o|e]; cbn [on_ok] in Hrun; [|rewrite run_deferred_ret in Hrun; simplify_eq; by left].
  assert (Ho : default 0 o = value_now Leases (sw_db w) k) by (unfold value_now; cbn [sees] in Hs; by subst o).
  rewrite Ho in Hrun. destruct (limit <=? value_now Leases (sw_db w) k) eqn:E; zify_bool.
  { rewrite run_deferred_ret in Hrun. simplify_eq. by left. }
  set (v := value_now Leases (sw_db w) k) in *. rewrite (wrap64_small (v + 1)) in Hrun by (unfold in_int64, minInt64; lia).
  set (g := fun c : result unit => match c with Ok _ => Ok (true, v + 1) | Err e => Err e end).
  set (st := upsert Leases k (v + 1) exp) in *. set (wr := fun e => "acquire lease upsert: " +:+ e) in *.
  pose proof (run_last st _ [LRow Leases k] wr g tx w1 (Hq eq_refl) eq_refl) as Hlast.
  replace (run_sql usec d (deferred (write_and_commit st wr g)) (Some tx) w1) with (r, w') in Hlast.
  - cbv zeta in Hlast. rewrite Ht in Hlast.
    assert (Hput : db_tables (sw_db w') = apply_writes [WRow Leases k (Some {| r_value := v + 1; r_expires := exp |})] (db_tables (sw_db w)) ->
      t_leases (db_tables (sw_db w')) !! k = Some {| r_value := v + 1; r_expires := exp |}).
    { intros ->. apply lookup_partial_alter_eq. }
    destruct Hlast as [[-> H]|[[[e ->]|[e ->]] [H|H]]]; cbn [g]; auto.
  - rewrite Hrun. unfold write_and_commit, deferred, mbind, sql_mbind, stmt, commit. cbn [sql_bind run_sql].
    destruct (next_fault (sw_net w1)) as [f1 net1]. destruct (do_in_tx usec d f1 st tx (sw_db w1)) as [[[[]|e] tx'] db']; [|done].
    cbn [on_ok sql_bind run_sql sw_net]. destruct (next_fault net1) as [f2 net2]. by destruct (do_commit f2 _ _) as [[[]|e] db''].
Qed.

Lemma release_alone w k :
  let w' := (store _ (ReleaseLease k) w).2 in
  db_tables (sw_db w') = db_tables (sw_db w) \/
  exists r, t_leases (db_tables (sw_db w)) !! k = Some r /\
    t_leases (db_tables (sw_db w')) !! k = Some {| r_value := Z.max (r_value r - 1) 0; r_expires := r_expires r |}.
Proof.
  unfold call_alone, method, sql_ReleaseLease, mbind, sql_mbind, stmt. cbn [sql_bind run_sql].
  destruct (next_fault (sw_net w)) as [f net]. unfold do_single, stmt_effect, update_release.
  destruct (t_leases (db_tables (sw_db w)) !! k) as [r|]; cbn [effect_of ef_result ef_writes];
    destruct f; cbn [on_ok run_sql mret sql_mret sw_net]; destruct (next_fault net); cbn [snd sw_db set_tables db_tables]; auto;
    right; exists r; (split; [done|]); apply lookup_partial_alter_eq.
Qed.

Lemma env_row_or_none tbl w w' k :
  sql_wf w -> sql_env w w' -> row_now tbl (sw_db w') k = row_now tbl (sw_db w) k \/ row_now tbl (sw_db w') k = None.
Proof.
  intros Hwf Henv. destruct Henv as [w net|w t Ht|w st f Hst]; cbn [sw_db]; [by left| |].
  - unfold row_now. cbn [db_tables db_clock]. destruct (rows tbl (db_tables (sw_db w)) !! k) as [r|]; cbn; [|by left].
    destruct (live (usec t) (r_expires r)) eqn:E; [left|by right]. enough (live (usec (db_clock (sw_db w))) (r_expires r) = true) as -> by done.
    destruct (r_expires r) as [e|]; [|done]. cbn in *. zify_bool. pose proof (us_mono _ _ Ht). apply Z.leb_le. lia.
  - left. by apply (purge_row_now st f tbl (sw_db w) k Hst).
Qed.

#[export] Instance sql_forget : ForgetLaws store sql_env.
Proof.
  constructor. intros w w' k Hwf He. cbn. unfold value_now. destruct (env_row_or_none Counters w w' k Hwf He) as [->| ->]; auto.
Qed.

#[export] Instance sql_lease_laws : LeaseLaws store sql_env.
Proof.
  refine {|
    ls_wf _ := True;
    ls_count w k := value_now Leases (sw_db w) k;
    ls_deadline w k := deadline_now Leases (sw_db w) k;
    ls_cap := maxInt64;
    ls_unit := 1
  |}; try done.
  - intros w k limit ttl Hwf _ Hv Hl Httl. pose proof (acquire_alone w k limit ttl Hl Hv) as Ha.
    pose proof (run_clock (method Quote usec hashtext d (AcquireLease k limit ttl)) None w) as Hc.
    unfold call_alone in *. destruct (run_sql _ _ _ None w) as [r w']. cbn [snd] in Hc. cbv zeta in Ha.
    assert (Htaken : value_now Leases (sw_db w) k < limit /\ t_leases (db_tables (sw_db w')) !! k =
        Some {| r_value := value_now Leases (sw_db w) k + 1; r_expires := expiry (db_clock (sw_db w)) ttl |} ->
      value_now Leases (sw_db w') k = value_now Leases (sw_db w) k + 1 /\ value_now Leases (sw_db w) k + 1 <= limit /\
      forall t, t <= db_clock (sw_db w) + ttl - Microsecond -> alive_until (deadline_now Leases (sw_db w') k) t).
    { intros [Hlt Hp]. unfold value_now at 1, deadline_now.
      rewrite (row_now_put Leases (sw_db w') k _ Hp) by (rewrite Hc; apply expiry_live). cbn.
      split_and!; [done|lia|]. intros t Ht. apply expiry_alive; lia. }
    assert (Hun : db_tables (sw_db w') = db_tables (sw_db w) ->
      value_now Leases (sw_db w') k = value_now Leases (sw_db w) k /\
      deadline_now Leases (sw_db w') k = deadline_now Leases (sw_db w) k).
    { intros E. unfold value_now, deadline_now, row_now. by rewrite E, Hc. }
    cbn [sl_clock sl_slack sql_laws].
    destruct r as [[[] n]|e]; [destruct (Htaken Ha) as (-> & H1 & H2); split; [lia|]; by apply H2|..];
      (destruct Ha as [Ha|Ha]; [destruct (Hun Ha) as [-> ->]; split; [lia|done]|
        destruct (Htaken Ha) as (-> & H1 & H2); split; [lia|]; intros; by apply H2]).
  - intros w k Hwf _ Hv. pose proof (release_alone w k) as Hr.
    pose proof (run_clock (method Quote usec hashtext d (ReleaseLease k)) None w) as Hc.
    unfold call_alone in *. destruct (run_sql _ _ _ None w) as [r w']. cbn [snd] in *. cbv zeta.
    unfold value_now, deadline_now in *. destruct Hr as [E|(r0 & H1 & H2)].
    + unfold row_now. rewrite E, Hc. split; [lia|done].
    + assert (Hlive : row_now Leases (sw_db w) k = Some r0).
      { unfold row_now in *. cbn [rows] in *. rewrite H1 in *. cbn in *. by destruct (live _ _). }
      assert (Hlive' := Hlive). unfold row_now in Hlive'. cbn [rows] in Hlive'. rewrite H1 in Hlive'. cbn in Hlive'.
      destruct (live (usec (db_clock (sw_db w))) (r_expires r0)) eqn:El; [|done].
      rewrite Hlive in *. rewrite (row_now_put Leases (sw_db w') k _ H2) by (cbn; by rewrite Hc). cbn in *.
      split; [lia|done].
  - intros w w' k Hwf Henv Hv. split.
    + unfold value_now in *. destruct (env_row_or_none Leases w w' k Hwf Henv) as [->| ->]; [done|cbn; lia].
    + intros Ha. unfold value_now, deadline_now. by rewrite (env_row Leases w w' k Hwf Henv Ha).
Defined.
End Alone.

(** ** Interleaved statements *)

Section Interleaved.
Context (Quote : string -> string) (usec : Time -> Time) (hashtext : string -> Z) (d : dialect).
Context `{HU : !UsecLaws usec}.
Context (key : string) (limit start life : Z) (life_pos : 0 < life) (limit_fits : limit <= maxInt64).
Context {A : Type} (claims : A -> Z).

Abbreviation horizon := (start + life - Microsecond).
Abbreviation follows := (obeys key limit start life claims).
Abbreviation compiled := (compile Quote usec hashtext d).
Abbreviation the_lock := (LRow Counters key).

(** The row of the counter is there and outlives the window. *)
Definition row_is (t : Tables) (v : Z) : Prop :=
  rows_stored usec t /\
  exists exp, t_counters t !! key = Some {| r_value := v; r_expires := exp |} /\ alive_until exp horizon.

(** A client in the middle of a swap of the counter. *)
Definition swapping (lb : Time) (spent o n : Z) (exp : option Time) (k : result bool -> prog A) : Prop :=
  0 <= o <= n /\ n <= limit /\ alive_until exp horizon /\ stored usec exp /\
  follows lb (spent + (n - o)) (k (Ok true)) /\ follows lb spent (k (Ok false)) /\ forall e, follows lb spent (k (Err e)).

(** The rest of the swap once the row has been read. *)
Definition swap_rest (o n : Z) (exp : option Time) (k : result bool -> prog A) (got : result (option int64)) : sql A :=
  sql_bind (fun r => compiled (k r)) (deferred (cas_selected key o n exp got)).

(** A transaction of a swap: what it has written, and whether it has the row. *)
Definition swap_tx (c : Time) (ws : list write) (tx : Tx) : Prop :=
  tx_now tx <= usec c /\ tx_snapshot tx = None /\ tx_writes tx = ws /\ tx_dead tx = false.

Definition holds (s : session A) : Prop := match ss_tx s with Some tx => the_lock ∈ tx_locks tx | None => False end.

(** Where a client is that has added [spent] to the counter, when the clock shows [c]
    and the committed value is [v]. *)
Inductive at_work (c : Time) (v : Z) : session A -> Z -> Prop :=
| work_rest lb spent p :
    0 <= spent -> lb <= c -> follows lb spent p -> at_work c v (idle Quote usec hashtext d p) spent
| work_other {R} k0 opened (m : sql R) (k : R -> prog A) tx lb spent :
    0 <= spent -> lb <= c -> k0 <> key -> sends (about usec k0) closed opened m ->
    (opened = false -> tx = None) -> tx_local usec k0 tx -> (forall r, follows lb spent (k r)) ->
    at_work c v {| ss_prog := sql_bind (fun r => compiled (k r)) m; ss_tx := tx |} spent
| work_end lb spent p tx :
    0 <= spent -> lb <= c -> follows lb spent p -> at_work c v {| ss_prog := SRollback (compiled p); ss_tx := tx |} spent
| work_begin lb spent o n exp k :
    0 <= spent -> lb <= c -> swapping lb spent o n exp k ->
    at_work c v {| ss_prog := SBegin false (fun b => sql_bind (fun r => compiled (k r))
                     (on_ok b (fun e => "cas begin: " +:+ e) (fun _ =>
                        deferred (got ← stmt (select_value Counters key true); cas_selected key o n exp got))));
                   ss_tx := None |} spent
| work_select lb spent o n exp k tx :
    0 <= spent -> lb <= c -> swapping lb spent o n exp k -> swap_tx c [] tx ->
    at_work c v {| ss_prog := SStmt (select_value Counters key true) (swap_rest o n exp k); ss_tx := Some tx |} spent
| work_update lb spent n exp k tx :
    0 <= spent -> lb <= c -> swapping lb spent v n exp k -> swap_tx c [] tx -> the_lock ∈ tx_locks tx ->
    at_work c v {| ss_prog := swap_rest v n exp k (Ok (Some v)); ss_tx := Some tx |} spent
| work_commit lb spent n exp k tx :
    0 <= spent -> lb <= c -> swapping lb spent v n exp k ->
    swap_tx c [WRow Counters key (Some {| r_value := n; r_expires := exp |})] tx -> the_lock ∈ tx_locks tx ->
    at_work c v {| ss_prog := SCommit (fun r => SRollback (compiled (k (Ok (is_ok r))))); ss_tx := Some tx |} spent.

Lemma at_work_later c c' v s spent : c <= c' -> at_work c v s spent -> at_work c' v s spent.
Proof.
  intros Hc. assert (Hu := us_mono _ _ Hc). assert (Htx : forall ws tx, swap_tx c ws tx -> swap_tx c' ws tx).
  { intros ws tx (H1 & H2). split; [lia|done]. }
  destruct 1 as [| |lb spent p tx| | | |].
  - by apply (work_rest _ _ lb); [|lia|].
  - by apply (work_other _ _ k0 opened m k tx lb); [|lia|..].
  - by eapply (work_end _ _ lb); [|lia|].
  - by eapply (work_begin _ _ lb); [|lia|].
  - by eapply (work_select _ _ lb); [|lia|..|auto].
  - by eapply (work_update _ _ lb); [|lia|..|auto|].
  - by eapply (work_commit _ _ lb spent n exp); [|lia|..|auto|].
Qed.

(** The committed value matters only to the client that has the row. *)
Lemma at_work_value c v v' s spent : ~ holds s -> at_work c v s spent -> at_work c v' s spent.
Proof.
  intros Hh. destruct 1 as [| |lb spent p tx| | | |].
  - by apply (work_rest _ _ lb).
  - by apply (work_other _ _ k0 opened m k tx lb).
  - by apply (work_end _ _ lb).
  - by apply (work_begin _ _ lb).
  - by eapply (work_select _ _ lb).
  - by destruct Hh.
  - by destruct Hh.
Qed.

(** One message of a client: the counter grows by what it adds, only the client that
    has the row changes it, and a client gets the row only when no other has it. *)
Definition progress (held : list lock) (v : Z) (s : session A) (spent : Z) (db : Db) (s' : session A) (db' : Db) : Prop :=
  exists spent' v',
    at_work (db_clock db) v' s' spent' /\ row_is (db_tables db') v' /\ 0 <= v' <= limit /\ spent' - spent <= v' - v /\
    db_clock db' = db_clock db /\ (~ holds s -> v' = v) /\ (holds s' -> holds s \/ the_lock ∉ held).

Lemma progress_same held v s spent db s' db' :
  at_work (db_clock db) v s' spent -> row_is (db_tables db) v -> 0 <= v <= limit ->
  db_tables db' = db_tables db -> db_clock db' = db_clock db -> (holds s' -> holds s) ->
  progress held v s spent db s' db'.
Proof. intros H1 H2 H3 H4 H5 H6. exists spent, v. rewrite H4. split_and!; try done; try lia. auto. Qed.

Lemma follows_other {R} (op : CounterOp R) k0 k lb spent :
  op_key op = Some k0 -> k0 <> key -> follows lb spent (Call op k) -> forall r, follows lb spent (k r).
Proof.
  intros Hk Hne Hf r. destruct op; simplify_eq/=; cbn [obeys] in Hf; try (by apply Hf).
  - destruct Hf as [H1 H2]. destruct r; [by apply H1|apply H2].
  - destruct Hf as (_ & H1 & H2 & H3). rewrite decide_False in H1 by done. destruct r as [[]|]; auto.
Qed.

(** A client at work on another key. *)
Lemma other_step {R} c v held f (m : sql R) (k : R -> prog A) k0 opened tx lb spent db s' db' :
  c = db_clock db -> row_is (db_tables db) v -> 0 <= v <= limit ->
  0 <= spent -> lb <= c -> k0 <> key -> sends (about usec k0) closed opened m ->
  (opened = false -> tx = None) -> tx_local usec k0 tx -> (forall r, follows lb spent (k r)) ->
  (forall r, m <> SRet r) ->
  session_step usec d held f {| ss_prog := sql_bind (fun r => compiled (k r)) m; ss_tx := tx |} db = Some (s', db') ->
  progress held v {| ss_prog := sql_bind (fun r => compiled (k r)) m; ss_tx := tx |} spent db s' db'.
Proof.
  intros -> Hrow Hv Hsp Hlb Hne Hs Hop Htx Hk Hm Hstep. pose proof Hrow as [Hst (exp & Hexp & Ha)].
  assert (Hno : forall p' tx', tx_local usec k0 tx' -> ~ holds {| ss_prog := p'; ss_tx := tx' |}).
  { intros p' [tx'|] Hl; [|by intros []]. destruct Hl as (_ & _ & Hl). intros Hin. by destruct (Hl Counters key (not_eq_sym Hne)) as [_ Hl']. }
  assert (Hsame : forall m' tx' opened', sends (about usec k0) closed opened' m' -> (opened' = false -> tx' = None) ->
    tx_local usec k0 tx' -> db_clock db' = db_clock db -> rows_local usec k0 (db_tables db) (db_tables db') ->
    s' = {| ss_prog := sql_bind (fun r => compiled (k r)) m'; ss_tx := tx' |} ->
    progress held v {| ss_prog := sql_bind (fun r => compiled (k r)) m; ss_tx := tx |} spent db s' db').
  { intros m' tx' opened' Hs' Hop' Htx' Hc [Hl1 Hl2] ->. exists spent, v. split_and!; try lia; try done.
    - by eapply (work_other _ v k0 opened').
    - split; [by auto|]. exists exp. split; [|done]. rewrite <- Hexp. by apply (Hl2 Counters).
    - intros Hh. by destruct (Hno _ _ Htx' Hh). }
  destruct m as [r|kk|ser kk|R' st kk|kk|kk]; [by destruct (Hm r)|..];
    cbn [sends sql_bind session_step ss_prog ss_tx] in *.
  - simplify_eq. eapply (Hsame (kk (db_clock db'))); auto using rows_local_refl.
  - destruct Hs as [Hs1 Hs2]. pose proof (do_begin_local usec k0 f ser db Hst) as Hb.
    destruct f; cbn [do_begin snd] in *; simplify_eq;
      [refine (Hsame _ _ true Hs1 _ Hb eq_refl (rows_local_refl _ _ _) eq_refl)|
       refine (Hsame _ None false (Hs2 e) _ I eq_refl (rows_local_refl _ _ _) eq_refl)..]; done.
  - destruct (blocked _ _); [done|]. destruct Hs as [Hst' Hs]. destruct tx as [tx|].
    + pose proof (do_in_tx_local usec d k0 R' st f tx db Hst' Hst Htx) as Hl.
      destruct (do_in_tx usec d f st tx db) as [[r tx'] db1]. simplify_eq. destruct Hl as (H1 & H2 & H3).
      eapply (Hsame (kk r) (Some tx') opened); auto; [|rewrite H3; apply rows_local_refl]. intros E. by specialize (Hop E).
    + pose proof (do_single_local usec d k0 R' st f db Hst' Hst) as Hl.
      destruct (do_single usec d f st db) as [r db1]. simplify_eq. destruct Hl as (H1 & H2).
      by eapply (Hsame (kk r) None opened).
  - pose proof (do_commit_local usec k0 f tx db Htx) as Hl. destruct (do_commit f tx db) as [r db1]. simplify_eq.
    destruct Hl as (H1 & H2). by eapply (Hsame (kk r) None false).
  - simplify_eq. by refine (Hsame kk None false Hs _ I eq_refl (rows_local_refl _ _ _) eq_refl).
Qed.

Lemma row_live t v now :
  row_is t v -> now <= usec horizon ->
  exists exp, t_counters t !! key = Some {| r_value := v; r_expires := exp |} /\ live now exp = true.
Proof.
  intros [Hs (exp & He & Ha)] Hn. exists exp. split; [done|]. specialize (Hs Counters key _ He). cbn in Hs.
  destruct exp as [e|]; [|done]. cbn in *. apply Z.leb_le. pose proof (us_mono _ _ Ha). lia.
Qed.

(** What a query of the row returns. *)
Lemma select_row t v now id fu :
  row_is t v -> 0 <= v <= limit -> now <= usec horizon ->
  select_value Counters key fu now id t = effect_of (Ok (Some v)) [] (if fu then [the_lock] else []).
Proof.
  intros Hr Hv Hn. destruct (row_live t v now Hr Hn) as (exp & He & Hl). unfold select_value. cbn [rows]. rewrite He. cbn [r_expires r_value].
  rewrite Hl. unfold scan. by rewrite (proj2 (Z.leb_le minInt64 v)), (proj2 (Z.leb_le v maxInt64)) by (unfold minInt64; lia).
Qed.

Lemma get_step v held f k lb spent db s' db' :
  row_is (db_tables db) v -> 0 <= v <= limit -> db_clock db <= horizon ->
  0 <= spent -> lb <= db_clock db -> follows lb spent (Call (Store.Get key) k) ->
  session_step usec d held f (idle Quote usec hashtext d (Call (Store.Get key) k)) db = Some (s', db') ->
  progress held v (idle Quote usec hashtext d (Call (Store.Get key) k)) spent db s' db'.
Proof.
  intros Hrow Hv Hc Hsp Hlb [Hf1 Hf2] Hstep.
  assert (Hsel : select_value Counters key false (usec (db_clock db)) (db_next db) (db_tables db) = effect_of (Ok (Some v)) [] []).
  { apply (select_row _ v); [done|done|by apply us_mono]. }
  unfold session_step, idle in Hstep. cbn in Hstep. unfold do_single, stmt_effect, stmt_now in Hstep. rewrite Hsel in Hstep. cbn in Hstep.
  destruct f as [|e|e]; simplify_eq; (apply progress_same; [|done|done|done|done|by intros []]).
  - apply (work_rest _ _ lb spent (k (Ok v))); [done..|]. apply Hf1. by intros _.
  - apply (work_rest _ _ lb spent (k (Err (wrap_key Quote "get" key e)))); [done..|apply Hf2].
  - apply (work_rest _ _ lb spent (k (Err (wrap_key Quote "get" key e)))); [done..|apply Hf2].
Qed.

Lemma cas_first_step v held f o n ttl k lb spent db s' db' :
  row_is (db_tables db) v -> 0 <= v <= limit ->
  0 <= spent -> lb <= db_clock db -> follows lb spent (Call (CompareAndSwap key o n ttl) k) ->
  session_step usec d held f (idle Quote usec hashtext d (Call (CompareAndSwap key o n ttl) k)) db = Some (s', db') ->
  progress held v (idle Quote usec hashtext d (Call (CompareAndSwap key o n ttl) k)) spent db s' db'.
Proof.
  intros Hrow Hv Hsp Hlb (Hpre & Hf1 & Hf2 & Hf3) Hstep. destruct (Hpre eq_refl) as (H1 & H2 & H3 & H4).
  rewrite decide_True in Hf1 by done. unfold session_step, idle in Hstep. cbn [compile method ss_prog ss_tx] in Hstep.
  unfold sql_CompareAndSwap, expiresAt in Hstep. rewrite (proj2 (Z.leb_gt ttl 0)) in Hstep by lia.
  unfold mbind, sql_mbind in Hstep. cbn [sql_bind mret sql_mret begin_tx] in Hstep. simplify_eq.
  apply progress_same; [|done..|by intros []].
  apply (work_begin _ _ lb spent o n (Some (usec (time_Add (db_clock db') ttl))) k); [done..|].
  split_and!; try done; try lia; [|by apply us_idem]. cbn. unfold time_Add. pose proof (us_near (db_clock db' + ttl)). lia.
Qed.

Lemma rest_step v held f p lb spent db s' db' :
  row_is (db_tables db) v -> 0 <= v <= limit -> db_clock db <= horizon ->
  0 <= spent -> lb <= db_clock db -> follows lb spent p ->
  session_step usec d held f (idle Quote usec hashtext d p) db = Some (s', db') ->
  progress held v (idle Quote usec hashtext d p) spent db s' db'.
Proof.
  intros Hrow Hv Hc Hsp. revert lb. induction p as [a|R op k IH]; intros lb Hlb Hf Hstep; [done|].
  destruct (op_key op) as [k0|] eqn:Hk.
  - destruct (decide (k0 = key)) as [->|Hne].
    + destruct op; cbn [op_key] in Hk; try discriminate Hk; simplify_eq;
        try (destruct Hf as [Hf _]; by destruct Hf); [by eapply get_step|by eapply cas_first_step].
    + pose proof (follows_other op k0 k lb spent Hk Hne Hf) as Hk'.
      pose proof (method_sends Quote usec hashtext d op k0 Hk) as Hs.
      unfold idle in *. cbn [compile] in *. destruct (method Quote usec hashtext d op) as [r|kk|ser kk|R' st kk|kk|kk] eqn:Em.
      * by apply (IH r lb).
      * eapply (other_step _ v held f _ k k0 false None lb); try done.
      * eapply (other_step _ v held f _ k k0 false None lb); try done.
      * eapply (other_step _ v held f _ k k0 false None lb); try done.
      * eapply (other_step _ v held f _ k k0 false None lb); try done.
      * eapply (other_step _ v held f _ k k0 false None lb); try done.
  - destruct op; try done. unfold idle, session_step in Hstep. cbn in Hstep. simplify_eq. apply progress_same; [|done..|by intros []].
    apply (work_rest _ _ (db_clock db') spent (k (db_clock db'))); [done..|]. by apply Hf.
Qed.

Lemma swap_effect {R} (st : statement R) tx db ws :
  swap_tx (db_clock db) ws tx -> db_clock db <= horizon ->
  exists now, now <= usec horizon /\ tx_effect usec d st tx db = st now (db_next db) (apply_writes ws (db_tables db)).
Proof.
  intros (H1 & H2 & H3 & H4) Hc. pose proof (us_mono _ _ Hc). exists (stmt_now usec d (Some tx) db). split.
  - unfold stmt_now. destruct d; lia.
  - unfold tx_effect, tx_view. by rewrite H2, H3.
Qed.

Lemma begin_step v held f lb spent o n exp k db s' db' :
  row_is (db_tables db) v -> 0 <= v <= limit -> 0 <= spent -> lb <= db_clock db -> swapping lb spent o n exp k ->
  let s := {| ss_prog := SBegin false (fun b => sql_bind (fun r => compiled (k r))
                (on_ok b (fun e => "cas begin: " +:+ e) (fun _ =>
                   deferred (got ← stmt (select_value Counters key true); cas_selected key o n exp got)))); ss_tx := None |} in
  session_step usec d held f s db = Some (s', db') -> progress held v s spent db s' db'.
Proof.
  intros Hrow Hv Hsp Hlb Hsw s Hstep. unfold session_step in Hstep. cbn [s ss_prog] in Hstep.
  destruct f as [|e|e]; cbn [do_begin] in Hstep; simplify_eq.
  - apply progress_same; [|done..|by intros ?%not_elem_of_nil].
    by apply (work_select _ _ lb spent o n exp k).
  - apply progress_same; [|done..|by intros []]. apply (work_rest _ _ lb spent (k (Err ("cas begin: " +:+ e)))); [done..|apply Hsw].
  - apply progress_same; [|done..|by intros []]. apply (work_rest _ _ lb spent (k (Err ("cas begin: " +:+ e)))); [done..|apply Hsw].
Qed.

(** After an error, what remains of a swap is to roll back. *)
Lemma end_progress held v s spent db lb p tx db' :
  row_is (db_tables db) v -> 0 <= v <= limit -> 0 <= spent -> lb <= db_clock db -> follows lb spent p ->
  db_tables db' = db_tables db -> db_clock db' = db_clock db ->
  (match tx with Some tx => the_lock ∈ tx_locks tx -> holds s \/ the_lock ∉ held | None => True end) ->
  progress held v s spent db {| ss_prog := SRollback (compiled p); ss_tx := tx |} db'.
Proof.
  intros Hrow Hv Hsp Hlb Hf Ht Hc Hh. exists spent, v. rewrite Ht. split_and!; try done; try lia.
  - by apply (work_end _ _ lb).
  - by destruct tx.
Qed.

Lemma select_step v held f lb spent o n exp k tx db s' db' :
  row_is (db_tables db) v -> 0 <= v <= limit -> db_clock db <= horizon -> 0 <= spent -> lb <= db_clock db ->
  swapping lb spent o n exp k -> swap_tx (db_clock db) [] tx ->
  let s := {| ss_prog := SStmt (select_value Counters key true) (swap_rest o n exp k); ss_tx := Some tx |} in
  session_step usec d held f s db = Some (s', db') -> progress held v s spent db s' db'.
Proof.
  intros Hrow Hv Hc Hsp Hlb Hsw Htx s Hstep. unfold session_step in Hstep. cbn [s ss_prog ss_tx stmt_effect] in Hstep.
  destruct (swap_effect (select_value Counters key true) tx db [] Htx Hc) as (now & Hn & Hef). cbn [apply_writes foldl] in Hef.
  rewrite (select_row _ v now _ true Hrow Hv Hn) in Hef. unfold do_in_tx, stmt_effect in Hstep. rewrite Hef in Hstep.
  pose proof Htx as (H1 & H2 & H3 & H4). rewrite H4 in Hstep. cbn [effect_of ef_locks ef_result ef_writes] in Hstep.
  destruct (blocked held [the_lock]) eqn:Eb; [done|].
  assert (Hfree : the_lock ∉ held).
  { intros Hin. cbn in Eb. rewrite bool_decide_eq_true_2 in Eb; done. }
  destruct f as [|e|e]; simplify_eq.
  - destruct (decide (v = o)) as [->|Hne].
    + exists spent, o. split_and!; try done; try lia; [|by right]. apply (work_update _ _ lb spent n exp k); try done.
      * split_and!; try done. cbn [tx_writes]. by rewrite H3.
      * cbn [tx_locks]. apply elem_of_app. right. by apply list_elem_of_singleton.
    + replace (swap_rest o n exp k (Ok (Some v))) with (SRollback (compiled (k (Ok false)))).
      * apply (end_progress _ _ _ _ _ lb); try done; [apply Hsw|by right].
      * unfold swap_rest, cas_selected. by rewrite (proj2 (Z.eqb_neq v o) Hne).
  - apply (end_progress held v _ spent db' lb (k (Err ("cas select: " +:+ e)))); try done; [apply Hsw|].
    left. unfold holds. cbn [ss_tx]. by destruct d.
  - apply (end_progress held v _ spent db' lb (k (Err ("cas select: " +:+ e)))); try done; [apply Hsw|by left].
Qed.

Lemma update_step v held f lb spent n exp k tx db s' db' :
  row_is (db_tables db) v -> 0 <= v <= limit -> db_clock db <= horizon -> 0 <= spent -> lb <= db_clock db ->
  swapping lb spent v n exp k -> swap_tx (db_clock db) [] tx -> the_lock ∈ tx_locks tx ->
  let s := {| ss_prog := swap_rest v n exp k (Ok (Some v)); ss_tx := Some tx |} in
  session_step usec d held f s db = Some (s', db') -> progress held v s spent db s' db'.
Proof.
  intros Hrow Hv Hc Hsp Hlb Hsw Htx Hlock s Hstep.
  assert (Hh : forall p, holds {| ss_prog := p; ss_tx := Some tx |}) by done.
  unfold session_step in Hstep. cbn [s ss_prog ss_tx stmt_effect] in Hstep.
  unfold swap_rest, cas_selected in Hstep. rewrite Z.eqb_refl in Hstep. cbn [negb] in Hstep.
  unfold deferred, mbind, sql_mbind, stmt in Hstep. cbn [sql_bind] in Hstep.
  destruct (swap_effect (update_row key n exp) tx db [] Htx Hc) as (now & Hn & Hef). cbn [apply_writes foldl] in Hef.
  pose proof Hrow as [_ (exp0 & He & _)]. unfold update_row in Hef at 2. rewrite He in Hef.
  destruct (blocked _ _); [done|]. unfold do_in_tx, stmt_effect in Hstep. rewrite Hef in Hstep.
  pose proof Htx as (H1 & H2 & H3 & H4). rewrite H4 in Hstep. cbn [effect_of ef_locks ef_result ef_writes] in Hstep.
  destruct f as [|e|e]; simplify_eq.
  - exists spent, v. split_and!; try done; try lia; [|by left]. apply (work_commit _ _ lb spent n exp k); try done.
    + split_and!; try done. cbn [tx_writes]. by rewrite H3.
    + cbn [tx_locks]. apply elem_of_app. by left.
  - apply (end_progress held v _ spent db' lb (k (Err ("cas update: " +:+ e)))); try done; [apply Hsw|]. left. apply Hh.
  - apply (end_progress held v _ spent db' lb (k (Err ("cas update: " +:+ e)))); try done; [apply Hsw|]. left. apply Hh.
Qed.

Lemma commit_step v held f lb spent n exp k tx db s' db' :
  row_is (db_tables db) v -> 0 <= v <= limit -> 0 <= spent -> lb <= db_clock db -> swapping lb spent v n exp k ->
  swap_tx (db_clock db) [WRow Counters key (Some {| r_value := n; r_expires := exp |})] tx -> the_lock ∈ tx_locks tx ->
  let s := {| ss_prog := SCommit (fun r => SRollback (compiled (k (Ok (is_ok r))))); ss_tx := Some tx |} in
  session_step usec d held f s db = Some (s', db') -> progress held v s spent db s' db'.
Proof.
  intros Hrow Hv Hsp Hlb Hsw (H1 & H2 & H3 & H4) Hlock s Hstep. destruct Hsw as (Ho & Hn & Hal & Hst & Hf1 & Hf2 & Hf3).
  unfold session_step in Hstep. cbn [s ss_prog ss_tx do_commit] in Hstep. rewrite H4, H3 in Hstep.
  assert (Hrow' : row_is (apply_writes [WRow Counters key (Some {| r_value := n; r_expires := exp |})] (db_tables db)) n).
  { destruct Hrow as [Hs _]. split; [apply apply_stored; [by repeat constructor|done]|]. exists exp. split; [|done].
    apply lookup_partial_alter_eq. }
  destruct f as [|e|e]; simplify_eq.
  - exists (spent + (n - v)), n. split_and!; try done; try lia. by apply (work_end _ _ lb); [lia|..].
  - by apply (end_progress held v _ spent db' lb (k (Ok false))).
  - exists spent, n. split_and!; try done; try lia. by apply (work_end _ _ lb).
Qed.

(** Any message of any client. *)
Lemma client_step v held f s spent db s' db' :
  row_is (db_tables db) v -> 0 <= v <= limit -> db_clock db <= horizon -> at_work (db_clock db) v s spent ->
  session_step usec d held f s db = Some (s', db') -> progress held v s spent db s' db'.
Proof.
  intros Hrow Hv Hc Hw Hstep.
  destruct Hw as [lb spent p|R k0 opened m k tx lb spent Hsp Hlb Hne Hs Hop Htx Hk|lb spent p tx|
    lb spent o n exp k|lb spent o n exp k tx|lb spent n exp k tx|lb spent n exp k tx].
  - by eapply rest_step.
  - destruct m as [r| | | | |]; [|by eapply (other_step _ v held f _ k k0 opened tx lb)..].
    cbn [sends] in Hs. unfold closed in Hs. rewrite (Hop Hs) in *. by apply (rest_step v held f (k r) lb).
  - unfold session_step in Hstep. cbn in Hstep. simplify_eq. apply progress_same; [|done..|by intros []].
    by apply (work_rest _ _ lb).
  - by eapply begin_step.
  - by eapply select_step.
  - by eapply update_step.
  - by eapply commit_step.
Qed.

(** *** Pools *)

Lemma held_by_others_in i j (ss : list (session A)) s tx l :
  ss !! j = Some s -> j <> i -> ss_tx s = Some tx -> l ∈ tx_locks tx -> l ∈ held_by_others i ss.
Proof.
  intros Hj Hne Htx Hl. unfold held_by_others. apply list_elem_of_join. exists (tx_locks tx). split; [done|].
  apply elem_of_lookup_imap. exists j, s. split; [|done]. by rewrite (proj2 (Nat.eqb_neq j i) Hne), Htx.
Qed.

(** No two clients have the row. *)
Definition exclusive (ss : list (session A)) : Prop :=
  forall i j si sj, ss !! i = Some si -> ss !! j = Some sj -> holds si -> holds sj -> i = j.

Definition pool_at_work (v0 : Z) (ss : list (session A)) (db : Db) : Prop :=
  exists v spents, row_is (db_tables db) v /\ 0 <= v <= limit /\ Forall2 (at_work (db_clock db) v) ss spents /\
    v0 + sumZ spents <= v /\ exclusive ss.

Lemma exclusive_step ss i s s' :
  ss !! i = Some s -> exclusive ss -> (holds s' -> holds s \/ the_lock ∉ held_by_others i ss) -> exclusive (<[i := s']> ss).
Proof.
  intros Hi Hex Hs'.
  assert (Hj : forall j sj, j <> i -> ss !! j = Some sj -> holds sj -> holds s' -> False).
  { intros j sj Hne Hj Hh Hh'. destruct (Hs' Hh') as [Hh0|Hout]; [by apply Hne, (Hex j i sj s)|].
    unfold holds in Hh. destruct (ss_tx sj) as [tx|] eqn:Etx; [|done]. by apply Hout, (held_by_others_in i j ss sj tx). }
  intros a b sa sb Ha Hb Hsa Hsb.
  apply list_lookup_insert_Some in Ha as [(-> & <- & _)|[Hna Ha]];
    apply list_lookup_insert_Some in Hb as [(-> & <- & _)|[Hnb Hb]]; [done|..].
  - exfalso. by apply (Hj b sb).
  - exfalso. by apply (Hj a sa).
  - by apply (Hex a b sa sb).
Qed.

Lemma db_steps_clock (x y : list (session A) * Db) : db_step usec d x y -> db_clock x.2 <= db_clock y.2.
Proof.
  intros [ss db i s f s' db' Hi Hs|ss db t Ht|ss db st f Hst _]; cbn [snd db_clock]; [|done|].
  - unfold session_step in Hs.
    destruct (ss_prog s) as [|kk|ser kk|R st kk|kk|kk]; simplify_eq; try lia.
    + destruct (do_begin usec f ser db). by simplify_eq.
    + destruct (blocked _ _); [done|]. destruct (ss_tx s) as [tx|].
      * destruct (do_in_tx usec d f st tx db) as [[r tx'] db1] eqn:E. simplify_eq. unfold do_in_tx in E. case_step; [by simplify_eq|].
        destruct f; [destruct (ef_result (stmt_effect usec d st (Some tx) db))|..]; by simplify_eq.
      * destruct (do_single usec d f st db) as [r db1] eqn:E. simplify_eq. unfold do_single in E.
        destruct f, (ef_result (stmt_effect usec d st None db)); by simplify_eq.
    + destruct (do_commit f (ss_tx s) db) as [r db1] eqn:E. simplify_eq. unfold do_commit in E.
      destruct (ss_tx s) as [tx|]; [case_step; [|destruct f]|]; by simplify_eq.
  - destruct (purge_row_now usec d st f Counters db "" Hst) as (-> & _). lia.
Qed.

Lemma purge_row_is st f db v :
  st ∈ purge_statements -> db_clock db <= horizon -> row_is (db_tables db) v -> row_is (db_tables (do_single usec d f st db).2) v.
Proof.
  intros Hst Hc Hrow. destruct (row_live _ v (usec (db_clock db)) Hrow) as (exp & He & Hl); [by apply us_mono|].
  destruct Hrow as [Hs (exp' & He' & Ha)]. rewrite He in He'. simplify_eq.
  destruct (purge_row_now usec d st f Counters db key Hst) as (Hc' & Hs' & Hr). split; [by auto|]. exists exp'. split; [|done].
  assert (Hn : row_now usec Counters db key = Some {| r_value := v; r_expires := exp' |}) by (by apply row_now_put).
  rewrite Hn in Hr. unfold row_now in Hr. cbn [rows] in Hr. clear He.
  destruct (t_counters (db_tables (do_single usec d f st db).2) !! key) as [r|]; [|done]. cbn in Hr. clear Hl. by destruct (live _ _).
Qed.

Lemma pool_at_work_step v0 (x y : list (session A) * Db) :
  db_step usec d x y -> db_clock y.2 <= horizon -> pool_at_work v0 x.1 x.2 -> pool_at_work v0 y.1 y.2.
Proof.
  intros Hstep Hend (v & spents & Hrow & Hv & Hw & Hsum & Hex). pose proof (db_steps_clock x y Hstep) as Hc.
  destruct Hstep as [ss db i s f s' db' Hi Hs|ss db t Ht|ss db st f Hst _]; cbn [fst snd] in *.
  - destruct (Forall2_lookup_l _ _ _ _ _ Hw Hi) as (spent & Hsp & Hwi).
    destruct (client_step v _ f s spent db s' db' Hrow Hv ltac:(lia) Hwi Hs)
      as (spent' & v' & Hw' & Hrow' & Hv' & Hle & Hc' & Hno & Hh).
    exists v', (<[i := spent']> spents). rewrite Hc'. split_and!; [done|lia..| | |by eapply exclusive_step].
    + apply Forall2_same_length_lookup. split; [rewrite !length_insert; by eapply Forall2_length|].
      intros j sj spj Hj Hspj. apply list_lookup_insert_Some in Hj as [(-> & <- & _)|[Hnj Hj]].
      * rewrite list_lookup_insert_eq in Hspj by (by eapply lookup_lt_Some). by simplify_eq.
      * rewrite list_lookup_insert_ne in Hspj by done. pose proof (Forall2_lookup_lr _ _ _ _ _ _ Hw Hj Hspj) as Hwj.
        destruct (decide (v' = v)) as [->|Hne]; [done|]. apply (at_work_value _ v); [|done]. intros Hhj.
        apply Hne, Hno. intros Hhs. by apply Hnj, (Hex i j s sj).
    + pose proof (sumZ_insert id spents i spent spent' Hsp) as Hsi. rewrite !list_fmap_id in Hsi. unfold id in Hsi. lia.
  - exists v, spents. split_and!; try done; try lia. eapply Forall2_impl; [done|]. intros s sp. by apply at_work_later.
  - destruct (purge_row_now usec d st f Counters db "" Hst) as (Hc' & _). exists v, spents. rewrite Hc'.
    split_and!; try done; try lia. apply purge_row_is; [done|lia|done].
Qed.

Lemma compile_claims p lb spent a : follows lb spent p -> compiled p = SRet a -> claims a <= spent.
Proof.
  revert lb. induction p as [b|R op k IH]; intros lb Hf E; [by simplify_eq/=|].
  cbn [compile] in E. destruct (method Quote usec hashtext d op) as [r| | | | |] eqn:Em; try done. cbn [sql_bind] in E.
  destruct op; cbn [method] in Em; try discriminate Em;
    try (unfold sql_Increment, sql_Set, sql_CompareAndSwap, sql_AddTimestamp, sql_CheckAndAddTimestamps, expiresAt in Em;
         case_step; discriminate Em).
  all: destruct Hf as [_ Hf]; by apply (IH r lb).
Qed.

(** What the clients that are done were granted. *)
Definition sessions_claim (ss : list (session A)) : Z :=
  sumZ ((fun s => match ss_prog s with SRet a => Z.max 0 (claims a) | _ => 0 end) <$> ss).

Lemma at_work_claims c v ss spents : Forall2 (at_work c v) ss spents -> sessions_claim ss <= sumZ spents.
Proof.
  unfold sessions_claim. induction 1 as [|s sp ss spents Hw _ IH]; [done|]. rewrite fmap_cons. unfold sumZ in *. cbn [foldr].
  enough ((match ss_prog s with SRet a => Z.max 0 (claims a) | _ => 0 end) <= sp) by lia.
  destruct Hw as [lb spent p Hsp _ Hf|R k0 opened m k tx lb spent Hsp _ _ _ _ _ Hk| | | | |lb spent n exp k tx]; cbn [ss_prog idle]; try lia.
  - destruct (compiled p) as [a| | | | |] eqn:E; try lia. pose proof (compile_claims p lb spent a Hf E). lia.
  - destruct m as [r| | | | |]; cbn [sql_bind]; try lia. destruct (compiled (k r)) as [a| | | | |] eqn:E; try lia.
    pose proof (compile_claims (k r) lb spent a (Hk r) E). lia.
  - unfold swap_rest, cas_selected. rewrite Z.eqb_refl. cbn. lia.
Qed.

(** Obedient clients whose statements interleave keep the limit on a row that is there
    and outlives the window. *)
Lemma live_row_safe ps v0 db ss' db' :
  row_is (db_tables db) v0 -> 0 <= v0 <= limit -> Forall (follows (db_clock db) 0) ps ->
  rtc (db_step usec d) (idle Quote usec hashtext d <$> ps, db) (ss', db') -> db_clock db' <= horizon ->
  sessions_claim ss' <= limit - v0.
Proof.
  intros Hrow Hv Hps Hrtc Hend. assert (Hinv : pool_at_work v0 ss' db').
  { refine (rtc_ind_r (fun x => db_clock x.2 <= horizon -> pool_at_work v0 x.1 x.2) _ _ _ _ Hrtc Hend).
    - intros _. exists v0, (replicate (length ps) 0). cbn [fst snd]. split_and!; [done|lia..| | |].
      + clear -Hps. induction Hps as [|p ps Hp _ IH]; simpl; constructor; [|done]. by apply (work_rest _ _ (db_clock db)).
      + enough (sumZ (replicate (length ps) 0) = 0) by lia. clear. induction (length ps); simpl; lia.
      + intros i j si sj Hi _ Hh. rewrite list_lookup_fmap in Hi. destruct (ps !! i); by simplify_eq/=.
    - intros x y _ Hstep IH Hy. apply (pool_at_work_step _ x y Hstep Hy), IH. pose proof (db_steps_clock x y Hstep). lia. }
  destruct Hinv as (v & spents & _ & Hv' & Hw & Hsum & _). pose proof (at_work_claims _ _ _ _ Hw). lia.
Qed.
End Interleaved.

(** ** The limits *)

(** C6 (kind: safety).  The fixed window on PostgreSQL and on Oracle, with any number of connections: however the
    statements of the transactions of concurrent requests are interleaved, whatever messages are refused or
    lost, while time passes and expired rows are purged, the total cost of the requests that are allowed in a
    window does not exceed what its counter had left, provided the row of the counter is there from the start
    and outlives the window, the policy's action blocks what is over the limit, the window is not a calendar
    month and has a positive length, and no cost takes the limit out of the range of an int64. The counter holds
    between zero and the limit to begin with, instants are between 1970 and 2262, and the requests are followed
    until a microsecond before the end of the window. *)
Theorem sql_fixed_window_safe (Quote : string -> string) (usec : Time -> Time) (hashtext : string -> Z) (d : dialect)
    {HU : UsecLaws usec} (loc : Z) (policy : Policy) (key : string) (t0 : Time) (reqs : list RequestContext)
    (v : Z) (exp : option Time) (db db' : Db) (ss' : list (session (int64 * result Decision))) :
  let cfg := pol_Algorithm policy in
  let limit := effective_limit cfg in
  let windowEnd := WindowEnd t0 loc cfg in
  let wk := windowKey key (WindowStart t0 loc cfg) in
  blocking (pol_Action policy) = true ->
  cfg_Window cfg <> "month" -> 0 < WindowDuration cfg -> WindowStart t0 loc cfg <= maxInt64 ->
  limit <= maxInt64 -> 0 <= db_clock db ->
  rows_stored usec (db_tables db) -> t_counters (db_tables db) !! wk = Some {| r_value := v; r_expires := exp |} ->
  0 <= v <= limit -> alive_until exp (windowEnd - Microsecond) ->
  Forall (fun req => limit + Cost req cfg <= maxInt64) reqs ->
  rtc (db_step usec d)
    (idle Quote usec hashtext d <$> (client {| clk_Now := None; clk_Loc := loc |} policy key <$> reqs), db) (ss', db') ->
  db_clock db' <= windowEnd - Microsecond ->
  sessions_claim (granted windowEnd) ss' <= limit - v.
Proof.
  intros cfg limit windowEnd wk Hb Hm Hd Hs Hcap Hc Hst Hrow Hv Ha Hcost Hrtc Hend.
  unfold windowEnd in Ha, Hend. rewrite WindowEnd_duration in Ha, Hend by done.
  refine (live_row_safe Quote usec hashtext d wk limit (WindowStart t0 loc cfg) (WindowDuration cfg) Hd Hcap _ _ v db ss' db'
    _ Hv _ Hrtc Hend).
  - split; [done|]. by exists exp.
  - rewrite Forall_fmap. eapply Forall_impl; [exact Hcost|]. intros req Hreq. apply obeys_ret. by apply obeys_fixed_window.
Qed.

(** Turns of clients, with how their messages fare; a client that waits keeps waiting. *)
Definition play {A} (usec : Time -> Time) (d : dialect) (schedule : list (nat * fault)) (x : list (session A) * Db)
    : list (session A) * Db :=
  foldl (fun '(ss, db) '(i, f) =>
    match ss !! i with
    | Some s => match session_step usec d (held_by_others i ss) f s db with
                | Some (s', db') => (<[i := s']> ss, db')
                | None => (ss, db)
                end
    | None => (ss, db)
    end) x schedule.

Lemma play_steps {A} usec d schedule (x : list (session A) * Db) : rtc (db_step usec d) x (play usec d schedule x).
Proof.
  revert x. induction schedule as [|[i f] schedule IH]; intros [ss db]; [constructor|]. unfold play in *. cbn [foldl].
  destruct (ss !! i) as [s|] eqn:Hi; [|apply IH]. destruct (session_step _ _ _ _ _ _) as [[s' db']|] eqn:Hs; [|apply IH].
  eapply rtc_l; [by eapply db_client|apply IH].
Qed.

Definition demo_hash (s : string) : Z := fnv32a s.
Definition demo_quote (s : string) : string := s.
Definition take_turns (n clients : nat) : list (nat * fault) := mjoin (replicate n ((fun i => (i, Fine)) <$> seq 0 clients)).

(** A database whose clock shows a millisecond, with the given counters. *)
Definition demo_db (counters : gmap string row) : Db :=
  {| db_clock := Millisecond; db_tables := {| t_counters := counters; t_timestamps := ∅; t_leases := ∅ |}; db_next := 0 |}.

(** Three clients take turns, and the second swap is refused once. *)
Lemma sql_fixed_window_safe_witness :
  let policy := demo_policy 3 "1s" in
  let ss := idle demo_quote trunc_usec demo_hash Postgres <$> (client demo_clock policy "k" <$> demo_requests) in
  let db := demo_db {[ windowKey "k" 0 := {| r_value := 0; r_expires := Some (2 * Second) |} ]} in
  let x := play trunc_usec Postgres ((0%nat, Fine) :: (1%nat, Refused "deadlock detected") :: take_turns 60 3) (ss, db) in
  sessions_claim (granted Second) x.1 = 3 /\
  sessions_claim (granted Second) x.1 <= 3 - 0.
Proof.
  intros policy ss db x. split; [by vm_compute|].
  pose proof (sql_fixed_window_safe demo_quote trunc_usec demo_hash Postgres 0 policy "k" 0 demo_requests 0
    (Some (2 * Second)) db x.2 x.1) as H.
  apply H; clear H; only 1-6, 8-10, 13: by vm_compute.
  - intros []; [|by apply map_Forall_empty]. apply map_Forall_singleton. by vm_compute.
  - repeat constructor; by vm_compute.
  - rewrite <- surjective_pairing. apply play_steps.
Defined.

(** C8 (kind: safety).  The concurrency limiter on PostgreSQL and on Oracle with a pool of one connection: however the
    acquisitions and releases of any number of sessions are interleaved and whatever messages are refused or lost, over a
    period a microsecond shorter than the lease time-to-live there are never more sessions between acquisition and
    release than the limit. *)
Theorem sql_concurrency_safe (Quote : string -> string) (usec : Time -> Time) (hashtext : string -> Z) (d : dialect)
    {HU : UsecLaws usec} (policy : Policy) (key : string) (reqs : list RequestContext)
    (w w' : SqlWorld) (ps' : list (prog (result Decision))) :
  let limit := lease_limit (pol_Algorithm policy) in
  let ttl := lease_ttl (pol_Algorithm policy) in
  in_int64 (cfg_MaxConcurrency (pol_Algorithm policy)) -> in_int64 (cfg_Limit (pol_Algorithm policy)) -> 0 < ttl ->
  rows_stored usec (db_tables (sw_db w)) -> 0 <= value_now usec Leases (sw_db w) (leaseKey key) ->
  rtc (pool_step (call_alone Quote usec hashtext d) (sql_env usec d)) (Concurrency.session policy key <$> reqs, w) (ps', w') ->
  db_clock (sw_db w') <= db_clock (sw_db w) + ttl - Microsecond ->
  holders ps' <= limit.
Proof.
  intros limit ttl Hmc Hlim Httl Hst Hc Hrtc Hend.
  pose proof (lease_limit_bounds _ Hmc Hlim). pose proof (lease_ttl_bound (pol_Algorithm policy)).
  refine (sessions_safe _ _ (LL := sql_lease_laws Quote usec hashtext d) policy key reqs w w' ps' _ _ Hst I Hc Hrtc _);
    cbn; subst limit ttl; lia.
Qed.

(** Three sessions against a limit of 2; the commit of the second acquisition is lost. *)
Lemma sql_concurrency_safe_witness :
  let w := {| sw_db := demo_db ∅; sw_net := [Fine; Fine; Fine; Fine; Fine; Fine; Fine; Lost "driver: bad connection"] |} in
  let store := call_alone demo_quote trunc_usec demo_hash Oracle in
  let r := run_all store (Concurrency.session (lease_policy 2) "k" <$> demo_requests) w in
  holders (Ret <$> r.1) <= 2.
Proof.
  intros w store r.
  pose proof (sql_concurrency_safe demo_quote trunc_usec demo_hash Oracle (lease_policy 2) "k" demo_requests w r.2 (Ret <$> r.1)) as H.
  apply H; clear H; only 1-3, 5, 7: by vm_compute.
  - intros []; apply map_Forall_empty.
  - apply run_all_pool, surjective_pairing.
Defined.

(** ** Examples *)

Definition answers {A} (x : list (session A) * Db) : list (option A) :=
  (fun s => match ss_prog s with SRet a => Some a | _ => None end) <$> x.1.

Definition calls_of {R} (d : dialect) (ops : list (CounterOp R)) : list (session R) :=
  idle demo_quote trunc_usec demo_hash d <$> (call <$> ops).

(** Both first requests of a window find no row to lock, and both are admitted by a
    limit of one: the later transaction overwrites the row of the earlier one. *)
Example first_requests_race d :
  let policy := demo_policy 1 "1s" in
  let ss := idle demo_quote trunc_usec demo_hash d <$> (client demo_clock policy "k" <$> [mkRequest 1; mkRequest 1]) in
  let x := play trunc_usec d (take_turns 20 2) (ss, demo_db ∅) in
  sessions_claim (granted Second) x.1 = 2 /\
  r_value <$> t_counters (db_tables x.2) !! windowKey "k" 0 = Some 1.
Proof. by destruct d; vm_compute. Qed.

(** So are two first leases. *)
Example first_leases_race d :
  let ops := [AcquireLease "k" 1 Minute; AcquireLease "k" 1 Minute] in
  answers (play trunc_usec d (take_turns 20 2) (calls_of d ops, demo_db ∅)) = [Some (Ok (true, 1)); Some (Ok (true, 1))].
Proof. by destruct d; vm_compute. Qed.

(** Once the row is there, the second transaction waits for the first. *)
Example later_leases_wait d :
  let db := (play trunc_usec d (take_turns 20 1) (calls_of d [AcquireLease "k" 2 Minute], demo_db ∅)).2 in
  let ops := [AcquireLease "k" 2 Minute; AcquireLease "k" 2 Minute] in
  answers (play trunc_usec d (take_turns 20 2) (calls_of d ops, db)) = [Some (Ok (true, 2)); Some (Ok (false, 2))].
Proof. by destruct d; vm_compute. Qed.

(** The advisory lock serializes the log of PostgreSQL; serializable transactions of
    Oracle that only insert do not conflict, and both pass a limit of one. *)
Example log_race :
  let ops := [CheckAndAddTimestamps "k" 0 1 1 Second Minute; CheckAndAddTimestamps "k" 0 1 1 Second Minute] in
  let race d := answers (play trunc_usec d (take_turns 20 2) (calls_of d ops, demo_db ∅)) in
  race Postgres = [Some (Ok (0, true)); Some (Ok (1, false))] /\ race Oracle = [Some (Ok (0, true)); Some (Ok (0, true))].
Proof. by vm_compute. Qed.

(** On Oracle the value [Increment] reads back may be another client's. *)
Example increment_readback :
  let ops := [Increment "k" 1 Minute; Increment "k" 1 Minute] in
  let race d := answers (play trunc_usec d (take_turns 20 2) (calls_of d ops, demo_db ∅)) in
  race Postgres = [Some (Ok 1); Some (Ok 2)] /\ race Oracle = [Some (Ok 2); Some (Ok 2)].
Proof. by vm_compute. Qed.

(** A commit whose answer is lost is reported as a lost race, without an error, though
    the swap took effect. *)
Example commit_error_hidden d :
  let schedule := [(0, Fine); (0, Fine); (0, Fine); (0, Fine); (0, Lost "broken pipe"); (0, Fine)]%nat in
  let x := play trunc_usec d schedule (calls_of d [CompareAndSwap "k" 0 5 Minute], demo_db ∅) in
  answers x = [Some (Ok false)] /\ r_value <$> t_counters (db_tables x.2) !! "k" = Some 5.
Proof. by destruct d; vm_compute. Qed.
