(* ===== verification/Progress.v ===== *)
(** * Evaluations end, and contention does not turn requests away

    [evaluation_terminates]: whatever a store answers, and whatever happens between
    its answers, a request is decided after a number of store calls that depends on
    the policy alone.  [no_contention]: on the memory store, with as many retries as
    there are concurrent requests, no request loses every race. *)

From S2P Require Import Prelude GoString GoFloat GoTime Model Store Protocol Common MemoryStore CasLimit.
From S2P Require Import FixedWindow Quota Concurrency SlidingLog SlidingCounter TokenBucket LeakyBucket Matcher KeyBuilder PolicyCache Engine.
Local Open Scope Z_scope.
Local Open Scope stdpp_scope.
Local Open Scope go_scope.

(** ** Bounded programs *)

(** [p] makes at most [n] calls, whatever they return. *)
Fixpoint bounded {A} (n : nat) (p : prog A) {struct p} : Prop :=
  match p with
  | Ret _ => True
  | Call op k => match n with O => False | S n => forall r, bounded n (k r) end
  end.

(** A program that has answered. *)
#[local] Hint Extern 0 (bounded _ _) => exact I : core.

Lemma bounded_le {A} n m (p : prog A) : (n <= m)%nat -> bounded n p -> bounded m p.
Proof.
  revert n m. induction p as [a|R op k IH]; intros n m Hle; [done|]. destruct n as [|n]; [by intros []|]. destruct m as [|m]; [lia|].
  intros H r. apply (IH r n m); [lia|apply H].
Qed.

Lemma bounded_bind {A B} n m (p : prog A) (f : A -> prog B) :
  bounded n p -> (forall a, bounded m (f a)) -> bounded (n + m) (p ≫= f).
Proof.
  unfold mbind, prog_mbind. revert n. induction p as [a|R op k IH]; intros n Hp Hf; cbn [prog_bind].
  - apply (bounded_le m); [lia|apply Hf].
  - destruct n as [|n]; [done|]. intros r. apply IH; [apply Hp|done].
Qed.

Lemma bounded_map {A B} n (p : prog A) (g : A -> B) : bounded n p -> bounded n (a ← p; mret (g a)).
Proof. intros Hp. rewrite <- (Nat.add_0_r n). by apply bounded_bind. Qed.

Lemma bounded_try {A B} n m (p : prog (result A)) (f : A -> prog (result B)) :
  bounded n p -> (forall a, bounded m (f a)) -> bounded (n + m) (try_bind p f).
Proof. intros Hp Hf. apply bounded_bind; [done|]. intros [a|e]; [apply Hf|done]. Qed.

(** One fallible call. *)
Lemma bounded_call {R B} n (op : CounterOp (result R)) (f : R -> prog (result B)) :
  (forall a, bounded n (f a)) -> bounded (S n) (try_bind (call op) f).
Proof. intros Hf. apply (bounded_try 1 n); [|done]. by intros r. Qed.

Lemma bounded_over policy retryAfter remaining reason : bounded 1 (OverLimitDecision policy retryAfter remaining reason).
Proof. by intros r. Qed.

Lemma bounded_now clk : bounded 1 (eval_now clk).
Proof. by intros r. Qed.

(** ** The algorithms *)

Lemma cas_loop_bounded n wk limit cost window exceeded contention admitted :
  bounded 1 exceeded -> bounded 1 contention ->
  bounded (2 * n + 1) (cas_loop n wk limit cost window exceeded contention admitted).
Proof.
  intros He Hc. induction n as [|n IH]; cbn [cas_loop]; [by apply bounded_map|].
  replace (2 * S n + 1)%nat with (S (S (2 * n + 1))) by lia. apply bounded_call. intros cur. case_step.
  - apply (bounded_le 1); [lia|by apply bounded_map].
  - apply bounded_call. intros []; [done|apply IH].
Qed.

Lemma swc_loop_bounded n policy curKey limit cost prevCount weight window retryAfter resetAt :
  bounded (2 * n + 1) (swc_loop n policy curKey limit cost prevCount weight window retryAfter resetAt).
Proof.
  induction n as [|n IH]; cbn [swc_loop]; [apply bounded_map, bounded_over|].
  replace (2 * S n + 1)%nat with (S (S (2 * n + 1))) by lia. apply bounded_call. intros cur. cbv zeta. case_step.
  - apply (bounded_le 1); [lia|apply bounded_map, bounded_over].
  - apply bounded_call. intros []; [done|apply IH].
Qed.

Lemma set_best_effort_bounded n key value ttl : bounded n (set_best_effort n key value ttl).
Proof. induction n as [|n IH]; cbn [set_best_effort]; [done|]. intros [u|e]; [done|apply IH]. Qed.

Lemma tb_loop_bounded n policy key capacity refillRate cost now :
  bounded (3 * n + 3) (tb_loop n policy key capacity refillRate cost now).
Proof.
  induction n as [|n IH]; cbn [tb_loop]; [apply (bounded_le 1); [lia|apply bounded_map, bounded_over]|].
  replace (3 * S n + 3)%nat with (S (S (S (3 * n + 3)))) by lia.
  apply bounded_call. intros old. apply bounded_call. intros last. cbv zeta. case_step.
  - apply (bounded_le 1); [lia|apply bounded_map, bounded_over].
  - apply bounded_call. intros []; cbn [negb]; [|apply IH].
    apply (bounded_le 3); [lia|]. apply bounded_map, set_best_effort_bounded.
Qed.

Lemma lb_loop_bounded n policy key limit leakRate cost ttl now :
  bounded (3 * n + 3) (lb_loop n policy key limit leakRate cost ttl now).
Proof.
  induction n as [|n IH]; cbn [lb_loop]; [apply (bounded_le 1); [lia|apply bounded_map, bounded_over]|].
  replace (3 * S n + 3)%nat with (S (S (S (3 * n + 3)))) by lia.
  apply bounded_call. intros old. apply bounded_call. intros last. cbv zeta. case_step.
  - apply (bounded_le 1); [lia|apply bounded_map, bounded_over].
  - apply bounded_call. intros []; cbn [negb]; [|apply IH].
    apply (bounded_le 3); [lia|]. apply bounded_map, set_best_effort_bounded.
Qed.

Lemma addTimestamps_bounded n key ts ttl : bounded n (addTimestamps n key ts ttl).
Proof. induction n as [|n IH]; cbn [addTimestamps]; [done|]. by apply bounded_call. Qed.

(** The calls an evaluation may take: three for each attempt, four around them, and one
    for each event of a log on a store without atomic logs. *)
Definition call_bound (atomic : bool) (cfg : AlgorithmConfig) (req : RequestContext) : nat :=
  3 * Z.to_nat (maxRetries cfg) + 4 + (if atomic then 0 else Z.to_nat (Cost req cfg)).

Lemma algorithm_bounded atomic loc ty (alg : Algorithm) policy req key :
  defaultAlgorithms atomic loc ty = Some alg -> bounded (call_bound atomic (pol_Algorithm policy) req) (alg policy req key).
Proof.
  unfold defaultAlgorithms, call_bound. set (r := Z.to_nat (maxRetries _)).
  assert (Hnow : forall {B} n (f : Time -> prog (result B)), (forall t, bounded n (f t)) ->
    (S n <= 3 * r + 4 + (if atomic then 0 else Z.to_nat (Cost req (pol_Algorithm policy))))%nat ->
    bounded (3 * r + 4 + (if atomic then 0 else Z.to_nat (Cost req (pol_Algorithm policy)))) (t ← eval_now {| clk_Now := None; clk_Loc := loc |}; f t)).
  { intros B n f Hf Hle. apply (bounded_le (1 + n)); [done|]. apply bounded_bind; [apply bounded_now|done]. }
  repeat match goal with |- context [String.eqb ty ?x] => destruct (String.eqb ty x) end; intros [= <-].
  - apply (Hnow _ (2 * r + 1)%nat); [|lia]. intros t. apply cas_loop_bounded; apply bounded_over.
  - apply (Hnow _ (3 * r + 3)%nat); [|lia]. intros t. apply tb_loop_bounded.
  - apply (Hnow _ (S (2 * r + 1))%nat); [|pose proof (maxRetries_pos (pol_Algorithm policy)); lia].
    intros t. apply bounded_call. intros prev. apply swc_loop_bounded.
  - apply (bounded_le 2); [lia|]. apply bounded_call. intros [[] cur]; [done|]. apply bounded_map, bounded_over.
  - apply (Hnow _ (2 * r + 1)%nat); [|lia]. intros t. apply cas_loop_bounded; apply bounded_over.
  - apply (Hnow _ (3 * r + 3)%nat); [|lia]. intros t. apply lb_loop_bounded.
  - unfold SlidingLog.Evaluate. destruct atomic.
    + apply (Hnow _ 2%nat); [|lia]. intros t. cbv zeta. apply bounded_call. intros [count []]; [done|].
      apply bounded_map, bounded_over.
    + apply (Hnow _ (S (S (Z.to_nat (Cost req (pol_Algorithm policy)) + 1)))); [|lia]. intros t. cbv zeta.
      apply bounded_call. intros _. apply bounded_call. intros count. case_step.
      * apply (bounded_le 1); [lia|]. apply bounded_map, bounded_over.
      * apply bounded_try; [apply addTimestamps_bounded|done].
Qed.

(** ** Termination *)

(** A client that takes its turns in the worlds [ws], one after the other: what others
    and the environment do in between is arbitrary. *)
Definition turns {W A} (h : handler W) (ws : list W) (p : prog A) : prog A := foldl (fun p w => (tstep h p w).1) p ws.

Lemma turns_ret {W A} (h : handler W) ws (a : A) : turns h ws (Ret a) = Ret a.
Proof. by induction ws. Qed.

Lemma bounded_turns {W A} (h : handler W) n (p : prog A) ws :
  bounded n p -> (n <= length ws)%nat -> exists a, turns h ws p = Ret a.
Proof.
  revert n ws. induction p as [a|R op k IH]; intros n ws Hb Hn; [exists a; apply turns_ret|].
  destruct n as [|n]; [done|]. destruct ws as [|w ws]; [simpl in Hn; lia|]. cbn [turns foldl tstep].
  destruct (h R op w) as [r w']. apply (IH r n ws); [apply Hb|simpl in Hn; lia].
Qed.

(** C13 (kind: termination).  Every evaluation ends: whatever the policies are, whatever the store answers or fails to
    do, and whatever happens between its answers, a request has its decision after at most three store calls for each
    attempt the policy allows and four more, and on a store without atomic logs one for each event logged. *)
Theorem evaluation_terminates {W : Type} (h : handler W) visits (keyPrefix : string) (cacheTTL : Duration) (atomic : bool) (loc : Z)
    (Load : string -> result (list Policy)) (wall : Time) (req : RequestContext) (c : MemoryPolicyCache) (ws : list W) :
  let e := (NewClient keyPrefix cacheTTL atomic loc).1 in
  (forall policy key, (pickPolicy visits e Load wall req c).1 = Ok (Some (policy, key)) ->
    (call_bound atomic (pol_Algorithm policy) req <= length ws)%nat) ->
  exists d, turns h ws (Engine.Evaluate visits e Load wall req c).1 = Ret d.
Proof.
  intros e Hws. unfold Engine.Evaluate. destruct (pickPolicy visits e Load wall req c) as [picked c'] eqn:Ep. cbn [fst] in *.
  destruct picked as [[[policy key]|]|err]; cbn [evaluate_picked]; [|eexists; apply turns_ret..].
  specialize (Hws policy key eq_refl). destruct (en_Algorithms e (cfg_Type (pol_Algorithm policy))) as [alg|] eqn:Ea; [|eexists; apply turns_ret].
  eapply bounded_turns; [|exact Hws]. apply bounded_map, (algorithm_bounded atomic loc (cfg_Type (pol_Algorithm policy)) alg). exact Ea.
Qed.

(** A store on which every call fails. *)
Definition unavailable : handler Time := fun R op w =>
  match op in CounterOp R return R * Time with
  | TimeNow => (w, w)
  | Increment _ _ _ | Store.Get _ | CountAfter _ _ => (Err "unavailable", w)
  | CompareAndSwap _ _ _ _ => (Err "unavailable", w)
  | SetVal _ _ _ | Delete _ | AddTimestamp _ _ _ | TrimBefore _ _ | ReleaseLease _ => (Err "unavailable", w)
  | CheckAndAddTimestamps _ _ _ _ _ _ => (Err "unavailable", w)
  | AcquireLease _ _ _ => (Err "unavailable", w)
  end.

Lemma evaluation_terminates_witness :
  exists d, turns unavailable (replicate 40 0) (Engine.Evaluate map_to_list demo_engine demo_load 1000 (mkRequest 4) demo_cache).1 = Ret d.
Proof.
  apply (evaluation_terminates unavailable map_to_list "" 0 true 0 demo_load 1000 (mkRequest 4) demo_cache).
  intros policy key H. vm_compute in H. simplify_eq. apply Nat.leb_le. by vm_compute.
Defined.

(** ** Races *)

Section Races.
(** The counter, the first and the last instant of the window, and the life given to
    the counter. *)
Context (wk : string) (start final life : Z) (life_ok : 0 < life <= maxInt64) (covers : final <= start + life).
Context {A : Type} (good : A -> Prop).

(** A program that races for the counter and may lose [m] times; [read] is what it read
    last. *)
Fixpoint races (m : nat) (read : option Z) (p : prog A) : Prop :=
  match p with
  | Ret a => good a
  | @Call _ R op k =>
      match op in CounterOp R' return (R' -> prog A) -> Prop with
      | TimeNow => fun k => forall t, start <= t <= final -> races m read (k t)
      | Store.Get key => fun k => key = wk /\ forall v, races m (Some v) (k (Ok v))
      | CompareAndSwap key o n ttl => fun k =>
          key = wk /\ read = Some o /\ ttl = life /\ (exists a, k (Ok true) = Ret a /\ good a) /\
          match m with O => True | S m => races m None (k (Ok false)) end
      | _ => fun _ => False
      end k
  end.

(** A client among [N], when [s] have won and the counter is [v]: it has won, or it can
    lose as often as there are others that have not. *)
Inductive racer (N s v : Z) : prog A -> bool -> Prop :=
| racer_won a : good a -> racer N s v (Ret a) true
| racer_racing m read s0 p :
    races m read p -> N - 1 - s0 <= Z.of_nat m -> s0 <= s -> (forall r, read = Some r -> s = s0 -> v = r) ->
    racer N s v p false.

Definition wins (won : list bool) : Z := sumZ (Z.b2z <$> won).

Lemma wins_range won : 0 <= wins won <= Z.of_nat (length won).
Proof. unfold wins. induction won as [|[] won IH]; cbn [fmap list_fmap sumZ foldr length Z.b2z] in *; unfold sumZ in *; lia. Qed.

Lemma wins_lt won i : won !! i = Some false -> wins won < Z.of_nat (length won).
Proof.
  revert i. unfold wins. induction won as [|b won IH]; intros [|i] Hi; simplify_eq/=.
  - pose proof (wins_range won) as H. unfold wins, sumZ in *. lia.
  - specialize (IH i Hi). unfold sumZ in *. destruct b; cbn [Z.b2z]; lia.
Qed.

(** A win does not disturb the others, and neither does time. *)
Lemma racer_later N s s' v v' p b : s <= s' -> (s' = s -> v' = v) -> racer N s v p b -> racer N s' v' p b.
Proof.
  intros Hs Hv. destruct 1 as [a Ha|m read s0 p Hp Hm Hs0 Hr]; [by constructor|].
  apply (racer_racing _ _ _ m read s0); [done|done|lia|]. intros r Hr' E. assert (s' = s) by lia. rewrite Hv by done. apply Hr; [done|lia].
Qed.

Definition race_inv (ps : list (prog A)) (w : World) : Prop :=
  wf_store (w_store w) /\ start <= w_clock w /\ alive_until (counter_deadline w wk) final /\
  exists won, length won = length ps /\
    Forall2 (racer (Z.of_nat (length ps)) (wins won) (counter_value w wk)) ps won.

(** One call of one racer. *)
Lemma racer_step N s w w' p p' :
  wf_store (w_store w) -> start <= w_clock w <= final -> s < N -> racer N s (counter_value w wk) p false ->
  tstep memory p w = (p', w') -> alive_until (counter_deadline w wk) final ->
  w_clock w' = w_clock w /\ wf_store (w_store w') /\ alive_until (counter_deadline w' wk) final /\
  ((counter_value w' wk = counter_value w wk /\ racer N s (counter_value w wk) p' false) \/
   (racer N (s + 1) (counter_value w' wk) p' true)).
Proof.
  intros Hwf Hc Hs Hr Hstep Ha. inversion Hr as [|m read s0 p0 Hp Hm Hs0 Hread]; subst.
  destruct p as [a|R op k]; cbn [tstep] in Hstep; [simplify_eq; split_and!; [done..|by left]|].
  destruct op; try done; cbn [races] in Hp.
  - change (memory _ TimeNow w) with (w_clock w, w) in Hstep. simplify_eq/=. split_and!; try done. left. split; [done|].
    apply (racer_racing _ _ _ m read s0); auto.
  - destruct Hp as [-> Hp]. destruct (memory_get_law w wk Hwf) as (_ & Hv & Hd). destruct (memory_Get w wk Hwf) as [Hg _].
    pose proof (memory_clock (Store.Get wk) w) as Hc'. pose proof (memory_wf (Store.Get wk) w Hwf) as Hwf'.
    destruct (memory _ (Store.Get wk) w) as [r w1]. simplify_eq/=. rewrite Hd. split_and!; try done. left. split; [done|].
    apply (racer_racing _ _ _ m (Some (counter_value w wk)) s); [apply Hp|lia|lia|]. by intros r [= <-].
  - destruct Hp as (-> & -> & -> & (a & Hwin & Hgood) & Hlose).
    pose proof (memory_CompareAndSwap w wk oldVal newVal life Hwf) as Hcas.
    pose proof (memory_clock (CompareAndSwap wk oldVal newVal life) w) as Hc'.
    pose proof (memory_wf (CompareAndSwap wk oldVal newVal life) w Hwf) as Hwf'.
    destruct (memory _ _ w) as [r w1]. simplify_eq/=. destruct Hcas as [-> Hl]. fold (counter_value w wk) in Hl |- *.
    destruct (counter_value w wk =? oldVal) eqn:E; zify_bool; split_and!; try done.
    + apply counter_deadline_alive. rewrite Hc', Hl. right. cbn [vi_expiry]. unfold touch, time_Add.
      rewrite (proj2 (Z.ltb_lt 0 life)) by lia. lia.
    + right. rewrite Hwin. by constructor.
    + unfold counter_deadline in *. by rewrite Hc', Hl.
    + left. split; [unfold counter_value; by rewrite Hc', Hl|].
      assert (s0 < s) by (destruct (decide (s = s0)); [by destruct E; apply Hread|lia]).
      destruct m as [|m]; [lia|]. apply (racer_racing _ _ _ m None s); [done|lia|lia|done].
Qed.

Lemma race_step (x y : list (prog A) * World) :
  pool_step memory env_step x y -> w_clock y.2 <= final -> race_inv x.1 x.2 -> race_inv y.1 y.2.
Proof.
  intros Hstep Hend (Hwf & Hc & Ha & won & Hlen & Hf).
  destruct Hstep as [ps w i p p' w' Hi Hs|ps w w' He]; cbn [fst snd] in *.
  - destruct (Forall2_lookup_l _ _ _ _ _ Hf Hi) as (b & Hb & Hr). unfold race_inv. rewrite length_insert. destruct b.
    + inversion Hr; subst. cbn [tstep] in Hs. simplify_eq. rewrite list_insert_id by done.
      split_and!; try done. by exists won.
    + pose proof (wins_lt won i Hb) as Hlt. rewrite Hlen in Hlt.
      assert (Hcl : w_clock w' = w_clock w).
      { destruct p as [a|R op k]; cbn [tstep] in Hs; [by simplify_eq|]. pose proof (memory_clock op w) as H.
        destruct (memory R op w). by simplify_eq. }
      destruct (racer_step _ (wins won) w w' p p' Hwf ltac:(lia) Hlt Hr Hs Ha) as (_ & Hwf' & Ha' & Hcase).
      split_and!; [done|lia|done|]. destruct Hcase as [[Hv Hr']|Hr'].
      * exists won. split; [done|]. rewrite Hv.
        pose proof (Forall2_insert _ _ _ _ _ i Hf Hr') as Hf'. by rewrite (list_insert_id won i false) in Hf' by done.
      * exists (<[i := true]> won). rewrite length_insert. split; [done|].
        assert (Hw : wins (<[i := true]> won) = wins won + 1).
        { unfold wins. rewrite (sumZ_insert Z.b2z won i false true Hb). cbn [Z.b2z]. lia. }
        rewrite Hw. apply Forall2_insert; [|done]. eapply Forall2_impl; [exact Hf|]. intros q c. apply racer_later; lia.
  - pose proof (env_step_clock _ _ He).
    destruct (env_step_counter w w' wk Hwf He) as [Ev Ed]; [eapply alive_until_le; [exact Ha|done]|].
    split_and!; [by eapply env_step_wf|lia|by rewrite Ed|]. exists won. by rewrite Ev.
Qed.

(** With as many chances as competitors, every answer is good. *)
Lemma races_safe m ps w ps' w' :
  wf_store (w_store w) -> start <= w_clock w -> alive_until (counter_deadline w wk) final ->
  Forall (races m None) ps -> Z.of_nat (length ps) - 1 <= Z.of_nat m ->
  rtc (pool_step memory env_step) (ps, w) (ps', w') -> w_clock w' <= final ->
  forall i a, ps' !! i = Some (Ret a) -> good a.
Proof.
  intros Hwf Hc Ha Hps Hm Hrtc Hend. assert (Hinv : race_inv ps' w').
  { refine (rtc_ind_r (fun x => w_clock x.2 <= final -> race_inv x.1 x.2) _ _ _ _ Hrtc Hend).
    - intros _. split_and!; try done. exists (replicate (length ps) false). rewrite length_replicate. split; [done|].
      assert (Hw : wins (replicate (length ps) false) = 0).
      { unfold wins. clear. induction (length ps); [done|]. cbn [replicate fmap list_fmap sumZ foldr Z.b2z] in *. unfold sumZ, fmap in *. lia. }
      rewrite Hw. cbn [fst snd]. apply Forall2_replicate_r; [done|]. eapply Forall_impl; [exact Hps|]. intros p Hp.
      by apply (racer_racing _ _ _ m None 0); [done|lia|lia|].
    - intros x y _ Hstep IH Hy. apply (race_step x y Hstep Hy), IH. pose proof (pool_clock memory env_step x y Hstep) as H. cbn in H. lia. }
  destruct Hinv as (_ & _ & _ & won & _ & Hf). intros i a Hi.
  destruct (Forall2_lookup_l _ _ _ _ _ Hf Hi) as (b & _ & Hr). by inversion Hr as [|m' read s0 p Hp]; subst.
Qed.
End Races.

(** The loop loses at most once less than it has attempts. *)
Lemma races_cas_loop {A} (wk : string) (start final life : Z) (good : A -> Prop) (g : result Decision -> A)
    n read limit cost policy retry reason contention admitted :
  (forall rem, good (g (Ok (admitted rem)))) ->
  (forall t, good (g (Ok (overLimit t policy retry 0 reason)))) ->
  races wk start final life good n read
    (r ← cas_loop (S n) wk limit cost life (OverLimitDecision policy retry 0 reason) contention admitted; mret (g r)).
Proof.
  intros Hadm Hex. revert read. induction n as [|n IH]; intros read; cbn [cas_loop] in *;
    unfold try_bind, OverLimitDecision, call, mbind, prog_mbind in *; cbn [prog_bind races] in *; (split; [done|]); intros v;
    (destruct (limit <? v +! cost); cbn [prog_bind races mret prog_mret];
     [by auto|split_and!; try done; [by eexists|..]]).
  apply (IH None).
Qed.

(** A decision of the fixed window on its merits. *)
Definition decided (a : int64 * result Decision) : Prop :=
  match a.2 with
  | Ok d => dec_Reason d = "within_fixed_window" \/ dec_Reason d = "fixed_window_limit_exceeded"
  | Err _ => False
  end.

(** C14 (kind: liveness).  With as many retries as there are concurrent requests for a window, contention turns no
    request of the fixed window away on the memory store: however their store calls are interleaved, every request that is
    answered within the window is answered on its merits, admitted or over the limit, and never gives up or fails. *)
Theorem no_contention (loc : Z) (policy : Policy) (key : string) (reqs : list RequestContext)
    (w w' : World) (ps' : list (prog (int64 * result Decision))) :
  let cfg := pol_Algorithm policy in
  let wk := windowKey key (WindowStart (w_clock w) loc cfg) in
  let windowEnd := WindowEnd (w_clock w) loc cfg in
  cfg_Window cfg <> "month" -> 0 < WindowDuration cfg -> Z.of_nat (length reqs) <= maxRetries cfg ->
  wf_store (w_store w) -> alive_until (counter_deadline w wk) (windowEnd - 1) ->
  rtc (pool_step memory env_step) (client {| clk_Now := None; clk_Loc := loc |} policy key <$> reqs, w) (ps', w') ->
  w_clock w' < windowEnd ->
  forall i a, ps' !! i = Some (Ret a) -> decided a.
Proof.
  intros cfg wk windowEnd Hm Hd Hn Hwf Ha Hrtc Hend.
  destruct (window_bounds (w_clock w) loc cfg (or_intror (or_intror Hd))) as [Hw Hsame].
  pose proof (WindowDuration_range cfg) as [_ Hr]. pose proof (maxRetries_pos cfg) as Hpos.
  destruct (Z.to_nat (maxRetries cfg)) as [|m] eqn:Em; [lia|].
  refine (races_safe wk (WindowStart (w_clock w) loc cfg) (windowEnd - 1) (WindowDuration cfg) _ _ decided m _ w ps' w'
    Hwf _ Ha _ _ Hrtc _); try lia.
  - unfold windowEnd. rewrite WindowEnd_duration by done. lia.
  - apply Forall_fmap, Forall_true. intros req t Ht. fold cfg. unfold prog_mbind. cbn [prog_bind mret prog_mret clk_Loc clk_Now from_option].
    change (id t) with t.
    destruct (Hsame t) as [E1 E2]; [unfold windowEnd in Ht; lia|]. rewrite E1, E2, Em. fold wk.
    apply (races_cas_loop wk _ _ _ decided (fun r => (Cost req cfg, r))); [by left|by right].
  - rewrite length_fmap. lia.
Qed.

(** Three requests, one of them over the limit. *)
Definition demo_run :=
  run_all memory (client demo_clock (demo_policy 3 "1s") "k" <$> demo_requests) demo_world.

Lemma demo_run_answers : is_Some (demo_run.1 !! 0%nat).
Proof. apply (bool_decide_unpack _). by vm_compute. Qed.

Lemma no_contention_witness : exists a, demo_run.1 !! 0%nat = Some a /\ decided a.
Proof.
  assert (H : forall i a, (Ret <$> demo_run.1) !! i = Some (Ret a) -> decided a).
  { apply (no_contention 0 (demo_policy 3 "1s") "k" demo_requests demo_world demo_run.2 (Ret <$> demo_run.1)); only 1-5, 7: by vm_compute.
    apply run_all_pool, surjective_pairing. }
  destruct demo_run_answers as [a E]. exists a. split; [done|]. apply (H 0%nat). by rewrite list_lookup_fmap, E.
Defined.

(** Clients take the turns of a schedule. *)
Definition pool_play {W A} (h : handler W) (schedule : list nat) (x : list (prog A) * W) : list (prog A) * W :=
  foldl (fun '(ps, w) i =>
    match ps !! i with Some p => let '(p', w') := tstep h p w in (<[i := p']> ps, w') | None => (ps, w) end) x schedule.

(** With the five attempts of the default, five others that win one race each turn a
    sixth request away, far below the limit. *)
Example contention_denies :
  let policy := demo_policy 100 "1s" in
  let ps := client demo_clock policy "k" <$> replicate 6 (mkRequest 1) in
  let others := mjoin ((fun i => [i; i; i; 5; 5]) <$> seq 0 5)%nat in
  match (pool_play memory ([5; 5] ++ others)%nat (ps, demo_world)).1 !! 5%nat with
  | Some (Ret (_, Ok d)) => dec_Allowed d = false /\ dec_Reason d = "fixed_window_contention"
  | _ => False
  end.
Proof. by vm_compute. Qed.
