(* ===== verification/SlidingSafety.v ===== *)
(** * The sliding window counter among concurrent clients

    A client of internal/algorithm/slidingcounter reads two counters, those of the
    current and of the previous window, and swaps the first for the sum when the
    weighted estimate is within the limit.  The estimate of a client bounds what the
    current window holds only if the previous counter is not negative, so the proof is
    about the whole family of counters of a key: every client keeps all of them
    between zero and the limit, and within that range the client of one window obeys
    the compare-and-swap protocol of that window ([obeys]). *)

From S2P Require Import Prelude GoString GoFloat GoTime Model Store Protocol Common MemoryStore CasLimit SlidingCounter Rounding.
Local Open Scope Z_scope.
Local Open Scope stdpp_scope.
Local Open Scope go_scope.

(** ** Families of counters *)

Section Family.
Context (family : string -> bool) (limit : Z).
Context {A : Type}.

Definition in_range (v : Z) : bool := (0 <=? v) && (v <=? limit).

(** The client [p], which takes a read of the family out of range for a failed one. *)
Fixpoint trusting (p : prog A) : prog A :=
  match p with
  | Ret a => Ret a
  | @Call _ R op k =>
      match op in CounterOp R' return (R' -> prog A) -> prog A with
      | Get key => fun k => Call (Get key) (fun r =>
          match r with
          | Ok v => if negb (family key) || in_range v then trusting (k (Ok v)) else trusting (k (Err "out of range"))
          | Err e => trusting (k (Err e))
          end)
      | op => fun k => Call op (fun r => trusting (k r))
      end k
  end.

Lemma trusting_answer p : answer (trusting p) = answer p.
Proof. by destruct p as [a|R [] k]. Qed.

Lemma trusting_claimed (claims : A -> Z) ps : claimed claims (trusting <$> ps) = claimed claims ps.
Proof.
  unfold claimed. rewrite <- list_fmap_compose. f_equal. apply list_fmap_ext. intros i p _. cbn. by rewrite trusting_answer.
Qed.

Context (key : string) (start life : Z) (claims : A -> Z).

(** [obeys], for a client of the family that has only seen counters in range and
    writes no other. *)
Fixpoint obeys_family (lb : Time) (spent : Z) (p : prog A) : Prop :=
  match p with
  | Ret a => claims a <= spent
  | @Call _ R op k =>
      match op in CounterOp R' return (R' -> prog A) -> Prop with
      | TimeNow => fun k => forall t, lb <= t -> obeys_family t spent (k t)
      | Get key' => fun k =>
          (forall v, (family key' = true -> 0 <= v <= limit) -> obeys_family lb spent (k (Ok v))) /\
          (forall e, obeys_family lb spent (k (Err e)))
      | CompareAndSwap key' oldVal newVal ttl => fun k =>
          (key' = key -> start <= lb /\ life <= ttl <= maxInt64 /\ oldVal <= newVal) /\
          (family key' = true -> 0 <= oldVal <= limit /\ 0 <= newVal <= limit) /\
          obeys_family lb (if decide (key' = key) then spent + (newVal - oldVal) else spent) (k (Ok true)) /\
          obeys_family lb spent (k (Ok false)) /\
          (forall e, obeys_family lb spent (k (Err e)))
      | op => fun k => (forall key', op_key op = Some key' -> family key' = false) /\ forall r, obeys_family lb spent (k r)
      end k
  end.

Context (key_in : family key = true).

Lemma obeys_trusting lb spent p : obeys_family lb spent p -> obeys key limit start life claims lb spent (trusting p).
Proof.
  revert lb spent. induction p as [a|R op k IH]; intros lb spent; [done|].
  destruct op; cbn [obeys_family trusting obeys];
    try (intros [Hk H]; split; [intros E; apply Hk in E; congruence|]; intros r; by apply IH).
  - intros H t Ht. apply IH, H, Ht.
  - intros [H1 H2]. split; [|intros e; apply IH, H2]. intros v Hv.
    destruct (negb (family key0) || in_range v) eqn:E; [|apply IH, H2]. apply IH, H1. intros Hf.
    rewrite Hf in E. cbn in E. unfold in_range in E. zify_bool. lia.
  - intros (H1 & H2 & H3 & H4 & H5). split_and!; [|by apply IH..|intros e; apply IH, H5].
    intros ->. destruct (H1 eq_refl) as (? & ? & ?), (H2 key_in). split_and!; lia.
Qed.

Context {W : Type} (h : handler W) (env : W -> W -> Prop) `{SL : !StoreLaws h env, FL : !ForgetLaws h env}.
Context (limit_pos : 0 <= limit) (exact : limit <= sl_cap).

Definition family_in_range (w : W) : Prop := forall k, family k = true -> 0 <= sl_value w k <= limit.

(** A client at work: its lower bound on the clock has been reached. *)
Definition at_work (w : W) (p : prog A) : Prop := exists lb spent, lb <= sl_clock w /\ obeys_family lb spent p.

(** A call of a client keeps the family in range and answers the trusting client alike. *)
Lemma trusting_step w p p' w' :
  sl_wf w -> family_in_range w -> at_work w p -> tstep h p w = (p', w') ->
  family_in_range w' /\ at_work w' p' /\ tstep h (trusting p) w = (trusting p', w').
Proof.
  intros Hwf Hr (lb & spent & Hlb & Hp) Hs. destruct p as [a|R op k]; cbn [tstep] in Hs.
  { injection Hs as <- <-. split_and!; [done|by exists lb, spent|done]. }
  pose proof (sl_op_clock _ op w) as Hc. pose proof (sl_frame _ op w) as Hframe.
  assert (Hothers : (forall k0, op_key op = Some k0 -> family k0 = true -> 0 <= sl_value (h _ op w).2 k0 <= limit) ->
    family_in_range (h _ op w).2).
  { intros H k0 Hk0. destruct (decide (op_key op = Some k0)); [by apply H|]. by rewrite (proj1 (Hframe k0 Hwf n)); apply Hr. }
  destruct (h R op w) as [r w1] eqn:E. injection Hs as <- <-. cbn [fst snd] in *.
  destruct op; cbn [obeys_family] in Hp; cbn [trusting tstep]; rewrite E.
  all: try (destruct Hp as [Hk Hp]; split_and!; [|by exists lb, spent; rewrite Hc|done];
    apply Hothers; intros k0 Ek Hf; apply Hk in Ek; congruence).
  - rewrite sl_now in E. injection E as <- <-. split_and!; [done| |done]. exists (sl_clock w), spent. split; [lia|auto].
  - destruct Hp as [H1 H2]. pose proof (sl_get w key0 Hwf) as (Hg & Hv & _). rewrite E in Hg, Hv. cbn [fst snd] in Hg, Hv.
    split_and!.
    + apply Hothers. intros k0 [= <-] Hf. rewrite Hv. by apply Hr.
    + exists lb, spent. split; [lia|]. destruct Hg as [->|[e ->]]; [|done]. apply H1, Hr.
    + destruct Hg as [->|[e ->]]; [|done]. destruct (family key0) eqn:Ef; [|done]. specialize (Hr _ Ef).
      unfold in_range. by rewrite (proj2 (Z.leb_le _ _) (proj1 Hr)), (proj2 (Z.leb_le _ _) (proj2 Hr)).
  - destruct Hp as (H1 & H2 & H3 & H4 & H5). split_and!; [| |done].
    + apply Hothers. intros k0 [= <-] Hf. destruct (H2 Hf) as [Ho Hn]. specialize (Hr _ Hf).
      pose proof (sl_cas w key0 oldVal newVal ttl Hwf ltac:(lia)) as Hcas. rewrite E in Hcas. cbv zeta in Hcas.
      destruct r as [[]|e]; [destruct Hcas as (_ & -> & _); lia|destruct Hcas as [[-> _]|(_ & -> & _)]; lia..].
    + rewrite <- Hc in Hlb. destruct r as [[]|e]; eexists lb, _; eauto.
Qed.

(** Runs of the clients are runs of the trusting clients. *)
Lemma trusting_run ps w ps' w' :
  sl_wf w -> family_in_range w -> Forall (at_work w) ps ->
  rtc (pool_step h env) (ps, w) (ps', w') ->
  rtc (pool_step h env) (trusting <$> ps, w) (trusting <$> ps', w').
Proof.
  intros Hwf Hr Hps Hrtc.
  assert (Hlater : forall w1 w2 qs, sl_clock w1 <= sl_clock w2 -> Forall (at_work w1) qs -> Forall (at_work w2) qs).
  { intros w1 w2 qs Hc H. eapply Forall_impl; [exact H|]. intros q (lb & s & ? & ?). exists lb, s. split; [lia|done]. }
  remember (ps, w) as x eqn:Ex. remember (ps', w') as y eqn:Ey. revert ps w Ex Hwf Hr Hps.
  induction Hrtc as [x|x y z Hstep _ IH]; intros ps w -> Hwf Hr Hps; [by simplify_eq|].
  pose proof (pool_wf h env _ _ Hstep Hwf) as Hwf'. pose proof (pool_clock h env _ _ Hstep) as Hc. cbn [fst snd] in *.
  destruct y as [ps1 w1]. inversion Hstep as [? ? i p p' ? Hi Hs|? ? ? He]; subst; cbn [fst snd] in *.
  - pose proof (proj1 (Forall_lookup _ _) Hps i p Hi) as Hp.
    destruct (trusting_step w p p' w1 Hwf Hr Hp Hs) as (Hr' & Hp' & Hs'). eapply rtc_l; [|apply IH; try done].
    + rewrite list_fmap_insert. eapply pool_call; [|exact Hs']. by rewrite list_lookup_fmap, Hi.
    + apply Forall_insert; [by eapply Hlater|done].
  - eapply rtc_l; [by apply pool_env|apply IH; try done; [|by eapply Hlater]].
    intros k Hk. specialize (Hr k Hk). destruct (sl_forget w w1 k Hwf He) as [->| ->]; lia.
Qed.

(** The protocol of one counter of the family, among clients that use the others too. *)
Lemma family_safe ps w ps' w' : 0 < life ->
  sl_wf w -> family_in_range w -> alive_until (sl_deadline w key) (start + life - sl_slack) ->
  Forall (obeys_family (sl_clock w) 0) ps ->
  rtc (pool_step h env) (ps, w) (ps', w') -> sl_clock w' <= start + life - sl_slack ->
  claimed claims ps' <= limit - sl_value w key.
Proof.
  intros Hlife Hwf Hr Hdl Hps Hrtc Hend. rewrite <- trusting_claimed.
  apply (protocol_safe h env key limit start life Hlife exact claims (trusting <$> ps) w (trusting <$> ps') w');
    [done|by apply Hr|done| | |done].
  - rewrite Forall_fmap. eapply Forall_impl; [exact Hps|]. intros p. apply obeys_trusting.
  - apply trusting_run; [done..| |done]. eapply Forall_impl; [exact Hps|]. intros p Hp. by exists (sl_clock w), 0.
Qed.
End Family.

(** ** The estimate *)

Lemma previous_weight_range window elapsed : 0 <= elapsed <= window -> 0 < window < 2 ^ 53 ->
  nonneg (previous_weight window elapsed) = true /\ finite (previous_weight window elapsed) = true.
Proof.
  intros He Hw. unfold previous_weight. replace (window -! elapsed) with (window - elapsed) by (by unwrap).
  destruct (fltb _ _); [done|]. apply fdiv_small; lia.
Qed.

(** A request the estimate lets through fits in the current window. *)
Lemma estimate_bounds limit cur cost prev weight :
  0 < limit -> 0 <= cur <= limit -> 0 <= prev <= limit -> 0 < cost -> limit + cost < 2 ^ 53 ->
  nonneg weight = true -> finite weight = true ->
  fgtb (estimate cur cost prev weight) (float_of_Z limit) = false -> cur +! cost = cur + cost /\ cur + cost <= limit.
Proof.
  intros Hl Hcur Hprev Hcost Hsum Hn Hf He.
  assert (Eadd : cur +! cost = cur + cost) by (by unwrap). split; [done|].
  apply Z.le_ngt. intros Hlt. unfold estimate in He. rewrite Eadd in He.
  destruct (float_nonneg prev ltac:(lia)) as [Pn Pf].
  rewrite (fadd_above (cur + cost) limit) in He; [done|lia|lia|by apply fmul_nonneg].
Qed.

Lemma float_limit_small cfg : effective_limit cfg < 2 ^ 53 -> float_limit cfg = float_of_Z (effective_limit cfg).
Proof.
  unfold float_limit, effective_limit. destruct (cfg_Limit cfg <=? 0) eqn:E; intros H; zify_bool.
  - destruct (fleb (float_of_Z (cfg_Limit cfg)) fzero) eqn:E'; [done|]. exfalso.
    destruct (cfg_Limit cfg) as [|p|p]; [done|lia|]. by rewrite float_neg_le_zero in E'.
  - by rewrite float_le_zero, (proj2 (Z.eqb_neq _ 0)) by lia.
Qed.

(** ** The clients *)

(** The counters of a key. *)
Definition swc_family (key : string) (k : string) : bool := HasPrefix k (key +:+ ":swc:").

Definition swc_client (loc : Z) (policy : Policy) (key : string) (req : RequestContext) : prog (int64 * result Decision) :=
  r ← Evaluate {| clk_Now := None; clk_Loc := loc |} policy req key; mret (Cost req (pol_Algorithm policy), r).

Section Clients.
Context (loc : Z) (policy : Policy) (key : string) (t0 : Time).
Abbreviation cfg := (pol_Algorithm policy).
Abbreviation L := (effective_limit (pol_Algorithm policy)).
Abbreviation start0 := (WindowStart t0 loc (pol_Algorithm policy)).
Context (blocks : blocking (pol_Action policy) = true).
Context (not_month : cfg_Window cfg <> "month") (window_small : 0 < WindowDuration cfg < 2 ^ 53) (start_ok : start0 <= maxInt64).
Abbreviation grant := (granted (WindowEnd t0 loc (pol_Algorithm policy))).
Abbreviation obedient := (obeys_family (swc_family key) L (counterKey key start0) start0 (WindowDuration (pol_Algorithm policy)) grant).

Lemma swc_family_counter s : swc_family key (counterKey key s) = true.
Proof. unfold swc_family, HasPrefix, counterKey. rewrite <- str_app_assoc. apply prefix_app. Qed.

Lemma obedient_swc_loop n t cost prev weight retry :
  0 <= t -> 0 <= prev <= L -> 0 < cost -> L + cost < 2 ^ 53 -> nonneg weight = true -> finite weight = true ->
  let start := WindowStart t loc cfg in
  obedient t 0 (r ← swc_loop n policy (counterKey key start) (float_limit cfg) cost prev weight (WindowDuration cfg)
                      retry (start + WindowDuration cfg); mret (cost, r)).
Proof.
  intros Ht Hprev Hcost Hsum Hn Hf start. rewrite float_limit_small by lia. pose proof (effective_limit_pos cfg).
  destruct (window_bounds t loc cfg (or_intror (or_intror (proj1 window_small)))) as [Hw _].
  rewrite WindowEnd_duration in Hw by done. fold start in Hw. induction n as [|n IH].
  { intros t1 _. by apply Z.eq_le_incl, granted_over. }
  cbn [swc_loop]. unfold try_bind, call, mbind, prog_mbind in *. cbn [prog_bind obeys_family] in *.
  split; [|done]. intros cur Hcur. specialize (Hcur (swc_family_counter _)).
  destruct (fgtb _ _) eqn:E; [intros t1 _; by apply Z.eq_le_incl, granted_over|].
  destruct (estimate_bounds L cur cost prev weight) as [Eadd Hle]; [lia|done..|].
  assert (E2 : 2 *! WindowDuration cfg = 2 * WindowDuration cfg) by (by unwrap).
  rewrite Eadd, E2. cbn [prog_bind obeys_family]. split_and!; [|lia| |apply IH|done].
  - intros Ek. unfold counterKey in Ek. apply str_app_inj_l, str_app_inj_l, UnixNano_le in Ek; [|unfold minInt64, maxInt64 in *; lia|done].
    unfold maxInt64 in *. lia.
  - unfold mret, prog_mret. cbn [prog_bind obeys_family]. rewrite granted_allowed by (unfold zeroTime; lia).
    rewrite WindowEnd_duration by done. destruct (_ =? _) eqn:E3; [|case_decide; lia]. zify_bool.
    assert (Es : start = start0) by lia. rewrite decide_True; [lia|by rewrite Es].
Qed.

Lemma obedient_client lb req : 0 <= lb -> L + Cost req cfg < 2 ^ 53 -> obedient lb 0 (swc_client loc policy key req).
Proof.
  intros Hlb Hsum. unfold swc_client, Evaluate, eval_now, try_bind, call, mbind, prog_mbind.
  cbn [clk_Now clk_Loc prog_bind obeys_family]. intros t Ht. destruct (window_bounds t loc cfg (or_intror (or_intror (proj1 window_small)))) as [Hw _].
  rewrite WindowEnd_duration in Hw by done. rewrite (proj2 (Z.leb_gt _ _)) by lia. pose proof (Cost_pos req cfg) as Hcost.
  split; [|done]. intros prev Hprev. specialize (Hprev (swc_family_counter _)).
  destruct (previous_weight_range (WindowDuration cfg) (time_Sub t (WindowStart t loc cfg))) as [Hn Hf];
    [unfold time_Sub, minInt64, maxInt64; lia|done|].
  apply (obedient_swc_loop _ t); try done; lia.
Qed.
End Clients.

(** C10 (kind: bounds).  Concurrent safety of the sliding window counter: whatever the interleaving, with time
    passing and the store forgetting expired counters, on every lawful store, the total cost of the requests
    that are allowed in a window does not exceed what its counter had left of the limit: the rolling estimate
    may only deny more. Provided the policy's action blocks what is over the limit, the window is not a calendar
    month and has a positive length below [2^53] nanoseconds, the counters of the key are between zero and the
    limit to begin with, and the limit and the cost of a request add up to less than [2^53]. The counter of the
    window does not expire within it, instants are between 1970 and 2262, and the requests are followed until
    the window ends, less the precision of the store. *)
Theorem sliding_counter_safe {W : Type} (h : handler W) (env : W -> W -> Prop) {SL : StoreLaws h env} {FL : ForgetLaws h env}
    (loc : Z) (policy : Policy) (key : string) (t0 : Time) (reqs : list RequestContext)
    (w w' : W) (ps' : list (prog (int64 * result Decision))) :
  let cfg := pol_Algorithm policy in
  let limit := effective_limit cfg in
  let windowEnd := WindowEnd t0 loc cfg in
  let curKey := counterKey key (WindowStart t0 loc cfg) in
  blocking (pol_Action policy) = true ->
  cfg_Window cfg <> "month" -> 0 < WindowDuration cfg < 2 ^ 53 -> WindowStart t0 loc cfg <= maxInt64 ->
  limit <= sl_cap -> sl_wf w -> 0 <= sl_clock w ->
  (forall k, swc_family key k = true -> 0 <= sl_value w k <= limit) ->
  alive_until (sl_deadline w curKey) (windowEnd - sl_slack) ->
  Forall (fun req => limit + Cost req cfg < 2 ^ 53) reqs ->
  rtc (pool_step h env) (swc_client loc policy key <$> reqs, w) (ps', w') ->
  sl_clock w' <= windowEnd - sl_slack ->
  claimed (granted windowEnd) ps' <= limit - sl_value w curKey.
Proof.
  intros cfg limit windowEnd curKey Hb Hm Hd Hs Hcap Hwf Hc Hr Ha Hcost Hrtc Hend.
  unfold windowEnd in Ha, Hend. rewrite WindowEnd_duration in Ha, Hend by done. pose proof (effective_limit_pos cfg).
  eapply (family_safe (swc_family key) limit curKey (WindowStart t0 loc cfg) (WindowDuration cfg) _
    (swc_family_counter key _) h env ltac:(lia) Hcap); [lia|done..| |exact Hrtc|done].
  rewrite Forall_fmap. eapply Forall_impl; [exact Hcost|]. intros req Hreq. by apply obedient_client.
Qed.

(** Three concurrent requests of cost 2 under a limit of 5: two are admitted. *)
Lemma sliding_counter_safe_witness :
  let policy := swc_policy 5 "1s" in
  let r := run_all memory (swc_client 0 policy "k" <$> [mkRequest 2; mkRequest 2; mkRequest 2]) swc_world in
  claimed (granted (WindowEnd 0 0 (pol_Algorithm policy))) (Ret <$> r.1) = 4 /\
  claimed (granted (WindowEnd 0 0 (pol_Algorithm policy))) (Ret <$> r.1)
    <= effective_limit (pol_Algorithm policy)
       - counter_value swc_world (counterKey "k" (WindowStart 0 0 (pol_Algorithm policy))).
Proof.
  split; [by vm_compute|].
  apply (sliding_counter_safe memory env_step (SL := memory_laws) (FL := memory_forget) 0 (swc_policy 5 "1s") "k" 0 [mkRequest 2; mkRequest 2; mkRequest 2]
    swc_world (run_all memory (swc_client 0 (swc_policy 5 "1s") "k" <$> [mkRequest 2; mkRequest 2; mkRequest 2]) swc_world).2);
    [done|done|by vm_compute..| |by vm_compute|repeat constructor; by vm_compute| |by vm_compute].
  - intros k _. cbn [sl_value memory_laws]. unfold counter_value, swc_world. cbn [w_store]. by rewrite NewSharded_view.
  - apply run_all_pool, surjective_pairing.
Defined.
