(* ===== verification/Startup.v ===== *)
(** * cmd/rlaas-server/main.go and internal/server: the life of the server process

    What [main] builds from the settings (TLS, timeouts, sizes, logging), and the
    process as a state machine: the goroutine of [main], the two that serve, the one
    that stops the gRPC server, signals, and requests in flight.  [lifecycle_safe] says
    when the process reports itself ready, how its traffic is protected, and what a
    clean end means. *)

From Stdlib Require Import Ascii String.
From S2P Require Import Prelude GoString GoTime Config.
Local Open Scope Z_scope.
Local Open Scope stdpp_scope.

(** ** Logging *)

Inductive LogLevel := LevelDebug | LevelInfo | LevelWarn | LevelError.
Inductive LogHandler := TextHandler (level : LogLevel) | JSONHandler (level : LogLevel).

Definition initLogging (lc : LoggingConfig) : LogHandler :=
  let name := ToLower (lg_Level lc) in
  let level := if String.eqb name "debug" then LevelDebug
               else if String.eqb name "warn" then LevelWarn
               else if String.eqb name "error" then LevelError
               else LevelInfo in
  if String.eqb (ToLower (lg_Format lc)) "text" then TextHandler level else JSONHandler level.

(** ** TLS *)

Definition VersionTLS12 : Z := 771.
Definition VersionTLS13 : Z := 772.

Inductive ClientAuthType :=
| NoClientCert
| RequestClientCert
| RequireAnyClientCert
| VerifyClientCertIfGiven
| RequireAndVerifyClientCert.

Section Boot.
(** Key pairs and certificate pools of crypto/tls and crypto/x509. *)
Context {Cert Pool : Type}.

(** The machine the process runs on: its environment variables, its files, and what
    crypto/tls and crypto/x509 make of them. *)
Record Host := {
  ht_Getenv : string -> string;
  ht_Exists : string -> bool;
  ht_LoadX509KeyPair : string -> string -> result Cert;
  ht_ReadFile : string -> result string;
  ht_CertsFromPEM : string -> option Pool
}.

Record tls_Config := {
  tc_Certificates : list Cert; tc_MinVersion : Z; tc_ClientCAs : option Pool; tc_RootCAs : option Pool;
  tc_ClientAuth : ClientAuthType
}.

Definition min_version (name : string) : Z := if String.eqb name "1.3" then VersionTLS13 else VersionTLS12.

Definition client_auth (name : string) : ClientAuthType :=
  if String.eqb name "request" then RequestClientCert
  else if String.eqb name "require" then RequireAnyClientCert
  else if String.eqb name "verify" then VerifyClientCertIfGiven
  else if String.eqb name "require_and_verify" then RequireAndVerifyClientCert
  else NoClientCert.

(** The pool of [CAFile], if one is set. *)
Definition ca_pool (host : Host) (file : string) : result (option Pool) :=
  if String.eqb file "" then Ok None
  else match ht_ReadFile host file with
       | Err msg => Err ("tls: read ca file: " +:+ msg)
       | Ok pem => match ht_CertsFromPEM host pem with
                   | None => Err "tls: no valid certs in ca file"
                   | Some pool => Ok (Some pool)
                   end
       end.

Definition NewTLSConfig (host : Host) (cfg : TLSConfig) : result (option tls_Config) :=
  if negb (tl_Enabled cfg) then Ok None
  else match ht_LoadX509KeyPair host (tl_CertFile cfg) (tl_KeyFile cfg) with
       | Err msg => Err ("tls: load keypair: " +:+ msg)
       | Ok cert =>
           match ca_pool host (tl_CAFile cfg) with
           | Err msg => Err msg
           | Ok pool => Ok (Some {| tc_Certificates := [cert]; tc_MinVersion := min_version (tl_MinVersion cfg);
                                    tc_ClientCAs := pool; tc_RootCAs := pool;
                                    tc_ClientAuth := client_auth (tl_ClientAuth cfg) |})
           end
       end.

(** ** The two servers *)

Record HTTPServer := {
  hs_Addr : string; hs_tlsConfig : option tls_Config; hs_readTimeout : Duration; hs_writeTimeout : Duration;
  hs_idleTimeout : Duration; hs_maxHeaderBytes : int64
}.

Definition WithTLS (tc : option tls_Config) (s : HTTPServer) : HTTPServer :=
  {| hs_Addr := hs_Addr s; hs_tlsConfig := tc; hs_readTimeout := hs_readTimeout s;
     hs_writeTimeout := hs_writeTimeout s; hs_idleTimeout := hs_idleTimeout s; hs_maxHeaderBytes := hs_maxHeaderBytes s |}.
Definition WithTimeouts (read write idle : Duration) (s : HTTPServer) : HTTPServer :=
  {| hs_Addr := hs_Addr s; hs_tlsConfig := hs_tlsConfig s; hs_readTimeout := read; hs_writeTimeout := write;
     hs_idleTimeout := idle; hs_maxHeaderBytes := hs_maxHeaderBytes s |}.
Definition WithMaxHeaderBytes (n : int64) (s : HTTPServer) : HTTPServer :=
  {| hs_Addr := hs_Addr s; hs_tlsConfig := hs_tlsConfig s; hs_readTimeout := hs_readTimeout s;
     hs_writeTimeout := hs_writeTimeout s; hs_idleTimeout := hs_idleTimeout s; hs_maxHeaderBytes := n |}.

(** [NewHTTPServer]; its routes are [base_routes] of [Http]. *)
Definition NewHTTPServer (addr : string) (opts : list (HTTPServer -> HTTPServer)) : HTTPServer :=
  foldl (fun s o => o s)
    {| hs_Addr := addr; hs_tlsConfig := None; hs_readTimeout := 5 * Second; hs_writeTimeout := 10 * Second;
       hs_idleTimeout := 120 * Second; hs_maxHeaderBytes := Z.shiftl 1 20 |} opts.

Record grpcConfig := { gc_tlsConfig : option tls_Config; gc_maxRecvBytes : int64; gc_maxSendBytes : int64 }.

Definition WithGRPCTLS (tc : tls_Config) (c : grpcConfig) : grpcConfig :=
  {| gc_tlsConfig := Some tc; gc_maxRecvBytes := gc_maxRecvBytes c; gc_maxSendBytes := gc_maxSendBytes c |}.
Definition WithGRPCMaxBytes (recv send : int64) (c : grpcConfig) : grpcConfig :=
  {| gc_tlsConfig := gc_tlsConfig c; gc_maxRecvBytes := recv; gc_maxSendBytes := send |}.

(** The options handed to [grpc.NewServer]. *)
Inductive ServerOption :=
| MaxRecvMsgSize (n : int64)
| MaxSendMsgSize (n : int64)
| KeepaliveParams (idle age grace ping timeout : Duration)
| KeepaliveEnforcementPolicy (minTime : Duration) (permitWithoutStream : bool)
| ChainUnaryInterceptor
| ChainStreamInterceptor
| Creds (tc : tls_Config).

Record GRPCServer := { gs_Addr : string; gs_Options : list ServerOption }.

(** [NewGRPCServer] without a server to reuse, as [runAll] calls it. *)
Definition NewGRPCServer (addr : string) (opts : list (grpcConfig -> grpcConfig)) : GRPCServer :=
  let gc := foldl (fun c o => o c)
              {| gc_tlsConfig := None; gc_maxRecvBytes := Z.shiftl 4 20; gc_maxSendBytes := Z.shiftl 4 20 |} opts in
  {| gs_Addr := addr;
     gs_Options := [MaxRecvMsgSize (gc_maxRecvBytes gc); MaxSendMsgSize (gc_maxSendBytes gc);
                    KeepaliveParams (300 * Second) (1800 * Second) (10 * Second) (60 * Second) (20 * Second);
                    KeepaliveEnforcementPolicy (10 * Second) true; ChainUnaryInterceptor; ChainStreamInterceptor] ++
                   match gc_tlsConfig gc with None => [] | Some tc => [Creds tc] end |}.

(** The transport credentials among the options. *)
Definition grpc_creds (s : GRPCServer) : list tls_Config :=
  omap (fun o => match o with Creds tc => Some tc | _ => None end) (gs_Options s).

(** ** [runAll], up to where it starts listening *)

Definition policy_file (host : Host) : string :=
  if String.eqb (ht_Getenv host "RLAAS_POLICY_FILE") "" then "examples/policies.json"
  else ht_Getenv host "RLAAS_POLICY_FILE".

Definition http_of (cfg : Config) (tc : option tls_Config) : HTTPServer :=
  let sc := cf_Server cfg in
  NewHTTPServer (sc_HTTPAddr sc)
    [WithTimeouts (sc_ReadTimeout sc) (sc_WriteTimeout sc) (sc_IdleTimeout sc);
     WithMaxHeaderBytes (sc_MaxHeaderBytes sc); WithTLS tc].

Definition grpc_of (cfg : Config) (tc : option tls_Config) : GRPCServer :=
  let sc := cf_Server cfg in
  NewGRPCServer (sc_GRPCAddr sc)
    ([WithGRPCMaxBytes (sc_GRPCMaxRecvBytes sc) (sc_GRPCMaxSendBytes sc)] ++
     match tc with None => [] | Some tc => [WithGRPCTLS tc] end).

Inductive BootError := PolicyFileNotFound (file : string) | TLSSetup (msg : string).

(** The servers, or the error it returns. *)
Definition boot (host : Host) (cfg : Config) : (HTTPServer * GRPCServer) + BootError :=
  if negb (ht_Exists host (policy_file host)) then inr (PolicyFileNotFound (policy_file host))
  else match NewTLSConfig host (cf_TLS cfg) with
       | Err msg => inr (TLSSetup msg)
       | Ok tc => inl (http_of cfg tc, grpc_of cfg tc)
       end.

(** ** The process *)

(** The goroutine of [main]: in [main] and [runAll]; in [defaultListen] before it
    starts the HTTP goroutine, before it asks for signals, in its [select], after the
    signal, in [Shutdown]; and its end. *)
Inductive main_at :=
| AtValidate
| AtBoot
| AtGrpcListen (servers : HTTPServer * GRPCServer)
| AtSetReady (servers : HTTPServer * GRPCServer)
| AtListen (servers : HTTPServer * GRPCServer)
| AtNotify (servers : HTTPServer * GRPCServer)
| AtSelect (servers : HTTPServer * GRPCServer)
| AtSignalled (servers : HTTPServer * GRPCServer)
| AtShutdown (servers : HTTPServer * GRPCServer)
| AtDrain (servers : HTTPServer * GRPCServer) (deadline : Time)
| Exited1
| Returned (failed : bool)
| Killed.

(** [HTTPServer.server] and its listener: none yet, not listening yet, accepting,
    closed by [Shutdown], failed with the error waiting in [errCh]. *)
Inductive http_at := HttpNone | HttpBuilt | HttpAccepting (tc : option tls_Config) | HttpClosed | HttpFailed.

(** The gRPC server, its goroutine, and the goroutine that stops it. *)
Inductive grpc_at := GrpcNone | GrpcStarted | GrpcAccepting (creds : list tls_Config) | GrpcDraining | GrpcStopped | GrpcFailed.
Inductive stop_at := StopNone | StopNotify | StopWait | StopCalled.

Record Process := {
  ps_main : main_at; ps_ready : bool; ps_sweeper : bool; ps_now : Time;
  ps_http : http_at; ps_requests : nat;
  ps_grpc : grpc_at; ps_rpcs : nat; ps_stop : stop_at;
  ps_quit : bool; ps_grpc_quit : bool
}.

Definition started (now : Time) : Process :=
  {| ps_main := AtValidate; ps_ready := false; ps_sweeper := false; ps_now := now; ps_http := HttpNone;
     ps_requests := 0; ps_grpc := GrpcNone; ps_rpcs := 0; ps_stop := StopNone; ps_quit := false; ps_grpc_quit := false |}.

Definition with_main (m : main_at) (p : Process) : Process :=
  {| ps_main := m; ps_ready := ps_ready p; ps_sweeper := ps_sweeper p; ps_now := ps_now p; ps_http := ps_http p;
     ps_requests := ps_requests p; ps_grpc := ps_grpc p; ps_rpcs := ps_rpcs p; ps_stop := ps_stop p;
     ps_quit := ps_quit p; ps_grpc_quit := ps_grpc_quit p |}.
(** [SetReady]. *)
Definition SetReady (v : bool) (p : Process) : Process :=
  {| ps_main := ps_main p; ps_ready := v; ps_sweeper := ps_sweeper p; ps_now := ps_now p; ps_http := ps_http p;
     ps_requests := ps_requests p; ps_grpc := ps_grpc p; ps_rpcs := ps_rpcs p; ps_stop := ps_stop p;
     ps_quit := ps_quit p; ps_grpc_quit := ps_grpc_quit p |}.
Definition with_sweeper (v : bool) (p : Process) : Process :=
  {| ps_main := ps_main p; ps_ready := ps_ready p; ps_sweeper := v; ps_now := ps_now p; ps_http := ps_http p;
     ps_requests := ps_requests p; ps_grpc := ps_grpc p; ps_rpcs := ps_rpcs p; ps_stop := ps_stop p;
     ps_quit := ps_quit p; ps_grpc_quit := ps_grpc_quit p |}.
Definition with_http (h : http_at) (n : nat) (p : Process) : Process :=
  {| ps_main := ps_main p; ps_ready := ps_ready p; ps_sweeper := ps_sweeper p; ps_now := ps_now p; ps_http := h;
     ps_requests := n; ps_grpc := ps_grpc p; ps_rpcs := ps_rpcs p; ps_stop := ps_stop p;
     ps_quit := ps_quit p; ps_grpc_quit := ps_grpc_quit p |}.
Definition with_grpc (g : grpc_at) (n : nat) (st : stop_at) (p : Process) : Process :=
  {| ps_main := ps_main p; ps_ready := ps_ready p; ps_sweeper := ps_sweeper p; ps_now := ps_now p; ps_http := ps_http p;
     ps_requests := ps_requests p; ps_grpc := g; ps_rpcs := n; ps_stop := st;
     ps_quit := ps_quit p; ps_grpc_quit := ps_grpc_quit p |}.
Definition with_quits (q gq : bool) (p : Process) : Process :=
  {| ps_main := ps_main p; ps_ready := ps_ready p; ps_sweeper := ps_sweeper p; ps_now := ps_now p; ps_http := ps_http p;
     ps_requests := ps_requests p; ps_grpc := ps_grpc p; ps_rpcs := ps_rpcs p; ps_stop := ps_stop p;
     ps_quit := q; ps_grpc_quit := gq |}.
Definition with_now (now : Time) (p : Process) : Process :=
  {| ps_main := ps_main p; ps_ready := ps_ready p; ps_sweeper := ps_sweeper p; ps_now := now; ps_http := ps_http p;
     ps_requests := ps_requests p; ps_grpc := ps_grpc p; ps_rpcs := ps_rpcs p; ps_stop := ps_stop p;
     ps_quit := ps_quit p; ps_grpc_quit := ps_grpc_quit p |}.

Context (host : Host) (cfg : Config).

(** [runAll] returns: the deferred [counterStore.Stop] runs, then [main] returns. *)
Definition returns (failed : bool) (p : Process) : Process := with_main (Returned failed) (with_sweeper false p).

Definition shutdown_timeout : Duration :=
  if sc_ShutdownTimeout (cf_Server cfg) =? 0 then 10 * Second else sc_ShutdownTimeout (cf_Server cfg).

(** A step of the goroutine of [main]; [None] when it cannot move. *)
Definition main_turn (p : Process) : option Process :=
  match ps_main p with
  | AtValidate => Some (with_main (match Validate cfg with Some _ => Exited1 | None => AtBoot end) p)
  | AtBoot =>
      match boot host cfg with
      | inr (PolicyFileNotFound _) => Some (returns true p)
      | inr (TLSSetup _) => Some (returns true (with_sweeper true p))
      | inl servers => Some (with_main (AtGrpcListen servers) (with_sweeper true p))
      end
  | AtGrpcListen servers => Some (with_main (AtSetReady servers) (with_grpc GrpcStarted 0 StopNotify p))
  | AtSetReady servers => Some (with_main (AtListen servers) (SetReady true p))
  | AtListen servers => Some (with_main (AtNotify servers) p)
  | AtNotify servers => Some (with_main (AtSelect servers) p)
  | AtSelect servers => if ps_quit p then Some (with_main (AtSignalled servers) (with_quits false (ps_grpc_quit p) p)) else None
  | AtSignalled servers => Some (with_main (AtShutdown servers) (SetReady false p))
  | AtShutdown servers =>
      match ps_http p with
      | HttpNone => Some (returns false p)
      | _ => Some (with_main (AtDrain servers (ps_now p + shutdown_timeout)) (with_http HttpClosed (ps_requests p) p))
      end
  | AtDrain _ _ => match ps_requests p with O => Some (returns false p) | S _ => None end
  | Exited1 | Returned _ | Killed => None
  end.

(** The [select] taking the error of the HTTP goroutine. *)
Definition main_err_turn (p : Process) : option Process :=
  match ps_main p, ps_http p with
  | AtSelect _, HttpFailed => Some (returns true p)
  | _, _ => None
  end.

(** The context of [Shutdown] expiring. *)
Definition deadline_turn (p : Process) : option Process :=
  match ps_main p with
  | AtDrain _ deadline => if deadline <=? ps_now p then Some (returns true p) else None
  | _ => None
  end.

(** The servers once the HTTP goroutine has been started. *)
Definition listening (m : main_at) : option (HTTPServer * GRPCServer) :=
  match m with
  | AtNotify s | AtSelect s | AtSignalled s | AtShutdown s | AtDrain s _ => Some s
  | _ => None
  end.

(** The servers once the gRPC goroutines have been started. *)
Definition grpc_listening (m : main_at) : option (HTTPServer * GRPCServer) :=
  match m with AtSetReady s | AtListen s => Some s | _ => listening m end.

(** [HTTPServer.ListenAndServe]: it builds the [http.Server], then listens, which may
    fail, and may fail later. *)
Definition http_turn (fails : bool) (p : Process) : option Process :=
  match listening (ps_main p), ps_http p with
  | Some _, HttpNone => Some (with_http HttpBuilt 0 p)
  | Some (hs, _), HttpBuilt => Some (with_http (if fails then HttpFailed else HttpAccepting (hs_tlsConfig hs)) 0 p)
  | Some _, HttpAccepting _ => if fails then Some (with_http HttpFailed (ps_requests p) p) else None
  | _, _ => None
  end.

(** [GRPCServer.ListenAndServe]; after [GracefulStop], [Serve] returns at once. *)
Definition grpc_turn (fails : bool) (p : Process) : option Process :=
  match grpc_listening (ps_main p), ps_grpc p with
  | Some (_, gs), GrpcStarted =>
      Some (with_grpc (if fails then GrpcFailed else GrpcAccepting (grpc_creds gs)) 0 (ps_stop p) p)
  | Some _, GrpcAccepting _ => if fails then Some (with_grpc GrpcFailed (ps_rpcs p) (ps_stop p) p) else None
  | _, _ => None
  end.

(** The goroutine that stops the gRPC server. *)
Definition stop_turn (p : Process) : option Process :=
  match ps_stop p with
  | StopNone => None
  | StopNotify => Some (with_grpc (ps_grpc p) (ps_rpcs p) StopWait p)
  | StopWait =>
      if ps_grpc_quit p
      then Some (with_quits (ps_quit p) false
                   (with_grpc (match ps_grpc p with GrpcAccepting _ => GrpcDraining | GrpcFailed => GrpcFailed | _ => GrpcStopped end)
                      (ps_rpcs p) StopCalled p))
      else None
  | StopCalled => match ps_grpc p, ps_rpcs p with GrpcDraining, O => Some (with_grpc GrpcStopped 0 StopCalled p) | _, _ => None end
  end.

(** A signal goes to every channel that asked for it, each holding one; with none, it
    ends the process. *)
Definition signal_turn (p : Process) : Process :=
  let m := match ps_main p with AtSelect _ | AtSignalled _ | AtShutdown _ | AtDrain _ _ => true | _ => false end in
  let g := match ps_stop p with StopWait | StopCalled => true | _ => false end in
  if m || g then with_quits (m || ps_quit p) (g || ps_grpc_quit p) p else with_main Killed p.

Inductive happening :=
| MainStep | MainErr | Deadline
| HttpStep (fails : bool) | GrpcStep (fails : bool) | StopStep
| Signal
| RequestIn | RequestOut | RpcIn | RpcOut
| Pass (d : Duration).

Definition alive (m : main_at) : bool := match m with Exited1 | Returned _ | Killed => false | _ => true end.

(** One thing happens to the process; [None] when it cannot. *)
Definition process_turn (h : happening) (p : Process) : option Process :=
  if negb (alive (ps_main p)) then None else
  match h with
  | MainStep => main_turn p
  | MainErr => main_err_turn p
  | Deadline => deadline_turn p
  | HttpStep fails => http_turn fails p
  | GrpcStep fails => grpc_turn fails p
  | StopStep => stop_turn p
  | Signal => Some (signal_turn p)
  | RequestIn => match ps_http p with HttpAccepting _ => Some (with_http (ps_http p) (S (ps_requests p)) p) | _ => None end
  | RequestOut => match ps_requests p with S n => Some (with_http (ps_http p) n p) | O => None end
  | RpcIn => match ps_grpc p with GrpcAccepting _ => Some (with_grpc (ps_grpc p) (S (ps_rpcs p)) (ps_stop p) p) | _ => None end
  | RpcOut => match ps_rpcs p with S n => Some (with_grpc (ps_grpc p) n (ps_stop p) p) | O => None end
  | Pass d => if 0 <=? d then Some (with_now (ps_now p + d) p) else None
  end.

Fixpoint process_run (hs : list happening) (p : Process) : option Process :=
  match hs with [] => Some p | h :: hs => process_turn h p ≫= process_run hs end.
End Boot.

Arguments Host : clear implicits.
Arguments tls_Config : clear implicits.
Arguments HTTPServer : clear implicits.
Arguments GRPCServer : clear implicits.
Arguments Process : clear implicits.

(** ** What the process guarantees *)

Section Lifecycle.
Context {Cert Pool : Type} (host : Host Cert Pool) (cfg : Config).

(** What each name of the setting [ClientAuth] demands of a client's certificate. *)
Definition demands : list (string * ClientAuthType) :=
  [("request", RequestClientCert); ("require", RequireAnyClientCert); ("verify", VerifyClientCertIfGiven);
   ("require_and_verify", RequireAndVerifyClientCert)].

(** A listener speaks TLS exactly when it is enabled: with the configured key pair, the
    configured oldest version (1.3, or else 1.2), the certificates of the configured
    authority file and the configured demand on client certificates. *)
Definition protected (tc : option (tls_Config Cert Pool)) : Prop :=
  let t := cf_TLS cfg in
  if tl_Enabled t then
    exists cert c, tc = Some c /\ ht_LoadX509KeyPair host (tl_CertFile t) (tl_KeyFile t) = Ok cert /\
      tc_Certificates c = [cert] /\
      (tl_MinVersion t = "1.3" -> tc_MinVersion c = VersionTLS13) /\ (tl_MinVersion t <> "1.3" -> tc_MinVersion c = VersionTLS12) /\
      (forall auth, In (tl_ClientAuth t, auth) demands -> tc_ClientAuth c = auth) /\
      (~ In (tl_ClientAuth t) demands.*1 -> tc_ClientAuth c = NoClientCert) /\
      (tl_CAFile t = "" -> tc_ClientCAs c = None) /\
      (tl_CAFile t <> "" -> exists pem pool, ht_ReadFile host (tl_CAFile t) = Ok pem /\ ht_CertsFromPEM host pem = Some pool /\
        tc_ClientCAs c = Some pool)
  else tc = None.

Lemma ca_pool_some file pool : ca_pool host file = Ok pool -> file <> "" ->
  exists pem certs, ht_ReadFile host file = Ok pem /\ ht_CertsFromPEM host pem = Some certs /\ pool = Some certs.
Proof.
  unfold ca_pool. intros H Hne. rewrite (proj2 (String.eqb_neq _ _) Hne) in H.
  destruct (ht_ReadFile host file) as [pem|]; [|done]. destruct (ht_CertsFromPEM host pem) eqn:E; [|done].
  injection H as <-. by eexists _, _.
Qed.

Lemma ca_pool_none pool : ca_pool host "" = Ok pool -> pool = None.
Proof. by intros [= <-]. Qed.

Lemma min_version_13 name : name = "1.3" -> min_version name = VersionTLS13.
Proof. by intros ->. Qed.

Lemma min_version_12 name : name <> "1.3" -> min_version name = VersionTLS12.
Proof. intros H. unfold min_version. by rewrite (proj2 (String.eqb_neq _ _) H). Qed.

Lemma client_auth_demands name auth : In (name, auth) demands -> client_auth name = auth.
Proof. cbn. intros H. repeat destruct H as [[= <- <-]|H]; done. Qed.

Lemma client_auth_none name : ~ In name demands.*1 -> client_auth name = NoClientCert.
Proof. cbn. intros H. unfold client_auth. rewrite !(proj2 (String.eqb_neq _ _)) by (intros ->; tauto). done. Qed.

Lemma NewTLSConfig_protected tc : NewTLSConfig host (cf_TLS cfg) = Ok tc -> protected tc.
Proof.
  unfold NewTLSConfig, protected. destruct (tl_Enabled (cf_TLS cfg)); cbn [negb]; [|by intros [= <-]].
  destruct (ht_LoadX509KeyPair host _ _) as [cert|] eqn:Ek; [|done].
  destruct (ca_pool host (tl_CAFile (cf_TLS cfg))) as [pool|] eqn:Ec; [|done]. intros [= <-].
  eexists cert, _. split_and!; try done; cbn;
    auto using min_version_13, min_version_12, client_auth_demands, client_auth_none, ca_pool_some.
  intros E. rewrite E in Ec. by apply ca_pool_none.
Qed.

(** What [boot] builds. *)
Lemma boot_ok servers : boot host cfg = inl servers ->
  ht_Exists host (policy_file host) = true /\
  exists tc, NewTLSConfig host (cf_TLS cfg) = Ok tc /\ hs_tlsConfig servers.1 = tc /\
    grpc_creds servers.2 = match tc with None => [] | Some c => [c] end.
Proof.
  unfold boot. destruct (ht_Exists host (policy_file host)) eqn:Ef; [|done]. cbn [negb].
  destruct (NewTLSConfig host (cf_TLS cfg)) as [tc|]; [|done]. intros [= <-]. split; [done|].
  exists tc. split_and!; [done|done|by destruct tc].
Qed.

(** The servers of a position of [main] that has them. *)
Definition servers_of (m : main_at) : option (HTTPServer Cert Pool * GRPCServer Cert Pool) :=
  match m with
  | AtGrpcListen s | AtSetReady s | AtListen s | AtNotify s | AtSelect s | AtSignalled s | AtShutdown s | AtDrain s _ => Some s
  | _ => None
  end.

(** [main] has got past [Validate] and [boot]. *)
Definition booted : Prop := Validate cfg = None /\ exists servers, boot host cfg = inl servers.

(** Where the process may report itself ready, and where it may accept requests. *)
Definition ready_at (m : main_at (Cert := Cert) (Pool := Pool)) : bool :=
  match m with AtListen _ | AtNotify _ | AtSelect _ | AtSignalled _ | Returned true | Killed => true | _ => false end.

Record proc_inv (p : Process Cert Pool) : Prop := {
  inv_valid : ps_main p = AtBoot -> Validate cfg = None;
  inv_servers s : servers_of (ps_main p) = Some s -> boot host cfg = inl s /\ Validate cfg = None;
  inv_ready : ps_ready p = true -> booted /\ ready_at (ps_main p) = true;
  inv_http tc : ps_http p = HttpAccepting tc -> NewTLSConfig host (cf_TLS cfg) = Ok tc;
  inv_grpc creds : ps_grpc p = GrpcAccepting creds ->
    exists tc, NewTLSConfig host (cf_TLS cfg) = Ok tc /\ creds = match tc with None => [] | Some c => [c] end;
  inv_started : ps_http p <> HttpNone -> alive (ps_main p) = true -> is_Some (listening (ps_main p));
  inv_idle : ps_http p = HttpNone -> ps_requests p = 0%nat;
  inv_closed : ps_http p = HttpClosed -> ps_ready p = false;
  inv_returned : ps_main p = Returned false -> ps_requests p = 0%nat /\ ps_ready p = false;
  inv_sweeper failed : ps_main p = Returned failed -> ps_sweeper p = false
}.

Lemma proc_inv_started now : proc_inv (started now).
Proof. constructor; by cbn; try (intros [? ?]). Qed.

Lemma inv_not_ready p : proc_inv p -> ready_at (ps_main p) = false -> ps_ready p = false.
Proof. intros Hp Hm. destruct (ps_ready p) eqn:Er; [|done]. destruct (inv_ready p Hp Er) as [_ H]. by rewrite Hm in H. Qed.

Lemma inv_not_listening p : proc_inv p -> listening (ps_main p) = None -> alive (ps_main p) = true -> ps_http p = HttpNone.
Proof.
  intros Hp Hm Ha. destruct (ps_http p) eqn:Eh; [done|..]; exfalso; destruct (inv_started p Hp) as [? ?]; congruence.
Qed.

Lemma inv_booted p s : proc_inv p -> servers_of (ps_main p) = Some s -> booted.
Proof. intros Hp Hs. destruct (inv_servers p Hp s Hs) as [Hb Hv]. split; [done|by exists s]. Qed.

(** What the invariant says where [main] stands, with its facts in the context. *)
Ltac at_main p Hp :=
  pose proof (inv_not_ready p Hp) as Hnr; pose proof (inv_not_listening p Hp) as Hnl;
  pose proof (fun s => inv_booted p s Hp) as Hb; destruct Hp as [Hv Hs Hr Hh Hg Hst Hi Hc Hret Hsw].

Ltac from_inv :=
  intros; simplify_eq; repeat match goal with H : false = false -> _ |- _ => specialize (H eq_refl) | H : None = None -> _ |- _ => specialize (H eq_refl) | H : true = true -> _ |- _ => specialize (H eq_refl) end; first [congruence|split_and?; eauto; congruence].

(** A turn of [main]: its position changes, and what that position stands for. *)
Lemma main_turn_inv p p' : proc_inv p -> main_turn host cfg p = Some p' -> proc_inv p'.
Proof.
  intros Hp Ht. at_main p Hp. unfold main_turn in Ht.
  destruct (ps_main p) eqn:Em; simplify_eq; cbn [servers_of ready_at listening alive] in *.
  all: repeat case_match; simplify_eq; constructor; cbn; try done.
  all: from_inv.
Qed.

(** [main] ends: the listeners and what they carry stay as they are. *)
Lemma ended_inv m p : proc_inv p -> m = Returned true \/ m = Killed -> (m <> Killed -> ps_sweeper p = false) -> proc_inv (with_main m p).
Proof.
  intros Hp Hm Hswp. at_main p Hp. constructor; cbn; destruct Hm as [-> | ->]; try done; intros; destruct_and?; simplify_eq; eauto.
  all: intros; destruct (Hr ltac:(done)) as [H1 _]; done.
Qed.

Lemma with_sweeper_inv p : proc_inv p -> proc_inv (with_sweeper false p).
Proof. intros []. by constructor. Qed.

(** The HTTP goroutine. *)
Lemma http_turn_inv fails p p' : proc_inv p -> http_turn fails p = Some p' -> proc_inv p'.
Proof.
  intros Hp Ht. at_main p Hp. unfold http_turn in Ht.
  destruct (listening (ps_main p)) as [[hs gs]|] eqn:El; [|done].
  assert (Htls : NewTLSConfig host (cf_TLS cfg) = Ok (hs_tlsConfig hs)).
  { destruct (Hs (hs, gs)) as [Hboot _]; [by destruct (ps_main p)|]. by destruct (boot_ok _ Hboot) as (_ & tc & -> & <- & _). }
  assert (Hlive : ps_main p <> Returned false) by (intros E; by rewrite E in El).
  destruct (ps_http p) eqn:Eh, fails; simplify_eq; constructor; cbn; try done.
  all: from_inv.
Qed.

(** The goroutines of the gRPC server. *)
Lemma with_grpc_inv g n st p :
  proc_inv p ->
  (forall creds, g = GrpcAccepting creds ->
    exists tc, NewTLSConfig host (cf_TLS cfg) = Ok tc /\ creds = match tc with None => [] | Some c => [c] end) ->
  proc_inv (with_grpc g n st p).
Proof. intros [] Hcreds. by constructor. Qed.

Lemma grpc_turn_inv fails p p' : proc_inv p -> grpc_turn fails p = Some p' -> proc_inv p'.
Proof.
  intros Hp Ht. unfold grpc_turn in Ht. destruct (grpc_listening (ps_main p)) as [[hs gs]|] eqn:El; [|done].
  destruct (inv_servers p Hp (hs, gs)) as [Hboot _]; [by destruct (ps_main p)|].
  destruct (boot_ok _ Hboot) as (_ & tc & Htc & _ & Hcreds).
  destruct (ps_grpc p) eqn:Eg, fails; simplify_eq; apply with_grpc_inv; try done. intros creds [= <-]. by exists tc.
Qed.

Lemma with_quits_inv q gq p : proc_inv p -> proc_inv (with_quits q gq p).
Proof. intros []. by constructor. Qed.

Lemma stop_turn_inv p p' : proc_inv p -> stop_turn p = Some p' -> proc_inv p'.
Proof.
  intros Hp Ht. pose proof (inv_grpc p Hp) as Hg. unfold stop_turn in Ht.
  repeat case_match; simplify_eq; repeat apply with_quits_inv; apply with_grpc_inv; done || (by intros; simplify_eq; eauto).
Qed.

(** Requests that arrive and are answered. *)
Lemma request_turn_inv n p : proc_inv p -> alive (ps_main p) = true -> (ps_http p = HttpNone -> n = 0%nat) ->
  proc_inv (with_http (ps_http p) n p).
Proof. intros [] Ha Hn. constructor; try done. cbn. intros E. by rewrite E in Ha. Qed.

Lemma process_turn_inv h p p' : proc_inv p -> process_turn host cfg h p = Some p' -> proc_inv p'.
Proof.
  intros Hp Ht. unfold process_turn in Ht. destruct (alive (ps_main p)) eqn:Ea; [|done]. cbn [negb] in Ht. destruct h.
  - by eapply main_turn_inv.
  - unfold main_err_turn in Ht. repeat case_match; simplify_eq. apply ended_inv; [by apply with_sweeper_inv|by left|done].
  - unfold deadline_turn in Ht. repeat case_match; simplify_eq. apply ended_inv; [by apply with_sweeper_inv|by left|done].
  - by eapply http_turn_inv.
  - by eapply grpc_turn_inv.
  - by eapply stop_turn_inv.
  - unfold signal_turn in Ht. injection Ht as <-. case_match; [by apply with_quits_inv|apply ended_inv; auto; done].
  - case_match eqn:Eh; simplify_eq. rewrite <- Eh. apply request_turn_inv; [done..|congruence].
  - destruct (ps_requests p) eqn:Er; simplify_eq. apply request_turn_inv; [done..|]. intros E. by rewrite (inv_idle p Hp E) in Er.
  - case_match eqn:Eg; simplify_eq. rewrite <- Eg. apply with_grpc_inv; [done|apply inv_grpc, Hp].
  - case_match; simplify_eq. apply with_grpc_inv; [done|apply inv_grpc, Hp].
  - case_match; simplify_eq. destruct Hp. by constructor.
Qed.

Lemma process_run_inv hs p p' : proc_inv p -> process_run host cfg hs p = Some p' -> proc_inv p'.
Proof.
  revert p. induction hs as [|h hs IH]; intros p Hp Hr; [by injection Hr as <-|]. cbn [process_run] in Hr.
  destruct (process_turn host cfg h p) eqn:E; [|done]. by eapply IH, Hr; eapply process_turn_inv.
Qed.

(** C20 (kind: safety).  However the goroutines, signals and requests interleave: the process reports itself ready only if
    its settings are valid, the policy file is there and TLS could be set up; a listener that accepts connections
    speaks TLS exactly when it is enabled, with the configured key pair, oldest version, authority and demand on
    client certificates ([protected]; the setting [CipherSuites] is not applied, see [cipher_suites_ignored]);
    readiness is withdrawn before the HTTP listener closes; and a process that ended without an error has answered every HTTP request it
    took, is not ready and has stopped its sweeper. *)
Theorem lifecycle_safe (happenings : list happening) (now : Time) (p : Process Cert Pool) :
  process_run host cfg happenings (started now) = Some p ->
  (ps_ready p = true -> Validate cfg = None /\ ht_Exists host (policy_file host) = true /\
    exists tc, NewTLSConfig host (cf_TLS cfg) = Ok tc) /\
  (forall tc, ps_http p = HttpAccepting tc -> protected tc) /\
  (forall creds, ps_grpc p = GrpcAccepting creds -> exists tc, protected tc /\ creds = option_list tc) /\
  (ps_http p = HttpClosed -> ps_ready p = false) /\
  (ps_main p = Returned false -> ps_requests p = 0%nat /\ ps_ready p = false /\ ps_sweeper p = false).
Proof.
  intros Hr. pose proof (process_run_inv _ _ _ (proc_inv_started now) Hr) as Hp. split_and!.
  - intros Er. destruct (inv_ready p Hp Er) as [[Hv [s Hs]] _]. destruct (boot_ok s Hs) as (Hf & tc & Htc & _). eauto.
  - intros tc Htc. by apply NewTLSConfig_protected, (inv_http p Hp).
  - intros creds Hc. destruct (inv_grpc p Hp creds Hc) as (tc & Htc & ->). exists tc. split; [by apply NewTLSConfig_protected|by destruct tc].
  - apply Hp.
  - intros Hm. destruct (inv_returned p Hp Hm) as [-> ->]. split_and!; [done..|by eapply inv_sweeper].
Qed.

(** *** Shutdown ends *)

(** How far [main] is from its end, once a signal is in the channel it selects on.  A
    signal that came before [main] asked for them is not there ([early_signal_missed]). *)
Definition leaving (p : Process Cert Pool) : option nat :=
  match ps_main p with
  | AtSelect _ => if ps_quit p then Some 4%nat else None
  | AtSignalled _ => Some 3%nat
  | AtShutdown _ => Some 2%nat
  | AtDrain _ _ => Some 1%nat
  | Exited1 | Returned _ | Killed => Some 0%nat
  | _ => None
  end.

(** Turns of [main] itself, and time. *)
Definition own (h : happening) : bool := match h with MainStep | Deadline | Pass _ => true | _ => false end.

Lemma leaving_turn h p p' n : leaving p = Some n -> process_turn host cfg h p = Some p' ->
  exists m, leaving p' = Some m /\ (m <= n)%nat.
Proof.
  unfold leaving, process_turn, main_turn, main_err_turn, deadline_turn, http_turn, grpc_turn, stop_turn, signal_turn. intros Hn Ht.
  destruct (ps_main p) eqn:Em; simplify_eq; cbn [alive negb] in Ht.
  all: destruct h; repeat case_match; simplify_eq; cbn in *; rewrite ?Em in *; simplify_eq; first [congruence|eexists; split; [reflexivity|lia]].
Qed.

Lemma main_step p p' : main_turn host cfg p = Some p' -> process_run host cfg [MainStep] p = Some p'.
Proof.
  intros Ht. cbn [process_run]. unfold process_turn. rewrite Ht. unfold main_turn in Ht. by destruct (ps_main p).
Qed.

Lemma deadline_step p d s deadline : ps_main p = AtDrain s deadline -> 0 <= d -> deadline <= ps_now p + d ->
  process_run host cfg [Pass d; Deadline] p = Some (returns true (with_now (ps_now p + d) p)).
Proof.
  intros Em Hd Hle. destruct p. cbn in *. subst. unfold process_turn, deadline_turn. cbn. rewrite (proj2 (Z.leb_le 0 d)) by done.
  cbn. by rewrite (proj2 (Z.leb_le _ _)) by done.
Qed.

(** Where [Shutdown] waits, its deadline is at most the shutdown timeout away. *)
Definition deadline_ok (p : Process Cert Pool) : Prop :=
  match ps_main p with AtDrain _ d => d <= ps_now p + shutdown_timeout cfg | _ => True end.

Lemma deadline_turn_ok h p p' : deadline_ok p -> process_turn host cfg h p = Some p' -> deadline_ok p'.
Proof.
  unfold deadline_ok, process_turn, main_turn, main_err_turn, deadline_turn, http_turn, grpc_turn, stop_turn, signal_turn. intros Hd Ht.
  destruct (ps_main p) eqn:Em; simplify_eq; cbn [alive negb] in Ht.
  all: destruct h; repeat case_match; simplify_eq; cbn in *; rewrite ?Em in *; simplify_eq; cbn; first [done|lia|congruence].
Qed.

Lemma deadline_run hs p p' : deadline_ok p -> process_run host cfg hs p = Some p' -> deadline_ok p'.
Proof.
  revert p. induction hs as [|h hs IH]; intros p Hp Hr; [by injection Hr as <-|]. cbn [process_run] in Hr.
  destruct (process_turn host cfg h p) eqn:E; [|done]. by eapply IH, Hr; eapply deadline_turn_ok.
Qed.

Lemma process_run_app hs hs' p : process_run host cfg (hs ++ hs') p = process_run host cfg hs p ≫= process_run host cfg hs'.
Proof. revert p. induction hs as [|h hs IH]; intros p; [done|]. cbn. destruct (process_turn host cfg h p); cbn; [apply IH|done]. Qed.

Lemma signal_leaves p s : ps_main p = AtSelect s -> leaving (signal_turn p) = Some 4%nat.
Proof. intros E. unfold leaving, signal_turn. rewrite E. cbn. by rewrite E. Qed.

(** One turn closer, at once, or at the end after waiting for the deadline. *)
Lemma leaving_closer p n limit : leaving p = Some n -> (0 < n)%nat ->
  (forall s d, ps_main p = AtDrain s d -> d <= ps_now p + limit) -> shutdown_timeout cfg <= limit -> 0 <= limit ->
  exists hs p' m, forallb own hs = true /\ process_run host cfg hs p = Some p' /\ leaving p' = Some m /\ (m < n)%nat /\
    (ps_now p' = ps_now p /\ (forall s d, ps_main p' = AtDrain s d -> d <= ps_now p' + limit) \/
     alive (ps_main p') = false /\ ps_now p' <= ps_now p + limit).
Proof.
  unfold leaving. intros Hn Hpos Hdl Hto Hl. pose proof (main_step p) as Hstep. unfold main_turn in Hstep.
  destruct (ps_main p) eqn:Em; simplify_eq; try lia.
  - destruct (ps_quit p) eqn:Eq; [|done]. simplify_eq. eexists [MainStep], _, 3%nat. split_and!; [done|by apply Hstep|done|cbn; lia|by left].
  - eexists [MainStep], _, 2%nat. split_and!; [done|by apply Hstep|done|cbn; lia|by left].
  - destruct (ps_http p) eqn:Eh; [eexists [MainStep], _, 0%nat|eexists [MainStep], _, 1%nat..];
      (split_and!; [done|by apply Hstep|done|cbn; lia|]; left; split; [done|]; intros ? ? [= <- <-] || intros ? ? [=]; cbn; lia).
  - set (d := Z.max 0 (deadline - ps_now p)). eexists [Pass d; Deadline], (returns true (with_now (ps_now p + d) p)), 0%nat.
    split_and!; [done|by apply (deadline_step p d _ _ Em); lia|done|lia|].
    right. split; [done|]. specialize (Hdl _ _ eq_refl). cbn. lia.
Qed.

(** [main] can always reach its end by its own turns, waiting no longer than [limit]. *)
Lemma leaving_ends n p limit : leaving p = Some n -> (forall s d, ps_main p = AtDrain s d -> d <= ps_now p + limit) ->
  shutdown_timeout cfg <= limit -> 0 <= limit ->
  exists hs p', forallb own hs = true /\ process_run host cfg hs p = Some p' /\ alive (ps_main p') = false /\
    ps_now p' <= ps_now p + limit.
Proof.
  revert p. induction (lt_wf n) as [n _ IH]. intros p Hn Hd Ht Hl. destruct (decide (n = 0%nat)) as [->|Hne].
  - exists [], p. split_and!; [done|done| |lia]. unfold leaving in Hn. by destruct (ps_main p), (ps_quit p).
  - destruct (leaving_closer p n limit Hn ltac:(lia) Hd Ht Hl) as (hs & p1 & m & Ho & Hr & Hm & Hlt & Hnow).
    destruct Hnow as [[Hnow Hd1]|[Ha Hnow]]; [|by exists hs, p1].
    destruct (IH m Hlt p1 Hm) as (hs' & p' & Ho' & Hr' & Ha & Hle); [done..|].
    exists (hs ++ hs'), p'. rewrite forallb_app, Ho, Ho', process_run_app, Hr. split_and!; [done|done|done|lia].
Qed.

(** C36 (kind: liveness).  A signal that finds [main] in its [select] reaches it.  From then on, in every process that can
    come about, nothing that can happen takes [main] further from its end, and [main] can always end by its own
    turns alone, no later than the configured shutdown timeout (ten seconds if it is unset), however many requests are
    still in flight and whatever the gRPC goroutines do.  (A signal that comes when only the gRPC goroutine has asked
    for signals does not reach [main], [early_signal_missed].) *)
Theorem shutdown_progress (happenings : list happening) (now : Time) (p : Process Cert Pool) :
  let timeout := sc_ShutdownTimeout (cf_Server cfg) in
  process_run host cfg happenings (started now) = Some p ->
  (forall s, ps_main p = AtSelect s -> leaving (signal_turn p) = Some 4%nat) /\
  (forall n, leaving p = Some n ->
    (forall h p', process_turn host cfg h p = Some p' -> exists m, leaving p' = Some m /\ (m <= n)%nat) /\
    (exists hs p', forallb own hs = true /\ process_run host cfg hs p = Some p' /\ alive (ps_main p') = false /\
      ps_now p' <= ps_now p + (if timeout =? 0 then 10 * Second else Z.max 0 timeout))).
Proof.
  intros timeout Hr. set (limit := if timeout =? 0 then 10 * Second else Z.max 0 timeout).
  assert (Hlim : 0 <= limit /\ shutdown_timeout cfg <= limit).
  { unfold limit, shutdown_timeout, Second. fold timeout. destruct (timeout =? 0); lia. }
  split; [apply signal_leaves|]. intros n Hn. split; [by intros h p' Ht; eapply leaving_turn|].
  apply (leaving_ends n p limit Hn); [|apply Hlim..]. intros s d Hm.
  pose proof (deadline_run happenings (started now) p ltac:(done) Hr) as Hd. unfold deadline_ok in Hd. rewrite Hm in Hd. lia.
Qed.
End Lifecycle.

(** ** Examples *)

(** A machine with a policy file and no key pair. *)
Definition plain_host : Host unit unit :=
  {| ht_Getenv := fun _ => ""; ht_Exists := fun _ => true; ht_LoadX509KeyPair := fun _ _ => Err "no such file";
     ht_ReadFile := fun _ => Err "no such file"; ht_CertsFromPEM := fun _ => None |}.

(** [main] up to its [select], both servers accepting. *)
Definition start_up : list happening := replicate 6 MainStep ++ [HttpStep false; HttpStep false; StopStep; GrpcStep false].

(** A request is answered after the signal; then the process ends. *)
Definition graceful : list happening :=
  start_up ++ [RequestIn; Signal; MainStep; MainStep; MainStep; RequestOut; MainStep].

Lemma lifecycle_safe_witness : exists p,
  process_run plain_host DefaultConfig graceful (started 0) = Some p /\ ps_main p = Returned false /\
  ps_requests p = 0%nat /\ ps_ready p = false.
Proof.
  destruct (process_run plain_host DefaultConfig graceful (started 0)) as [p|] eqn:E; [|vm_compute in E; discriminate].
  exists p. assert (Hm : ps_main p = Returned false) by (vm_compute in E; by injection E as <-).
  destruct (lifecycle_safe plain_host DefaultConfig graceful 0 p E) as (_ & _ & _ & _ & H). destruct (H Hm) as (-> & -> & _). done.
Defined.

(** The signal has been delivered, with a request in flight that never ends. *)
Definition signalled : list happening := start_up ++ [RequestIn; Signal; MainStep; MainStep; MainStep].

Lemma shutdown_progress_witness : exists p hs p',
  process_run plain_host DefaultConfig signalled (started 0) = Some p /\ leaving p = Some 1%nat /\ ps_requests p = 1%nat /\
  process_run plain_host DefaultConfig hs p = Some p' /\ alive (ps_main p') = false /\
  ps_now p' <= ps_now p + sc_ShutdownTimeout (cf_Server DefaultConfig).
Proof.
  destruct (process_run plain_host DefaultConfig signalled (started 0)) as [p|] eqn:E; [|vm_compute in E; discriminate].
  assert (Hn : leaving p = Some 1%nat) by (vm_compute in E; by injection E as <-).
  assert (Hq : ps_requests p = 1%nat) by (vm_compute in E; by injection E as <-).
  destruct (shutdown_progress plain_host DefaultConfig signalled 0 p E) as [_ H].
  destruct (proj2 (H 1%nat Hn)) as (hs & p' & _ & Hr & Ha & Hle). by exists p, hs, p'.
Defined.

(** A signal that comes after the gRPC goroutine has asked for signals and before [main]
    has goes to the gRPC server alone: it stops, and [main] stays in its [select], ready
    and serving HTTP, until another signal. *)
Example early_signal_missed :
  (fun p => (ps_ready p, ps_grpc p, ps_quit p, leaving p, main_turn plain_host DefaultConfig p)) <$>
    process_run plain_host DefaultConfig
      (replicate 3 MainStep ++ [StopStep; GrpcStep false; Signal; StopStep; StopStep] ++ replicate 3 MainStep ++ [HttpStep false; HttpStep false])
      (started 0)
  = Some (true, GrpcStopped, false, None, None).
Proof. by vm_compute. Qed.

(** An RPC in flight when the HTTP server has drained is cut off: nothing waits for
    [GracefulStop]. *)
Example rpc_cut_off :
  (fun p => (ps_main p, ps_grpc p, ps_rpcs p)) <$>
    process_run plain_host DefaultConfig (start_up ++ [RpcIn; Signal; StopStep; MainStep; MainStep; MainStep; MainStep]) (started 0)
  = Some (Returned false, GrpcDraining, 1%nat).
Proof. by vm_compute. Qed.

(** The gRPC server could not listen, and the process is ready all the same. *)
Example ready_without_grpc :
  (fun p => (ps_ready p, ps_grpc p)) <$>
    process_run plain_host DefaultConfig (replicate 6 MainStep ++ [GrpcStep true; HttpStep false; HttpStep false]) (started 0)
  = Some (true, GrpcFailed).
Proof. by vm_compute. Qed.

(** Without the policy file the process ends and was never ready. *)
Example no_policy_file :
  let host := {| ht_Getenv := ht_Getenv plain_host; ht_Exists := fun _ => false; ht_LoadX509KeyPair := ht_LoadX509KeyPair plain_host;
                 ht_ReadFile := ht_ReadFile plain_host; ht_CertsFromPEM := ht_CertsFromPEM plain_host |} in
  (fun p => (ps_main p, ps_ready p)) <$> process_run host DefaultConfig [MainStep; MainStep] (started 0) = Some (Returned true, false).
Proof. by vm_compute. Qed.

Definition mutual_tls : TLSConfig :=
  {| tl_Enabled := true; tl_CertFile := "c"; tl_KeyFile := "k"; tl_CAFile := ""; tl_ClientAuth := "require_and_verify";
     tl_MinVersion := "1.1"; tl_CipherSuites := []; tl_RedisTLS := false |}.

(** Client certificates are to be verified and no authority is configured: the
    setting is accepted and leaves [ClientCAs] nil. *)
Example verify_without_ca :
  let host := {| ht_Getenv := fun _ => ""; ht_Exists := fun _ => true; ht_LoadX509KeyPair := fun _ _ => Ok tt;
                 ht_ReadFile := fun _ => Err "no such file"; ht_CertsFromPEM := fun _ : string => None : option unit |} in
  validate_tls mutual_tls = None /\
  NewTLSConfig host mutual_tls =
    Ok (Some {| tc_Certificates := [tt]; tc_MinVersion := VersionTLS12; tc_ClientCAs := None; tc_RootCAs := None;
                tc_ClientAuth := RequireAndVerifyClientCert |}).
Proof. by vm_compute. Qed.

(** The configured cipher suites change nothing: [NewTLSConfig] does not read them. *)
Example cipher_suites_ignored (suites : list string) :
  let with_suites := {| tl_Enabled := true; tl_CertFile := "c"; tl_KeyFile := "k"; tl_CAFile := ""; tl_ClientAuth := "";
                        tl_MinVersion := "1.2"; tl_CipherSuites := suites; tl_RedisTLS := false |} in
  let host := {| ht_Getenv := fun _ => ""; ht_Exists := fun _ => true; ht_LoadX509KeyPair := fun _ _ => Ok tt;
                 ht_ReadFile := fun _ => Err "no such file"; ht_CertsFromPEM := fun _ : string => None : option unit |} in
  validate_tls with_suites = None /\
  NewTLSConfig host with_suites =
    Ok (Some {| tc_Certificates := [tt]; tc_MinVersion := VersionTLS12; tc_ClientCAs := None; tc_RootCAs := None;
                tc_ClientAuth := NoClientCert |}).
Proof. by vm_compute. Qed.
