(* ===== verification/Reports.v ===== *)
(** * internal/analytics: the summary endpoint and the audit file

    [SummaryHandler] of recorder.go shows the counters of the recorder, and
    [FileAuditLogger] of audit.go appends decision records to a file, a line of JSON
    each. *)

From Stdlib Require Import Ascii String.
From S2P Require Import Prelude GoString GoFloat GoTime Model GoJson Http Analytics.
Local Open Scope Z_scope.
Local Open Scope stdpp_scope.
Local Open Scope go_scope.

(** ** The summary *)

Definition by_event_name (a b : string * int64) : bool := String.ltb a.1 b.1.

(** The rows of a map, whose entries are visited in the order of [entries]. *)
Definition summary_rows (entries : list (string * int64)) : list (string * int64) := sort_by by_event_name entries.

(** The loop over the characters of the query parameter, with [limit] read so far. *)
Fixpoint read_top (limit : int64) (raw : string) : option int64 :=
  match raw with
  | "" => Some limit
  | String ch raw' =>
      if (code ch <? 48) || (57 <? code ch) then None
      else read_top (limit *! 10 +! (code ch - 48)) raw'
  end.

(** [if len(rows) > limit { rows = rows[:limit] }], for a positive limit. *)
Definition cut_rows (limit : int64) (rows : list (string * int64)) : list (string * int64) :=
  if (0 <? limit) && (limit <? Z.of_nat (length rows)) then take (Z.to_nat limit) rows else rows.

Definition encode_row (r : string * int64) : string :=
  "{" +:+ encode_string "event" +:+ ":" +:+ encode_string r.1 +:+ "," +:+
          encode_string "count" +:+ ":" +:+ FormatInt r.2 +:+ "}".

Definition encode_summary (total : int64) (events tags : list (string * int64)) : string :=
  "{" +:+ encode_string "by_event" +:+ ":[" +:+ Join (encode_row <$> events) "," +:+ "]," +:+
          encode_string "by_tag" +:+ ":[" +:+ Join (encode_row <$> tags) "," +:+ "]," +:+
          encode_string "total_events" +:+ ":" +:+ FormatInt total +:+ "}" +:+ newline.

Section Summary.
(** The recorder when it is read, three times: other requests may be recorded between. *)
Context {St : Type} (at_events at_tags at_total : St -> Recorder).
(** [req.URL.Query().Get("top")], and the orders in which the maps are visited. *)
Context (top : Request -> string).
Context (visit_events visit_tags : gmap string int64 -> list (string * int64)).

Definition SummaryHandler : Request -> Writer -> St -> Writer * bool * St := fun r w s =>
  if negb (String.eqb (rq_Method r) "GET") then (http_Error "404 page not found" 404 w, false, s)
  else
    let eventRows := summary_rows (visit_events (Snapshot (at_events s))) in
    let tagRows := summary_rows (visit_tags (SnapshotTags (at_tags s))) in
    match read_top 0 (top r) with
    | None => (http_Error "top must be numeric" 400 w, false, s)
    | Some limit =>
        let w := set_header "Content-Type" "application/json" w in
        (Write (encode_summary (Total (at_total s)) (cut_rows limit eventRows) (cut_rows limit tagRows)) w, false, s)
    end.
End Summary.

(** ** The audit file *)

(** [f], what it holds, and the error the encoder remembers. *)
Record FileAuditLogger := { fa_content : string; fa_open : bool; fa_err : option string }.

Definition NewFileAuditLogger (opened : result string) (path : string) : result FileAuditLogger :=
  match opened with
  | Ok content => Ok {| fa_content := content; fa_open := true; fa_err := None |}
  | Err err => Err ("audit: open " +:+ path +:+ ": " +:+ err)
  end.

(** A member of an object that is left out when it is empty. *)
Definition omitempty (name value : string) : list string :=
  if String.eqb value "" then [] else [encode_string name +:+ ":" +:+ encode_string value].

Definition encode_tags (tags : GoMap) : list string :=
  match tags with
  | Some m => if decide (m = ∅) then [] else [encode_string "tags" +:+ ":" +:+ MarshalStrings m]
  | None => []
  end.

Definition with_timestamp (t : Time) (r : DecisionRecord) : DecisionRecord :=
  {| dr_Timestamp := t; dr_RequestID := dr_RequestID r; dr_TenantID := dr_TenantID r; dr_PolicyID := dr_PolicyID r;
     dr_Action := dr_Action r; dr_Allowed := dr_Allowed r; dr_Reason := dr_Reason r; dr_SourceIP := dr_SourceIP r;
     dr_Endpoint := dr_Endpoint r; dr_LatencyUs := dr_LatencyUs r; dr_Tags := dr_Tags r |}.

(** The members of a record, with the text [t] of its timestamp. *)
Definition record_members (t : string) (r : DecisionRecord) : list string :=
  [encode_string "timestamp" +:+ ":" +:+ t] ++
  omitempty "request_id" (dr_RequestID r) ++ omitempty "tenant_id" (dr_TenantID r) ++
  omitempty "policy_id" (dr_PolicyID r) ++
  [encode_string "action" +:+ ":" +:+ encode_string (dr_Action r);
   encode_string "allowed" +:+ ":" +:+ (if dr_Allowed r then "true" else "false")] ++
  omitempty "reason" (dr_Reason r) ++ omitempty "source_ip" (dr_SourceIP r) ++
  omitempty "endpoint" (dr_Endpoint r) ++
  [encode_string "latency_us" +:+ ":" +:+ FormatInt (dr_LatencyUs r)] ++ encode_tags (dr_Tags r).

Section AuditFile.
(** [Time.MarshalJSON], which depends on the location of the instant and fails for
    years of more than four digits. *)
Context (MarshalTime : Time -> result string).

Definition encode_record (r : DecisionRecord) : result string :=
  match MarshalTime (dr_Timestamp r) with
  | Err e => Err e
  | Ok t => Ok ("{" +:+ Join (record_members t r) "," +:+ "}")
  end.

(** [enc.Encode(rec)].  [fault] is what the system makes of the write: it may end with
    an error after some of the bytes.  An encoder remembers the error of a write and
    writes no more. *)
Definition Encode (fault : option (nat * string)) (r : DecisionRecord) (l : FileAuditLogger) : result unit * FileAuditLogger :=
  match fa_err l with
  | Some e => (Err e, l)
  | None =>
      match encode_record r with
      | Err e => (Err e, l)
      | Ok line =>
          match (if fa_open l then fault else Some (0%nat, "file already closed")) with
          | None => (Ok tt, {| fa_content := fa_content l +:+ line +:+ newline; fa_open := fa_open l; fa_err := None |})
          | Some (n, e) =>
              (Err e, {| fa_content := fa_content l +:+ str_take n (line +:+ newline); fa_open := fa_open l; fa_err := Some e |})
          end
      end
  end.

(** [if rec.Timestamp.IsZero() { rec.Timestamp = time.Now().UTC() }]. *)
Definition stamp (now : Time) (r : DecisionRecord) : DecisionRecord :=
  if IsZero (dr_Timestamp r) then with_timestamp now r else r.

Definition file_Log (now : Time) (fault : option (nat * string)) (r : DecisionRecord) (l : FileAuditLogger)
    : result unit * FileAuditLogger :=
  Encode fault (stamp now r) l.

Definition file_Close (l : FileAuditLogger) : result unit * FileAuditLogger :=
  if fa_open l then (Ok tt, {| fa_content := fa_content l; fa_open := false; fa_err := fa_err l |})
  else (Err "file already closed", l).

(** Records logged one after the other. *)
Definition file_log_all (writes : list (Time * option (nat * string) * DecisionRecord)) (l : FileAuditLogger) : FileAuditLogger :=
  foldl (fun l '(now, fault, r) => (file_Log now fault r l).2) l writes.
End AuditFile.

Definition noop_Log (r : DecisionRecord) : result unit := Ok tt.
Definition noop_Close : result unit := Ok tt.

(** ** What the summary shows *)

Lemma by_event_name_asym x y : by_event_name x y = true -> by_event_name y x = false.
Proof. apply str_ltb_asym. Qed.

#[export] Instance by_event_name_trans : Transitive (not_after by_event_name).
Proof. intros x y z H1 H2. unfold not_after, by_event_name in *. by eapply str_ltb_false_trans. Qed.

(** Strictly ascending names. *)
Definition ascending (rows : list (string * int64)) : Prop := StronglySorted (fun a b => String.ltb a.1 b.1 = true) rows.

Lemma summary_rows_ascending entries : NoDup entries.*1 -> ascending (summary_rows entries).
Proof.
  intros Hn. unfold summary_rows, ascending. pose proof (sort_by_sorted by_event_name by_event_name_asym by_event_name_trans entries) as Hs.
  assert (Hn' : NoDup (sort_by by_event_name entries).*1) by (by rewrite sort_by_Permutation).
  induction Hs as [|x l Hl IH Hx]; [constructor|]. rewrite fmap_cons in Hn'. apply NoDup_cons in Hn' as [Hnin Hn'].
  constructor; [by apply IH|]. apply Forall_forall. intros y Hy. rewrite Forall_forall in Hx. specialize (Hx y Hy).
  destruct (String.ltb x.1 y.1) eqn:E; [done|]. exfalso. apply Hnin.
  rewrite (str_ltb_total x.1 y.1 E Hx). by apply list_elem_of_fmap_2.
Qed.

Lemma ascending_unique l1 l2 : ascending l1 -> ascending l2 -> l1 ≡ₚ l2 -> l1 = l2.
Proof.
  intros H1. revert l2. induction H1 as [|x l1 H1 IH Hx]; intros l2 H2 Hp; [by apply Permutation_nil_l in Hp|].
  destruct H2 as [|y l2 H2 Hy]; [by apply Permutation_nil_r in Hp|].
  enough (x = y) as <- by (f_equal; apply IH; [done|by apply (inj (x ::.))]).
  assert (Hxin : x ∈ y :: l2) by (rewrite <- Hp; apply list_elem_of_here).
  assert (Hyin : y ∈ x :: l1) by (rewrite Hp; apply list_elem_of_here).
  apply elem_of_cons in Hxin as [?|Hxin]; [done|]. apply elem_of_cons in Hyin as [?|Hyin]; [done|].
  rewrite Forall_forall in Hx, Hy. specialize (Hx y Hyin). specialize (Hy x Hxin). cbn in *.
  by rewrite (str_ltb_asym _ _ Hx) in Hy.
Qed.

Lemma wrap64_shift z k : wrap64 (z + k * two64) = wrap64 z.
Proof. unfold wrap64. replace (z + k * two64 - minInt64) with (z - minInt64 + k * two64) by lia. by rewrite Z.mod_add. Qed.

(** The parameter is read as an [int]: a numeral too large for one wraps around. *)
Lemma read_top_digits a raw : read_top (wrap64 a) raw = wrap64 <$> digits_from a raw.
Proof.
  revert a. induction raw as [|c raw IH]; intros a; [done|]. cbn [read_top digits_from]. unfold digit_value.
  replace (Z.of_nat (nat_of_ascii c)) with (code c) by (unfold code, nat_of_ascii; lia).
  destruct ((code c <? 48) || (57 <? code c)) eqn:E.
  - replace ((0 <=? code c - 48) && (code c - 48 <? 10)) with false; [done|]. symmetry.
    apply andb_false_iff. apply orb_true_iff in E as [E|E]; zify_bool; [left; apply Z.leb_gt|right; apply Z.ltb_ge]; lia.
  - apply orb_false_iff in E as [E1 E2]. zify_bool.
    rewrite (proj2 (Z.leb_le 0 (code c - 48))), (proj2 (Z.ltb_lt (code c - 48) 10)) by lia. cbn [andb]. rewrite <- IH. f_equal.
    destruct (wrap64_eq (wrap64 a) a (wrap64_idemp a)) as [k1 ->].
    destruct (wrap64_eq _ _ (wrap64_idemp ((a + k1 * two64) * 10))) as [k2 ->].
    rewrite <- (wrap64_shift (10 * a + (code c - 48)) (k1 * 10 + k2)). f_equal. lia.
Qed.

Lemma read_top_FormatInt n : 0 <= n -> read_top 0 (FormatInt n) = Some (wrap64 n).
Proof.
  intros Hn. change 0 with (wrap64 0) at 1. rewrite read_top_digits.
  destruct n as [|p|p]; [done| |lia]. change (FormatInt (Zpos p)) with (pretty_N_go (Npos p) "").
  by rewrite digits_from_pretty.
Qed.

Definition entries_of (m : gmap string int64) (entries : list (string * int64)) : Prop := entries ≡ₚ map_to_list m.

Lemma summary_rows_of m entries : entries_of m entries ->
  ascending (summary_rows entries) /\ (forall k n, (k, n) ∈ summary_rows entries <-> m !! k = Some n) /\
  summary_rows entries = summary_rows (map_to_list m).
Proof.
  unfold entries_of. intros He.
  assert (Hsort : forall l, l ≡ₚ map_to_list m -> ascending (summary_rows l)).
  { intros l Hl. apply summary_rows_ascending. rewrite Hl. apply NoDup_fst_map_to_list. }
  split_and!; [by apply Hsort| |].
  - intros k n. unfold summary_rows. rewrite sort_by_Permutation, He. apply elem_of_map_to_list.
  - apply ascending_unique; [by apply Hsort..|]. unfold summary_rows. by rewrite !sort_by_Permutation.
Qed.

(** The first [n] entries of [m] in the order of their names. *)
Definition leading (n : nat) (m : gmap string int64) (rows : list (string * int64)) : Prop :=
  ascending rows /\ length rows = Nat.min n (size m) /\
  (forall k c, (k, c) ∈ rows -> m !! k = Some c) /\
  (forall k c, m !! k = Some c -> (k, c) ∈ rows \/ Forall (fun row => String.ltb row.1 k = true) rows).

Lemma leading_rows n m entries : entries_of m entries -> leading n m (take n (summary_rows entries)).
Proof.
  intros He. destruct (summary_rows_of m entries He) as (Ha & Hin & _). unfold leading.
  set (rows := summary_rows entries) in *. rewrite <- (take_drop n rows) in Ha.
  assert (Hlen : length rows = size m).
  { unfold rows, summary_rows. rewrite sort_by_length, He. apply length_map_to_list. }
  split_and!.
  - by apply StronglySorted_app_1_l in Ha.
  - by rewrite length_take, Hlen.
  - intros k c Hk. apply Hin. rewrite <- (take_drop n rows). apply elem_of_app. by left.
  - intros k c Hk. apply Hin in Hk. rewrite <- (take_drop n rows) in Hk. apply elem_of_app in Hk as [Hk|Hk]; [by left|right].
    apply Forall_forall. intros row Hrow. by eapply (StronglySorted_app_1_elem_of _ _ _ row (k, c) Ha).
Qed.

(** The summary: whatever order the maps are visited in, a request for the first [n]
    entries is answered with the total, the [n] events and the [n] tags that come
    first in the order of their names, with their counts, and all of them when there
    are no more than [n]; the recorder is left as it is. *)
Theorem summary_exact {St} (at_events at_tags at_total : St -> Recorder) (top : Request -> string)
    visit_events visit_tags (r : Request) (w : Writer) (s : St) (n : Z) :
  (forall m, entries_of m (visit_events m)) -> (forall m, entries_of m (visit_tags m)) ->
  rq_Method r = "GET" -> top r = FormatInt n -> 0 < n <= maxInt64 ->
  exists events tags,
    SummaryHandler at_events at_tags at_total top visit_events visit_tags r w s =
      (Write (encode_summary (Total (at_total s)) events tags) (set_header "Content-Type" "application/json" w), false, s) /\
    leading (Z.to_nat n) (Snapshot (at_events s)) events /\ leading (Z.to_nat n) (SnapshotTags (at_tags s)) tags.
Proof.
  intros He Ht Hm Htop Hn. unfold SummaryHandler. rewrite Hm, Htop, read_top_FormatInt by lia.
  rewrite wrap64_small by (unfold in_int64, minInt64; lia). cbn [String.eqb Ascii.eqb Bool.eqb negb].
  assert (Hcut : forall l, cut_rows n l = take (Z.to_nat n) l).
  { intros l. unfold cut_rows. rewrite (proj2 (Z.ltb_lt 0 n)) by lia. cbn [andb].
    destruct (n <? Z.of_nat (length l)) eqn:E; [done|]. zify_bool. by rewrite take_ge by lia. }
  rewrite !Hcut. do 2 eexists. split; [done|]. split; by apply leading_rows.
Qed.

(** ** What the file holds *)

Definition no_newline : string -> bool := str_all (fun c => negb (Ascii.eqb c "010")).

Lemma no_newline_app s t : no_newline (s +:+ t) = no_newline s && no_newline t.
Proof. apply str_all_app. Qed.

Lemma high_not_newline c : 128 <= code c -> negb (Ascii.eqb c "010") = true.
Proof. intros H. apply negb_true_iff, Ascii.eqb_neq. intros ->. by vm_compute in H. Qed.

Lemma rune_no_newline s : (1 < rune_len s)%nat -> no_newline (str_take (rune_len s) s) = true.
Proof.
  unfold rune_len, is_cont, in_range. destruct s as [|a [|b [|c [|d s]]]]; cbv zeta; repeat case_match; try (intros; lia);
    intros _; zify_bool; cbn [str_take]; unfold no_newline; cbn [str_all].
  all: try (rewrite !high_not_newline by lia; done).
Qed.

Lemma escape_ascii_no_newline c : no_newline (escape_ascii c) = true.
Proof. destruct c as [[] [] [] [] [] [] [] []]; vm_compute; reflexivity. Qed.

Lemma escape_no_newline fuel s : no_newline (escape_fuel fuel s) = true.
Proof.
  revert s. induction fuel as [|fuel IH]; intros s; [done|]. destruct s as [|c s]; [done|]. cbn [escape_fuel].
  destruct (rune_len (String c s)) as [|[|n]] eqn:E.
  - change (no_newline (String backslash "ufffd" +:+ escape_fuel fuel s) = true). by rewrite no_newline_app, IH.
  - by rewrite no_newline_app, escape_ascii_no_newline, IH.
  - rewrite no_newline_app, IH, andb_true_r. unfold escape_rune. do 2 (destruct (String.eqb _ _); [done|]).
    rewrite <- E. apply rune_no_newline. lia.
Qed.

Lemma encode_string_no_newline s : no_newline (encode_string s) = true.
Proof.
  unfold encode_string. change (String quote (escape_fuel (String.length s) s +:+ String quote ""))
    with (String quote "" +:+ escape_fuel (String.length s) s +:+ String quote "").
  by rewrite !no_newline_app, escape_no_newline.
Qed.

Lemma pretty_no_newline (x : N) s : no_newline (pretty_N_go x s) = no_newline s.
Proof.
  revert s. induction (N.lt_wf_0 x) as [x _ IH]; intros s. destruct (decide (x = 0)%N) as [->|Hx].
  { by rewrite pretty_N_go_0. }
  rewrite pretty_N_go_step by lia. rewrite IH by (apply N.div_lt; lia).
  assert (Hd : (x `mod` 10 < 10)%N) by (apply N.mod_lt; lia). apply digit_cases in Hd. by repeat destruct Hd as [<-|Hd].
Qed.

Lemma FormatInt_no_newline n : no_newline (FormatInt n) = true.
Proof.
  destruct n as [|p|p]; [done|exact (pretty_no_newline (Npos p) "")|].
  exact (pretty_no_newline (Npos p) "").
Qed.

Lemma Join_no_newline l : Forall (fun s => no_newline s = true) l -> no_newline (Join l ",") = true.
Proof.
  induction 1 as [|s l Hs Hl IH]; [done|]. destruct l as [|t l]; [done|].
  change (no_newline (s +:+ "," +:+ Join (t :: l) ",") = true). by rewrite !no_newline_app, Hs, IH.
Qed.

Lemma object_no_newline l : Forall (fun s => no_newline s = true) l -> no_newline ("{" +:+ Join l "," +:+ "}") = true.
Proof. intros Hl. by rewrite !no_newline_app, Join_no_newline. Qed.

Lemma MarshalStrings_no_newline m : no_newline (MarshalStrings m) = true.
Proof.
  apply object_no_newline. rewrite Forall_fmap. apply Forall_true.
  intros kv. cbn. unfold encode_member. by rewrite !no_newline_app, !encode_string_no_newline.
Qed.

Lemma omitempty_no_newline name value : Forall (fun s => no_newline s = true) (omitempty name value).
Proof.
  unfold omitempty. destruct (String.eqb value ""); [constructor|]. repeat constructor.
  by rewrite !no_newline_app, !encode_string_no_newline.
Qed.

Section FileLines.
Context (MarshalTime : Time -> result string).
(** An instant is written in the format of RFC 3339, between quotes. *)
Context (marshal_line : forall t text, MarshalTime t = Ok text -> no_newline text = true).

Lemma encode_record_no_newline r line : encode_record MarshalTime r = Ok line -> no_newline line = true.
Proof.
  unfold encode_record. destruct (MarshalTime _) as [t|e] eqn:E; [|done]. intros Hl. assert (line = "{" +:+ Join (record_members t r) "," +:+ "}") as -> by congruence.
  apply marshal_line in E.
  apply object_no_newline. unfold record_members.
  repeat (apply Forall_app; split); try apply omitempty_no_newline.
  all: repeat constructor; rewrite ?no_newline_app, ?encode_string_no_newline, ?FormatInt_no_newline, ?E; try done.
  - by destruct (dr_Allowed r).
  - unfold encode_tags. destruct (dr_Tags r) as [m|]; [|constructor]. case_decide; [constructor|]. repeat constructor.
    by rewrite !no_newline_app, encode_string_no_newline, MarshalStrings_no_newline.
Qed.

(** The line of a record that is logged at an instant. *)
Definition line_of (x : Time * DecisionRecord) (line : string) : Prop :=
  encode_record MarshalTime (stamp x.1 x.2) = Ok line /\ no_newline line = true.

Definition lines_text (lines : list string) : string := foldr (fun line rest => line +:+ newline +:+ rest) "" lines.

Lemma lines_text_app ls ls' : lines_text (ls ++ ls') = lines_text ls +:+ lines_text ls'.
Proof. induction ls as [|x ls IH]; [done|]. cbn. unfold lines_text in *. by rewrite IH, !str_app_assoc. Qed.

Context (marshal_total : forall t, exists text, MarshalTime t = Ok text).

(** A logger whose writes succeed appends a line for each record, in order. *)
Lemma file_lines (logs : list (Time * DecisionRecord)) l :
  fa_open l = true -> fa_err l = None ->
  exists lines, Forall2 line_of logs lines /\
    file_log_all MarshalTime ((fun x => (x.1, None, x.2)) <$> logs) l =
      {| fa_content := fa_content l +:+ lines_text lines; fa_open := true; fa_err := None |}.
Proof.
  revert l. induction logs as [|[now r] logs IH]; intros l Ho He.
  { exists []. split; [constructor|]. destruct l as [c o e]. cbn in *. by rewrite Ho, He, str_app_nil_r. }
  destruct (marshal_total (dr_Timestamp (stamp now r))) as [t Et].
  destruct (encode_record MarshalTime (stamp now r)) as [line|e] eqn:E; [|by unfold encode_record in E; rewrite Et in E].
  pose proof (encode_record_no_newline _ _ E) as Hn.
  unfold file_log_all in *. cbn [fmap list_fmap foldl fst snd]. unfold file_Log at 2, Encode. rewrite He, E, Ho. cbn [snd].
  destruct (IH {| fa_content := fa_content l +:+ line +:+ newline; fa_open := true; fa_err := None |}) as (lines & Hf & Hl); [done..|].
  exists (line :: lines). split; [by constructor|]. rewrite Hl. cbn [fa_content lines_text foldr].
  f_equal. by rewrite !str_app_assoc.
Qed.

(** The audit trail end to end: however callers, the loop of the asynchronous logger
    and [Close] are interleaved, when the loop has finished over a file whose writes
    succeed, the file has been extended by whole lines, a line for each record and
    first of all, in order, those of the records accepted before [Close]. *)
Theorem audit_file_complete (bufSize : Z) (a : AsyncAuditLogger) (before : list DecisionRecord)
    (instants : list Time) (l : FileAuditLogger) :
  rtc audit_step (NewAsyncAuditLogger bufSize) a -> al_loop a = Finished -> al_before a = Some before ->
  length instants = length (al_written a) -> fa_open l = true -> fa_err l = None ->
  exists lines later,
    Forall2 line_of (zip instants before) lines /\ length lines = length before /\
    fa_content (file_log_all MarshalTime ((fun x => (x.1, None, x.2)) <$> zip instants (al_written a)) l)
    = fa_content l +:+ lines_text lines +:+ lines_text later.
Proof.
  intros Hr Hf Hb Hlen Ho He. destruct (ai_finished _ (audit_reachable _ _ Hr) before Hf Hb) as [rest Hw].
  destruct (file_lines (zip instants (al_written a)) l Ho He) as (all & Hall & ->). cbn [fa_content].
  rewrite Hw in Hlen, Hall. rewrite length_app in Hlen.
  rewrite <- (take_drop (length before) instants), zip_with_app in Hall by (rewrite length_take; lia).
  apply Forall2_app_inv_l in Hall as (lines & later & H1 & H2 & ->).
  exists lines, later. split_and!.
  - by rewrite zip_with_take_l' in H1 by lia.
  - apply Forall2_length in H1. rewrite <- H1, length_zip_with, length_take. lia.
  - by rewrite lines_text_app.
Qed.
End FileLines.

(** A witness: one record is accepted before [Close] and written. *)
Definition marshal_unix (t : Time) : result string := Ok (FormatInt t).
Definition finishing : AsyncAuditLogger :=
  looped [] Finished [demo_record "1"] (looped [] Draining [demo_record "1"]
    (looped [] (DrainWriting (demo_record "1")) [] (looped (al_ch closing) Draining [] closing))).

Lemma finishing_reachable : rtc audit_step (NewAsyncAuditLogger 1) finishing.
Proof.
  etransitivity; [exact closing_reachable|]. eapply rtc_l; [by apply audit_stopped|].
  eapply rtc_l; [by eapply audit_drain|]. eapply rtc_l; [by eapply audit_drain_write|].
  apply rtc_once. by apply audit_finish.
Qed.

Lemma audit_file_complete_witness :
  exists line later,
    fa_content (file_log_all marshal_unix [(5, None, demo_record "1")] {| fa_content := ""; fa_open := true; fa_err := None |})
    = lines_text [line] +:+ lines_text later.
Proof.
  destruct (audit_file_complete marshal_unix (fun t text E => ltac:(injection E as <-; apply FormatInt_no_newline))
    (fun t => ex_intro _ _ eq_refl) 1 finishing [demo_record "1"] [5] {| fa_content := ""; fa_open := true; fa_err := None |}
    finishing_reachable eq_refl eq_refl eq_refl eq_refl eq_refl) as (lines & later & Hl & _ & H).
  inversion Hl as [|? line ? ? _ Hn]; subst. inversion Hn; subst. exists line, later. exact H.
Defined.

(** ** What the endpoints do not do *)

(** A failed write is remembered: the logger reports the same error ever after and
    never writes again. *)
Example one_failed_write_ends_the_log (MarshalTime : Time -> result string) now e r line content logs :
  encode_record MarshalTime (stamp now r) = Ok line ->
  fa_content (file_log_all MarshalTime ((now, Some (0%nat, e), r) :: logs)
    {| fa_content := content; fa_open := true; fa_err := None |}) = content.
Proof.
  intros E. unfold file_log_all. cbn [foldl]. unfold file_Log at 2, Encode. cbn [fa_err fa_open fa_content]. rewrite E.
  cbn [snd str_take]. rewrite str_app_nil_r.
  induction logs as [|[[now' fault] r'] logs IH]; [done|]. cbn [foldl]. exact IH.
Qed.

(** The first entries are those that come first in the alphabet, however often they
    were counted. *)
Example top_is_alphabetical :
  cut_rows 1 (summary_rows [("denied", 9); ("allowed", 1)]) = [("allowed", 1)].
Proof. by vm_compute. Qed.

(** A parameter of [2^64 + 1] asks for one entry. *)
Example top_wraps : read_top 0 "18446744073709551617" = Some 1.
Proof. by vm_compute. Qed.
