(* ===== verification/ScaffoldStore.v ===== *)
(** * internal/store/policy/postgres and oracle: the placeholders for SQL policy stores

    Both packages have the methods of a policy store, all of which fail but [Close];
    they differ in the name in the message.  The theorems say what a server built on
    one of them would do. *)

From S2P Require Import Prelude GoString GoHash GoFloat GoTime Model Store Common MemoryStore Concurrency.
From S2P Require Import KeyBuilder PolicyCache PolicyStore Engine ControlPlane.
Local Open Scope Z_scope.
Local Open Scope stdpp_scope.

(** [Store], in the package of that name. *)
Record ScaffoldStore := { sc_package : string; sc_DSN : string }.

Definition scaffold_error (s : ScaffoldStore) : string :=
  sc_package s +:+ " policy store scaffold: implement SQL persistence".

Definition postgres_New (dsn : string) : ScaffoldStore := {| sc_package := "postgres"; sc_DSN := dsn |}.
Definition oracle_New (dsn : string) : ScaffoldStore := {| sc_package := "oracle"; sc_DSN := dsn |}.

Definition scaffold_LoadPolicies (s : ScaffoldStore) (namespace : string) : result (list Policy) := Err (scaffold_error s).
Definition scaffold_GetPolicyByID (id : string) (s : ScaffoldStore) : result Policy := Err (scaffold_error s).
Definition scaffold_UpsertPolicy (p : Policy) (s : ScaffoldStore) : result unit * ScaffoldStore := (Err (scaffold_error s), s).
Definition scaffold_DeletePolicy (id : string) (s : ScaffoldStore) : result unit * ScaffoldStore := (Err (scaffold_error s), s).
Definition scaffold_ListPolicies (s : ScaffoldStore) : result (list Policy) := Err (scaffold_error s).
Definition scaffold_Ping (s : ScaffoldStore) : result unit := Err (scaffold_error s).
Definition scaffold_Close (s : ScaffoldStore) : result unit := Ok tt.

(** It has no history. *)
#[export] Instance scaffold_ops : PolicyStoreOps ScaffoldStore := {|
  ps_ListPolicies := scaffold_ListPolicies;
  ps_GetPolicyByID := scaffold_GetPolicyByID;
  ps_UpsertPolicy := scaffold_UpsertPolicy;
  ps_DeletePolicy := scaffold_DeletePolicy;
  ps_history := None
|}.

(** ** An engine on a placeholder *)

(** The engine serves a sequence of requests, each with the time of day. *)
Fixpoint serve_requests (visits : gmap string item -> list (string * item)) (e : DefaultEngine) (s : ScaffoldStore)
    (reqs : list (Time * RequestContext)) (c : MemoryPolicyCache) : list (prog Decision) :=
  match reqs with
  | [] => []
  | (wall, req) :: reqs' =>
      let '(p, c') := Engine.Evaluate visits e (scaffold_LoadPolicies s) wall req c in
      p :: serve_requests visits e s reqs' c'
  end.

(** Nothing is limited: with a new cache, every request is allowed without a call of
    the counter store, for the reason that no policy could be read. *)
Theorem scaffold_limits_nothing visits (e : DefaultEngine) (s : ScaffoldStore) (reqs : list (Time * RequestContext))
    (ttl : Duration) (maxItems : Z) :
  serve_requests visits e s reqs (NewMemoryPolicyCacheWithLimits ttl maxItems) =
  replicate (length reqs) (Ret (allowDecision ("policy resolution failed: " +:+ scaffold_error s))).
Proof.
  assert (H : forall c, pc_items c = ∅ -> serve_requests visits e s reqs c =
    replicate (length reqs) (Ret (allowDecision ("policy resolution failed: " +:+ scaffold_error s)))); [|by apply H].
  induction reqs as [|[wall req] reqs IH]; intros c Hc; [done|]. cbn [serve_requests length replicate].
  unfold Engine.Evaluate, pickPolicy, load_policies, PolicyCache.Get. rewrite Hc, lookup_empty. cbn. f_equal. by apply IH.
Qed.

(** ** The policy endpoints on a placeholder *)

(** A reply that refuses the request, changes nothing and announces nothing. *)
Definition refusal (s : ScaffoldStore) (r : @Reply ScaffoldStore) : Prop := exists status text, 400 <= status /\ r = fail status text s.

Lemma refusal_fail s status text : 400 <= status -> refusal s (fail status text s).
Proof. by exists status, text. Qed.

Ltac refuses :=
  cbn; unfold scaffold_GetPolicyByID, scaffold_UpsertPolicy, scaffold_DeletePolicy; repeat case_match; simplify_eq/=; try (apply refusal_fail; lia).

(** Every request is refused, but for the validation of a policy, which does not need
    the store. *)
Theorem scaffold_refuses (cfg : HandlerConfig) (DecodePolicy : string -> result Policy) (DecodeVersion : string -> result int64)
    (DecodeRollout : string -> result Z) (now : Time) (r : HTTPRequest) (s : ScaffoldStore) :
  let handled := PoliciesHandlerWithConfig cfg DecodePolicy DecodeVersion DecodeRollout now r s in
  refusal s handled \/
  hr_Method r = "POST" /\ hr_Path r = policies_prefix +:+ "validate" /\ handled = validate_policy cfg DecodePolicy (hr_Body r) s.
Proof.
  unfold PoliciesHandlerWithConfig. cbv zeta.
  destruct (_ && String.eqb (hr_Path r) policies_path); [left; apply refusal_fail; lia|].
  destruct (_ && under _ "/audit"); [left; apply refusal_fail; lia|].
  destruct (_ && under _ "/versions"); [left; apply refusal_fail; lia|].
  destruct (String.eqb (hr_Method r) "GET" && _); [left; unfold get_policy; refuses|].
  destruct (_ && String.eqb (hr_Path r) policies_path); [left; unfold create_policy; refuses|].
  destruct (_ && String.eqb _ (policies_prefix +:+ "validate")) eqn:E.
  { right. apply andb_true_iff in E as [E1 E2]. apply String.eqb_eq in E1, E2. done. }
  destruct (_ && under _ "/rollback"); [left; apply refusal_fail; lia|].
  destruct (_ && under _ "/rollout"); [left; unfold rollout_policy; refuses|].
  destruct (String.eqb (hr_Method r) "PUT" && _); [left; unfold update_policy; refuses|].
  destruct (String.eqb (hr_Method r) "DELETE" && _); [left; unfold delete_policy; refuses|].
  left. apply refusal_fail. lia.
Qed.
