(* ===== verification/AgentMain.v ===== *)
(** * cmd/rlaas-agent: the process

    [main] and [run] start the loop of the agent and its server, and [defaultListen]
    waits for the server to fail or for a signal and then lets the requests in flight
    finish.  [proc_step] interleaves them with the steps of the loop and of the handlers
    of [Agent]. *)

From S2P Require Import Prelude GoString GoFloat GoTime GoJson Http Agent.
Local Open Scope Z_scope.
Local Open Scope stdpp_scope.
Local Open Scope go_scope.

(** The error [run] returns. *)
Inductive failure := BadConfig (e : agentError) | ListenError (err : string) | ShutdownError (err : string).

(** Where [main] is: serving, waiting for the requests in flight after a signal, past
    the return of [run], which cancels the context of the loop, and gone. *)
Inductive phase :=
| Serving
| ShuttingDown
| Returned (err : option failure)
| Exited (code : Z).

Record Process := { pr_main : phase; pr_agent : Agent }.

(** The beginning of [run], up to the call of [listenFn]. *)
Definition start (valid_uri : string -> bool) (env : string -> string) : Process :=
  {| pr_main := match loadConfig valid_uri env with
                | inl _ => Serving
                | inr e => Returned (Some (BadConfig e))
                end;
     pr_agent := newAgent |}.

Definition at_phase (ph : phase) (p : Process) : Process := {| pr_main := ph; pr_agent := pr_agent p |}.
Definition with_agent (a : Agent) (p : Process) : Process := {| pr_main := pr_main p; pr_agent := a |}.

(** [ListenAndServe] returns an error before or without a signal ([select] in
    [defaultListen]), a signal arrives, or [Shutdown] ends, in time or not. *)
Inductive main_event := ListenFailed (err : string) | Signalled | ShutdownDone (err : option string) | MainReturns.

(** One step of [main], through [defaultListen] and [run]. *)
Definition main_step (ev : main_event) (ph : phase) : option phase :=
  match ph, ev with
  | Serving, ListenFailed err => Some (Returned (Some (ListenError err)))
  | Serving, Signalled => Some ShuttingDown
  | ShuttingDown, ShutdownDone None => Some (Returned None)
  | ShuttingDown, ShutdownDone (Some err) => Some (Returned (Some (ShutdownError err)))
  | Returned _, MainReturns => Some (Exited 0)
  | _, _ => None
  end.

(** Requests may be in flight until the exit, also when [Shutdown] gave up on them; the
    context is cancelled when [run] returns; nothing happens after the exit. *)
Definition enabled (x : action) (ph : phase) : bool :=
  match ph, x with
  | (Serving | ShuttingDown), Cancel => false
  | (Serving | ShuttingDown | Returned _), _ => true
  | Exited _, _ => false
  end.

Inductive proc_step : Process -> Process -> Prop :=
| proc_main ev ph p : main_step ev (pr_main p) = Some ph -> proc_step p (at_phase ph p)
| proc_agent x a p : enabled x (pr_main p) = true -> ag_step x (pr_agent p) a -> proc_step p (with_agent a p).

(** Before [run] returns. *)
Definition up (ph : phase) : bool := match ph with Serving | ShuttingDown => true | _ => false end.

Lemma loop_not_stopped x a b : ag_step x a b -> x <> Cancel -> ag_loop a <> Stopped -> ag_loop b <> Stopped.
Proof. intros Hs Hx Ha. destruct Hs; cbn [ag_loop at_loop]; try done. unfold send. by destruct (_ <? _)%nat. Qed.

(** The loop lives as long as the server: at whatever moment a request is served before
    [run] returns, also one in flight after a signal, the loop of the agent has not
    stopped, so an invalidation posted then is owed a fetch the loop can make. *)
Theorem loop_outlives_requests (valid_uri : string -> bool) (env : string -> string) (p : Process) (id : string) :
  rtc proc_step (start valid_uri env) p -> up (pr_main p) = true ->
  ag_loop (pr_agent p) <> Stopped /\ owed (send id (pr_agent p)).
Proof.
  intros Hr Hup. split; [|apply send_owed]. revert Hup.
  refine (rtc_ind_r (fun p => up (pr_main p) = true -> ag_loop (pr_agent p) <> Stopped) _ _ _ _ Hr); [done|].
  intros q q' _ Hs IH Hup. destruct Hs as [ev ph q Hm|x a q Hx Ha]; cbn [pr_main pr_agent at_phase with_agent] in *.
  - apply IH. destruct (pr_main q), ev as [| |[]|]; cbn in Hm; simplify_eq/=; done.
  - eapply loop_not_stopped; [exact Ha| |by apply IH]. intros ->. by destruct (pr_main q).
Qed.

(** Every step of [main] brings the exit nearer: there are at most three. *)
Definition main_left (ph : phase) : nat := match ph with Serving => 3 | ShuttingDown => 2 | Returned _ => 1 | Exited _ => 0 end.

Lemma main_progress ev ph ph' : main_step ev ph = Some ph' -> (main_left ph' < main_left ph)%nat.
Proof. destruct ph, ev as [| |[]|]; cbn; intros H; simplify_eq/=; lia. Qed.

Definition agent_env (key : string) : string := if String.eqb key "RLAAS_AGENT_SYNC_SECS" then "x" else "".
Definition good_env (key : string) : string := "".

Lemma loop_outlives_requests_witness :
  let p := at_phase ShuttingDown (start (fun _ => true) good_env) in
  ag_loop (pr_agent p) <> Stopped /\ owed (send "p1" (pr_agent p)).
Proof.
  apply (loop_outlives_requests (fun _ => true) good_env _ "p1"); [|reflexivity].
  apply rtc_once. by apply (proc_main Signalled).
Defined.

(** An agent that cannot start, for a setting or a port it cannot use, exits with
    status 0: [main] logs the error and returns. *)
Example failed_start_exits_zero :
  exists e, rtc proc_step (start (fun _ => true) agent_env) {| pr_main := Exited 0; pr_agent := newAgent |} /\
    pr_main (start (fun _ => true) agent_env) = Returned (Some (BadConfig e)).
Proof.
  eexists. split; [|reflexivity]. apply rtc_once.
  apply (proc_main MainReturns (Exited 0) (start (fun _ => true) agent_env)). reflexivity.
Qed.
