(* ===== verification/FloatError.v ===== *)
(** * How far float64 arithmetic is from arithmetic

    The value of a double is a rational number.  The sum, product and quotient of two
    doubles differ from those of their values by at most a unit roundoff of [2^-53] of
    the exact result and an absolute error of [2^-1074], as long as the exact result
    is below [2^1000].  The bounds of the buckets rest on these. *)

From Stdlib Require Import SpecFloat QArith Qabs Qround Qpower Lqa.
From S2P Require Import Prelude GoFloat Rounding.
Local Open Scope Z_scope.

(** ** Powers of two *)

Definition pow2 (e : Z) : Q := Qpower (inject_Z 2) e.

Lemma pow2_pos e : (0 < pow2 e)%Q.
Proof. apply Qpower_0_lt. done. Qed.

Lemma pow2_add a b : (pow2 (a + b) == pow2 a * pow2 b)%Q.
Proof. apply Qpower_plus. done. Qed.

Lemma pow2_Z e : 0 <= e -> (pow2 e == inject_Z (2 ^ e))%Q.
Proof. intros He. symmetry. by apply Zpower_Qpower. Qed.

Lemma pow2_le a b : a <= b -> (pow2 a <= pow2 b)%Q.
Proof.
  intros Hab. replace b with (a + (b - a)) by lia. rewrite pow2_add, (pow2_Z (b - a)) by lia.
  pose proof (pow2_pos a). assert (1 <= inject_Z (2 ^ (b - a)))%Q.
  { change 1%Q with (inject_Z 1). rewrite <- Zle_Qle. pose proof (Z.pow_pos_nonneg 2 (b - a)). lia. }
  nra.
Qed.

Lemma pow2_succ e : (pow2 (e + 1) == 2 * pow2 e)%Q.
Proof. rewrite pow2_add. change (pow2 1) with 2%Q. lra. Qed.

Lemma inject_le a b : a <= b -> (inject_Z a <= inject_Z b)%Q.
Proof. by rewrite <- Zle_Qle. Qed.
Lemma inject_lt a b : a < b -> (inject_Z a < inject_Z b)%Q.
Proof. by rewrite <- Zlt_Qlt. Qed.
Lemma inject_lt_inv a b : (inject_Z a < inject_Z b)%Q -> a < b.
Proof. by rewrite <- Zlt_Qlt. Qed.

(** ** Values *)

Definition val (x : float64) : Q :=
  match x with
  | S754_finite s m e => inject_Z (cond_Zopp s (Zpos m)) * pow2 e
  | _ => 0
  end.

Definition valid (x : float64) : bool := valid_binary prec emax x.

(** Half an ulp: relative to the number, and where numbers are spaced evenly. *)
Definition unit_roundoff : Q := pow2 (-53).
Definition underflow : Q := pow2 (-1074).

(** [r] is the rounding of the nonnegative number [x] with the sign [s]. *)
Record rounded (s : bool) (x : Q) (r : float64) : Prop := {
  rd_finite : finite r = true;
  rd_valid : valid r = true;
  rd_sign : match r with S754_zero s' | S754_finite s' _ _ => s' = s | _ => False end;
  rd_close : (Qabs (Qabs (val r) - x) <= unit_roundoff * x + underflow)%Q;
  rd_zero : (x == 0 -> val r == 0)%Q
}.

(** ** Locations *)

(** [x] is at the location [l] between [m] and [m + 1]. *)
Definition located (m : Z) (l : location) (x : Q) : Prop :=
  match l with
  | loc_Exact => x == inject_Z m
  | loc_Inexact Lt => inject_Z m < x < inject_Z m + (1 # 2)
  | loc_Inexact Eq => x == inject_Z m + (1 # 2)
  | loc_Inexact Gt => inject_Z m + (1 # 2) < x < inject_Z m + 1
  end%Q.

Definition record_at (r : shr_record) (x : Q) : Prop := located (shr_m r) (loc_of_shr_record r) x.

Lemma record_of_loc m l : loc_of_shr_record (shr_record_of_loc m l) = l /\ shr_m (shr_record_of_loc m l) = m.
Proof. by destruct l as [|[]]. Qed.

Lemma inject_xO p : (inject_Z (Zpos p~0) == 2 * inject_Z (Zpos p))%Q.
Proof. change (Zpos p~0) with (2 * Zpos p). by rewrite inject_Z_mult. Qed.

Lemma inject_xI p : (inject_Z (Zpos p~1) == 2 * inject_Z (Zpos p) + 1)%Q.
Proof. change (Zpos p~1) with (2 * Zpos p + 1). by rewrite inject_Z_plus, inject_Z_mult. Qed.

Lemma shr_1_at r x : 0 <= shr_m r -> record_at r x -> record_at (shr_1 r) (x * (1 # 2)).
Proof.
  destruct r as [m rb sb]. unfold record_at. cbn [shr_m]. intros Hm H.
  destruct m as [|[p|p|]|p]; [| | | |lia]; destruct rb, sb; cbn [shr_1 loc_of_shr_record shr_m shr_r shr_s orb located] in *;
    rewrite ?inject_xI, ?inject_xO in H; try change (inject_Z 0) with 0%Q in *; try change (inject_Z 1) with 1%Q in *; lra.
Qed.

Lemma shr_iter_nonneg n r : 0 <= shr_m r -> 0 <= shr_m (SpecFloat.iter_pos shr_1 n r).
Proof. intros Hr. rewrite shr_iter_m by done. apply Z.div_pos; [done|]. apply Z.pow_pos_nonneg; lia. Qed.

#[global] Instance located_proper m l : Proper (Qeq ==> iff) (located m l).
Proof. intros x y E. destruct l as [|[]]; cbn [located]; by rewrite E. Qed.

#[global] Instance record_at_proper r : Proper (Qeq ==> iff) (record_at r).
Proof. intros x y E. unfold record_at. by rewrite E. Qed.

Lemma shr_iter_at n r x : 0 <= shr_m r -> record_at r x ->
  record_at (SpecFloat.iter_pos shr_1 n r) (x * pow2 (- Zpos n)).
Proof.
  assert (H1 : forall r x, 0 <= shr_m r -> record_at r x -> 0 <= shr_m (shr_1 r) /\ record_at (shr_1 r) (x * (1 # 2))).
  { intros r' x' Hr H. split; [|by apply shr_1_at]. rewrite shr_1_m by done. apply Z.div_pos; lia. }
  revert r x. induction n as [n IH|n IH|]; intros r x Hr H; cbn [SpecFloat.iter_pos].
  - destruct (H1 r x Hr H) as [Hr1 Hx1]. specialize (IH _ _ Hr1 Hx1) as IH1.
    pose proof (IH _ _ (shr_iter_nonneg n _ Hr1) IH1) as IH2.
    replace (- Zpos n~1) with (- Zpos n + - Zpos n + -1) by lia. rewrite !pow2_add. change (pow2 (-1)) with (1 # 2)%Q.
    eapply record_at_proper; [|exact IH2]. lra.
  - specialize (IH _ _ Hr H) as IH1. pose proof (IH _ _ (shr_iter_nonneg n _ Hr) IH1) as IH2.
    replace (- Zpos n~0) with (- Zpos n + - Zpos n) by lia. rewrite pow2_add.
    eapply record_at_proper; [|exact IH2]. lra.
  - change (pow2 (-1)) with (1 # 2)%Q. by apply H1.
Qed.

(** Shifting to the exponent of the format. *)
Lemma shr_fexp_at m e l x : 0 <= m -> e <= fexp prec emax (Zdigits2 m + e) -> located m l (x * pow2 (- e)) ->
  let '(r, e') := shr_fexp prec emax m e l in
  e' = fexp prec emax (Zdigits2 m + e) /\ 0 <= shr_m r /\ shr_m r = m / 2 ^ (e' - e) /\ record_at r (x * pow2 (- e')).
Proof.
  intros Hm He Hx. unfold shr_fexp. set (f := fexp prec emax (Zdigits2 m + e)) in *.
  destruct (record_of_loc m l) as [Hl Hrm]. assert (Hr : record_at (shr_record_of_loc m l) (x * pow2 (- e))).
  { unfold record_at. by rewrite Hl, Hrm. }
  destruct (f - e) as [|n|n] eqn:En; cbn [shr]; [| |lia].
  - assert (f = e) as -> by lia. rewrite Hrm, Z.sub_diag, Z.div_1_r. done.
  - replace (e + Zpos n) with f by lia. split_and!; [done|apply shr_iter_nonneg; lia|rewrite shr_iter_m, Hrm by lia; by rewrite En|].
    eapply record_at_proper; [|apply shr_iter_at; [by rewrite Hrm|exact Hr]].
    replace (- f) with (- e + - Zpos n) by lia. rewrite pow2_add. lra.
Qed.

Lemma round_nearest_close m l x : located m l x -> (Qabs (inject_Z (round_nearest_even m l) - x) <= 1 # 2)%Q.
Proof.
  intros H. apply Qabs_Qle_condition. destruct l as [|[]]; cbn [located round_nearest_even] in *.
  - lra.
  - destruct (Z.even m); rewrite ?inject_Z_plus; change (inject_Z 1) with 1%Q; lra.
  - lra.
  - rewrite inject_Z_plus. change (inject_Z 1) with 1%Q. lra.
Qed.

(** ** Rounding *)

Lemma Zdigits2_pos m : 0 < m -> 2 ^ (Zdigits2 m - 1) <= m < 2 ^ Zdigits2 m /\ 1 <= Zdigits2 m.
Proof. destruct m as [|p|p]; [lia| |lia]. intros _. cbn [Zdigits2]. split; [apply digits2_bounds|lia]. Qed.

(** The exponent of the result: the least one, or that of a number of 53 digits. *)
Lemma fexp_cases m e : 0 <= m -> e <= fexp prec emax (Zdigits2 m + e) ->
  let f := fexp prec emax (Zdigits2 m + e) in
  f = -1074 \/ (-1074 <= f /\ f = Zdigits2 m + e - 53 /\ 0 < m).
Proof.
  intros Hm. unfold fexp, emin, prec, emax. intros He. destruct (decide (m = 0)) as [->|]; cbn [Zdigits2] in *; lia.
Qed.

Lemma mantissa_bounds m e : 0 <= m -> e <= fexp prec emax (Zdigits2 m + e) ->
  let f := fexp prec emax (Zdigits2 m + e) in
  m / 2 ^ (f - e) < 2 ^ 53 /\ (f = -1074 \/ 2 ^ 52 <= m / 2 ^ (f - e)).
Proof.
  intros Hm He f. assert (Hp : 0 < 2 ^ (f - e)) by (apply Z.pow_pos_nonneg; unfold f; lia).
  assert (Hf : Zdigits2 m + e - 53 <= f) by (unfold f, fexp, prec; lia). split.
  - apply Z.div_lt_upper_bound; [done|]. rewrite <- Z.pow_add_r by (unfold f; lia).
    destruct (decide (m = 0)) as [->|]; [apply Z.pow_pos_nonneg; unfold f; lia|].
    destruct (Zdigits2_pos m ltac:(lia)) as [[_ H] _]. eapply Z.lt_le_trans; [exact H|]. apply Z.pow_le_mono_r; lia.
  - destruct (fexp_cases m e Hm He) as [Ef|(_ & Ef & Hm0)]; [by left|right]. fold f in Ef.
    destruct (Zdigits2_pos m Hm0) as [[H _] _]. apply Z.div_le_lower_bound; [done|]. rewrite <- Z.pow_add_r by (unfold f; lia).
    etransitivity; [|exact H]. apply Z.pow_le_mono_r; lia.
Qed.

(** A number of the format is left as it is; [2^53] is renormalised. *)
Lemma shr_fexp_fits m f : 0 <= m <= 2 ^ 53 -> -1074 <= f -> (f = -1074 \/ 2 ^ 52 <= m) ->
  let '(r, e2) := shr_fexp prec emax m f loc_Exact in
  0 <= shr_m r < 2 ^ 53 /\ f <= e2 <= f + 1 /\ (inject_Z (shr_m r) * pow2 e2 == inject_Z m * pow2 f)%Q /\
  (0 < shr_m r -> fexp prec emax (Zdigits2 (shr_m r) + e2) = e2).
Proof.
  intros Hm Hf Hcan. unfold shr_fexp. destruct (decide (m = 2 ^ 53)) as [->|Hne].
  - change (Zdigits2 (2 ^ 53)) with 54. replace (fexp prec emax (54 + f) - f) with 1 by (unfold fexp, emin, prec, emax; lia).
    change (shr (shr_record_of_loc (2 ^ 53) loc_Exact) f 1) with
      ({| shr_m := 2 ^ 52; shr_r := false; shr_s := false |}, f + 1). cbn [shr_m]. split_and!; [lia..| |].
    + rewrite pow2_succ. change (inject_Z (2 ^ 53)) with (2 * inject_Z (2 ^ 52))%Q. lra.
    + intros _. change (Zdigits2 (2 ^ 52)) with 53. unfold fexp, emin, prec, emax. lia.
  - assert (Hd : 0 <= Zdigits2 m <= 53) by (split; [by destruct m|apply Zdigits2_bound; lia]).
    assert (Hn : fexp prec emax (Zdigits2 m + f) - f <= 0) by (unfold fexp, emin, prec, emax; lia).
    replace (shr _ f _) with (shr_record_of_loc m loc_Exact, f) by (by destruct (_ - f) as [|n|n]; [|lia|]).
    cbn [shr_m shr_record_of_loc]. split_and!; [lia..|done|]. intros Hpos. destruct (Zdigits2_pos m Hpos) as [Hb H1].
    unfold fexp, emin, prec, emax. destruct Hcan as [->|Hc]; [lia|].
    enough (53 <= Zdigits2 m) by lia. apply Z.lt_pred_le. apply (Z.pow_lt_mono_r_iff 2); lia.
Qed.

Lemma located_bounds m l x : located m l x -> (inject_Z m <= x)%Q.
Proof. destruct l as [|[]]; cbn [located]; lra. Qed.

Lemma scale_up x y e : (x * pow2 (- e) == y)%Q -> (x == y * pow2 e)%Q.
Proof.
  intros <-. rewrite <- Qmult_assoc, <- pow2_add. replace (- e + e) with 0 by lia. change (pow2 0) with 1%Q. lra.
Qed.

(** Half a unit of the exponent [f] is within the error allowed. *)
Lemma half_unit m e l x : 0 <= m -> e <= fexp prec emax (Zdigits2 m + e) -> located m l (x * pow2 (- e)) ->
  let f := fexp prec emax (Zdigits2 m + e) in
  (0 <= x)%Q /\ ((1 # 2) * pow2 f <= unit_roundoff * x + underflow)%Q /\ (f = -1074 \/ (pow2 (f + 52) <= x)%Q).
Proof.
  intros Hm He Hx f. apply located_bounds in Hx.
  assert (Hge : (inject_Z m * pow2 e <= x)%Q).
  { pose proof (pow2_pos e). pose proof (scale_up x _ e (Qeq_refl _)) as E. rewrite E. nra. }
  assert (Hm' : (0 <= inject_Z m)%Q) by (change 0%Q with (inject_Z 0); by rewrite <- Zle_Qle).
  pose proof (pow2_pos e) as He0. assert (Hx0 : (0 <= x)%Q) by nra.
  assert (Hu : (0 < unit_roundoff)%Q) by apply pow2_pos. assert (Hv : (0 < underflow)%Q) by apply pow2_pos.
  destruct (fexp_cases m e Hm He) as [Ef|(_ & Ef & Hm0)]; fold f in Ef.
  - split_and!; [done| |by left]. rewrite Ef. change (pow2 (-1074)) with underflow. nra.
  - assert (Hbig : (pow2 (f + 52) <= x)%Q).
    { destruct (Zdigits2_pos m Hm0) as [[H _] H1]. replace (f + 52) with (Zdigits2 m - 1 + e) by lia.
      rewrite pow2_add, pow2_Z by lia. rewrite Zle_Qle in H. nra. }
    split_and!; [done| |by right].
    assert (E : (unit_roundoff * pow2 (f + 52) == (1 # 2) * pow2 f)%Q).
    { unfold unit_roundoff. rewrite <- pow2_add. replace (-53 + (f + 52)) with (f + -1) by lia. rewrite pow2_add.
      change (pow2 (-1)) with (1 # 2)%Q. lra. }
    nra.
Qed.

Lemma round_aux_rounded s m e l x :
  0 <= m -> e <= fexp prec emax (Zdigits2 m + e) -> located m l (x * pow2 (- e)) -> (x < pow2 1000)%Q ->
  rounded s x (binary_round_aux prec emax s m e l).
Proof.
  intros Hm He Hx Hlt. unfold binary_round_aux. pose proof (shr_fexp_at m e l x Hm He Hx) as H1.
  destruct (half_unit m e l x Hm He Hx) as (Hx0 & Herr & Hbig). destruct (mantissa_bounds m e Hm He) as [Hlo Hhi].
  destruct (shr_fexp prec emax m e l) as [r1 e1]. destruct H1 as (-> & Hr1 & Er1 & Hat).
  set (f := fexp prec emax (Zdigits2 m + e)) in *. rewrite <- Er1 in Hlo, Hhi.
  set (m1 := round_nearest_even (shr_m r1) (loc_of_shr_record r1)).
  pose proof (round_nearest_even_ge (shr_m r1) (loc_of_shr_record r1)) as Hg.
  pose proof (round_nearest_even_le (shr_m r1) (loc_of_shr_record r1)) as Hle. fold m1 in Hg, Hle.
  assert (Hf : -1074 <= f) by (unfold f, fexp, emin, prec, emax; lia).
  assert (Hzero : (x == 0)%Q -> m1 = 0).
  { intros Ex. pose proof (round_nearest_close _ _ _ Hat) as Hc. fold m1 in Hc. apply Qabs_Qle_condition in Hc as [_ Hc].
    rewrite Ex in Hc. enough (m1 < 1) by lia. apply inject_lt_inv. change (inject_Z 1) with 1%Q. lra. }
  assert (Hclose : (Qabs (inject_Z m1 * pow2 f - x) <= unit_roundoff * x + underflow)%Q).
  { pose proof (round_nearest_close _ _ _ Hat) as Hc. fold m1 in Hc. apply Qabs_Qle_condition in Hc. apply Qabs_Qle_condition.
    pose proof (pow2_pos f). pose proof (scale_up x _ f (Qeq_refl _)) as E. set (y := (x * pow2 (- f))%Q) in *. nra. }
  pose proof (shr_fexp_fits m1 f ltac:(lia) Hf ltac:(destruct Hhi; [left|right]; lia)) as H2.
  destruct (shr_fexp prec emax m1 f loc_Exact) as [r2 e2]. destruct H2 as (Hr2 & He2 & Ev & Hcan).
  destruct (shr_m r2) as [|q|q] eqn:Eq; [| |lia].
  - split; [done|done|done| |done]. cbn [val]. change (Qabs 0) with 0%Q. change (inject_Z 0) with 0%Q in Ev.
    assert (Ez : (inject_Z m1 * pow2 f == 0)%Q) by lra. rewrite Ez in Hclose. exact Hclose.
  - assert (He3 : e2 <= emax - prec).
    { apply Z.nlt_ge. intros Hgt. destruct Hbig as [Hb|Hb]; [unfold emax, prec in Hgt; lia|].
      pose proof (pow2_le 1000 (f + 52) ltac:(unfold emax, prec in Hgt; lia)). lra. }
    rewrite (proj2 (Z.leb_le _ _) He3). specialize (Hcan ltac:(lia)). split; [done| |done| |].
    + unfold valid, valid_binary, bounded, canonical_mantissa. cbn [Zdigits2] in Hcan.
      by rewrite Hcan, Z.eqb_refl, (proj2 (Z.leb_le _ _) He3).
    + cbn [val]. rewrite Qabs_Qmult, (Qabs_pos (pow2 e2)) by (pose proof (pow2_pos e2); lra).
      assert (Ea : (Qabs (inject_Z (cond_Zopp s (Zpos q))) == inject_Z (Zpos q))%Q) by (by destruct s).
      by rewrite Ea, Ev.
    + intros Ex. rewrite (Hzero Ex) in Ev. change (inject_Z 0) with 0%Q in Ev. cbn [val].
      pose proof (pow2_pos e2). assert (0 < inject_Z (Zpos q))%Q by done. nra.
Qed.

(** ** Operations *)

(** [r] is the number [x] up to a rounding. *)
Record approx (x : Q) (r : float64) : Prop := {
  ap_finite : finite r = true;
  ap_valid : valid r = true;
  ap_close : (Qabs (val r - x) <= unit_roundoff * Qabs x + underflow)%Q;
  ap_nonneg : (0 <= x -> 0 <= val r)%Q
}.

#[global] Instance approx_proper : Proper (Qeq ==> eq ==> iff) approx.
Proof.
  assert (H : forall x y r, (x == y)%Q -> approx x r -> approx y r).
  { intros x y r E [H1 H2 H3 H4]. split; [done|done|by rewrite <- E|by rewrite <- E]. }
  intros x y E r _ <-. split; by apply H.
Qed.

Lemma underflow_pos : (0 < underflow)%Q.
Proof. apply pow2_pos. Qed.
Lemma unit_roundoff_pos : (0 < unit_roundoff)%Q.
Proof. apply pow2_pos. Qed.

Lemma approx_exact x r : finite r = true -> valid r = true -> (val r == x)%Q -> approx x r.
Proof.
  intros Hf Hv E. split; [done..| |by rewrite E]. rewrite <- E. assert (E0 : (val r - val r == 0)%Q) by lra. rewrite E0.
  change (Qabs 0) with 0%Q. pose proof (Qabs_nonneg (val r)). pose proof underflow_pos. pose proof unit_roundoff_pos. nra.
Qed.

Definition signed (s : bool) (x : Q) : Q := if s then (- x)%Q else x.

#[global] Instance signed_proper s : Proper (Qeq ==> Qeq) (signed s).
Proof. intros x y E. destruct s; cbn [signed]; by rewrite E. Qed.

Lemma rounded_approx s x r : (0 <= x)%Q -> rounded s x r -> approx (signed s x) r.
Proof.
  intros Hx [H1 H2 H3 H4 H5]. split; [done..| |].
  2: { intros H. destruct r as [s'|s'| |s' m e]; subst; try done. destruct s; cbn [signed] in H.
    - rewrite H5 by lra. lra.
    - pose proof (pow2_pos e). assert (0 < inject_Z (Zpos m))%Q by done. cbn [val cond_Zopp]. nra. }
  assert (Ex : (Qabs (signed s x) == x)%Q) by (destruct s; cbn [signed]; rewrite ?Qabs_opp; by apply Qabs_pos).
  rewrite Ex. enough (E : (Qabs (val r - signed s x) == Qabs (Qabs (val r) - x))%Q) by (by rewrite E).
  assert (Ev : (val r == signed s (Qabs (val r)))%Q).
  { destruct r as [s'|s'| |s' m e]; subst; try done; cbn [val]; [by destruct s|].
    pose proof (pow2_pos e) as He. rewrite Qabs_Qmult, (Qabs_pos (pow2 e)) by lra. destruct s; cbn [signed cond_Zopp]; [|done].
    change (Qabs (inject_Z (- Zpos m))) with (inject_Z (Zpos m)). change (- Zpos m) with (Z.opp (Zpos m)). rewrite inject_Z_opp. lra. }
  rewrite Ev at 1. destruct s; cbn [signed]; [|done]. rewrite <- Qabs_opp. apply Qabs_wd. lra.
Qed.

Lemma located_exact m e : located m loc_Exact (inject_Z m * pow2 e * pow2 (- e)).
Proof. cbn. rewrite <- Qmult_assoc, <- pow2_add. replace (e + - e) with 0 by lia. change (pow2 0) with 1%Q. lra. Qed.

Lemma inject_pos p : (0 < inject_Z (Zpos p))%Q.
Proof. done. Qed.

(** Rounding an integer times a power of two. *)
Lemma round_approx s p e : (inject_Z (Zpos p) * pow2 e < pow2 1000)%Q ->
  approx (signed s (inject_Z (Zpos p) * pow2 e)) (binary_round prec emax s p e).
Proof.
  intros Hlt. unfold binary_round. set (f := fexp prec emax (Zpos (digits2_pos p) + e)).
  assert (Hal : exists q e', shl_align p e f = (q, e') /\ (inject_Z (Zpos q) * pow2 e' == inject_Z (Zpos p) * pow2 e)%Q /\
    e' <= fexp prec emax (Zdigits2 (Zpos q) + e')).
  { destruct (Z.le_gt_cases e f) as [Hle|Hgt].
    - exists p, e. split_and!; [|done|done]. unfold shl_align. by destruct (f - e) eqn:E; [..|lia].
    - destruct (shl_align p e f) as [q e'] eqn:E. exists q, e'. split; [done|].
      assert (e' = f) as -> by (unfold shl_align in E; destruct (f - e) eqn:Ef; [lia|lia|by injection E]).
      pose proof (shl_align_value p e f ltac:(lia)) as Hv. rewrite E in Hv. cbn [fst] in Hv.
      pose proof (Z.pow_pos_nonneg 2 (e - f) ltac:(lia) ltac:(lia)) as Hp. split.
      + rewrite Hv, inject_Z_mult, <- pow2_Z by lia. rewrite <- Qmult_assoc, <- pow2_add. by replace (e - f + f) with e by lia.
      + cbn [Zdigits2]. enough (Zpos (digits2_pos q) + f = Zpos (digits2_pos p) + e) as -> by done.
        enough (Zpos (digits2_pos q) = Zpos (digits2_pos p) + (e - f)) by lia.
        pose proof (digits2_bounds p) as Hb. apply digits2_unique; [lia|]. rewrite Hv.
        replace (Zpos (digits2_pos p) + (e - f) - 1) with (Zpos (digits2_pos p) - 1 + (e - f)) by lia.
        rewrite !Z.pow_add_r by lia. nia. }
  destruct Hal as (q & e' & -> & Ev & Hcond). rewrite <- Ev in Hlt |- *.
  apply rounded_approx; [pose proof (pow2_pos e'); pose proof (inject_pos q); nra|].
  apply round_aux_rounded; [done|done|apply located_exact|done].
Qed.

Lemma normalize_approx n e s0 : (Qabs (inject_Z n * pow2 e) < pow2 1000)%Q ->
  approx (inject_Z n * pow2 e) (binary_normalize prec emax n e s0).
Proof.
  pose proof (pow2_pos e) as He. destruct n as [|p|p]; cbn [binary_normalize]; intros Hlt.
  - apply approx_exact; [done|done|]. cbn [val]. change (inject_Z 0) with 0%Q. lra.
  - apply (round_approx false). rewrite Qabs_pos in Hlt; [done|]. pose proof (inject_pos p). nra.
  - assert (E : (inject_Z (Zneg p) * pow2 e == signed true (inject_Z (Zpos p) * pow2 e))%Q).
    { cbn [signed]. change (Zneg p) with (- Zpos p). rewrite inject_Z_opp. lra. }
    rewrite E in Hlt |- *. apply round_approx. cbn [signed] in Hlt. rewrite Qabs_opp, Qabs_pos in Hlt; [done|].
    pose proof (inject_pos p). nra.
Qed.

(** *** Sums *)

Lemma inject_cond s n : (inject_Z (cond_Zopp s n) == signed s (inject_Z n))%Q.
Proof. destruct s; [|done]. cbn [cond_Zopp signed]. by rewrite inject_Z_opp. Qed.

Lemma val_aligned s m e ez : ez <= e ->
  (val (S754_finite s m e) == inject_Z (cond_Zopp s (Zpos (shl_align m e ez).1)) * pow2 ez)%Q.
Proof.
  intros Hle. cbn [val]. rewrite shl_align_value by done. rewrite !inject_cond, inject_Z_mult, <- pow2_Z by lia.
  assert (E : (pow2 e == pow2 (e - ez) * pow2 ez)%Q) by (rewrite <- pow2_add; by replace (e - ez + ez) with e by lia).
  rewrite E. destruct s; cbn [signed]; lra.
Qed.

Lemma fadd_approx x y : finite x = true -> finite y = true -> valid x = true -> valid y = true ->
  (Qabs (val x + val y) < pow2 1000)%Q -> approx (val x + val y) (fadd x y).
Proof.
  intros Fx Fy Vx Vy Hlt. unfold fadd. destruct x as [sx|sx| |sx mx ex], y as [sy|sy| |sy my ey]; try done.
  - apply approx_exact; [by destruct sx, sy..|]. destruct sx, sy; cbn; lra.
  - apply approx_exact; [done..|]. cbn [val SFadd]. lra.
  - apply approx_exact; [done..|]. cbn [val SFadd]. lra.
  - cbn [SFadd]. set (ez := Z.min ex ey). rewrite (val_aligned sx mx ex ez), (val_aligned sy my ey ez) in Hlt |- * by lia.
    rewrite <- Qmult_plus_distr_l, <- inject_Z_plus in Hlt |- *. by apply normalize_approx.
Qed.

Lemma fsub_approx x y : finite x = true -> finite y = true -> valid x = true -> valid y = true ->
  (Qabs (val x - val y) < pow2 1000)%Q -> approx (val x - val y) (fsub x y).
Proof.
  intros Fx Fy Vx Vy Hlt. unfold fsub. destruct x as [sx|sx| |sx mx ex], y as [sy|sy| |sy my ey]; try done.
  - apply approx_exact; [by destruct sx, sy..|]. destruct sx, sy; cbn; lra.
  - apply approx_exact; [done..|]. cbn [val SFsub]. rewrite !inject_cond. destruct sy; cbn [signed negb]; lra.
  - apply approx_exact; [done..|]. cbn [val SFsub]. lra.
  - cbn [SFsub]. set (ez := Z.min ex ey). rewrite (val_aligned sx mx ex ez), (val_aligned sy my ey ez) in Hlt |- * by lia.
    assert (E : forall a b c, (a * c - b * c == (a + - b) * c)%Q) by (intros; lra).
    rewrite E, <- inject_Z_opp, <- inject_Z_plus in Hlt |- *. by apply normalize_approx.
Qed.

(** *** Products *)

Lemma valid_digits s m e : valid (S754_finite s m e) = true ->
  Zpos (digits2_pos m) <= 53 /\ -1074 <= e /\ (e = -1074 \/ Zpos (digits2_pos m) = 53).
Proof.
  unfold valid, valid_binary, bounded, canonical_mantissa. intros H. apply andb_true_iff in H as [H _]. zify_bool.
  unfold fexp, emin, prec, emax in H. lia.
Qed.

Lemma digits_product p q : Zpos (digits2_pos p) + Zpos (digits2_pos q) - 1 <= Zpos (digits2_pos (p * q)).
Proof.
  pose proof (digits2_bounds p) as Hp. pose proof (digits2_bounds q) as Hq. pose proof (digits2_bounds (p * q)) as [_ Hpq].
  set (a := Zpos (digits2_pos p)) in *. set (b := Zpos (digits2_pos q)) in *. set (c := Zpos (digits2_pos (p * q))) in *.
  enough (2 ^ (a - 1 + (b - 1)) < 2 ^ c) as H by (apply Z.pow_lt_mono_r_iff in H; lia).
  rewrite Z.pow_add_r by lia. pose proof (Z.pow_pos_nonneg 2 (a - 1)). pose proof (Z.pow_pos_nonneg 2 (b - 1)). nia.
Qed.

Lemma fmul_approx x y : finite x = true -> finite y = true -> valid x = true -> valid y = true ->
  (Qabs (val x * val y) < pow2 1000)%Q -> approx (val x * val y) (fmul x y).
Proof.
  intros Fx Fy Vx Vy Hlt. unfold fmul. destruct x as [sx|sx| |sx mx ex], y as [sy|sy| |sy my ey]; try done;
    try (apply approx_exact; [done..|]; cbn [val SFmul]; lra).
  apply valid_digits in Vx as (Hdx & Hex & Hx), Vy as (Hdy & Hey & Hy). cbn [SFmul].
  assert (E : (val (S754_finite sx mx ex) * val (S754_finite sy my ey) ==
    signed (xorb sx sy) (inject_Z (Zpos (mx * my)) * pow2 (ex + ey)))%Q).
  { cbn [val]. rewrite !inject_cond, Pos2Z.inj_mul, inject_Z_mult, pow2_add. destruct sx, sy; cbn [signed xorb]; lra. }
  assert (H0 : (0 <= inject_Z (Zpos (mx * my)) * pow2 (ex + ey))%Q).
  { pose proof (pow2_pos (ex + ey)). pose proof (inject_pos (mx * my)). nra. }
  rewrite E in Hlt |- *. apply rounded_approx; [done|]. apply round_aux_rounded; [done| |apply located_exact|].
  - cbn [Zdigits2]. pose proof (digits_product mx my). unfold fexp, emin, prec, emax. lia.
  - destruct (xorb sx sy); cbn [signed] in Hlt; rewrite ?Qabs_opp, Qabs_pos in Hlt by done; done.
Qed.

(** *** Quotients *)

Lemma new_location_at b q r x : 0 < b -> 0 <= r < b -> (x * inject_Z b == inject_Z (b * q + r))%Q ->
  located q (new_location b r) x.
Proof.
  intros Hb Hr Hx. rewrite inject_Z_plus, inject_Z_mult in Hx.
  assert (Hb' : (0 < inject_Z b)%Q) by (change 0%Q with (inject_Z 0); by rewrite <- Zlt_Qlt).
  assert (Hless : forall a c, a < c -> (inject_Z a < inject_Z c)%Q) by (intros; by rewrite <- Zlt_Qlt).
  assert (H2 : (inject_Z (2 * r) == 2 * inject_Z r)%Q) by (by rewrite inject_Z_mult).
  destruct (decide (r = 0)) as [->|Hr0].
  { unfold new_location, new_location_even, new_location_odd. destruct (Z.even b); cbn [Z.eqb located];
      change (inject_Z 0) with 0%Q in Hx; nra. }
  pose proof (Hless 0 r ltac:(lia)) as Hr1. pose proof (Hless r b ltac:(lia)) as Hr2. change (inject_Z 0) with 0%Q in Hr1.
  assert (Hcmp : new_location b r = loc_Inexact (Z.compare (2 * r) b)).
  { unfold new_location, new_location_even, new_location_odd.
    destruct (Z.even b) eqn:Ev; rewrite (proj2 (Z.eqb_neq r 0)) by done; [done|]. assert (2 * r <> b) by (intros <-; by rewrite Z.even_mul in Ev).
    f_equal. destruct (Z.compare_spec (2 * r + 1) b), (Z.compare_spec (2 * r) b); try done; lia. }
  rewrite Hcmp. destruct (Z.compare_spec (2 * r) b) as [E|E|E]; cbn [located].
  - assert (E' : (2 * inject_Z r == inject_Z b)%Q) by (rewrite <- H2; by rewrite E). nra.
  - apply Hless in E. rewrite H2 in E. split; nra.
  - apply Hless in E. rewrite H2 in E. split; nra.
Qed.

Lemma digits_quotient a b : 0 < a -> 0 < b -> Zdigits2 a - Zdigits2 b <= Zdigits2 (a / b).
Proof.
  intros Ha Hb. destruct (Zdigits2_pos a Ha) as [[Ha1 _] _], (Zdigits2_pos b Hb) as [[_ Hb2] Hb3].
  set (da := Zdigits2 a) in *. set (db := Zdigits2 b) in *.
  destruct (Z.le_gt_cases da db) as [Hle|Hgt]; [pose proof (Z.div_pos a b ltac:(lia) Hb); destruct (a / b); cbn [Zdigits2]; lia|].
  assert (Hq : 2 ^ (da - 1 - db) <= a / b).
  { apply Z.div_le_lower_bound; [done|]. pose proof (Z.pow_pos_nonneg 2 (da - 1 - db) ltac:(lia) ltac:(lia)).
    replace (da - 1) with (da - 1 - db + db) in Ha1 by lia. rewrite Z.pow_add_r in Ha1 by lia. nia. }
  pose proof (Z.pow_pos_nonneg 2 (da - 1 - db) ltac:(lia) ltac:(lia)) as Hp.
  destruct (Zdigits2_pos (a / b) ltac:(lia)) as [[_ H] H1].
  enough (2 ^ (da - 1 - db) < 2 ^ Zdigits2 (a / b)) as H3 by (apply Z.pow_lt_mono_r_iff in H3; lia). lia.
Qed.

Lemma digits_shift p k : 0 <= k -> Zdigits2 (Zpos p * 2 ^ k) = Zpos (digits2_pos p) + k.
Proof.
  intros Hk. pose proof (digits2_bounds p) as Hb. pose proof (Z.pow_pos_nonneg 2 k ltac:(lia) Hk) as Hp.
  destruct (Zpos p * 2 ^ k) as [|q|q] eqn:E; [lia| |lia]. cbn [Zdigits2]. apply digits2_unique; [lia|]. rewrite <- E.
  replace (Zpos (digits2_pos p) + k - 1) with (Zpos (digits2_pos p) - 1 + k) by lia. rewrite !Z.pow_add_r by lia. nia.
Qed.

Lemma div_core_located m1 e1 m2 e2 :
  let '(q, e, l) := SFdiv_core_binary prec emax (Zpos m1) e1 (Zpos m2) e2 in
  0 <= q /\ e <= fexp prec emax (Zdigits2 q + e) /\
  located q l (inject_Z (Zpos m1) * pow2 e1 / (inject_Z (Zpos m2) * pow2 e2) * pow2 (- e)).
Proof.
  unfold SFdiv_core_binary. cbn [Zdigits2]. set (d1 := Zpos (digits2_pos m1)). set (d2 := Zpos (digits2_pos m2)).
  set (e' := Z.min (fexp prec emax (d1 + e1 - (d2 + e2))) (e1 - e2)). set (k := e1 - e2 - e').
  assert (Hk : 0 <= k) by (unfold k, e'; lia).
  replace (match k with Z0 => Zpos m1 | Zpos _ => Z.shiftl (Zpos m1) k | Zneg _ => 0 end) with (Zpos m1 * 2 ^ k)
    by (destruct k; [cbn; lia|by rewrite Z.shiftl_mul_pow2|lia]).
  pose proof (Z_div_mod (Zpos m1 * 2 ^ k) (Zpos m2) ltac:(lia)) as Hqr. pose proof (Z.pow_pos_nonneg 2 k ltac:(lia) Hk) as Hp.
  pose proof (digits_quotient (Zpos m1 * 2 ^ k) (Zpos m2) ltac:(lia) ltac:(lia)) as Hd. unfold Z.div in Hd.
  destruct (Z.div_eucl (Zpos m1 * 2 ^ k) (Zpos m2)) as [q r]. destruct Hqr as [Hq Hr].
  rewrite digits_shift in Hd by done. cbn [Zdigits2] in Hd. fold d1 d2 in Hd. split_and!; [nia| |].
  - unfold e' at 1. unfold fexp, emin, prec, emax in *. lia.
  - apply new_location_at; [lia|lia|]. rewrite <- Hq, inject_Z_mult, <- pow2_Z by done.
    pose proof (inject_pos m2). pose proof (pow2_pos e2).
    assert (E : (pow2 e1 == pow2 k * pow2 e2 * pow2 e')%Q).
    { rewrite <- !pow2_add. by replace (k + e2 + e') with e1 by (unfold k; lia). }
    assert (E0 : (pow2 e' * pow2 (- e') == 1)%Q) by (rewrite <- pow2_add; by replace (e' + - e') with 0 by lia).
    rewrite E.
    transitivity (inject_Z (Zpos m1) * pow2 k * (pow2 e' * pow2 (- e')))%Q; [field; split; lra|]. rewrite E0. lra.
Qed.

Lemma fdiv_approx x y : finite x = true -> finite y = true -> (0 < Qabs (val y))%Q ->
  (Qabs (val x / val y) < pow2 1000)%Q -> approx (val x / val y) (fdiv x y).
Proof.
  intros Fx Fy Hy Hlt. unfold fdiv. destruct y as [sy|sy| |sy my ey]; try done.
  destruct x as [sx|sx| |sx mx ex]; try done.
  cbn [SFdiv]. pose proof (div_core_located mx ex my ey) as H.
  destruct (SFdiv_core_binary _ _ _ _ _ _) as [[q e] l]. destruct H as (H1 & H2 & H3).
  pose proof (pow2_pos ex) as Hex. pose proof (pow2_pos ey) as Hey. pose proof (inject_pos mx). pose proof (inject_pos my).
  set (X := (inject_Z (Zpos mx) * pow2 ex / (inject_Z (Zpos my) * pow2 ey))%Q) in *.
  assert (HX : (0 <= X)%Q).
  { unfold X. apply Qle_shift_div_l; nra. }
  assert (E : (val (S754_finite sx mx ex) / val (S754_finite sy my ey) == signed (xorb sx sy) X)%Q).
  { unfold X. cbn [val]. rewrite !inject_cond. destruct sx, sy; cbn [signed xorb]; field; lra. }
  rewrite E in Hlt |- *. apply rounded_approx; [done|]. apply round_aux_rounded; [done..|].
  destruct (xorb sx sy); cbn [signed] in Hlt; rewrite ?Qabs_opp, Qabs_pos in Hlt by done; done.
Qed.

(** *** Integers *)

Lemma float_of_Z_approx n : (Qabs (inject_Z n) < pow2 1000)%Q -> approx (inject_Z n) (float_of_Z n).
Proof.
  intros Hn. assert (E : (inject_Z n == inject_Z n * pow2 0)%Q) by (change (pow2 0) with 1%Q; lra).
  rewrite E in Hn |- *. by apply normalize_approx.
Qed.

Lemma float_of_Z_exact n : - 2 ^ 53 < n < 2 ^ 53 -> (val (float_of_Z n) == inject_Z n)%Q.
Proof.
  intros Hn. destruct (decide (n = 0)) as [->|H0]; [done|]. destruct (float_small n H0 Hn) as (m & e & -> & He & Hm).
  cbn [val]. rewrite Hm, inject_Z_mult, <- pow2_Z by lia. rewrite <- Qmult_assoc, <- pow2_add.
  replace (- e + e) with 0 by lia. change (pow2 0) with 1%Q. lra.
Qed.

(** *** Comparisons *)

Lemma valid_mantissa s m e : valid (S754_finite s m e) = true ->
  Zpos m < 2 ^ 53 /\ -1074 <= e /\ (e = -1074 \/ 2 ^ 52 <= Zpos m).
Proof.
  intros Hv. apply valid_digits in Hv as (Hd & He & Hc). pose proof (digits2_bounds m) as [H1 H2]. split_and!; [|done|].
  - eapply Z.lt_le_trans; [exact H2|]. apply Z.pow_le_mono_r; lia.
  - destruct Hc as [->|Hd']; [by left|right]. rewrite Hd' in H1. done.
Qed.

(** Numbers of different exponents compare as their exponents do. *)
Lemma exponent_less s1 m1 e1 s2 m2 e2 : valid (S754_finite s1 m1 e1) = true -> valid (S754_finite s2 m2 e2) = true ->
  e1 < e2 -> (inject_Z (Zpos m1) * pow2 e1 < inject_Z (Zpos m2) * pow2 e2)%Q.
Proof.
  intros V1 V2 He. apply valid_mantissa in V1 as (H1 & Hmin & _), V2 as (_ & _ & [->|H2]); [lia|].
  apply (Qlt_le_trans _ (inject_Z (2 ^ 53) * pow2 e1)).
  - pose proof (pow2_pos e1). rewrite Zlt_Qlt in H1. nra.
  - apply (Qle_trans _ (inject_Z (2 ^ 52) * pow2 e2)).
    + rewrite <- !pow2_Z, <- !pow2_add by lia. apply pow2_le. lia.
    + pose proof (pow2_pos e2). rewrite Zle_Qle in H2. nra.
Qed.

Lemma magnitude_compare s1 m1 e1 s2 m2 e2 : valid (S754_finite s1 m1 e1) = true -> valid (S754_finite s2 m2 e2) = true ->
  (inject_Z (Zpos m1) * pow2 e1 ?= inject_Z (Zpos m2) * pow2 e2)%Q =
    match Z.compare e1 e2 with Lt => Lt | Gt => Gt | Eq => Pos.compare m1 m2 end.
Proof.
  intros V1 V2. destruct (Z.compare_spec e1 e2) as [<-|He|He].
  - pose proof (pow2_pos e1) as Hp. destruct (Pos.compare_spec m1 m2) as [<-|Hm|Hm].
    + by apply Qeq_alt.
    + apply Qlt_alt, Qmult_lt_r; [done|]. by rewrite <- Zlt_Qlt.
    + apply Qgt_alt, Qmult_lt_r; [done|]. by rewrite <- Zlt_Qlt.
  - apply Qlt_alt. by eapply exponent_less.
  - apply Qgt_alt. by eapply exponent_less.
Qed.

Lemma val_sign (s : bool) (m : positive) (e : Z) : (if s then val (S754_finite s m e) < 0 else 0 < val (S754_finite s m e))%Q.
Proof.
  cbn [val]. pose proof (pow2_pos e). pose proof (inject_pos m). destruct s; cbn [cond_Zopp]; [|nra].
  change (- Zpos m) with (Z.opp (Zpos m)). rewrite inject_Z_opp. nra.
Qed.

Lemma Qcompare_opp a b : (- a ?= - b)%Q = CompOpp (a ?= b)%Q.
Proof.
  destruct (a ?= b)%Q eqn:E; cbn [CompOpp].
  - apply (proj2 (Qeq_alt _ _)) in E. apply (proj1 (Qeq_alt _ _)). lra.
  - apply (proj2 (Qlt_alt _ _)) in E. apply (proj1 (Qgt_alt _ _)). lra.
  - apply (proj2 (Qgt_alt _ _)) in E. apply (proj1 (Qlt_alt _ _)). lra.
Qed.

Lemma compare_val x y : finite x = true -> finite y = true -> valid x = true -> valid y = true ->
  SFcompare x y = Some (val x ?= val y)%Q.
Proof.
  intros Fx Fy Vx Vy. symmetry. destruct x as [sx|sx| |sx mx ex], y as [sy|sy| |sy my ey]; try done; cbn [SFcompare]; f_equal.
  - pose proof (val_sign sy my ey) as H. change (val (S754_zero sx)) with 0%Q. destruct sy; [by apply (proj1 (Qgt_alt _ _))|by apply (proj1 (Qlt_alt _ _))].
  - pose proof (val_sign sx mx ex) as H. change (val (S754_zero sy)) with 0%Q. destruct sx; [by apply (proj1 (Qlt_alt _ _))|by apply (proj1 (Qgt_alt _ _))].
  - pose proof (val_sign sx mx ex) as H1. pose proof (val_sign sy my ey) as H2. pose proof (magnitude_compare _ _ _ _ _ _ Vx Vy) as H.
    destruct sx, sy.
    + assert (Ex : (val (S754_finite true mx ex) == - (inject_Z (Zpos mx) * pow2 ex))%Q) by (cbn [val]; rewrite inject_cond; cbn [signed]; lra).
      assert (Ey : (val (S754_finite true my ey) == - (inject_Z (Zpos my) * pow2 ey))%Q) by (cbn [val]; rewrite inject_cond; cbn [signed]; lra).
      rewrite (Qcompare_comp _ _ Ex _ _ Ey), Qcompare_opp, H. by destruct (ex ?= ey).
    + apply (proj1 (Qlt_alt _ _)). lra.
    + apply (proj1 (Qgt_alt _ _)). lra.
    + exact H.
Qed.

Lemma fltb_val x y : finite x = true -> finite y = true -> valid x = true -> valid y = true ->
  if fltb x y then (val x < val y)%Q else (val y <= val x)%Q.
Proof.
  intros Fx Fy Vx Vy. unfold fltb, SFltb. rewrite compare_val by done. destruct (val x ?= val y)%Q eqn:E.
  - apply (proj2 (Qeq_alt _ _)) in E. lra.
  - by apply (proj2 (Qlt_alt _ _)).
  - apply (proj2 (Qgt_alt _ _)) in E. lra.
Qed.

(** *** Rounding to an integer *)

Lemma nonneg_val x : nonneg x = true -> (0 <= val x)%Q.
Proof. destruct x as [| | |[] m e]; try done. intros _. pose proof (val_sign false m e). cbn in *. lra. Qed.

(** [floor (m / 2^k + 1/2)]. *)
Lemma half_up m k : 0 < k -> let r := (2 * m + 2 ^ k) / 2 ^ (k + 1) in
  (Qabs (inject_Z r - inject_Z m * pow2 (- k)) <= 1 # 2)%Q.
Proof.
  intros Hk r. pose proof (Z.pow_pos_nonneg 2 k ltac:(lia) ltac:(lia)) as Hp.
  pose proof (Z.div_mod (2 * m + 2 ^ k) (2 ^ (k + 1)) ltac:(lia)) as Hd. fold r in Hd.
  pose proof (Z.mod_pos_bound (2 * m + 2 ^ k) (2 ^ (k + 1)) ltac:(lia)) as Hm. rewrite Z.pow_add_r, Z.pow_1_r in Hd, Hm by lia.
  set (t := (2 * m + 2 ^ k) mod (2 ^ k * 2)) in *. set (P := 2 ^ k) in *.
  assert (E : (inject_Z m * pow2 (- k) * inject_Z P == inject_Z m)%Q).
  { unfold P. rewrite <- pow2_Z, <- Qmult_assoc, <- pow2_add by lia. replace (- k + k) with 0 by lia. change (pow2 0) with 1%Q. lra. }
  set (y := (inject_Z m * pow2 (- k))%Q) in *.
  assert (H1 : (2 * inject_Z m + inject_Z P == 2 * inject_Z P * inject_Z r + inject_Z t)%Q).
  { assert (H : inject_Z (2 * m + P) = inject_Z (P * 2 * r + t)) by (by rewrite <- Hd).
    rewrite !inject_Z_plus, !inject_Z_mult in H.
    assert (H' : (inject_Z 2 * inject_Z m + inject_Z P == inject_Z P * inject_Z 2 * inject_Z r + inject_Z t)%Q) by (by rewrite H).
    change (inject_Z 2) with 2%Q in H'. lra. }
  pose proof (inject_le 0 t ltac:(lia)) as Ht0. pose proof (inject_lt t (P * 2) ltac:(lia)) as Ht1.
  rewrite inject_Z_mult in Ht1. change (inject_Z 2) with 2%Q in Ht1. change (inject_Z 0) with 0%Q in Ht0.
  pose proof (inject_lt 0 P Hp) as HP. change (inject_Z 0) with 0%Q in HP. rewrite <- E in H1.
  apply Qabs_Qle_condition. split; nra.
Qed.

Lemma int64_of_Z_range z : 0 <= z <= maxInt64 ->
  (if (minInt64 <=? z) && (z <=? maxInt64) then z else minInt64) = z.
Proof. intros Hz. by rewrite (proj2 (Z.leb_le minInt64 z)), (proj2 (Z.leb_le z maxInt64)) by (unfold minInt64; lia). Qed.

Lemma round_int x : nonneg x = true -> finite x = true -> valid x = true -> (val x < inject_Z (2 ^ 62))%Q ->
  let z := int64_of_float (math_Round x) in
  0 <= z /\ (Qabs (inject_Z z - val x) <= 1 # 2)%Q.
Proof.
  intros Hn Hf Hv Hlt. destruct x as [s|s| |[] m e]; try done.
  apply valid_mantissa in Hv as (Hm & _ & _). unfold math_Round. cbn [val cond_Zopp] in *.
  destruct (0 <=? e) eqn:He; zify_bool.
  - unfold int64_of_float, trunc_Z. rewrite (proj2 (Z.leb_le 0 e)) by done.
    rewrite pow2_Z, <- inject_Z_mult in Hlt |- * by done. apply inject_lt_inv in Hlt.
    pose proof (Z.pow_pos_nonneg 2 e ltac:(lia) He). rewrite int64_of_Z_range by (unfold maxInt64; nia).
    split; [nia|]. rewrite Qabs_pos; [|lra].
    match goal with |- (?a - ?a <= _)%Q => assert (E : (a - a == 0)%Q) by lra; rewrite E end. done.
  - pose proof (half_up (Zpos m) (- e) ltac:(lia)) as Hr. rewrite Z.opp_involutive in Hr.
    set (r := (2 * Zpos m + 2 ^ (- e)) / 2 ^ (- e + 1)) in *. cbv zeta in Hr.
    assert (Hr0 : 0 <= r < 2 ^ 53).
    { pose proof (Z.pow_pos_nonneg 2 (- e) ltac:(lia) ltac:(lia)). unfold r. split; [apply Z.div_pos; rewrite ?Z.pow_add_r; lia|].
      apply Z.div_lt_upper_bound; rewrite Z.pow_add_r by lia; [lia|].
      assert (2 <= 2 ^ (- e)) by (change 2 with (2 ^ 1) at 1; apply Z.pow_le_mono_r; lia). nia. }
    destruct (r =? 0) eqn:E; zify_bool; [rewrite E in Hr; done|].
    change (binary_normalize prec emax r 0 false) with (float_of_Z r).
    unfold int64_of_float. rewrite trunc_small by lia. rewrite int64_of_Z_range by (unfold maxInt64; lia). split; [lia|done].
Qed.

(** ** Using approximations *)

(** A finite double of the format. *)
Definition number (x : float64) : Prop := finite x = true /\ valid x = true.

Lemma approx_number x r : approx x r -> number r.
Proof. by intros [H1 H2 _ _]. Qed.

Lemma approx_bounds x r : approx x r -> (0 <= x)%Q ->
  (0 <= val r)%Q /\ (x - unit_roundoff * x - underflow <= val r)%Q /\ (val r <= x + unit_roundoff * x + underflow)%Q.
Proof.
  intros [_ _ Hc Hn] Hx. rewrite (Qabs_pos x Hx) in Hc. apply Qabs_Qle_condition in Hc. split; [by apply Hn|]. lra.
Qed.

Lemma nonneg_of_val x : finite x = true -> (0 <= val x)%Q -> nonneg x = true.
Proof. destruct x as [| | |[] m e]; try done. intros _ H. pose proof (val_sign true m e) as Hs. cbn in Hs. cbn in H. lra. Qed.

Lemma float_of_Z_number_small n : - 2 ^ 53 < n < 2 ^ 53 -> number (float_of_Z n) /\ (val (float_of_Z n) == inject_Z n)%Q.
Proof.
  intros Hn. split; [|by apply float_of_Z_exact]. eapply approx_number, float_of_Z_approx.
  apply (Qlt_trans _ (inject_Z (2 ^ 53))); [|done]. apply Qabs_Qlt_condition. split.
  - rewrite <- inject_Z_opp. apply inject_lt. lia.
  - apply inject_lt. lia.
Qed.

Lemma min_val x y : number x -> number y ->
  number (math_Min x y) /\ (val (math_Min x y) <= val x)%Q /\ (val (math_Min x y) <= val y)%Q /\
  (math_Min x y = x \/ math_Min x y = y).
Proof.
  intros [Fx Vx] [Fy Vy]. pose proof (fltb_val x y Fx Fy Vx Vy) as Hlt.
  assert (E : math_Min x y = (if fltb x y then x else y) \/ (math_Min x y = x \/ math_Min x y = y) /\ (val x == val y)%Q).
  { destruct x as [sx| | |sx mx ex], y as [sy| | |sy my ey]; try done; try (by left). right. split; [by destruct sx; auto|done]. }
  destruct E as [->|[[->| ->] E]]; [destruct (fltb x y)|..]; (split_and!; [done|lra|lra|auto]).
Qed.

Lemma max_val x y : number x -> number y ->
  number (math_Max x y) /\ (val x <= val (math_Max x y))%Q /\ (val y <= val (math_Max x y))%Q /\
  (math_Max x y = x \/ math_Max x y = y).
Proof.
  intros [Fx Vx] [Fy Vy]. pose proof (fltb_val y x Fy Fx Vy Vx) as Hlt.
  assert (E : math_Max x y = (if fgtb x y then x else y) \/ (math_Max x y = x \/ math_Max x y = y) /\ (val x == val y)%Q).
  { destruct x as [sx| | |sx mx ex], y as [sy| | |sy my ey]; try done; try (by left). right. split; [by destruct sx; auto|done]. }
  unfold fgtb in E. change (SFltb y x) with (fltb y x) in E.
  destruct E as [->|[[->| ->] E]]; [destruct (fltb y x)|..]; (split_and!; [done|lra|lra|auto]).
Qed.
