(* ===== verification/BucketBounds.v ===== *)
(** * What the buckets admit over many requests

    The token bucket of internal/algorithm/tokenbucket and the leaky bucket of
    internal/algorithm/leakybucket keep a level in thousandths and the instant of its
    last update, and compute with doubles in between.  With [FloatError], each
    admission of a bucket moves its level as the real bucket would, up to a
    thousandth: over any period the buckets admit no more than their capacity, what
    flows in the period, and a thousandth for each admission.  Requests are served
    one at a time; [BucketRaces] shows that the buckets promise less to concurrent
    requests. *)

From Stdlib Require Import QArith Qabs Qpower Lqa.
From S2P Require Import Prelude GoString GoFloat GoTime Model Store Protocol Common MemoryStore CasLimit TokenBucket LeakyBucket Rounding FloatError.
Local Open Scope Z_scope.
Local Open Scope stdpp_scope.
Local Open Scope go_scope.

(** ** Constants *)

Lemma unit_roundoff_eq : (unit_roundoff == 1 # 9007199254740992)%Q.
Proof. by vm_compute. Qed.

Lemma underflow_tiny : (0 < underflow <= 1 # 1000000000000000)%Q.
Proof. split; [apply pow2_pos|]. by vm_compute. Qed.

(** A rate: a number that is not negative, and not astronomic. *)
Definition rate_ok (rate : float64) : Prop := number rate /\ (0 <= val rate <= pow2 500)%Q.

Lemma underflow_rate rate : rate_ok rate -> (0 <= underflow * val rate <= 1 # 1000000000000000)%Q.
Proof.
  intros [_ [H0 H1]]. pose proof (pow2_pos (-1074)) as Hp. fold underflow in Hp.
  assert (H : (underflow * pow2 500 <= 1 # 1000000000000000)%Q) by (by vm_compute). split; nra.
Qed.

Definition seconds (dt : Z) : Q := (inject_Z dt * (1 # 1000000000))%Q.

(** What flows at [rate] in [dt] nanoseconds. *)
Definition flow (rate : float64) (dt : Z) : Q := (val rate * seconds dt)%Q.

Lemma large_ok a : (a <= inject_Z (2 ^ 70) -> a < pow2 1000)%Q.
Proof. intros H. eapply Qle_lt_trans; [exact H|]. by vm_compute. Qed.

(** The time that has passed, in seconds. *)
Lemma elapsed_bounds dt : 0 <= dt <= maxInt64 ->
  let el := fdiv (float_of_Z dt) (float_of_Z Second) in
  number el /\ (0 <= val el <= seconds dt + (3 # 9007199254740992) * seconds dt + 2 * underflow)%Q.
Proof.
  intros Hdt el. pose proof underflow_tiny as Hu.
  pose proof (inject_le 0 dt ltac:(lia)) as H0. change (inject_Z 0) with 0%Q in H0.
  pose proof (inject_le dt (2 ^ 63) ltac:(unfold maxInt64 in Hdt; lia)) as H1. change (inject_Z (2 ^ 63)) with (9223372036854775808 # 1)%Q in H1.
  assert (Ha : approx (inject_Z dt) (float_of_Z dt)).
  { apply float_of_Z_approx. rewrite Qabs_pos by done. apply large_ok. change (inject_Z (2 ^ 70)) with (1180591620717411303424 # 1)%Q. lra. }
  destruct (approx_bounds _ _ Ha H0) as (Hf0 & _ & Hf1). apply approx_number in Ha as [Ff Vf]. rewrite unit_roundoff_eq in Hf1.
  destruct (float_of_Z_number_small Second ltac:(unfold Second; lia)) as [[Fs Vs] Es]. change (inject_Z Second) with (1000000000 # 1)%Q in Es.
  assert (Hq : (val (float_of_Z dt) / val (float_of_Z Second) == val (float_of_Z dt) * (1 # 1000000000))%Q) by (rewrite Es; field).
  assert (Hn : (0 <= val (float_of_Z dt) * (1 # 1000000000))%Q) by lra.
  assert (He : approx (val (float_of_Z dt) * (1 # 1000000000)) el).
  { rewrite <- Hq. apply fdiv_approx; [done|done|rewrite Es; done|]. rewrite Hq, Qabs_pos by done. apply large_ok.
    change (inject_Z (2 ^ 70)) with (1180591620717411303424 # 1)%Q. lra. }
  destruct (approx_bounds _ _ He Hn) as (He0 & _ & He1). rewrite unit_roundoff_eq in He1. split; [by eapply approx_number|].
  unfold seconds. lra.
Qed.

(** [elapsed], at least zero, times the rate. *)
Definition flowed (rate : float64) (dt : Z) : float64 :=
  let elapsed := fdiv (float_of_Z dt) (float_of_Z Second) in
  fmul (if fltb elapsed fzero then fzero else elapsed) rate.

Lemma flowed_bounds rate dt : rate_ok rate -> 0 <= dt <= maxInt64 ->
  number (flowed rate dt) /\ (0 <= flow rate dt)%Q /\ (flow rate dt <= pow2 600)%Q /\
  (0 <= val (flowed rate dt) <= flow rate dt + (5 # 9007199254740992) * flow rate dt + (5 # 1000000000000000))%Q.
Proof.
  intros Hr Hdt. destruct (elapsed_bounds dt Hdt) as (Hel & He0 & He1). unfold flowed, flow. cbv zeta.
  set (el := fdiv (float_of_Z dt) (float_of_Z Second)) in *. pose proof Hel as [Fe Ve]. pose proof Hr as [[Fr Vr] [Hr0 Hr1]].
  pose proof (underflow_rate rate Hr) as Hu. pose proof underflow_tiny as Ht.
  pose proof (fltb_val el fzero Fe eq_refl Ve eq_refl) as Hlt. change (val fzero) with 0%Q in Hlt. destruct (fltb el fzero); [lra|].
  assert (Hs0 : (0 <= seconds dt <= inject_Z (2 ^ 35))%Q).
  { unfold seconds. pose proof (inject_le 0 dt ltac:(lia)) as H0. change (inject_Z 0) with 0%Q in H0.
    pose proof (inject_le dt (2 ^ 63) ltac:(unfold maxInt64 in Hdt; lia)) as H1.
    change (inject_Z (2 ^ 63)) with (9223372036854775808 # 1)%Q in H1. change (inject_Z (2 ^ 35)) with (34359738368 # 1)%Q. lra. }
  assert (Hf0 : (0 <= val rate * seconds dt)%Q) by nra.
  assert (Hx0 : (0 <= val el * val rate)%Q) by nra.
  assert (Hx1 : (val el * val rate <= val rate * seconds dt + (3 # 9007199254740992) * (val rate * seconds dt)
                  + 2 * (underflow * val rate))%Q) by nra.
  assert (Hbig : (val rate * seconds dt <= pow2 600)%Q).
  { apply (Qle_trans _ (pow2 500 * inject_Z (2 ^ 35))); [|by vm_compute].
    by apply (Qmult_le_compat_nonneg _ _ _ _ (conj Hr0 Hr1) Hs0). }
  assert (Hp : approx (val el * val rate) (fmul el rate)).
  { apply fmul_approx; try done. rewrite Qabs_pos by done. eapply Qle_lt_trans; [exact Hx1|].
    apply (Qle_lt_trans _ (2 * pow2 600 + 1)); [lra|]. by vm_compute. }
  destruct (approx_bounds _ _ Hp Hx0) as (Hp0 & _ & Hp1). rewrite unit_roundoff_eq in Hp1.
  split_and!; [by eapply approx_number|done|done|done|]. lra.
Qed.

(** ** Thousandths *)

(** A count of thousandths, as a double. *)
Lemma milli_bounds M : 0 <= M <= 2 ^ 48 ->
  let a := fdiv (float_of_Z M) (float_of_Z 1000) in
  number a /\ (inject_Z M * (1 # 1000) - (1 # 30000) <= val a <= inject_Z M * (1 # 1000) + (1 # 30000))%Q /\ (0 <= val a)%Q.
Proof.
  intros HM a. pose proof underflow_tiny as Hu. destruct (float_of_Z_number_small M ltac:(lia)) as [[Fm Vm] Em].
  destruct (float_of_Z_number_small 1000 ltac:(lia)) as [[Fk Vk] Ek]. change (inject_Z 1000) with (1000 # 1)%Q in Ek.
  pose proof (inject_le 0 M ltac:(lia)) as H0. change (inject_Z 0) with 0%Q in H0.
  pose proof (inject_le M (2 ^ 48) ltac:(lia)) as H1. change (inject_Z (2 ^ 48)) with (281474976710656 # 1)%Q in H1.
  assert (Hq : (val (float_of_Z M) / val (float_of_Z 1000) == inject_Z M * (1 # 1000))%Q) by (rewrite Em, Ek; field).
  assert (Hn : (0 <= inject_Z M * (1 # 1000))%Q) by lra.
  assert (Ha : approx (inject_Z M * (1 # 1000)) a).
  { rewrite <- Hq. apply fdiv_approx; [done|done|rewrite Ek; done|]. rewrite Hq, Qabs_pos by done. apply large_ok.
    change (inject_Z (2 ^ 70)) with (1180591620717411303424 # 1)%Q. lra. }
  destruct (approx_bounds _ _ Ha Hn) as (H2 & H3 & H4). rewrite unit_roundoff_eq in H3, H4.
  split_and!; [by eapply approx_number|lra|lra|done].
Qed.

(** A level below [2^38], rounded to thousandths. *)
Lemma to_milli_bounds x : number x -> (0 <= val x <= inject_Z (2 ^ 38) + 1)%Q ->
  let M := int64_of_float (math_Round (fmul x (float_of_Z 1000))) in
  0 <= M <= 2 ^ 48 /\ (val x - (3 # 5000) <= inject_Z M * (1 # 1000) <= val x + (3 # 5000))%Q.
Proof.
  intros [Fx Vx] Hx M. pose proof underflow_tiny as Hu. change (inject_Z (2 ^ 38)) with (274877906944 # 1)%Q in Hx.
  destruct (float_of_Z_number_small 1000 ltac:(lia)) as [[Fk Vk] Ek]. change (inject_Z 1000) with (1000 # 1)%Q in Ek.
  assert (Hn : (0 <= val x * val (float_of_Z 1000))%Q) by (rewrite Ek; lra).
  assert (Hy : approx (val x * val (float_of_Z 1000)) (fmul x (float_of_Z 1000))).
  { apply fmul_approx; try done. rewrite Qabs_pos by done. apply large_ok. rewrite Ek.
    change (inject_Z (2 ^ 70)) with (1180591620717411303424 # 1)%Q. lra. }
  destruct (approx_bounds _ _ Hy Hn) as (H2 & H3 & H4). rewrite unit_roundoff_eq, Ek in H3, H4.
  destruct (approx_number _ _ Hy) as [Fy Vy].
  destruct (round_int _ (nonneg_of_val _ Fy H2) Fy Vy) as [HM Hr].
  { change (inject_Z (2 ^ 62)) with (4611686018427387904 # 1)%Q. lra. }
  fold M in HM, Hr. apply Qabs_Qle_condition in Hr. split; [split; [done|]|lra].
  enough (M < 2 ^ 48) by lia. apply inject_lt_inv. change (inject_Z (2 ^ 48)) with (281474976710656 # 1)%Q. lra.
Qed.

(** A cost, as a double; it is exact when it fits in a level below [2^38]. *)
Lemma cost_bounds cost : 0 < cost <= maxInt64 ->
  number (float_of_Z cost) /\ (0 <= val (float_of_Z cost))%Q /\ (val (float_of_Z cost) <= 18446744073709551616 # 1)%Q /\
  ((val (float_of_Z cost) <= 274877906946 # 1)%Q -> (val (float_of_Z cost) == inject_Z cost)%Q).
Proof.
  intros Hc. pose proof underflow_tiny as Hu.
  pose proof (inject_le 0 cost ltac:(lia)) as H0. change (inject_Z 0) with 0%Q in H0.
  pose proof (inject_le cost (2 ^ 63) ltac:(unfold maxInt64 in Hc; lia)) as H1.
  change (inject_Z (2 ^ 63)) with (9223372036854775808 # 1)%Q in H1.
  assert (Ha : approx (inject_Z cost) (float_of_Z cost)).
  { apply float_of_Z_approx. rewrite Qabs_pos by done. apply large_ok.
    change (inject_Z (2 ^ 70)) with (1180591620717411303424 # 1)%Q. lra. }
  destruct (approx_bounds _ _ Ha H0) as (H2 & H3 & H4). rewrite unit_roundoff_eq in H3, H4.
  split_and!; [by eapply approx_number|done|lra|]. intros Hs.
  apply float_of_Z_number_small. enough (cost < 2 ^ 53) by lia.
  apply inject_lt_inv. change (inject_Z (2 ^ 53)) with (9007199254740992 # 1)%Q. lra.
Qed.

Lemma cost_fits cost x : 0 < cost <= maxInt64 -> (val x <= inject_Z (2 ^ 38) + 1)%Q -> number x ->
  fltb x (float_of_Z cost) = false ->
  number (float_of_Z cost) /\ (val (float_of_Z cost) == inject_Z cost)%Q /\ (inject_Z cost <= val x)%Q.
Proof.
  intros Hc Hx [Fx Vx] Hlt. change (inject_Z (2 ^ 38)) with (274877906944 # 1)%Q in Hx.
  destruct (cost_bounds cost Hc) as ([Fc Vc] & _ & _ & E).
  pose proof (fltb_val x (float_of_Z cost) Fx Fc Vx Vc) as Hl. rewrite Hlt in Hl. specialize (E ltac:(lra)).
  split_and!; [done|done|]. by rewrite <- E.
Qed.

Lemma UnixNano_small now : 0 <= now <= maxInt64 -> UnixNano now = now.
Proof. intros H. unfold UnixNano. unfold maxInt64 in H. unwrap. lia. Qed.

Lemma sub_small a b : 0 <= b <= a -> a <= maxInt64 -> a -! b = a - b.
Proof. intros H H'. unfold maxInt64 in H'. unwrap. lia. Qed.

(** ** One request at the token bucket *)

(** The tokens there are: never more than the capacity, and never more than what was
    left and what flowed in since, up to the rounding. *)
Lemma refilled_bounds cap rate M last now :
  0 < cap < 2 ^ 38 -> rate_ok rate -> 0 <= M <= 2 ^ 48 -> 0 <= last <= now -> now <= maxInt64 ->
  let c := refilled cap rate M last now in
  number c /\ (val c <= inject_Z cap)%Q /\
  (last <> 0 -> (val c <= inject_Z M * (1 # 1000) + flow rate (now - last) + (1 # 4000))%Q).
Proof.
  intros Hcap Hr HM Hl Hn c. pose proof underflow_tiny as Hu.
  destruct (float_of_Z_number_small cap ltac:(lia)) as [Nc Ec].
  pose proof (inject_lt 0 cap ltac:(lia)) as Hc0. change (inject_Z 0) with 0%Q in Hc0.
  pose proof (inject_lt cap (2 ^ 38) ltac:(lia)) as Hc1. change (inject_Z (2 ^ 38)) with (274877906944 # 1)%Q in Hc1.
  set (cur := if last =? 0 then float_of_Z cap else fdiv (float_of_Z M) (float_of_Z 1000)).
  set (dt := if last =? 0 then 0 else now - last).
  assert (Hdt : 0 <= dt <= maxInt64) by (unfold dt; destruct (last =? 0); unfold maxInt64 in *; lia).
  assert (E : c = math_Min (float_of_Z cap) (fadd cur (flowed rate dt))).
  { unfold c, refilled, cur, dt, flowed. rewrite UnixNano_small by lia.
    destruct (last =? 0); cbv zeta; [rewrite (sub_small now now) by lia; by rewrite Z.sub_diag|by rewrite sub_small by lia]. }
  destruct (flowed_bounds rate dt Hr Hdt) as (Np & Hf0 & Hf1 & Hp0 & Hp1).
  destruct (milli_bounds M HM) as (Na & Ha & Ha0).
  assert (Hcur : number cur /\ (0 <= val cur <= 281474976711 # 1)%Q).
  { pose proof (inject_le M (2 ^ 48) ltac:(lia)) as H48. change (inject_Z (2 ^ 48)) with (281474976710656 # 1)%Q in H48.
    unfold cur. destruct (last =? 0); (split; [done|]); [rewrite Ec|]; lra. }
  destruct Hcur as [Nk Hk]. pose proof Nk as [Fk Vk]. pose proof Np as [Fp Vp].
  assert (Hs0 : (0 <= val cur + val (flowed rate dt))%Q) by lra.
  assert (Hs : approx (val cur + val (flowed rate dt)) (fadd cur (flowed rate dt))).
  { apply fadd_approx; try done. rewrite Qabs_pos by done. apply (Qle_lt_trans _ (2 * pow2 600 + (281474976712 # 1))); [lra|].
    by vm_compute. }
  destruct (approx_bounds _ _ Hs Hs0) as (_ & _ & Hs1). rewrite unit_roundoff_eq in Hs1.
  destruct (min_val (float_of_Z cap) (fadd cur (flowed rate dt)) Nc ltac:(by eapply approx_number)) as (Nm & Hm1 & Hm2 & _).
  rewrite E. split; [done|]. split; [by rewrite <- Ec|]. intros Hlast. rewrite Ec in Hm1. revert Hm1 Hm2 Hs1 Hp1 Hf0 Hk.
  unfold cur, dt. rewrite (proj2 (Z.eqb_neq last 0) Hlast). intros Hm1 Hm2 Hs1 Hp1 Hf0 Hk.
  destruct (Qlt_le_dec (inject_Z cap) (flow rate (now - last))) as [H|H]; [|lra].
  pose proof (inject_le 0 M ltac:(lia)) as HM0. change (inject_Z 0) with 0%Q in HM0. lra.
Qed.

(** What an admission leaves. *)
Lemma taken_bounds cap c cost :
  cap < 2 ^ 38 -> number c -> (val c <= inject_Z cap)%Q -> 0 < cost <= maxInt64 -> fltb c (float_of_Z cost) = false ->
  let M := int64_of_float (math_Round (fmul (fsub c (float_of_Z cost)) (float_of_Z 1000))) in
  0 <= M <= 2 ^ 48 /\ (inject_Z M * (1 # 1000) + inject_Z cost <= val c + (3 # 4000))%Q.
Proof.
  intros Hcap Nc Hc Hcost Hlt M. pose proof underflow_tiny as Hu.
  pose proof (inject_le cap (2 ^ 38) ltac:(lia)) as Hc1.
  destruct (cost_fits cost c Hcost ltac:(lra) Nc Hlt) as (Nk & Ek & Hk). change (inject_Z (2 ^ 38)) with (274877906944 # 1)%Q in Hc1.
  pose proof (inject_lt 0 cost ltac:(lia)) as H0. change (inject_Z 0) with 0%Q in H0.
  assert (Hn : (0 <= val c - val (float_of_Z cost))%Q) by (rewrite Ek; lra).
  assert (Hs : approx (val c - val (float_of_Z cost)) (fsub c (float_of_Z cost))).
  { destruct Nc, Nk. apply fsub_approx; try done. rewrite Qabs_pos by done. apply large_ok. rewrite Ek.
    change (inject_Z (2 ^ 70)) with (1180591620717411303424 # 1)%Q. lra. }
  destruct (approx_bounds _ _ Hs Hn) as (H1 & _ & H2). rewrite unit_roundoff_eq, Ek in H2.
  destruct (to_milli_bounds _ (approx_number _ _ Hs)) as [HM HMv].
  { split; [done|]. change (inject_Z (2 ^ 38)) with (274877906944 # 1)%Q. lra. }
  fold M in HM, HMv. split; [done|]. lra.
Qed.

(** ** One request at the leaky bucket *)

(** The level after the leak. *)
Definition drained (rate : float64) (M dt : Z) : float64 :=
  math_Max fzero (fsub (fdiv (float_of_Z M) (float_of_Z 1000)) (flowed rate dt)).

Lemma drained_bounds rate M dt : rate_ok rate -> 0 <= M <= 2 ^ 48 -> 0 <= dt <= maxInt64 ->
  number (drained rate M dt) /\ (0 <= val (drained rate M dt) <= pow2 700)%Q /\
  (inject_Z M * (1 # 1000) - flow rate dt - (1 # 4000) <= val (drained rate M dt))%Q.
Proof.
  intros Hr HM Hdt. pose proof underflow_tiny as Hu. unfold drained.
  destruct (flowed_bounds rate dt Hr Hdt) as (Np & Hf0 & Hf1 & Hp0 & Hp1). destruct (milli_bounds M HM) as (Na & Ha & Ha0).
  set (a := fdiv (float_of_Z M) (float_of_Z 1000)) in *. set (p := flowed rate dt) in *.
  pose proof (inject_le M (2 ^ 48) ltac:(lia)) as H48. change (inject_Z (2 ^ 48)) with (281474976710656 # 1)%Q in H48.
  assert (Hbig : (Qabs (val a - val p) <= (281474976712 # 1) + 2 * pow2 600)%Q) by (apply Qabs_Qle_condition; lra).
  assert (Hd : approx (val a - val p) (fsub a p)).
  { destruct Na, Np. apply fsub_approx; try done. eapply Qle_lt_trans; [exact Hbig|]. by vm_compute. }
  pose proof (approx_number _ _ Hd) as Nd. pose proof (ap_close _ _ Hd) as Hc. rewrite unit_roundoff_eq in Hc.
  apply Qabs_Qle_condition in Hc.
  destruct (max_val fzero (fsub a p) (conj eq_refl eq_refl) Nd) as (Nm & Hm0 & Hm1 & Hm2). change (val fzero) with 0%Q in Hm0.
  split; [done|]. split; [split; [done|]|].
  - assert (Hv : (val (fsub a p) <= pow2 700)%Q).
    { apply (Qle_trans _ (2 * ((281474976712 # 1) + 2 * pow2 600) + 1)); [lra|]. by vm_compute. }
    destruct Hm2 as [-> | ->]; [by vm_compute|done].
  - destruct (Qlt_le_dec (flow rate dt) (inject_Z M * (1 # 1000))) as [H|H]; [|lra].
    destruct (Qlt_le_dec (val a - val p) 0) as [H'|H']; [lra|]. rewrite Qabs_pos in Hc by done. lra.
Qed.

(** What an admission stores. *)
Lemma leaked_bounds limit rate cost M last now :
  0 < limit < 2 ^ 38 -> rate_ok rate -> 0 < cost <= maxInt64 -> 0 <= M <= 2 ^ 48 -> 0 <= last <= now -> now <= maxInt64 ->
  let c := leaked rate cost M last now in
  fgtb c (float_of_Z limit) = false ->
  let M' := int64_of_float (math_Round (fmul c (float_of_Z 1000))) in
  0 <= M' <= 2 ^ 48 /\
  (inject_Z M' * (1 # 1000) <= inject_Z limit + (1 # 1000))%Q /\
  (inject_Z cost <= inject_Z M' * (1 # 1000) + (1 # 1000))%Q /\
  (last <> 0 -> (inject_Z M * (1 # 1000) - flow rate (now - last) + inject_Z cost <= inject_Z M' * (1 # 1000) + (1 # 1000))%Q).
Proof.
  intros Hlim Hr Hcost HM Hl Hn c Hgt M'. pose proof underflow_tiny as Hu.
  destruct (float_of_Z_number_small limit ltac:(lia)) as [[Fl Vl] El].
  pose proof (inject_lt limit (2 ^ 38) ltac:(lia)) as Hc1. change (inject_Z (2 ^ 38)) with (274877906944 # 1)%Q in Hc1.
  set (dt := if last =? 0 then 0 else now - last).
  assert (Hdt : 0 <= dt <= maxInt64) by (unfold dt; destruct (last =? 0); unfold maxInt64 in *; lia).
  assert (E : c = fadd (drained rate M dt) (float_of_Z cost)).
  { unfold c, leaked, drained, dt, flowed. rewrite (UnixNano_small now ltac:(lia)).
    destruct (last =? 0); cbv zeta; [rewrite (sub_small now now) by lia; by rewrite Z.sub_diag|by rewrite sub_small by lia]. }
  destruct (drained_bounds rate M dt Hr HM Hdt) as (Nm & [Hm0 Hm1] & Hm2).
  destruct (cost_bounds cost Hcost) as (Nk & Hk0 & Hk1 & Hk2).
  set (m := drained rate M dt) in *. set (k := float_of_Z cost) in *.
  assert (Hs0 : (0 <= val m + val k)%Q) by lra.
  assert (Hs : approx (val m + val k) c).
  { rewrite E. destruct Nm, Nk. apply fadd_approx; try done. rewrite Qabs_pos by done.
    apply (Qle_lt_trans _ (pow2 700 + (18446744073709551616 # 1))); [lra|]. by vm_compute. }
  destruct (approx_bounds _ _ Hs Hs0) as (Hv0 & Hv1 & _). rewrite unit_roundoff_eq in Hv1. destruct (approx_number _ _ Hs) as [Fc Vc].
  pose proof (fltb_val (float_of_Z limit) c Fl Fc Vl Vc) as Hlt. change (fltb (float_of_Z limit) c = false) in Hgt. rewrite Hgt, El in Hlt.
  specialize (Hk2 ltac:(lra)).
  destruct (to_milli_bounds c (conj Fc Vc)) as [HM' HMv].
  { split; [done|]. change (inject_Z (2 ^ 38)) with (274877906944 # 1)%Q. lra. }
  fold M' in HM', HMv. rewrite Hk2 in Hv1. split; [done|]. split_and!; [lra|lra|].
  intros Hlast. revert Hm2. unfold dt. rewrite (proj2 (Z.eqb_neq last 0) Hlast). intros Hm2. lra.
Qed.

(** ** Many requests *)

Lemma held_wait w d k : 0 <= d ->
  held {| w_clock := w_clock w + d; w_store := w_store w |} k
  = if expired (w_clock w + d) (held w k) then zeroItem else held w k.
Proof.
  intros Hd. unfold held. cbn [w_clock w_store]. unfold live_item.
  destruct (expired (w_clock w) _) eqn:E; [|done]. by rewrite (expired_later (w_clock w)) by (done || lia).
Qed.

Lemma held_sweep w k : wf_store (w_store w) ->
  held {| w_clock := w_clock w; w_store := sweep (w_clock w) (w_store w) |} k = held w k.
Proof. intros Hwf. unfold held. cbn [w_clock w_store]. rewrite sweep_view by done. by apply live_item_sweep. Qed.

Lemma sweep_wf now m : wf_store m -> wf_store (sweep now m).
Proof. unfold wf_store. simpl. by rewrite length_fmap. Qed.

(** A request with its cost. *)
Definition bucket_client (eval : RequestContext -> prog (result Decision)) (cfg : AlgorithmConfig) (req : RequestContext)
    : prog (int64 * result Decision) :=
  r ← eval req; mret (Cost req cfg, r).

(** The cost an answer admits, and whether it admits at all. *)
Definition spent (reason : string) (a : option (int64 * result Decision)) : Z :=
  match a with Some (cost, Ok d) => if String.eqb (dec_Reason d) reason then cost else 0 | _ => 0 end.
Definition admissions (reason : string) (a : option (int64 * result Decision)) : Z :=
  match a with Some (_, Ok d) => if String.eqb (dec_Reason d) reason then 1 else 0 | _ => 0 end.

(** Requests, time going forward, sweeps. *)
Inductive bucket_event (client : RequestContext -> prog (int64 * result Decision)) (cfg : AlgorithmConfig)
    : event (int64 * result Decision) -> Prop :=
| bk_serve req : Cost req cfg <= maxInt64 -> bucket_event client cfg (Serve (client req))
| bk_wait d : 0 <= d -> bucket_event client cfg (Wait d)
| bk_sweep : bucket_event client cfg Sweep.

Lemma memory_run_clock {A} (p : prog A) w : w_clock (run memory p w).2 = w_clock w.
Proof.
  revert w. induction p as [a|R op f IH]; intros w; cbn [run]; [done|]. pose proof (memory_clock op w) as Hc.
  destruct (memory R op w) as [r w1]. by rewrite IH.
Qed.

Lemma event_clock client cfg e w : bucket_event client cfg e -> w_clock w <= w_clock (play1 e w).2.
Proof.
  intros [req _|d Hd|]; cbn [play1]; [|simpl; lia|simpl; lia].
  pose proof (memory_run_clock (client req) w) as H. destruct (run memory (client req) w). simpl in *. lia.
Qed.

Lemma events_clock client cfg es w : Forall (bucket_event client cfg) es -> w_clock w <= w_clock (play es w).2.
Proof.
  intros H. revert w. induction H as [|e es He _ IH]; intros w; cbn [play]; [simpl; lia|].
  pose proof (event_clock client cfg e w He) as H1. destruct (play1 e w) as [a w1]. specialize (IH w1).
  destruct (play es w1). simpl in *. lia.
Qed.

(** What a bucket keeps between requests, under its two keys: a level and the instant
    of its last update. *)
Record bucket_state (k1 k2 : string) (w : World) : Prop := {
  bs_wf : wf_store (w_store w);
  bs_clock : 0 < w_clock w;
  bs_level : 0 <= counter_value w k1 <= 2 ^ 48;
  bs_last : 0 <= counter_value w k2 <= w_clock w
}.

(** What one request does to a bucket that holds up to [cap], fills at [rate] and has
    [room M] to give at the level [M]: nothing, or an admission that takes its cost out
    of the room, to a thousandth. *)
Definition bucket_step (k1 k2 : string) (ttl : Duration) (reason : string) (cap : Q) (rate : float64) (room : Z -> Q)
    (w : World) (a : int64 * result Decision) (w' : World) : Prop :=
  let now := w_clock w in
  (spent reason (Some a) = 0 /\ admissions reason (Some a) = 0 /\ unchanged w w') \/
  (admissions reason (Some a) = 1 /\ exists M w1,
     writes w w1 k1 M ttl /\ writes w1 w' k2 now ttl /\ 0 <= M <= 2 ^ 48 /\ (0 <= room M)%Q /\
     (room M + inject_Z (spent reason (Some a)) <= cap + (1 # 1000))%Q /\
     (counter_value w k2 <> 0 ->
      (room M + inject_Z (spent reason (Some a))
        <= room (counter_value w k1) + flow rate (now - counter_value w k2) + (1 # 1000))%Q)).

Section Metered.
Context (k1 k2 : string) (ttl : Duration) (reason : string) (cap : Q) (rate : float64) (room : Z -> Q).
Context (client : RequestContext -> prog (int64 * result Decision)) (cfg : AlgorithmConfig) (t0 horizon : Time).
Hypothesis keys_ne : k1 <> k2.
Hypothesis ttl_pos : 0 < ttl.
Hypothesis rate_nonneg : (0 <= val rate)%Q.
Hypothesis cap_nonneg : (0 <= cap)%Q.
Hypothesis horizon_max : horizon <= maxInt64.
Hypothesis refills : horizon - t0 <= ttl \/ (cap <= flow rate ttl)%Q.
Hypothesis serves : forall req w a w',
  Cost req cfg <= maxInt64 -> bucket_state k1 k2 w -> w_clock w <= maxInt64 ->
  run memory (client req) w = (a, w') -> bucket_step k1 k2 ttl reason cap rate room w a w'.

(** After [n] admissions of [A] units in all since [t0]: none yet, or the last of them
    at [last] left the level [M], which is there until its life ends. *)
Inductive metered (w : World) (A n : Z) : Prop :=
| mt_idle : A = 0 -> n = 0 -> t0 <= w_clock w -> metered w A n
| mt_busy last M :
    t0 <= last <= w_clock w -> 0 < last -> (0 <= room M)%Q ->
    (inject_Z A + room M <= cap + flow rate (last - t0) + inject_Z n * (1 # 1000))%Q ->
    (held w k1 = {| vi_value := M; vi_expiry := last + ttl |} /\ held w k2 = {| vi_value := last; vi_expiry := last + ttl |} \/
     last + ttl < w_clock w /\ held w k1 = zeroItem /\ held w k2 = zeroItem) ->
    metered w A n.

Lemma flow_add a b : (flow rate (a + b) == flow rate a + flow rate b)%Q.
Proof. unfold flow, seconds. rewrite inject_Z_plus. ring. Qed.

Lemma flow_mono a b : a <= b -> (flow rate a <= flow rate b)%Q.
Proof.
  intros H. unfold flow, seconds. pose proof (inject_le a b H).
  enough (val rate * (inject_Z a * (1 # 1000000000)) <= val rate * (inject_Z b * (1 # 1000000000)))%Q by done. nra.
Qed.

Lemma held_state w w' : bucket_state k1 k2 w -> wf_store (w_store w') -> w_clock w <= w_clock w' ->
  (forall k, held w' k = held w k \/ held w' k = zeroItem) -> bucket_state k1 k2 w'.
Proof.
  intros [Hwf Hc H1 H2] Hwf' Hc' Hh. split; [done|lia| |].
  - destruct (Hh k1) as [E|E]; apply (f_equal vi_value) in E; unfold counter_value in *; unfold held in E; rewrite E; [done|].
    cbn. lia.
  - destruct (Hh k2) as [E|E]; apply (f_equal vi_value) in E; unfold counter_value in *; unfold held in E; rewrite E; [lia|].
    cbn. lia.
Qed.

Lemma metered_wait w A n d : 0 <= d -> metered w A n -> metered {| w_clock := w_clock w + d; w_store := w_store w |} A n.
Proof.
  intros Hd [HA Hn Hc|last M Hl Hp Hr Hs Hh]; [by apply mt_idle; [..|simpl; lia]|].
  apply (mt_busy _ _ _ last M); [simpl; lia|done..|]. rewrite !held_wait by done. cbn [w_clock].
  destruct Hh as [[-> ->]|(Hx & -> & ->)]; [|right; split_and!; [lia|done..]].
  unfold expired. cbn [vi_expiry]. unfold IsZero, After. destruct (last + ttl =? zeroTime) eqn:E; zify_bool; [by left|].
  cbn [negb andb]. destruct (last + ttl <? w_clock w + d) eqn:E'; zify_bool; [by right|by left].
Qed.

Lemma metered_same w w' A n : w_clock w' = w_clock w -> (forall k, held w' k = held w k) -> metered w A n -> metered w' A n.
Proof.
  intros Hc Hh [HA Hn H|last M Hl Hp Hr Hs H]; [apply mt_idle; [done..|by rewrite Hc]|].
  apply (mt_busy _ _ _ last M); [by rewrite Hc|done..|]. by rewrite !Hh, Hc.
Qed.

(** An admission after [A] units: of the level that the last one left, or of a bucket
    that starts again. *)
Lemma metered_room w A n M cost : metered w A n -> w_clock w <= horizon ->
  (room M + inject_Z cost <= cap + (1 # 1000))%Q ->
  (counter_value w k2 <> 0 ->
   (room M + inject_Z cost <= room (counter_value w k1) + flow rate (w_clock w - counter_value w k2) + (1 # 1000))%Q) ->
  (inject_Z (A + cost) + room M <= cap + flow rate (w_clock w - t0) + inject_Z (n + 1) * (1 # 1000))%Q.
Proof.
  intros Hm Hh Hfull Hleft. rewrite !inject_Z_plus. change (inject_Z 1) with 1%Q.
  destruct Hm as [-> -> Hc|last M0 Hl Hp Hr Hs [[E1 E2]|(Hx & E1 & E2)]].
  - pose proof (flow_mono 0 (w_clock w - t0) ltac:(lia)) as Hf. change (inject_Z 0) with 0%Q.
    assert (H0 : (flow rate 0 == 0)%Q) by (unfold flow, seconds; change (inject_Z 0) with 0%Q; ring). lra.
  - apply (f_equal vi_value) in E1, E2. cbn [vi_value] in E1, E2.
    change (counter_value w k1 = M0) in E1. change (counter_value w k2 = last) in E2. rewrite E1, E2 in Hleft.
    specialize (Hleft ltac:(lia)). pose proof (flow_add (last - t0) (w_clock w - last)) as Hf.
    replace (last - t0 + (w_clock w - last)) with (w_clock w - t0) in Hf by lia. lra.
  - destruct refills as [H|H]; [lia|].
    pose proof (flow_mono ttl (w_clock w - last) ltac:(lia)) as Hf'. pose proof (flow_add (last - t0) (w_clock w - last)) as Hf.
    replace (last - t0 + (w_clock w - last)) with (w_clock w - t0) in Hf by lia. lra.
Qed.

Lemma metered_serve req w a w' A n :
  Cost req cfg <= maxInt64 -> bucket_state k1 k2 w -> w_clock w <= horizon -> metered w A n ->
  run memory (client req) w = (a, w') ->
  w_clock w' = w_clock w /\ bucket_state k1 k2 w' /\
  metered w' (A + spent reason (Some a)) (n + admissions reason (Some a)).
Proof.
  intros Hcost Hst Hh Hm Hrun. destruct (serves req w a w' Hcost Hst ltac:(lia) Hrun) as [(-> & -> & Hu)|(-> & M & w1 & Hadm)].
  - destruct Hu as (Hwf & Hc & Hk). rewrite !Z.add_0_r. split_and!; [done| |by apply (metered_same w)].
    apply (held_state w w' Hst Hwf); [lia|by left].
  - destruct Hadm as (H1 & H2 & HM & Hr & Hfull & Hleft). destruct Hst as [Hwf Hc HL HT].
    pose proof (metered_room w A n M _ Hm Hh Hfull Hleft) as Hsum. destruct (two_writes _ _ _ _ _ _ _ _ _ keys_ne H1 H2) as (E1 & E2 & _).
    destruct H1 as (_ & Hc1 & V1 & X1 & O1), H2 as (Hwf2 & Hc2 & V2 & X2 & O2). specialize (X1 ttl_pos). specialize (X2 ttl_pos).
    rewrite <- (O2 k1 keys_ne) in V1, X1. split_and!; [congruence|split; [done|lia|by rewrite E1|rewrite E2; lia]|].
    apply (mt_busy _ _ _ (w_clock w) M); [|done|done|done|left].
    + destruct Hm; lia.
    + destruct (held w' k1), (held w' k2). simpl in *. subst. split; f_equal; congruence.
Qed.

Lemma metered_total w A n : metered w A n -> w_clock w <= horizon ->
  (inject_Z A <= cap + flow rate (horizon - t0) + inject_Z n * (1 # 1000))%Q.
Proof.
  intros Hm Hh. assert (H0 : (flow rate 0 == 0)%Q) by (unfold flow, seconds; change (inject_Z 0) with 0%Q; ring).
  destruct Hm as [-> -> Hc|last M Hl Hp Hr Hs _].
  - pose proof (flow_mono 0 (horizon - t0) ltac:(lia)). change (inject_Z 0) with 0%Q. lra.
  - pose proof (flow_mono (last - t0) (horizon - t0) ltac:(lia)). lra.
Qed.

Lemma metered_play es w A n :
  Forall (bucket_event client cfg) es -> bucket_state k1 k2 w -> metered w A n -> w_clock (play es w).2 <= horizon ->
  (inject_Z (A + sumZ (spent reason <$> (play es w).1))
    <= cap + flow rate (horizon - t0) + inject_Z (n + sumZ (admissions reason <$> (play es w).1)) * (1 # 1000))%Q.
Proof.
  intros Hes. revert w A n. induction Hes as [|e es He Hes IH]; intros w A n Hst Hm Hh; cbn [play] in *.
  { cbn. rewrite !Z.add_0_r. by apply (metered_total w). }
  destruct (play1 e w) as [a w1] eqn:E1. pose proof (event_clock _ _ e w He) as Hc1. pose proof (events_clock _ _ es w1 Hes) as Hc2.
  rewrite E1 in Hc1. specialize (IH w1 (A + spent reason a) (n + admissions reason a)).
  destruct (play es w1) as [l w2]. cbn [fst snd] in *. rewrite !fmap_cons. cbn [sumZ foldr]. rewrite !Z.add_assoc.
  enough (bucket_state k1 k2 w1 /\ metered w1 (A + spent reason a) (n + admissions reason a)) as [H1 H2] by by apply IH.
  destruct He as [req Hcost|d Hd|]; cbn [play1] in E1.
  - destruct (run memory (client req) w) as [a' w1'] eqn:Er. injection E1 as <- <-.
    by destruct (metered_serve req w a' w1' A n Hcost Hst ltac:(lia) Hm Er) as (_ & H1 & H2).
  - injection E1 as <- <-. rewrite !Z.add_0_r. split; [|by apply metered_wait].
    apply (held_state w _ Hst); [apply Hst|done|]. intros k. rewrite held_wait by done. by case_match; [right|left].
  - injection E1 as <- <-. pose proof (bs_wf _ _ _ Hst) as Hwf. rewrite !Z.add_0_r. split.
    + apply (held_state w _ Hst); [by apply sweep_wf|done|]. intros k. left. by apply held_sweep.
    + apply (metered_same w); [done| |done]. intros k. by apply held_sweep.
Qed.
End Metered.

(** ** The bounds *)

Definition wall : Clock := {| clk_Now := None; clk_Loc := 0 |}.

Definition token_client (policy : Policy) (key : string) : RequestContext -> prog (int64 * result Decision) :=
  bucket_client (fun req => TokenBucket.Evaluate wall policy req key) (pol_Algorithm policy).

Definition leaky_client (policy : Policy) (key : string) : RequestContext -> prog (int64 * result Decision) :=
  bucket_client (fun req => LeakyBucket.Evaluate wall policy req key) (pol_Algorithm policy).

Lemma run_bucket_client eval cfg req w :
  run memory (bucket_client eval cfg req) w = ((Cost req cfg, (run memory (eval req) w).1), (run memory (eval req) w).2).
Proof. unfold bucket_client, mbind, prog_mbind. rewrite run_bind. by destruct (run memory (eval req) w). Qed.

Lemma bucket_capacity_pos cfg : 0 < bucket_capacity cfg.
Proof. unfold bucket_capacity. zcases. Qed.

Lemma token_serves policy key req w a w' :
  let cfg := pol_Algorithm policy in
  bucket_capacity cfg < 2 ^ 38 -> rate_ok (refill_rate cfg) -> Cost req cfg <= maxInt64 ->
  bucket_state (tokensKey key) (tsKey key) w -> w_clock w <= maxInt64 ->
  run memory (token_client policy key req) w = (a, w') ->
  bucket_step (tokensKey key) (tsKey key) bucket_ttl "token_available" (inject_Z (bucket_capacity cfg)) (refill_rate cfg)
    (fun M => inject_Z M * (1 # 1000))%Q w a w'.
Proof.
  intros cfg Hcap Hr Hcost [Hwf Hc HL HT] Hmax Hrun. pose proof (Cost_pos req cfg) as Hpos. pose proof (bucket_capacity_pos cfg) as Hc0.
  unfold token_client in Hrun. rewrite run_bucket_client in Hrun. fold cfg in Hrun.
  pose proof (token_bucket_run wall policy req key w Hwf) as H. cbv zeta in H. cbn [clk_Now wall default from_option] in H. fold cfg in H.
  destruct (run memory _ w) as [r w1]. injection Hrun as <- <-. cbn [fst snd] in *.
  destruct (refilled_bounds (bucket_capacity cfg) (refill_rate cfg) _ _ (w_clock w) ltac:(lia) Hr HL HT Hmax) as (Nc & Hb1 & Hb2).
  destruct (fltb _ (float_of_Z (Cost req cfg))) eqn:E.
  - destruct H as [-> Hu]. by left.
  - destruct H as (-> & w2 & H1 & H2). right. split; [done|].
    destruct (taken_bounds _ _ (Cost req cfg) Hcap Nc Hb1 ltac:(lia) E) as [HM HMv].
    rewrite UnixNano_small in H2 by lia. eexists _, w2. split_and!; [exact H1|exact H2|lia|lia|..]; cbv beta;
      change (spent _ (Some (Cost req cfg, Ok (allowed _ _ _)))) with (Cost req cfg).
    + pose proof (inject_le 0 _ (proj1 HM)) as H0. change (inject_Z 0) with 0%Q in H0. lra.
    + lra.
    + intros Hts. specialize (Hb2 Hts). lra.
Qed.

Lemma leaky_serves policy key req w a w' :
  let cfg := pol_Algorithm policy in
  effective_limit cfg < 2 ^ 38 -> rate_ok (leak_rate cfg) -> Cost req cfg <= maxInt64 ->
  bucket_state (levelKey key) (levelTsKey key) w -> w_clock w <= maxInt64 ->
  run memory (leaky_client policy key req) w = (a, w') ->
  bucket_step (levelKey key) (levelTsKey key) (level_ttl (WindowDuration cfg)) "within_leaky_bucket"
    (inject_Z (effective_limit cfg) + (1 # 1000)) (leak_rate cfg)
    (fun M => inject_Z (effective_limit cfg) + (1 # 1000) - inject_Z M * (1 # 1000))%Q w a w'.
Proof.
  intros cfg Hcap Hr Hcost [Hwf Hc HL HT] Hmax Hrun. pose proof (Cost_pos req cfg) as Hpos. pose proof (effective_limit_pos cfg) as Hc0.
  unfold leaky_client in Hrun. rewrite run_bucket_client in Hrun. fold cfg in Hrun.
  pose proof (leaky_bucket_run wall policy req key w Hwf) as H. cbv zeta in H. cbn [clk_Now wall default from_option] in H. fold cfg in H.
  destruct (run memory _ w) as [r w1]. injection Hrun as <- <-. cbn [fst snd] in *.
  destruct (fgtb _ (float_of_Z (effective_limit cfg))) eqn:E.
  - destruct H as [-> Hu]. by left.
  - destruct H as (-> & w2 & H1 & H2). right. split; [done|].
    destruct (leaked_bounds (effective_limit cfg) (leak_rate cfg) (Cost req cfg) _ _ (w_clock w) ltac:(lia) Hr ltac:(lia) HL HT Hmax E)
      as (HM & Hb1 & Hb2 & Hb3).
    rewrite UnixNano_small in H2 by lia. eexists _, w2. split_and!; [exact H1|exact H2|lia|lia|..]; cbv beta;
      change (spent _ (Some (Cost req cfg, Ok (allowed _ _ _)))) with (Cost req cfg).
    + lra.
    + lra.
    + intros Hts. specialize (Hb3 Hts). lra.
Qed.


Lemma level_ttl_pos window : 0 < level_ttl window.
Proof. unfold level_ttl, Hour. zcases. Qed.


(** ** Examples *)

Definition token_events : list (event (int64 * result Decision)) :=
  let serve n := Serve (token_client (tb_policy 10 "1s") "k" (mkRequest n)) in
  [serve 7; serve 3; serve 1; Wait (Second / 5); serve 3; Sweep; serve 2].


Definition leaky_events : list (event (int64 * result Decision)) :=
  let serve n := Serve (leaky_client (lb_policy 5) "k" (mkRequest n)) in
  [serve 5; serve 1; Wait (2 * Second); serve 3; Sweep; serve 2].


(** A bucket that takes longer to refill than an idle one is kept: two hours and a
    second after it was emptied it is full again, where the refill has brought two
    tokens of the twenty-four a day. *)
Example slow_bucket_forgotten :
  let serve n := Serve (token_client (tb_policy 24 "day") "k" (mkRequest n)) in
  spent "token_available" <$> (play [serve 24; Wait (2 * Hour); serve 3; Wait Second; serve 24] tb_world).1
  = [24; 0; 0; 0; 24].
Proof. by vm_compute. Qed.
