(* ===== verification/BucketRaces.v ===== *)
(** * Concurrent requests at the buckets and at the sliding log

    The token bucket and the leaky bucket keep their level and the instant of its
    last update under two keys.  The level is swapped, but the instant is set by a
    call of its own afterwards.  Requests that read between the swap and the set of
    another one compute from the new level and the old instant.  For a bucket with no
    instant yet, the token bucket then ignores the level: any number of concurrent
    requests are admitted, each by a full bucket.  A bucket that has been idle is
    refilled, or drained, once for every such request.

    A request at the sliding log reads the clock before the log: one that is overtaken
    finds the log trimmed for the later instant of the other. *)

From S2P Require Import Prelude GoString GoFloat GoTime Model Store Protocol Common MemoryStore CasLimit SlidingLog TokenBucket LeakyBucket Progress BucketBounds.
Local Open Scope Z_scope.
Local Open Scope stdpp_scope.
Local Open Scope go_scope.

(** ** Calls of one program of a pool *)

Definition advance {A} (x y : prog A * World) : Prop := tstep memory x.1 x.2 = y.

Lemma advance_pool {A} (ps : list (prog A)) i p w p' w' :
  ps !! i = Some p -> rtc advance (p, w) (p', w') ->
  rtc (pool_step memory env_step) (ps, w) (<[i := p']> ps, w').
Proof.
  intros Hi H. remember (p, w) as x eqn:Ex. remember (p', w') as y eqn:Ey.
  revert ps p w Hi Ex. induction H as [x|x [p1 w1] z H1 _ IH]; intros ps p w Hi ->.
  - injection Ey as <- <-. by rewrite list_insert_id.
  - unfold advance in H1. cbn [fst snd] in H1. eapply rtc_l; [by eapply (pool_call memory env_step ps w i p)|].
    replace (<[i := p']> ps) with (<[i := p']> (<[i := p1]> ps)) by apply list_insert_insert_eq.
    eapply (IH Ey); [|done]. apply list_lookup_insert_eq. by eapply lookup_lt_Some.
Qed.

Lemma advance_call {A R} (op : CounterOp R) (f : R -> prog A) w r w' x :
  memory R op w = (r, w') -> rtc advance (f r, w') x -> rtc advance (Call op f, w) x.
Proof. intros Hop H. eapply rtc_l; [|exact H]. unfold advance. cbn [tstep fst snd]. by rewrite Hop. Qed.

Lemma take_Get w k : wf_store (w_store w) ->
  exists w', memory _ (Get k) w = (Ok (counter_value w k), w') /\ unchanged w w'.
Proof.
  intros Hwf. destruct (read_counter Ret k w Hwf) as (w' & E & Hu). exists w'. split; [|done].
  cbn [run] in E. by destruct (memory _ (Get k) w).
Qed.

Lemma take_swap w k v v' ttl : wf_store (w_store w) -> counter_value w k = v ->
  exists w', memory _ (CompareAndSwap k v v' ttl) w = (Ok true, w') /\ writes w w' k v' ttl.
Proof.
  intros Hwf Hv. destruct (swap_counter Ret k v v' ttl w Hwf Hv) as (w' & E & Hu). exists w'. split; [|done].
  cbn [run] in E. by destruct (memory _ _ w).
Qed.

Lemma take_set w k v ttl : wf_store (w_store w) ->
  exists w', memory _ (SetVal k v ttl) w = (Ok (), w') /\ writes w w' k v ttl.
Proof.
  intros Hwf. destruct (set_counter Ret k v ttl w Hwf) as (w' & E & Hu). exists w'. split; [|done].
  cbn [run] in E. by destruct (memory _ _ w).
Qed.

(** ** The token bucket *)

Section Race.
Context (policy : Policy) (key : string) (req : RequestContext).
Let cfg := pol_Algorithm policy.
Let cost := Cost req cfg.

(** A bucket that has no instant yet is full, whatever its level. *)
Lemma fresh_full M now : refilled (bucket_capacity cfg) (refill_rate cfg) M 0 now = refilled (bucket_capacity cfg) (refill_rate cfg) 0 0 now.
Proof. done. Qed.

(** A client between its swap and its set. *)
Definition parked (now : Time) : prog (int64 * result Decision) :=
  let left := fsub (refilled (bucket_capacity cfg) (refill_rate cfg) 0 0 now) (float_of_Z cost) in
  r ← (_ ← set_best_effort 3 (tsKey key) (UnixNano now) bucket_ttl;
       mret (Ok (allowed "token_available" (int64_of_float left) zeroTime)));
  mret (cost, r).

Lemma park w :
  wf_store (w_store w) -> counter_value w (tsKey key) = 0 ->
  fltb (refilled (bucket_capacity cfg) (refill_rate cfg) 0 0 (w_clock w)) (float_of_Z cost) = false ->
  exists w', rtc advance (token_client policy key req, w) (parked (w_clock w), w') /\
    wf_store (w_store w') /\ counter_value w' (tsKey key) = 0 /\ w_clock w' = w_clock w.
Proof.
  intros Hwf Hts Hfits. unfold token_client, bucket_client, TokenBucket.Evaluate, eval_now, mbind, prog_mbind, call.
  cbn [prog_bind mret prog_mret clk_Now wall]. fold cfg. fold cost.
  destruct (Z.to_nat (maxRetries cfg)) as [|n] eqn:En; [pose proof (maxRetries_pos cfg); lia|].
  destruct (take_Get w (tokensKey key) Hwf) as (w1 & E1 & Hu1). pose proof Hu1 as (Hwf1 & Hc1 & _).
  destruct (take_Get w1 (tsKey key) Hwf1) as (w2 & E2 & Hu2). pose proof (unchanged_trans _ _ _ Hu1 Hu2) as Hu.
  pose proof Hu as (Hwf2 & Hc2 & _).
  destruct (take_swap w2 (tokensKey key) (counter_value w (tokensKey key))
              (int64_of_float (math_Round (fmul (fsub (refilled (bucket_capacity cfg) (refill_rate cfg) 0 0 (w_clock w)) (float_of_Z cost)) (float_of_Z 1000))))
              bucket_ttl Hwf2 (unchanged_value _ _ _ Hu)) as (w3 & E3 & Hw3).
  exists w3. split.
  - apply (advance_call TimeNow _ w (w_clock w) w); [done|]. cbn [prog_bind from_option tb_loop]. unfold try_bind, call, mbind, prog_mbind. cbn [prog_bind].
    eapply advance_call; [exact E1|]. cbn [prog_bind]. eapply advance_call; [exact E2|]. cbn [prog_bind].
    rewrite (unchanged_value w w1), Hts, fresh_full, Hfits by done. cbn [prog_bind].
    eapply advance_call; [exact E3|]. cbn [negb prog_bind]. by apply rtc_refl.
  - pose proof Hw3 as (Hwf3 & Hc3 & _). split_and!; [done| |congruence].
    rewrite (writes_value _ _ _ _ _ _ Hw3), decide_False by (intros E; by apply (keys_differ key)).
    by rewrite (unchanged_value w w2).
Qed.

(** All of them are parked, one after the other. *)
Lemma park_all n ps w :
  wf_store (w_store w) -> counter_value w (tsKey key) = 0 ->
  fltb (refilled (bucket_capacity cfg) (refill_rate cfg) 0 0 (w_clock w)) (float_of_Z cost) = false ->
  exists w', rtc (pool_step memory env_step) (ps ++ replicate n (token_client policy key req), w)
               (ps ++ replicate n (parked (w_clock w)), w') /\ wf_store (w_store w').
Proof.
  revert ps w. induction n as [|n IH]; intros ps w Hwf Hts Hfits; [by exists w|].
  destruct (park w Hwf Hts Hfits) as (w1 & H1 & Hwf1 & Hts1 & Hc1).
  destruct (IH (ps ++ [parked (w_clock w)]) w1 Hwf1 Hts1 ltac:(by rewrite Hc1)) as (w' & H2 & Hwf').
  exists w'. split; [|done]. rewrite Hc1, <- !app_assoc in H2. etransitivity; [|exact H2].
  apply (advance_pool (ps ++ replicate (S n) (token_client policy key req)) (length ps)) in H1; [|by apply list_lookup_middle].
  by rewrite insert_app_r_alt, Nat.sub_diag in H1.
Qed.

(** A parked client answers with its admission. *)
Lemma parked_all n now w : wf_store (w_store w) ->
  exists a w', run_all memory (replicate n (parked now)) w = (replicate n a, w') /\ spent "token_available" (Some a) = cost.
Proof.
  intros Hwf.
  exists (cost, Ok (allowed "token_available"
    (int64_of_float (fsub (refilled (bucket_capacity cfg) (refill_rate cfg) 0 0 now) (float_of_Z cost))) zeroTime)).
  revert w Hwf. induction n as [|n IH]; intros w Hwf; [by exists w|].
  destruct (take_set w (tsKey key) (UnixNano now) bucket_ttl Hwf) as (w1 & E1 & (Hwf1 & _)).
  destruct (IH w1 Hwf1) as (w' & E2 & Hs). exists w'. split; [|exact Hs]. cbn [replicate run_all].
  assert (E : run memory (parked now) w = (cost, Ok (allowed "token_available"
    (int64_of_float (fsub (refilled (bucket_capacity cfg) (refill_rate cfg) 0 0 now) (float_of_Z cost))) zeroTime), w1)).
  { unfold parked, mbind, prog_mbind. cbn [set_best_effort]. unfold call, mbind, prog_mbind.
    cbn [prog_bind run mret prog_mret]. by rewrite E1. }
  rewrite E, E2. done.
Qed.
End Race.

(** The token bucket does not hold its capacity against concurrent requests:
    when a full bucket admits a request, any number of such requests sent to a bucket
    that has not been used yet can all be admitted, in an interleaving where each reads
    the bucket before another one has stored its instant. *)
Theorem token_bucket_race (policy : Policy) (key : string) (req : RequestContext) (w : World) (n : nat) :
  let cfg := pol_Algorithm policy in
  wf_store (w_store w) -> counter_value w (tsKey key) = 0 ->
  fltb (refilled (bucket_capacity cfg) (refill_rate cfg) 0 0 (w_clock w)) (float_of_Z (Cost req cfg)) = false ->
  exists ps' w', rtc (pool_step memory env_step) (replicate n (token_client policy key req), w) (ps', w') /\
    claimed (fun a => spent "token_available" (Some a)) ps' = Z.of_nat n * Cost req cfg.
Proof.
  intros cfg Hwf Hts Hfits. destruct (park_all policy key req n [] w Hwf Hts Hfits) as (w1 & H1 & Hwf1).
  destruct (parked_all policy key req n (w_clock w) w1 Hwf1) as (a & w' & H2 & Hs).
  exists (Ret <$> replicate n a), w'. split; [etransitivity; [exact H1|by apply run_all_pool]|].
  unfold claimed. rewrite !fmap_replicate. cbn [answer]. rewrite Hs. pose proof (Cost_pos req cfg) as Hc. fold cfg.
  clear -Hc. induction n as [|n IH]; [done|]. cbn [replicate sumZ foldr]. unfold sumZ in IH. lia.
Qed.

(** ** Examples *)

(** Three requests for the whole bucket of ten. *)
Lemma token_bucket_race_witness :
  exists ps' w', rtc (pool_step memory env_step) (replicate 3 (token_client (tb_policy 10 "1s") "k" (mkRequest 10)), tb_world) (ps', w') /\
    claimed (fun a => spent "token_available" (Some a)) ps' = 30.
Proof.
  apply (token_bucket_race (tb_policy 10 "1s") "k" (mkRequest 10) tb_world 3); [done|done|by vm_compute].
Defined.

(** The answers of a pool of which each client takes four calls, up to its swap, and
    then each ends. *)
Definition lockstep (ps : list (prog (int64 * result Decision))) (w : World) : list (option bool) :=
  let n := length ps in
  let schedule := mjoin ((fun i => replicate 4 i) <$> seq 0 n) ++ seq 0 n in
  (fun p => is_allowed ∘ snd <$> answer p) <$> (pool_play memory schedule (ps, w)).1.

(** A bucket that is empty and idle for a second is refilled by each of three
    requests, and a leaky bucket that is full and idle for five is drained by each. *)
Example idle_token_bucket_race :
  let serve n := token_client (tb_policy 10 "1s") "k" (mkRequest n) in
  lockstep (replicate 3 (serve 10)) (play [Serve (serve 10); Wait Second] tb_world).2 = [Some true; Some true; Some true].
Proof. by vm_compute. Qed.

Example idle_leaky_bucket_race :
  let serve n := leaky_client (lb_policy 5) "k" (mkRequest n) in
  lockstep (replicate 3 (serve 5)) (play [Serve (serve 5); Wait (5 * Second)] lb_world).2 = [Some true; Some true; Some true].
Proof. by vm_compute. Qed.

(** A leaky bucket that has not been used yet holds its limit in the same interleaving. *)
Example fresh_leaky_bucket_holds :
  let serve n := leaky_client (lb_policy 5) "k" (mkRequest n) in
  lockstep (replicate 3 (serve 5)) lb_world = [Some true; Some false; Some false].
Proof. by vm_compute. Qed.

(** Two requests are allowed at the instant 5, under a limit of two in ten
    nanoseconds.  A third reads the clock at 15; before it asks the log, a fourth at 16
    has trimmed the two away.  All four are allowed, three of them between 5 and 15. *)
Example overtaken_log_exceeds :
  let policy := mkPolicy "l" zeroScope (mkConfig AlgoSlidingWindowLog 2 "10ns") ActionDeny in
  let request := log_client policy "k" (mkRequest 1) in
  let later d (x : list (prog (int64 * result Decision)) * World) :=
    (x.1, {| w_clock := w_clock x.2 + d; w_store := w_store x.2 |}) in
  let start := (replicate 4 request, {| w_clock := 5; w_store := NewSharded 1 |}) in
  let turns := pool_play memory in
  let final := turns [3; 3; 2; 2]%nat (later 1 (turns [2]%nat (later 10 (turns [0; 0; 1; 1]%nat start)))) in
  (fun p => is_allowed ∘ snd <$> answer p) <$> final.1 = replicate 4 (Some true) /\
  sumZ (rolling 10 15 <$> (answer <$> final.1)) = 3.
Proof. by vm_compute. Qed.
