(* ===== verification/AdapterSet.v ===== *)
(** * pkg/provider's Adapter interface and the adapters that implement it

    [provider.Adapter] as a record of operations with the promises a caller that
    reaches an adapter through the registry relies on; the five adapters of the
    repository as instances; and the registry serving all of them. *)

From S2P Require Import Prelude GoString GoFloat GoTime Model Store WorkerPool Provider MemoryStore Adapters Otel.
Local Open Scope Z_scope.
Local Open Scope stdpp_scope.

(** ** The interface *)

(** A value of the interface: the adapter's state and its methods.  A call of
    [ProcessBatch] may return a list of decisions, leaving the adapter and the store
    changed; its error is nil in every implementation. *)
Record ProviderAdapter (W : Type) := {
  pa_State : Type;
  pa_self : pa_State;
  pa_Name : string;
  pa_SignalKinds : list SignalKind;
  pa_ProcessBatch : pa_State -> list TelemetryRecord -> W -> list ProviderDecision -> pa_State -> W -> Prop
}.
Arguments pa_State {_}.
Arguments pa_self {_}.
Arguments pa_Name {_}.
Arguments pa_SignalKinds {_}.
Arguments pa_ProcessBatch {_}.

(** What a caller relies on, in every state an adapter can be in: every batch has
    an outcome, and an outcome is one decision for each record, in the order of the
    records. *)
Class AdapterLaws {W} (a : ProviderAdapter W) (valid : pa_State a -> Prop) : Prop := {
  self_valid : valid (pa_self a);
  batch_valid : forall self records w out self' w',
    valid self -> pa_ProcessBatch a self records w out self' w' -> valid self';
  batch_returns : forall self records w, valid self ->
    exists out self' w', pa_ProcessBatch a self records w out self' w';
  batch_aligned : forall self records w out self' w',
    pa_ProcessBatch a self records w out self' w' -> pd_Record <$> out = records
}.

(** ** The implementations *)

Section Instances.
Context {W : Type} (h : handler W) (env : W -> W -> Prop).

(** The adapters that embed the batch processor differ in their names and kinds. *)
Definition batch_adapter (name : string) (kinds : list SignalKind) (a : Adapter) : ProviderAdapter W :=
  {| pa_State := Adapter; pa_self := a; pa_Name := name; pa_SignalKinds := kinds;
     pa_ProcessBatch := fun self records w out self' w' =>
       self' = self /\ Process h env (ad_bp self) records w out w' |}.

Definition kafka_adapter := batch_adapter "kafka" [SignalEvent].
Definition datadog_adapter := batch_adapter "datadog" [SignalLog; SignalMetric].
Definition fluentbit_adapter := batch_adapter "fluentbit" [SignalLog].
Definition envoy_adapter := batch_adapter "envoy" [SignalHTTP].

(** otel's adapter keeps a processor, whose counters change. *)
Definition NewProviderAdapter (eval : Evaluator) (workers : Z) (failOpen : bool) : ProviderAdapter W :=
  {| pa_State := Processor; pa_self := NewProcessor eval workers failOpen;
     pa_Name := "otel"; pa_SignalKinds := [SignalLog; SignalSpan];
     pa_ProcessBatch := fun self records w out self' w' => Otel.ProcessBatch h env self records w out self' w' |}.

Lemma process_records_workers {R} (allow : Evaluator -> R -> prog Answer) p records w out p' w' :
  process_records h env allow p records w out p' w' -> pr_workers p' = pr_workers p.
Proof. destruct records; cbn [process_records]; [by intros (_ & -> & _)|by intros (s & _ & _ & _ & -> & _)]. Qed.

Lemma process_records_returns {R} (allow : Evaluator -> R -> prog Answer) p records w :
  0 < pr_workers p -> exists out p' w', process_records h env allow p records w out p' w'.
Proof.
  intros Hp. destruct (process_in_order h allow p records w) as [[out p'] w'] eqn:E.
  exists out, p', w'. by apply process_in_order_spec.
Qed.

#[export] Instance batch_adapter_laws name kinds a :
  AdapterLaws (batch_adapter name kinds a) (fun _ => True).
Proof.
  split; cbn; [done|done|..].
  - intros self records w _. eexists _, self, _. split; [done|]. apply Process_in_turn.
  - intros self records w out self' w' [_ H]. by apply Process_records in H.
Qed.

#[export] Instance otel_adapter_laws eval workers failOpen :
  AdapterLaws (NewProviderAdapter eval workers failOpen) (fun p => 0 < pr_workers p).
Proof.
  split; cbn [NewProviderAdapter pa_self pa_State pa_ProcessBatch].
  - cbn [NewProcessor pr_workers]. case_step; lia.
  - intros self records w out self' w' Hp (kl & ks & p1 & w1 & Hl & Hs & _).
    apply process_records_workers in Hl, Hs. congruence.
  - intros self records w Hp.
    destruct (process_records_returns AllowLog self (batch_logs records) w Hp) as (kl & p1 & w1 & Hl).
    pose proof (process_records_workers _ _ _ _ _ _ _ Hl) as Hw.
    destruct (process_records_returns AllowSpan p1 (batch_spans records) w1 ltac:(congruence)) as (ks & p2 & w2 & Hs).
    exists (batch_verdict kl ks <$> records), p2, w2. by exists kl, ks, p1, w1.
  - intros self records w out self' w' (kl & ks & p1 & w1 & _ & _ & ->).
    rewrite <- list_fmap_compose. rewrite <- list_fmap_id. apply list_fmap_ext. intros _ r _.
    unfold compose, batch_verdict, verdict. repeat case_step; done.
Qed.
End Instances.

(** ** The registry serving all of them *)

Section Served.
Context {W : Type}.

(** Batches given to an adapter one after another, with what each returned. *)
Inductive batches (a : ProviderAdapter W) :
    pa_State a -> W -> list (list TelemetryRecord * list ProviderDecision) -> pa_State a -> W -> Prop :=
| batches_nil self w : batches a self w [] self w
| batches_cons self w records out self1 w1 rest self2 w2 :
    pa_ProcessBatch a self records w out self1 w1 -> batches a self1 w1 rest self2 w2 ->
    batches a self w ((records, out) :: rest) self2 w2.

(** An adapter keeps its promises for as long as it is used. *)
Definition dependable (a : ProviderAdapter W) : Prop :=
  forall w history self' w', batches a (pa_self a) w history self' w' ->
    Forall (fun '(records, out) => pd_Record <$> out = records) history /\
    (forall records, exists out self2 w2, pa_ProcessBatch a self' records w' out self2 w2).

Lemma laws_dependable (a : ProviderAdapter W) valid : AdapterLaws a valid -> dependable a.
Proof.
  intros L w history self' w' H. pose proof (self_valid (a := a)) as Hv. revert Hv.
  induction H as [|self w records out self1 w1 rest self2 w2 Hb _ IH]; intros Hv.
  - split; [constructor|]. intros records. by apply batch_returns.
  - destruct (IH ltac:(eapply batch_valid; eassumption)) as [Hf Hn]. split; [|done].
    constructor; [|done]. by eapply batch_aligned.
Qed.

(** Registering adapters one after another with [MustRegister]; [None] is a panic. *)
Definition must_register_all (already : string -> string) (adapters : list (ProviderAdapter W)) :=
  foldl (fun r a => r ≫= MustRegister pa_Name already a) (Some NewRegistry) adapters.

Lemma must_register_each already (adapters : list (ProviderAdapter W)) r :
  NoDup (pa_Name <$> adapters) -> (forall a, a ∈ adapters -> r !! pa_Name a = None) ->
  foldl (fun r a => r ≫= MustRegister pa_Name already a) (Some r) adapters =
  Some (register_all pa_Name already adapters r).
Proof.
  revert r. induction adapters as [|a l IH]; intros r Hnd Hr; [done|].
  rewrite fmap_cons in Hnd. apply NoDup_cons in Hnd as [Ha Hnd].
  assert (E : Register pa_Name already a r = (Ok tt, <[pa_Name a := a]> r)).
  { unfold Register. by rewrite (Hr a) by left. }
  unfold register_all. cbn [foldl mbind option_bind]. unfold MustRegister at 2. rewrite E.
  rewrite IH; [by cbn [snd]|done|]. intros b Hb. rewrite lookup_insert_ne; [apply Hr; by right|].
  intros E'. destruct Ha. rewrite E'. by apply list_elem_of_fmap_2.
Qed.

Lemma find_by_name (adapters : list (ProviderAdapter W)) a :
  NoDup (pa_Name <$> adapters) -> a ∈ adapters ->
  List.find (fun b => String.eqb (pa_Name b) (pa_Name a)) adapters = Some a.
Proof.
  induction adapters as [|b l IH]; intros Hnd Ha; [by apply elem_of_nil in Ha|].
  rewrite fmap_cons in Hnd. apply NoDup_cons in Hnd as [Hb Hnd]. cbn [List.find].
  apply elem_of_cons in Ha as [->|Ha]; [by rewrite String.eqb_refl|].
  destruct (String.eqb_spec (pa_Name b) (pa_Name a)) as [E|]; [|by apply IH].
  destruct Hb. rewrite E. by apply list_elem_of_fmap_2.
Qed.
End Served.

(** Every adapter of the repository, with the arguments its constructor is given. *)
Definition all_adapters {W} (h : handler W) (env : W -> W -> Prop) (kafka datadog fluentbit envoy : Adapter)
    (eval : Evaluator) (workers : Z) (failOpen : bool) : list (ProviderAdapter W) :=
  [kafka_adapter h env kafka; datadog_adapter h env datadog; fluentbit_adapter h env fluentbit;
   envoy_adapter h env envoy; NewProviderAdapter h env eval workers failOpen].

(** The adapters of the repository can be registered together, in any order and
    without a panic, and each is then found under its own name.  Whatever batches an
    adapter found there has been given, concurrently decided or not, each came back
    with one decision per record in the order of the records, and the next batch has
    an outcome.  The records an adapter makes of its native items are of a kind it
    declares. *)
Theorem adapters_registered {W : Type} (h : handler W) (env : W -> W -> Prop) (already : string -> string)
    (kafka datadog fluentbit envoy : Adapter) (eval : Evaluator) (workers : Z) (failOpen : bool)
    (order : list (ProviderAdapter W)) :
  order ≡ₚ all_adapters h env kafka datadog fluentbit envoy eval workers failOpen ->
  (exists r, must_register_all already order = Some r /\
     forall a, a ∈ order -> Lookup (pa_Name a) r = Some a /\ dependable a) /\
  (forall org m, tr_Signal (Kafka.record_of org m) ∈ pa_SignalKinds (kafka_adapter h env kafka)) /\
  (forall org l, tr_Signal (Datadog.log_record org l) ∈ pa_SignalKinds (datadog_adapter h env datadog)) /\
  (forall org m, tr_Signal (Datadog.metric_record org m) ∈ pa_SignalKinds (datadog_adapter h env datadog)) /\
  (forall org f r, tr_Signal (FluentBit.record_from org f r) ∈ pa_SignalKinds (fluentbit_adapter h env fluentbit)) /\
  (forall org d, tr_Signal (Envoy.descriptor_record org d) ∈ pa_SignalKinds (envoy_adapter h env envoy)) /\
  (forall org q, tr_Signal (Envoy.auth_record org q) ∈ pa_SignalKinds (envoy_adapter h env envoy)).
Proof.
  intros Hp. split; [|split_and!; intros; cbn; rewrite ?elem_of_cons; tauto].
  assert (Hnd : NoDup (pa_Name <$> order)).
  { rewrite Hp. cbn. by apply (bool_decide_eq_true _); vm_compute. }
  exists (register_all pa_Name already order NewRegistry).
  split; [by apply must_register_each|]. intros a Ha. split.
  - rewrite register_all_lookup. unfold Lookup at 1, NewRegistry. rewrite lookup_empty. by apply find_by_name.
  - rewrite Hp in Ha. unfold all_adapters in Ha. rewrite !elem_of_cons, elem_of_nil in Ha.
    destruct Ha as [->|[->|[->|[->|[->|[]]]]]]; eapply laws_dependable; apply _.
Qed.

Lemma adapters_registered_witness :
  exists r, must_register_all (fun n => n)
    (rev (all_adapters memory env_step (NewAdapter first_only "acme" 2 true) (NewAdapter first_only "acme" 2 true)
      (NewAdapter first_only "acme" 2 true) (NewAdapter first_only "acme" 2 true) first_only 0 true)) = Some r.
Proof.
  set (a := NewAdapter first_only "acme" 2 true).
  destruct (adapters_registered memory env_step (fun n => n) a a a a first_only 0 true
    (rev (all_adapters memory env_step a a a a first_only 0 true))) as [(r & Hr & _) _].
  - symmetry. apply Permutation_rev.
  - by exists r.
Defined.
