(* ===== verification/Wire.v ===== *)
(** * encoding/json of the structs of pkg/model: what goes over the wire

    A JSON document as a value: [WInt] is a number written as an integer, [WNum] any
    other number.  On it what encoding/json does with the structs of pkg/model and
    of internal/adapter/http: decoding into a struct, which finds the field of a
    member by its tag without regard to case, skips members without a field and
    leaves fields without a member as they are, and encoding.  The literal of a
    float64 and the text of an instant are parameters. *)

From Stdlib Require Import Ascii String.
From S2P Require Import Prelude GoString GoFloat GoTime GoJson Model.
Local Open Scope Z_scope.
Local Open Scope stdpp_scope.
Local Open Scope go_scope.

#[warnings="-register-all"]
Inductive wire :=
| WNull
| WBool (b : bool)
| WInt (n : Z)
| WNum (x : float64)
| WStr (s : string)
| WArr (l : list wire)
| WObj (members : list (string * wire)).

Abbreviation members := (list (string * wire)).

(** ** Decoding *)

(** A name up to case: the letters of ASCII, and the two characters beyond it that
    fold to one, U+017F to s and U+212A to k. *)
Fixpoint fold_name (s : string) : string :=
  match s with
  | String "197" (String "191" s') => String "s" (fold_name s')
  | String "226" (String "132" (String "170" s')) => String "k" (fold_name s')
  | String c s' => String (lower_ascii c) (fold_name s')
  | "" => ""
  end.

(** The members of the field with the tag [tag], stored one after the other. *)
Fixpoint field {A} (store : wire -> A -> option A) (tag : string) (ms : members) (a : A) : option A :=
  match ms with
  | [] => Some a
  | (k, v) :: rest => if String.eqb (fold_name k) tag then a' ← store v a; field store tag rest a' else field store tag rest a
  end.

Definition store_string (v : wire) (old : string) : option string :=
  match v with WStr s => Some s | WNull => Some old | _ => None end.

Definition store_bool (v : wire) (old : bool) : option bool :=
  match v with WBool b => Some b | WNull => Some old | _ => None end.

Definition store_int64 (v : wire) (old : int64) : option int64 :=
  match v with
  | WInt n => if (minInt64 <=? n) && (n <=? maxInt64) then Some n else None
  | WNull => Some old
  | _ => None
  end.

Definition store_float (v : wire) (old : float64) : option float64 :=
  match v with
  | WInt n => match float_of_Z n with SpecFloat.S754_infinity _ => None | x => Some x end
  | WNum x => Some x
  | WNull => Some old
  | _ => None
  end.

(** The members of a map with string values; a null value is the zero value. *)
Fixpoint store_entries (ms : members) (m : gmap string string) : option (gmap string string) :=
  match ms with
  | [] => Some m
  | (k, v) :: rest => s ← store_string v ""; store_entries rest (<[k := s]> m)
  end.

Definition store_map (v : wire) (old : GoMap) : option GoMap :=
  match v with
  | WObj ms => Some <$> store_entries ms (default ∅ old)
  | WNull => Some None
  | _ => None
  end.

(** A struct; null leaves it as it is. *)
Definition store_struct {A} (decode : members -> A -> option A) (v : wire) (old : A) : option A :=
  match v with WObj ms => decode ms old | WNull => Some old | _ => None end.

Definition decode_scope (ms : members) (s : PolicyScope) : option PolicyScope :=
  let str tag := field store_string tag ms in
  org ← str "org_id" (sc_OrgID s); tenant ← str "tenant_id" (sc_TenantID s);
  application ← str "application" (sc_Application s); service ← str "service" (sc_Service s);
  environment ← str "environment" (sc_Environment s); signal ← str "signal_type" (sc_SignalType s);
  operation ← str "operation" (sc_Operation s); endpoint ← str "endpoint" (sc_Endpoint s);
  method ← str "method" (sc_Method s); user ← str "user_id" (sc_UserID s);
  apikey ← str "api_key" (sc_APIKey s); client ← str "client_id" (sc_ClientID s);
  ip ← str "source_ip" (sc_SourceIP s); region ← str "region" (sc_Region s);
  resource ← str "resource" (sc_Resource s); severity ← str "severity" (sc_Severity s);
  span ← str "span_name" (sc_SpanName s); topic ← str "topic" (sc_Topic s);
  group ← str "consumer_group" (sc_ConsumerGroup s); job ← str "job_type" (sc_JobType s);
  tags ← field store_map "tags" ms (sc_Tags s);
  Some {| sc_OrgID := org; sc_TenantID := tenant; sc_Application := application; sc_Service := service;
          sc_Environment := environment; sc_SignalType := signal; sc_Operation := operation; sc_Endpoint := endpoint;
          sc_Method := method; sc_UserID := user; sc_APIKey := apikey; sc_ClientID := client; sc_SourceIP := ip;
          sc_Region := region; sc_Resource := resource; sc_Severity := severity; sc_SpanName := span;
          sc_Topic := topic; sc_ConsumerGroup := group; sc_JobType := job; sc_Tags := tags |}.

Definition decode_config (ms : members) (c : AlgorithmConfig) : option AlgorithmConfig :=
  let str tag := field store_string tag ms in
  let int tag := field store_int64 tag ms in
  let flt tag := field store_float tag ms in
  type ← str "type" (cfg_Type c); limit ← int "limit" (cfg_Limit c); window ← str "window" (cfg_Window c);
  burst ← int "burst" (cfg_Burst c); refill ← flt "refill_rate" (cfg_RefillRate c);
  leak ← flt "leak_rate" (cfg_LeakRate c); sub ← int "sub_window_count" (cfg_SubWindowCount c);
  conc ← int "max_concurrency" (cfg_MaxConcurrency c); ttl ← int "lease_ttl" (cfg_LeaseTTL c);
  period ← str "quota_period" (cfg_QuotaPeriod c); cost ← int "cost_per_request" (cfg_CostPerRequest c);
  retries ← int "max_retries" (cfg_MaxRetries c); sample ← flt "sample_rate" (cfg_SampleRate c);
  Some {| cfg_Type := type; cfg_Limit := limit; cfg_Window := window; cfg_Burst := burst; cfg_RefillRate := refill;
          cfg_LeakRate := leak; cfg_SubWindowCount := sub; cfg_MaxConcurrency := conc; cfg_LeaseTTL := ttl;
          cfg_QuotaPeriod := period; cfg_CostPerRequest := cost; cfg_MaxRetries := retries; cfg_SampleRate := sample |}.

Definition decode_policy (ms : members) (p : Policy) : option Policy :=
  let str tag := field store_string tag ms in
  let int tag := field store_int64 tag ms in
  id ← str "policy_id" (pol_PolicyID p); name ← str "name" (pol_Name p);
  description ← str "description" (pol_Description p); enabled ← field store_bool "enabled" ms (pol_Enabled p);
  priority ← int "priority" (pol_Priority p);
  scope ← field (store_struct decode_scope) "scope" ms (pol_Scope p);
  algorithm ← field (store_struct decode_config) "algorithm" ms (pol_Algorithm p);
  action ← str "action" (pol_Action p); failure ← str "failure_mode" (pol_FailureMode p);
  enforcement ← str "enforcement_mode" (pol_EnforcementMode p); rollout ← int "rollout_percent" (pol_RolloutPercent p);
  from ← int "valid_from_unix" (pol_ValidFromUnix p); to ← int "valid_to_unix" (pol_ValidToUnix p);
  metadata ← field store_map "metadata" ms (pol_Metadata p);
  Some {| pol_PolicyID := id; pol_Name := name; pol_Description := description; pol_Enabled := enabled;
          pol_Priority := priority; pol_Scope := scope; pol_Algorithm := algorithm; pol_Action := action;
          pol_FailureMode := failure; pol_EnforcementMode := enforcement; pol_RolloutPercent := rollout;
          pol_ValidFromUnix := from; pol_ValidToUnix := to; pol_Metadata := metadata |}.

(** The bodies of the endpoints: the zero value of the struct, and the document stored
    into it. *)
Definition zeroPolicy : Policy :=
  {| pol_PolicyID := ""; pol_Name := ""; pol_Description := ""; pol_Enabled := false; pol_Priority := 0;
     pol_Scope := zeroScope; pol_Algorithm := zeroConfig; pol_Action := ""; pol_FailureMode := "";
     pol_EnforcementMode := ""; pol_RolloutPercent := 0; pol_ValidFromUnix := 0; pol_ValidToUnix := 0;
     pol_Metadata := None |}.

Definition policy_of_wire (v : wire) : option Policy := store_struct decode_policy v zeroPolicy.
Definition lease_id_of_wire (v : wire) : option string := store_struct (field store_string "lease_id") v "".
Definition version_of_wire (v : wire) : option int64 := store_struct (field store_int64 "version") v 0.
Definition rollout_of_wire (v : wire) : option Z := store_struct (field store_int64 "rollout_percent") v 0.

Section Request.
(** [time.Time.UnmarshalJSON] on the text of an instant. *)
Context (ParseTime : string -> option Time).

Definition store_time (v : wire) (old : Time) : option Time :=
  match v with WStr s => ParseTime s | WNull => Some old | _ => None end.

Definition decode_request (ms : members) (r : RequestContext) : option RequestContext :=
  let str tag := field store_string tag ms in
  id ← str "request_id" (req_RequestID r); org ← str "org_id" (req_OrgID r);
  tenant ← str "tenant_id" (req_TenantID r); application ← str "application" (req_Application r);
  service ← str "service" (req_Service r); environment ← str "environment" (req_Environment r);
  signal ← str "signal_type" (req_SignalType r); operation ← str "operation" (req_Operation r);
  endpoint ← str "endpoint" (req_Endpoint r); method ← str "method" (req_Method r);
  user ← str "user_id" (req_UserID r); apikey ← str "api_key" (req_APIKey r);
  client ← str "client_id" (req_ClientID r); ip ← str "source_ip" (req_SourceIP r);
  region ← str "region" (req_Region r); resource ← str "resource" (req_Resource r);
  severity ← str "severity" (req_Severity r); span ← str "span_name" (req_SpanName r);
  topic ← str "topic" (req_Topic r); group ← str "consumer_group" (req_ConsumerGroup r);
  job ← str "job_type" (req_JobType r); quantity ← field store_int64 "quantity" ms (req_Quantity r);
  priority ← str "priority" (req_Priority r); timestamp ← field store_time "timestamp" ms (req_Timestamp r);
  tags ← field store_map "tags" ms (req_Tags r); attributes ← field store_map "attributes" ms (req_Attributes r);
  Some {| req_RequestID := id; req_OrgID := org; req_TenantID := tenant; req_Application := application;
          req_Service := service; req_Environment := environment; req_SignalType := signal; req_Operation := operation;
          req_Endpoint := endpoint; req_Method := method; req_UserID := user; req_APIKey := apikey;
          req_ClientID := client; req_SourceIP := ip; req_Region := region; req_Resource := resource;
          req_Severity := severity; req_SpanName := span; req_Topic := topic; req_ConsumerGroup := group;
          req_JobType := job; req_Quantity := quantity; req_Priority := priority; req_Timestamp := timestamp;
          req_Tags := tags; req_Attributes := attributes |}.

Definition request_of_wire (v : wire) : option RequestContext := store_struct decode_request v zeroRequest.
End Request.

(** ** Encoding *)

(** A map, its keys in order. *)
Definition map_wire (m : GoMap) : wire :=
  match m with
  | None => WNull
  | Some m => WObj ((fun kv => (kv.1, WStr kv.2)) <$> sort_by by_key (map_to_list m))
  end.

Section Encoding.
(** The literal of a float64; there is none for infinities and NaN.  The text of an
    instant; there is none for a year of more than four digits. *)
Context (float_lit : float64 -> option wire) (time_text : Time -> option string).

Definition scope_wire (s : PolicyScope) : wire :=
  WObj [("org_id", WStr (sc_OrgID s)); ("tenant_id", WStr (sc_TenantID s)); ("application", WStr (sc_Application s));
        ("service", WStr (sc_Service s)); ("environment", WStr (sc_Environment s));
        ("signal_type", WStr (sc_SignalType s)); ("operation", WStr (sc_Operation s));
        ("endpoint", WStr (sc_Endpoint s)); ("method", WStr (sc_Method s)); ("user_id", WStr (sc_UserID s));
        ("api_key", WStr (sc_APIKey s)); ("client_id", WStr (sc_ClientID s)); ("source_ip", WStr (sc_SourceIP s));
        ("region", WStr (sc_Region s)); ("resource", WStr (sc_Resource s)); ("severity", WStr (sc_Severity s));
        ("span_name", WStr (sc_SpanName s)); ("topic", WStr (sc_Topic s));
        ("consumer_group", WStr (sc_ConsumerGroup s)); ("job_type", WStr (sc_JobType s)); ("tags", map_wire (sc_Tags s))].

Definition config_wire (c : AlgorithmConfig) : option wire :=
  refill ← float_lit (cfg_RefillRate c); leak ← float_lit (cfg_LeakRate c); sample ← float_lit (cfg_SampleRate c);
  Some (WObj
    [("type", WStr (cfg_Type c)); ("limit", WInt (cfg_Limit c)); ("window", WStr (cfg_Window c));
     ("burst", WInt (cfg_Burst c)); ("refill_rate", refill); ("leak_rate", leak);
     ("sub_window_count", WInt (cfg_SubWindowCount c)); ("max_concurrency", WInt (cfg_MaxConcurrency c));
     ("lease_ttl", WInt (cfg_LeaseTTL c)); ("quota_period", WStr (cfg_QuotaPeriod c));
     ("cost_per_request", WInt (cfg_CostPerRequest c)); ("max_retries", WInt (cfg_MaxRetries c)); ("sample_rate", sample)]).

Definition policy_wire (p : Policy) : option wire :=
  algorithm ← config_wire (pol_Algorithm p);
  Some (WObj
    [("policy_id", WStr (pol_PolicyID p)); ("name", WStr (pol_Name p)); ("description", WStr (pol_Description p));
     ("enabled", WBool (pol_Enabled p)); ("priority", WInt (pol_Priority p)); ("scope", scope_wire (pol_Scope p));
     ("algorithm", algorithm); ("action", WStr (pol_Action p)); ("failure_mode", WStr (pol_FailureMode p));
     ("enforcement_mode", WStr (pol_EnforcementMode p)); ("rollout_percent", WInt (pol_RolloutPercent p));
     ("valid_from_unix", WInt (pol_ValidFromUnix p)); ("valid_to_unix", WInt (pol_ValidToUnix p));
     ("metadata", map_wire (pol_Metadata p))]).

Definition decision_wire (d : Decision) : option wire :=
  sample ← float_lit (dec_SampleRate d); reset ← time_text (dec_ResetAt d);
  Some (WObj
    [("allowed", WBool (dec_Allowed d)); ("action", WStr (dec_Action d)); ("reason", WStr (dec_Reason d));
     ("matched_policy_id", WStr (dec_MatchedPolicyID d)); ("matched_rule_key", WStr (dec_MatchedRuleKey d));
     ("limit_key", WStr (dec_LimitKey d)); ("remaining", WInt (dec_Remaining d));
     ("retry_after", WInt (dec_RetryAfter d)); ("reset_at", WStr reset); ("delay_for", WInt (dec_DelayFor d));
     ("sample_rate", sample); ("shadow_mode", WBool (dec_ShadowMode d)); ("metadata", map_wire (dec_Metadata d))]).

(** [acquireResponse], without an empty lease id. *)
Definition acquired_wire (allowed : bool) (leaseID reason : string) (action : ActionType) : wire :=
  WObj ([("allowed", WBool allowed)] ++ (if String.eqb leaseID "" then [] else [("lease_id", WStr leaseID)]) ++
        [("reason", WStr reason); ("action", WStr action)]).

(** [releaseResponse{Released: true}]. *)
Definition released_wire : wire := WObj [("released", WBool true)].
End Encoding.

(** ** What is encoded is decoded *)

(** *** Finding a field *)

(** Where the members of a field are among the names of an object. *)
Fixpoint positions (tag : string) (ks : list string) (i : nat) : list nat :=
  match ks with
  | [] => []
  | k :: rest => if String.eqb (fold_name k) tag then i :: positions tag rest (S i) else positions tag rest (S i)
  end.

Lemma field_none {A} (store : wire -> A -> option A) tag ms i a :
  positions tag ms.*1 i = [] -> field store tag ms a = Some a.
Proof.
  revert i. induction ms as [|[k v] ms IH]; intros i H; [done|]. cbn [fmap list_fmap fst positions field] in *.
  destruct (String.eqb (fold_name k) tag); [done|]. by apply (IH (S i)).
Qed.

Lemma positions_ge tag ks i j : j ∈ positions tag ks i -> (i <= j)%nat.
Proof.
  revert i. induction ks as [|k ks IH]; intros i; cbn [positions]; [by intros ?%elem_of_nil|].
  destruct (String.eqb _ _); [rewrite elem_of_cons; intros [->|H]; [lia|]|intros H]; apply IH in H; lia.
Qed.

Lemma field_one_from {A} (store : wire -> A -> option A) tag ms i j k v a :
  positions tag ms.*1 i = [(i + j)%nat] -> ms !! j = Some (k, v) -> field store tag ms a = store v a.
Proof.
  revert i j. induction ms as [|[k' v'] ms IH]; intros i j Hp Hj; [done|]. cbn [fmap list_fmap fst positions field] in *.
  destruct (String.eqb (fold_name k') tag) eqn:E.
  - injection Hp as Hi Hrest. replace j with 0%nat in Hj by lia. injection Hj as -> ->. destruct (store v a) as [a'|]; [|done].
    cbn [mbind option_bind]. by apply (field_none _ _ _ (S i)).
  - destruct j as [|j].
    + assert (H : (S i <= i + 0)%nat) by (apply (positions_ge tag ms.*1); rewrite Hp; apply list_elem_of_singleton; done). lia.
    + apply (IH (S i) j); [|done]. rewrite Hp. f_equal. lia.
Qed.

(** A field with one member is what the member stores. *)
Lemma field_one {A} (store : wire -> A -> option A) tag ms j k v a :
  positions tag ms.*1 0 = [j] -> ms !! j = Some (k, v) -> field store tag ms a = store v a.
Proof. apply (field_one_from store tag ms 0). Qed.

(** Reads the fields of an object whose names are known. *)
Ltac read_fields :=
  repeat match goal with
  | |- context [field ?store ?tag ?ms ?a] =>
      let l := eval vm_compute in (positions tag ms.*1 0) in
      match l with
      | [] => rewrite (field_none store tag ms 0 a) by (vm_compute; reflexivity)
      | [?j] => let kv := eval cbn [lookup list_lookup] in (ms !! j) in
                match kv with
                | Some (?k, ?v) => rewrite (field_one store tag ms j k v a) by (vm_compute; reflexivity || reflexivity)
                end
      end
  end.

Lemma store_entries_strings l m :
  NoDup l.*1 -> store_entries ((fun kv => (kv.1, WStr kv.2)) <$> l) m = Some (list_to_map l ∪ m).
Proof.
  revert m. induction l as [|[k s] l IH]; intros m Hd; cbn [fmap list_fmap store_entries fst snd].
  - simpl. by rewrite (left_id_L ∅ (∪) m).
  - cbn [fmap list_fmap fst] in Hd. apply NoDup_cons in Hd as [Hk Hd]. cbn [store_string mbind option_bind]. rewrite IH by done. f_equal.
    cbn [list_to_map foldr]. rewrite <- insert_union_l. rewrite insert_union_r; [done|]. by apply not_elem_of_list_to_map_1.
Qed.

Lemma map_roundtrip m : store_map (map_wire m) None = Some m.
Proof.
  destruct m as [m|]; [|done]. cbn [map_wire store_map default].
  assert (Hd : NoDup (sort_by by_key (map_to_list m)).*1) by (rewrite sort_by_Permutation; apply NoDup_fst_map_to_list).
  rewrite store_entries_strings, (right_id_L ∅ (∪)) by done. cbn [fmap option_fmap option_map]. do 2 f_equal.
  etransitivity; [|apply list_to_map_to_list]. apply list_to_map_proper; [done|]. by rewrite sort_by_Permutation.
Qed.

Lemma scope_roundtrip s : store_struct decode_scope (scope_wire s) zeroScope = Some s.
Proof.
  destruct s. unfold scope_wire. cbn [store_struct]. unfold decode_scope. cbv zeta.
  read_fields. cbn [store_string mbind option_bind]. cbn. by rewrite map_roundtrip.
Qed.

(** The integers of a configuration and of a policy are those of their fields. *)
Definition config_ints (c : AlgorithmConfig) : Prop :=
  Forall in_int64 [cfg_Limit c; cfg_Burst c; cfg_SubWindowCount c; cfg_MaxConcurrency c; cfg_LeaseTTL c;
                   cfg_CostPerRequest c; cfg_MaxRetries c].
Definition policy_ints (p : Policy) : Prop :=
  Forall in_int64 [pol_Priority p; pol_RolloutPercent p; pol_ValidFromUnix p; pol_ValidToUnix p] /\
  config_ints (pol_Algorithm p).

Lemma store_int64_ok n old : in_int64 n -> store_int64 (WInt n) old = Some n.
Proof.
  intros [H1 H2]. cbn [store_int64]. by rewrite (proj2 (Z.leb_le _ _) H1), (proj2 (Z.leb_le _ _) H2).
Qed.

Section Roundtrip.
Context (float_lit : float64 -> option wire).
(** The literal of a float64 reads back as that float64. *)
Hypothesis float_back : forall x v old, float_lit x = Some v -> store_float v old = Some x.

Lemma config_roundtrip c v :
  config_ints c -> config_wire float_lit c = Some v -> store_struct decode_config v zeroConfig = Some c.
Proof.
  destruct c as [ty li wi bu re le su mc tt qp co mr sa]. intros Hi. unfold config_wire.
  cbn [cfg_RefillRate cfg_LeakRate cfg_SampleRate].
  destruct (float_lit re) as [r|] eqn:Er; [|done]. destruct (float_lit le) as [l|] eqn:El; [|done].
  destruct (float_lit sa) as [s|] eqn:Es; [|done]. cbn [mbind option_bind]. intros [= <-].
  cbn [store_struct]. unfold decode_config. cbv zeta. read_fields. unfold config_ints in Hi. rewrite !Forall_cons in Hi. cbn in Hi.
  destruct Hi as (H1 & H2 & H3 & H4 & H5 & H6 & H7 & _).
  rewrite !(float_back _ _ _ Er), !(float_back _ _ _ El), !(float_back _ _ _ Es), !store_int64_ok by done. done.
Qed.

Lemma policy_roundtrip p v :
  policy_ints p -> policy_wire float_lit p = Some v -> policy_of_wire v = Some p.
Proof.
  destruct p as [id na de en pr sc al ac fm em ro vf vt md]. intros [Hi Hc]. unfold policy_wire. cbn [pol_Algorithm] in *.
  destruct (config_wire float_lit al) as [a|] eqn:Ea; [|done]. cbn [mbind option_bind]. intros [= <-].
  unfold policy_of_wire. cbn [store_struct]. unfold decode_policy. cbv zeta. read_fields.
  rewrite !Forall_cons in Hi. cbn in Hi. destruct Hi as (H1 & H2 & H3 & H4 & _).
  rewrite !store_int64_ok by done. cbn [mbind option_bind store_string store_bool].
  change (pol_Scope zeroPolicy) with zeroScope. change (pol_Algorithm zeroPolicy) with zeroConfig.
  rewrite scope_roundtrip, (config_roundtrip al a Hc Ea). cbn [mbind option_bind].
  change (pol_Metadata zeroPolicy) with (@None (gmap string string)). by rewrite map_roundtrip.
Qed.
End Roundtrip.
