(* ===== verification/ExampleHttp.v ===== *)
(** * examples/http: the program that shows five decisions

    The whole path in one place: a policy file, read as JSON, the client of
    pkg/rlaas on the file store and the memory store, the engine, the fixed window,
    and the text that is printed. *)

From S2P Require Import Prelude GoString GoHash GoFloat GoTime GoJson Model Store Common MemoryStore Matcher KeyBuilder PolicyCache PolicyStore Engine Wire.
Local Open Scope Z_scope.
Local Open Scope string_scope.
Local Open Scope stdpp_scope.

(** The request of every round. *)
Definition example_request : RequestContext :=
  {| req_RequestID := ""; req_OrgID := "acme"; req_TenantID := "retail"; req_Application := "";
     req_Service := "payments"; req_Environment := ""; req_SignalType := "http"; req_Operation := "charge";
     req_Endpoint := "/v1/charge"; req_Method := "POST"; req_UserID := "u1"; req_APIKey := "";
     req_ClientID := ""; req_SourceIP := ""; req_Region := ""; req_Resource := "";
     req_Severity := ""; req_SpanName := ""; req_Topic := ""; req_ConsumerGroup := "";
     req_JobType := ""; req_Quantity := 0; req_Priority := ""; req_Timestamp := zeroTime;
     req_Tags := None; req_Attributes := None |}.

(** [%v] of a bool. *)
Definition bool_text (b : bool) : string := if b then "true" else "false".

(** A line of the output, without its newline. *)
Definition example_line (i : Z) (d : Decision) : string :=
  "request " +:+ FormatInt (i + 1) +:+ " allowed=" +:+ bool_text (dec_Allowed d) +:+ " action=" +:+ dec_Action d
  +:+ " remaining=" +:+ FormatInt (dec_Remaining d) +:+ " reason=" +:+ dec_Reason d.

Section Run.
Context {S : Type}.
(** An evaluator with its state; the error is its message. *)
Context (evaluate : RequestContext -> S -> (Decision * option string) * S).

(** The loop from round [i], [n] rounds before its end: the lines, and the error that
    [run] returns. *)
Fixpoint rounds (n : nat) (i : Z) (s : S) : list string * option string * S :=
  match n with
  | O => ([], None, s)
  | Datatypes.S n' =>
      match evaluate example_request s with
      | ((_, Some err), s') => ([], Some err, s')
      | ((d, None), s') =>
          let '(out, err, s'') := rounds n' (i + 1) s' in (example_line i d :: out, err, s'')
      end
  end.

Definition example_run (s : S) : list string * option string * S := rounds 5 0 s.
End Run.

(** The state of the program: the cache of the client, the counter store with its
    clock, and the pauses the program makes before its next rounds. *)
Record Running := { rn_cache : MemoryPolicyCache; rn_world : World; rn_pauses : list Duration }.

Section Client.
Context (visits : gmap string item -> list (string * item)).
(** encoding/json on the policy file, the file at every instant and the failures of
    reading it. *)
Context (Unmarshal : string -> result payload) (UnmarshalList : string -> result (list Policy)).
Context (sys : Sys) (disk : Disk).

(** [newClient]: options without a prefix or a time to live, on the file store and the
    memory store. *)
Definition example_client : DefaultEngine * MemoryPolicyCache := NewClient "" 0 true 0.

Definition example_evaluate (req : RequestContext) (s : Running) : (Decision * option string) * Running :=
  let now := w_clock (rn_world s) + default 0 (head (rn_pauses s)) in
  let '(p, c) := client_Evaluate visits example_client.1
                   (fun ns => LoadPolicies Unmarshal UnmarshalList ns sys disk) now now req (rn_cache s) in
  let '(d, w) := run memory p {| w_clock := now; w_store := w_store (rn_world s) |} in
  ((d, None), {| rn_cache := c; rn_world := w; rn_pauses := tail (rn_pauses s) |}).

Definition example_start (t : Time) (pauses : list Duration) : Running :=
  {| rn_cache := example_client.2; rn_world := {| w_clock := t; w_store := MemoryStore.New |}; rn_pauses := pauses |}.

(** Whatever the policy file holds, and if it cannot be read at all, the program
    prints a line for each of its five requests and does not panic. *)
Lemma example_never_panics s :
  length (example_run example_evaluate s).1.1 = 5%nat /\ (example_run example_evaluate s).1.2 = None.
Proof.
  unfold example_run. generalize 5%nat 0. intros n. revert s. induction n as [|n IH]; intros s i; [done|].
  cbn [rounds]. destruct (example_evaluate _ s) as [[d err] s'] eqn:E.
  assert (err = None) as ->.
  { revert E. unfold example_evaluate. repeat case_match; intros E; by simplify_eq. }
  destruct (IH s' (i + 1)) as [Hl He]. destruct (rounds _ _ _ s') as [[out err'] s'']. cbn in *. by rewrite Hl.
Qed.
End Client.

(** ** The policy file of the repository *)

(** examples/policies.json, as a JSON value. *)
Definition policies_json : wire :=
  WObj [("policies", WArr [WObj [
    ("policy_id", WStr "p-http-user-fixed"); ("name", WStr "User fixed window");
    ("description", WStr "Allow 3 requests/min per user on charge endpoint");
    ("enabled", WBool true); ("priority", WInt 100);
    ("scope", WObj [("org_id", WStr "acme"); ("tenant_id", WStr "retail"); ("service", WStr "payments");
                    ("signal_type", WStr "http"); ("endpoint", WStr "/v1/charge"); ("method", WStr "POST");
                    ("user_id", WStr "u1")]);
    ("algorithm", WObj [("type", WStr "fixed_window"); ("limit", WInt 3); ("window", WStr "1m")]);
    ("action", WStr "deny"); ("failure_mode", WStr "fail_open"); ("enforcement_mode", WStr "enforce");
    ("rollout_percent", WInt 100); ("valid_from_unix", WInt 0); ("valid_to_unix", WInt 0);
    ("metadata", WObj [("owner", WStr "example")])]])].

(** The policies of a file. *)
Definition policies_of_wire (v : wire) : option (list Policy) :=
  match v with
  | WObj ms => field (fun v _ => match v with WArr l => mapM policy_of_wire l | WNull => Some [] | _ => None end) "policies" ms []
  | _ => None
  end.

(** encoding/json on that file, and on one that is not JSON. *)
Definition decode_file (text : string) : result payload :=
  if String.eqb text "policies.json" then
    match policies_of_wire policies_json with
    | Some l => Ok {| pl_Policies := l; pl_Audits := []; pl_Versions := None |}
    | None => Err "unsupported"
    end
  else Err "invalid character 'o' in literal null (expecting 'u')".
Definition decode_list (text : string) : result (list Policy) := Err "invalid character 'o' in literal null (expecting 'u')".

Definition example_output (file : Disk) (pauses : list Duration) : list string :=
  (example_run (example_evaluate map_to_list decode_file decode_list no_failure file)
     (example_start (1700000040 * Second) pauses)).1.1.

(** Three requests of a minute are allowed, as the description of the policy says, and
    the next minute begins anew. *)
Example example_prints :
  example_output (Some "policies.json") [0; 0; 0; 30 * Second; 30 * Second] =
  ["request 1 allowed=true action=allow remaining=2 reason=within_fixed_window";
   "request 2 allowed=true action=allow remaining=1 reason=within_fixed_window";
   "request 3 allowed=true action=allow remaining=0 reason=within_fixed_window";
   "request 4 allowed=false action=deny remaining=0 reason=fixed_window_limit_exceeded";
   "request 5 allowed=true action=allow remaining=2 reason=within_fixed_window"].
Proof. by vm_compute. Qed.

(** Without the file nothing is limited, and neither with one that is not JSON. *)
Example example_without_policies :
  example_output None [] = (fun i => "request " +:+ FormatInt i +:+ " allowed=true action=allow remaining=0 reason=no policy matched") <$> [1; 2; 3; 4; 5] /\
  example_output (Some "not-json") [] = (fun i => "request " +:+ FormatInt i +:+ " allowed=true action=allow remaining=0 reason=policy resolution failed: invalid character 'o' in literal null (expecting 'u')") <$> [1; 2; 3; 4; 5].
Proof. by vm_compute. Qed.
