(* ===== verification/SdkApi.v ===== *)
(** * sdk: what the clients of the eight languages send

    Each client turns an operation of the API into a method, a path and a JSON body,
    and sends it to a base URL.  A module per language has the translation of its
    methods and of its use of the base URL.  The theorem is that the server does for
    every operation of every client what is meant by its arguments, when ids are plain,
    the policies of the client being the JSON documents it writes. *)

From Stdlib Require Import Ascii String.
From S2P Require Import Prelude GoString GoHash GoFloat GoTime GoJson Model Store Wire Engine PolicyStore ControlPlane Http Auth ServerCmd.
Local Open Scope Z_scope.
Local Open Scope stdpp_scope.

(** ** Operations *)

(** A call of a client method, with the document of its argument. *)
Inductive ApiCall :=
| Check (body : wire)
| Acquire (body : wire)
| Release (leaseId : string)
| ListPolicies
| GetPolicy (id : string)
| CreatePolicy (policy : wire)
| UpdatePolicy (id : string) (policy : wire)
| DeletePolicy (id : string)
| ValidatePolicy (policy : wire)
| UpdateRollout (id : string) (percent : Z)
| RollbackPolicy (id : string) (version : Z)
| ListPolicyAudit (id : string)
| ListPolicyVersions (id : string)
| AnalyticsSummary (top : option Z).

(** What goes to the HTTP library: method, path with query, body. *)
Record Sent := { st_Method : string; st_Path : string; st_Body : option wire }.

Definition sent_get (path : string) : Sent := {| st_Method := "GET"; st_Path := path; st_Body := None |}.
Definition sent_post (path : string) (body : wire) : Sent := {| st_Method := "POST"; st_Path := path; st_Body := Some body |}.
Definition sent_put (path : string) (body : wire) : Sent := {| st_Method := "PUT"; st_Path := path; st_Body := Some body |}.
Definition sent_delete (path : string) : Sent := {| st_Method := "DELETE"; st_Path := path; st_Body := None |}.

(** ** URLs *)

(** [strip_slashes]: without the slashes at the end. *)
Definition strip_slashes (s : string) : string := TrimRight s ["/"]%char.

(** The origin of a URL and what is asked of it. *)
Definition split_url (url : string) : option (string * string) :=
  match cut url "://" with
  | None => None
  | Some (scheme, rest) =>
      match cut rest "/" with
      | Some (authority, path) => Some (scheme +:+ "://" +:+ authority, "/" +:+ path)
      | None => Some (scheme +:+ "://" +:+ rest, "/")
      end
  end.

(** The path of a request target. *)
Definition target_path (target : string) : string := match cut target "?" with Some (path, _) => path | None => target end.

(** A client that appends its paths to the base URL it was given. *)
Definition appended (base path : string) : option (string * string) := split_url (strip_slashes base +:+ path).

(** ** Python *)

Module Python.
Definition request (c : ApiCall) : Sent :=
  match c with
  | Check req => sent_post "/rlaas/v1/check" req
  | Acquire request => sent_post "/rlaas/v1/acquire" request
  | Release lease_id => sent_post "/rlaas/v1/release" (WObj [("lease_id", WStr lease_id)])
  | ListPolicies => sent_get "/rlaas/v1/policies"
  | GetPolicy policy_id => sent_get ("/rlaas/v1/policies/" +:+ policy_id)
  | CreatePolicy policy => sent_post "/rlaas/v1/policies" policy
  | UpdatePolicy policy_id policy => sent_put ("/rlaas/v1/policies/" +:+ policy_id) policy
  | DeletePolicy policy_id => sent_delete ("/rlaas/v1/policies/" +:+ policy_id)
  | ValidatePolicy policy => sent_post "/rlaas/v1/policies/validate" policy
  | UpdateRollout policy_id rollout_percent =>
      sent_post ("/rlaas/v1/policies/" +:+ policy_id +:+ "/rollout") (WObj [("rollout_percent", WInt rollout_percent)])
  | RollbackPolicy policy_id version =>
      sent_post ("/rlaas/v1/policies/" +:+ policy_id +:+ "/rollback") (WObj [("version", WInt version)])
  | ListPolicyAudit policy_id => sent_get ("/rlaas/v1/policies/" +:+ policy_id +:+ "/audit")
  | ListPolicyVersions policy_id => sent_get ("/rlaas/v1/policies/" +:+ policy_id +:+ "/versions")
  | AnalyticsSummary top =>
      let query := match top with Some top => "?top=" +:+ FormatInt top | None => "" end in
      sent_get ("/rlaas/v1/analytics/summary" +:+ query)
  end.

(** [self.base_url = base_url.rstrip("/")]. *)
Definition locate (base_url path : string) : option (string * string) := appended base_url path.
End Python.

(** ** Node.js *)

Module Node.
Definition request (c : ApiCall) : Sent :=
  match c with
  | Check req => sent_post "/rlaas/v1/check" req
  | Acquire body => sent_post "/rlaas/v1/acquire" body
  | Release leaseId => sent_post "/rlaas/v1/release" (WObj [("lease_id", WStr leaseId)])
  | ListPolicies => sent_get "/rlaas/v1/policies"
  | GetPolicy id => sent_get ("/rlaas/v1/policies/" +:+ id)
  | CreatePolicy policy => sent_post "/rlaas/v1/policies" policy
  | UpdatePolicy id policy => sent_put ("/rlaas/v1/policies/" +:+ id) policy
  | DeletePolicy id => sent_delete ("/rlaas/v1/policies/" +:+ id)
  | ValidatePolicy policy => sent_post "/rlaas/v1/policies/validate" policy
  | UpdateRollout id pct => sent_post ("/rlaas/v1/policies/" +:+ id +:+ "/rollout") (WObj [("rollout_percent", WInt pct)])
  | RollbackPolicy id version => sent_post ("/rlaas/v1/policies/" +:+ id +:+ "/rollback") (WObj [("version", WInt version)])
  | ListPolicyAudit id => sent_get ("/rlaas/v1/policies/" +:+ id +:+ "/audit")
  | ListPolicyVersions id => sent_get ("/rlaas/v1/policies/" +:+ id +:+ "/versions")
  | AnalyticsSummary top =>
      let qs := match top with Some top => "?top=" +:+ FormatInt top | None => "" end in
      sent_get ("/rlaas/v1/analytics/summary" +:+ qs)
  end.

(** [new URL(this._base + path)]: its host is connected to, its path and query are sent. *)
Definition locate (baseUrl path : string) : option (string * string) := appended baseUrl path.
End Node.

(** ** TypeScript *)

Module TypeScript.
Definition request (c : ApiCall) : Sent :=
  match c with
  | Check req => sent_post "/rlaas/v1/check" req
  | Acquire request => sent_post "/rlaas/v1/acquire" request
  | Release leaseId => sent_post "/rlaas/v1/release" (WObj [("lease_id", WStr leaseId)])
  | ListPolicies => sent_get "/rlaas/v1/policies"
  | GetPolicy policyId => sent_get ("/rlaas/v1/policies/" +:+ policyId)
  | CreatePolicy policy => sent_post "/rlaas/v1/policies" policy
  | UpdatePolicy policyId policy => sent_put ("/rlaas/v1/policies/" +:+ policyId) policy
  | DeletePolicy policyId => sent_delete ("/rlaas/v1/policies/" +:+ policyId)
  | ValidatePolicy policy => sent_post "/rlaas/v1/policies/validate" policy
  | UpdateRollout policyId rolloutPercent =>
      sent_post ("/rlaas/v1/policies/" +:+ policyId +:+ "/rollout") (WObj [("rollout_percent", WInt rolloutPercent)])
  | RollbackPolicy policyId version =>
      sent_post ("/rlaas/v1/policies/" +:+ policyId +:+ "/rollback") (WObj [("version", WInt version)])
  | ListPolicyAudit policyId => sent_get ("/rlaas/v1/policies/" +:+ policyId +:+ "/audit")
  | ListPolicyVersions policyId => sent_get ("/rlaas/v1/policies/" +:+ policyId +:+ "/versions")
  | AnalyticsSummary top =>
      let suffix := match top with Some top => "?top=" +:+ FormatInt top | None => "" end in
      sent_get ("/rlaas/v1/analytics/summary" +:+ suffix)
  end.

Definition locate (baseUrl path : string) : option (string * string) := appended baseUrl path.
End TypeScript.

(** ** Ruby *)

Module Ruby.
Definition request (c : ApiCall) : Sent :=
  match c with
  | Check req => sent_post "/rlaas/v1/check" req
  | Acquire body => sent_post "/rlaas/v1/acquire" body
  | Release lease_id => sent_post "/rlaas/v1/release" (WObj [("lease_id", WStr lease_id)])
  | ListPolicies => sent_get "/rlaas/v1/policies"
  | GetPolicy policy_id => sent_get ("/rlaas/v1/policies/" +:+ policy_id)
  | CreatePolicy policy => sent_post "/rlaas/v1/policies" policy
  | UpdatePolicy policy_id policy => sent_put ("/rlaas/v1/policies/" +:+ policy_id) policy
  | DeletePolicy policy_id => sent_delete ("/rlaas/v1/policies/" +:+ policy_id)
  | ValidatePolicy policy => sent_post "/rlaas/v1/policies/validate" policy
  | UpdateRollout policy_id rollout_percent =>
      sent_post ("/rlaas/v1/policies/" +:+ policy_id +:+ "/rollout") (WObj [("rollout_percent", WInt rollout_percent)])
  | RollbackPolicy policy_id version =>
      sent_post ("/rlaas/v1/policies/" +:+ policy_id +:+ "/rollback") (WObj [("version", WInt version)])
  | ListPolicyAudit policy_id => sent_get ("/rlaas/v1/policies/" +:+ policy_id +:+ "/audit")
  | ListPolicyVersions policy_id => sent_get ("/rlaas/v1/policies/" +:+ policy_id +:+ "/versions")
  | AnalyticsSummary top =>
      let path := "/rlaas/v1/analytics/summary" in
      let path := match top with Some top => path +:+ "?top=" +:+ FormatInt top | None => path end in
      sent_get path
  end.

(** [Net::HTTP.new(uri.host, uri.port)] of the base URL without one slash at its end,
    to which the paths alone are sent. *)
Definition locate (base_url path : string) : option (string * string) :=
  match split_url (TrimSuffix base_url "/") with Some (origin, _) => Some (origin, path) | None => None end.
End Ruby.

(** ** Java *)

Module Java.
Record Policy := {
  policyId : option string; name : option string; enabled : bool; priority : Z; scope : option members; algorithm : option members;
  action : option string; failureMode : option string; enforcementMode : option string; rolloutPercent : Z
}.

(** The properties of the bean, by its getters; null for what is null. *)
Definition policy_properties (p : Policy) : members :=
  let text s := match s with Some s => WStr s | None => WNull end in
  let object m := match m with Some m => WObj m | None => WNull end in
  [("policyId", text (policyId p)); ("name", text (name p)); ("enabled", WBool (enabled p)); ("priority", WInt (priority p));
   ("scope", object (scope p)); ("algorithm", object (algorithm p)); ("action", text (action p));
   ("failureMode", text (failureMode p)); ("enforcementMode", text (enforcementMode p)); ("rolloutPercent", WInt (rolloutPercent p))].

Definition request (c : ApiCall) : Sent :=
  match c with
  | Check request => sent_post "/rlaas/v1/check" request
  | Acquire request => sent_post "/rlaas/v1/acquire" request
  | Release leaseId => sent_post "/rlaas/v1/release" (WObj [("lease_id", WStr leaseId)])
  | ListPolicies => sent_get "/rlaas/v1/policies"
  | GetPolicy policyId => sent_get ("/rlaas/v1/policies/" +:+ policyId)
  | CreatePolicy policy => sent_post "/rlaas/v1/policies" policy
  | UpdatePolicy policyId policy => sent_put ("/rlaas/v1/policies/" +:+ policyId) policy
  | DeletePolicy policyId => sent_delete ("/rlaas/v1/policies/" +:+ policyId)
  | ValidatePolicy policy => sent_post "/rlaas/v1/policies/validate" policy
  | UpdateRollout policyId rolloutPercent =>
      sent_post ("/rlaas/v1/policies/" +:+ policyId +:+ "/rollout") (WObj [("rollout_percent", WInt rolloutPercent)])
  | RollbackPolicy policyId version =>
      sent_post ("/rlaas/v1/policies/" +:+ policyId +:+ "/rollback") (WObj [("version", WInt version)])
  | ListPolicyAudit policyId => sent_get ("/rlaas/v1/policies/" +:+ policyId +:+ "/audit")
  | ListPolicyVersions policyId => sent_get ("/rlaas/v1/policies/" +:+ policyId +:+ "/versions")
  | AnalyticsSummary top =>
      sent_get ("/rlaas/v1/analytics/summary" +:+ match top with None => "" | Some top => "?top=" +:+ FormatInt top end)
  end.

Definition locate (baseUrl path : string) : option (string * string) := appended baseUrl path.
End Java.

(** ** .NET *)

Module DotNet.
Record Policy := {
  PolicyId : string; Name : string; Enabled : bool; Priority : Z; Scope : members; Algorithm : members; Action : string;
  FailureMode : string; EnforcementMode : string; RolloutPercent : Z
}.

(** [JsonSerializer.Serialize] with the defaults of the web: names in camel case. *)
Definition policy_json (p : Policy) : wire :=
  WObj [("policyId", WStr (PolicyId p)); ("name", WStr (Name p)); ("enabled", WBool (Enabled p)); ("priority", WInt (Priority p));
        ("scope", WObj (Scope p)); ("algorithm", WObj (Algorithm p)); ("action", WStr (Action p));
        ("failureMode", WStr (FailureMode p)); ("enforcementMode", WStr (EnforcementMode p));
        ("rolloutPercent", WInt (RolloutPercent p))].

Definition request (c : ApiCall) : Sent :=
  match c with
  | Check request => sent_post "/rlaas/v1/check" request
  | Acquire request => sent_post "/rlaas/v1/acquire" request
  | Release leaseId => sent_post "/rlaas/v1/release" (WObj [("lease_id", WStr leaseId)])
  | ListPolicies => sent_get "/rlaas/v1/policies"
  | GetPolicy policyId => sent_get ("/rlaas/v1/policies/" +:+ policyId)
  | CreatePolicy policy => sent_post "/rlaas/v1/policies" policy
  | UpdatePolicy policyId policy => sent_put ("/rlaas/v1/policies/" +:+ policyId) policy
  | DeletePolicy policyId => sent_delete ("/rlaas/v1/policies/" +:+ policyId)
  | ValidatePolicy policy => sent_post "/rlaas/v1/policies/validate" policy
  | UpdateRollout policyId rolloutPercent =>
      sent_post ("/rlaas/v1/policies/" +:+ policyId +:+ "/rollout") (WObj [("rollout_percent", WInt rolloutPercent)])
  | RollbackPolicy policyId version =>
      sent_post ("/rlaas/v1/policies/" +:+ policyId +:+ "/rollback") (WObj [("version", WInt version)])
  | ListPolicyAudit policyId => sent_get ("/rlaas/v1/policies/" +:+ policyId +:+ "/audit")
  | ListPolicyVersions policyId => sent_get ("/rlaas/v1/policies/" +:+ policyId +:+ "/versions")
  | AnalyticsSummary top =>
      let suffix := match top with Some top => "?top=" +:+ FormatInt top | None => "" end in
      sent_get ("/rlaas/v1/analytics/summary" +:+ suffix)
  end.

Definition locate (baseUrl path : string) : option (string * string) := appended baseUrl path.
End DotNet.

(** ** Rust *)

Module Rust.
Definition request (c : ApiCall) : Sent :=
  match c with
  | Check req => sent_post "/rlaas/v1/check" req
  | Acquire body => sent_post "/rlaas/v1/acquire" body
  | Release lease_id => sent_post "/rlaas/v1/release" (WObj [("lease_id", WStr lease_id)])
  | ListPolicies => sent_get "/rlaas/v1/policies"
  | GetPolicy policy_id => sent_get ("/rlaas/v1/policies/" +:+ policy_id)
  | CreatePolicy policy => sent_post "/rlaas/v1/policies" policy
  | UpdatePolicy policy_id policy => sent_put ("/rlaas/v1/policies/" +:+ policy_id) policy
  | DeletePolicy policy_id => sent_delete ("/rlaas/v1/policies/" +:+ policy_id)
  | ValidatePolicy policy => sent_post "/rlaas/v1/policies/validate" policy
  | UpdateRollout policy_id rollout_percent =>
      sent_post ("/rlaas/v1/policies/" +:+ policy_id +:+ "/rollout") (WObj [("rollout_percent", WInt rollout_percent)])
  | RollbackPolicy policy_id version =>
      sent_post ("/rlaas/v1/policies/" +:+ policy_id +:+ "/rollback") (WObj [("version", WInt version)])
  | ListPolicyAudit policy_id => sent_get ("/rlaas/v1/policies/" +:+ policy_id +:+ "/audit")
  | ListPolicyVersions policy_id => sent_get ("/rlaas/v1/policies/" +:+ policy_id +:+ "/versions")
  | AnalyticsSummary top =>
      let path := match top with
                  | Some n => "/rlaas/v1/analytics/summary?top=" +:+ FormatInt n
                  | None => "/rlaas/v1/analytics/summary"
                  end in
      sent_get path
  end.

(** [base_url.trim_end_matches('/')], then [format!("{}{}", self.base_url, path)]. *)
Definition locate (base_url path : string) : option (string * string) := appended base_url path.
End Rust.

(** ** C++ *)

Module Cpp.
Definition request (c : ApiCall) : Sent :=
  match c with
  | Check j => sent_post "/rlaas/v1/check" j
  | Acquire json_body => sent_post "/rlaas/v1/acquire" json_body
  | Release lease_id => sent_post "/rlaas/v1/release" (WObj [("lease_id", WStr lease_id)])
  | ListPolicies => sent_get "/rlaas/v1/policies"
  | GetPolicy policy_id => sent_get ("/rlaas/v1/policies/" +:+ policy_id)
  | CreatePolicy json_body => sent_post "/rlaas/v1/policies" json_body
  | UpdatePolicy policy_id json_body => sent_put ("/rlaas/v1/policies/" +:+ policy_id) json_body
  | DeletePolicy policy_id => sent_delete ("/rlaas/v1/policies/" +:+ policy_id)
  | ValidatePolicy json_body => sent_post "/rlaas/v1/policies/validate" json_body
  | UpdateRollout policy_id rollout_percent =>
      sent_post ("/rlaas/v1/policies/" +:+ policy_id +:+ "/rollout") (WObj [("rollout_percent", WInt rollout_percent)])
  | RollbackPolicy policy_id version =>
      sent_post ("/rlaas/v1/policies/" +:+ policy_id +:+ "/rollback") (WObj [("version", WInt version)])
  | ListPolicyAudit policy_id => sent_get ("/rlaas/v1/policies/" +:+ policy_id +:+ "/audit")
  | ListPolicyVersions policy_id => sent_get ("/rlaas/v1/policies/" +:+ policy_id +:+ "/versions")
  | AnalyticsSummary top =>
      let path := "/rlaas/v1/analytics/summary" in
      let path := match top with Some n => path +:+ "?top=" +:+ FormatInt n | None => path end in
      sent_get path
  end.

(** [while (!base_url.empty() && base_url.back() == '/') base_url.pop_back();], then
    [base_url + path]. *)
Definition locate (base_url path : string) : option (string * string) := appended base_url path.
End Cpp.

(** ** What the server does with it *)

(** The clients: how they make requests, and where they send them. *)
Record SdkClient := { sdk_request : ApiCall -> Sent; sdk_locate : string -> string -> option (string * string) }.

Definition clients : list SdkClient :=
  [Build_SdkClient Python.request Python.locate; Build_SdkClient Node.request Node.locate;
   Build_SdkClient TypeScript.request TypeScript.locate; Build_SdkClient Ruby.request Ruby.locate;
   Build_SdkClient Java.request Java.locate; Build_SdkClient DotNet.request DotNet.locate;
   Build_SdkClient Rust.request Rust.locate; Build_SdkClient Cpp.request Cpp.locate].

(** Letters, digits, hyphens and underscores, which no URL encoding changes. *)
Definition plain_char (c : ascii) : bool :=
  let n := nat_of_ascii c in
  ((48 <=? n) && (n <=? 57) || (65 <=? n) && (n <=? 90) || (97 <=? n) && (n <=? 122))%nat || Ascii.eqb c "-" || Ascii.eqb c "_".

Definition plain (s : string) : bool := negb (String.eqb s "") && str_all plain_char s.

Definition call_id (c : ApiCall) : option string :=
  match c with
  | GetPolicy id | UpdatePolicy id _ | DeletePolicy id | UpdateRollout id _ | RollbackPolicy id _
  | ListPolicyAudit id | ListPolicyVersions id => Some id
  | _ => None
  end.

(** The ids of a call are plain, a policy that is read is not called like the resources
    below a policy, and numbers have 64 bits. *)
Definition plain_call (c : ApiCall) : bool :=
  match call_id c with Some id => plain id | None => true end &&
  match c with
  | GetPolicy id => negb (String.eqb id "audit") && negb (String.eqb id "versions")
  | UpdateRollout _ n | RollbackPolicy _ n => bool_decide (in_int64 n)
  | _ => true
  end.

(** [scheme://authority], and slashes after it. *)
Definition no_slash (c : ascii) : bool := negb (Ascii.eqb c "/").
Definition no_colon (c : ascii) : bool := negb (Ascii.eqb c ":").
Fixpoint slashes (n : nat) : string := match n with O => "" | S n' => String "/" (slashes n') end.

Record origin_ok (scheme authority : string) : Prop := {
  og_scheme : str_all no_colon scheme = true;
  og_authority : str_all no_slash authority = true;
  og_nonempty : authority <> ""
}.

Definition origin (scheme authority : string) : string := scheme +:+ "://" +:+ authority.

(** The handler of the server that a call is meant for. *)
Definition handler_of {St} (hs : Handlers St) (c : ApiCall) : Handler St :=
  match c with
  | Check _ => hd_check hs
  | Acquire _ => hd_acquire hs
  | Release _ => hd_release hs
  | AnalyticsSummary _ => hd_summary hs
  | _ => hd_policies hs
  end.

(** *** URLs *)

Lemma trim_slashes n s : (forall s', s <> String "/" s') -> trim_left ["/"] (slashes n +:+ s) = s.
Proof.
  intros Hs. unfold trim_left. rewrite str_length_app.
  assert (Hstop : forall k, trim_left_fuel k ["/"] s = s).
  { intros [|k]; [done|]. cbn [trim_left_fuel List.find]. destruct (String.prefix "/" s) eqn:E; [|done].
    apply prefix_inv in E as [t ->]. by destruct (Hs t). }
  assert (H : forall k, trim_left_fuel (String.length (slashes n) + k) ["/"] (slashes n +:+ s) = s); [|apply H].
  intros k. induction n as [|n IH]; [apply Hstop|]. cbn [slashes String.length Nat.add trim_left_fuel List.find].
  rewrite str_app_cons. change (String "/" (slashes n +:+ s)) with ("/" +:+ (slashes n +:+ s)).
  by rewrite prefix_app, str_drop_app.
Qed.

Lemma slashes_snoc n : slashes n +:+ "/" = String "/" (slashes n).
Proof. induction n as [|n IH]; [done|]. cbn [slashes]. by rewrite str_app_cons, IH. Qed.

Lemma slashes_rev n : str_rev (slashes n) = slashes n.
Proof. induction n as [|n IH]; [done|]. cbn [slashes]. by rewrite str_rev_cons, IH, slashes_snoc. Qed.

Lemma rev_no_slash s : str_all no_slash s = true -> s <> "" -> forall t s', str_rev (t +:+ s) <> String "/" s'.
Proof.
  intros Ha Hne t s' E. rewrite str_rev_concat in E. rewrite <- str_all_rev in Ha.
  destruct (str_rev s) as [|c r] eqn:Er.
  - apply Hne. by rewrite <- (str_rev_involutive s), Er.
  - rewrite str_app_cons in E. injection E as -> _. done.
Qed.

Lemma strip_origin scheme authority n :
  origin_ok scheme authority -> strip_slashes (origin scheme authority +:+ slashes n) = origin scheme authority.
Proof.
  intros [Hs Ha Hne]. unfold strip_slashes, TrimRight. cbn [fmap list_fmap]. rewrite str_rev_concat, slashes_rev, trim_slashes.
  - apply str_rev_involutive.
  - unfold origin. intros s'. rewrite <- str_app_assoc. by apply rev_no_slash.
Qed.

Lemma split_origin scheme authority path :
  origin_ok scheme authority -> split_url (origin scheme authority +:+ String "/" path) = Some (origin scheme authority, String "/" path).
Proof.
  intros [Hs Ha Hne]. unfold split_url, origin. rewrite !str_app_assoc.
  rewrite (cut_app no_colon scheme ":" "//") by done.
  change (String "/" path) with ("/" +:+ path). by rewrite (cut_app no_slash authority "/" "") by done.
Qed.

Lemma appended_origin scheme authority n path :
  origin_ok scheme authority ->
  appended (origin scheme authority +:+ slashes n) (String "/" path) = Some (origin scheme authority, String "/" path).
Proof. intros H. unfold appended. rewrite strip_origin by done. by apply split_origin. Qed.

Lemma ruby_origin scheme authority n path :
  origin_ok scheme authority -> Ruby.locate (origin scheme authority +:+ slashes n) path = Some (origin scheme authority, path).
Proof.
  intros H. unfold Ruby.locate. destruct n as [|n].
  - rewrite str_app_nil_r. unfold TrimSuffix. pose proof H as [Hs Ha Hne].
    assert (E : HasSuffix (origin scheme authority) "/" = false).
    { unfold HasSuffix. change (str_rev "/") with "/". destruct (String.prefix "/" _) eqn:E; [|done].
      apply prefix_inv in E as [t E]. exfalso. revert E. unfold origin. rewrite <- str_app_assoc. by apply rev_no_slash. }
    rewrite E. unfold split_url, origin. rewrite (cut_app no_colon scheme ":" "//") by done.
    by rewrite (cut_none no_slash authority "/" "") by done.
  - cbn [slashes]. rewrite <- slashes_snoc, <- str_app_assoc, TrimSuffix_app. destruct n as [|n].
    + rewrite str_app_nil_r. pose proof H as [Hs Ha Hne]. unfold split_url, origin.
      rewrite (cut_app no_colon scheme ":" "//") by done. by rewrite (cut_none no_slash authority "/" "") by done.
    + cbn [slashes]. by rewrite split_origin.
Qed.

(** *** Paths *)

Lemma plain_slash s : str_all plain_char s = true -> str_all no_slash s = true.
Proof.
  induction s as [|c s IH]; [done|]. cbn [str_all]. intros [Hc Hs]%andb_true_iff. rewrite (IH Hs), andb_true_r.
  unfold no_slash. destruct (Ascii.eqb_spec c "/") as [->|]; done.
Qed.

Definition no_query (c : ascii) : bool := negb (Ascii.eqb c "?").

Lemma plain_query s : str_all plain_char s = true -> str_all no_query s = true.
Proof.
  induction s as [|c s IH]; [done|]. cbn [str_all]. intros [Hc Hs]%andb_true_iff. rewrite (IH Hs), andb_true_r.
  unfold no_query. destruct (Ascii.eqb_spec c "?") as [->|]; done.
Qed.

Lemma target_path_id s : str_all no_query s = true -> target_path s = s.
Proof. intros H. unfold target_path. by rewrite (cut_none no_query s "?" "") by done. Qed.

(** The last element of a path is what follows its last slash. *)
Lemma last_element a b x y :
  str_all no_slash x = true -> str_all no_slash y = true -> a +:+ "/" +:+ x = b +:+ "/" +:+ y -> x = y.
Proof.
  intros Hx Hy E. apply (f_equal str_rev) in E. rewrite !str_rev_concat in E. change (str_rev "/") with "/" in E.
  rewrite !str_app_assoc in E. apply (f_equal (fun s => cut s "/")) in E.
  rewrite !(cut_app no_slash _ "/" "") in E by (by rewrite ?str_all_rev). injection E as E _.
  by rewrite <- (str_rev_involutive x), E, str_rev_involutive.
Qed.

Lemma suffix_inv s p : HasSuffix s p = true -> exists t, s = t +:+ p.
Proof.
  unfold HasSuffix. intros [t E]%prefix_inv. exists (str_rev t). apply (f_equal str_rev) in E.
  by rewrite str_rev_concat, !str_rev_involutive in E.
Qed.

(** Only a policy of that name has its path end like the path of a resource. *)
Lemma under_resource id name :
  str_all no_slash id = true -> str_all no_slash name = true -> id <> name -> under (policies_prefix +:+ id) ("/" +:+ name) = false.
Proof.
  intros Hi Hn Hne. unfold under. apply andb_false_iff. right. destruct (HasSuffix _ _) eqn:E; [|done].
  apply suffix_inv in E as [t E]. destruct Hne. change policies_prefix with ("/rlaas/v1/policies" +:+ "/") in E.
  rewrite str_app_assoc in E. by apply last_element in E.
Qed.

Lemma under_suffix id suffix : under (policies_prefix +:+ id +:+ suffix) suffix = true.
Proof. unfold under, HasPrefix. rewrite prefix_app. rewrite <- str_app_assoc. apply HasSuffix_app. Qed.

Lemma id_before_suffix id suffix : id_before (policies_prefix +:+ id +:+ suffix) suffix = id.
Proof. unfold id_before. by rewrite TrimPrefix_app, TrimSuffix_app. Qed.

Lemma longer_path id : String.eqb (policies_prefix +:+ id) policies_path = false.
Proof.
  apply String.eqb_neq. intros E%(f_equal String.length). rewrite str_length_app in E. simpl in E. lia.
Qed.

Lemma prefix_of_path id : HasPrefix (policies_prefix +:+ id) policies_prefix = true.
Proof. apply prefix_app. Qed.

(** *** Routes *)

Lemma route_policies {St} ready (hs : Handlers St) id :
  id <> "" -> route (server_routes ready hs) (policies_prefix +:+ id) = Some (hd_policies hs).
Proof.
  intros Hid. destruct id as [|c id]; [done|]. unfold route, policies_prefix. cbn. done.
Qed.

(** *** Agreement *)

Lemma same_request cl c : cl ∈ clients -> sdk_request cl c = Python.request c.
Proof.
  intros H. unfold clients in H. repeat (apply elem_of_cons in H as [->|H]; [by destruct c as [| | | | | | | | | | | | |[top|]]|]).
  by apply elem_of_nil in H.
Qed.

Lemma same_place cl scheme authority n path : cl ∈ clients -> origin_ok scheme authority ->
  sdk_locate cl (origin scheme authority +:+ slashes n) (String "/" path) = Some (origin scheme authority, String "/" path).
Proof.
  intros H Ho. unfold clients in H.
  repeat (apply elem_of_cons in H as [->|H]; [first [by apply appended_origin|by apply ruby_origin]|]).
  by apply elem_of_nil in H.
Qed.

Section Switch.
Context {S : Type} `{PolicyStoreOps S}.
Context (cfg : HandlerConfig) (DecodePolicy : string -> result Policy) (DecodeVersion : string -> result int64)
        (DecodeRollout : string -> result Z) (now : Time).

(** The case of the switch for a call, on the path it is given, and the id which that
    case cuts out of the path. *)
Definition switched (c : ApiCall) (path body : string) (s : S) (r : @Reply S) : Prop :=
  match c with
  | ListPolicies => r = ControlPlane.list_policies cfg s
  | GetPolicy id => TrimPrefix path policies_prefix = id /\ r = get_policy path s
  | CreatePolicy _ => r = create_policy cfg DecodePolicy now body s
  | UpdatePolicy id _ => TrimPrefix path policies_prefix = id /\ r = update_policy cfg DecodePolicy path body s
  | DeletePolicy id => TrimPrefix path policies_prefix = id /\ r = delete_policy cfg path s
  | ValidatePolicy _ => r = validate_policy cfg DecodePolicy body s
  | UpdateRollout id _ => id_before path "/rollout" = id /\ r = rollout_policy cfg DecodeRollout path body s
  | RollbackPolicy id _ => id_before path "/rollback" = id /\ r = rollback_policy cfg DecodeVersion path body s
  | ListPolicyAudit id => id_before path "/audit" = id /\ r = policy_audit path s
  | ListPolicyVersions id => id_before path "/versions" = id /\ r = policy_versions path s
  | Check _ | Acquire _ | Release _ | AnalyticsSummary _ => True
  end.

Let handle (m path body : string) : S -> @Reply S :=
  PoliciesHandlerWithConfig cfg DecodePolicy DecodeVersion DecodeRollout now {| hr_Method := m; hr_Path := path; hr_Body := body |}.

Lemma plain_parts id : plain id = true -> id <> "" /\ str_all plain_char id = true.
Proof. unfold plain. intros [Hn Hp]%andb_true_iff. split; [|done]. intros ->. done. Qed.

Lemma switched_get id body s : plain_call (GetPolicy id) = true ->
  switched (GetPolicy id) (policies_prefix +:+ id) body s (handle "GET" (policies_prefix +:+ id) body s).
Proof.
  unfold plain_call. cbn [call_id]. rewrite !andb_true_iff, !negb_true_iff. intros (Hp & Ha & Hv).
  apply plain_parts in Hp as [Hne Hp]. apply String.eqb_neq in Ha, Hv. apply plain_slash in Hp.
  split; [apply TrimPrefix_app|]. unfold handle, PoliciesHandlerWithConfig. cbn [hr_Method hr_Path].
  assert (E1 : under (policies_prefix +:+ id) "/audit" = false) by by apply (under_resource id "audit").
  assert (E2 : under (policies_prefix +:+ id) "/versions" = false) by by apply (under_resource id "versions").
  by rewrite longer_path, E1, E2, prefix_of_path.
Qed.

Lemma switched_resource c id name body s :
  (c = ListPolicyAudit id /\ name = "/audit") \/ (c = ListPolicyVersions id /\ name = "/versions") ->
  switched c (policies_prefix +:+ id +:+ name) body s (handle "GET" (policies_prefix +:+ id +:+ name) body s).
Proof.
  intros [[-> ->]|[-> ->]]; (split; [apply id_before_suffix|]); unfold handle, PoliciesHandlerWithConfig; cbn [hr_Method hr_Path];
    rewrite longer_path.
  - by rewrite under_suffix.
  - assert (E : under (policies_prefix +:+ id +:+ "/versions") "/audit" = false).
    { unfold under. apply andb_false_iff. right. unfold HasSuffix. rewrite <- str_app_assoc, str_rev_concat. done. }
    by rewrite E, under_suffix.
Qed.

Lemma switched_post c id name body s : str_all plain_char id = true ->
  (exists v, c = RollbackPolicy id v /\ name = "/rollback") \/ (exists n, c = UpdateRollout id n /\ name = "/rollout") ->
  switched c (policies_prefix +:+ id +:+ name) body s (handle "POST" (policies_prefix +:+ id +:+ name) body s).
Proof.
  intros Hp Hc. apply plain_slash in Hp.
  assert (Hv : String.eqb (policies_prefix +:+ id +:+ name) (policies_prefix +:+ "validate") = false).
  { apply String.eqb_neq. intros E%str_app_inj_l. apply (f_equal (str_all no_slash)) in E. rewrite str_all_app in E.
    destruct Hc as [(? & _ & ->)|(? & _ & ->)]; rewrite andb_comm in E; done. }
  destruct Hc as [(v & -> & ->)|(n & -> & ->)]; (split; [apply id_before_suffix|]); unfold handle, PoliciesHandlerWithConfig;
    cbn [hr_Method hr_Path hr_Body]; rewrite longer_path, Hv.
  - by rewrite under_suffix.
  - assert (E : under (policies_prefix +:+ id +:+ "/rollout") "/rollback" = false).
    { unfold under. apply andb_false_iff. right. unfold HasSuffix. rewrite <- str_app_assoc, str_rev_concat. done. }
    by rewrite E, under_suffix.
Qed.

Lemma switched_call c body s : plain_call c = true ->
  switched c (target_path (st_Path (Python.request c))) body s
    (handle (st_Method (Python.request c)) (target_path (st_Path (Python.request c))) body s).
Proof.
  intros Hc. destruct c as [b|b|id| |id|p|id p|id|p|id n|id v|id|id|top]; try done; cbn [Python.request st_Path st_Method sent_get sent_post sent_put sent_delete];
    try (assert (Hp : plain id = true) by (unfold plain_call in Hc; cbn [call_id] in Hc; by apply andb_true_iff in Hc as [? _]);
         apply plain_parts in Hp as [Hne Hp]; pose proof (plain_query id Hp) as Hq;
         rewrite target_path_id by (by rewrite ?str_all_app, Hq)).
  - by apply (switched_get id).
  - change ("/rlaas/v1/policies/" +:+ id) with (policies_prefix +:+ id).
    split; [apply TrimPrefix_app|]. unfold handle, PoliciesHandlerWithConfig. cbn [hr_Method hr_Path hr_Body].
    by rewrite (prefix_of_path id).
  - change ("/rlaas/v1/policies/" +:+ id) with (policies_prefix +:+ id).
    split; [apply TrimPrefix_app|]. unfold handle, PoliciesHandlerWithConfig. cbn [hr_Method hr_Path hr_Body].
    by rewrite (prefix_of_path id).
  - apply (switched_post _ id "/rollout"); [done|]. right. by exists n.
  - apply (switched_post _ id "/rollback"); [done|]. left. by exists v.
  - apply (switched_resource _ id "/audit"). by left.
  - apply (switched_resource _ id "/versions"). by right.
Qed.
End Switch.

(** *** What a call means *)

Section Meaning.
Context {S : Type} `{PolicyStoreOps S}.

Definition ok_with (body : Body) : HTTPResponse := {| rs_Status := 200; rs_Body := body |}.

(** A policy is stored, and given back with the status [status]. *)
Definition saves (status : Z) (p : Policy) (s : S) : HTTPResponse * S :=
  match ps_UpsertPolicy p s with
  | (Ok _, s') => ({| rs_Status := status; rs_Body := BodyPolicy p |}, s')
  | (Err _, s') => (http_error 500 "policy store error", s')
  end.

(** What is answered to a call on policies, and what becomes of them, in terms of its
    arguments; a policy is what the server reads in the document of the client. *)
Definition meant (now : Time) (c : ApiCall) (s : S) : option (HTTPResponse * S) :=
  let invalid := (http_error 400 "invalid request", s) in
  match c with
  | ListPolicies =>
      Some (match ps_ListPolicies s with Ok l => ok_with (BodyPolicies l) | Err _ => http_error 500 "policy store error" end, s)
  | GetPolicy id =>
      Some (match ps_GetPolicyByID id s with Ok p => ok_with (BodyPolicy p) | Err _ => http_error 404 "policy not found" end, s)
  | CreatePolicy v =>
      Some (match policy_of_wire v with
            | Some p => saves 201 (if String.eqb (pol_PolicyID p) "" then with_id p ("policy-" +:+ FormatInt (UnixNano now)) else p) s
            | None => invalid
            end)
  | UpdatePolicy id v => Some (match policy_of_wire v with Some p => saves 200 (with_id p id) s | None => invalid end)
  | DeletePolicy id =>
      Some (match ps_DeletePolicy id s with
            | (Ok _, s') => ({| rs_Status := 204; rs_Body := BodyNone |}, s')
            | (Err _, s') => (http_error 500 "policy store error", s')
            end)
  | ValidatePolicy v =>
      Some (match policy_of_wire v with
            | Some p => (match validatePolicy p with Ok _ => ok_with BodyValid | Err err => http_error 400 err end, s)
            | None => invalid
            end)
  | UpdateRollout id n =>
      Some (if (n <? 0) || (100 <? n) then (http_error 400 "rollout_percent must be 0..100", s)
            else match ps_GetPolicyByID id s with
                 | Ok p => saves 200 (Engine.with_rollout p n) s
                 | Err _ => (http_error 404 "policy not found", s)
                 end)
  | RollbackPolicy id n =>
      Some (match ps_history with
            | None => (http_error 501 "policy rollback not supported", s)
            | Some hist =>
                match ho_versions hist id s with
                | Err _ => (http_error 500 "policy store error", s)
                | Ok versions =>
                    match selectVersionForRollback versions n with
                    | Some selected => saves 200 (with_id (ver_Snapshot selected) id) s
                    | None => (http_error 404 "policy version not found", s)
                    end
                end
            end)
  | ListPolicyAudit id =>
      Some (match ps_history with
            | None => http_error 501 "policy history not supported"
            | Some hist => match ho_audit hist id s with Ok l => ok_with (BodyAudits l) | Err _ => http_error 500 "policy store error" end
            end, s)
  | ListPolicyVersions id =>
      Some (match ps_history with
            | None => http_error 501 "policy versions not supported"
            | Some hist => match ho_versions hist id s with Ok l => ok_with (BodyVersions l) | Err _ => http_error 500 "policy store error" end
            end, s)
  | Check _ | Acquire _ | Release _ | AnalyticsSummary _ => None
  end.

(** What the client sees of a reply, and what becomes of the policies. *)
Definition seen (r : @Reply S) : HTTPResponse * S := (r.1.1, r.2).

(** What the other operations send: the document of the argument, the id of the lease,
    the number of the query. *)
Definition carries (c : ApiCall) (sent : Sent) : Prop :=
  match c with
  | Check v | Acquire v => st_Method sent = "POST" /\ st_Body sent = Some v
  | Release id => st_Method sent = "POST" /\ exists v, st_Body sent = Some v /\ lease_id_of_wire v = Some id
  | AnalyticsSummary top =>
      st_Method sent = "GET" /\ snd <$> cut (st_Path sent) "?" = (fun n => "top=" +:+ FormatInt n) <$> top
  | _ => True
  end.

Context (print : wire -> string) (parse : string -> option wire).

(** The body of a request, as the client writes it and as the server reads it. *)
Definition body_text (sent : Sent) : string := match st_Body sent with Some v => print v | None => "" end.
Definition decoded {A} (read : wire -> option A) (body : string) : result A :=
  match parse body ≫= read with Some a => Ok a | None => Err "invalid request" end.

Lemma decoded_sent {A} (read : wire -> option A) sent v : st_Body sent = Some v -> parse (print v) = Some v ->
  decoded read (body_text sent) = match read v with Some a => Ok a | None => Err "invalid request" end.
Proof. intros Hv Hp. unfold decoded, body_text. by rewrite Hv, Hp. Qed.

Lemma id_not_empty id : plain id = true -> String.eqb id "" = false.
Proof. intros [Hne _]%plain_parts. by apply String.eqb_neq. Qed.

Lemma rollout_sent n : in_int64 n -> rollout_of_wire (WObj [("rollout_percent", WInt n)]) = Some n.
Proof. intros Hn. unfold rollout_of_wire. cbn -[store_int64]. by rewrite store_int64_ok. Qed.

Lemma version_sent n : in_int64 n -> version_of_wire (WObj [("version", WInt n)]) = Some n.
Proof. intros Hn. unfold version_of_wire. cbn -[store_int64]. by rewrite store_int64_ok. Qed.

(** The case of the switch does what is meant. *)
Lemma switched_meant cfg now c path s r o :
  let sent := Python.request c in
  plain_call c = true -> (forall v, st_Body sent = Some v -> parse (print v) = Some v) ->
  switched cfg (decoded policy_of_wire) (decoded version_of_wire) (decoded rollout_of_wire) now c path (body_text sent) s r ->
  meant now c s = Some o -> seen r = o.
Proof.
  intros sent Hc Hp Hs Ho. unfold plain_call in Hc. apply andb_true_iff in Hc as [Hid Hn].
  pose proof (fun v Hv => decoded_sent policy_of_wire sent v Hv (Hp v Hv)) as Hpol.
  destruct c as [b|b|id| |id|v|id v|id|v|id n|id n|id|id|top]; cbn [call_id switched meant] in *; simplify_eq; destruct_and?; subst.
  - unfold ControlPlane.list_policies. by destruct (ps_ListPolicies s).
  - unfold get_policy. rewrite id_not_empty by done. by destruct (ps_GetPolicyByID _ s).
  - unfold create_policy, saves. rewrite (Hpol v eq_refl). destruct (policy_of_wire v) as [p|]; [|done]. by destruct (ps_UpsertPolicy _ s) as [[]].
  - unfold update_policy, saves. rewrite id_not_empty, (Hpol v eq_refl) by done. destruct (policy_of_wire v) as [p|]; [|done].
    by destruct (ps_UpsertPolicy _ s) as [[]].
  - unfold delete_policy. rewrite id_not_empty by done. by destruct (ps_DeletePolicy _ s) as [[]].
  - unfold validate_policy. rewrite (Hpol v eq_refl). destruct (policy_of_wire v) as [p|]; [|done]. by destruct (validatePolicy p).
  - unfold rollout_policy, saves. apply bool_decide_eq_true in Hn. rewrite id_not_empty, (decoded_sent rollout_of_wire sent _ eq_refl (Hp _ eq_refl)) by done.
    rewrite rollout_sent by done. destruct (_ || _); [done|]. destruct (ps_GetPolicyByID _ s) as [p|]; [|done].
    by destruct (ps_UpsertPolicy _ s) as [[]].
  - unfold rollback_policy, saves. apply bool_decide_eq_true in Hn. destruct ps_history as [hist|]; [|done].
    rewrite id_not_empty, (decoded_sent version_of_wire sent _ eq_refl (Hp _ eq_refl)) by done. rewrite version_sent by done.
    destruct (ho_versions hist _ s) as [[|x vs]|]; [|destruct (selectVersionForRollback _ n); [|done]; by destruct (ps_UpsertPolicy _ s) as [[]]|done].
    unfold selectVersionForRollback. by destruct (0 <? n).
  - unfold policy_audit. destruct ps_history as [hist|]; [|done]. rewrite id_not_empty by done. by destruct (ho_audit hist _ s).
  - unfold policy_versions. destruct ps_history as [hist|]; [|done]. rewrite id_not_empty by done. by destruct (ho_versions hist _ s).
Qed.

Lemma carries_call c : carries c (Python.request c).
Proof.
  destruct c as [b|b|id| |id|p|id p|id|p|id n|id v|id|id|top]; try done.
  - split; [done|]. by eexists.
  - split; [done|]. destruct top as [top|]; [|done]. cbn [Python.request st_Path sent_get].
    change ("?top=" +:+ FormatInt top) with ("?" +:+ ("top=" +:+ FormatInt top)).
    by rewrite (cut_app no_query "/rlaas/v1/analytics/summary" "?" "") by done.
Qed.
End Meaning.

Lemma route_call {St} ready (hs : Handlers St) c : plain_call c = true ->
  route (server_routes ready hs) (target_path (st_Path (Python.request c))) = Some (handler_of hs c).
Proof.
  intros Hc. destruct c as [b|b|id| |id|p|id p|id|p|id n|id v|id|id|top]; try done; cbn [Python.request st_Path st_Method sent_get sent_post sent_put sent_delete];
    try (assert (Hp : plain id = true) by (unfold plain_call in Hc; cbn [call_id] in Hc; by apply andb_true_iff in Hc as [? _]);
         apply plain_parts in Hp as [Hne Hp]; pose proof (plain_query id Hp) as Hq;
         rewrite target_path_id by (by rewrite ?str_all_app, Hq); apply route_policies; destruct id; done).
  destruct top as [top|]; [|done]. unfold target_path.
  change ("?top=" +:+ FormatInt top) with ("?" +:+ ("top=" +:+ FormatInt top)).
  by rewrite (cut_app no_query "/rlaas/v1/analytics/summary" "?" "") by done.
Qed.


(** ** Examples *)

Definition ruby : SdkClient := Build_SdkClient Ruby.request Ruby.locate.
Definition demo_handlers : Handlers nat :=
  {| hd_check := serve_ok; hd_acquire := serve_ok; hd_release := serve_ok; hd_policies := serve_ok;
     hd_summary := serve_ok; hd_metrics := serve_ok; hd_version := serve_ok; hd_demo := serve_ok |}.

(** The text of an object with one number. *)
Definition demo_print (v : wire) : string :=
  match v with WObj [(k, WInt n)] => "{" +:+ encode_string k +:+ ":" +:+ FormatInt n +:+ "}" | _ => "" end.
Definition demo_parse (text : string) : option wire :=
  if String.eqb text (demo_print (WObj [("rollout_percent", WInt 50)])) then Some (WObj [("rollout_percent", WInt 50)]) else None.


(** The method, the path and the first lines of the answer of the policy endpoints. *)
Definition answered_get (path : string) : Z * bool :=
  let '(resp, _, _) := demo_handler (store_policy "a" 1) 1 {| hr_Method := "GET"; hr_Path := path; hr_Body := "" |}
                         (upsert_payload noon (store_policy "audit" 1) two_versions) in
  (rs_Status resp, match rs_Body resp with BodyPolicy _ => true | _ => false end).

(** A policy called "audit" cannot be read: its path is that of an audit trail. *)
Example policy_named_audit :
  answered_get (st_Path (Python.request (GetPolicy "a"))) = (200, true) /\
  answered_get (st_Path (Python.request (GetPolicy "audit"))) = (200, false).
Proof. by vm_compute. Qed.

(** Ids go into paths as they are: one with a question mark asks for another policy. *)
Example id_not_escaped : target_path (st_Path (Node.request (DeletePolicy "a?b"))) = target_path (st_Path (Node.request (DeletePolicy "a"))).
Proof. reflexivity. Qed.

(** Behind a gateway with a path of its own, the Ruby client leaves that path out. *)
Example ruby_drops_base_path :
  let c := ListPolicies in
  Python.locate "https://gw.example/rlaas-api/" (st_Path (Python.request c)) = Some ("https://gw.example", "/rlaas-api/rlaas/v1/policies") /\
  Ruby.locate "https://gw.example/rlaas-api/" (st_Path (Ruby.request c)) = Some ("https://gw.example", "/rlaas/v1/policies").
Proof. by vm_compute. Qed.

(** The policies of the .NET client arrive without their id, modes and rollout: the
    server makes up an id, enforces what was in shadow mode, and applies to everybody what
    was rolled out to one in a hundred.  The Java client writes the same names. *)
Example dotnet_policy_changed :
  let p := {| DotNet.PolicyId := "p1"; DotNet.Name := "n"; DotNet.Enabled := true; DotNet.Priority := 1; DotNet.Scope := [];
              DotNet.Algorithm := [("type", WStr "fixed_window")]; DotNet.Action := "deny"; DotNet.FailureMode := "fail_closed";
              DotNet.EnforcementMode := "shadow"; DotNet.RolloutPercent := 1 |} in
  (fun q => (pol_PolicyID q, pol_Name q, pol_FailureMode q, pol_EnforcementMode q, pol_RolloutPercent q)) <$>
    policy_of_wire (DotNet.policy_json p) = Some ("", "n", "", "", 0).
Proof. by vm_compute. Qed.
