(* ===== verification/SdkCheck.v ===== *)
(** * sdk: checking a limit from a client

    What the clients of the eight languages make of a check: the document they send,
    and the decision, or the error, they make of the answer.  Numbers, truth and
    missing members are those of each language.  The JSON libraries of Java, Rust and
    C++ are third-party code, and parameters.  The theorem is that a check through the
    Python client is an evaluation, on the server, of the request it describes, and
    that every client but the Java one gets the decision of the server. *)

From Stdlib Require Import Ascii String.
From S2P Require Import Prelude GoString GoHash GoFloat GoTime GoJson Model Store Common MemoryStore Wire Provider Middleware Http SdkApi.
Local Open Scope Z_scope.
Local Open Scope stdpp_scope.

(** ** Answers *)

(** A response: its status, its text, and the document that the text is, if any. *)
Record HttpAnswer := { an_Status : Z; an_Text : string; an_Json : option wire }.

(** What a client raises: an error of the API, a text that is not the document it
    should be, or an error of the language on an unexpected document. *)
Inductive SdkError :=
| ApiError (status : Z) (message : string)
| DecodeError
| LanguageError.

Abbreviation outcome := (sum SdkError).

(** The member of an object; the last of equal names counts. *)
Fixpoint member (key : string) (ms : members) : option wire :=
  match ms with
  | [] => None
  | (k, v) :: rest => match member key rest with Some x => Some x | None => if String.eqb k key then Some v else None end
  end.

(** Members that are there. *)
Definition given {A} (name : string) (f : A -> wire) (x : option A) : members :=
  match x with Some a => [(name, f a)] | None => [] end.

Definition strings_wire (m : gmap string string) : wire := map_wire (Some m).

(** A text of white space, in ASCII. *)
Definition blank (s : string) : bool :=
  str_all (fun c => let n := nat_of_ascii c in (n =? 32)%nat || ((9 <=? n) && (n <=? 13))%nat) s.

(** ** Python *)

Module Python.
Record CheckRequest := {
  request_id : string; org_id : string; tenant_id : string; signal_type : string; operation : string;
  endpoint : string; method : string; user_id : option string; api_key : option string; tags : option (gmap string string)
}.

Record Decision := { allowed : bool; action : string; reason : string; remaining : Z; retry_after : string }.

(** [{k: v for k, v in payload.items() if v is not None}]. *)
Definition to_dict (r : CheckRequest) : wire :=
  WObj ([("request_id", WStr (request_id r)); ("org_id", WStr (org_id r)); ("tenant_id", WStr (tenant_id r));
         ("signal_type", WStr (signal_type r)); ("operation", WStr (operation r)); ("endpoint", WStr (endpoint r));
         ("method", WStr (method r))] ++
        given "user_id" WStr (user_id r) ++ given "api_key" WStr (api_key r) ++ given "tags" strings_wire (tags r)).

Section Client.
(** [str] of a float, a list or a dict, and [int] of a float or a text. *)
Context (repr : wire -> string) (int_of : wire -> option Z).

Definition str (v : wire) : string :=
  match v with
  | WStr s => s
  | WInt n => FormatInt n
  | WBool b => if b then "True" else "False"
  | WNull => "None"
  | _ => repr v
  end.

Definition truth (v : wire) : bool :=
  match v with
  | WNull => false
  | WBool b => b
  | WInt n => negb (n =? 0)
  | WNum x => negb (SpecFloat.SFeqb x fzero)
  | WStr s => negb (String.eqb s "")
  | WArr l => match l with [] => false | _ => true end
  | WObj ms => match ms with [] => false | _ => true end
  end.

Definition int (v : wire) : option Z :=
  match v with
  | WInt n => Some n
  | WBool b => Some (if b then 1 else 0)
  | WNum _ | WStr _ => int_of v
  | _ => None
  end.

Definition raise_http_error (a : HttpAnswer) : SdkError :=
  let message := "RLAAS API error (" +:+ FormatInt (an_Status a) +:+ ")" in
  ApiError (an_Status a)
    match an_Json a with
    | Some (WObj ms) => match member "error" ms with Some e => message +:+ ": " +:+ str e | None => message end
    | _ => message
    end.

(** [None] is the Python value. *)
Definition decode_response (a : HttpAnswer) : outcome (option wire) :=
  if 400 <=? an_Status a then inl (raise_http_error a)
  else if String.eqb (an_Text a) "" then inr None
  else match an_Json a with Some v => inr (Some v) | None => inl DecodeError end.

Definition delete_response (a : HttpAnswer) : outcome unit :=
  if 400 <=? an_Status a then inl (raise_http_error a) else inr tt.

Definition check_limit (a : HttpAnswer) : outcome Decision :=
  match decode_response a with
  | inl e => inl e
  | inr (Some (WObj data)) =>
      let get key dflt := default dflt (member key data) in
      let left := get "remaining" (WInt 0) in
      match int (if truth left then left else WInt 0) with
      | None => inl LanguageError
      | Some n =>
          inr {| allowed := truth (get "allowed" (WBool false)); action := str (get "action" (WStr ""));
                 reason := str (get "reason" (WStr "")); remaining := n; retry_after := str (get "retry_after" (WStr "")) |}
      end
  | inr _ => inl LanguageError
  end.
End Client.
End Python.

(** ** Node.js *)

(** [JSON.parse]: all numbers are doubles. *)
Fixpoint js_parse (v : wire) : wire :=
  match v with
  | WInt n => WNum (float_of_Z n)
  | WArr l => WArr (List.map js_parse l)
  | WObj ms => WObj (List.map (fun '(k, x) => (k, js_parse x)) ms)
  | v => v
  end.

Module Node.
(** A property; [None] is undefined. *)
Definition property (key : string) (v : wire) : option wire := match v with WObj ms => member key ms | _ => None end.

(** [v ?? dflt]. *)
Definition or_else (v : option wire) (dflt : wire) : wire := match v with None | Some WNull => dflt | Some x => x end.

(** [Boolean(v)]. *)
Definition truthy (v : option wire) : bool :=
  match v with
  | None | Some WNull => false
  | Some (WBool b) => b
  | Some (WInt n) => negb (n =? 0)
  | Some (WNum x) => negb (SpecFloat.SFeqb x fzero) && SpecFloat.SFeqb x x
  | Some (WStr s) => negb (String.eqb s "")
  | Some (WArr _) | Some (WObj _) => true
  end.

(** [compact]: without null, undefined and empty texts. *)
Definition compact (ms : members) : members :=
  List.filter (fun '(_, v) => match v with WNull => false | WStr s => negb (String.eqb s "") | _ => true end) ms.

Record Decision := { allowed : bool; action : wire; reason : wire; remaining : wire; retry_after : wire; policy_id : wire }.

Section Client.
(** The text of a value in a template. *)
Context (text_of : wire -> string).

(** The end of [_request]; [None] is null. *)
Definition settle (a : HttpAnswer) : outcome (option wire) :=
  if 400 <=? an_Status a then
    let msg := match an_Json a with
               | Some v => let e := property "error" (js_parse v) in
                           if truthy (Some (js_parse v)) && truthy e then match e with Some (WStr s) => s | Some x => text_of x | None => an_Text a end
                           else an_Text a
               | None => an_Text a
               end in
    inl (ApiError (an_Status a) ("RLAAS API error (" +:+ FormatInt (an_Status a) +:+ "): " +:+ msg))
  else if blank (an_Text a) then inr None
  else match an_Json a with Some v => inr (Some (js_parse v)) | None => inl DecodeError end.

Definition check (a : HttpAnswer) : outcome Decision :=
  match settle a with
  | inl e => inl e
  | inr None | inr (Some WNull) => inl LanguageError
  | inr (Some body) =>
      inr {| allowed := truthy (property "allowed" body); action := or_else (property "action" body) (WStr "");
             reason := or_else (property "reason" body) (WStr ""); remaining := or_else (property "remaining" body) (WNum fzero);
             retry_after := or_else (property "retry_after" body) (WStr ""); policy_id := or_else (property "policy_id" body) (WStr "") |}
  end.
End Client.

(** *** lib/middleware.js *)

(** What the middleware does with a request: the next handler runs, or an error goes to
    it, or the client is refused. *)
Inductive Gate :=
| Next
| NextError (e : SdkError)
| Refuse (status : Z) (body : members).

Definition refusal (d : Decision) : Gate :=
  Refuse 429 [("error", WStr "rate_limited"); ("action", action d); ("reason", reason d); ("retry_after", retry_after d)].

Definition rlaasExpress (failOpen : bool) (r : outcome Decision) : Gate :=
  match r with
  | inr d => if allowed d then Next else refusal d
  | inl err => if failOpen then Next else NextError err
  end.

(** The hook of Fastify: it returns, throws, or has sent a reply. *)
Definition rlaasPreHandler (failOpen : bool) (r : outcome Decision) : Gate :=
  match r with
  | inr d => if allowed d then Next else refusal d
  | inl err => if failOpen then Next else NextError err
  end.
End Node.

(** ** TypeScript *)

Module TypeScript.
(** [res.ok]. *)
Definition ok (status : Z) : bool := (200 <=? status) && (status <=? 299).

Definition api_error (a : HttpAnswer) : SdkError :=
  ApiError (an_Status a) ("RLAAS API error (" +:+ FormatInt (an_Status a) +:+ ")").

(** [None] is undefined. *)
Definition decode (a : HttpAnswer) : outcome (option wire) :=
  if negb (ok (an_Status a)) then inl (api_error a)
  else if an_Status a =? 204 then inr None
  else match an_Json a with Some v => inr (Some (js_parse v)) | None => inl DecodeError end.

Definition del (a : HttpAnswer) : outcome unit := if negb (ok (an_Status a)) then inl (api_error a) else inr tt.

Definition checkLimit (a : HttpAnswer) : outcome (option wire) := decode a.
End TypeScript.

(** ** Ruby *)

Module Ruby.
Record Decision := { allowed : option wire; action : option wire; reason : option wire; remaining : Z; retry_after : string; policy_id : string }.

(** [compact]: without nil and empty texts. *)
Definition compact (ms : members) : members :=
  List.filter (fun '(_, v) => negb match v with WNull => true | WStr s => String.eqb s "" | _ => false end) ms.

Section Client.
(** [to_s] of a float, an array or a hash, and [to_i] of a float or a text. *)
Context (inspect : wire -> string) (int_of : wire -> Z).

Definition to_s (v : option wire) : string :=
  match v with
  | None | Some WNull => ""
  | Some (WStr s) => s
  | Some (WInt n) => FormatInt n
  | Some (WBool b) => if b then "true" else "false"
  | Some x => inspect x
  end.

(** Only nil, numbers and texts have [to_i]. *)
Definition to_i (v : option wire) : option Z :=
  match v with
  | None | Some WNull => Some 0
  | Some (WInt n) => Some n
  | Some (WNum x) => Some (int_of (WNum x))
  | Some (WStr s) => Some (int_of (WStr s))
  | _ => None
  end.

Definition raise_for_status (a : HttpAnswer) : option SdkError :=
  if an_Status a <? 400 then None
  else Some (ApiError (an_Status a)
    match an_Json a with
    | Some (WObj ms) => match member "error" ms with
                        | None | Some WNull | Some (WBool false) => an_Text a
                        | e => to_s e
                        end
    | _ => an_Text a
    end).

(** [nil] is [None]. *)
Definition decode (a : HttpAnswer) : outcome (option wire) :=
  match raise_for_status a with
  | Some e => inl e
  | None => if blank (an_Text a) then inr None
            else match an_Json a with Some v => inr (Some v) | None => inl DecodeError end
  end.

Definition delete_req (a : HttpAnswer) : outcome unit :=
  match raise_for_status a with Some e => inl e | None => inr tt end.

(** [data[key]] of a hash, or of a text, which has the key as a part or not. *)
Definition index (data : wire) (key : string) : option (option wire) :=
  match data with
  | WObj ms => Some (member key ms)
  | WStr s => Some (match cut s key with Some _ => Some (WStr key) | None => None end)
  | _ => None
  end.

Definition check (a : HttpAnswer) : outcome Decision :=
  match decode a with
  | inl e => inl e
  | inr None => inl LanguageError
  | inr (Some data) =>
      default (inl LanguageError)
        (al ← index data "allowed"; ac ← index data "action"; re ← index data "reason";
         rem ← index data "remaining"; n ← to_i rem; ra ← index data "retry_after"; id ← index data "policy_id";
         Some (inr {| allowed := al; action := ac; reason := re; remaining := n; retry_after := to_s ra; policy_id := to_s id |}))
  end.
End Client.
End Ruby.

(** ** .NET *)

Module DotNet.
Record CheckRequest := {
  RequestId : string; OrgId : string; TenantId : string; SignalType : string; Operation : string; Endpoint : string;
  Method : string; UserId : option string; ApiKey : option string; Tags : option (gmap string string)
}.

Record Decision := { Allowed : bool; Action : option string; Reason : option string; Remaining : Z; RetryAfter : option string }.

Definition or_null {A} (f : A -> wire) (x : option A) : wire := match x with Some a => f a | None => WNull end.

(** [JsonSerializer.Serialize] with the defaults of the web: names in camel case, and
    null for what is null. *)
Definition to_wire (r : CheckRequest) : wire :=
  WObj [("requestId", WStr (RequestId r)); ("orgId", WStr (OrgId r)); ("tenantId", WStr (TenantId r));
        ("signalType", WStr (SignalType r)); ("operation", WStr (Operation r)); ("endpoint", WStr (Endpoint r));
        ("method", WStr (Method r)); ("userId", or_null WStr (UserId r)); ("apiKey", or_null WStr (ApiKey r));
        ("tags", or_null strings_wire (Tags r))].

Section Client.
(** Whether a member is that of a property, without regard to case, and the number
    that a text is read as. *)
Context (same_name : string -> string -> bool) (number_of : string -> option Z).

(** The members of a property, read one after the other. *)
Fixpoint property {A} (read : wire -> option A) (name : string) (ms : members) (a : A) : option A :=
  match ms with
  | [] => Some a
  | (k, v) :: rest => if same_name k name then a' ← read v; property read name rest a' else property read name rest a
  end.

Definition read_bool (v : wire) : option bool := match v with WBool b => Some b | _ => None end.
Definition read_string (v : wire) : option (option string) :=
  match v with WStr s => Some (Some s) | WNull => Some None | _ => None end.
Definition read_long (v : wire) : option Z :=
  match v with
  | WInt n => if (minInt64 <=? n) && (n <=? maxInt64) then Some n else None
  | WStr s => number_of s
  | _ => None
  end.

Definition read_decision (v : wire) : option Decision :=
  match v with
  | WObj ms =>
      allowed ← property read_bool "allowed" ms false; action ← property read_string "action" ms (Some "");
      reason ← property read_string "reason" ms (Some ""); remaining ← property read_long "remaining" ms 0;
      retryAfter ← property read_string "retryAfter" ms (Some "");
      Some {| Allowed := allowed; Action := action; Reason := reason; Remaining := remaining; RetryAfter := retryAfter |}
  | _ => None
  end.

Definition EnsureSuccess (a : HttpAnswer) : option SdkError :=
  if 400 <=? an_Status a then Some (ApiError (an_Status a) ("RLAAS API error (" +:+ FormatInt (an_Status a) +:+ ")")) else None.

(** [SendAsync]; [null] is [None]. *)
Definition SendAsync {A} (read : wire -> option A) (a : HttpAnswer) : outcome (option A) :=
  match EnsureSuccess a with
  | Some e => inl e
  | None => match an_Json a with
            | Some WNull => inr None
            | Some v => match read v with Some x => inr (Some x) | None => inl DecodeError end
            | None => inl DecodeError
            end
  end.

Definition CheckLimitAsync (a : HttpAnswer) : outcome (option Decision) := SendAsync read_decision a.

Definition DeletePolicyAsync (a : HttpAnswer) : outcome unit :=
  match EnsureSuccess a with Some e => inl e | None => inr tt end.
End Client.
End DotNet.

(** ** Java *)

Module Java.
Record CheckRequest := {
  requestId : option string; orgId : option string; tenantId : option string; signalType : option string;
  operation : option string; endpoint : option string; method : option string; userId : option string;
  apiKey : option string; tags : option (gmap string string)
}.

Record Decision := { allowed : bool; action : option string; reason : option string; remaining : Z; retryAfter : option string }.

(** The properties of the two beans, by their getters and setters. *)
Definition request_properties (r : CheckRequest) : members :=
  [("requestId", DotNet.or_null WStr (requestId r)); ("orgId", DotNet.or_null WStr (orgId r));
   ("tenantId", DotNet.or_null WStr (tenantId r)); ("signalType", DotNet.or_null WStr (signalType r));
   ("operation", DotNet.or_null WStr (operation r)); ("endpoint", DotNet.or_null WStr (endpoint r));
   ("method", DotNet.or_null WStr (method r)); ("userId", DotNet.or_null WStr (userId r));
   ("apiKey", DotNet.or_null WStr (apiKey r)); ("tags", DotNet.or_null strings_wire (tags r))].
Definition decision_properties : list string := ["allowed"; "action"; "reason"; "remaining"; "retryAfter"].

Section Client.
(** [objectMapper.writeValueAsString] of a request, and [objectMapper.readValue] of an
    answer as a decision, as a map and as a list. *)
Context (writeValue : CheckRequest -> wire) (readDecision : wire -> option Decision)
        (readObject : wire -> option members) (readArray : wire -> option (list members)).

Definition ensureSuccess (a : HttpAnswer) : option SdkError :=
  if 400 <=? an_Status a
  then Some (ApiError (an_Status a) ("RLAAS API error (" +:+ FormatInt (an_Status a) +:+ "): " +:+ an_Text a)) else None.

Definition read {A} (decode : wire -> option A) (v : option wire) : outcome A :=
  match v with
  | Some v => match decode v with Some x => inr x | None => inl DecodeError end
  | None => inl DecodeError
  end.

Definition readJson (a : HttpAnswer) : outcome Decision :=
  match ensureSuccess a with Some e => inl e | None => read readDecision (an_Json a) end.

Definition readMap (a : HttpAnswer) : outcome members :=
  match ensureSuccess a with
  | Some e => inl e
  | None => if blank (an_Text a) then inr [] else read readObject (an_Json a)
  end.

Definition readList (a : HttpAnswer) : outcome (list members) :=
  match ensureSuccess a with
  | Some e => inl e
  | None => if blank (an_Text a) then inr [] else read readArray (an_Json a)
  end.

Definition checkLimit (a : HttpAnswer) : outcome Decision := readJson a.

Definition deletePolicy (a : HttpAnswer) : outcome unit := match ensureSuccess a with Some e => inl e | None => inr tt end.
End Client.
End Java.

(** ** Rust *)

Module Rust.
Record CheckRequest := {
  request_id : string; org_id : string; tenant_id : string; signal_type : string; operation : string; endpoint : string;
  method : string; user_id : string; api_key : string; client_id : string; source_ip : string; region : string;
  environment : string; tags : gmap string string
}.

Record Decision := { allowed : bool; action : string; reason : string; remaining : Z; retry_after_ms : Z; policy_id : string }.

(** A member that [skip_serializing_if = "String::is_empty"] leaves out. *)
Definition unless_empty (name s : string) : members := if String.eqb s "" then [] else [(name, WStr s)].

(** The fields of the request, in order. *)
Definition fields (r : CheckRequest) : members :=
  [("request_id", WStr (request_id r)); ("org_id", WStr (org_id r)); ("tenant_id", WStr (tenant_id r));
   ("signal_type", WStr (signal_type r)); ("operation", WStr (operation r)); ("endpoint", WStr (endpoint r));
   ("method", WStr (method r))] ++
  unless_empty "user_id" (user_id r) ++ unless_empty "api_key" (api_key r) ++ unless_empty "client_id" (client_id r) ++
  unless_empty "source_ip" (source_ip r) ++ unless_empty "region" (region r) ++ unless_empty "environment" (environment r) ++
  (if decide (tags r = ∅) then [] else [("tags", strings_wire (tags r))]).

Section Client.
(** [serde_json::from_str] as the type of an answer, and the text [v["error"]] of a
    document that has one. *)
Context (error_text : wire -> option string).

(** [status.is_client_error() || status.is_server_error()]. *)
Definition check_status (status : Z) (text : string) (json : option wire) : option SdkError :=
  if (400 <=? status) && (status <=? 599)
  then Some (ApiError status (match json with Some v => default text (error_text v) | None => text end)) else None.

Definition decode {A} (from_str : wire -> option A) (a : HttpAnswer) : outcome A :=
  match check_status (an_Status a) (an_Text a) (an_Json a) with
  | Some e => inl e
  | None => match an_Json a with
            | Some v => match from_str v with Some x => inr x | None => inl DecodeError end
            | None => inl DecodeError
            end
  end.

Definition check (from_str : wire -> option Decision) (a : HttpAnswer) : outcome Decision := decode from_str a.

(** The text of an error is not read. *)
Definition delete_policy (a : HttpAnswer) : outcome unit :=
  match check_status (an_Status a) "" None with Some e => inl e | None => inr tt end.
End Client.
End Rust.

(** ** C++ *)

Module Cpp.
Record CheckRequest := {
  request_id : string; org_id : string; tenant_id : string; signal_type : string; operation : string; endpoint : string;
  method : string; user_id : string; api_key : string; client_id : string; source_ip : string; region : string;
  environment : string; tags : gmap string string
}.

Record Decision := { allowed : bool; action : string; reason : string; remaining : Z; retry_after_ms : Z; policy_id : string }.

(** The members that [check] sets. *)
Definition fields (req : CheckRequest) : members :=
  let unless_empty name s := if String.eqb s "" then [] else [(name, WStr s)] in
  [("request_id", WStr (request_id req)); ("org_id", WStr (org_id req)); ("tenant_id", WStr (tenant_id req));
   ("signal_type", WStr (signal_type req)); ("operation", WStr (operation req)); ("endpoint", WStr (endpoint req));
   ("method", WStr (method req))] ++
  unless_empty "user_id" (user_id req) ++ unless_empty "api_key" (api_key req) ++ unless_empty "client_id" (client_id req) ++
  unless_empty "source_ip" (source_ip req) ++ unless_empty "region" (region req) ++ unless_empty "environment" (environment req) ++
  (if decide (tags req = ∅) then [] else [("tags", strings_wire (tags req))]).

Section Client.
(** The text [j["error"]] of a document that has one, and [resp.value(name, dflt)] at
    the types it is used with. *)
Context (error_text : wire -> option string) (value_bool : wire -> string -> bool -> option bool)
        (value_string : wire -> string -> string -> option string) (value_int : wire -> string -> Z -> option Z)
        (value_long : wire -> string -> Z -> option Z).

(** The end of [Impl::request]. *)
Definition request (a : HttpAnswer) : outcome string :=
  if 400 <=? an_Status a then
    let msg := "HTTP " +:+ FormatInt (an_Status a) in
    inl (ApiError (an_Status a)
      match an_Json a with
      | Some j => match error_text j with Some e => msg +:+ ": " +:+ e | None => msg end
      | None => msg
      end)
  else inr (an_Text a).

Definition check (a : HttpAnswer) : outcome Decision :=
  match request a with
  | inl e => inl e
  | inr _ =>
      match an_Json a with
      | None => inl DecodeError
      | Some resp =>
          default (inl DecodeError)
            (al ← value_bool resp "allowed" false; ac ← value_string resp "action" ""; re ← value_string resp "reason" "";
             rem ← value_int resp "remaining" 0; ra ← value_long resp "retry_after_ms" 0; id ← value_string resp "policy_id" "";
             Some (inr {| allowed := al; action := ac; reason := re; remaining := rem; retry_after_ms := ra; policy_id := id |}))
      end
  end.
End Client.
End Cpp.

(** ** What the server answers *)

Section Server.
Context (float_lit : float64 -> option wire) (time_text : Time -> option string) (print : wire -> string).

Definition json_answer (status : Z) (v : wire) : HttpAnswer :=
  {| an_Status := status; an_Text := print v +:+ newline; an_Json := Some v |}.

(** The response to a check: the decision, or the error.  A decision that cannot be
    encoded leaves the body empty. *)
Definition check_answer (o : Outcome * option Decision) : HttpAnswer :=
  match o with
  | (Failed status, _) =>
      json_answer status (WObj [("error", WStr (if status =? 400 then "invalid request" else "rate limiter error"))])
  | (_, Some d) =>
      match decision_wire float_lit time_text d with
      | Some v => json_answer 200 v
      | None => {| an_Status := 200; an_Text := ""; an_Json := None |}
      end
  | (_, None) => {| an_Status := 200; an_Text := ""; an_Json := None |}
  end.
End Server.

(** The decision a response carries. *)
Definition carries (float_lit : float64 -> option wire) (time_text : Time -> option string) (a : HttpAnswer) (d : Decision) : Prop :=
  an_Status a = 200 /\ blank (an_Text a) = false /\
  exists v, an_Json a = Some v /\ decision_wire float_lit time_text d = Some v.

Section Delivery.
Context (float_lit : float64 -> option wire) (time_text : Time -> option string) (a : HttpAnswer) (d : Decision).
Hypothesis Hd : carries float_lit time_text a d.

(** The members of the answer. *)
Lemma carried : exists lit reset,
  an_Json a = Some (WObj
    [("allowed", WBool (dec_Allowed d)); ("action", WStr (dec_Action d)); ("reason", WStr (dec_Reason d));
     ("matched_policy_id", WStr (dec_MatchedPolicyID d)); ("matched_rule_key", WStr (dec_MatchedRuleKey d));
     ("limit_key", WStr (dec_LimitKey d)); ("remaining", WInt (dec_Remaining d));
     ("retry_after", WInt (dec_RetryAfter d)); ("reset_at", WStr reset); ("delay_for", WInt (dec_DelayFor d));
     ("sample_rate", lit); ("shadow_mode", WBool (dec_ShadowMode d)); ("metadata", map_wire (dec_Metadata d))]).
Proof.
  destruct Hd as (_ & _ & v & Ha & Hv). unfold decision_wire in Hv.
  destruct (float_lit _) as [lit|]; [|done]. destruct (time_text _) as [reset|]; [|done]. exists lit, reset.
  rewrite Ha. by injection Hv as <-.
Qed.

Lemma text_not_empty : String.eqb (an_Text a) "" = false.
Proof. destruct Hd as (_ & Hb & _). apply String.eqb_neq. intros E. by rewrite E in Hb. Qed.

Lemma python_delivered repr int_of :
  Python.check_limit repr int_of a =
  inr {| Python.allowed := dec_Allowed d; Python.action := dec_Action d; Python.reason := dec_Reason d;
         Python.remaining := dec_Remaining d; Python.retry_after := FormatInt (dec_RetryAfter d) |}.
Proof.
  destruct carried as (lit & reset & Ej), Hd as (Hs & Hb & _). unfold Python.check_limit, Python.decode_response.
  rewrite Hs, text_not_empty, Ej. cbn -[FormatInt map_wire]. destruct (dec_Remaining d =? 0) eqn:E; zify_bool; cbn -[FormatInt]; [|done].
  by rewrite E.
Qed.

Lemma node_delivered text_of :
  Node.check text_of a =
  inr {| Node.allowed := dec_Allowed d; Node.action := WStr (dec_Action d); Node.reason := WStr (dec_Reason d);
         Node.remaining := WNum (float_of_Z (dec_Remaining d)); Node.retry_after := WNum (float_of_Z (dec_RetryAfter d));
         Node.policy_id := WStr "" |}.
Proof.
  destruct carried as (lit & reset & Ej), Hd as (Hs & Hb & _). unfold Node.check, Node.settle. rewrite Hs, Hb, Ej. done.
Qed.

Lemma typescript_delivered : exists v, TypeScript.checkLimit a = inr (Some v) /\
  Node.property "allowed" v = Some (WBool (dec_Allowed d)) /\ Node.property "action" v = Some (WStr (dec_Action d)) /\
  Node.property "reason" v = Some (WStr (dec_Reason d)) /\
  Node.property "remaining" v = Some (WNum (float_of_Z (dec_Remaining d))) /\
  Node.property "retry_after" v = Some (WNum (float_of_Z (dec_RetryAfter d))).
Proof.
  destruct carried as (lit & reset & Ej), Hd as (Hs & _). unfold TypeScript.checkLimit, TypeScript.decode. rewrite Hs, Ej.
  eexists. split; [done|]. done.
Qed.

Lemma ruby_delivered inspect int_of :
  Ruby.check inspect int_of a =
  inr {| Ruby.allowed := Some (WBool (dec_Allowed d)); Ruby.action := Some (WStr (dec_Action d));
         Ruby.reason := Some (WStr (dec_Reason d)); Ruby.remaining := dec_Remaining d;
         Ruby.retry_after := FormatInt (dec_RetryAfter d); Ruby.policy_id := "" |}.
Proof.
  destruct carried as (lit & reset & Ej), Hd as (Hs & Hb & _). unfold Ruby.check, Ruby.decode, Ruby.raise_for_status.
  rewrite Hs, Hb, Ej. done.
Qed.

(** Names of ASCII are the same up to the case of their letters. *)
Definition ascii_text (s : string) : bool := str_all (fun c => (nat_of_ascii c <? 128)%nat) s.
Definition same_letters (k name : string) : bool := String.eqb (ToLower k) (ToLower name).

Lemma property_ascii same_name {A} (read : wire -> option A) name ms x :
  (forall k name, ascii_text k = true -> ascii_text name = true -> same_name k name = same_letters k name) ->
  ascii_text name = true -> forallb (fun '(k, _) => ascii_text k) ms = true ->
  DotNet.property same_name read name ms x = DotNet.property same_letters read name ms x.
Proof.
  intros Hs Hn. revert x. induction ms as [|[k v] ms IH]; intros x Hm; [done|]. cbn [forallb] in Hm.
  apply andb_true_iff in Hm as [Hk Hm]. cbn [DotNet.property]. rewrite (Hs k name Hk Hn), (IH x Hm).
  destruct (same_letters k name); [|done]. destruct (read v) as [x'|]; [|done]. by apply IH.
Qed.

Lemma dotnet_delivered same_name number_of :
  (forall k name, ascii_text k = true -> ascii_text name = true -> same_name k name = same_letters k name) ->
  in_int64 (dec_Remaining d) ->
  DotNet.CheckLimitAsync same_name number_of a =
  inr (Some {| DotNet.Allowed := dec_Allowed d; DotNet.Action := Some (dec_Action d); DotNet.Reason := Some (dec_Reason d);
               DotNet.Remaining := dec_Remaining d; DotNet.RetryAfter := Some "" |}).
Proof.
  intros Hsame [Hr1 Hr2]. destruct carried as (lit & reset & Ej), Hd as (Hs & _).
  unfold DotNet.CheckLimitAsync, DotNet.SendAsync, DotNet.EnsureSuccess. rewrite Hs, Ej. cbn [Z.leb Z.compare Pos.compare Pos.compare_cont].
  unfold DotNet.read_decision. rewrite !(property_ascii same_name) by done.
  cbn -[map_wire minInt64 maxInt64]. by rewrite (proj2 (Z.leb_le _ _) Hr1), (proj2 (Z.leb_le _ _) Hr2).
Qed.

(** *** Libraries of others *)

(** serde: a field of its type is taken, a field with a default that is missing has its
    default, and members without a field are skipped. *)
Definition serde_reads (from_str : wire -> option Rust.Decision) : Prop :=
  forall ms al ac re n,
    NoDup ms.*1 -> member "allowed" ms = Some (WBool al) -> member "action" ms = Some (WStr ac) ->
    member "reason" ms = Some (WStr re) -> member "remaining" ms = Some (WInt n) -> in_int64 n ->
    member "retry_after_ms" ms = None -> member "policy_id" ms = None ->
    from_str (WObj ms) = Some {| Rust.allowed := al; Rust.action := ac; Rust.reason := re; Rust.remaining := n;
                                 Rust.retry_after_ms := 0; Rust.policy_id := "" |}.

Lemma rust_delivered error_text from_str :
  serde_reads from_str -> in_int64 (dec_Remaining d) ->
  Rust.check error_text from_str a =
  inr {| Rust.allowed := dec_Allowed d; Rust.action := dec_Action d; Rust.reason := dec_Reason d;
         Rust.remaining := dec_Remaining d; Rust.retry_after_ms := 0; Rust.policy_id := "" |}.
Proof.
  intros Hread Hr. destruct carried as (lit & reset & Ej), Hd as (Hs & _). unfold Rust.check, Rust.decode, Rust.check_status.
  rewrite Hs, Ej. cbn [andb Z.leb Z.compare Pos.compare Pos.compare_cont].
  rewrite (Hread _ (dec_Allowed d) (dec_Action d) (dec_Reason d) (dec_Remaining d)); try done.
  apply (bool_decide_unpack _). by vm_compute.
Qed.

(** nlohmann/json: [value] is the member, converted to the type of the default, or the
    default when there is none. *)
Record nlohmann_reads (value_bool : wire -> string -> bool -> option bool) (value_string : wire -> string -> string -> option string)
    (value_int value_long : wire -> string -> Z -> option Z) : Prop := {
  nl_bool ms k b dflt : member k ms = Some (WBool b) -> value_bool (WObj ms) k dflt = Some b;
  nl_string ms k s dflt : member k ms = Some (WStr s) -> value_string (WObj ms) k dflt = Some s;
  nl_string_none ms k dflt : member k ms = None -> value_string (WObj ms) k dflt = Some dflt;
  nl_int ms k n dflt : member k ms = Some (WInt n) -> - 2 ^ 31 <= n < 2 ^ 31 -> value_int (WObj ms) k dflt = Some n;
  nl_long_none ms k dflt : member k ms = None -> value_long (WObj ms) k dflt = Some dflt
}.

Lemma cpp_delivered error_text value_bool value_string value_int value_long :
  nlohmann_reads value_bool value_string value_int value_long -> - 2 ^ 31 <= dec_Remaining d < 2 ^ 31 ->
  Cpp.check error_text value_bool value_string value_int value_long a =
  inr {| Cpp.allowed := dec_Allowed d; Cpp.action := dec_Action d; Cpp.reason := dec_Reason d;
         Cpp.remaining := dec_Remaining d; Cpp.retry_after_ms := 0; Cpp.policy_id := "" |}.
Proof.
  intros [H1 H2 H3 H4 H5] Hr. destruct carried as (lit & reset & Ej), Hd as (Hs & _). unfold Cpp.check, Cpp.request.
  rewrite Hs, Ej. cbn [Z.leb Z.compare Pos.compare Pos.compare_cont].
  rewrite (H1 _ _ (dec_Allowed d)), (H2 _ "action" (dec_Action d)), (H2 _ "reason" (dec_Reason d)),
    (H4 _ _ (dec_Remaining d)), (H5 _ "retry_after_ms"), (H3 _ "policy_id") by done. done.
Qed.

(** Jackson: a member that is not a property of the bean is an error, unless the mapper
    is told otherwise. *)
Definition jackson_strict (readDecision : wire -> option Java.Decision) : Prop :=
  forall ms k, k ∈ ms.*1 -> k ∉ Java.decision_properties -> readDecision (WObj ms) = None.

Lemma java_fails readDecision : jackson_strict readDecision -> Java.checkLimit readDecision a = inl DecodeError.
Proof.
  intros Hstrict. destruct carried as (lit & reset & Ej), Hd as (Hs & _). unfold Java.checkLimit, Java.readJson, Java.ensureSuccess.
  rewrite Hs, Ej. cbn [Z.leb Z.compare Pos.compare Pos.compare_cont Java.read].
  rewrite (Hstrict _ "matched_policy_id"); [done| |].
  - apply (bool_decide_unpack _). by vm_compute.
  - apply (bool_decide_unpack _). by vm_compute.
Qed.
End Delivery.

(** ** What the server receives *)

(** The context that a request of these fields describes. *)
Definition described (id org tenant signal op endp meth user key client ip reg env : string) (tags : GoMap) : RequestContext :=
  {| req_RequestID := id; req_OrgID := org; req_TenantID := tenant; req_Application := ""; req_Service := "";
     req_Environment := env; req_SignalType := signal; req_Operation := op; req_Endpoint := endp; req_Method := meth;
     req_UserID := user; req_APIKey := key; req_ClientID := client; req_SourceIP := ip; req_Region := reg;
     req_Resource := ""; req_Severity := ""; req_SpanName := ""; req_Topic := ""; req_ConsumerGroup := ""; req_JobType := "";
     req_Quantity := 0; req_Priority := ""; req_Timestamp := zeroTime; req_Tags := tags; req_Attributes := None |}.

Section Received.
Context (ParseTime : string -> option Time).

Lemma store_strings m : store_map (strings_wire m) None = Some (Some m).
Proof. apply (map_roundtrip (Some m)). Qed.

Definition python_context (r : Python.CheckRequest) : RequestContext :=
  described (Python.request_id r) (Python.org_id r) (Python.tenant_id r) (Python.signal_type r) (Python.operation r)
    (Python.endpoint r) (Python.method r) (default "" (Python.user_id r)) (default "" (Python.api_key r)) "" "" "" "" (Python.tags r).

Lemma python_received r : request_of_wire ParseTime (Python.to_dict r) = Some (python_context r).
Proof.
  destruct r as [id org tenant signal op endp meth user key tags]. unfold Python.to_dict, request_of_wire. cbn [store_struct].
  unfold decode_request. cbv zeta. cbn [Python.user_id Python.api_key Python.tags].
  destruct user, key, tags as [tags|]; cbn [given app]; read_fields; cbn -[store_map strings_wire]; by rewrite ?store_strings.
Qed.

(** The .NET client names its members in camel case, which the server skips: of the
    request only the operation, the endpoint, the method and the tags arrive. *)
Lemma dotnet_received r :
  request_of_wire ParseTime (DotNet.to_wire r) =
  Some (described "" "" "" "" (DotNet.Operation r) (DotNet.Endpoint r) (DotNet.Method r) "" "" "" "" "" "" (DotNet.Tags r)).
Proof.
  destruct r as [id org tenant signal op endp meth user key tags]. unfold DotNet.to_wire, request_of_wire. cbn [store_struct].
  unfold decode_request. cbv zeta. read_fields. destruct tags as [tags|]; cbn -[store_map strings_wire]; by rewrite ?store_strings.
Qed.

(** Those of the Java client are the properties of its bean. *)
Lemma java_received writeValue (r : Java.CheckRequest) : writeValue r = WObj (Java.request_properties r) ->
  request_of_wire ParseTime (writeValue r) =
  Some (described "" "" "" "" (default "" (Java.operation r)) (default "" (Java.endpoint r)) (default "" (Java.method r))
          "" "" "" "" "" "" (Java.tags r)).
Proof.
  intros ->. destruct r as [id org tenant signal op endp meth user key tags]. unfold Java.request_properties, request_of_wire.
  cbn [store_struct]. unfold decode_request. cbv zeta. read_fields.
  destruct op, endp, meth, tags as [tags|]; cbn -[store_map strings_wire]; by rewrite ?store_strings.
Qed.

(** *** Requests with optional texts *)

Lemma field_app {A} (store : wire -> A -> option A) tag ms1 ms2 x :
  field store tag (ms1 ++ ms2) x = y ← field store tag ms1 x; field store tag ms2 y.
Proof.
  revert x. induction ms1 as [|[k v] ms1 IH]; intros x; [done|]. cbn [app field].
  destruct (String.eqb _ tag); [|apply IH]. destruct (store v x) as [x'|]; [apply IH|done].
Qed.

(** A text that is left out when it is empty is stored as if it were there. *)
Lemma field_text tag name s :
  field store_string tag (Rust.unless_empty name s) "" = Some (if String.eqb (fold_name name) tag then s else "").
Proof. unfold Rust.unless_empty. destruct (String.eqb_spec s "") as [->|]; cbn; by destruct (String.eqb _ tag). Qed.

Lemma field_other {A} (store : wire -> A -> option A) tag name s x :
  String.eqb (fold_name name) tag = false -> field store tag (Rust.unless_empty name s) x = Some x.
Proof. intros H. unfold Rust.unless_empty. destruct (String.eqb s ""); cbn; by rewrite ?H. Qed.

(** [compact] leaves out members that would store the zero value. *)
Definition keeps_zero {A} (store : wire -> A -> option A) (zero : A) : Prop :=
  forall y, (store WNull zero = Some y -> y = zero) /\ (store (WStr "") zero = Some y -> y = zero).

Lemma compact_none {A} (store : wire -> A -> option A) tag ms x :
  tag ∉ (fold_name ∘ fst <$> ms) -> field store tag (Node.compact ms) x = Some x /\ field store tag ms x = Some x.
Proof.
  induction ms as [|[k v] ms IH]; [done|]. cbn [fmap list_fmap]. intros [Hk Hr]%not_elem_of_cons. destruct (IH Hr) as [E1 E2].
  cbn [field Node.compact List.filter compose fst]. cbn in Hk.
  assert (E : String.eqb (fold_name k) tag = false) by (by apply String.eqb_neq). rewrite E. split; [|done].
  destruct (match v with WNull => false | WStr s => _ | _ => true end); [|exact E1]. cbn [field]. by rewrite E.
Qed.

Lemma compact_field {A} (store : wire -> A -> option A) zero tag ms x :
  keeps_zero store zero -> NoDup (fold_name ∘ fst <$> ms) ->
  field store tag ms zero = Some x -> field store tag (Node.compact ms) zero = Some x.
Proof.
  intros Hz. induction ms as [|[k v] ms IH]; [done|]. cbn [fmap list_fmap]. intros [Hk Hd]%NoDup_cons.
  cbn [field]. destruct (String.eqb_spec (fold_name k) tag) as [<-|Hne].
  - destruct (compact_none store (fold_name k) ms x Hk) as [E1 E2]. destruct (store v zero) as [y|] eqn:Es; [|done].
    cbn [mbind option_bind]. destruct (compact_none store (fold_name k) ms y Hk) as [E3 E4]. rewrite E4. intros [= ->].
    cbn [Node.compact List.filter]. destruct (match v with WNull => false | WStr s => _ | _ => true end) eqn:Ev.
    + cbn [field]. rewrite String.eqb_refl, Es. exact E3.
    + assert (x = zero) as ->.
      { destruct v; try done; [exact (proj1 (Hz x) Es)|]. apply negb_false_iff, String.eqb_eq in Ev. subst. exact (proj2 (Hz x) Es). }
      by apply (compact_none store (fold_name k) ms zero).
  - intros H. specialize (IH Hd H). cbn [Node.compact List.filter].
    destruct (match v with WNull => false | WStr s => _ | _ => true end); [|exact IH]. cbn [field].
    by rewrite (proj2 (String.eqb_neq _ _) Hne).
Qed.

Lemma string_zero : keeps_zero store_string "".
Proof. intros y. cbn. split; congruence. Qed.
Lemma int_zero : keeps_zero store_int64 0.
Proof. intros y. cbn. split; congruence. Qed.
Lemma map_zero : keeps_zero store_map None.
Proof. intros y. cbn. split; congruence. Qed.

(** What the server receives of a request of the Node or the Ruby client is what it
    would receive of the whole request. *)
Lemma compact_received ms r :
  ParseTime "" = None -> NoDup (fold_name ∘ fst <$> ms) ->
  request_of_wire ParseTime (WObj ms) = Some r -> request_of_wire ParseTime (WObj (Node.compact ms)) = Some r.
Proof.
  intros Ht Hd. assert (time_zero : keeps_zero (store_time ParseTime) zeroTime).
  { intros y. split; [by intros [= <-]|]. cbn [store_time]. by rewrite Ht. }
  unfold request_of_wire. cbn [store_struct]. unfold decode_request. cbv zeta. intros H.
  repeat match type of H with
  | (field ?st ?tag ms ?z ≫= _) = Some r =>
      let E := fresh "E" in let x := fresh "x" in destruct (field st tag ms z) as [x|] eqn:E; [|discriminate H];
      apply (compact_field st z tag ms x) in E;
      [rewrite E; clear E; cbn [mbind option_bind] in H |- *
      |first [exact string_zero|exact int_zero|exact map_zero|exact time_zero]|exact Hd]
  end. exact H.
Qed.

Lemma ruby_compact ms : Ruby.compact ms = Node.compact ms.
Proof. unfold Ruby.compact, Node.compact. apply List.filter_ext. intros [k []]; done. Qed.

(** The optional texts of a request, and the member of its tags. *)
Definition texts (l : list (string * string)) : members := mjoin ((fun '(name, s) => Rust.unless_empty name s) <$> l).
Definition tag_member (tags : gmap string string) : members := if decide (tags = ∅) then [] else [("tags", strings_wire tags)].

Lemma texts_none {A} (store : wire -> A -> option A) tag l x :
  forallb (fun '(name, _) => negb (String.eqb (fold_name name) tag)) l = true -> field store tag (texts l) x = Some x.
Proof.
  induction l as [|[name s] l IH]; [done|]. cbn [forallb]. intros [Hn Hl]%andb_true_iff. apply negb_true_iff in Hn.
  unfold texts. cbn [fmap list_fmap mjoin list_join concat]. rewrite field_app, field_other by done. by apply IH.
Qed.

Lemma texts_one tag l1 name s l2 :
  forallb (fun '(name, _) => negb (String.eqb (fold_name name) tag)) (l1 ++ l2) = true -> fold_name name = tag ->
  field store_string tag (texts (l1 ++ (name, s) :: l2)) "" = Some s.
Proof.
  rewrite forallb_app. intros [H1 H2]%andb_true_iff Hn. unfold texts. rewrite fmap_app, join_app, field_app.
  rewrite (texts_none _ tag l1) by done. cbn [fmap list_fmap mjoin list_join concat mbind option_bind].
  rewrite field_app, field_text, Hn, String.eqb_refl. by apply (texts_none _ tag l2).
Qed.

Lemma tag_member_other {A} (store : wire -> A -> option A) tag tags x :
  String.eqb "tags" tag = false -> field store tag (tag_member tags) x = Some x.
Proof. intros H. unfold tag_member. case_decide; [done|]. cbn [field]. change (fold_name "tags") with "tags". by rewrite H. Qed.

(** A field that is not an optional one. *)
Lemma field_base {A} (store : wire -> A -> option A) tag base l tags x :
  forallb (fun '(name, _) => negb (String.eqb (fold_name name) tag)) l = true -> String.eqb "tags" tag = false ->
  field store tag (base ++ texts l ++ tag_member tags) x = field store tag base x.
Proof.
  intros Hl Ht. rewrite field_app. destruct (field store tag base x) as [y|]; [|done]. cbn [mbind option_bind].
  rewrite field_app, texts_none by done. cbn [mbind option_bind]. by apply tag_member_other.
Qed.

(** One that is. *)
Lemma field_optional tag base l i name s tags :
  l = take i l ++ (name, s) :: drop (S i) l ->
  positions tag base.*1 0 = [] -> String.eqb "tags" tag = false ->
  forallb (fun '(name, _) => negb (String.eqb (fold_name name) tag)) (take i l ++ drop (S i) l) = true -> fold_name name = tag ->
  field store_string tag (base ++ texts l ++ tag_member tags) "" = Some s.
Proof.
  intros El Hb Ht Hl Hn. rewrite field_app, (field_none store_string tag base 0 "" Hb). cbn [mbind option_bind].
  rewrite field_app, El, texts_one by done. cbn [mbind option_bind]. by apply tag_member_other.
Qed.

Lemma field_tags base l tags :
  positions "tags" base.*1 0 = [] -> forallb (fun '(name, _) => negb (String.eqb (fold_name name) "tags")) l = true ->
  field store_map "tags" (base ++ texts l ++ tag_member tags) None = Some (if decide (tags = ∅) then None else Some tags).
Proof.
  intros Hb Hl. rewrite field_app, (field_none store_map "tags" base 0 None Hb). cbn [mbind option_bind].
  rewrite field_app, texts_none by done. cbn [mbind option_bind]. unfold tag_member. case_decide; [done|].
  cbn [field]. change (String.eqb (fold_name "tags") "tags") with true. cbn iota. by rewrite store_strings.
Qed.

(** A request of seven texts, six optional ones and tags. *)
Lemma texts_received (id org tenant signal op endp meth user key client ip reg env : string) (tags : gmap string string) :
  request_of_wire ParseTime (WObj (
    [("request_id", WStr id); ("org_id", WStr org); ("tenant_id", WStr tenant); ("signal_type", WStr signal);
     ("operation", WStr op); ("endpoint", WStr endp); ("method", WStr meth)] ++
    texts [("user_id", user); ("api_key", key); ("client_id", client); ("source_ip", ip); ("region", reg); ("environment", env)] ++
    tag_member tags)) =
  Some (described id org tenant signal op endp meth user key client ip reg env (if decide (tags = ∅) then None else Some tags)).
Proof.
  unfold request_of_wire. cbn [store_struct]. unfold decode_request. cbv zeta.
  repeat match goal with
  | |- context [field ?st ?tag (?base ++ texts ?l ++ tag_member ?t) ?z] =>
      rewrite (field_base st tag base l t z) by (vm_compute; reflexivity)
  end.
  change (req_UserID zeroRequest) with "". change (req_APIKey zeroRequest) with "". change (req_ClientID zeroRequest) with "".
  change (req_SourceIP zeroRequest) with "". change (req_Region zeroRequest) with "". change (req_Environment zeroRequest) with "".
  change (req_Tags zeroRequest) with (@None (gmap string string)).
  set (base := [("request_id", WStr id); ("org_id", WStr org); ("tenant_id", WStr tenant); ("signal_type", WStr signal);
     ("operation", WStr op); ("endpoint", WStr endp); ("method", WStr meth)]).
  set (l := [("user_id", user); ("api_key", key); ("client_id", client); ("source_ip", ip); ("region", reg); ("environment", env)]).
  rewrite (field_optional "user_id" base l 0 "user_id" user), (field_optional "api_key" base l 1 "api_key" key),
    (field_optional "client_id" base l 2 "client_id" client), (field_optional "source_ip" base l 3 "source_ip" ip),
    (field_optional "region" base l 4 "region" reg), (field_optional "environment" base l 5 "environment" env)
    by (vm_compute; reflexivity).
  rewrite (field_tags base) by (vm_compute; reflexivity). unfold base. read_fields. done.
Qed.

Lemma rust_received (r : Rust.CheckRequest) :
  request_of_wire ParseTime (WObj (Rust.fields r)) =
  Some (described (Rust.request_id r) (Rust.org_id r) (Rust.tenant_id r) (Rust.signal_type r) (Rust.operation r)
          (Rust.endpoint r) (Rust.method r) (Rust.user_id r) (Rust.api_key r) (Rust.client_id r) (Rust.source_ip r)
          (Rust.region r) (Rust.environment r) (if decide (Rust.tags r = ∅) then None else Some (Rust.tags r))).
Proof.
  rewrite <- texts_received. do 2 f_equal. unfold Rust.fields, texts, tag_member. cbn [fmap list_fmap mjoin list_join concat].
  by rewrite <- !app_assoc, app_nil_l.
Qed.

Lemma cpp_received (r : Cpp.CheckRequest) :
  request_of_wire ParseTime (WObj (Cpp.fields r)) =
  Some (described (Cpp.request_id r) (Cpp.org_id r) (Cpp.tenant_id r) (Cpp.signal_type r) (Cpp.operation r)
          (Cpp.endpoint r) (Cpp.method r) (Cpp.user_id r) (Cpp.api_key r) (Cpp.client_id r) (Cpp.source_ip r)
          (Cpp.region r) (Cpp.environment r) (if decide (Cpp.tags r = ∅) then None else Some (Cpp.tags r))).
Proof. destruct r. apply (rust_received (Rust.Build_CheckRequest _ _ _ _ _ _ _ _ _ _ _ _ _ _)). Qed.
End Received.

(** ** From the client to the engine and back *)

Definition decoded_request (ParseTime : string -> option Time) (v : wire) : result RequestContext :=
  match request_of_wire ParseTime v with Some r => Ok r | None => Err "invalid request" end.

(** C17 (kind: refinement).  A check through the Python client is an evaluation of the request it describes: the
    server receives the fields of the request, evaluates once, and the client returns
    the verdict, the action, the reason and the tokens left of the decision, which is to
    have a JSON form; when the evaluation fails, the client raises the error of the server. *)
Theorem check_end_to_end {W : Type} (h : handler W) (eval : Evaluator) (t : Time) (ParseTime : string -> option Time)
    (float_lit : float64 -> option wire) (time_text : Time -> option string) (print : wire -> string)
    (repr : wire -> string) (int_of : wire -> option Z) (r : Python.CheckRequest) (w : W) (v : wire) :
  let '((d, err), w1) := run h (eval (python_context r)) w in
  decision_wire float_lit time_text d = Some v -> blank (print v +:+ newline) = false ->
  let '(o, w2) := run h (CheckHandler eval t (decoded_request ParseTime (Python.to_dict r))) w in
  let result := Python.check_limit repr int_of (check_answer float_lit time_text print o) in
  w2 = w1 /\
  match err with
  | None => exists wait, result = inr {| Python.allowed := dec_Allowed d; Python.action := dec_Action d;
              Python.reason := dec_Reason d; Python.remaining := dec_Remaining d; Python.retry_after := wait |}
  | Some _ => result = inl (ApiError 500 "RLAAS API error (500): rate limiter error")
  end.
Proof.
  unfold decoded_request. rewrite python_received. cbn [CheckHandler]. rewrite run_bind. unfold Answer in *.
  match goal with |- context [@run W h ?T (eval ?x) w] => destruct (@run W h T (eval x) w) as [[d err] w1] end. intros Hv Hb. destruct err as [e|]; cbn [run mret prog_mret]; cbv zeta; (split; [done|]).
  - done.
  - eexists. cbn [check_answer]. rewrite Hv. apply (python_delivered float_lit time_text). split_and!; [done|done|by exists v].
Qed.

(** The middleware of the Node client runs the next handler exactly when the decision
    of the server allows the request, or there is none and it fails open. *)
Lemma express_gate failOpen text_of a :
  Node.rlaasExpress failOpen (Node.check text_of a) = Node.Next <->
  match Node.check text_of a with inr d => Node.allowed d = true | inl _ => failOpen = true end.
Proof.
  unfold Node.rlaasExpress, Node.refusal. destruct (Node.check text_of a) as [e|d]; [by destruct failOpen|by destruct (Node.allowed d)].
Qed.

(** ** Examples *)

Definition demo_request : Python.CheckRequest :=
  {| Python.request_id := "r1"; Python.org_id := "acme"; Python.tenant_id := "t"; Python.signal_type := "http";
     Python.operation := "list"; Python.endpoint := "/items"; Python.method := "GET"; Python.user_id := Some "u";
     Python.api_key := None; Python.tags := None |}.
Definition demo_eval : Evaluator := fun r =>
  mret (overLimit 0 (mkPolicy "p" zeroScope zeroConfig ActionDeny) (2 * Second) 3 (req_OrgID r), None).
Definition demo_lit (x : float64) : option wire := Some (WNum x).
Definition demo_time (t : Time) : option string := Some (FormatInt t).
Definition demo_print (v : wire) : string := match v with WObj _ => "{}" | _ => "0" end.

Definition sdk_world : World := {| w_clock := 1000; w_store := NewSharded 1 |}.
Definition demo_decision : Decision := overLimit 0 (mkPolicy "p" zeroScope zeroConfig ActionDeny) (2 * Second) 3 "acme".

Lemma check_end_to_end_witness :
  let '(o, _) := run memory (CheckHandler demo_eval 0 (decoded_request (fun _ => None) (Python.to_dict demo_request))) sdk_world in
  exists wait, Python.check_limit (fun _ => "") (fun _ => None) (check_answer demo_lit demo_time demo_print o)
  = inr {| Python.allowed := false; Python.action := "deny"; Python.reason := "acme"; Python.remaining := 3;
           Python.retry_after := wait |}.
Proof.
  pose proof (check_end_to_end memory demo_eval 0 (fun _ => None) demo_lit demo_time demo_print (fun _ => "") (fun _ => None)
                demo_request sdk_world (default WNull (decision_wire demo_lit demo_time demo_decision))) as H.
  change (run memory (demo_eval (python_context demo_request)) sdk_world) with ((demo_decision, @None string), sdk_world) in H.
  specialize (H eq_refl eq_refl). destruct (run memory (CheckHandler _ _ _) sdk_world) as [o w2]. destruct H as [_ H]. exact H.
Defined.

(** A denial of the policy "p", and the answer that carries it. *)
Definition matched_decision : Decision :=
  {| dec_Allowed := false; dec_Action := ActionDeny; dec_Reason := "limit"; dec_MatchedPolicyID := "p"; dec_MatchedRuleKey := "";
     dec_LimitKey := "k"; dec_Remaining := 0; dec_RetryAfter := 2 * Second; dec_ResetAt := zeroTime; dec_DelayFor := 0;
     dec_SampleRate := fzero; dec_ShadowMode := false; dec_Metadata := None |}.
Definition demo_answer : HttpAnswer := check_answer demo_lit demo_time demo_print (Served 0 ∅, Some matched_decision).

(** A denial that asks for two seconds reaches the caller of the Python client as the
    text of two billion nanoseconds. *)
Example wait_in_nanoseconds :
  match Python.check_limit (fun _ => "") (fun _ => None) demo_answer with
  | inr d => Python.retry_after d = "2000000000"
  | inl _ => False
  end.
Proof. by vm_compute. Qed.

(** The Node and the Ruby client look for the policy under a name that the server does
    not use. *)
Example policy_id_lost :
  match Node.check (fun _ => "") demo_answer, Ruby.check (fun _ => "") (fun _ => 0) demo_answer with
  | inr n, inr r => Node.policy_id n = WStr "" /\ Ruby.policy_id r = ""
  | _, _ => False
  end.
Proof. by vm_compute. Qed.

(** serde and nlohmann/json, on the members that are looked for. *)
Definition demo_serde (v : wire) : option Rust.Decision :=
  match v with
  | WObj ms =>
      match member "allowed" ms, member "action" ms, member "reason" ms, member "remaining" ms with
      | Some (WBool al), Some (WStr ac), Some (WStr re), Some (WInt n) =>
          Some {| Rust.allowed := al; Rust.action := ac; Rust.reason := re; Rust.remaining := n;
                  Rust.retry_after_ms := match member "retry_after_ms" ms with Some (WInt m) => m | _ => 0 end;
                  Rust.policy_id := match member "policy_id" ms with Some (WStr s) => s | _ => "" end |}
      | _, _, _, _ => None
      end
  | _ => None
  end.

Lemma demo_serde_reads : serde_reads demo_serde.
Proof. intros ms al ac re n _ H1 H2 H3 H4 _ H5 H6. cbn. by rewrite H1, H2, H3, H4, H5, H6. Qed.

(** The Rust client tells the caller of a denial to wait for no time at all, of no
    policy. *)
Example wait_lost :
  Rust.check (fun _ => None) demo_serde demo_answer
  = inr {| Rust.allowed := false; Rust.action := "deny"; Rust.reason := "limit"; Rust.remaining := 0;
           Rust.retry_after_ms := 0; Rust.policy_id := "" |}.
Proof.
  apply (rust_delivered demo_lit demo_time demo_answer matched_decision); [|exact demo_serde_reads|done].
  split_and!; [done|done|]. eexists. by split.
Qed.

(** Jackson with its defaults, on objects. *)
Definition demo_jackson (v : wire) : option Java.Decision :=
  match v with
  | WObj ms => if decide (Forall (fun k => k ∈ Java.decision_properties) ms.*1)
               then Some {| Java.allowed := false; Java.action := None; Java.reason := None; Java.remaining := 0; Java.retryAfter := None |}
               else None
  | _ => None
  end.

(** The Java client cannot read any decision of the server. *)
Example java_cannot_read : jackson_strict demo_jackson /\ Java.checkLimit demo_jackson demo_answer = inl DecodeError.
Proof.
  assert (H : jackson_strict demo_jackson).
  { intros ms k Hk Hn. cbn. rewrite decide_False; [done|]. rewrite Forall_forall. intros H. by destruct (Hn (H k Hk)). }
  split; [done|]. apply (java_fails demo_lit demo_time demo_answer matched_decision); [|done].
  split_and!; [done|done|]. eexists. by split.
Qed.

(** The .NET client sends who is asking under names that the server does not know: the
    request arrives without organisation, tenant and user. *)
Example dotnet_anonymous :
  let r := {| DotNet.RequestId := "r1"; DotNet.OrgId := "acme"; DotNet.TenantId := "t"; DotNet.SignalType := "http";
              DotNet.Operation := "list"; DotNet.Endpoint := "/items"; DotNet.Method := "GET"; DotNet.UserId := Some "u";
              DotNet.ApiKey := None; DotNet.Tags := None |} in
  match request_of_wire (fun _ => None) (DotNet.to_wire r) with
  | Some ctx => req_OrgID ctx = "" /\ req_TenantID ctx = "" /\ req_UserID ctx = "" /\ req_SignalType ctx = "" /\ req_Endpoint ctx = "/items"
  | None => False
  end.
Proof. cbv zeta. by rewrite dotnet_received. Qed.

(** The Rust client drops the text of the error of a deletion. *)
Example delete_error_lost :
  let a := {| an_Status := 500; an_Text := "policy store error"; an_Json := None |} in
  Rust.delete_policy (fun _ => None) a = inl (ApiError 500 "") /\
  Rust.check (fun _ => None) demo_serde a = inl (ApiError 500 "policy store error").
Proof. by vm_compute. Qed.
